(* ===== verification/_CoqProject ===== *)
-Q . S2P
Prelude.v
Codec.v
Journal.v
LsmKey.v
Memtable.v
DataBlock.v
Journaled.v
Iterator.v
Policies.v
MemoCache.v
SstHeader.v
SsTable.v
SsTableRead.v
SsTableWrite.v
Manifest.v
ManifestManager.v
Lsm.v
LsmReads.v
LsmDurable.v
Page.v
TuplePage.v
BlockStore.v
BlockJournal.v
PageCache.v
PageCacheOk.v
PageCacheCrash.v
Heap.v
Engine.v
MemoryPool.v
Utf8.v
TextPage.v
Workspace.v
Float.v
Value.v
ValueCodec.v
Compare.v
KeyCodec.v
RustText.v
Temporal.v
FloatRange.v
Expression.v
ExprLike.v
ExprTyping.v
Binder.v
EngineRest.v
RowTable.v
RowTableOk.v
RowStore.v
SystemCatalog.v
Catalog.v
CatalogOk.v
CatalogRuns.v
Plan.v
Spill.v
Sort.v
SortOk.v
Joins.v
JoinsOk.v
GraceHash.v
GraceHashOk.v
Volcano.v
VolcanoOk.v
SqlTree.v
BindSql.v
Planner.v
PlannerOk.v
Server.v
ServerOk.v
