(* ===== verification/Prelude.v ===== *)
(** * strata-db: a verification of the database's layers

    strata-db is a SQL database in Rust.  This library models its crates from
    the bottom up as executable definitions and proves what each layer promises
    to the one above.

    ** The program and the files that model it

    - [crates/journal]: an append-only log of checksummed frames.  [Journal].
    - [crates/filesystem]: wire codec ([Codec]); pages with a header and a
      checksum ([Page]), slotted tuple pages ([TuplePage]); block stores in
      memory and in a file ([BlockStore]); the journal of page images
      ([BlockJournal]); eviction policies ([Policies]) and the memoizing cache
      built on them ([MemoCache]); the page cache with pins, latches, eviction
      and the journalled flush ([PageCache], its invariant in [PageCacheOk],
      its crash behaviour in [PageCacheCrash]); the tuple heap ([Heap]); chains
      of text pages ([TextPage]); the byte-accounted memory pool and its
      interleavings ([MemoryPool]); scratch workspaces ([Workspace]).
    - [crates/lsm]: keys, ranges, errors, configuration ([LsmKey]); the
      memtable ([Memtable]) and its journaled wrapper ([Journaled]); merge and
      version resolution ([Iterator]); data blocks ([DataBlock]), table headers
      and bloom filters ([SstHeader]), table files ([SsTable], reads in
      [SsTableRead], writes in [SsTableWrite]); manifest versions, edits and
      their codec ([Manifest]), the manifest's files ([ManifestManager]); the
      tree ([Lsm]), its reads ([LsmReads]), its histories and crashes
      ([LsmDurable]).
    - [crates/strata-store]: the engine, an LSM index over a tuple heap
      ([Engine]).
    - [crates/strata-db/src/storage]: UTF-8 ([Utf8]), IEEE floats ([Float], the
      casts to integers in [FloatRange]), the text of numbers ([RustText]) and
      of dates and intervals ([Temporal]); values and types ([Value]), the row
      codec ([ValueCodec]), comparison ([Compare]), the order-preserving key
      codec ([KeyCodec]); tables of rows over the engine ([EngineRest],
      [RowTable], their laws in [RowTableOk]), and the interface the layers
      above use them through ([RowStore]).
    - [crates/strata-db/src/catalog]: the metadata tables, their reads and
      writes and the handles of [Db], [Project] and [Dataset] ([Catalog]), what
      each operation does to the namespace ([CatalogOk]), runs of them
      ([CatalogRuns]); the system relations built from a catalog
      ([SystemCatalog]).
    - [crates/strata-db/src/query]: expressions, functions and casts
      ([Expression]), LIKE ([ExprLike]), what typing guarantees
      ([ExprTyping]); the binder's scopes, lowered expressions and inserted
      rows ([Binder]), the statement tree as the binder reads it ([SqlTree]),
      the walk that binds statements ([BindSql]); the stages, passes and builder
      of the planner ([Planner]), the shape of bound plans ([PlannerOk]); logical
      and physical plans, lowering and the scalar operators ([Plan]); spilling to
      workspaces ([Spill]); the sort operator ([Sort], [SortOk]);
      the nested-loop, block and merge joins ([Joins], [JoinsOk]); the grace
      hash join ([GraceHash], [GraceHashOk]); the dispatch of a plan to its
      operators and the write sinks ([Volcano]), what an executed plan answers
      ([VolcanoOk]).
    - [bins/strata-server] and [catalog/db.rs]: opening a database, running a
      text, the texts and codes of a reply, the engine's thread and its channel
      ([Server]); what clients see ([ServerOk]).

    A component's state is a [Record], its methods are functions on it; where
    components meet, the source's trait is a type class and a second class
    holds the laws a client relies on ([MemStoreOk], [EvictionPolicyOk],
    [BlockStoreOk], [WireOk], [WorkspaceOk], [RowStoreOk]), proved for each
    implementation.

    ** Conventions

    Results are [res E A]: [Ok], [Err], or [Panic] for what aborts the call in
    Rust.  A method on [&mut self] that can fail is an [SR S E A]: the state is
    kept on every outcome.  Machine integers are [Z] with the wrap-around or the
    range check written out; [usize] is 64 bits.  Bytes are [Byte.byte], files
    are lists of bytes, directories are finite maps.  I/O failures are
    arguments ([io_env], [create_env], [ckpt_env], [flush_env]): every operation that
    writes takes how its writes, syncs and truncations go, and its state after a
    failure is what it had written by then.  A crash is an operation whose I/O stops
    at some point: the files it leaves are those of the operation's own definition
    run with such an argument, an interrupted write keeping a prefix of its bytes,
    and for the page cache run over a disk that stops at its [k]-th write or sync,
    where blocks written since the last sync may hold anything ([survives]).  Error
    texts are kept as values ([message]); tracing and [Display] are left out.
    Overflow checks and [debug_assert!] are on, as in a debug build.

    Two kinds of counter are unbounded: the readers of a frame (a [u32] that would
    need 2^32 handles held at once, each of them an object in memory) and the clocks
    and frequencies of the eviction policies (a [u64] advanced once per access).  The
    channels of the server are tokio's: an unbounded queue in FIFO order that refuses
    a request once its receiver is gone, and a reply channel per request that reports
    an error when its sender is dropped.  They are modelled by that documented
    behaviour, in [Server].

    Code outside the repository is a parameter: CRC-32 and CRC-32C (only their
    width is assumed; both are instantiated by the polynomial's definition),
    the bloom filter's bit vector ([FastBloom]: no false negatives),
    rust_decimal and serde_json ([RustDecimal], [SerdeJson]), the float
    printer and parser and the Unicode case maps ([StdText]), chrono and
    pg_interval ([Calendar], [ExprCrates]), the JSON of an expression and of
    catalog metadata ([BinderCrates], [ExprJson], [Serde]), sqlparser's parser
    ([SqlParser]; of its tree, [SqlTree] has the variants and fields the binder
    matches on and one constructor for the rest), XXH3 ([Xxh3]: no assumption
    but its type), pgwire's rows ([PgWire]).  Ids minted from the clock are arguments.  A theorem that relies on one of them has a witness at a concrete
    instance.

    Fuel appears where a Rust loop has no structural measure: the clock's sweep
    (two turns suffice), a scan's merge and block loops ([scan_fuel], computed
    from the tree that is scanned, suffices), the text chain (bounded by its pages), the cursor of a
    workspace (bounded by its pages), the scan of a LIKE
    pattern ([like_fuel]), the merge of sorted runs (the number of tuples), the
    block join (the number of outer rows), the merge join (the sum of the
    lengths), the grace join's stream (an amount that suffices is shown to
    exist and any larger one gives the same rows).  Theorems that use fuel say how much is
    enough and conclude that the result is returned.

    ** What the theorems show

    - Refinement.  A journal is its list of acknowledged records; a manifest
      the fold of its edits; the tree a history of writes, read at any sequence
      number, scanned as a snapshot, across flushes and reopens; the page cache
      a map of blocks; a tuple page and the heap maps from locations to bytes;
      the engine a map from keys to bytes, read and scanned through index and
      heap; a workspace the list of tuples it acknowledged.
    - Crash safety.  An append, commit, checkpoint, table flush or page flush that
      stops anywhere leaves after recovery the state before or the state after.
      The runs they start from are of acknowledged operations; a write that the
      memtable refuses is logged all the same, and the theorems on writes and on
      reopening say what the files do after it.
    - Round trips of every on-disk structure, bounds (pool cap, cache budget,
      workspace capacity), latching, termination of the clock.
    - The query layer.  Rows and keys round trip and keys order as their
      values; a typed expression evaluates to a value of its type or to an
      error the code names; a table is a map from primary keys to rows; sorting
      is the stable sort of its input whatever is spilled; every join operator
      returns the pairs of the relational join, the grace join up to order.
    - The catalog.  After any run of creations, replacements, drops and row
      writes a name resolves to the table a map of names says, and a replaced
      table starts empty.
    - Statements.  The plan bound from a SELECT carries the schemas of its rows
      and refers to columns they have; a SELECT sent to the server is answered
      with the rows its plan means over the stored ones; INSERT and DELETE write
      what their source yielded before the statement; a text with a statement
      that does not bind runs nothing.
    - The server.  Whatever the interleaving of clients and the engine's thread,
      the results are those of the texts run one at a time in the order they
      were sent, and every request is answered: with its result up to the first
      text that panics, with an error from there on.
    - Errors and defects.  Some theorems state what the code does where it
      departs from its comments or loses data: appends behind a torn tail, a
      checkpoint over a torn checkpoint, a refused write that blocks the next
      open, a version that straddles two blocks, a free id handed out twice, a
      NULL key after a match in a merge join, a descending sort of text, a pool
      counter that wraps, a scratch file that grows past its budget.

    ** Not modelled

    Thread scheduling outside the memory pool and the server's channel (the stores are single-threaded
    [Rc]/[RefCell] structures), O_DIRECT alignment and the [pread]/[pwrite]
    wrappers of [file.rs], path names, [Display], tracing, temporary
    directories.  In the query layer: the SQL parser (a crate), the streaming
    of rows (a stream is the list of what it yields, read to its end where it
    is built; a LIMIT takes a prefix of it), aggregation, grouping and
    subqueries (the binder refuses them).  Of the server, the listener, the
    startup handshake and the wire format (a crate); the shell and test
    binaries. *)

From Stdlib Require Import Strings.Byte ZArith Lia.
From stdpp Require Import prelude list gmap strings.

Local Open Scope Z_scope.

(** ** Results

    A Rust [Result<A, E>], with the third outcome a Rust call can have: a
    panic (an index out of range, a failed [unwrap], [BTreeMap::range] on an
    inverted range). *)

Inductive res (E A : Type) : Type :=
| Ok (a : A)
| Err (e : E)
| Panic.
Arguments Ok {E A} a.
Arguments Err {E A} e.
Arguments Panic {E A}.

(** The [?] operator: stdpp's bind notation on results. *)
#[global] Instance res_ret {E} : MRet (res E) := fun A a => Ok a.
#[global] Instance res_bind {E} : MBind (res E) := fun A B f m =>
  match m with Ok a => f a | Err e => Err e | Panic => Panic end.

(** [Result::map_err]. *)
Definition map_err {E F A} (f : E -> F) (m : res E A) : res F A :=
  match m with Ok a => Ok a | Err e => Err (f e) | Panic => Panic end.

(** [Result::map]. *)
Definition map_ok {E A B} (f : A -> B) (m : res E A) : res E B :=
  match m with Ok a => Ok (f a) | Err e => Err e | Panic => Panic end.

(** [Iterator::collect::<Result<Vec<_>, _>>]: the first error wins. *)
Fixpoint collect_res {E A} (l : list (res E A)) : res E (list A) :=
  match l with
  | [] => Ok []
  | m :: l' => a ← m; as_ ← collect_res l'; Ok (a :: as_)
  end.

Lemma bind_Ok {E A B} (f : A -> res E B) (a : A) : (Ok a ≫= f) = f a.
Proof. reflexivity. Qed.

Lemma Ok_inj {E A} (a b : A) : @Ok E A a = Ok b -> a = b.
Proof. by intros [= ->]. Qed.

(** Run the binds whose first computation is an [Ok]. *)
Ltac bind_ok := repeat (rewrite bind_Ok; cbv beta iota).

Lemma collect_res_Ok {E A} (l : list A) : collect_res (E := E) (Ok <$> l) = Ok l.
Proof. induction l as [|a l IH]; [done|]. cbn in *. by rewrite IH. Qed.

Lemma collect_res_map {E A B} (f : A -> res E B) (g : A -> B) (l : list A) :
  (forall x, x ∈ l -> f x = Ok (g x)) -> collect_res (map f l) = Ok (map g l).
Proof.
  induction l as [|x l IH]; intros H; [done|]. cbn [map collect_res].
  rewrite H by left. rewrite bind_Ok, IH; [done|]. intros y Hy. apply H. by right.
Qed.

(** ** Stateful operations

    A method on [&mut self] that can fail: the state is kept on every outcome,
    and [?] stops at the first error or panic. *)

Definition SR (S E A : Type) : Type := S -> S * res E A.

#[global] Instance sr_ret {S E} : MRet (SR S E) := fun A a s => (s, Ok a).
#[global] Instance sr_bind {S E} : MBind (SR S E) := fun A B f m s =>
  match m s with
  | (s', Ok a) => f a s'
  | (s', Err e) => (s', Err e)
  | (s', Panic) => (s', Panic)
  end.

Definition sr_get {S E} : SR S E S := fun s => (s, Ok s).
Definition sr_modify {S E} (f : S -> S) : SR S E unit := fun s => (f s, Ok tt).
Definition sr_lift {S E A} (r : res E A) : SR S E A := fun s => (s, r).

(** [for x in l { m(x)?; }]. *)
Fixpoint sr_for {S E A} (l : list A) (m : A -> SR S E unit) : SR S E unit :=
  match l with
  | [] => mret tt
  | x :: l' => _ ← m x; sr_for l' m
  end.

Lemma sr_bind_ok {S E A B} (m : SR S E A) (f : A -> SR S E B) s s' a :
  m s = (s', Ok a) -> (m ≫= f) s = f a s'.
Proof. unfold mbind, sr_bind. by intros ->. Qed.

Lemma sr_bind_err {S E A B} (m : SR S E A) (f : A -> SR S E B) s s' e :
  m s = (s', Err e) -> (m ≫= f) s = (s', Err e).
Proof. unfold mbind, sr_bind. by intros ->. Qed.

Lemma sr_bind_inv {S E A B} (m : SR S E A) (f : A -> SR S E B) s s' b :
  (m ≫= f) s = (s', Ok b) -> exists s1 a, m s = (s1, Ok a) /\ f a s1 = (s', Ok b).
Proof. unfold mbind, sr_bind. destruct (m s) as [s1 [a|e|]]; [|done..]. intros H. by exists s1, a. Qed.

(** What every step keeps, a loop keeps, wherever it stops. *)
Lemma sr_bind_keeps {S E A B} (P : S -> Prop) (m : SR S E A) (f : A -> SR S E B) s :
  P (m s).1 -> (forall s' a, m s = (s', Ok a) -> P s' -> P (f a s').1) -> P ((m ≫= f) s).1.
Proof. unfold mbind, sr_bind. destruct (m s) as [s1 [a|e|]]; cbn; auto. Qed.

Lemma sr_for_keeps {S E A} (P : S -> Prop) (l : list A) (m : A -> SR S E unit) s :
  (forall x s, x ∈ l -> P s -> P (m x s).1) -> P s -> P (sr_for l m s).1.
Proof.
  revert s. induction l as [|x l IH]; intros s H Hs; cbn [sr_for]; [exact Hs|]. apply sr_bind_keeps; [apply H; [by left|done]|].
  intros s' [] _ Hs'. apply IH; [|done]. intros y s2 Hy. apply H. by right.
Qed.

Lemma sr_bind_get {S E B} (f : S -> SR S E B) s : (sr_get ≫= f) s = f s s.
Proof. reflexivity. Qed.

Lemma sr_bind_modify {S E B} (g : S -> S) (f : unit -> SR S E B) s : (sr_modify g ≫= f) s = f tt (g s).
Proof. reflexivity. Qed.

(** ** I/O errors and rendered messages

    The [std::io::Error]s the code distinguishes, and the strings it builds
    for its own errors: a literal, a literal with one number formatted into
    it, or another error's [to_string]. *)

Inductive io_error : Type :=
| IoUnexpectedEof
| IoInvalidData (what : string)
| IoNotFound
| IoOs (errno : Z).

#[global] Instance io_error_eq_dec : EqDecision io_error.
Proof. solve_decision. Defined.

(** [errno] for "no space left on device". *)
Definition ENOSPC : Z := 28.

(** How one [write_all] of the environment goes: every byte is stored, or the
    first [written] bytes are stored and the call fails. *)
Inductive io_step : Type :=
| IoDone
| IoFail (written : nat) (e : io_error).

(** ** Bytes *)

Definition byteZ (b : byte) : Z := Z.of_N (Byte.to_N b).

(** The [as u8] cast: reduction modulo 256. *)
Definition byte_of (z : Z) : byte :=
  match Byte.of_N (Z.to_N (z mod 256)) with Some b => b | None => x00 end.

Lemma byteZ_range b : 0 <= byteZ b < 256.
Proof. unfold byteZ. pose proof (Byte.to_N_bounded b). lia. Qed.

Lemma byteZ_byte_of z : byteZ (byte_of z) = z mod 256.
Proof.
  unfold byteZ, byte_of. pose proof (Z.mod_pos_bound z 256 ltac:(lia)).
  pose proof (Byte.to_of_N_option_map (Z.to_N (z mod 256))) as Hm.
  replace (Z.to_N (z mod 256) <=? 255)%N with true in Hm
    by (symmetry; apply N.leb_le; lia).
  destruct (Byte.of_N _) as [b|] eqn:E; simpl in Hm; [|done].
  injection Hm as ->. lia.
Qed.

Lemma byte_of_byteZ b : byte_of (byteZ b) = b.
Proof.
  unfold byte_of. rewrite Z.mod_small by apply byteZ_range.
  unfold byteZ. rewrite N2Z.id, Byte.of_to_N. done.
Qed.

#[global] Instance byteZ_inj : Inj (=) (=) byteZ.
Proof. intros a b H. rewrite <- (byte_of_byteZ a), H. apply byte_of_byteZ. Qed.

#[global] Instance byte_eq_decision : EqDecision byte := Byte.byte_eq_dec.

#[global] Instance byte_countable : Countable byte.
Proof. apply (inj_countable' byteZ byte_of), byte_of_byteZ. Defined.

(** *** Big-endian integers: [to_be_bytes] and [from_be_bytes] *)

Fixpoint be_bytes (n : nat) (z : Z) : list byte :=
  match n with
  | O => []
  | S m => byte_of (z / 256 ^ Z.of_nat m) :: be_bytes m z
  end.

Definition be_value (l : list byte) : Z :=
  foldl (fun acc b => acc * 256 + byteZ b) 0 l.

Lemma length_be_bytes n z : length (be_bytes n z) = n.
Proof. induction n; simpl; congruence. Qed.

Lemma foldl_be acc l :
  foldl (fun a b => a * 256 + byteZ b) acc l
  = acc * 256 ^ Z.of_nat (length l) + be_value l.
Proof.
  unfold be_value. revert acc. induction l as [|b l IH]; intros acc; cbn [foldl length].
  - change (256 ^ Z.of_nat 0) with 1. lia.
  - rewrite IH, (IH (0 * 256 + byteZ b)), Nat2Z.inj_succ, Z.pow_succ_r by lia. ring.
Qed.

Lemma be_value_cons b l :
  be_value (b :: l) = byteZ b * 256 ^ Z.of_nat (length l) + be_value l.
Proof. unfold be_value at 1. cbn [foldl]. rewrite foldl_be. ring. Qed.

Lemma be_value_app l1 l2 :
  be_value (l1 ++ l2) = be_value l1 * 256 ^ Z.of_nat (length l2) + be_value l2.
Proof. unfold be_value at 1. rewrite foldl_app, foldl_be. done. Qed.

Lemma pow256_pos n : 0 < 256 ^ Z.of_nat n.
Proof. apply Z.pow_pos_nonneg; lia. Qed.

Lemma be_value_bound l : 0 <= be_value l < 256 ^ Z.of_nat (length l).
Proof.
  induction l as [|b l IH]; [split; [done | reflexivity]|].
  rewrite be_value_cons. cbn [length]. rewrite Nat2Z.inj_succ, Z.pow_succ_r by lia.
  pose proof (byteZ_range b). nia.
Qed.

Lemma be_bytes_mod n z k :
  (n <= k)%nat -> be_bytes n (z mod 256 ^ Z.of_nat k) = be_bytes n z.
Proof.
  induction n as [|n IH]; intros Hk; [done|]. cbn [be_bytes].
  rewrite IH by lia. f_equal. apply (inj byteZ). rewrite !byteZ_byte_of.
  set (p := 256 ^ Z.of_nat n). pose proof (pow256_pos n) as Hp. fold p in Hp.
  assert (E : 256 ^ Z.of_nat k = p * 256 ^ Z.of_nat (k - n)).
  { unfold p. rewrite <- Z.pow_add_r by lia. f_equal. lia. }
  rewrite E, Z.rem_mul_r by (pose proof (pow256_pos (k - n)); lia).
  rewrite Z.mul_comm, Z.div_add, Z.div_small, Z.add_0_l
    by (try apply Z.mod_pos_bound; lia).
  destruct (k - n)%nat as [|d] eqn:Ed; [lia|].
  rewrite Nat2Z.inj_succ, Z.pow_succ_r by lia.
  rewrite Z.rem_mul_r by (pose proof (pow256_pos d); lia).
  rewrite Z.mul_comm, Z.mod_add, Z.mod_mod by lia. done.
Qed.

Lemma be_value_be_bytes n z : be_value (be_bytes n z) = z mod 256 ^ Z.of_nat n.
Proof.
  induction n as [|n IH].
  - cbn. by rewrite Z.mod_1_r.
  - cbn [be_bytes]. rewrite be_value_cons, length_be_bytes, IH, byteZ_byte_of.
    rewrite Nat2Z.inj_succ, Z.pow_succ_r by lia.
    rewrite (Z.mul_comm 256), Z.rem_mul_r by (pose proof (pow256_pos n); lia). ring.
Qed.

Lemma be_value_be_bytes_small n z :
  0 <= z < 256 ^ Z.of_nat n -> be_value (be_bytes n z) = z.
Proof. intros H. rewrite be_value_be_bytes. by apply Z.mod_small. Qed.

Lemma be_bytes_be_value n l : length l = n -> be_bytes n (be_value l) = l.
Proof.
  intros <-. induction l as [|b l IH]; [done|]. cbn [length be_bytes].
  pose proof (be_value_bound l) as Hb. pose proof (pow256_pos (length l)) as Hp.
  rewrite be_value_cons. f_equal.
  - rewrite Z.div_add_l, Z.div_small, Z.add_0_r by lia. apply byte_of_byteZ.
  - rewrite <- (be_bytes_mod (length l) _ (length l)) by lia.
    rewrite Z.add_comm, Z.mod_add, Z.mod_small by lia. done.
Qed.

#[global] Arguments be_bytes : simpl never.
#[global] Arguments be_value : simpl never.
#[global] Arguments byte_of : simpl never.
#[global] Arguments byteZ : simpl never.

(** Widths of the machine integers of the source. *)
Definition u16_max : Z := 2 ^ 16 - 1.
Definition u32_max : Z := 2 ^ 32 - 1.
Definition u64_max : Z := 2 ^ 64 - 1.
Definition is_u8 (z : Z) : Prop := 0 <= z < 256.
Definition is_u16 (z : Z) : Prop := 0 <= z <= u16_max.
Definition is_u32 (z : Z) : Prop := 0 <= z <= u32_max.
Definition is_u64 (z : Z) : Prop := 0 <= z <= u64_max.
Definition wrap16 (z : Z) : Z := z mod 2 ^ 16.
Definition wrap32 (z : Z) : Z := z mod 2 ^ 32.
Definition wrap64 (z : Z) : Z := z mod 2 ^ 64.

Ltac unfold_widths :=
  unfold is_u8, is_u16, is_u32, is_u64, wrap16, wrap32, wrap64, u16_max, u32_max, u64_max in *.

(** [lia] after unfolding the widths. *)
Ltac ulia := unfold_widths; lia.

Lemma be_u16 z : is_u16 z -> be_value (be_bytes 2 z) = z.
Proof. intros. apply be_value_be_bytes_small. change (256 ^ Z.of_nat 2) with (2 ^ 16). ulia. Qed.

Lemma be_u32 z : is_u32 z -> be_value (be_bytes 4 z) = z.
Proof. intros. apply be_value_be_bytes_small. change (256 ^ Z.of_nat 4) with (2 ^ 32). ulia. Qed.

Lemma be_u64 z : is_u64 z -> be_value (be_bytes 8 z) = z.
Proof. intros. apply be_value_be_bytes_small. change (256 ^ Z.of_nat 8) with (2 ^ 64). ulia. Qed.

Lemma be_value_u16 l : length l = 2%nat -> is_u16 (be_value l).
Proof. intros H. pose proof (be_value_bound l) as B. rewrite H in B.
  change (256 ^ Z.of_nat 2) with (2 ^ 16) in B. ulia. Qed.

Lemma be_value_u32 l : length l = 4%nat -> is_u32 (be_value l).
Proof. intros H. pose proof (be_value_bound l) as B. rewrite H in B.
  change (256 ^ Z.of_nat 4) with (2 ^ 32) in B. ulia. Qed.

Lemma be_value_u64 l : length l = 8%nat -> is_u64 (be_value l).
Proof. intros H. pose proof (be_value_bound l) as B. rewrite H in B.
  change (256 ^ Z.of_nat 8) with (2 ^ 64) in B. ulia. Qed.

(** ** Comparison functions

    [Ord::cmp] of the source: a three-way comparison that is a total preorder.
    [Eq] need not mean equality ([InternalKey] compares without its [op]). *)

Class TotalCmp {A : Type} (cmp : A -> A -> comparison) : Prop := {
  cmp_refl x : cmp x x = Eq;
  cmp_sym x y : cmp y x = CompOpp (cmp x y);
  cmp_trans c x y z : cmp x y = c -> cmp y z = c -> cmp x z = c;
}.

Arguments cmp_refl {A} cmp {_} x.
Arguments cmp_sym {A} cmp {_} x y.
Arguments cmp_trans {A} cmp {_} c x y z _ _.

Section total_cmp.
Context {A : Type} (cmp : A -> A -> comparison) `{!TotalCmp cmp}.

Lemma cmp_gt_lt x y : cmp x y = Gt <-> cmp y x = Lt.
Proof. rewrite (cmp_sym cmp x y). destruct (cmp x y); simpl; split; congruence. Qed.

Lemma cmp_eq_sym x y : cmp x y = Eq -> cmp y x = Eq.
Proof. intros H. by rewrite (cmp_sym cmp x y), H. Qed.

Lemma cmp_eq_l x y z : cmp x y = Eq -> cmp x z = cmp y z.
Proof.
  intros H. pose proof (cmp_eq_sym _ _ H) as H'.
  destruct (cmp y z) eqn:Hyz.
  - by apply (cmp_trans cmp Eq x y z).
  - destruct (cmp x z) eqn:Hxz; [|done|].
    + rewrite (cmp_trans cmp Eq y x z H' Hxz) in Hyz. done.
    + apply cmp_gt_lt in Hxz. rewrite (cmp_trans cmp Lt y z x Hyz Hxz) in H'. done.
  - destruct (cmp x z) eqn:Hxz; [| |done].
    + rewrite (cmp_trans cmp Eq y x z H' Hxz) in Hyz. done.
    + apply cmp_gt_lt in Hyz. pose proof (cmp_trans cmp Lt x z y Hxz Hyz) as C.
      rewrite C in H. done.
Qed.

Lemma cmp_eq_r x y z : cmp x y = Eq -> cmp z x = cmp z y.
Proof. intros H. rewrite (cmp_sym cmp x z), (cmp_sym cmp y z). f_equal. by apply cmp_eq_l. Qed.

(** [x] is not above [y]. *)
Definition cmp_le (x y : A) : Prop := cmp x y <> Gt.

#[global] Instance cmp_le_preorder : PreOrder cmp_le.
Proof.
  split.
  - intros x. unfold cmp_le. rewrite (cmp_refl cmp). done.
  - intros x y z Hxy Hyz. unfold cmp_le in *. intros Hxz.
    destruct (cmp x y) eqn:E; [| |done].
    + rewrite (cmp_eq_l _ _ z E) in Hxz. done.
    + apply cmp_gt_lt in Hxz. pose proof (cmp_trans cmp Lt z x y Hxz E) as Hzy.
      apply cmp_gt_lt in Hzy. done.
Qed.

Lemma cmp_lt_le_trans x y z : cmp x y = Lt -> cmp_le y z -> cmp x z = Lt.
Proof.
  unfold cmp_le. intros Hxy Hyz. destruct (cmp y z) eqn:E; [| |done].
  - by rewrite <- (cmp_eq_r _ _ x E).
  - by apply (cmp_trans cmp Lt x y z).
Qed.

Lemma cmp_le_lt_trans x y z : cmp_le x y -> cmp y z = Lt -> cmp x z = Lt.
Proof.
  unfold cmp_le. intros Hxy Hyz. destruct (cmp x y) eqn:E; [| |done].
  - by rewrite (cmp_eq_l _ _ z E).
  - by apply (cmp_trans cmp Lt x y z).
Qed.

Lemma cmp_le_total x y : cmp_le x y \/ cmp y x = Lt.
Proof. unfold cmp_le. rewrite (cmp_sym cmp x y). destruct (cmp x y); simpl; auto. Qed.
End total_cmp.

#[global] Instance Zcompare_total : TotalCmp Z.compare.
Proof.
  split.
  - apply Z.compare_refl.
  - intros x y. apply Z.compare_antisym.
  - intros c x y z.
    destruct (Z.compare_spec x y), (Z.compare_spec y z), (Z.compare_spec x z);
      intros; subst; try congruence; lia.
Qed.

(** [<[u8] as Ord>::cmp]: lexicographic on unsigned bytes, a proper prefix
    first. *)
Fixpoint bytes_cmp (a b : list byte) : comparison :=
  match a, b with
  | [], [] => Eq
  | [], _ :: _ => Lt
  | _ :: _, [] => Gt
  | x :: a', y :: b' =>
      match byteZ x ?= byteZ y with Eq => bytes_cmp a' b' | c => c end
  end.

Lemma bytes_cmp_eq a b : bytes_cmp a b = Eq <-> a = b.
Proof.
  split.
  - revert b. induction a as [|x a IH]; intros [|y b]; simpl; try done.
    destruct (byteZ x ?= byteZ y) eqn:E; [|done..]. intros H.
    apply Z.compare_eq_iff in E. apply (inj byteZ) in E. f_equal; auto.
  - intros <-. induction a as [|x a IH]; [done|]. simpl. by rewrite Z.compare_refl.
Qed.

#[global] Instance bytes_cmp_total : TotalCmp bytes_cmp.
Proof.
  split.
  - intros x. by apply bytes_cmp_eq.
  - induction x as [|a x IH]; intros [|b y]; simpl; try done.
    rewrite (Z.compare_antisym (byteZ a)). destruct (byteZ a ?= byteZ b); simpl; auto.
  - intros c. induction x as [|a x IH]; intros [|b y] [|d z]; simpl; try congruence.
    intros Hxy Hyz.
    destruct (byteZ a ?= byteZ b) eqn:E1.
    + rewrite (cmp_eq_l Z.compare _ _ (byteZ d) E1).
      destruct (byteZ b ?= byteZ d); [|done..]. eauto.
    + subst c. destruct (byteZ b ?= byteZ d) eqn:E2; [| |done].
      * rewrite <- (cmp_eq_r Z.compare _ _ (byteZ a) E2), E1. done.
      * by rewrite (cmp_trans Z.compare Lt _ _ _ E1 E2).
    + subst c. destruct (byteZ b ?= byteZ d) eqn:E2; [|done|].
      * rewrite <- (cmp_eq_r Z.compare _ _ (byteZ a) E2), E1. done.
      * by rewrite (cmp_trans Z.compare Gt _ _ _ E1 E2).
Qed.

(** [a <= b] and [a < b] on byte slices. *)
Definition bytes_leb (a b : list byte) : bool :=
  match bytes_cmp a b with Gt => false | _ => true end.
Definition bytes_ltb (a b : list byte) : bool :=
  match bytes_cmp a b with Lt => true | _ => false end.

Abbreviation bytes_le := (cmp_le bytes_cmp).

Lemma bytes_leb_le a b : bytes_leb a b = true <-> bytes_le a b.
Proof. unfold bytes_leb, cmp_le. destruct (bytes_cmp a b); split; congruence. Qed.

Lemma bytes_ltb_lt a b : bytes_ltb a b = true <-> bytes_cmp a b = Lt.
Proof. unfold bytes_ltb. destruct (bytes_cmp a b); split; congruence. Qed.

Lemma bytes_ltb_leb a b : bytes_ltb a b = negb (bytes_leb b a).
Proof. unfold bytes_ltb, bytes_leb. rewrite (cmp_sym bytes_cmp a b). by destruct (bytes_cmp a b). Qed.

Lemma bytes_le_antisym a b : bytes_le a b -> bytes_le b a -> a = b.
Proof.
  unfold cmp_le. rewrite (cmp_sym bytes_cmp a b). destruct (bytes_cmp a b) eqn:E; simpl; try done.
  intros. by apply bytes_cmp_eq.
Qed.

(** ** Generic list lemmas *)

Lemma take_S_lookup {A} (l : list A) i x :
  l !! i = Some x -> take (S i) l = take i l ++ [x].
Proof. apply take_S_r. Qed.

Lemma drop_app_exact {A} (l k : list A) n : n = length l -> drop n (l ++ k) = k.
Proof. intros ->. apply drop_app_length. Qed.

Lemma take_app_exact {A} (l k : list A) n : n = length l -> take n (l ++ k) = l.
Proof. intros ->. apply take_app_length. Qed.

(** [l[off..off + n]], the slice the source takes once it knows the bounds. *)
Definition slice {A} (off n : nat) (l : list A) : list A := take n (drop off l).

Lemma slice_app_exact {A} (l1 l2 l3 : list A) off n :
  off = length l1 -> n = length l2 -> slice off n (l1 ++ l2 ++ l3) = l2.
Proof. intros -> ->. unfold slice. by rewrite drop_app_length, take_app_length. Qed.

Lemma length_slice {A} off n (l : list A) :
  (off + n <= length l)%nat -> length (slice off n l) = n.
Proof. intros. unfold slice. rewrite length_take, length_drop. lia. Qed.

Lemma slice_app_l {A} off n (l k : list A) :
  (off + n <= length l)%nat -> slice off n (l ++ k) = slice off n l.
Proof.
  intros. unfold slice. rewrite drop_app_le by lia. rewrite take_app_le; [done|].
  rewrite length_drop. lia.
Qed.

(** [l[off..off + k.len()].copy_from_slice(k)], again within the bounds. *)
Definition splice {A} (off : nat) (k l : list A) : list A :=
  take off l ++ k ++ drop (off + length k) l.

Lemma length_splice {A} off (k l : list A) :
  (off + length k <= length l)%nat -> length (splice off k l) = length l.
Proof. intros. unfold splice. rewrite !length_app, length_take, length_drop. lia. Qed.

Lemma splice_app {A} (l1 k l2 l3 : list A) off :
  off = length l1 -> length k = length l2 -> splice off k (l1 ++ l2 ++ l3) = l1 ++ k ++ l3.
Proof.
  intros -> Hk. unfold splice. rewrite take_app_length, Hk.
  by rewrite <- length_app, (app_assoc l1 l2 l3), drop_app_length.
Qed.

Lemma lookup_slice {A} off n (l : list A) i :
  slice off n l !! i = if decide (i < n)%nat then l !! (off + i)%nat else None.
Proof.
  unfold slice. case_decide.
  - by rewrite lookup_take_lt, lookup_drop by lia.
  - by rewrite lookup_take_ge by lia.
Qed.

Lemma lookup_splice {A} off (k l : list A) i :
  (off + length k <= length l)%nat ->
  splice off k l !! i = if decide (off <= i < off + length k)%nat then k !! (i - off)%nat else l !! i.
Proof.
  intros H. unfold splice. case_decide.
  - rewrite lookup_app_r, length_take, Nat.min_l by (rewrite ?length_take; lia).
    by rewrite lookup_app_l by lia.
  - destruct (decide (i < off)%nat).
    + rewrite lookup_app_l by (rewrite length_take; lia). by rewrite lookup_take_lt by lia.
    + rewrite lookup_app_r, length_take, Nat.min_l by (rewrite ?length_take; lia).
      rewrite lookup_app_r, lookup_drop by lia. f_equal. lia.
Qed.

(** What a slice sees of a splice: all of it, or nothing of it. *)
Lemma slice_splice_eq {A} off n (k l : list A) :
  (off + length k <= length l)%nat -> n = length k -> slice off n (splice off k l) = k.
Proof.
  intros H ->. unfold splice. apply slice_app_exact; [rewrite length_take; lia | done].
Qed.

Lemma slice_splice_ne {A} off n off' (k l : list A) :
  (off' + length k <= length l)%nat -> (off + n <= off' \/ off' + length k <= off)%nat ->
  slice off n (splice off' k l) = slice off n l.
Proof.
  intros H Hd. apply list_eq. intros i. rewrite !lookup_slice. case_decide; [|done].
  rewrite lookup_splice by lia. by rewrite decide_False by lia.
Qed.

Lemma alter_insert_lookup {A} (f : A -> A) i (l : list A) x :
  l !! i = Some x -> alter f i l = <[i := f x]> l.
Proof.
  revert i. induction l as [|y l IH]; intros [|i] H; cbn in *; [done..| |].
  - by injection H as ->.
  - f_equal. by apply IH.
Qed.

Lemma alter_out {A} (f : A -> A) i (l : list A) : (length l <= i)%nat -> alter f i l = l.
Proof. revert i. induction l as [|x l IH]; intros [|i] H; cbn in *; [done..|lia|]. by rewrite IH by lia. Qed.

(** The development's automation: rewriting of lengths and of slices of
    concatenations, and resolution of the total-order instances. *)
Create HintDb strata.
Create Rewrite HintDb strata.
#[export] Hint Rewrite @length_app @length_be_bytes @length_take @length_drop
  @length_cons @length_nil @length_fmap : strata.
#[export] Hint Resolve byteZ_range bytes_cmp_total Zcompare_total : strata.

(** Normalise lengths, then [lia]. *)
Ltac len := autorewrite with strata in *; cbn [length] in *; try ulia.
