(* ===== verification/Codec.v ===== *)
(** * Shared wire codec ([crates/filesystem/src/codec.rs])

    The big-endian primitives every on-disk structure is built from: [take],
    [get_u8] .. [get_bytes] and [put_bytes], the [DecodeError] they fail with,
    and the [Encode]/[Decode] pair of traits as a class with its round-trip
    law.  A decoder takes the unread bytes and returns the value with what is
    left, as [Decode::decode(&mut &[u8])] advances its slice. *)

From Stdlib Require Import Strings.Byte ZArith Lia.
From stdpp Require Import prelude list strings.
From S2P Require Import Prelude.
Local Open Scope Z_scope.

Inductive DecodeError : Type :=
| UnexpectedEof
| BadMagic (expected got : Z)
| UnsupportedVersion (version : Z)
| UnknownOpType (op : Z).

#[global] Instance DecodeError_eq_dec : EqDecision DecodeError.
Proof. solve_decision. Defined.

(** The text of an error that wraps another: [format!] of a literal and
    possibly a number, or [e.to_string()] of a decode or an I/O error, with
    the prefix its [#[error(..)]] attribute adds. *)
Inductive message : Type :=
| Text (s : string)
| TextNum (s : string) (n : Z)
| OfDecode (e : DecodeError)
| OfIo (e : io_error)
| Prefixed (s : string) (m : message).

#[global] Instance message_eq_dec : EqDecision message.
Proof. solve_decision. Defined.

(** A decoder of [A]: the bytes left to read, to the value and the rest. *)
Definition decoder (A : Type) : Type := list byte -> res DecodeError (A * list byte).

Definition take_n (bytes : list byte) (n : Z) : res DecodeError (list byte * list byte) :=
  if Z.of_nat (length bytes) <? n then Err UnexpectedEof
  else Ok (take (Z.to_nat n) bytes, drop (Z.to_nat n) bytes).

Definition get_u8 : decoder Z := fun bytes =>
  '(h, rest) ← take_n bytes 1; Ok (be_value h, rest).

Definition get_u16 : decoder Z := fun bytes =>
  '(h, rest) ← take_n bytes 2; Ok (be_value h, rest).

Definition get_u32 : decoder Z := fun bytes =>
  '(h, rest) ← take_n bytes 4; Ok (be_value h, rest).

Definition get_u64 : decoder Z := fun bytes =>
  '(h, rest) ← take_n bytes 8; Ok (be_value h, rest).

(** A [u32]-length-prefixed byte string. *)
Definition get_bytes : decoder (list byte) := fun bytes =>
  '(len, rest) ← get_u32 bytes; take_n rest len.

(** [value.len() as u32], then the value itself. *)
Definition put_bytes (value : list byte) : list byte :=
  be_bytes 4 (wrap32 (Z.of_nat (length value))) ++ value.

(** A value short enough for its length to survive the [as u32] cast. *)
Definition fits_u32 (l : list byte) : Prop := Z.of_nat (length l) <= u32_max.

Lemma take_n_app (l rest : list byte) n :
  n = Z.of_nat (length l) -> take_n (l ++ rest) n = Ok (l, rest).
Proof.
  intros ->. unfold take_n. rewrite length_app.
  destruct (Z.ltb_spec (Z.of_nat (length l + length rest)) (Z.of_nat (length l))); [lia|].
  by rewrite Nat2Z.id, take_app_length, drop_app_length.
Qed.

Lemma take_n_short (l : list byte) n :
  Z.of_nat (length l) < n -> take_n l n = Err UnexpectedEof.
Proof. intros. unfold take_n. by rewrite (proj2 (Z.ltb_lt _ _)). Qed.

Lemma get_u8_app b rest : get_u8 (b :: rest) = Ok (byteZ b, rest).
Proof. unfold get_u8. change (b :: rest) with ([b] ++ rest). by rewrite take_n_app. Qed.

Lemma get_u16_app z rest : is_u16 z -> get_u16 (be_bytes 2 z ++ rest) = Ok (z, rest).
Proof. intros H. unfold get_u16. rewrite take_n_app by len. bind_ok. by rewrite be_u16. Qed.

Lemma get_u32_app z rest : is_u32 z -> get_u32 (be_bytes 4 z ++ rest) = Ok (z, rest).
Proof. intros H. unfold get_u32. rewrite take_n_app by len. bind_ok. by rewrite be_u32. Qed.

Lemma get_u64_app z rest : is_u64 z -> get_u64 (be_bytes 8 z ++ rest) = Ok (z, rest).
Proof. intros H. unfold get_u64. rewrite take_n_app by len. bind_ok. by rewrite be_u64. Qed.

Lemma get_bytes_app l rest : fits_u32 l -> get_bytes (put_bytes l ++ rest) = Ok (l, rest).
Proof.
  unfold fits_u32, get_bytes, put_bytes. intros H.
  unfold wrap32. rewrite Z.mod_small, <- app_assoc, get_u32_app by ulia.
  bind_ok. by apply take_n_app.
Qed.

Lemma length_put_bytes l : length (put_bytes l) = (4 + length l)%nat.
Proof. unfold put_bytes. len. Qed.

#[export] Hint Rewrite length_put_bytes : strata.

(** ** The [Encode]/[Decode] traits *)

Class Wire (A : Type) := {
  wire_encode : A -> list byte;
  wire_decode : decoder A;
}.

(** What a structure that implements both promises: within the ranges its
    length and integer fields can carry ([wire_wf]), decoding what was
    encoded gives the value back and leaves the rest of the input unread. *)
Class WireOk (A : Type) `{!Wire A} := {
  wire_wf : A -> Prop;
  wire_round_trip a rest : wire_wf a -> wire_decode (wire_encode a ++ rest) = Ok (a, rest);
}.

Section wire_lists.
Context {A : Type} `{!Wire A, !WireOk A}.

(** Encodings of a list, back to back, and the counted decoding loop
    [for _ in 0..count { out.push(A::decode(bytes)?) }]. *)
Definition encode_all (l : list A) : list byte := flat_map wire_encode l.

Fixpoint decode_n (count : nat) : decoder (list A) := fun bytes =>
  match count with
  | O => Ok ([], bytes)
  | S n => '(a, rest) ← wire_decode bytes;
           '(l, rest') ← decode_n n rest;
           Ok (a :: l, rest')
  end.

Lemma decode_n_encode_all l rest :
  Forall wire_wf l -> decode_n (length l) (encode_all l ++ rest) = Ok (l, rest).
Proof.
  induction 1 as [|a l Ha Hl IH]; [done|].
  cbn [encode_all flat_map length decode_n]. rewrite <- app_assoc, wire_round_trip by done.
  rewrite bind_Ok. unfold encode_all in IH. by rewrite IH.
Qed.
End wire_lists.

#[global] Instance u64_wire : Wire Z :=
  {| wire_encode := be_bytes 8; wire_decode := get_u64 |}.
#[global] Instance u64_wire_ok : WireOk Z :=
  {| wire_wf := is_u64; wire_round_trip := get_u64_app |}.
