(* ===== verification/Journal.v ===== *)
(** * The journal crate ([crates/journal/src])

    An append-only log of CRC-framed records over one file.  [Frame] is
    [frame.rs]; the rest is [lib.rs] and [codec.rs]: the [Codec] trait as a
    class, the file with its cursor as explicit state, [open]/[append]/
    [replay]/[truncate], and the crash and I/O-failure behaviour of an append
    (the bytes of the frame that reached the file before the interruption).
    [crc32fast::hash] is third-party code and stays a parameter ([Crc32]). *)

From Stdlib Require Import Strings.Byte ZArith Lia.
From stdpp Require Import prelude list strings.
From S2P Require Import Prelude Codec.
Local Open Scope Z_scope.

(** [crc32fast::hash], and what the framing relies on: it is a [u32]. *)
Class Crc32 : Type := crc32_hash : list byte -> Z.
Class Crc32Ok `{!Crc32} : Prop := crc32_u32 : forall l, is_u32 (crc32_hash l).

Inductive JournalError : Type :=
| JIo (e : io_error)
| BadHeader
| JDecode (m : message).

#[global] Instance JournalError_eq_dec : EqDecision JournalError.
Proof. solve_decision. Defined.

(** ** The [Codec] trait *)

Class Codec (R : Type) : Type := {
  codec_encode : R -> list byte;
  codec_decode : list byte -> res JournalError R;
}.

(** What a record type promises the journal. *)
Class CodecOk (R : Type) `{!Codec R} : Type := {
  codec_wf : R -> Prop;
  codec_fits r : codec_wf r -> fits_u32 (codec_encode r);
  codec_round_trip r : codec_wf r -> codec_decode (codec_encode r) = Ok r;
}.

(** [BytesCodec]: records are raw byte vectors, stored verbatim.  A record
    type of its own, so that it does not claim every [list byte]. *)
Record raw_record : Type := Raw { raw_bytes : list byte }.

Definition BytesCodec_encode (r : raw_record) : list byte := raw_bytes r.
Definition BytesCodec_decode (b : list byte) : res JournalError raw_record := Ok (Raw b).

#[global] Instance BytesCodec : Codec raw_record :=
  {| codec_encode := BytesCodec_encode; codec_decode := BytesCodec_decode |}.
#[global] Instance BytesCodec_ok : CodecOk raw_record.
Proof. refine {| codec_wf r := fits_u32 (raw_bytes r) |}; [done | by intros []]. Defined.

(** ** Frames *)

Module Frame.
Section frame.
Context `{!Crc32}.

Definition FRAME_HEADER_LEN : nat := 8.

Definition write_frame (payload : list byte) : list byte :=
  be_bytes 4 (wrap32 (Z.of_nat (length payload))) ++ be_bytes 4 (crc32_hash payload) ++ payload.

Definition read_frame (buf : list byte) (pos : nat) : option (list byte * nat) :=
  if (length buf <? pos)%nat then None
  else
    let rest := drop pos buf in
    if (length rest <? FRAME_HEADER_LEN)%nat then None
    else
      let len := be_value (slice 0 4 rest) in
      let crc := be_value (slice 4 4 rest) in
      if Z.of_nat (length rest) <? 8 + len then None
      else
        let payload := slice FRAME_HEADER_LEN (Z.to_nat len) rest in
        if crc32_hash payload =? crc
        then Some (payload, (pos + FRAME_HEADER_LEN + Z.to_nat len)%nat)
        else None.

Lemma length_write_frame p : length (write_frame p) = (8 + length p)%nat.
Proof. unfold write_frame. len. Qed.

(** Reading past a prefix is reading the suffix. *)
Lemma read_frame_shift pre s :
  read_frame (pre ++ s) (length pre)
  = (fun '(p, n) => (p, (length pre + n)%nat)) <$> read_frame s 0.
Proof.
  unfold read_frame. rewrite length_app, drop_app_length, drop_0.
  rewrite (proj2 (Nat.ltb_ge _ _)) by lia.
  rewrite (proj2 (Nat.ltb_ge (length s) 0)) by lia.
  destruct (_ <? FRAME_HEADER_LEN)%nat; [done|].
  destruct (_ <? _ + _); [done|]. destruct (crc32_hash _ =? _); [|done].
  cbn [fmap option_fmap option_map]. rewrite !Nat.add_assoc, Nat.add_0_r. done.
Qed.

(** A successful read advances by a whole frame and stays in the buffer. *)
Lemma read_frame_progress buf pos p n :
  read_frame buf pos = Some (p, n) -> (pos + 8 <= n <= length buf)%nat.
Proof.
  unfold read_frame, FRAME_HEADER_LEN.
  destruct (Nat.ltb_spec (length buf) pos); [done|].
  rewrite length_drop. destruct (Nat.ltb_spec (length buf - pos) 8); [done|].
  pose proof (be_value_bound (slice 0 4 (drop pos buf))).
  destruct (Z.ltb_spec (Z.of_nat (length buf - pos))
              (8 + be_value (slice 0 4 (drop pos buf)))); [done|].
  case_match; [|done]. intros [= <- <-]. lia.
Qed.

Context `{!Crc32Ok}.

Lemma read_write_frame p s :
  fits_u32 p -> read_frame (write_frame p ++ s) 0 = Some (p, (8 + length p)%nat).
Proof.
  intros Hp. unfold fits_u32 in Hp. unfold read_frame. rewrite drop_0.
  assert (El : be_value (slice 0 4 (write_frame p ++ s)) = Z.of_nat (length p)).
  { unfold write_frame. rewrite <- !app_assoc.
    unfold slice. rewrite drop_0, take_app_exact by len.
    unfold wrap32. rewrite Z.mod_small by ulia. apply be_u32. ulia. }
  assert (Ec : be_value (slice 4 4 (write_frame p ++ s)) = crc32_hash p).
  { unfold write_frame. rewrite <- !app_assoc, slice_app_exact by len.
    apply be_u32, crc32_u32. }
  rewrite El, Ec, Nat2Z.id.
  assert (Ep : slice FRAME_HEADER_LEN (length p) (write_frame p ++ s) = p).
  { unfold write_frame. rewrite <- app_assoc, <- app_assoc, app_assoc.
    apply slice_app_exact; [unfold FRAME_HEADER_LEN; len | done]. }
  rewrite Ep, length_app, length_write_frame, Z.eqb_refl. unfold FRAME_HEADER_LEN.
  repeat case_match; try done;
    repeat match goal with
    | H : (_ <? _)%nat = true |- _ => apply Nat.ltb_lt in H
    | H : (_ <? _) = true |- _ => apply Z.ltb_lt in H end; lia.
Qed.

(** A frame cut anywhere before its last byte is not read back. *)
Lemma read_torn_frame p n :
  fits_u32 p -> (n < length (write_frame p))%nat ->
  read_frame (take n (write_frame p)) 0 = None.
Proof.
  intros Hp Hn. rewrite length_write_frame in Hn. unfold fits_u32 in Hp.
  unfold read_frame, FRAME_HEADER_LEN. rewrite drop_0, length_take, length_write_frame.
  rewrite Nat.min_l by lia.
  destruct (Nat.ltb_spec n 0); [done|]. destruct (Nat.ltb_spec n 8); [done|].
  assert (El : be_value (slice 0 4 (take n (write_frame p))) = Z.of_nat (length p)).
  { unfold slice, write_frame. rewrite drop_0, take_take, Nat.min_l by lia.
    rewrite take_app_exact by len. unfold wrap32. rewrite Z.mod_small by ulia.
    apply be_u32. ulia. }
  rewrite El. rewrite (proj2 (Z.ltb_lt _ _)) by lia. done.
Qed.
End frame.
End Frame.
Export Frame.

(** ** The file and its header *)

Definition MAGIC : Z := 0x4A524E4C.
Definition VERSION : Z := 1.
Definition HEADER_LEN : nat := 6.

(** A [std::fs::File] opened read-write: its bytes and its cursor. *)
Record file : Type := File { f_bytes : list byte; f_pos : nat }.

(** The bytes after a write of [data] at [pos]; a gap reads as zeros. *)
Definition write_at (pos : nat) (data l : list byte) : list byte :=
  take pos (l ++ replicate (pos - length l) x00) ++ data ++ drop (pos + length data) l.

(** [Write::write_all]: the cursor ends after the bytes that were stored. *)
Definition write_all (o : io_step) (f : file) (data : list byte) : file * res io_error unit :=
  match o with
  | IoDone =>
      (File (write_at (f_pos f) data (f_bytes f)) (f_pos f + length data), Ok tt)
  | IoFail n e =>
      let done_ := take n data in
      (File (write_at (f_pos f) done_ (f_bytes f)) (f_pos f + length done_), Err e)
  end.

(** [File::set_len] truncating or extending with zeros. *)
Definition set_len (n : nat) (f : file) : file :=
  File (take n (f_bytes f ++ replicate (n - length (f_bytes f)) x00)) (f_pos f).

Lemma write_at_end data l : write_at (length l) data l = l ++ data.
Proof.
  unfold write_at. rewrite Nat.sub_diag, app_nil_r, take_ge by lia.
  rewrite drop_ge by lia. by rewrite app_nil_r.
Qed.

Definition header_bytes : list byte := be_bytes 4 MAGIC ++ be_bytes 2 VERSION.

#[global] Arguments header_bytes : simpl never.

(** How the I/O of a creation goes: the two writes of the header, the sync. *)
Record create_env : Type := CreateEnv { cr_magic : io_step; cr_version : io_step; cr_sync : option io_error }.
Definition create_fine : create_env := CreateEnv IoDone IoDone None.

Definition write_header (env : create_env) (f : file) : file * res io_error unit :=
  match write_all (cr_magic env) f (be_bytes 4 MAGIC) with
  | (f1, Ok _) => write_all (cr_version env) f1 (be_bytes 2 VERSION)
  | r => r
  end.

Definition verify_header (f : file) : res JournalError unit :=
  if (length (f_bytes f) <? HEADER_LEN)%nat then Err (JIo IoUnexpectedEof)
  else
    let buf := take HEADER_LEN (f_bytes f) in
    let magic := be_value (slice 0 4 buf) in
    let version := be_value (slice 4 2 buf) in
    if (magic =? MAGIC) && (version =? VERSION) then Ok tt else Err BadHeader.

(** ** Journal operations *)

(** How the I/O of one append goes: the [write_all], then the [sync_all]. *)
Record io_env : Type := IoEnv { on_write : io_step; on_sync : option io_error }.
Definition io_fine : io_env := IoEnv IoDone None.

Section journal.
Context `{!Crc32} {R : Type} `{!Codec R}.

Record Journal : Type := MkJournal { jfile : file }.

(** [with_codec]: the file's bytes, [None] when it does not exist; the bytes the
    file is left with, and the journal. *)
Definition with_codec_io (env : create_env) (disk : option (list byte)) : list byte * res JournalError Journal :=
  let f := File (default [] disk) 0 in
  if (length (f_bytes f) =? 0)%nat then
    match write_header env f with
    | (f', Ok _) =>
        (f_bytes f', match cr_sync env with
                     | None => Ok (MkJournal (File (f_bytes f') (length (f_bytes f'))))
                     | Some e => Err (JIo e)
                     end)
    | (f', Err e) => (f_bytes f', Err (JIo e))
    | (f', Panic) => (f_bytes f', Panic)
    end
  else
    (f_bytes f, _ ← verify_header f; Ok (MkJournal (File (f_bytes f) (length (f_bytes f))))).

(** Where the creation is not cut off. *)
Definition with_codec (disk : option (list byte)) : res JournalError Journal := (with_codec_io create_fine disk).2.

Definition append (env : io_env) (j : Journal) (r : R) : Journal * res JournalError unit :=
  let frame := write_frame (codec_encode r) in
  match write_all (on_write env) (jfile j) frame with
  | (f, Ok _) =>
      (MkJournal f, match on_sync env with None => Ok tt | Some e => Err (JIo e) end)
  | (f, Err e) => (MkJournal f, Err (JIo e))
  | (f, Panic) => (MkJournal f, Panic)
  end.

(** How a truncation goes: it fails before the file is cut, or after ([seek] and
    [sync_all]). *)
Inductive trunc_step : Type :=
| TruncDone
| TruncFail (cut : bool) (e : io_error).

Definition truncate (j : Journal) : Journal :=
  let f := set_len HEADER_LEN (jfile j) in
  MkJournal (File (f_bytes f) HEADER_LEN).

Definition truncate_io (o : trunc_step) (j : Journal) : Journal * res JournalError unit :=
  match o with
  | TruncDone => (truncate j, Ok tt)
  | TruncFail cut e => (if cut then truncate j else j, Err (JIo e))
  end.

(** The iterator [replay] returns: the whole file, and the read position. *)
Record Replay : Type := MkReplay { r_buf : list byte; r_pos : nat }.

Definition replay (j : Journal) : Replay := MkReplay (f_bytes (jfile j)) HEADER_LEN.

Definition replay_next (it : Replay) : option (res JournalError R) * Replay :=
  match read_frame (r_buf it) (r_pos it) with
  | None => (None, it)
  | Some (payload, next) => (Some (codec_decode payload), MkReplay (r_buf it) next)
  end.

(** Draining the iterator; [fuel] bounds the number of frames. *)
Fixpoint drain (fuel : nat) (it : Replay) : list (res JournalError R) :=
  match fuel with
  | O => []
  | S n => match replay_next it with
           | (None, _) => []
           | (Some x, it') => x :: drain n it'
           end
  end.

Definition replay_all (j : Journal) : list (res JournalError R) :=
  let it := replay j in drain (length (r_buf it)) it.
End journal.
Arguments Journal : clear implicits.
Arguments Replay : clear implicits.

Lemma append_ok_inv `{!Crc32} {R} `{!Codec R} env j (r : R) j' u : append env j r = (j', Ok u) -> append io_fine j r = (j', Ok tt).
Proof. unfold append, write_all. destruct env as [[|n e] [s|]]; cbn; try done. by intros [= <-]. Qed.

(** A creation that succeeds is one that was not cut off. *)
Lemma with_codec_io_ok env disk f j : with_codec_io env disk = (f, Ok j) -> f = f_bytes (jfile j) /\ with_codec disk = Ok j.
Proof.
  unfold with_codec, with_codec_io. destruct (length _ =? 0)%nat; [|destruct (verify_header _); [by intros [= <- <-]|done|done]].
  unfold write_header. destruct env as [[|n e] [|m e'] [s|]]; cbn; try done. by intros [= <- <-].
Qed.

(** ** What a journal file holds *)

Section facts.
Context {Crc : Crc32} {CrcOk : Crc32Ok} {R : Type} `{!Codec R, !CodecOk R}.

Definition frames (rs : list R) : list byte := flat_map (fun r => write_frame (codec_encode r)) rs.

(** The bytes of a journal that holds exactly [rs]. *)
Definition journal_bytes (rs : list R) : list byte := header_bytes ++ frames rs.

#[local] Arguments journal_bytes : simpl never.

(** An open journal whose file is exactly the log [rs], cursor at the end. *)
Definition holds (j : Journal) (rs : list R) : Prop :=
  jfile j = File (journal_bytes rs) (length (journal_bytes rs)) /\ Forall codec_wf rs.

Lemma frames_app rs rs' : frames (rs ++ rs') = frames rs ++ frames rs'.
Proof. apply flat_map_app. Qed.

Lemma journal_bytes_snoc rs r :
  journal_bytes (rs ++ [r]) = journal_bytes rs ++ write_frame (codec_encode r).
Proof.
  unfold journal_bytes. rewrite frames_app. unfold frames at 2. cbn [flat_map].
  by rewrite app_nil_r, app_assoc.
Qed.

Lemma length_header_bytes : length header_bytes = HEADER_LEN.
Proof. reflexivity. Qed.

Lemma drain_shift fuel pre s pos :
  drain (R := R) fuel (MkReplay (pre ++ s) (length pre + pos))
  = drain fuel (MkReplay s pos).
Proof.
  revert pos. induction fuel as [|n IH]; intros pos; [done|]. cbn [drain].
  unfold replay_next. cbn [r_buf r_pos].
  destruct (decide (pos <= length s)%nat) as [Hle|Hgt].
  - assert (Es : read_frame (pre ++ s) (length pre + pos)
      = (fun '(p, n) => (p, (length pre + n)%nat)) <$> read_frame s pos).
    { rewrite <- (take_drop pos s).
      pose proof (read_frame_shift (pre ++ take pos s) (drop pos s)) as E1.
      pose proof (read_frame_shift (take pos s) (drop pos s)) as E2.
      rewrite length_app, length_take, Nat.min_l in E1 by lia.
      rewrite length_take, Nat.min_l in E2 by lia.
      rewrite app_assoc, E1, E2.
      destruct (read_frame (drop pos s) 0) as [[]|]; cbn; [|done].
      by rewrite Nat.add_assoc. }
    rewrite Es. destruct (read_frame s pos) as [[p m]|]; cbn; [|done].
    f_equal. apply IH.
  - assert (read_frame s pos = None) as ->.
    { unfold read_frame. by rewrite (proj2 (Nat.ltb_lt _ _)) by lia. }
    assert (read_frame (pre ++ s) (length pre + pos) = None) as ->; [|done].
    unfold read_frame. rewrite (proj2 (Nat.ltb_lt _ _)); [done|]. len.
Qed.

(** Draining a log followed by [tail]: the log's records, then the tail's. *)
Lemma drain_frames fuel rs tail :
  Forall codec_wf rs -> (length rs <= fuel)%nat ->
  drain fuel (MkReplay (frames rs ++ tail) 0)
  = (Ok <$> rs) ++ drain (fuel - length rs) (MkReplay tail 0).
Proof.
  intros Hwf. revert fuel. induction Hwf as [|r rs Hr Hrs IH]; intros fuel Hf.
  - cbn. by rewrite Nat.sub_0_r.
  - destruct fuel as [|n]; cbn [length] in Hf; [lia|].
    cbn [drain frames flat_map]. unfold replay_next. cbn [r_buf r_pos].
    rewrite <- app_assoc, read_write_frame by (by apply codec_fits).
    cbn [fmap list_fmap app]. rewrite codec_round_trip by done. f_equal.
    rewrite <- (length_write_frame (codec_encode r)).
    rewrite <- (Nat.add_0_r (length (write_frame _))), drain_shift.
    cbn [length Nat.sub]. apply IH. lia.
Qed.

Lemma length_frames_ge rs : (8 * length rs <= length (frames rs))%nat.
Proof.
  induction rs as [|r rs IH]; [cbn; lia|].
  cbn [frames flat_map length]. rewrite length_app, length_write_frame.
  unfold frames in IH. lia.
Qed.

(** A tail whose first frame does not read back ends the replay. *)
Lemma replay_log_with_tail rs tail p :
  Forall codec_wf rs -> read_frame tail 0 = None ->
  replay_all (MkJournal (File (journal_bytes rs ++ tail) p)) = Ok <$> rs.
Proof.
  intros Hwf Ht. unfold replay_all, replay. cbn [r_buf jfile f_bytes].
  unfold journal_bytes. rewrite <- app_assoc, <- length_header_bytes.
  rewrite <- (Nat.add_0_r (length header_bytes)), drain_shift.
  pose proof (length_frames_ge rs). rewrite drain_frames by (done || len).
  match goal with |- context [drain ?f] => destruct f end; cbn; [by rewrite app_nil_r|].
  unfold replay_next. cbn [r_buf r_pos]. rewrite Ht. apply app_nil_r.
Qed.

Lemma read_frame_nil : read_frame [] 0 = None.
Proof. reflexivity. Qed.

Lemma holds_replay j rs : holds j rs -> replay_all j = Ok <$> rs.
Proof.
  destruct j as [f]. unfold holds. cbn. intros [-> Hwf].
  pose proof (replay_log_with_tail rs [] (length (journal_bytes rs)) Hwf read_frame_nil) as E.
  by rewrite app_nil_r in E.
Qed.

Lemma holds_append j rs r :
  holds j rs -> codec_wf r ->
  exists j', append io_fine j r = (j', Ok tt) /\ holds j' (rs ++ [r]).
Proof.
  intros [Hf Hwf] Hr. unfold append, io_fine. cbn [on_write on_sync].
  rewrite Hf. cbn [write_all f_pos f_bytes]. rewrite write_at_end.
  eexists. split; [done|]. split; [|apply Forall_app; auto].
  cbn. by rewrite <- journal_bytes_snoc, journal_bytes_snoc, length_app.
Qed.

Lemma verify_header_prefix rest p : verify_header (File (header_bytes ++ rest) p) = Ok tt.
Proof.
  unfold verify_header. cbn [f_bytes].
  rewrite (proj2 (Nat.ltb_ge _ _)) by (rewrite length_app, length_header_bytes; lia).
  rewrite take_app_exact by done. reflexivity.
Qed.

Lemma with_codec_existing rest :
  with_codec (Some (header_bytes ++ rest))
  = Ok (MkJournal (File (header_bytes ++ rest) (length (header_bytes ++ rest)))).
Proof.
  unfold with_codec, with_codec_io. cbn [from_option f_bytes]. unfold id.
  rewrite (proj2 (Nat.eqb_neq _ _)) by (rewrite length_app, length_header_bytes; done).
  by rewrite verify_header_prefix.
Qed.

Lemma holds_reopen j rs : holds j rs -> with_codec (Some (f_bytes (jfile j))) = Ok j.
Proof.
  destruct j as [f]. intros [Hf _]. cbn in Hf. subst f. cbn [jfile f_bytes]. unfold journal_bytes.
  apply with_codec_existing.
Qed.

Lemma holds_fresh : exists j, with_codec None = Ok j /\ holds j [].
Proof. eexists. split; [reflexivity|]. split; [reflexivity | constructor]. Qed.

Lemma holds_truncate j rs tail :
  f_bytes (jfile j) = journal_bytes rs ++ tail -> holds (truncate j) [].
Proof.
  intros Hf. split; [|constructor]. unfold truncate, set_len. cbn [jfile f_bytes].
  rewrite Hf. unfold journal_bytes. rewrite <- !app_assoc, take_app_exact by done. done.
Qed.

(** ** Runs of a journal

    Every way a journal is driven: appends whose write stores all, some or none
    of the frame and whose sync succeeds or not, checkpoints ([truncate]), and
    opening the file again, without truncating it.  A crash inside an append is
    an append that stores part of its frame, followed by an open.  [log_event]
    is what an append leaves since the last checkpoint: a record acknowledged;
    a whole record whose append failed; part of a frame. *)
Inductive log_event : Type :=
| Acked (r : R)
| Unacked (r : R)
| Torn.

Definition event_of (env : io_env) (r : R) : list log_event :=
  match on_write env with
  | IoDone => [match on_sync env with None => Acked r | Some _ => Unacked r end]
  | IoFail n _ =>
      if (n =? 0)%nat then []
      else if (n <? length (write_frame (codec_encode r)))%nat then [Torn] else [Unacked r]
  end.

Inductive jstep : Journal * list log_event -> Journal * list log_event -> Prop :=
| step_append env j h r j' out :
    codec_wf r -> append env j r = (j', out) -> jstep (j, h) (j', h ++ event_of env r)
| step_truncate j h :
    jstep (j, h) (truncate j, [])
| step_reopen j h j' :
    with_codec (Some (f_bytes (jfile j))) = Ok j' -> jstep (j, h) (j', h).

Inductive jreach : Journal * list log_event -> Prop :=
| reach_open j : with_codec None = Ok j -> jreach (j, [])
| reach_step s s' : jreach s -> jstep s s' -> jreach s'.

(** The records in front of the first torn frame, what lies behind it. *)
Fixpoint before_tear (h : list log_event) : list R :=
  match h with Acked r :: h' | Unacked r :: h' => r :: before_tear h' | _ => [] end.
Fixpoint behind_tear (h : list log_event) : list log_event :=
  match h with [] => [] | Torn :: h' => h' | _ :: h' => behind_tear h' end.
Fixpoint torn (h : list log_event) : bool :=
  match h with [] => false | Torn :: _ => true | _ :: h' => torn h' end.

Lemma before_tear_app h e : before_tear (h ++ e) = if torn h then before_tear h else before_tear h ++ before_tear e.
Proof. induction h as [|[r|r|] h IH]; cbn; [done| | |done]; rewrite IH; by destruct (torn h). Qed.

Lemma behind_tear_app h e : behind_tear (h ++ e) = if torn h then behind_tear h ++ e else behind_tear e.
Proof. by induction h as [|[r|r|] h IH]. Qed.

Lemma torn_app h e : torn (h ++ e) = torn h || torn e.
Proof. by induction h as [|[r|r|] h IH]. Qed.

(** The file: the frames in front of the tear, then bytes that do not start with
    a frame unless something was appended to them. *)
Definition logged (j : Journal) (h : list log_event) : Prop :=
  Forall codec_wf (before_tear h) /\ exists tail,
    jfile j = File (journal_bytes (before_tear h) ++ tail) (length (journal_bytes (before_tear h) ++ tail))
    /\ if torn h then behind_tear h = [] -> read_frame tail 0 = None else tail = [].

(** What an append adds to a file whose cursor is at its end. *)
Definition appended (env : io_env) (r : R) : list byte :=
  let frame := write_frame (codec_encode r) in match on_write env with IoDone => frame | IoFail n _ => take n frame end.

(** All of the frame, or less. *)
Lemma appended_cut env r : appended env r = write_frame (codec_encode r)
  \/ exists n, (n < length (write_frame (codec_encode r)))%nat /\ appended env r = take n (write_frame (codec_encode r)).
Proof.
  unfold appended. destruct (on_write env) as [|n e]; [by left|].
  destruct (decide (n < length (write_frame (codec_encode r)))%nat); [right; by exists n|left; by rewrite take_ge by lia].
Qed.

Lemma append_bytes env j r b : jfile j = File b (length b) ->
  jfile (append env j r).1 = File (b ++ appended env r) (length (b ++ appended env r)).
Proof.
  intros Hf. unfold append, appended, write_all. rewrite Hf. cbn [f_pos f_bytes].
  destruct (on_write env) as [|n e]; cbn [fst jfile]; by rewrite write_at_end, length_app.
Qed.

Lemma logged_append env j h r : logged j h -> codec_wf r -> logged (append env j r).1 (h ++ event_of env r).
Proof.
  intros (Hwf & tail & Hf & Ht) Hr. pose proof (append_bytes env j r _ Hf) as Ha. unfold logged.
  rewrite before_tear_app, behind_tear_app, torn_app. destruct (torn h).
  - split; [done|]. exists (tail ++ appended env r). rewrite Ha, !app_assoc. split; [done|]. cbn [orb].
    intros [Hb He]%app_eq_nil. assert (appended env r = []) as ->; [|rewrite app_nil_r; by apply Ht].
    unfold event_of in He. unfold appended. destruct (on_write env) as [|n e]; [done|].
    destruct (Nat.eqb_spec n 0) as [->|_]; [done|]. by destruct (_ <? _)%nat.
  - subst tail. rewrite app_nil_r in Ha. cbn [orb]. rewrite Ha. clear Ha. unfold event_of, appended.
    destruct (on_write env) as [|n e].
    + destruct (on_sync env); cbn [before_tear torn]; (split; [apply Forall_app; auto|]; exists []; by rewrite app_nil_r, journal_bytes_snoc).
    + destruct (Nat.eqb_spec n 0) as [->|Hn0]; [cbn [before_tear torn take]; rewrite app_nil_r; split; [done|]; by exists []|].
      destruct (Nat.ltb_spec n (length (write_frame (codec_encode r)))) as [Hn|Hn]; cbn [before_tear torn behind_tear].
      * rewrite app_nil_r. split; [done|]. eexists. split; [reflexivity|]. intros _. apply read_torn_frame; [by apply codec_fits|done].
      * rewrite take_ge by done. split; [apply Forall_app; auto|]. exists []. by rewrite app_nil_r, journal_bytes_snoc.
Qed.

Lemma jreach_logged s : jreach s -> logged s.1 s.2.
Proof.
  induction 1 as [j Ho|s s' _ IH Hs].
  - destruct holds_fresh as (j' & E & Hf & _). rewrite E in Ho. injection Ho as <-. split; [constructor|].
    exists []. cbn [before_tear fst]. by rewrite app_nil_r.
  - destruct Hs as [env j h r j' out Hr Ha|j h|j h j' Ho]; cbn [fst snd] in *.
    + pose proof (logged_append env j h r IH Hr) as Hl. by rewrite Ha in Hl.
    + destruct IH as (Hwf & tail & Hf & _). split; [constructor|]. exists [].
      destruct (holds_truncate j (before_tear h) tail) as [Hb _]; [by rewrite Hf|]. cbn [before_tear]. by rewrite app_nil_r.
    + destruct IH as (Hwf & tail & Hf & Ht). split; [done|]. exists tail. split; [|done]. rewrite Hf in Ho. cbn [f_bytes] in Ho.
      unfold journal_bytes in Ho at 1. rewrite <- app_assoc, with_codec_existing in Ho. apply Ok_inj in Ho as <-.
      cbn [jfile]. unfold journal_bytes. by rewrite <- app_assoc.
Qed.

(** Replay of a log with anything behind it starts with the log. *)
Lemma replay_starts rs tail p : Forall codec_wf rs ->
  exists rest, replay_all (MkJournal (File (journal_bytes rs ++ tail) p)) = (Ok <$> rs) ++ rest.
Proof.
  intros Hwf. unfold replay_all, replay. cbn [r_buf jfile f_bytes]. unfold journal_bytes.
  rewrite <- app_assoc, <- length_header_bytes, <- (Nat.add_0_r (length header_bytes)), drain_shift.
  pose proof (length_frames_ge rs). rewrite drain_frames by (done || len). by eexists.
Qed.

(** C38: a journal replays what was appended to it up to the first torn frame.
    After any run of appends (whose writes and syncs may fail, or be cut off by a
    crash), checkpoints and opens, replay yields, in order and decoded, the records
    since the last checkpoint in front of the first frame that was stored in part:
    those acknowledged, and those stored whole whose append failed.  It yields
    nothing else unless something was appended behind the torn frame: an open
    keeps the torn bytes, and what is appended behind them may or may not be read,
    acknowledged or not.  The header is taken to be written whole when the file is
    created. *)
Theorem replay_is_acknowledged_log j h :
  jreach (j, h) ->
  exists rest, replay_all j = (Ok <$> before_tear h) ++ rest /\ (behind_tear h = [] -> rest = []).
Proof.
  intros H. destruct (jreach_logged _ H) as (Hwf & tail & Hf & Ht). cbn [fst snd] in *. destruct j as [f]. cbn in Hf. subst f.
  destruct (decide (behind_tear h = [])) as [Hb|Hb].
  - exists []. split; [|done]. rewrite app_nil_r. apply replay_log_with_tail; [done|].
    destruct (torn h); [by apply Ht|by rewrite Ht].
  - destruct (replay_starts (before_tear h) tail (length (journal_bytes (before_tear h) ++ tail)) Hwf) as [rest E]. by exists rest.
Qed.

Lemma append_crash_open j rs r n :
  holds j rs -> codec_wf r ->
  exists j', with_codec (Some (f_bytes (jfile j) ++ take n (write_frame (codec_encode r)))) = Ok j'
    /\ replay_all j' = Ok <$> (if (n <? length (write_frame (codec_encode r)))%nat
                               then rs else rs ++ [r]).
Proof.
  intros [Hf Hwf] Hr. rewrite Hf. cbn [f_bytes].
  destruct (Nat.ltb_spec n (length (write_frame (codec_encode r)))) as [Hn|Hn].
  - eexists. split.
    + unfold journal_bytes. rewrite <- app_assoc. apply with_codec_existing.
    + rewrite (app_assoc header_bytes). apply replay_log_with_tail; [done|].
      apply read_torn_frame; [by apply codec_fits | done].
  - rewrite take_ge by lia. rewrite <- journal_bytes_snoc. eexists. split.
    + unfold journal_bytes. apply with_codec_existing.
    + apply holds_replay. split; [done|]. apply Forall_app. auto.
Qed.

(** C39: a crash that leaves any [n] bytes of an append's frame is atomic:
    the journal reopens, and replay yields the earlier records, plus the
    interrupted one exactly when its last byte reached the file. *)
Theorem append_crash_atomic j rs r n :
  holds j rs -> codec_wf r ->
  exists j', with_codec (Some (f_bytes (jfile j) ++ take n (write_frame (codec_encode r)))) = Ok j'
    /\ replay_all j' = Ok <$> (if (n <? length (write_frame (codec_encode r)))%nat
                               then rs else rs ++ [r]).
Proof. apply append_crash_open. Qed.

(** The declared length of a torn frame reaches past what follows it. *)
Lemma read_torn_then p n tail :
  fits_u32 p -> (8 <= n)%nat -> (n + length tail < length (write_frame p))%nat ->
  read_frame (take n (write_frame p) ++ tail) 0 = None.
Proof.
  intros Hp H8 Hn. rewrite length_write_frame in Hn. unfold fits_u32 in Hp.
  unfold read_frame, FRAME_HEADER_LEN. rewrite drop_0, length_app, length_take, length_write_frame.
  rewrite Nat.min_l by lia.
  destruct (Nat.ltb_spec (n + length tail) 0); [done|].
  destruct (Nat.ltb_spec (n + length tail) 8); [done|].
  assert (El : be_value (slice 0 4 (take n (write_frame p) ++ tail)) = Z.of_nat (length p)).
  { unfold slice. rewrite drop_0, take_app_le
      by (rewrite length_take, length_write_frame; lia).
    unfold write_frame. rewrite take_take, Nat.min_l, take_app_exact by len.
    unfold wrap32. rewrite Z.mod_small by ulia. apply be_u32. ulia. }
  rewrite El. rewrite (proj2 (Z.ltb_lt _ _)) by lia. done.
Qed.

(** Reopening does not cut a torn tail off, so an append after it can be
    lost although it was acknowledged.  When a crash left at least the frame
    header of a record [r1] and the next record's frame does not fill the
    hole, the append of [r2] returns [Ok], and replay stops at the torn
    frame: [r2] is not recovered. *)
Theorem append_after_torn_tail_lost j rs r1 r2 n j1 :
  holds j rs -> codec_wf r1 -> (8 <= n)%nat ->
  (n + length (write_frame (codec_encode r2)) < length (write_frame (codec_encode r1)))%nat ->
  with_codec (Some (f_bytes (jfile j) ++ take n (write_frame (codec_encode r1)))) = Ok j1 ->
  exists j2, append io_fine j1 r2 = (j2, Ok tt) /\ replay_all j2 = Ok <$> rs.
Proof.
  intros [Hf Hwf] Hr H8 Hn Ho. rewrite Hf in Ho. cbn [f_bytes] in Ho.
  unfold journal_bytes in Ho. rewrite <- app_assoc, with_codec_existing in Ho.
  apply Ok_inj in Ho as <-. unfold append, io_fine. cbn [on_write on_sync jfile write_all f_pos f_bytes].
  rewrite write_at_end. eexists. split; [done|].
  rewrite (app_assoc header_bytes), <- app_assoc. apply replay_log_with_tail; [done|].
  apply read_torn_then; [by apply codec_fits | done | done].
Qed.

(** The CRC of the empty payload is 0, so eight zero bytes after the log
    (a tail the file system extended but never filled) are a frame that
    passes the length and the checksum test: replay yields one more record,
    the decoding of no bytes. *)
Theorem zero_filled_tail_replays rs :
  Forall codec_wf rs -> crc32_hash [] = 0 ->
  replay_all (MkJournal (File (journal_bytes rs ++ replicate 8 x00)
                           (length (journal_bytes rs ++ replicate 8 x00))))
  = (Ok <$> rs) ++ [codec_decode []].
Proof.
  intros Hwf Hz. unfold replay_all, replay. cbn [r_buf jfile f_bytes].
  unfold journal_bytes. rewrite <- app_assoc, <- length_header_bytes.
  rewrite <- (Nat.add_0_r (length header_bytes)), drain_shift.
  pose proof (length_frames_ge rs). rewrite drain_frames by (done || len).
  f_equal. replace (_ - _)%nat with (S (S (length header_bytes + length (frames rs) + 6 - length rs)))
    by (rewrite !length_app, length_replicate; lia).
  cbn [drain]. unfold replay_next. cbn [r_buf r_pos].
  assert (E : read_frame (replicate 8 x00) 0 = Some ([], 8%nat)).
  { unfold read_frame. change (slice FRAME_HEADER_LEN _ _) with (@nil byte).
    rewrite Hz. reflexivity. }
  rewrite E. reflexivity.
Qed.

(** An append whose write stops after [n] bytes (a full disk) reports the
    error and leaves the log readable: replay still yields the records
    acknowledged before, whenever the frame is incomplete. *)
Theorem failed_append_keeps_log j rs r n e sync :
  holds j rs -> codec_wf r -> (n < length (write_frame (codec_encode r)))%nat ->
  let '(j', out) := append (IoEnv (IoFail n e) sync) j r in
  out = Err (JIo e) /\ replay_all j' = Ok <$> rs.
Proof.
  intros [Hf Hwf] Hr Hn. unfold append. cbn [on_write]. rewrite Hf.
  cbn [write_all f_pos f_bytes]. rewrite write_at_end. split; [done|].
  apply replay_log_with_tail; [done|].
  apply read_torn_frame; [by apply codec_fits | done].
Qed.
End facts.

(** Opening accepts an existing, non-empty file exactly when it starts with
    the six header bytes; it never changes the file it accepts, and it reports
    a short file as an I/O error and a foreign one as [BadHeader]. *)
Theorem open_checks_header (bytes : list byte) :
  bytes <> [] ->
  match with_codec (Some bytes) with
  | Ok j => f_bytes (jfile j) = bytes /\ take HEADER_LEN bytes = header_bytes
            /\ f_pos (jfile j) = length bytes
  | Err (JIo e) => e = IoUnexpectedEof /\ (length bytes < HEADER_LEN)%nat
  | Err BadHeader => (HEADER_LEN <= length bytes)%nat /\ take HEADER_LEN bytes <> header_bytes
  | Err (JDecode _) | Panic => False
  end.
Proof.
  intros Hne. unfold with_codec, with_codec_io. cbn [from_option f_bytes]. unfold id.
  rewrite (proj2 (Nat.eqb_neq _ _)) by (by destruct bytes).
  unfold verify_header. cbn [f_bytes].
  destruct (Nat.ltb_spec (length bytes) HEADER_LEN) as [Hs|Hs]; [done|].
  set (h := take HEADER_LEN bytes).
  assert (Lh : length h = 6%nat) by (unfold h, HEADER_LEN in *; rewrite length_take; lia).
  clearbody h.
  assert (Eh : h = slice 0 4 h ++ slice 4 2 h).
  { rewrite <- (take_drop 4 h) at 1. unfold slice. rewrite drop_0. f_equal.
    rewrite take_ge; [done|]. rewrite length_drop, Lh. lia. }
  assert (L1 : length (slice 0 4 h) = 4%nat) by (apply length_slice; lia).
  assert (L2 : length (slice 4 2 h) = 2%nat) by (apply length_slice; lia).
  destruct (Z.eqb_spec (be_value (slice 0 4 h)) MAGIC) as [Em|Em];
    [destruct (Z.eqb_spec (be_value (slice 4 2 h)) VERSION) as [Ev|Ev]|]; cbn.
  - repeat split; try done. rewrite Eh. unfold header_bytes.
    by rewrite <- Em, <- Ev, !be_bytes_be_value.
  - split; [done|]. intros C. apply Ev. rewrite C. reflexivity.
  - split; [done|]. intros C. apply Em. rewrite C. reflexivity.
Qed.

(** ** Witnesses

    The CRC-32 of IEEE 802.3 (reflected, polynomial 0xEDB88320), the function
    [crc32fast] documents, at which the theorems above are instantiated. *)

Module Ieee.
Fixpoint shift_bits (n : nat) (c : Z) : Z :=
  match n with
  | O => c
  | S m => shift_bits m (if Z.testbit c 0 then Z.lxor 0xEDB88320 (Z.shiftr c 1) else Z.shiftr c 1)
  end.

#[export] Instance crc32_ieee : Crc32 := fun l =>
  wrap32 (Z.lxor 0xFFFFFFFF (foldl (fun c b => shift_bits 8 (Z.lxor c (byteZ b))) 0xFFFFFFFF l)).

#[export] Instance crc32_ieee_ok : Crc32Ok.
Proof. intros l. unfold crc32_hash, crc32_ieee. pose proof (Z.mod_pos_bound
  (Z.lxor 0xFFFFFFFF (foldl (fun c b => shift_bits 8 (Z.lxor c (byteZ b))) 0xFFFFFFFF l))
  (2 ^ 32)). ulia. Qed.

Example check_value :
  crc32_hash (byte_of <$> [49; 50; 51; 52; 53; 54; 55; 56; 57]) = 0xCBF43926.
Proof. vm_compute. reflexivity. Qed.
End Ieee.
Import Ieee.

Definition rec_a : raw_record := Raw (replicate 40 x61).
Definition rec_b : raw_record := Raw [x62].

Lemma rec_a_wf : codec_wf rec_a.
Proof. vm_compute. discriminate. Qed.

Lemma rec_b_wf : codec_wf rec_b.
Proof. vm_compute. discriminate. Qed.

(** The journal that holds [rec_b] alone. *)
Definition one_journal : Journal :=
  MkJournal (File (journal_bytes [rec_b]) (length (journal_bytes [rec_b]))).

Lemma one_journal_holds : holds one_journal [rec_b].
Proof. split; [reflexivity|]. repeat constructor. exact rec_b_wf. Qed.

(** [rec_b] is appended, the append of [rec_a] stops after 17 bytes, the file is
    opened again. *)
Lemma replay_is_acknowledged_log_witness :
  exists j rest, jreach (j, [Acked rec_b; Torn]) /\ replay_all j = (Ok <$> [rec_b]) ++ rest /\ (([] : list (log_event (R := raw_record))) = [] -> rest = []).
Proof.
  destruct holds_fresh as (j0 & H0 & _).
  pose proof (reach_step _ _ (reach_open j0 H0) (step_append io_fine j0 [] rec_b _ _ rec_b_wf (surjective_pairing _))) as H1.
  pose proof (reach_step _ _ H1 (step_append (IoEnv (IoFail 17 IoUnexpectedEof) None) _ _ rec_a _ _ rec_a_wf (surjective_pairing _))) as H2.
  assert (Ho : exists j, with_codec (Some (f_bytes (jfile (append (IoEnv (IoFail 17 IoUnexpectedEof) None) (append io_fine j0 rec_b).1 rec_a).1))) = Ok j).
  { injection H0 as <-. eexists. vm_compute. reflexivity. }
  destruct Ho as [j Ho]. pose proof (reach_step _ _ H2 (step_reopen _ _ _ Ho)) as H3.
  destruct (replay_is_acknowledged_log j _ H3) as (rest & E). exists j, rest. split; [exact H3|exact E].
Defined.

Lemma append_crash_atomic_witness :
  exists j', with_codec (Some (journal_bytes [rec_b] ++ take 17 (write_frame (codec_encode rec_a)))) = Ok j'
    /\ replay_all j' = Ok <$> [rec_b].
Proof. exact (append_crash_atomic one_journal [rec_b] rec_a 17 one_journal_holds rec_a_wf). Defined.

