(* ===== verification/LsmKey.v ===== *)
(** * Keys, ranges, errors and configuration of the LSM tree

    [crates/lsm/src/key.rs], [error.rs] and [config.rs]: versioned keys and
    their order (user key ascending, sequence number descending), the key
    range carried by every table, [std::ops::Bound] ranges over user keys,
    the error types with their conversions, and the configuration records. *)

From Stdlib Require Import Strings.Byte ZArith Lia Sorted.
From stdpp Require Import prelude list strings.
From S2P Require Import Prelude Codec Journal.
Local Open Scope Z_scope.

(** ** Keys *)

Inductive OpType : Type := Put | Delete.

#[global] Instance OpType_eq_dec : EqDecision OpType.
Proof. solve_decision. Defined.

Record InternalKey : Type := IKey { user_key : list byte; seq : Z; op : OpType }.

#[global] Instance InternalKey_eq_dec : EqDecision InternalKey.
Proof. solve_decision. Defined.

(** [Ord for InternalKey]. *)
Definition ikey_cmp (a b : InternalKey) : comparison :=
  match bytes_cmp (user_key a) (user_key b) with
  | Eq => Z.compare (seq b) (seq a)
  | c => c
  end.

Record KeyValue : Type := KV { key : InternalKey; value : list byte }.

#[global] Instance KeyValue_eq_dec : EqDecision KeyValue.
Proof. solve_decision. Defined.

Definition KVPair : Type := list byte * list byte.

#[global] Instance ikey_cmp_total : TotalCmp ikey_cmp.
Proof.
  split.
  - intros x. unfold ikey_cmp. by rewrite (cmp_refl bytes_cmp), Z.compare_refl.
  - intros x y. unfold ikey_cmp. rewrite (cmp_sym bytes_cmp (user_key x)).
    destruct (bytes_cmp _ _); cbn; try done. apply Z.compare_antisym.
  - intros c x y z. unfold ikey_cmp.
    destruct (bytes_cmp (user_key x) (user_key y)) eqn:E1.
    + rewrite (cmp_eq_l bytes_cmp _ _ (user_key z) E1).
      destruct (bytes_cmp (user_key y) (user_key z)); [|congruence..].
      intros H1 H2. by apply (cmp_trans Z.compare c _ (seq y)); [|].
    + intros <-. destruct (bytes_cmp (user_key y) (user_key z)) eqn:E2; [|intros _|done].
      * intros _. by rewrite <- (cmp_eq_r bytes_cmp _ _ (user_key x) E2), E1.
      * by rewrite (cmp_trans bytes_cmp Lt _ _ _ E1 E2).
    + intros <-. destruct (bytes_cmp (user_key y) (user_key z)) eqn:E2; [|done|intros _].
      * intros _. by rewrite <- (cmp_eq_r bytes_cmp _ _ (user_key x) E2), E1.
      * by rewrite (cmp_trans bytes_cmp Gt _ _ _ E1 E2).
Qed.

(** Lists sorted by distinct keys are determined by their elements. *)
Lemma sorted_pairs_unique {A} (l l' : list (list byte * A)) :
  StronglySorted (fun a b => bytes_cmp a.1 b.1 = Lt) l -> StronglySorted (fun a b => bytes_cmp a.1 b.1 = Lt) l' ->
  (forall x, x ∈ l <-> x ∈ l') -> l = l'.
Proof.
  assert (forall x y : list byte * A, bytes_cmp x.1 y.1 = Lt -> bytes_cmp y.1 x.1 = Lt -> False) as Hirr.
  { intros x y H1 H2. by rewrite (cmp_sym bytes_cmp x.1 y.1), H1 in H2. }
  intros Hl. revert l'. induction Hl as [|a l Hs IH Ha]; intros l' Hl' E.
  { destruct l' as [|b l']; [done|]. destruct (not_elem_of_nil b). apply E. by left. }
  destruct Hl' as [|b l' Hs' Hb]; [destruct (not_elem_of_nil a); apply E; by left|]. rewrite Forall_forall in Ha, Hb.
  assert (a = b) as <-.
  { destruct (proj1 (elem_of_cons _ _ _) (proj1 (E a) ltac:(by left))) as [?|H1]; [done|].
    destruct (proj1 (elem_of_cons _ _ _) (proj2 (E b) ltac:(by left))) as [?|H2]; [done|]. destruct (Hirr b a); auto. }
  f_equal. apply IH; [done|]. intros x. specialize (E x). rewrite !elem_of_cons in E.
  assert (x ∈ l -> x <> a) by (intros Hx ->; by destruct (Hirr a a (Ha a Hx) (Ha a Hx))).
  assert (x ∈ l' -> x <> a) by (intros Hx ->; by destruct (Hirr a a (Hb a Hx) (Hb a Hx))). tauto.
Qed.

Lemma ikey_cmp_lt a b :
  ikey_cmp a b = Lt <->
  bytes_cmp (user_key a) (user_key b) = Lt \/ (user_key a = user_key b /\ seq b < seq a).
Proof.
  unfold ikey_cmp. destruct (bytes_cmp (user_key a) (user_key b)) eqn:E.
  - apply bytes_cmp_eq in E. rewrite Z.compare_lt_iff. intuition congruence.
  - intuition.
  - split; [done|]. intros [?|[Eq _]]; [done|]. apply bytes_cmp_eq in Eq. congruence.
Qed.

Lemma ikey_cmp_eq a b : ikey_cmp a b = Eq <-> user_key a = user_key b /\ seq a = seq b.
Proof.
  unfold ikey_cmp. destruct (bytes_cmp (user_key a) (user_key b)) eqn:E.
  - apply bytes_cmp_eq in E. rewrite Z.compare_eq_iff. intuition congruence.
  - split; [done|]. intros [Eq _]. apply bytes_cmp_eq in Eq. congruence.
  - split; [done|]. intros [Eq _]. apply bytes_cmp_eq in Eq. congruence.
Qed.

Lemma ikey_cmp_lt_uk a b : ikey_cmp a b = Lt -> bytes_le (user_key a) (user_key b).
Proof.
  rewrite ikey_cmp_lt. intros [H|[H _]].
  - unfold cmp_le. by rewrite H.
  - rewrite H. apply (cmp_le_preorder bytes_cmp).
Qed.

(** ** Key ranges *)

Record KeyRange : Type := Range { rmin : list byte; rmax : list byte }.

#[global] Instance KeyRange_eq_dec : EqDecision KeyRange.
Proof. solve_decision. Defined.

Definition range_contains (r : KeyRange) (k : list byte) : bool :=
  bytes_leb (rmin r) k && bytes_leb k (rmax r).

(** [Ord::min] and [Ord::max] on byte strings; on equal arguments [min] keeps
    the first and [max] the second. *)
Definition bytes_min (a b : list byte) : list byte := if bytes_leb a b then a else b.
Definition bytes_max (a b : list byte) : list byte := if bytes_leb a b then b else a.

Definition range_union (r o : KeyRange) : KeyRange :=
  Range (bytes_min (rmin r) (rmin o)) (bytes_max (rmax r) (rmax o)).

Lemma bytes_min_le a b : bytes_le (bytes_min a b) a /\ bytes_le (bytes_min a b) b.
Proof.
  unfold bytes_min. destruct (bytes_leb a b) eqn:E.
  - split; [apply (cmp_le_preorder bytes_cmp) | by apply bytes_leb_le].
  - split; [|apply (cmp_le_preorder bytes_cmp)].
    destruct (cmp_le_total bytes_cmp a b) as [H|H]; [|unfold cmp_le; by rewrite H].
    apply bytes_leb_le in H. congruence.
Qed.

Lemma bytes_max_ge a b : bytes_le a (bytes_max a b) /\ bytes_le b (bytes_max a b).
Proof.
  unfold bytes_max. destruct (bytes_leb a b) eqn:E.
  - split; [by apply bytes_leb_le | apply (cmp_le_preorder bytes_cmp)].
  - split; [apply (cmp_le_preorder bytes_cmp)|].
    destruct (cmp_le_total bytes_cmp a b) as [H|H]; [|unfold cmp_le; by rewrite H].
    apply bytes_leb_le in H. congruence.
Qed.

Lemma range_contains_iff r k :
  range_contains r k = true <-> bytes_le (rmin r) k /\ bytes_le k (rmax r).
Proof. unfold range_contains. rewrite andb_true_iff, !bytes_leb_le. done. Qed.

(** ** Bounds over user keys *)

Inductive bound (A : Type) : Type :=
| Included (a : A)
| Excluded (a : A)
| Unbounded.
Arguments Included {A} a.
Arguments Excluded {A} a.
Arguments Unbounded {A}.

(** [in_bounds] of [sstable.rs]. *)
Definition in_bounds (k : list byte) (start end_ : bound (list byte)) : bool :=
  let after_start := match start with
    | Included s => bytes_leb s k
    | Excluded s => bytes_ltb s k
    | Unbounded => true end in
  let before_end := match end_ with
    | Included e => bytes_leb k e
    | Excluded e => bytes_ltb k e
    | Unbounded => true end in
  after_start && before_end.

(** Whether a table's [[min, max]] could hold a key of the query range
    ([overlaps] of [lib.rs]). *)
Definition overlaps (r : KeyRange) (start end_ : bound (list byte)) : bool :=
  let below := match end_ with
    | Included e => bytes_ltb e (rmin r)
    | Excluded e => bytes_leb e (rmin r)
    | Unbounded => false end in
  let above := match start with
    | Included s => bytes_ltb (rmax r) s
    | Excluded s => bytes_leb (rmax r) s
    | Unbounded => false end in
  negb (below || above).

(** A key inside both the range and the bounds proves the overlap. *)
Lemma overlaps_complete r start end_ k :
  range_contains r k = true -> in_bounds k start end_ = true -> overlaps r start end_ = true.
Proof.
  rewrite range_contains_iff. intros [Hmin Hmax] Hb.
  unfold in_bounds in Hb. apply andb_true_iff in Hb as [Hs He].
  unfold overlaps. rewrite negb_true_iff, orb_false_iff. split.
  - destruct end_ as [e|e|]; [| |done].
    + rewrite bytes_ltb_leb, negb_false_iff. apply bytes_leb_le. apply bytes_leb_le in He.
      by transitivity k.
    + apply bytes_ltb_lt in He. destruct (bytes_leb e (rmin r)) eqn:E; [|done].
      apply bytes_leb_le in E. exfalso.
      assert (C : bytes_le e k) by (by transitivity (rmin r)). apply C. by apply (cmp_gt_lt bytes_cmp).
  - destruct start as [s|s|]; [| |done].
    + rewrite bytes_ltb_leb, negb_false_iff. apply bytes_leb_le. apply bytes_leb_le in Hs.
      by transitivity k.
    + apply bytes_ltb_lt in Hs. destruct (bytes_leb (rmax r) s) eqn:E; [|done].
      apply bytes_leb_le in E. exfalso.
      assert (C : bytes_le k s) by (by transitivity (rmax r)). apply C. by apply (cmp_gt_lt bytes_cmp).
Qed.

(** The query range a [BTreeMap] scan accepts: not inverted, and not empty
    with both ends excluded. *)
Definition valid_range (start end_ : bound (list byte)) : bool :=
  match start, end_ with
  | Unbounded, _ | _, Unbounded => true
  | Excluded s, Excluded e => bytes_ltb s e
  | Included s, Included e | Included s, Excluded e | Excluded s, Included e => bytes_leb s e
  end.

(** ** Errors *)

Inductive WriteError : Type :=
| StoreFull
| InvalidArgument (m : message)
| WInternal (m : message).

Inductive ReadError : Type := RInternal (m : message).

Inductive LsmError : Type :=
| LWrite (e : WriteError)
| Exhausted (m : message)
| LInternal (m : message).

#[global] Instance WriteError_eq_dec : EqDecision WriteError.
Proof. solve_decision. Defined.
#[global] Instance ReadError_eq_dec : EqDecision ReadError.
Proof. solve_decision. Defined.
#[global] Instance LsmError_eq_dec : EqDecision LsmError.
Proof. solve_decision. Defined.

Definition is_exhausted (e : LsmError) : bool :=
  match e with Exhausted _ | LWrite StoreFull => true | _ => false end.

(** [From<WriteError>], [From<ReadError>], [From<io::Error>] and
    [From<JournalError>] for [LsmError]. *)
Definition lsm_of_write (e : WriteError) : LsmError :=
  match e with WInternal m => LInternal m | other => LWrite other end.

Definition lsm_of_read (e : ReadError) : LsmError :=
  match e with RInternal m => LInternal m end.

Definition lsm_of_io (e : io_error) : LsmError :=
  match e with
  | IoOs errno => if errno =? ENOSPC then Exhausted (Prefixed "backing store full: " (OfIo e))
                  else LInternal (OfIo e)
  | _ => LInternal (OfIo e)
  end.

(** [JournalError::to_string]. *)
Definition journal_message (e : JournalError) : message :=
  match e with
  | JIo e => Prefixed "journal io: " (OfIo e)
  | BadHeader => Text "journal: unrecognized file header"
  | JDecode m => Prefixed "journal decode: " m
  end.

Definition lsm_of_journal (e : JournalError) : LsmError := LInternal (journal_message e).

(** [LsmError::to_string]. *)
Definition write_message (e : WriteError) : message :=
  match e with
  | StoreFull => Text "store is full"
  | InvalidArgument m => Prefixed "invalid argument: " m
  | WInternal m => Prefixed "internal error: " m
  end.

Definition lsm_message (e : LsmError) : message :=
  match e with
  | LWrite e => write_message e
  | Exhausted m => Prefixed "lsm exhausted: " m
  | LInternal m => Prefixed "internal error: " m
  end.

(** ** Configuration *)

Definition KIB : Z := 1024.
Definition MIB : Z := 1024 * 1024.

Record BloomConfig : Type := MkBloomConfig { bits_per_key : Z }.
Record PageConfig : Type := MkPageConfig { page_size_bytes : nat; blocks_per_chunk : nat }.
Record RunConfig : Type := MkRunConfig { max_size_bytes : Z }.
Record TableConfig : Type :=
  MkTableConfig { max_file_size_bytes : Z; bloom_config : BloomConfig; page_config : PageConfig }.
Record LevelConfig : Type :=
  MkLevelConfig { max_runs : Z; run_config : RunConfig; table_config : TableConfig }.

Definition BloomConfig_default : BloomConfig := MkBloomConfig 10.
Definition PageConfig_default : PageConfig := MkPageConfig (4 * Z.to_nat KIB) 256.
Definition RunConfig_default : RunConfig := MkRunConfig (64 * MIB).
Definition TableConfig_default : TableConfig :=
  MkTableConfig (64 * MIB) BloomConfig_default PageConfig_default.
Definition LevelConfig_default : LevelConfig :=
  MkLevelConfig 1 RunConfig_default TableConfig_default.

Inductive SizeConfig : Type := SizeBytes (n : Z) | SizePages (n : Z) | SizeUnbounded.
Definition SizeConfig_default : SizeConfig := SizeBytes (64 * MIB).

Inductive CachePolicy : Type := Lru.

Record PageCacheConfig : Type := MkPageCacheConfig { cache_size : SizeConfig; cache_policy : CachePolicy }.
Definition PageCacheConfig_default : PageCacheConfig := MkPageCacheConfig SizeConfig_default Lru.

Record LsmConfig : Type := MkLsmConfig { levels : list LevelConfig; page_cache : PageCacheConfig }.

(** [LsmConfig::leveled]: [64 * MIB * (1 << i)] below level 0. *)
Definition leveled_level (i : nat) : LevelConfig :=
  if (i =? 0)%nat then MkLevelConfig 64 RunConfig_default TableConfig_default
  else MkLevelConfig 1 (MkRunConfig (64 * MIB * Z.shiftl 1 (Z.of_nat i))) TableConfig_default.

Definition leveled (n : nat) : LsmConfig :=
  MkLsmConfig (leveled_level <$> List.seq 0 n) PageCacheConfig_default.

Definition LsmConfig_default : LsmConfig := leveled 7.
Definition num_levels (c : LsmConfig) : nat := length (levels c).
