(* ===== verification/Memtable.v ===== *)
(** * The memtable ([crates/lsm/src/store.rs], [memstore/btree.rs], [memstore/journal.rs])

    [BTree] models the [BTreeMap] operations the memtable uses; [MemStore] is
    the trait the tree is generic over, with the laws ([MemStoreOk]) the tree
    relies on; [BTreeMemtable] implements it; [Journaled] wraps any [MemStore]
    with the durability journal, with recovery on open. *)

From Stdlib Require Import Strings.Byte ZArith Lia Sorted.
From stdpp Require Import prelude list strings.
From S2P Require Import Prelude Codec Journal LsmKey.
Local Open Scope Z_scope.

(** ** [BTreeMap]

    A map as the list of its entries in key order.  [insert] on a key that
    compares equal keeps the stored key and replaces the value, as
    [BTreeMap::insert] documents; [range] panics on an inverted range. *)

Module BTree.
Section btree.
Context {K V : Type} (cmp : K -> K -> comparison).

Fixpoint insert (k : K) (v : V) (l : list (K * V)) : list (K * V) :=
  match l with
  | [] => [(k, v)]
  | (k', v') :: l' =>
      match cmp k k' with
      | Lt => (k, v) :: l
      | Eq => (k', v) :: l'
      | Gt => (k', v') :: insert k v l'
      end
  end.

Definition above (lo : bound K) (k : K) : bool :=
  match lo with
  | Included s => match cmp s k with Gt => false | _ => true end
  | Excluded s => match cmp s k with Lt => true | _ => false end
  | Unbounded => true
  end.

Definition below (hi : bound K) (k : K) : bool :=
  match hi with
  | Included e => match cmp k e with Gt => false | _ => true end
  | Excluded e => match cmp k e with Lt => true | _ => false end
  | Unbounded => true
  end.

(** "range start is greater than range end", and "range start and end are
    equal and excluded". *)
Definition range_panics (lo hi : bound K) : bool :=
  match lo, hi with
  | Unbounded, _ | _, Unbounded => false
  | Excluded s, Excluded e => match cmp s e with Lt => false | _ => true end
  | Included s, Included e | Included s, Excluded e | Excluded s, Included e =>
      match cmp s e with Gt => true | _ => false end
  end.

Definition range {E} (lo hi : bound K) (l : list (K * V)) : res E (list (K * V)) :=
  if range_panics lo hi then Panic
  else Ok (List.filter (fun e => above lo e.1 && below hi e.1) l).

Definition lt_entry (a b : K * V) : Prop := cmp a.1 b.1 = Lt.
Definition sorted (l : list (K * V)) : Prop := StronglySorted lt_entry l.

Context `{!TotalCmp cmp}.

Lemma insert_Forall (P : K * V -> Prop) k v l :
  (forall k', cmp k k' = Eq -> P (k', v)) -> Forall P l -> Forall P (insert k v l).
Proof.
  intros Hv. assert (Hk : P (k, v)) by (apply Hv, cmp_refl, _).
  induction 1 as [|[k' v'] l H Hl IH]; cbn; [by constructor|].
  destruct (cmp k k') eqn:E; repeat constructor; auto.
Qed.

Lemma insert_sorted k v l : sorted l -> sorted (insert k v l).
Proof.
  unfold sorted. induction 1 as [|[k' v'] l Hl IH Hall]; cbn; [repeat constructor|].
  destruct (cmp k k') eqn:E.
  - constructor; [done|]. eapply Forall_impl; [exact Hall|]. by intros e.
  - constructor; [by constructor|]. constructor; [done|].
    eapply Forall_impl; [exact Hall|]. intros [k2 v2]. unfold lt_entry. cbn.
    by apply (cmp_trans cmp Lt).
  - constructor; [exact IH|].
    apply (insert_Forall (lt_entry (k', v'))); [|done].
    intros k2 E2. unfold lt_entry. cbn. rewrite <- (cmp_eq_r cmp k k2 k' E2).
    by apply (cmp_gt_lt cmp).
Qed.

(** A key that equals no stored key is added; nothing else changes. *)
Lemma insert_Permutation k v l :
  Forall (fun e => cmp k e.1 <> Eq) l -> insert k v l ≡ₚ (k, v) :: l.
Proof.
  induction 1 as [|[k' v'] l H Hl IH]; cbn in *; [done|].
  destruct (cmp k k'); [done|done|]. rewrite IH. constructor.
Qed.
End btree.
End BTree.

(** ** The store traits *)

Abbreviation entry := (InternalKey * list byte)%type.

(** [ReadStore] + [WriteStore] + [MemStore].  A write returns the new state
    next to its result; a scan is the list its iterator yields, [Panic] when
    building the iterator panics. *)
Class MemStore (M : Type) : Type := {
  ms_put : InternalKey -> list byte -> M -> M * res WriteError unit;
  ms_get_at : list byte -> Z -> M -> res ReadError (option (list byte));
  ms_scan_at : bound (list byte) -> bound (list byte) -> Z -> M ->
               res ReadError (list (res ReadError entry));
  ms_size : M -> Z;
  ms_clear : M -> M * res WriteError unit;
}.

(** The order of a memtable's entries: user key ascending, newest first. *)
Abbreviation entries_sorted := (BTree.sorted ikey_cmp (V := list byte)).

(** The entries a scan of [start, end_] at [max_seq] is to yield. *)
Definition visible (start end_ : bound (list byte)) (max_seq : Z) (e : entry) : bool :=
  in_bounds (user_key e.1) start end_ && (seq e.1 <=? max_seq).

(** The point-lookup specification: the first entry of [k] at or below
    [max_seq] in key order, which is the newest such version. *)
Definition newest (k : list byte) (max_seq : Z) (l : list entry) : option entry :=
  List.find (fun e => bool_decide (user_key e.1 = k) && (seq e.1 <=? max_seq)) l.

(** A put yields its value, a tombstone nothing ([resolve] of [lib.rs]). *)
Definition resolve (o : OpType) (v : list byte) : option (list byte) :=
  match o with Put => Some v | Delete => None end.

Class MemStoreOk (M : Type) `{!MemStore M} : Type := {
  ms_entries : M -> list entry;
  ms_wf : M -> Prop;
  ms_sorted m : ms_wf m -> entries_sorted (ms_entries m);
  ms_seqs m : ms_wf m -> Forall (fun e => is_u64 (seq e.1)) (ms_entries m);
  ms_put_ok k v m m' : ms_wf m -> is_u64 (seq k) -> ms_put k v m = (m', Ok tt) ->
    ms_wf m' /\ ms_entries m' = BTree.insert ikey_cmp k v (ms_entries m);
  ms_put_full k v m m' e : ms_put k v m = (m', Err e) -> m' = m /\ e = StoreFull;
  ms_put_total k v m : (ms_put k v m).2 <> Panic;
  ms_put_empty k v m : ms_wf m -> ms_entries m = [] -> (ms_put k v m).2 = Ok tt;
  ms_get_spec k s m : ms_wf m -> is_u64 s ->
    ms_get_at k s m = Ok (e ← newest k s (ms_entries m); resolve (op e.1) e.2);
  ms_scan_spec lo hi s m : ms_wf m -> valid_range lo hi = true ->
    ms_scan_at lo hi s m = Ok (Ok <$> List.filter (visible lo hi s) (ms_entries m));
  ms_scan_invalid lo hi s m : valid_range lo hi = false -> ms_scan_at lo hi s m = Panic;
  ms_clear_spec m : exists m', ms_clear m = (m', Ok tt) /\ ms_wf m' /\ ms_entries m' = [];
  ms_put_clear k v m : ms_clear (ms_put k v m).1 = ms_clear m;
}.

(** ** [BTreeMemtable] *)

Module BTreeMemtable.
Definition DEFAULT_CAPACITY : Z := 4 * 1024 * 1024.

Record t : Type := Mk { store : list entry; capacity : Z; size : Z }.

Definition with_capacity (cap : Z) : t := Mk [] cap 0.
Definition new : t := with_capacity DEFAULT_CAPACITY.

Definition put (k : InternalKey) (v : list byte) (m : t) : t * res WriteError unit :=
  let added := Z.of_nat (length (user_key k)) + Z.of_nat (length v) in
  if negb (bool_decide (store m = [])) && (capacity m <? size m + added)
  then (m, Err StoreFull)
  else (Mk (BTree.insert ikey_cmp k v (store m)) (capacity m) (size m + added), Ok tt).

Definition clear (m : t) : t * res WriteError unit := (Mk [] (capacity m) 0, Ok tt).

Definition get_at (k : list byte) (max_seq : Z) (m : t) : res ReadError (option (list byte)) :=
  let probe := IKey k max_seq Put in
  l ← BTree.range ikey_cmp (Included probe) Unbounded (store m);
  match l with
  | (ik, v) :: _ =>
      if bool_decide (user_key ik = k)
      then Ok (match op ik with Put => Some v | Delete => None end)
      else Ok None
  | [] => Ok None
  end.

(** The bounds on internal keys [scan_at] builds from those on user keys. *)
Definition start_bound (b : bound (list byte)) : bound InternalKey :=
  match b with
  | Included k => Included (IKey k u64_max Put)
  | Excluded k => Excluded (IKey k 0 Put)
  | Unbounded => Unbounded
  end.

Definition end_bound (b : bound (list byte)) : bound InternalKey :=
  match b with
  | Included k => Included (IKey k 0 Put)
  | Excluded k => Excluded (IKey k u64_max Put)
  | Unbounded => Unbounded
  end.

Definition scan_at (start end_ : bound (list byte)) (max_seq : Z) (m : t)
  : res ReadError (list (res ReadError entry)) :=
  l ← BTree.range ikey_cmp (start_bound start) (end_bound end_) (store m);
  Ok (Ok <$> List.filter (fun e => seq e.1 <=? max_seq) l).

#[global] Instance mem_store : MemStore t := {|
  ms_put := put; ms_get_at := get_at; ms_scan_at := scan_at;
  ms_size := size; ms_clear := clear |}.

Definition wf (m : t) : Prop :=
  entries_sorted (store m) /\ Forall (fun e => is_u64 (seq e.1)) (store m).

Lemma above_start lo k :
  is_u64 (seq k) ->
  BTree.above ikey_cmp (start_bound lo) k
  = match lo with
    | Included s => bytes_leb s (user_key k)
    | Excluded s => bytes_ltb s (user_key k)
    | Unbounded => true end.
Proof.
  intros Hs. destruct lo as [s|s|]; cbn; [| |done]; unfold ikey_cmp, bytes_leb, bytes_ltb;
    cbn [user_key seq]; destruct (bytes_cmp s (user_key k)); try done.
  - destruct (Z.compare_spec (seq k) u64_max); try done. ulia.
  - destruct (Z.compare_spec (seq k) 0); try done. ulia.
Qed.

Lemma below_end hi k :
  is_u64 (seq k) ->
  BTree.below ikey_cmp (end_bound hi) k
  = match hi with
    | Included e => bytes_leb (user_key k) e
    | Excluded e => bytes_ltb (user_key k) e
    | Unbounded => true end.
Proof.
  intros Hs. destruct hi as [e|e|]; cbn [end_bound BTree.below]; [| |done]; unfold ikey_cmp, bytes_leb, bytes_ltb;
    cbn [user_key seq]; destruct (bytes_cmp (user_key k) e); try done.
  - destruct (Z.compare_spec 0 (seq k)); try done. ulia.
  - destruct (Z.compare_spec u64_max (seq k)); try done. ulia.
Qed.

Lemma range_panics_valid lo hi :
  BTree.range_panics ikey_cmp (start_bound lo) (end_bound hi) = negb (valid_range lo hi).
Proof.
  destruct lo as [s|s|], hi as [e|e|]; try done; cbn; unfold ikey_cmp, bytes_leb, bytes_ltb;
    cbn; by destruct (bytes_cmp s e).
Qed.

Lemma scan_spec lo hi s m :
  wf m -> valid_range lo hi = true ->
  scan_at lo hi s m = Ok (Ok <$> List.filter (visible lo hi s) (store m)).
Proof.
  intros [_ Hs] Hv. unfold scan_at, BTree.range. rewrite range_panics_valid, Hv.
  cbn [negb]. bind_ok. do 2 f_equal.
  induction Hs as [|e l He Hl IH]; [done|]. cbn [List.filter].
  rewrite above_start, below_end by done. unfold visible at 1, in_bounds.
  destruct (match lo with Included _ => _ | _ => _ end); cbn; [|exact IH].
  destruct (match hi with Included _ => _ | _ => _ end); cbn; [|exact IH].
  rewrite IH. done.
Qed.

(** The entries at or after a probe start with the newest visible one. *)
Lemma range_probe k s l :
  entries_sorted l -> is_u64 s ->
  newest k s l
  = match List.filter (fun e => BTree.above ikey_cmp (Included (IKey k s Put)) e.1
                                && BTree.below ikey_cmp Unbounded e.1) l with
    | e :: _ => if bool_decide (user_key e.1 = k) then Some e else None
    | [] => None end.
Proof.
  intros Hsort Hs. induction Hsort as [|[ik v] l Hl IH Hall]; [done|].
  unfold newest in *. cbn [List.filter List.find fst].
  cbn [BTree.above BTree.below]. rewrite andb_true_r.
  destruct (ikey_cmp (IKey k s Put) ik) eqn:E.
  - apply ikey_cmp_eq in E as [Ek Es]. cbn in Ek, Es. subst.
    cbn [fst]. by rewrite !bool_decide_eq_true_2, Z.leb_refl by done.
  - apply ikey_cmp_lt in E as [E|[Ek Es]]; cbn in *.
    + assert (Hne : user_key ik <> k).
      { intros Hc. by rewrite Hc, (cmp_refl bytes_cmp) in E. }
      rewrite !bool_decide_eq_false_2 by done. cbn.
      destruct (List.find _ l) as [e|] eqn:F; [|done].
      apply List.find_some in F as [Hin Hp]. exfalso.
      apply andb_true_iff in Hp as [Hk _]. apply bool_decide_eq_true in Hk.
      rewrite Forall_forall in Hall. specialize (Hall e ltac:(by apply list_elem_of_In)).
      apply ikey_cmp_lt_uk in Hall. cbn in Hall. rewrite Hk in Hall.
      apply Hall. by apply (cmp_gt_lt bytes_cmp).
    + subst k. rewrite !bool_decide_eq_true_2 by done. cbn.
      rewrite (proj2 (Z.leb_le _ _)) by lia. done.
  - apply (cmp_gt_lt ikey_cmp) in E. apply ikey_cmp_lt in E as [E|[Ek Es]]; cbn in *.
    + rewrite bool_decide_eq_false_2; [exact IH|].
      intros Hc. by rewrite Hc, (cmp_refl bytes_cmp) in E.
    + rewrite (proj2 (Z.leb_gt _ _)) by lia. rewrite andb_false_r. exact IH.
Qed.

Lemma get_spec k s m :
  wf m -> is_u64 s -> get_at k s m = Ok (e ← newest k s (store m); resolve (op e.1) e.2).
Proof.
  intros [Hsort _] Hs. unfold get_at, BTree.range. cbn [BTree.range_panics]. bind_ok.
  rewrite (range_probe k s (store m)) by done.
  destruct (List.filter _ _) as [|[ik v] r]; [done|]. cbn [fst snd].
  case_bool_decide; [|done]. cbn. by destruct (op ik).
Qed.

#[global] Instance mem_store_ok : MemStoreOk t.
Proof.
  refine {| ms_entries := store; ms_wf := wf; ms_get_spec := get_spec; ms_scan_spec := scan_spec |}.
  - by intros m [].
  - by intros m [].
  - intros k v m m' [Hs Hu] Hk. cbn. unfold put. case_match; [done|]. intros [= <-].
    cbn. split; [|done]. split; cbn.
    + by apply BTree.insert_sorted; [apply _|].
    + apply BTree.insert_Forall; [apply _| |done].
      intros k' E. apply ikey_cmp_eq in E as [_ E]. cbn. by rewrite <- E.
  - intros k v m m' e. cbn. unfold put. case_match; [|done]. by intros [= <- <-].
  - intros k v m. cbn. unfold put. by case_match.
  - intros k v m _ Hm. cbn. unfold put. cbn in Hm. rewrite Hm. done.
  - intros lo hi s m Hv. cbn. unfold scan_at, BTree.range.
    by rewrite range_panics_valid, Hv.
  - intros m. eexists. split; [done|]. split; [|done]. split; constructor.
  - intros k v m. cbn. unfold put, clear. by case_match.
Defined.
End BTreeMemtable.
