(* ===== verification/DataBlock.v ===== *)
(** * The entry and data-block format ([crates/lsm/src/storage/data.rs])

    An entry is a length-prefixed user key, its sequence number, its operation
    byte and a length-prefixed value; a data block is entries back to back,
    decoded until the bytes run out.  The memtable journal logs entries in the
    same format. *)

From Stdlib Require Import Strings.Byte ZArith Lia.
From stdpp Require Import prelude list strings.
From S2P Require Import Prelude Codec Journal LsmKey.
Local Open Scope Z_scope.

Definition OP_PUT : Z := 1.
Definition OP_DELETE : Z := 2.

Definition kv_encode (kv : KeyValue) : list byte :=
  put_bytes (user_key (key kv))
  ++ be_bytes 8 (seq (key kv))
  ++ [byte_of (match op (key kv) with Put => OP_PUT | Delete => OP_DELETE end)]
  ++ put_bytes (value kv).

Definition kv_decode : decoder KeyValue := fun bytes =>
  '(uk, b1) ← get_bytes bytes;
  '(s, b2) ← get_u64 b1;
  '(o, b3) ← get_u8 b2;
  oper ← (if o =? OP_PUT then Ok Put
          else if o =? OP_DELETE then Ok Delete
          else Err (UnknownOpType o));
  '(v, b4) ← get_bytes b3;
  Ok (KV (IKey uk s oper) v, b4).

(** Mirrors the layout: [4 + ukey + 8 + 1 + 4 + value]. *)
Definition entry_size (kv : KeyValue) : nat :=
  4 + length (user_key (key kv)) + 8 + 1 + 4 + length (value kv).

#[global] Instance kv_wire : Wire KeyValue :=
  {| wire_encode := kv_encode; wire_decode := kv_decode |}.

(** The lengths and the sequence number fit their fields. *)
Definition kv_wf (kv : KeyValue) : Prop :=
  fits_u32 (user_key (key kv)) /\ is_u64 (seq (key kv)) /\ fits_u32 (value kv).

(** A data block, and its decoding loop; [fuel] bounds the entries read. *)
Definition block_encode (entries : list KeyValue) : list byte := encode_all entries.

Fixpoint block_decode_loop (fuel : nat) (bytes : list byte) : res DecodeError (list KeyValue) :=
  match bytes with
  | [] => Ok []
  | _ :: _ =>
      match fuel with
      | O => Panic
      | S n => '(kv, rest) ← kv_decode bytes;
               l ← block_decode_loop n rest;
               Ok (kv :: l)
      end
  end.

Definition block_decode (bytes : list byte) : res DecodeError (list KeyValue) :=
  block_decode_loop (length bytes) bytes.

(** ** Facts *)

Lemma length_kv_encode kv : length (kv_encode kv) = entry_size kv.
Proof. unfold kv_encode, entry_size. len. Qed.

Lemma kv_decode_encode kv rest : kv_wf kv -> kv_decode (kv_encode kv ++ rest) = Ok (kv, rest).
Proof.
  destruct kv as [[uk s o] v]. intros (Huk & Hs & Hv). cbn in *.
  unfold kv_encode, kv_decode. cbn [key value user_key seq op].
  rewrite <- !app_assoc, get_bytes_app by done. bind_ok.
  rewrite get_u64_app by done. bind_ok. cbn [app]. rewrite get_u8_app. bind_ok.
  rewrite byteZ_byte_of. destruct o; cbn; bind_ok; by rewrite get_bytes_app.
Qed.

#[global] Instance kv_wire_ok : WireOk KeyValue :=
  {| wire_wf := kv_wf; wire_round_trip := kv_decode_encode |}.

Lemma take_n_shorter l n a r : take_n l n = Ok (a, r) -> 0 <= n -> length l = (Z.to_nat n + length r)%nat.
Proof.
  unfold take_n. case_match eqn:E; [done|]. apply Z.ltb_ge in E. intros [= <- <-] Hn.
  rewrite length_drop. lia.
Qed.

(** Decoding an entry consumes at least its 17 fixed bytes. *)
Lemma kv_decode_shorter l kv rest : kv_decode l = Ok (kv, rest) -> (length rest + 17 <= length l)%nat.
Proof.
  unfold kv_decode, get_bytes, get_u64, get_u8, get_u32. intros H.
  destruct (take_n l 4) as [[a1 r1]|?|] eqn:E1; cbn in H; try done.
  destruct (take_n r1 (be_value a1)) as [[a2 r2]|?|] eqn:E2; cbn in H; try done.
  destruct (take_n r2 8) as [[a3 r3]|?|] eqn:E3; cbn in H; try done.
  destruct (take_n r3 1) as [[a4 r4]|?|] eqn:E4; cbn in H; try done.
  destruct (if be_value a4 =? OP_PUT then _ else _) as [o|?|]; cbn in H; try done.
  destruct (take_n r4 4) as [[a5 r5]|?|] eqn:E5; cbn in H; try done.
  destruct (take_n r5 (be_value a5)) as [[a6 r6]|?|] eqn:E6; cbn in H; try done.
  injection H as <- <-.
  apply take_n_shorter in E1, E2, E3, E4, E5, E6; try lia; apply be_value_bound.
Qed.

Lemma block_decode_loop_encode fuel l :
  Forall kv_wf l -> (length (block_encode l) <= fuel)%nat ->
  block_decode_loop fuel (block_encode l) = Ok l.
Proof.
  intros H. revert fuel. induction H as [|kv l Hkv Hl IH]; intros fuel Hf; [by destruct fuel|].
  unfold block_encode in *. cbn [encode_all flat_map] in *.
  change (wire_encode kv) with (kv_encode kv) in *.
  pose proof (length_kv_encode kv) as El. unfold entry_size in El. rewrite length_app in Hf.
  destruct fuel as [|n]; [lia|]. cbn [block_decode_loop].
  destruct (kv_encode kv ++ _) eqn:E; [by destruct (kv_encode kv)|]. rewrite <- E.
  rewrite kv_decode_encode by done. bind_ok. rewrite IH; [done|]. unfold encode_all. lia.
Qed.

(** A data block decodes to exactly the entries it was encoded from, in
    order, for every list of entries whose lengths and sequence numbers fit
    their fields. *)
Theorem block_round_trip l : Forall kv_wf l -> block_decode (block_encode l) = Ok l.
Proof. intros H. by apply block_decode_loop_encode. Qed.

(** Decoding arbitrary bytes as a block terminates with a value or an
    error: the loop never runs out of the fuel its input gives it, since each
    entry consumes input. *)
Theorem block_decode_total bytes : block_decode bytes <> Panic.
Proof.
  unfold block_decode. generalize (Nat.le_refl (length bytes)).
  generalize (length bytes) at 2 3 as fuel. intros fuel. revert bytes.
  induction fuel as [|n IH]; intros [|b bytes] Hf; cbn [length] in Hf; try done; [lia|].
  cbn [block_decode_loop]. destruct (kv_decode (b :: bytes)) as [[kv rest]|?|] eqn:E; [|done|].
  - pose proof (kv_decode_shorter _ _ _ E) as Hs. cbn [length] in Hs. bind_ok.
    specialize (IH rest ltac:(lia)). by destruct (block_decode_loop n rest).
  - clear -E. exfalso. revert E. generalize (b :: bytes) as l. intros l.
    unfold kv_decode, get_bytes, get_u64, get_u8, get_u32, take_n.
    repeat (case_match; cbn; try done).
Qed.

(** ** The memtable journal's codec ([KeyValueCodec] of [memstore/journal.rs]) *)

Definition KeyValueCodec_decode (bytes : list byte) : res JournalError KeyValue :=
  map_err (fun e => JDecode (OfDecode e)) (map_ok fst (kv_decode bytes)).

#[global] Instance KeyValueCodec : Codec KeyValue :=
  {| codec_encode := kv_encode; codec_decode := KeyValueCodec_decode |}.

#[global] Instance KeyValueCodec_ok : CodecOk KeyValue.
Proof.
  refine {| codec_wf kv := kv_wf kv /\ fits_u32 (kv_encode kv) |}.
  - by intros r [].
  - intros r [H _]. cbn. unfold KeyValueCodec_decode.
    pose proof (kv_decode_encode r [] H) as E. rewrite app_nil_r in E. by rewrite E.
Defined.
