(* ===== verification/Journaled.v ===== *)
(** * The durable memtable ([crates/lsm/src/memstore/journal.rs])

    [Journaled] logs every write to the journal before applying it to the
    wrapped [MemStore], replays the journal on open and truncates it when the
    memtable is cleared. *)

From Stdlib Require Import Strings.Byte ZArith Lia.
From stdpp Require Import prelude list strings.
From S2P Require Import Prelude Codec Journal LsmKey Memtable DataBlock.
Local Open Scope Z_scope.

Definition into_write (e : JournalError) : WriteError := WInternal (journal_message e).

Record Journaled (M : Type) : Type := MkJournaled { inner : M; journal : Journal }.
Arguments MkJournaled {M} inner journal.
Arguments inner {M} _.
Arguments journal {M} _.

Section journaled.
Context {Crc : Crc32} {M : Type} `{!MemStore M}.

(** The loop of [open]: [record?], then [inner.put(key, &value)?]. *)
Fixpoint replay_into (records : list (res JournalError KeyValue)) (m : M) : res WriteError M :=
  match records with
  | [] => Ok m
  | r :: rest =>
      kv ← map_err into_write r;
      match ms_put (key kv) (value kv) m with
      | (m', Ok _) => replay_into rest m'
      | (_, Err e) => Err e
      | (_, Panic) => Panic
      end
  end.

(** [Journaled::open] on the journal file's bytes. *)
Definition jopen (disk : option (list byte)) (m : M) : res WriteError (Journaled M) :=
  j ← map_err into_write (with_codec disk);
  m' ← replay_into (replay_all j) m;
  Ok (MkJournaled m' j).

(** [put]: log durably, then apply. *)
Definition jput (env : io_env) (k : InternalKey) (v : list byte) (st : Journaled M)
  : Journaled M * res WriteError unit :=
  match append env (journal st) (KV k v) with
  | (j, Ok _) => let '(m, r) := ms_put k v (inner st) in (MkJournaled m j, r)
  | (j, Err e) => (MkJournaled (inner st) j, Err (into_write e))
  | (j, Panic) => (MkJournaled (inner st) j, Panic)
  end.

Definition jclear_io (o : trunc_step) (st : Journaled M) : Journaled M * res WriteError unit :=
  match truncate_io o (journal st) with
  | (j, Ok _) => let '(m, r) := ms_clear (inner st) in (MkJournaled m j, r)
  | (j, Err e) => (MkJournaled (inner st) j, Err (into_write e))
  | (j, Panic) => (MkJournaled (inner st) j, Panic)
  end.

(** Where the truncation is not cut off. *)
Definition jclear (st : Journaled M) : Journaled M * res WriteError unit := jclear_io TruncDone st.

(** Reads go to the wrapped store. *)
Definition jget_at (k : list byte) (s : Z) (st : Journaled M) := ms_get_at k s (inner st).
Definition jscan_at (lo hi : bound (list byte)) (s : Z) (st : Journaled M) :=
  ms_scan_at lo hi s (inner st).
Definition jsize (st : Journaled M) : Z := ms_size (inner st).

(** The bytes of the journal file. *)
Definition jdisk (st : Journaled M) : list byte := f_bytes (jfile (journal st)).

Lemma replay_into_app l1 l2 m :
  replay_into (l1 ++ l2) m = (m' ← replay_into l1 m; replay_into l2 m').
Proof.
  revert m. induction l1 as [|r l1 IH]; intros m; [done|]. cbn [app replay_into].
  destruct (map_err into_write r) as [kv|e|]; [|done|done]. rewrite !bind_Ok.
  destruct (ms_put _ _ _) as [m' [u|e|]]; [apply IH | done | done].
Qed.

Context {CrcOk : Crc32Ok}.

(** The journal holds exactly the writes that built the memtable from [m0]. *)
Definition consistent (m0 : M) (st : Journaled M) : Prop :=
  exists rs, holds (journal st) rs /\ replay_into (Ok <$> rs) m0 = Ok (inner st).

Lemma consistent_put m0 st k v st' :
  consistent m0 st -> codec_wf (KV k v) -> jput io_fine k v st = (st', Ok tt) -> consistent m0 st'.
Proof.
  intros (rs & Hj & Hr) Hwf. unfold jput.
  destruct (holds_append _ _ _ Hj Hwf) as (j' & -> & Hj').
  destruct (ms_put k v (inner st)) as [m r] eqn:Em. intros [= <- ->].
  exists (rs ++ [KV k v]). split; [exact Hj'|].
  rewrite fmap_app, replay_into_app, Hr. bind_ok. cbn. by rewrite Em.
Qed.

Lemma consistent_open m0 st :
  consistent m0 st -> jopen (Some (jdisk st)) m0 = Ok st.
Proof.
  intros (rs & Hj & Hr). unfold jopen, jdisk. destruct Hj as [Hf Hwf].
  assert (Hj : holds (journal st) rs) by done.
  rewrite (holds_reopen _ _ Hj). cbn [map_err]. bind_ok. rewrite (holds_replay _ _ Hj), Hr. bind_ok.
  by destruct st.
Qed.

Lemma consistent_fresh m0 : exists st, jopen None m0 = Ok st /\ inner st = m0 /\ consistent m0 st.
Proof.
  destruct (holds_fresh (R := KeyValue)) as (j & E & Hj).
  exists (MkJournaled m0 j). unfold jopen. rewrite E. cbn [map_err]. bind_ok.
  rewrite (holds_replay _ _ Hj). cbn. repeat split. by exists [].
Qed.

Lemma consistent_clear m0 st st' :
  consistent m0 st -> ms_clear (inner st) = (m0, Ok tt) -> jclear st = (st', Ok tt) ->
  consistent m0 st' /\ inner st' = m0.
Proof.
  intros (rs & Hj & Hr) Hc. unfold jclear, jclear_io. cbn [truncate_io]. rewrite Hc. intros [= <-]. split; [|done].
  exists []. split; [|done]. cbn [journal]. eapply (holds_truncate _ rs []).
  rewrite app_nil_r. by rewrite (proj1 Hj).
Qed.

(** A crash that tears the append of [kv] recovers the memtable before it. *)
Lemma consistent_torn_open m0 st kv n :
  consistent m0 st -> codec_wf kv -> (n < length (write_frame (codec_encode kv)))%nat ->
  exists st', jopen (Some (jdisk st ++ take n (write_frame (codec_encode kv)))) m0 = Ok st'
    /\ inner st' = inner st.
Proof.
  intros (rs & [Hf Hwf] & Hr) Hkv Hn. unfold jopen, jdisk. rewrite Hf. cbn [f_bytes].
  unfold journal_bytes at 1. rewrite <- app_assoc, with_codec_existing.
  cbn [map_err]. bind_ok.
  rewrite (app_assoc header_bytes).
  pose proof (replay_log_with_tail rs (take n (write_frame (codec_encode kv)))) as E.
  unfold journal_bytes in E. rewrite E; [|done|].
  - rewrite Hr. bind_ok. by eexists.
  - apply read_torn_frame; [by apply codec_fits | done].
Qed.

(** A write refused with [StoreFull] has already been logged, and the
    log it leaves no longer opens: recovery of the same memtable replays the
    refused record, is refused again, and fails with [StoreFull]. *)
Theorem store_full_write_blocks_reopen m0 st k v st' :
  consistent m0 st -> codec_wf (KV k v) ->
  jput io_fine k v st = (st', Err StoreFull) ->
  jopen (Some (jdisk st')) m0 = Err StoreFull.
Proof.
  intros (rs & Hj & Hr) Hwf. unfold jput.
  destruct (holds_append _ _ _ Hj Hwf) as (j' & -> & Hj').
  destruct (ms_put k v (inner st)) as [m r] eqn:Em. intros [= <- ->].
  unfold jopen, jdisk. cbn [journal]. pose proof (proj1 Hj') as Hf. rewrite Hf. cbn [f_bytes].
  unfold journal_bytes. rewrite with_codec_existing. cbn [map_err]. bind_ok.
  assert (E : replay_all (MkJournal (File (header_bytes ++ frames (rs ++ [KV k v]))
              (length (header_bytes ++ frames (rs ++ [KV k v])))))
            = Ok <$> (rs ++ [KV k v])).
  { apply holds_replay. split; [done | apply Hj']. }
  rewrite E, fmap_app, replay_into_app, Hr. bind_ok. cbn. by rewrite Em.
Qed.
End journaled.

#[global] Instance journaled_store `{!Crc32} {M} `{!MemStore M} : MemStore (Journaled M) := {|
  ms_put := jput io_fine; ms_get_at := jget_at; ms_scan_at := jscan_at;
  ms_size := jsize; ms_clear := jclear |}.

(** ** Runs of the durable [BTreeMemtable]

    Opening an empty directory, acknowledged puts, clears, and restarts; the
    memtable is built with capacity [cap] each time. *)

Section runs.
Context {Crc : Crc32} {CrcOk : Crc32Ok} (cap : Z).

Let fresh := BTreeMemtable.with_capacity cap.

Inductive jrun : Journaled BTreeMemtable.t -> Prop :=
| run_open st : jopen None fresh = Ok st -> jrun st
| run_put st k v st' :
    jrun st -> codec_wf (KV k v) -> jput io_fine k v st = (st', Ok tt) -> jrun st'
| run_clear st st' : jrun st -> jclear st = (st', Ok tt) -> jrun st'
| run_restart st st' : jrun st -> jopen (Some (jdisk st)) fresh = Ok st' -> jrun st'.

Lemma jrun_consistent st :
  jrun st -> consistent fresh st /\ BTreeMemtable.capacity (inner st) = cap.
Proof.
  induction 1 as [st Ho | st k v st' _ [IH Hcap] Hwf Hp | st st' _ [IH Hcap] Hc
                 | st st' _ [IH Hcap] Ho].
  - destruct (consistent_fresh fresh) as (st' & E & Hi & Hc). rewrite E in Ho.
    apply Ok_inj in Ho as <-. rewrite Hi. done.
  - split; [by eapply consistent_put|]. unfold jput in Hp.
    destruct (append io_fine (journal st) (KV k v)) as [j [u|e|]]; try done.
    cbn in Hp. unfold BTreeMemtable.put in Hp.
    destruct (negb _ && _); [done|]. by injection Hp as <-.
  - destruct (consistent_clear fresh st st') as [H1 H2]; [done| |done|].
    + cbn. unfold BTreeMemtable.clear. by rewrite Hcap.
    + split; [done|]. by rewrite H2.
  - rewrite (consistent_open _ _ IH) in Ho. by apply Ok_inj in Ho as <-.
Qed.

(** Whatever acknowledged puts, clears and restarts happened, reopening
    the journal file rebuilds exactly the state before the restart: no
    acknowledged write is lost and none appears that was not made. *)
Theorem journaled_recovery_exact st :
  jrun st -> jopen (Some (jdisk st)) fresh = Ok st.
Proof. intros H. apply consistent_open. by apply jrun_consistent. Qed.

(** A crash anywhere inside the append of a write that was not yet
    acknowledged still opens, with the memtable of the acknowledged writes. *)
Theorem journaled_torn_write_recovers st kv n :
  jrun st -> codec_wf kv -> (n < length (write_frame (codec_encode kv)))%nat ->
  exists st', jopen (Some (jdisk st ++ take n (write_frame (codec_encode kv)))) fresh = Ok st'
    /\ inner st' = inner st.
Proof. intros H. apply consistent_torn_open. by apply jrun_consistent. Qed.
End runs.

(** ** Witnesses *)

Import Ieee.
Abbreviation with_capacity := BTreeMemtable.with_capacity.

Definition kv_small : KeyValue := KV (IKey [x61] 1 Put) [x62; x63].
Definition kv_big : KeyValue := KV (IKey [x61] 2 Put) (replicate 30 x64).

Lemma kv_small_wf : codec_wf kv_small.
Proof. repeat split; vm_compute; discriminate. Qed.
Lemma kv_big_wf : codec_wf kv_big.
Proof. repeat split; vm_compute; discriminate. Qed.

Definition st_empty : Journaled BTreeMemtable.t :=
  MkJournaled (with_capacity 16) (MkJournal (File header_bytes 6)).
Definition st_one : Journaled BTreeMemtable.t := (jput io_fine (key kv_small) (value kv_small) st_empty).1.
Definition st_refused : Journaled BTreeMemtable.t := (jput io_fine (key kv_big) (value kv_big) st_one).1.

Lemma st_one_run : jrun 16 st_one.
Proof.
  apply (run_put 16 st_empty (key kv_small) (value kv_small)).
  - apply run_open. vm_compute. reflexivity.
  - exact kv_small_wf.
  - vm_compute. reflexivity.
Qed.

