(* ===== verification/Iterator.v ===== *)
(** * Read-path iterators ([crates/lsm/src/iterator.rs])

    Rust iterators as step functions over an explicit state and a shared
    context [C] (the page cache that lazily faulting sources share): [streams]
    says which list an iterator yields whatever coherent context it runs in.
    [MergeIterator] is the k-way merge, [VersionResolver] collapses versions. *)

From Stdlib Require Import Strings.Byte ZArith Lia Sorted.
From stdpp Require Import prelude list strings.
From S2P Require Import Prelude Codec LsmKey Memtable.
Local Open Scope Z_scope.

(** ** Iterators *)

Definition step_fn (I A C : Type) : Type := I -> C -> option A * I * C.

Section streams.
Context {I A C : Type} (next : step_fn I A C) (inv : C -> Prop).

(** In every context satisfying [inv], [i] yields the items of [l] and then
    [None], and keeps [inv]. *)
Fixpoint streams (i : I) (l : list A) : Prop :=
  match l with
  | [] => forall c, inv c -> exists i' c', next i c = (None, i', c') /\ inv c'
  | a :: l' => forall c, inv c ->
      exists i' c', next i c = (Some a, i', c') /\ inv c' /\ streams i' l'
  end.

(** Pulling until [None], at most [fuel] items. *)
Fixpoint drain_iter (fuel : nat) (i : I) (c : C) : list A * C :=
  match fuel with
  | O => ([], c)
  | S n => match next i c with
           | (None, _, c') => ([], c')
           | (Some a, i', c') => let '(l, c2) := drain_iter n i' c' in (a :: l, c2)
           end
  end.

Lemma streams_drain l i c fuel :
  streams i l -> inv c -> (length l < fuel)%nat ->
  exists c', drain_iter fuel i c = (l, c') /\ inv c'.
Proof.
  revert i c fuel. induction l as [|a l IH]; intros i c fuel H Hc Hf;
    (destruct fuel as [|n]; cbn in Hf; [lia|]); cbn in *; destruct (H c Hc) as (i' & c' & E & Hr).
  - rewrite E. eauto.
  - destruct Hr as [Hc' Hs]. rewrite E.
    destruct (IH i' c' n Hs Hc' ltac:(lia)) as (c2 & -> & H2). eauto.
Qed.
End streams.

(** [vec::IntoIter] and [iter::once]: the remaining items are the state. *)
Definition list_next {A C : Type} : step_fn (list A) A C := fun l c =>
  match l with [] => (None, [], c) | a :: l' => (Some a, l', c) end.

Lemma list_streams {A C} (inv : C -> Prop) (l : list A) : streams list_next inv l l.
Proof. induction l as [|a l IH]; cbn; intros c Hc; eauto. Qed.

(** ** [MergeIterator] *)

Module Merge.
Section merge.
Context {I A C : Type} (next : step_fn I A C) (cmp : A -> A -> comparison).

Record Source : Type := MkSource { head : option A; iter : I }.

(** [MergeIterator::new]: pull the head of every source, in order. *)
Fixpoint new (sources : list I) (c : C) : list Source * C :=
  match sources with
  | [] => ([], c)
  | i :: rest =>
      let '(h, i', c1) := next i c in
      let '(ss, c2) := new rest c1 in
      (MkSource h i' :: ss, c2)
  end.

(** The loop of [next]: the index and head of the smallest item so far; a
    later source replaces it only when strictly smaller. *)
Fixpoint min_scan (i : nat) (min : option (nat * A)) (heads : list (option A))
  : option (nat * A) :=
  match heads with
  | [] => min
  | None :: hs => min_scan (S i) min hs
  | Some a :: hs =>
      match min with
      | None => min_scan (S i) (Some (i, a)) hs
      | Some (j, b) =>
          min_scan (S i) (match cmp a b with Lt => Some (i, a) | _ => Some (j, b) end) hs
      end
  end.

Definition min_index (heads : list (option A)) : option (nat * A) := min_scan 0 None heads.

Definition merge_next : step_fn (list Source) A C := fun sources c =>
  match min_index (head <$> sources) with
  | None => (None, sources, c)
  | Some (idx, a) =>
      match sources !! idx with
      | None => (None, sources, c)
      | Some s =>
          let '(h, i', c') := next (iter s) c in
          (Some a, <[idx := MkSource h i']> sources, c')
      end
  end.

(** The reference: repeatedly take the first of the smallest heads. *)
Fixpoint kmerge (fuel : nat) (ls : list (list A)) : list A :=
  match fuel with
  | O => []
  | S n => match min_index (List.hd_error <$> ls) with
           | None => []
           | Some (i, a) => a :: kmerge n (<[i := List.tl (default [] (ls !! i))]> ls)
           end
  end.

Definition total (ls : list (list A)) : nat := length (concat ls).

Context `{!TotalCmp cmp}.

(** [m] is the first of the smallest heads of [hs]. *)
Definition best (hs : list (option A)) (m : option (nat * A)) : Prop :=
  match m with
  | None => forall j b, hs !! j <> Some (Some b)
  | Some (k, a) =>
      hs !! k = Some (Some a)
      /\ (forall j b, hs !! j = Some (Some b) -> cmp_le cmp a b)
      /\ (forall j b, (j < k)%nat -> hs !! j = Some (Some b) -> cmp a b = Lt)
  end.

Lemma best_keep hs m h :
  best hs m -> (forall b, h = Some b -> exists k a, m = Some (k, a) /\ cmp_le cmp a b) ->
  best (hs ++ [h]) m.
Proof.
  destruct m as [[k a]|]; cbn.
  - intros (Hk & Hle & Hlt) Hh. repeat split.
    + by apply lookup_app_l_Some.
    + intros j b Hj. apply lookup_snoc_Some in Hj as [[_ Hj]|[-> Eh]]; [by eapply Hle|].
      destruct (Hh b Eh) as (? & ? & [= <- <-] & ?). done.
    + intros j b Hjk Hj. apply lookup_snoc_Some in Hj as [[_ Hj]|[-> Eh]]; [by eapply Hlt|].
      apply lookup_lt_Some in Hk. lia.
  - intros Hn Hh j b Hj. apply lookup_snoc_Some in Hj as [[_ Hj]|[-> Eh]]; [by eapply Hn|].
    by destruct (Hh b Eh) as (? & ? & ? & ?).
Qed.

Lemma best_replace hs m a :
  best hs m -> (forall k b, m = Some (k, b) -> cmp a b = Lt) ->
  best (hs ++ [Some a]) (Some (length hs, a)).
Proof.
  intros Hb Hm. assert (Hlt : forall j b, hs !! j = Some (Some b) -> cmp a b = Lt).
  { intros j b Hj. destruct m as [[k x]|]; cbn in Hb; [|by apply Hb in Hj].
    destruct Hb as (_ & Hle & _). eapply cmp_lt_le_trans; [done | by eapply Hm | by eapply Hle]. }
  cbn. repeat split.
  - by rewrite lookup_app_r, Nat.sub_diag by lia.
  - intros j b Hj. apply lookup_snoc_Some in Hj as [[_ Hj]|[_ [= <-]]].
    + unfold cmp_le. by rewrite (Hlt j b Hj).
    + apply (cmp_le_preorder cmp).
  - intros j b Hjk Hj. apply lookup_snoc_Some in Hj as [[_ Hj]|[-> _]]; [by eapply Hlt | lia].
Qed.

Lemma min_scan_best hs pre m :
  best pre m -> best (pre ++ hs) (min_scan (length pre) m hs).
Proof.
  revert pre m. induction hs as [|h hs IH]; intros pre m Hb; cbn [min_scan].
  - by rewrite app_nil_r.
  - rewrite (cons_middle h pre hs), app_assoc.
    replace (S (length pre)) with (length (pre ++ [h])) by (rewrite length_app; cbn; lia).
    destruct h as [a|]; [destruct m as [[j b]|]|].
    + destruct (cmp a b) eqn:E; apply IH.
      2: { apply (best_replace _ _ _ Hb). intros k x Hm. by simplify_eq. }
      all: apply best_keep; [done|]; intros x Hx; simplify_eq; do 2 eexists; split; [done|];
        unfold cmp_le; by rewrite (cmp_sym cmp x b), E.
    + apply IH. by apply (best_replace _ _ _ Hb).
    + apply IH. by apply best_keep.
Qed.

Lemma min_index_best hs : best hs (min_index hs).
Proof. apply (min_scan_best hs [] None). intros j b. by rewrite lookup_nil. Qed.

(** ** The merged stream *)

Context (inv : C -> Prop).

(** A source whose head has been pulled, and the list it still yields. *)
Definition src_streams (s : Source) (l : list A) : Prop :=
  match head s with
  | None => l = []
  | Some a => exists l', l = a :: l' /\ streams next inv (iter s) l'
  end.

Lemma src_head s l : src_streams s l -> List.hd_error l = head s.
Proof. unfold src_streams. destruct (head s); [by intros (? & -> & _) | by intros ->]. Qed.

Lemma heads_eq ss ls : Forall2 src_streams ss ls -> List.hd_error <$> ls = head <$> ss.
Proof. induction 1 as [|s l ss ls H _ IH]; [done|]. cbn. by rewrite IH, (src_head _ _ H). Qed.

Lemma new_streams its ls c :
  Forall2 (streams next inv) its ls -> inv c ->
  exists ss c', new its c = (ss, c') /\ inv c' /\ Forall2 src_streams ss ls.
Proof.
  intros H. revert c. induction H as [|i l its ls Hi _ IH]; intros c Hc; cbn [new]; [eauto|].
  assert (Hn : exists h i' c1, next i c = (h, i', c1) /\ inv c1 /\ src_streams (MkSource h i') l).
  { destruct l as [|a l]; cbn in Hi; destruct (Hi c Hc) as (i' & c1 & E & Hr).
    - exists None, i', c1. done.
    - destruct Hr as [Hr Hs]. exists (Some a), i', c1. repeat split; [done..|]. by exists l. }
  destruct Hn as (h & i' & c1 & -> & Hc1 & Hs).
  destruct (IH c1 Hc1) as (ss & c2 & -> & Hc2 & Hss). eauto 10.
Qed.

Lemma concat_pull (ls : list (list A)) i a l :
  ls !! i = Some (a :: l) -> concat ls ≡ₚ a :: concat (<[i := l]> ls).
Proof.
  intros H. rewrite <- (take_drop_middle ls i _ H) at 1.
  rewrite insert_take_drop by (by eapply lookup_lt_Some).
  rewrite !concat_app. cbn. by rewrite <- Permutation_middle.
Qed.

(** The merge streams exactly the reference merge of what its sources do. *)
Lemma merge_streams fuel ss ls :
  Forall2 src_streams ss ls -> (total ls < fuel)%nat ->
  streams merge_next inv ss (kmerge fuel ls).
Proof.
  revert ss ls. induction fuel as [|n IH]; intros ss ls H Hf; [lia|]. cbn [kmerge].
  pose proof (min_index_best (List.hd_error <$> ls)) as Hb.
  rewrite (heads_eq _ _ H) in *.
  destruct (min_index (head <$> ss)) as [[i a]|] eqn:E; cbn [streams]; intros c Hc; unfold merge_next; rewrite E.
  2: { eauto. }
  destruct Hb as (Hi & _ & _). rewrite list_lookup_fmap in Hi.
  destruct (ss !! i) as [s|] eqn:Es; cbn in Hi; [|done]. injection Hi as Hh.
  destruct (Forall2_lookup_l _ _ _ _ _ H Es) as (l & El & Hl). unfold src_streams in Hl.
  rewrite Hh in Hl. destruct Hl as (l' & -> & Hl').
  assert (Hn : exists h i' c1, next (iter s) c = (h, i', c1) /\ inv c1 /\ src_streams (MkSource h i') l').
  { destruct l' as [|a' l']; cbn in Hl'; destruct (Hl' c Hc) as (i' & c1 & E1 & Hr).
    - exists None, i', c1. done.
    - destruct Hr as [Hr Hs]. exists (Some a'), i', c1. repeat split; [done..|]. by exists l'. }
  destruct Hn as (h & i' & c1 & -> & Hc1 & Hs). do 2 eexists. split; [done|]. split; [done|].
  rewrite El. cbn [from_option id List.tl]. apply IH; [by apply Forall2_insert|].
  pose proof (concat_pull _ _ _ _ El) as Hp. apply Permutation_length in Hp.
  unfold total in *. rewrite length_cons in Hp. lia.
Qed.

Lemma kmerge_Permutation fuel ls : (total ls <= fuel)%nat -> kmerge fuel ls ≡ₚ concat ls.
Proof.
  revert ls. induction fuel as [|n IH]; intros ls Hf; cbn [kmerge].
  - unfold total in Hf. by destruct (concat ls); [|cbn in Hf; lia].
  - pose proof (min_index_best (List.hd_error <$> ls)) as Hb.
    destruct (min_index _) as [[i a]|].
    + destruct Hb as (Hi & _ & _). apply list_lookup_fmap_Some in Hi as (l & Hl & El).
      destruct l as [|a' l']; [done|]. injection Hl as Ha; subst a'. rewrite El. cbn [from_option id List.tl].
      pose proof (concat_pull _ _ _ _ El) as Hp. rewrite Hp. constructor. apply IH.
      apply Permutation_length in Hp. unfold total in *. rewrite length_cons in Hp. lia.
    + clear -Hb. induction ls as [|[|a l] ls IH]; [done| |].
      * cbn. apply IH. intros j b. apply (Hb (S j)).
      * by destruct (Hb 0%nat a).
Qed.

(** Sorted sources merge into a sorted stream. *)
Lemma kmerge_sorted fuel ls :
  (total ls <= fuel)%nat -> Forall (StronglySorted (cmp_le cmp)) ls ->
  StronglySorted (cmp_le cmp) (kmerge fuel ls).
Proof.
  revert ls. induction fuel as [|n IH]; intros ls Hf Hs; cbn [kmerge]; [constructor|].
  pose proof (min_index_best (List.hd_error <$> ls)) as Hb.
  destruct (min_index _) as [[i a]|]; [|constructor].
  destruct Hb as (Hi & Hle & _). apply list_lookup_fmap_Some in Hi as (l & Hl & El).
  destruct l as [|a' l']; [done|]. injection Hl as Ha; subst a'. rewrite El. cbn [from_option id List.tl].
  pose proof (concat_pull _ _ _ _ El) as Hp.
  assert (Ht : (total (<[i:=l']> ls) <= n)%nat).
  { apply Permutation_length in Hp. unfold total in *. rewrite length_cons in Hp. lia. }
  assert (Hs' : Forall (StronglySorted (cmp_le cmp)) (<[i:=l']> ls)).
  { apply Forall_insert; [done|]. apply (Forall_lookup_1 _ _ _ _ Hs) in El. by inversion El. }
  constructor; [by apply IH|]. rewrite (kmerge_Permutation n) by done.
  apply Forall_forall. intros x Hx.
  assert (Hx' : x ∈ concat ls) by (rewrite Hp; by right).
  apply list_elem_of_In, in_concat in Hx' as (l & Hll & Hxl).
  apply list_elem_of_In in Hxl. apply list_elem_of_In, list_elem_of_lookup in Hll as (j & Hj).
  destruct l as [|h t]; [by apply not_elem_of_nil in Hxl|].
  assert (Hah : cmp_le cmp a h) by (apply (Hle j); by rewrite list_lookup_fmap, Hj).
  apply elem_of_cons in Hxl as [->|Hxt]; [done|].
  apply (Forall_lookup_1 _ _ _ _ Hs) in Hj. inversion Hj as [|? ? _ Hall]; subst.
  rewrite Forall_forall in Hall. transitivity h; [done | by apply Hall].
Qed.
End merge.
End Merge.

(** The order [scan_at] merges with: errors first, records by key. *)
Abbreviation item := (res ReadError KeyValue).

Definition item_cmp (a b : item) : comparison :=
  match a, b with
  | Ok x, Ok y => ikey_cmp (key x) (key y)
  | Ok _, _ => Gt
  | _, Ok _ => Lt
  | _, _ => Eq
  end.

#[global] Instance item_cmp_total : TotalCmp item_cmp.
Proof.
  split.
  - intros [x| |]; cbn; [apply (cmp_refl ikey_cmp) | done | done].
  - intros [x| |] [y| |]; cbn; try done. apply (cmp_sym ikey_cmp).
  - intros c [x| |] [y| |] [z| |]; cbn; try congruence. apply (cmp_trans ikey_cmp).
Qed.

(** ** [VersionResolver] *)

Module Resolver.
Section resolver.
Context {J C : Type} (inner_next : step_fn J item C).

Record t : Type := Mk { inner : J; last_key : option (list byte) }.

Definition new (i : J) : t := Mk i None.

(** The loop of [next]; [fuel] bounds the records skipped in one call. *)
Fixpoint resolver_next (fuel : nat) (r : t) (c : C) : option (res ReadError KVPair) * t * C :=
  match fuel with
  | O => (None, r, c)
  | S n =>
      match inner_next (inner r) c with
      | (None, j, c') => (None, Mk j (last_key r), c')
      | (Some (Err e), j, c') => (Some (Err e), Mk j (last_key r), c')
      | (Some Panic, j, c') => (Some Panic, Mk j (last_key r), c')
      | (Some (Ok kv), j, c') =>
          let uk := user_key (key kv) in
          if bool_decide (last_key r = Some uk) then resolver_next n (Mk j (last_key r)) c'
          else match op (key kv) with
               | Put => (Some (Ok (uk, value kv)), Mk j (Some uk), c')
               | Delete => resolver_next n (Mk j (Some uk)) c'
               end
      end
  end.

(** What the resolver yields on a whole stream. *)
Fixpoint resolve_items (last : option (list byte)) (l : list item) : list (res ReadError KVPair) :=
  match l with
  | [] => []
  | Err e :: l' => Err e :: resolve_items last l'
  | Panic :: l' => Panic :: resolve_items last l'
  | Ok kv :: l' =>
      let uk := user_key (key kv) in
      if bool_decide (last = Some uk) then resolve_items last l'
      else match op (key kv) with
           | Put => Ok (uk, value kv) :: resolve_items (Some uk) l'
           | Delete => resolve_items (Some uk) l'
           end
  end.

Context (inv : C -> Prop).

(** One call: it skips what the resolution skips and stops at the first item
    that resolution yields, having consumed a prefix of the stream. *)
Lemma resolver_step l j last fuel c :
  streams inner_next inv j l -> inv c -> (length l < fuel)%nat ->
  match resolve_items last l with
  | [] => exists r' c', resolver_next fuel (Mk j last) c = (None, r', c') /\ inv c'
  | a :: rest => exists j' last' c' l',
      resolver_next fuel (Mk j last) c = (Some a, Mk j' last', c') /\ inv c'
      /\ streams inner_next inv j' l' /\ resolve_items last' l' = rest /\ (length l' <= length l)%nat
  end.
Proof.
  revert j last fuel c. induction l as [|x l IH]; intros j last fuel c Hs Hc Hf;
    (destruct fuel as [|n]; cbn [length] in Hf; [lia|]); cbn [streams] in Hs;
    cbn [resolver_next inner last_key resolve_items].
  - destruct (Hs c Hc) as (i' & c' & -> & Hc'). eauto.
  - destruct (Hs c Hc) as (i' & c' & -> & Hc' & Hs').
    assert (IHl : forall last', match resolve_items last' l with
      | [] => exists r' c2, resolver_next n (Mk i' last') c' = (None, r', c2) /\ inv c2
      | a :: rest => exists j' last2 c2 l',
          resolver_next n (Mk i' last') c' = (Some a, Mk j' last2, c2) /\ inv c2
          /\ streams inner_next inv j' l' /\ resolve_items last2 l' = rest
          /\ (length l' <= S (length l))%nat end).
    { intros last'. specialize (IH i' last' n c' Hs' Hc' ltac:(lia)).
      destruct (resolve_items last' l); [done|].
      destruct IH as (j' & last2 & c2 & l' & H1 & H2 & H3 & H4 & H5).
      exists j', last2, c2, l'. repeat split; [done..|lia]. }
    destruct x as [kv|e|]; cbn [length].
    + case_bool_decide; [apply IHl|]. destruct (op (key kv)); [|apply IHl].
      exists i', (Some (user_key (key kv))), c', l. repeat split; [done..|lia].
    + exists i', last, c', l. repeat split; [done..|lia].
    + exists i', last, c', l. repeat split; [done..|lia].
Qed.

Lemma resolver_streams l j last fuel :
  streams inner_next inv j l -> (length l < fuel)%nat ->
  streams (resolver_next fuel) inv (Mk j last) (resolve_items last l).
Proof.
  remember (resolve_items last l) as out eqn:E. revert l j last E.
  induction out as [|a out IH]; intros l j last E Hs Hf; cbn; intros c Hc;
    pose proof (resolver_step l j last fuel c Hs Hc Hf) as H; rewrite <- E in H; [done|].
  destruct H as (j' & last' & c' & l' & H1 & H2 & H3 & H4 & H5).
  do 2 eexists. split; [done|]. split; [done|]. apply (IH l'); [done..|lia].
Qed.
End resolver.

(** ** Resolution on sorted records *)

Definition kv_le (a b : KeyValue) : Prop := cmp_le ikey_cmp (key a) (key b).

(** The newest version of [k] in a sorted list is its first. *)
Definition first_version (k : list byte) (l : list KeyValue) : option KeyValue :=
  List.find (fun kv => bool_decide (user_key (key kv) = k)) l.

Fixpoint resolve_kvs (last : option (list byte)) (l : list KeyValue) : list KVPair :=
  match l with
  | [] => []
  | kv :: l' =>
      let uk := user_key (key kv) in
      if bool_decide (last = Some uk) then resolve_kvs last l'
      else match op (key kv) with
           | Put => (uk, value kv) :: resolve_kvs (Some uk) l'
           | Delete => resolve_kvs (Some uk) l'
           end
  end.

Lemma resolve_items_ok last l : resolve_items last (Ok <$> l) = Ok <$> resolve_kvs last l.
Proof.
  revert last. induction l as [|kv l IH]; intros last; [done|]. cbn.
  case_bool_decide; [apply IH|]. destruct (op (key kv)); cbn; [f_equal|]; apply IH.
Qed.

Lemma kv_le_uk a b : kv_le a b -> bytes_le (user_key (key a)) (user_key (key b)).
Proof.
  unfold kv_le, cmp_le, ikey_cmp. intros H C. by rewrite C in H.
Qed.

(** The key last emitted or dropped is not above what is still to come. *)
Definition after (last : option (list byte)) (l : list KeyValue) : Prop :=
  forall k0, last = Some k0 -> Forall (fun kv => bytes_le k0 (user_key (key kv))) l.

Lemma after_cons kv l :
  Forall (kv_le kv) l -> after (Some (user_key (key kv))) l.
Proof. intros H k0 [= <-]. eapply Forall_impl; [exact H|]. apply kv_le_uk. Qed.

Lemma resolve_kvs_spec last l k v :
  StronglySorted kv_le l -> after last l ->
  (k, v) ∈ resolve_kvs last l <->
  last <> Some k /\ exists kv, first_version k l = Some kv /\ op (key kv) = Put /\ value kv = v.
Proof.
  intros Hs. revert last. induction Hs as [|kv l Hs IH Hall]; intros last Ha.
  { cbn. split; [by intros ?%not_elem_of_nil | by intros (_ & ? & ? & _)]. }
  assert (Ha' : after last l) by (intros k0 E; by apply Ha, Forall_inv_tail in E).
  cbn [resolve_kvs first_version List.find]. case_bool_decide as Hl.
  - rewrite (IH last Ha'). unfold first_version. case_bool_decide as Hk; [|done].
    rewrite Hk in Hl. split; intros [? _]; done.
  - assert (Hrest : forall k', user_key (key kv) <> k' ->
      (last <> Some k' /\ exists kv0, first_version k' l = Some kv0 /\ op (key kv0) = Put /\ value kv0 = v)
      <-> (Some (user_key (key kv)) <> Some k' /\
           exists kv0, first_version k' l = Some kv0 /\ op (key kv0) = Put /\ value kv0 = v)).
    { intros k' Hne. split; intros [Hl' (kv0 & F & Ho & Hv)]; (split; [|eauto]); [congruence|].
      intros E. unfold first_version in F. apply List.find_some in F as [Hin Hb].
      apply bool_decide_eq_true in Hb.
      pose proof (Ha _ E) as HF. apply Forall_inv in HF as H0.
      assert (H1 : bytes_le (user_key (key kv)) k').
      { rewrite <- Hb. apply kv_le_uk. rewrite Forall_forall in Hall. apply Hall.
        by apply list_elem_of_In. }
      apply Hne, bytes_le_antisym; done. }
    specialize (IH (Some (user_key (key kv))) (after_cons kv l Hall)).
    case_bool_decide as Hk.
    + subst k. destruct (op (key kv)) eqn:Ho.
      * rewrite elem_of_cons, IH. split.
        -- intros [[= ->]|[? _]]; [|done]. split; [done|]. by exists kv.
        -- intros [_ (kv0 & [= <-] & _ & <-)]. by left.
      * rewrite IH. split; [by intros [? _]|]. intros [_ (kv0 & [= <-] & C & _)]. congruence.
    + destruct (op (key kv)).
      * rewrite elem_of_cons, IH, <- (Hrest k Hk). split; [intros [[= ? _]|?]; done|by right].
      * by rewrite IH, <- (Hrest k Hk).
Qed.

Lemma resolve_kvs_after last l k v :
  StronglySorted kv_le l -> after last l -> (k, v) ∈ resolve_kvs last l ->
  forall k0, last = Some k0 -> bytes_cmp k0 k = Lt.
Proof.
  intros Hs Ha Hin k0 E. apply resolve_kvs_spec in Hin as [Hl (kv & F & _ & _)]; [|done..].
  apply List.find_some in F as [Hin Hb]. apply bool_decide_eq_true in Hb.
  pose proof (Ha _ E) as HF. rewrite Forall_forall in HF.
  apply list_elem_of_In in Hin. specialize (HF kv Hin). rewrite Hb in HF.
  unfold cmp_le in HF. destruct (bytes_cmp k0 k) eqn:C; [|done|done].
  apply bytes_cmp_eq in C. congruence.
Qed.

Lemma resolve_kvs_sorted last l :
  StronglySorted kv_le l ->
  StronglySorted (fun a b => bytes_cmp a.1 b.1 = Lt) (resolve_kvs last l).
Proof.
  intros Hs. revert last. induction Hs as [|kv l Hs IH Hall]; intros last; cbn; [constructor|].
  case_bool_decide; [apply IH|]. destruct (op (key kv)); [|apply IH].
  constructor; [apply IH|]. apply Forall_forall. intros [k v] Hin. cbn.
  by apply (resolve_kvs_after _ l k v Hs (after_cons kv l Hall) Hin).
Qed.
End Resolver.

(** ** Correctness of the read-path iterators *)

(** Draining a merge of iterators that each yield a sorted list, however
    they fault their blocks in through the shared context, yields a sorted
    permutation of all their items, and needs no more pulls than there are
    items. *)
Theorem merge_sorted_permutation {I A C} (next : step_fn I A C) (cmp : A -> A -> comparison)
    `{!TotalCmp cmp} (inv : C -> Prop) (its : list I) (ls : list (list A)) c fuel :
  Forall2 (streams next inv) its ls -> inv c ->
  Forall (StronglySorted (cmp_le cmp)) ls -> (Merge.total ls < fuel)%nat ->
  let '(ss, c1) := Merge.new next its c in
  let '(out, c2) := drain_iter (Merge.merge_next next cmp) fuel ss c1 in
  out ≡ₚ concat ls /\ StronglySorted (cmp_le cmp) out /\ inv c2.
Proof.
  intros H Hc Hs Hf. destruct (Merge.new_streams next inv its ls c H Hc) as (ss & c1 & -> & Hc1 & Hss).
  pose proof (Merge.kmerge_Permutation cmp (S (Merge.total ls)) ls ltac:(lia)) as Hp.
  destruct (streams_drain _ inv _ ss c1 fuel
    (Merge.merge_streams next cmp inv (S (Merge.total ls)) ss ls Hss ltac:(lia)) Hc1) as (c2 & -> & Hc2).
  { rewrite Hp. exact Hf. }
  split; [exact Hp|]. split; [|exact Hc2]. apply Merge.kmerge_sorted; [done|lia|done].
Qed.

(** Each pull of a merge returns a smallest head, and among equal heads
    that of the earliest source. *)
Theorem merge_next_first_smallest {I A C} (next : step_fn I A C) (cmp : A -> A -> comparison)
    `{!TotalCmp cmp} (ss : list (Merge.Source (I := I))) c a ss' c' :
  Merge.merge_next next cmp ss c = (Some a, ss', c') ->
  exists i s, ss !! i = Some s /\ Merge.head s = Some a
    /\ (forall j s' b, ss !! j = Some s' -> Merge.head s' = Some b -> cmp_le cmp a b)
    /\ (forall j s' b, (j < i)%nat -> ss !! j = Some s' -> Merge.head s' = Some b -> cmp a b = Lt).
Proof.
  unfold Merge.merge_next. pose proof (Merge.min_index_best cmp (Merge.head <$> ss)) as Hb.
  destruct (Merge.min_index cmp _) as [[i x]|]; [|done]. destruct Hb as (Hi & Hle & Hlt).
  destruct (ss !! i) as [s|] eqn:Es; [|done]. destruct (next _ _) as [[h i'] c1]. intros [= <- <- <-].
  rewrite list_lookup_fmap, Es in Hi. cbn in Hi. exists i, s. repeat split; [done | congruence | |].
  - intros j s' b Hj Hh. apply (Hle j). by rewrite list_lookup_fmap, Hj; cbn; rewrite Hh.
  - intros j s' b Hji Hj Hh. apply (Hlt j); [done|]. by rewrite list_lookup_fmap, Hj; cbn; rewrite Hh.
Qed.

(** Draining the resolver over a sorted stream of records. *)
Lemma resolver_drain {J C} (next : step_fn J item C) (inv : C -> Prop)
    (j : J) (l : list KeyValue) c fuel :
  streams next inv j (Ok <$> l) -> inv c -> StronglySorted Resolver.kv_le l -> (length l < fuel)%nat ->
  exists out c', drain_iter (Resolver.resolver_next next fuel) fuel (Resolver.new j) c = (Ok <$> out, c') /\ inv c'
    /\ StronglySorted (fun a b => bytes_cmp a.1 b.1 = Lt) out
    /\ forall k v, (k, v) ∈ out <->
         exists kv, Resolver.first_version k l = Some kv /\ op (key kv) = Put /\ value kv = v.
Proof.
  intros H Hc Hs Hf. exists (Resolver.resolve_kvs None l).
  assert (Hlen : (length (Resolver.resolve_kvs None l) <= length l)%nat).
  { generalize (@None (list byte)) as last. clear. induction l as [|kv l IH]; intros last; cbn; [lia|].
    case_bool_decide; [specialize (IH last); lia|].
    specialize (IH (Some (user_key (key kv)))). destruct (op (key kv)); cbn; lia. }
  destruct (streams_drain _ inv _ (Resolver.new j) c fuel
    (Resolver.resolver_streams next inv _ j None fuel H ltac:(by rewrite length_fmap)) Hc) as (c' & E & Hc').
  { rewrite Resolver.resolve_items_ok, length_fmap. lia. }
  rewrite Resolver.resolve_items_ok in E. exists c'. split; [exact E|]. split; [exact Hc'|].
  split; [by apply Resolver.resolve_kvs_sorted|].
  intros k v. rewrite Resolver.resolve_kvs_spec; [|done | by intros k0]. split; [by intros [_ ?] | done].
Qed.
