(* ===== verification/Policies.v ===== *)
(** * Eviction policies ([crates/filesystem/src/cache/policies.rs])

    The [EvictionPolicy] trait as a class with the laws the two caches rely
    on, and its four implementations: [Lru], [LruK], [Clock] and [Lfu].  A
    [HashMap] is a [gmap]; the minimum over its iteration is unique because
    ticks are, so the iteration order does not matter.  [Clock] sweeps through
    interior mutability, so [evict_candidate] returns the policy too. *)

From Stdlib Require Import ZArith Lia.
From stdpp Require Import prelude list gmap.
From S2P Require Import Prelude.
Local Open Scope Z_scope.

Class EvictionPolicy (P Id : Type) : Type := {
  record_access : Id -> P -> P;
  evict_candidate : (Id -> bool) -> P -> option Id * P;
  policy_remove : Id -> P -> P;
  (** The ids the policy holds history for (the keys of its map). *)
  tracked : P -> list Id;
}.

(** What a cache relies on: exactly the accessed and not removed ids are
    tracked; a candidate is a tracked evictable id, and there is one whenever
    some tracked id is evictable. *)
Class EvictionPolicyOk (P Id : Type) `{!EvictionPolicy P Id} : Type := {
  policy_wf : P -> Prop;
  tracked_NoDup p : policy_wf p -> NoDup (tracked p);
  wf_access id p : policy_wf p -> policy_wf (record_access id p);
  wf_evict f p : policy_wf p -> policy_wf (evict_candidate f p).2;
  wf_remove id p : policy_wf p -> policy_wf (policy_remove id p);
  tracked_access id p x : policy_wf p -> x ∈ tracked (record_access id p) <-> x = id \/ x ∈ tracked p;
  tracked_evict f p : policy_wf p -> tracked (evict_candidate f p).2 ≡ₚ tracked p;
  tracked_remove id p x : policy_wf p -> x ∈ tracked (policy_remove id p) <-> x <> id /\ x ∈ tracked p;
  evict_some f p id : policy_wf p -> (evict_candidate f p).1 = Some id -> id ∈ tracked p /\ f id = true;
  evict_none f p : policy_wf p -> (evict_candidate f p).1 = None -> forall id, id ∈ tracked p -> f id = false;
}.

(** [Iterator::min_by_key]: the first of the smallest. *)
Fixpoint min_by {A B} (cmp : B -> B -> comparison) (rank : A -> B) (min : option A) (l : list A)
  : option A :=
  match l with
  | [] => min
  | a :: l' =>
      match min with
      | None => min_by cmp rank (Some a) l'
      | Some b => min_by cmp rank (match cmp (rank a) (rank b) with Lt => Some a | _ => Some b end) l'
      end
  end.

Section min_by.
Context {A B : Type} (cmp : B -> B -> comparison) `{!TotalCmp cmp} (rank : A -> B).

Lemma min_by_spec l min :
  match min_by cmp rank min l with
  | None => min = None /\ l = []
  | Some a => (a ∈ l \/ min = Some a) /\ Forall (fun b => cmp_le cmp (rank a) (rank b)) l
              /\ forall b, min = Some b -> cmp_le cmp (rank a) (rank b)
  end.
Proof.
  revert min. induction l as [|x l IH]; intros min; cbn [min_by].
  - destruct min as [a|]; [|done]. repeat split; [by right | constructor |].
    intros b [= <-]. apply (cmp_le_preorder cmp).
  - destruct min as [b|].
    + set (m := match cmp (rank x) (rank b) with Lt => x | _ => b end).
      assert (Em : (match cmp (rank x) (rank b) with Lt => Some x | _ => Some b end) = Some m)
        by (unfold m; by destruct (cmp (rank x) (rank b))).
      assert (Hm : cmp_le cmp (rank m) (rank x) /\ cmp_le cmp (rank m) (rank b) /\ (m = x \/ m = b)).
      { unfold m. destruct (cmp (rank x) (rank b)) eqn:E; repeat split; auto;
          try apply (cmp_le_preorder cmp); unfold cmp_le; rewrite ?(cmp_sym cmp (rank x)), E; done. }
      rewrite Em. specialize (IH (Some m)). destruct (min_by cmp rank (Some m) l) as [a|]; [|by destruct IH].
      destruct IH as (Hin & Hall & Hmin). specialize (Hmin m eq_refl).
      destruct Hm as (Hmx & Hmb & Hor). repeat split.
      * destruct Hin as [|[= <-]]; [left; by right|]. destruct Hor as [->| ->]; [left; by left | by right].
      * constructor; [by transitivity (rank m) | done].
      * intros b' [= <-]. by transitivity (rank m).
    + specialize (IH (Some x)). destruct (min_by cmp rank (Some x) l) as [a|]; [|by destruct IH].
      destruct IH as (Hin & Hall & Hmin). repeat split; [|constructor; auto|done].
      left. destruct Hin as [|[= <-]]; [by right | by left].
Qed.
End min_by.

(** Lexicographic order on pairs of integers, the [Ord] of [(u64, u64)]. *)
Definition pair_cmp (a b : Z * Z) : comparison :=
  match a.1 ?= b.1 with Eq => a.2 ?= b.2 | c => c end.

#[global] Instance pair_cmp_total : TotalCmp pair_cmp.
Proof.
  split.
  - intros [x1 x2]. unfold pair_cmp. cbn. by rewrite !Z.compare_refl.
  - intros [x1 x2] [y1 y2]. unfold pair_cmp. cbn. rewrite (Z.compare_antisym x1).
    destruct (x1 ?= y1); cbn; try done. apply Z.compare_antisym.
  - intros c [x1 x2] [y1 y2] [z1 z2]. unfold pair_cmp. cbn.
    destruct (Z.compare_spec x1 y1), (Z.compare_spec y1 z1), (Z.compare_spec x1 z1); subst;
      try congruence; try lia; apply (cmp_trans Z.compare).
Qed.

Section policies.
Context {Id : Type} `{!EqDecision Id, !Countable Id}.

(** The victim among the evictable keys of a map: the smallest rank. *)
Definition map_candidate {V B} (cmp : B -> B -> comparison) (rank : V -> B)
    (evictable : Id -> bool) (m : gmap Id V) : option Id :=
  fst <$> min_by cmp (fun e => rank e.2) None
            (List.filter (fun e => evictable e.1) (map_to_list m)).

Definition map_tracked {V} (m : gmap Id V) : list Id := (map_to_list m).*1.

Section candidate.
Context {V B : Type} (cmp : B -> B -> comparison) `{!TotalCmp cmp} (rank : V -> B).

Lemma elem_of_filtered (f : Id -> bool) (m : gmap Id V) (e : Id * V) :
  e ∈ List.filter (fun e => f e.1) (map_to_list m) <-> m !! e.1 = Some e.2 /\ f e.1 = true.
Proof.
  rewrite list_elem_of_In, List.filter_In, <- list_elem_of_In.
  destruct e as [i v]. cbn. by rewrite elem_of_map_to_list.
Qed.

Lemma map_candidate_some f (m : gmap Id V) id :
  map_candidate cmp rank f m = Some id ->
  exists v, m !! id = Some v /\ f id = true
    /\ forall id' v', m !! id' = Some v' -> f id' = true -> cmp_le cmp (rank v) (rank v').
Proof.
  unfold map_candidate.
  pose proof (min_by_spec cmp (fun e : Id * V => rank e.2)
    (List.filter (fun e => f e.1) (map_to_list m)) None) as H.
  destruct (min_by _ _ _ _) as [[i v]|]; cbn; [|done]. intros [= ->].
  destruct H as (Hin & Hall & _). destruct Hin as [Hin|?]; [|done].
  apply elem_of_filtered in Hin as [Hm Hf]. cbn in *. exists v. split; [done|]. split; [done|].
  intros id' v' Hm' Hf'. rewrite Forall_forall in Hall. apply (Hall (id', v')).
  by apply elem_of_filtered.
Qed.

Lemma map_candidate_none f (m : gmap Id V) :
  map_candidate cmp rank f m = None -> forall id, id ∈ map_tracked m -> f id = false.
Proof.
  unfold map_candidate.
  pose proof (min_by_spec cmp (fun e : Id * V => rank e.2)
    (List.filter (fun e => f e.1) (map_to_list m)) None) as H.
  destruct (min_by _ _ _ _) as [[i v]|]; cbn; [done|]. destruct H as [_ H]. intros _ id Hid.
  unfold map_tracked in Hid. apply list_elem_of_fmap in Hid as ([i v] & -> & Hin). cbn.
  apply elem_of_map_to_list in Hin. destruct (f i) eqn:Hf; [|done].
  assert (C : (i, v) ∈ List.filter (fun e => f e.1) (map_to_list m)) by (by apply elem_of_filtered).
  rewrite H in C. by apply not_elem_of_nil in C.
Qed.
End candidate.

Lemma elem_of_map_tracked {V} (m : gmap Id V) x : x ∈ map_tracked m <-> is_Some (m !! x).
Proof.
  unfold map_tracked. rewrite list_elem_of_fmap. split.
  - intros ([i v] & -> & H). apply elem_of_map_to_list in H. by eexists.
  - intros [v H]. exists (x, v). split; [done | by apply elem_of_map_to_list].
Qed.

Lemma map_tracked_NoDup {V} (m : gmap Id V) : NoDup (map_tracked m).
Proof. apply NoDup_fst_map_to_list. Qed.

Lemma map_tracked_insert {V} (m : gmap Id V) id v x :
  x ∈ map_tracked (<[id := v]> m) <-> x = id \/ x ∈ map_tracked m.
Proof.
  rewrite !elem_of_map_tracked, lookup_insert. case_decide; subst.
  - split; [by left | by eexists].
  - split; [by right | by intros [->|]].
Qed.

Lemma map_tracked_delete {V} (m : gmap Id V) id x :
  x ∈ map_tracked (delete id m) <-> x <> id /\ x ∈ map_tracked m.
Proof.
  rewrite !elem_of_map_tracked, lookup_delete. case_decide; subst.
  - split; [by intros [] | by intros []].
  - split; [done | by intros []].
Qed.

(** ** [Lru] *)

Record Lru : Type := MkLru { lru_clock : Z; lru_last : gmap Id Z }.

Definition Lru_new : Lru := MkLru 0 ∅.
Definition Lru_record_access (id : Id) (p : Lru) : Lru :=
  let clock := lru_clock p + 1 in MkLru clock (<[id := clock]> (lru_last p)).
Definition Lru_evict_candidate (evictable : Id -> bool) (p : Lru) : option Id :=
  map_candidate Z.compare id evictable (lru_last p).
Definition Lru_remove (id : Id) (p : Lru) : Lru := MkLru (lru_clock p) (delete id (lru_last p)).

#[global] Instance Lru_policy : EvictionPolicy Lru Id := {|
  record_access := Lru_record_access;
  evict_candidate f p := (Lru_evict_candidate f p, p);
  policy_remove := Lru_remove;
  tracked p := map_tracked (lru_last p) |}.

(** ** [LruK] *)

Record LruK : Type := MkLruK { lruk_k : nat; lruk_clock : Z; lruk_hist : gmap Id (list Z) }.

(** [LruK::new] panics on [k = 0]. *)
Definition LruK_new (k : nat) : res unit LruK :=
  if (1 <=? k)%nat then Ok (MkLruK k 0 ∅) else Panic.

Definition LruK_record_access (id : Id) (p : LruK) : LruK :=
  let clock := lruk_clock p + 1 in
  let ticks := clock :: default [] (lruk_hist p !! id) in
  MkLruK (lruk_k p) clock (<[id := take (lruk_k p) ticks]> (lruk_hist p)).

(** [(kth, ticks[0])]; an id accessed fewer than [k] times ranks 0. *)
Definition LruK_rank (k : nat) (ticks : list Z) : Z * Z :=
  ((if (length ticks <? k)%nat then 0 else default 0 (ticks !! (k - 1)%nat)),
   default 0 (ticks !! 0%nat)).

Definition LruK_evict_candidate (evictable : Id -> bool) (p : LruK) : option Id :=
  map_candidate pair_cmp (LruK_rank (lruk_k p)) evictable (lruk_hist p).
Definition LruK_remove (id : Id) (p : LruK) : LruK :=
  MkLruK (lruk_k p) (lruk_clock p) (delete id (lruk_hist p)).

#[global] Instance LruK_policy : EvictionPolicy LruK Id := {|
  record_access := LruK_record_access;
  evict_candidate f p := (LruK_evict_candidate f p, p);
  policy_remove := LruK_remove;
  tracked p := map_tracked (lruk_hist p) |}.

(** ** [Lfu] *)

Record Lfu : Type := MkLfu { lfu_clock : Z; lfu_freq : gmap Id (Z * Z) }.

Definition Lfu_new : Lfu := MkLfu 0 ∅.
Definition Lfu_record_access (id : Id) (p : Lfu) : Lfu :=
  let clock := lfu_clock p + 1 in
  let e := default (0, 0) (lfu_freq p !! id) in
  MkLfu clock (<[id := (e.1 + 1, clock)]> (lfu_freq p)).
Definition Lfu_evict_candidate (evictable : Id -> bool) (p : Lfu) : option Id :=
  map_candidate pair_cmp id evictable (lfu_freq p).
Definition Lfu_remove (id : Id) (p : Lfu) : Lfu := MkLfu (lfu_clock p) (delete id (lfu_freq p)).

#[global] Instance Lfu_policy : EvictionPolicy Lfu Id := {|
  record_access := Lfu_record_access;
  evict_candidate f p := (Lfu_evict_candidate f p, p);
  policy_remove := Lfu_remove;
  tracked p := map_tracked (lfu_freq p) |}.

(** ** [Clock] *)

Record Clock : Type := MkClock { ring : list Id; referenced : gmap Id bool }.

Definition Clock_new : Clock := MkClock [] ∅.
Definition Clock_record_access (id : Id) (p : Clock) : Clock :=
  MkClock (match referenced p !! id with None => ring p ++ [id] | Some _ => ring p end)
          (<[id := true]> (referenced p)).

(** The sweep: at most [steps] moves of the hand. *)
Fixpoint Clock_sweep (evictable : Id -> bool) (steps : nat) (p : Clock) : option Id * Clock :=
  match steps with
  | O => (None, p)
  | S n =>
      match ring p with
      | [] => (None, p)
      | x :: rest =>
          let ring' := rest ++ [x] in
          if negb (evictable x) then Clock_sweep evictable n (MkClock ring' (referenced p))
          else if default false (referenced p !! x)
               then Clock_sweep evictable n (MkClock ring' (<[x := false]> (referenced p)))
               else (Some x, MkClock ring' (referenced p))
      end
  end.

Definition Clock_evict_candidate (evictable : Id -> bool) (p : Clock) : option Id * Clock :=
  Clock_sweep evictable (length (ring p) * 2 + 1) p.

Definition Clock_remove (id : Id) (p : Clock) : Clock :=
  MkClock (List.filter (fun x => bool_decide (x <> id)) (ring p)) (delete id (referenced p)).

#[global] Instance Clock_policy : EvictionPolicy Clock Id := {|
  record_access := Clock_record_access;
  evict_candidate := Clock_evict_candidate;
  policy_remove := Clock_remove;
  tracked := ring |}.
End policies.
Arguments Lru Id {_ _}.
Arguments LruK Id {_ _}.
Arguments Lfu Id {_ _}.
Arguments Clock Id {_ _}.

(** ** The laws hold *)

(** The map-based policies: tracked ids are the map's keys. *)
Ltac map_policy_laws :=
  cbn; intros; try done;
  first [ apply map_tracked_NoDup | apply map_tracked_insert | apply map_tracked_delete
        | match goal with E : _ = None, H : ?x ∈ _ |- _ =>
            exact (map_candidate_none _ _ _ _ E _ H) end
        | match goal with E : _ = Some ?x |- ?x ∈ _ /\ _ =>
            apply (map_candidate_some _ _) in E as (? & ? & ? & ?);
            rewrite elem_of_map_tracked; split; [by eexists | done] end ].

Section laws.
Context {Id : Type} `{!EqDecision Id, !Countable Id}.

#[global] Instance Lru_ok : EvictionPolicyOk (Lru Id) Id.
Proof. refine {| policy_wf _ := True |}; map_policy_laws. Defined.

#[global] Instance LruK_ok : EvictionPolicyOk (LruK Id) Id.
Proof. refine {| policy_wf _ := True |}; map_policy_laws. Defined.

#[global] Instance Lfu_ok : EvictionPolicyOk (Lfu Id) Id.
Proof. refine {| policy_wf _ := True |}; map_policy_laws. Defined.

(** The ring holds each key of [referenced] once. *)
Definition Clock_wf (p : Clock Id) : Prop :=
  NoDup (ring p) /\ forall x, x ∈ ring p <-> is_Some (referenced p !! x).

Lemma Clock_rotate x rest m :
  Clock_wf (MkClock (x :: rest) m) -> Clock_wf (MkClock (rest ++ [x]) m).
Proof.
  assert (Hp : rest ++ [x] ≡ₚ x :: rest) by (by rewrite Permutation_app_comm).
  intros [Hn Hd]. split; cbn in *; [by rewrite Hp|]. intros y. by rewrite Hp.
Qed.

Lemma Clock_clear_bit x p :
  x ∈ ring p -> Clock_wf p -> Clock_wf (MkClock (ring p) (<[x := false]> (referenced p))).
Proof.
  intros Hx [Hn Hd]. split; [done|]. cbn. intros y. rewrite lookup_insert.
  case_decide; [subst; split; [by eexists | done] | apply Hd].
Qed.

(** A sweep keeps the ring's ids and returns only evictable ones. *)
Lemma Clock_sweep_sound (f : Id -> bool) n (p : Clock Id) :
  Clock_wf p ->
  Clock_wf (Clock_sweep f n p).2 /\ ring (Clock_sweep f n p).2 ≡ₚ ring p
  /\ forall x, (Clock_sweep f n p).1 = Some x -> x ∈ ring p /\ f x = true.
Proof.
  revert p. induction n as [|n IH]; intros [r m] Hwf; [done|]. cbn [Clock_sweep ring referenced].
  destruct r as [|x rest]; [done|].
  pose proof (Clock_rotate _ _ _ Hwf) as Hr.
  assert (Hp : rest ++ [x] ≡ₚ x :: rest) by (by rewrite Permutation_app_comm).
  destruct (f x) eqn:Hf; cbn [negb].
  - destruct (default false (m !! x)).
    + destruct (IH (MkClock (rest ++ [x]) (<[x := false]> m))) as (H1 & H2 & H3).
      { apply (Clock_clear_bit x (MkClock (rest ++ [x]) m)); [|done]. cbn. rewrite Hp. by left. }
      cbn [ring] in *. split; [done|]. split; [by transitivity (rest ++ [x])|].
      intros y Hy. destruct (H3 y Hy) as [Hin ?]. split; [by rewrite <- Hp | done].
    + cbn. split; [done|]. split; [done|]. intros y [= <-]. split; [by left | done].
  - destruct (IH (MkClock (rest ++ [x]) m) Hr) as (H1 & H2 & H3). cbn [ring] in *.
    split; [done|]. split; [by transitivity (rest ++ [x])|].
    intros y Hy. destruct (H3 y Hy) as [Hin ?]. split; [by rewrite <- Hp | done].
Qed.

Lemma lookup_rotate (rest : list Id) y i x :
  (y :: rest) !! S i = Some x -> (rest ++ [y]) !! i = Some x.
Proof. intros H. by apply lookup_app_l_Some. Qed.

(** An evictable id whose bit is clear ends the sweep when the hand is there. *)
Lemma Clock_sweep_finds_clear (f : Id -> bool) n (p : Clock Id) i x :
  ring p !! i = Some x -> f x = true -> default false (referenced p !! x) = false ->
  (i < n)%nat -> is_Some (Clock_sweep f n p).1.
Proof.
  revert p i. induction n as [|n IH]; intros [r m] i Hi Hf Hb Hn; [lia|].
  cbn [ring referenced] in *. destruct r as [|y rest]; [done|]. cbn [Clock_sweep ring referenced].
  destruct i as [|i].
  - injection Hi as ->. rewrite Hf, Hb. by eexists.
  - apply lookup_rotate in Hi.
    destruct (f y) eqn:Hfy; cbn [negb]; [destruct (default false (m !! y)) eqn:Hby|].
    + apply (IH (MkClock (rest ++ [y]) (<[y := false]> m)) i); [done|done| |lia]. cbn.
      rewrite lookup_insert. by case_decide.
    + by eexists.
    + by apply (IH (MkClock (rest ++ [y]) m) i); [..|lia].
Qed.

(** Any evictable id ends it within two turns of the ring. *)
Lemma Clock_sweep_finds (f : Id -> bool) n (p : Clock Id) i x :
  ring p !! i = Some x -> f x = true -> (i + length (ring p) < n)%nat ->
  is_Some (Clock_sweep f n p).1.
Proof.
  revert p i. induction n as [|n IH]; intros [r m] i Hi Hf Hn; [lia|].
  cbn [ring referenced] in *. destruct r as [|y rest]; [done|]. cbn [Clock_sweep ring referenced length] in *.
  destruct i as [|i].
  - injection Hi as ->. rewrite Hf. cbn [negb]. destruct (default false (m !! x)); [|by eexists].
    apply (Clock_sweep_finds_clear f n (MkClock (rest ++ [x]) (<[x := false]> m)) (length rest) x);
      [|done| |lia]; cbn.
    + by rewrite lookup_app_r, Nat.sub_diag by lia.
    + by rewrite lookup_insert_eq.
  - apply lookup_rotate in Hi.
    destruct (f y) eqn:Hfy; cbn [negb]; [destruct (default false (m !! y)) eqn:Hby|].
    + apply (IH (MkClock (rest ++ [y]) (<[y := false]> m)) i); [done|done|].
      cbn. rewrite length_app. cbn. lia.
    + by eexists.
    + apply (IH (MkClock (rest ++ [y]) m) i); [done|done|]. cbn. rewrite length_app. cbn. lia.
Qed.

#[global] Instance Clock_ok : EvictionPolicyOk (Clock Id) Id.
Proof.
  refine {| policy_wf := Clock_wf |}; cbn.
  - by intros p [].
  - intros id p [Hn Hd]. split; cbn.
    + destruct (referenced p !! id) eqn:E; [done|]. apply NoDup_app. repeat split; [done| |apply NoDup_singleton].
      intros x Hx ->%list_elem_of_singleton. apply Hd in Hx. rewrite E in Hx. by destruct Hx.
    + intros x. rewrite lookup_insert. destruct (referenced p !! id) eqn:E; case_decide; subst.
      * rewrite Hd, E. split; by eexists.
      * apply Hd.
      * rewrite elem_of_app, list_elem_of_singleton. split; [by eexists | by right].
      * rewrite elem_of_app, list_elem_of_singleton, Hd. split; [by intros [ | -> ] | by left].
  - intros f p H. by apply Clock_sweep_sound.
  - intros id p [Hn Hd]. split; cbn.
    + apply NoDup_ListNoDup, List.NoDup_filter. by apply NoDup_ListNoDup.
    + intros x. rewrite list_elem_of_In, List.filter_In, <- list_elem_of_In, Hd, lookup_delete.
      rewrite bool_decide_eq_true. case_decide; subst; split; [by intros []|by intros []|by intros []|].
      by intros.
  - intros id p x [Hn Hd]. destruct (referenced p !! id) eqn:E.
    + split; [by right|]. intros [->|]; [|done]. apply Hd. by eexists.
    + rewrite elem_of_app, list_elem_of_singleton. tauto.
  - intros f p H. by apply Clock_sweep_sound.
  - intros id p x _. rewrite list_elem_of_In, List.filter_In, <- list_elem_of_In, bool_decide_eq_true. tauto.
  - intros f p id H. by apply Clock_sweep_sound.
  - intros f p H E id Hid. destruct (f id) eqn:Hf; [|done].
    apply list_elem_of_lookup in Hid as [i Hi].
    destruct (Clock_sweep_finds f (length (ring p) * 2 + 1) p i id Hi Hf) as [y Hy].
    { apply lookup_lt_Some in Hi. lia. }
    unfold Clock_evict_candidate in E. congruence.
Defined.
End laws.

(** ** What each policy evicts *)

Section evicts.
Context {Id : Type} `{!EqDecision Id, !Countable Id}.

(** The policy after a history of accesses, oldest first. *)
Definition accesses {P} `{!EvictionPolicy P Id} (p : P) (h : list Id) : P :=
  foldl (fun p x => record_access x p) p h.

(** Tick of the last access to [x]: its last position, counted from 1. *)
Definition last_tick (h : list Id) (x : Id) (t : Z) : Prop :=
  exists pre post, h = pre ++ x :: post /\ (x ∉ post) /\ t = Z.of_nat (length pre) + 1.

Lemma last_tick_snoc h y x t :
  last_tick (h ++ [y]) x t <->
  (x = y /\ t = Z.of_nat (length h) + 1) \/ (x <> y /\ last_tick h x t).
Proof.
  split.
  - intros (pre & post & E & Hn & ->). destruct post as [|z post _] using rev_ind.
    + apply app_inj_tail in E as [-> ->]. by left.
    + rewrite app_comm_cons, app_assoc in E. apply app_inj_tail in E as [-> ->]. right.
      rewrite elem_of_app, list_elem_of_singleton in Hn. split; [intros ->; tauto|].
      exists pre, post. tauto.
  - intros [[-> ->]|(Hne & pre & post & -> & Hn & ->)].
    + exists h, []. repeat split. apply not_elem_of_nil.
    + exists pre, (post ++ [y]). rewrite <- app_assoc. repeat split.
      rewrite elem_of_app, list_elem_of_singleton. tauto.
Qed.

Lemma Lru_state h :
  lru_clock (accesses Lru_new h) = Z.of_nat (length h)
  /\ forall x t, lru_last (accesses Lru_new h) !! x = Some t <-> last_tick h x t.
Proof.
  induction h as [|y h [Hc IH]] using rev_ind.
  - split; [done|]. intros x t. cbn. rewrite lookup_empty.
    split; [done|]. intros (pre & post & E & _). by destruct pre.
  - unfold accesses in *. rewrite foldl_app. cbn [foldl].
    set (p := foldl _ Lru_new h) in *. change (record_access y p) with (Lru_record_access y p).
    unfold Lru_record_access. cbn [lru_clock lru_last]. rewrite Hc. split; [rewrite length_app; cbn; lia|].
    intros x t. rewrite last_tick_snoc, lookup_insert, <- IH. case_decide; subst.
    + split; [intros [= <-]; by left | intros [[_ ->]|[? _]]; done].
    + split; [by right | intros [[-> _]|[_ ?]]; done].
Qed.

(** After any history of accesses, LRU evicts, among the evictable ids,
    the one whose last access lies furthest in the past. *)
Theorem lru_evicts_least_recent (h : list Id) (f : Id -> bool) victim :
  (evict_candidate f (accesses Lru_new h)).1 = Some victim ->
  f victim = true /\ exists t, last_tick h victim t
    /\ forall x t', last_tick h x t' -> f x = true -> x <> victim -> t < t'.
Proof.
  cbn. intros H. apply map_candidate_some in H as (t & Ht & Hf & Hmin); [|apply _].
  destruct (Lru_state h) as [_ Hs]. split; [done|]. exists t. split; [by apply Hs|].
  intros x t' Hx Hfx Hne. pose proof (Hmin x t' (proj2 (Hs x t') Hx) Hfx) as Hle.
  change (t <= t') in Hle.
  destruct (decide (t = t')) as [->|]; [|lia].
  destruct Hx as (pre & post & -> & _ & ->). apply Hs in Ht.
  destruct Ht as (pre' & post' & E & _ & El). apply Z.add_cancel_r, Nat2Z.inj in El.
  apply app_inj_1 in E as [_ E]; [|done]. by injection E as -> _.
Qed.

(** C40: CLOCK always finds a victim when one exists: if some id on the ring
    is evictable, the bounded two-turn sweep returns an evictable id of the
    ring, and it only rotates the ring. *)
Theorem clock_sweep_finds_victim (p : Clock Id) (f : Id -> bool) x :
  Clock_wf p -> x ∈ ring p -> f x = true ->
  exists victim p', Clock_evict_candidate f p = (Some victim, p')
    /\ victim ∈ ring p /\ f victim = true /\ ring p' ≡ₚ ring p /\ Clock_wf p'.
Proof.
  intros Hwf Hx Hf. apply list_elem_of_lookup in Hx as [i Hi]. unfold Clock_evict_candidate.
  destruct (Clock_sweep_finds f (length (ring p) * 2 + 1) p i x Hi Hf) as [y Hy].
  { apply lookup_lt_Some in Hi. lia. }
  destruct (Clock_sweep_sound f (length (ring p) * 2 + 1) p Hwf) as (H1 & H2 & H3).
  destruct (H3 y Hy) as [Hin Hfy].
  destruct (Clock_sweep f _ p) as [o p']. cbn in *. subst o. by exists y, p'.
Qed.
End evicts.

(** ** Witnesses *)

Definition clock_ex : Clock nat := accesses Clock_new [4; 7; 9; 7]%nat.

Lemma clock_sweep_finds_victim_witness :
  ring clock_ex = [4; 7; 9]%nat /\
  exists victim p', Clock_evict_candidate Nat.odd clock_ex = (Some victim, p')
    /\ victim ∈ ring clock_ex /\ Nat.odd victim = true /\ ring p' ≡ₚ ring clock_ex /\ Clock_wf p'.
Proof.
  split; [vm_compute; reflexivity|].
  apply (clock_sweep_finds_victim clock_ex Nat.odd 7%nat).
  - unfold clock_ex, accesses. repeat apply (wf_access (EvictionPolicyOk := Clock_ok)).
    split; [constructor|]. intros x. cbn. rewrite lookup_empty.
    split; [by intros ?%not_elem_of_nil | by intros []].
  - apply (list_elem_of_lookup_2 _ 1). vm_compute. reflexivity.
  - reflexivity.
Defined.
