(* ===== verification/MemoCache.v ===== *)
(** * The read-through cache ([crates/filesystem/src/cache/memo.rs]) and the
    SSTable page cache built on it ([crates/lsm/src/storage/cache.rs],
    [page.rs])

    [Cache] maps keys to cloned values under a size budget and an eviction
    policy; the interior mutability of the source is explicit state.  A loader
    is the result it would return if it ran. *)

From Stdlib Require Import Strings.Byte ZArith Lia.
From stdpp Require Import prelude list gmap.
From S2P Require Import Prelude LsmKey Policies.
Local Open Scope Z_scope.

(** [Weight]: the cost of a value in bytes. *)
Class Weight (V : Type) : Type := weight : V -> Z.
Class WeightOk (V : Type) `{!Weight V} : Prop := weight_nonneg : forall v : V, 0 <= weight v.

Inductive Budget : Type := BUnbounded | BEntries (n : Z) | BBytes (n : Z).

Section cache.
Context {K V P : Type} `{!EqDecision K, !Countable K, !Weight V, !EvictionPolicy P K}.

Record Cache : Type := MkCache {
  entries : gmap K V; policy : P; bytes : Z; budget : Budget }.

Definition cache_new (b : Budget) (p : P) : Cache := MkCache ∅ p 0 b.

Definition over_budget (c : Cache) : bool :=
  match budget c with
  | BUnbounded => false
  | BEntries max => max <? Z.of_nat (size (entries c))
  | BBytes max => max <? bytes c
  end.

(** One turn of the eviction loop on the victim [k]. *)
Definition drop_victim (k : K) (p : P) (c : Cache) : Cache :=
  match entries c !! k with
  | Some v => MkCache (delete k (entries c)) (policy_remove k p)
                (Z.max 0 (bytes c - weight v)) (budget c)
  | None => MkCache (entries c) (policy_remove k p) (bytes c) (budget c)
  end.

(** [evict_to_budget]: each turn takes one id out of the policy, so its
    number of ids bounds the turns. *)
Fixpoint evict_loop (fuel : nat) (c : Cache) : Cache :=
  if over_budget c then
    match fuel with
    | O => c
    | S n =>
        match evict_candidate (fun _ => true) (policy c) with
        | (None, p) => MkCache (entries c) p (bytes c) (budget c)
        | (Some k, p) => evict_loop n (drop_victim k p c)
        end
    end
  else c.

Definition evict_to_budget (c : Cache) : Cache := evict_loop (S (length (tracked (policy c)))) c.

Definition get_or_load {E} (k : K) (load : res E V) (c : Cache) : res E V * Cache :=
  match entries c !! k with
  | Some v => (Ok v, MkCache (entries c) (record_access k (policy c)) (bytes c) (budget c))
  | None =>
      match load with
      | Ok v => (Ok v, evict_to_budget
          (MkCache (<[k := v]> (entries c)) (record_access k (policy c))
             (bytes c + weight v) (budget c)))
      | Err e => (Err e, c)
      | Panic => (Panic, c)
      end
  end.

Definition cache_get (k : K) (c : Cache) : option V * Cache :=
  match entries c !! k with
  | Some v => (Some v, MkCache (entries c) (record_access k (policy c)) (bytes c) (budget c))
  | None => (None, c)
  end.

Definition cache_len (c : Cache) : nat := size (entries c).

(** [clear] drops the entries and the byte count; the policy keeps its
    history. *)
Definition cache_clear (c : Cache) : Cache := MkCache ∅ (policy c) 0 (budget c).

(** ** Invariant *)

Definition total_weight (m : gmap K V) : Z := map_fold (fun _ v acc => weight v + acc) 0 m.

Lemma total_weight_empty : total_weight ∅ = 0.
Proof. apply map_fold_empty. Qed.

Lemma total_weight_insert m k v :
  m !! k = None -> total_weight (<[k := v]> m) = weight v + total_weight m.
Proof. intros H. unfold total_weight. rewrite map_fold_insert_L; [done| |done]. intros. lia. Qed.

Lemma total_weight_delete m k v :
  m !! k = Some v -> total_weight m = weight v + total_weight (delete k m).
Proof.
  intros H. rewrite <- (total_weight_insert (delete k m) k v) by apply lookup_delete_eq.
  by rewrite insert_delete_eq, insert_id.
Qed.

Context `{!EvictionPolicyOk P K, !WeightOk V}.

Lemma total_weight_nonneg m : 0 <= total_weight m.
Proof.
  induction m as [|k v m Hk IH] using map_ind; [done|].
  rewrite total_weight_insert by done. pose proof (weight_nonneg v). lia.
Qed.

(** The bookkeeping is exact and every cached key is known to the policy. *)
Definition cache_wf (c : Cache) : Prop :=
  policy_wf (policy c) /\ bytes c = total_weight (entries c)
  /\ forall k, is_Some (entries c !! k) -> k ∈ tracked (policy c).

Definition budget_ok (b : Budget) : Prop :=
  match b with BUnbounded => True | BEntries n | BBytes n => 0 <= n end.

Lemma drop_victim_wf c k p :
  cache_wf c -> evict_candidate (fun _ => true) (policy c) = (Some k, p) ->
  cache_wf (drop_victim k p c)
  /\ (length (tracked (policy (drop_victim k p c))) < length (tracked (policy c)))%nat.
Proof.
  intros (Hp & Hb & Hk) E.
  pose proof (wf_evict (fun _ => true) _ Hp) as Hp'. pose proof (tracked_evict (fun _ => true) _ Hp) as Ht.
  pose proof (evict_some (fun _ => true) (policy c) k Hp) as Hs. rewrite E in *. cbn [fst snd] in *.
  destruct (Hs eq_refl) as [Hin _].
  assert (Hlen : (length (tracked (policy_remove k p)) < length (tracked (policy c)))%nat).
  { rewrite <- Ht. rewrite <- Ht in Hin.
    assert (Hsub : k :: tracked (policy_remove k p) ⊆+ tracked p).
    { apply NoDup_submseteq.
      - constructor; [|by apply tracked_NoDup, wf_remove]. rewrite tracked_remove by done. tauto.
      - intros x [->|Hx]%elem_of_cons; [done|]. by apply tracked_remove in Hx as [_ Hx]. }
    apply submseteq_length in Hsub. cbn in Hsub. lia. }
  unfold drop_victim. destruct (entries c !! k) as [v|] eqn:Ev; (split; [|exact Hlen]);
    (split; [by apply wf_remove|]); cbn [entries policy bytes].
  - split.
    + rewrite Hb, (total_weight_delete _ _ _ Ev). pose proof (total_weight_nonneg (delete k (entries c))). lia.
    + intros x. rewrite lookup_delete. case_decide as Hx; [by intros []|]. intros Hs'.
      apply tracked_remove; [done|]. split; [congruence|]. rewrite Ht. by apply Hk.
  - split; [done|]. intros x Hx. apply tracked_remove; [done|].
    split; [intros ->; rewrite Ev in Hx; by destruct Hx|]. rewrite Ht. by apply Hk.
Qed.

Lemma evict_loop_spec fuel c :
  cache_wf c -> budget_ok (budget c) -> (length (tracked (policy c)) < fuel)%nat ->
  cache_wf (evict_loop fuel c) /\ over_budget (evict_loop fuel c) = false
  /\ budget (evict_loop fuel c) = budget c /\ entries (evict_loop fuel c) ⊆ entries c.
Proof.
  revert c. induction fuel as [|n IH]; intros c Hwf Hbud Hf; [lia|]. cbn [evict_loop].
  destruct (over_budget c) eqn:Eo; [|done].
  destruct (evict_candidate (fun _ => true) (policy c)) as [[k|] p] eqn:Ee.
  - destruct (drop_victim_wf c k p Hwf Ee) as [Hwf' Hlen].
    assert (Eb : budget (drop_victim k p c) = budget c) by (unfold drop_victim; by case_match).
    destruct (IH (drop_victim k p c)) as (H1 & H2 & H3 & H4); [done| by rewrite Eb | lia |].
    split; [done|]. split; [done|]. split; [congruence|]. etransitivity; [exact H4|].
    unfold drop_victim. destruct (entries c !! k); [apply delete_subseteq | done].
  - exfalso. destruct Hwf as (Hp & Hb & Hk).
    pose proof (evict_none (fun _ => true) (policy c) Hp) as Hn. rewrite Ee in Hn.
    assert (He : entries c = ∅).
    { apply map_empty. intros k. apply eq_None_not_Some. intros Hs. by specialize (Hn eq_refl k (Hk k Hs)). }
    unfold over_budget in Eo. rewrite Hb, He in Eo. destruct (budget c) eqn:Ebc; cbn in *; [done| |].
    + rewrite map_size_empty in Eo. apply Z.ltb_lt in Eo. lia.
    + apply Z.ltb_lt in Eo. rewrite total_weight_empty in Eo. lia.
Qed.

(** A load that misses: the invariant, within budget again, and the entries
    are those of before plus possibly the loaded one. *)
Lemma get_or_load_spec {E} k (load : res E V) c :
  cache_wf c -> budget_ok (budget c) -> over_budget c = false ->
  let '(r, c') := get_or_load k load c in
  cache_wf c' /\ over_budget c' = false /\ budget c' = budget c
  /\ r = match entries c !! k with Some v => Ok v | None => load end
  /\ forall k' v, entries c' !! k' = Some v ->
       entries c !! k' = Some v \/ (k' = k /\ load = Ok v /\ entries c !! k = None).
Proof.
  intros (Hp & Hb & Hk) Hbud Ho. unfold get_or_load.
  destruct (entries c !! k) as [v|] eqn:Ek.
  - repeat split; cbn; auto.
    + by apply wf_access.
    + intros x Hx. apply tracked_access; [done|]. right. by apply Hk.
  - destruct load as [v|e|]; [| repeat split; auto ..].
    unfold evict_to_budget.
    set (c1 := MkCache _ _ _ _).
    assert (Hwf1 : cache_wf c1).
    { split; [by apply wf_access|]. cbn. rewrite total_weight_insert by done. split; [lia|].
      intros x Hx. apply tracked_access; [done|]. rewrite lookup_insert in Hx.
      case_decide; [by left | right; by apply Hk]. }
    destruct (evict_loop_spec (S (length (tracked (policy c1)))) c1) as (H1 & H2 & H3 & H4); [done|done|lia|].
    repeat split; try apply H1; try done.
    intros k' v' Hl. apply (lookup_weaken _ _ _ _ Hl) in H4. cbn in H4.
    rewrite lookup_insert in H4. case_decide as Hd; [|by left].
    injection H4 as ->. right. subst. done.
Qed.

Lemma cache_new_wf b p :
  policy_wf p -> budget_ok b -> cache_wf (cache_new b p) /\ over_budget (cache_new b p) = false.
Proof.
  intros Hp Hb. split.
  - repeat split; [done|]. cbn. intros k. rewrite lookup_empty. by intros [].
  - unfold over_budget. destruct b; cbn in *; [done| |]; [rewrite map_size_empty|]; apply Z.ltb_ge; lia.
Qed.

Lemma cache_clear_wf c :
  cache_wf c -> budget_ok (budget c) -> cache_wf (cache_clear c) /\ over_budget (cache_clear c) = false.
Proof.
  intros (Hp & _ & _) Hb. split.
  - repeat split; [done|]. cbn. intros k. rewrite lookup_empty. by intros [].
  - unfold over_budget. cbn. destruct (budget c); cbn in *; [done| |]; [rewrite map_size_empty|];
      apply Z.ltb_ge; lia.
Qed.

(** ** Runs of a cache *)

Inductive cache_run (b : Budget) (p : P) : Cache -> Prop :=
| cr_new : cache_run b p (cache_new b p)
| cr_load {E} c k (load : res E V) : cache_run b p c -> cache_run b p (get_or_load k load c).2
| cr_get c k : cache_run b p c -> cache_run b p (cache_get k c).2
| cr_clear c : cache_run b p c -> cache_run b p (cache_clear c).

Lemma cache_run_inv b p c :
  policy_wf p -> budget_ok b -> cache_run b p c ->
  cache_wf c /\ over_budget c = false /\ budget c = b.
Proof.
  intros Hp Hb. induction 1 as [|E c k load _ (H1 & H2 & H3)|c k _ (H1 & H2 & H3)|c _ (H1 & H2 & H3)].
  - destruct (cache_new_wf b p Hp Hb). done.
  - pose proof (get_or_load_spec k load c H1 ltac:(by rewrite H3) H2) as Hs.
    destruct (get_or_load k load c). cbn. destruct Hs as (? & ? & ? & _). repeat split; try done; try apply H; congruence.
  - unfold cache_get. destruct (entries c !! k) eqn:Ek; [|done]. cbn.
    destruct H1 as (Hp1 & Hb1 & Hk1). repeat split; cbn; try done; [by apply wf_access|].
    intros x Hx. apply tracked_access; [done|]. right. by apply Hk1.
  - destruct (cache_clear_wf c H1) as [H4 H5]; [by rewrite H3|]. done.
Qed.

(** Under every sequence of loads (hits, misses, failing loads), gets and
    clears, the cache respects its budget, counts its bytes exactly, and its
    policy knows every cached key; this holds for every eviction policy that
    satisfies the policy laws. *)
Theorem cache_within_budget b p c :
  policy_wf p -> budget_ok b -> cache_run b p c ->
  match b with
  | BUnbounded => True
  | BEntries n => Z.of_nat (size (entries c)) <= n
  | BBytes n => total_weight (entries c) <= n
  end /\ bytes c = total_weight (entries c)
  /\ forall k, is_Some (entries c !! k) -> k ∈ tracked (policy c).
Proof.
  intros Hp Hb Hr. destruct (cache_run_inv b p c Hp Hb Hr) as ((_ & H1 & H2) & Ho & <-).
  split; [|done]. unfold over_budget in Ho. destruct (budget c); [done| |].
  - by apply Z.ltb_ge in Ho.
  - apply Z.ltb_ge in Ho. by rewrite <- H1.
Qed.

(** ** Transparency

    [truth k] is what loading [k] gives; a cache is coherent when it only
    holds true values. *)
Definition coherent (truth : K -> option V) (c : Cache) : Prop :=
  cache_wf c /\ budget_ok (budget c) /\ over_budget c = false
  /\ forall k v, entries c !! k = Some v -> truth k = Some v.

Lemma coherent_load {E} truth c k (load : res E V) v :
  coherent truth c -> load = Ok v -> truth k = Some v ->
  exists c', get_or_load k load c = (Ok v, c') /\ coherent truth c'.
Proof.
  intros (H1 & H2 & H3 & H4) Hl Ht. pose proof (get_or_load_spec k load c H1 H2 H3) as Hs.
  destruct (get_or_load k load c) as [r c']. destruct Hs as (H5 & H6 & H7 & -> & H8).
  exists c'. split.
  - destruct (entries c !! k) as [v'|] eqn:E'; [|by rewrite Hl]. apply H4 in E'. congruence.
  - split; [done|]. split; [by rewrite H7|]. split; [done|]. intros k' v' Hv.
    destruct (H8 _ _ Hv) as [?|(-> & ? & _)]; [by apply H4 | congruence].
Qed.

(** Reading a sequence of keys through the cache, each loaded with [truth]. *)
Fixpoint cached_reads {E} (truth : K -> res E V) (ks : list K) (c : Cache) : list (res E V) * Cache :=
  match ks with
  | [] => ([], c)
  | k :: ks' =>
      let '(r, c1) := get_or_load k (truth k) c in
      let '(rs, c2) := cached_reads truth ks' c1 in (r :: rs, c2)
  end.

(** A cache is transparent: whatever the policy, the budget and the order
    of the reads, reading through it a source that does not change gives,
    read for read, what the source gives, failed loads included. *)
Theorem cached_reads_transparent {E} (truth : K -> res E V) ks b p :
  policy_wf p -> budget_ok b ->
  (cached_reads truth ks (cache_new b p)).1 = truth <$> ks.
Proof.
  intros Hp Hb.
  assert (H : forall c, cache_wf c -> budget_ok (budget c) -> over_budget c = false ->
    (forall k v, entries c !! k = Some v -> truth k = Ok v) -> (cached_reads truth ks c).1 = truth <$> ks).
  { induction ks as [|k ks IH]; intros c H1 H2 H3 H4; [done|]. cbn [cached_reads].
    pose proof (get_or_load_spec k (truth k) c H1 H2 H3) as Hs.
    destruct (get_or_load k (truth k) c) as [r c1]. destruct Hs as (H5 & H6 & H7 & -> & H8).
    specialize (IH c1 H5 ltac:(by rewrite H7) H6). destruct (cached_reads truth ks c1) as [rs c2].
    cbn. f_equal.
    - destruct (entries c !! k) eqn:Ek; [|done]. by rewrite (H4 _ _ Ek).
    - apply IH. intros k' v' Hv. destruct (H8 _ _ Hv) as [?|(-> & ? & _)]; [by apply H4 | done]. }
  destruct (cache_new_wf b p Hp Hb). by apply H.
Qed.
End cache.
Arguments Cache K V P {_ _}.

(** ** SSTable page identities and the two-cache facade *)

Record PageId : Type := MkPageId { pg_table : Z; pg_offset : Z }.
Inductive HeaderId : Type := HRoot (table : Z) | HChild (table offset : Z).

#[global] Instance PageId_eq_dec : EqDecision PageId.
Proof. solve_decision. Defined.
#[global] Instance HeaderId_eq_dec : EqDecision HeaderId.
Proof. solve_decision. Defined.
#[global] Instance PageId_countable : Countable PageId.
Proof.
  apply (inj_countable' (fun p => (pg_table p, pg_offset p)) (fun '(t, o) => MkPageId t o)). by intros [].
Defined.
#[global] Instance HeaderId_countable : Countable HeaderId.
Proof.
  apply (inj_countable' (fun h => match h with HRoot t => inl t | HChild t o => inr (t, o) end)
           (fun s => match s with inl t => HRoot t | inr (t, o) => HChild t o end)). by intros [].
Defined.

(** A loaded page: its bytes. *)
Definition Page : Type := list byte.
#[global] Instance Page_weight : Weight Page := fun p => Z.of_nat (length p).
#[global] Instance Page_weight_ok : WeightOk Page.
Proof. intros p. unfold weight, Page_weight. lia. Qed.

Definition budget_of (size : SizeConfig) : Budget :=
  match size with
  | SizeUnbounded => BUnbounded
  | SizePages n => BEntries n
  | SizeBytes n => BBytes n
  end.

Record SstPageCache : Type := MkSstPageCache {
  headers : Cache HeaderId Page (Policies.Lru HeaderId);
  blocks : Cache PageId Page (Policies.Lru PageId);
  cache_config : PageCacheConfig }.

Definition SstPageCache_new (config : PageCacheConfig) : SstPageCache :=
  MkSstPageCache (cache_new (budget_of (cache_size config)) Lru_new)
                 (cache_new (budget_of (cache_size config)) Lru_new) config.

Definition fetch_header (id : HeaderId) (load : res io_error Page) (c : SstPageCache)
  : res io_error Page * SstPageCache :=
  let '(r, h) := get_or_load id load (headers c) in
  (r, MkSstPageCache h (blocks c) (cache_config c)).

Definition fetch_block (id : PageId) (load : res io_error Page) (c : SstPageCache)
  : res io_error Page * SstPageCache :=
  let '(r, b) := get_or_load id load (blocks c) in
  (r, MkSstPageCache (headers c) b (cache_config c)).

Definition sst_cache_len (c : SstPageCache) : nat := cache_len (headers c) + cache_len (blocks c).

Definition sst_cache_clear (c : SstPageCache) : SstPageCache :=
  MkSstPageCache (cache_clear (headers c)) (cache_clear (blocks c)) (cache_config c).

(** Coherence of both caches with what the files hold. *)
Definition sst_coherent (th : HeaderId -> option Page) (tb : PageId -> option Page) (c : SstPageCache) : Prop :=
  coherent th (headers c) /\ coherent tb (blocks c).

Lemma fetch_header_coherent th tb c id load p :
  sst_coherent th tb c -> load = Ok p -> th id = Some p ->
  exists c', fetch_header id load c = (Ok p, c') /\ sst_coherent th tb c'.
Proof.
  intros [Hh Hb] Hl Ht. unfold fetch_header.
  destruct (coherent_load th _ id load p Hh Hl Ht) as (h & -> & Hh'). eexists. split; [done|]. by split.
Qed.

Lemma fetch_block_coherent th tb c id load p :
  sst_coherent th tb c -> load = Ok p -> tb id = Some p ->
  exists c', fetch_block id load c = (Ok p, c') /\ sst_coherent th tb c'.
Proof.
  intros [Hh Hb] Hl Ht. unfold fetch_block.
  destruct (coherent_load tb _ id load p Hb Hl Ht) as (b & -> & Hb'). eexists. split; [done|]. by split.
Qed.

Definition size_ok (s : SizeConfig) : Prop :=
  match s with SizeUnbounded => True | SizePages n | SizeBytes n => 0 <= n end.

Lemma sst_cache_new_coherent th tb config :
  size_ok (cache_size config) -> sst_coherent th tb (SstPageCache_new config).
Proof.
  intros Hs. assert (Hb : budget_ok (budget_of (cache_size config))) by (by destruct (cache_size config)).
  split; cbn.
  - destruct (cache_new_wf (P := Policies.Lru HeaderId) (V := Page) (budget_of (cache_size config)) Lru_new) as [H1 H2]; [exact I | exact Hb |].
    repeat split; try done; try apply H1.
  - destruct (cache_new_wf (P := Policies.Lru PageId) (V := Page) (budget_of (cache_size config)) Lru_new) as [H1 H2]; [exact I | exact Hb |].
    repeat split; try done; try apply H1.
Qed.

(** The header and the block cache do not share a budget. *)
Lemma fetch_block_headers c id load : headers (fetch_block id load c).2 = headers c.
Proof. unfold fetch_block. by destruct (get_or_load id load (blocks c)). Qed.

Lemma fetch_header_blocks c id load : blocks (fetch_header id load c).2 = blocks c.
Proof. unfold fetch_header. by destruct (get_or_load id load (headers c)). Qed.

(** ** Witness *)

