(* ===== verification/SstHeader.v ===== *)
(** * Bloom filter and SSTable header
      ([crates/lsm/src/storage/bloom.rs], [header.rs])

    [bloom.rs] wraps the [fastbloom] crate, which is a parameter here (class
    [FastBloom]) with the laws the store relies on ([FastBloomOk]): an inserted
    key stays contained, and a filter rebuilt from its raw blocks and its hash
    count is the filter.  [header.rs] is the file-tail root and the index shard
    with their binary format. *)

From Stdlib Require Import Strings.Byte ZArith Lia.
From stdpp Require Import prelude list strings.
From S2P Require Import Prelude Codec LsmKey.
Local Open Scope Z_scope.

(** ** The bloom filter *)

Class FastBloom : Type := {
  fastbloom : Type;
  with_num_bits (bits seed items : Z) : fastbloom;
  from_vec (blocks : list Z) (seed hashes : Z) : fastbloom;
  fb_insert : fastbloom -> list byte -> fastbloom;
  fb_contains : fastbloom -> list byte -> bool;
  fb_as_slice : fastbloom -> list Z;
  fb_num_hashes : fastbloom -> Z;
}.

Definition SEED : Z := 0x6c736d5f626c6f6f6d5f7365656421.

Class FastBloomOk `{!FastBloom} : Type := {
  fb_wf : fastbloom -> Prop;
  fb_wf_new bits items : fb_wf (with_num_bits bits SEED items);
  fb_wf_insert f k : fb_wf f -> fb_wf (fb_insert f k);
  fb_insert_contains f k : fb_contains (fb_insert f k) k = true;
  fb_insert_keeps f k k' : fb_contains f k = true -> fb_contains (fb_insert f k') k = true;
  fb_blocks_u64 f : fb_wf f -> Forall is_u64 (fb_as_slice f);
  fb_hashes_u32 f : fb_wf f -> is_u32 (fb_num_hashes f);
  fb_rebuild f : fb_wf f -> from_vec (fb_as_slice f) SEED (fb_num_hashes f) = f;
}.

(** [usize::saturating_mul]. *)
Definition saturating_mul (a b : Z) : Z := Z.min (a * b) u64_max.

Section bloom.
Context `{FB : !FastBloom}.

Record BloomFilter : Type := MkBloom { bloom_inner : fastbloom }.

Definition bloom_build (config : BloomConfig) (n_keys : Z) (keys : list (list byte)) : BloomFilter :=
  let bits := Z.max (saturating_mul (bits_per_key config) n_keys) 1 in
  MkBloom (foldl fb_insert (with_num_bits bits SEED (Z.max n_keys 1)) keys).

Definition bloom_contains (b : BloomFilter) (k : list byte) : bool := fb_contains (bloom_inner b) k.
Definition bloom_blocks (b : BloomFilter) : list Z := fb_as_slice (bloom_inner b).
Definition bloom_num_hashes (b : BloomFilter) : Z := fb_num_hashes (bloom_inner b).
Definition bloom_from_blocks (blocks : list Z) (num_hashes : Z) : BloomFilter :=
  MkBloom (from_vec blocks SEED num_hashes).

(** ** Header data *)

Record BlockMeta : Type := Meta {
  min_key : list byte; max_key : list byte; moffset : Z; mlen : Z }.
Abbreviation ChunkRef := BlockMeta.

Inductive Index : Type :=
| Inline (blocks : list BlockMeta)
| Sharded (chunks : list ChunkRef).

Inductive Header : Type :=
| Root (sst_id : Z) (range : KeyRange) (bloom : BloomFilter) (size_bytes : Z) (index : Index)
| Child (sst_id : Z) (blocks : list BlockMeta).

Definition HEADER_MAGIC : Z := 0x53535431.
Definition HEADER_VERSION : Z := 2.
Definition ROLE_ROOT : Z := 0.
Definition ROLE_CHILD : Z := 1.
Definition INDEX_INLINE : Z := 0.
Definition INDEX_SHARDED : Z := 1.

(** ** Encoding *)

Definition meta_encode (m : BlockMeta) : list byte :=
  put_bytes (min_key m) ++ put_bytes (max_key m) ++ be_bytes 8 (moffset m) ++ be_bytes 4 (mlen m).

Definition meta_decode : decoder BlockMeta := fun bytes =>
  '(mn, b1) ← get_bytes bytes;
  '(mx, b2) ← get_bytes b1;
  '(off, b3) ← get_u64 b2;
  '(len, b4) ← get_u32 b3;
  Ok (Meta mn mx off len, b4).

Definition meta_wf (m : BlockMeta) : Prop :=
  fits_u32 (min_key m) /\ fits_u32 (max_key m) /\ is_u64 (moffset m) /\ is_u32 (mlen m).

#[local] Instance meta_wire : Wire BlockMeta :=
  {| wire_encode := meta_encode; wire_decode := meta_decode |}.

Definition put_metas (metas : list BlockMeta) : list byte :=
  be_bytes 4 (wrap32 (Z.of_nat (length metas))) ++ encode_all metas.

Definition get_metas : decoder (list BlockMeta) := fun bytes =>
  '(count, rest) ← get_u32 bytes;
  decode_n (Z.to_nat count) rest.

Definition encode_bloom (b : BloomFilter) : list byte :=
  be_bytes 4 (bloom_num_hashes b)
  ++ be_bytes 4 (wrap32 (Z.of_nat (length (bloom_blocks b))))
  ++ encode_all (bloom_blocks b).

Definition decode_bloom : decoder BloomFilter := fun bytes =>
  '(num_hashes, b1) ← get_u32 bytes;
  '(count, b2) ← get_u32 b1;
  '(blocks, b3) ← decode_n (A := Z) (Z.to_nat count) b2;
  Ok (bloom_from_blocks blocks num_hashes, b3).

Definition header_encode (h : Header) : list byte :=
  be_bytes 4 HEADER_MAGIC ++ be_bytes 2 HEADER_VERSION ++
  match h with
  | Root id range bloom size index =>
      [byte_of ROLE_ROOT] ++ be_bytes 8 id
      ++ put_bytes (rmin range) ++ put_bytes (rmax range)
      ++ be_bytes 8 size ++ encode_bloom bloom
      ++ match index with
         | Inline blocks => [byte_of INDEX_INLINE] ++ put_metas blocks
         | Sharded chunks => [byte_of INDEX_SHARDED] ++ put_metas chunks
         end
  | Child id blocks => [byte_of ROLE_CHILD] ++ be_bytes 8 id ++ put_metas blocks
  end.

Definition header_decode : decoder Header := fun bytes =>
  '(magic, b1) ← get_u32 bytes;
  if negb (magic =? HEADER_MAGIC) then Err (BadMagic HEADER_MAGIC magic) else
  '(version, b2) ← get_u16 b1;
  if negb (version =? HEADER_VERSION) then Err (UnsupportedVersion version) else
  '(role, b3) ← get_u8 b2;
  '(id, b4) ← get_u64 b3;
  if role =? ROLE_ROOT then
    '(mn, b5) ← get_bytes b4;
    '(mx, b6) ← get_bytes b5;
    '(size, b7) ← get_u64 b6;
    '(bloom, b8) ← decode_bloom b7;
    '(tag, b9) ← get_u8 b8;
    if tag =? INDEX_INLINE then
      '(metas, b10) ← get_metas b9; Ok (Root id (Range mn mx) bloom size (Inline metas), b10)
    else if tag =? INDEX_SHARDED then
      '(metas, b10) ← get_metas b9; Ok (Root id (Range mn mx) bloom size (Sharded metas), b10)
    else Err (UnknownOpType tag)
  else if role =? ROLE_CHILD then
    '(metas, b5) ← get_metas b4; Ok (Child id metas, b5)
  else Err (UnknownOpType role).

(** The fields fit their widths. *)
Definition metas_wf (l : list BlockMeta) : Prop :=
  Forall meta_wf l /\ Z.of_nat (length l) <= u32_max.

Context `{FBOk : !FastBloomOk}.

Definition bloom_wf (b : BloomFilter) : Prop :=
  fb_wf (bloom_inner b) /\ Z.of_nat (length (bloom_blocks b)) <= u32_max.

Definition index_metas (i : Index) : list BlockMeta :=
  match i with Inline l | Sharded l => l end.

Definition header_wf (h : Header) : Prop :=
  match h with
  | Root id range bloom size index =>
      is_u64 id /\ fits_u32 (rmin range) /\ fits_u32 (rmax range) /\ is_u64 size
      /\ bloom_wf bloom /\ metas_wf (index_metas index)
  | Child id blocks => is_u64 id /\ metas_wf blocks
  end.

(** ** Facts *)

Lemma foldl_insert_wf l f : fb_wf f -> fb_wf (foldl fb_insert f l).
Proof. revert f. induction l as [|k l IH]; intros f H; [done|]. by apply IH, fb_wf_insert. Qed.

Lemma foldl_insert_keeps l f k : fb_contains f k = true -> fb_contains (foldl fb_insert f l) k = true.
Proof. revert f. induction l as [|k' l IH]; intros f H; [done|]. by apply IH, fb_insert_keeps. Qed.

Lemma bloom_build_wf config n keys : fb_wf (bloom_inner (bloom_build config n keys)).
Proof. apply foldl_insert_wf, fb_wf_new. Qed.

(** No false negatives: a filter contains every key it was built from. *)
Lemma bloom_build_contains config n keys k : k ∈ keys -> bloom_contains (bloom_build config n keys) k = true.
Proof.
  unfold bloom_contains, bloom_build. cbn [bloom_inner].
  generalize (with_num_bits (Z.max (saturating_mul (bits_per_key config) n) 1) SEED (Z.max n 1)) as f.
  induction keys as [|k' keys IH]; intros f H; [by apply not_elem_of_nil in H|]. cbn [foldl].
  apply elem_of_cons in H as [->|H]; [|by apply IH].
  apply foldl_insert_keeps, fb_insert_contains.
Qed.

Lemma meta_decode_encode m rest : meta_wf m -> meta_decode (meta_encode m ++ rest) = Ok (m, rest).
Proof.
  destruct m. intros (H1 & H2 & H3 & H4). cbn in *. unfold meta_encode, meta_decode.
  cbn [min_key max_key moffset mlen].
  rewrite <- !app_assoc, get_bytes_app by done. bind_ok. rewrite get_bytes_app by done. bind_ok.
  rewrite get_u64_app by done. bind_ok. by rewrite get_u32_app.
Qed.

#[local] Instance meta_wire_ok : WireOk BlockMeta :=
  {| wire_wf := meta_wf; wire_round_trip := meta_decode_encode |}.

Lemma get_put_metas l rest : metas_wf l -> get_metas (put_metas l ++ rest) = Ok (l, rest).
Proof.
  intros [H1 H2]. unfold get_metas, put_metas, wrap32.
  rewrite Z.mod_small, <- app_assoc, get_u32_app by ulia. bind_ok. rewrite Nat2Z.id.
  by apply decode_n_encode_all.
Qed.

Lemma decode_encode_bloom b rest : bloom_wf b -> decode_bloom (encode_bloom b ++ rest) = Ok (b, rest).
Proof.
  intros [H1 H2]. unfold decode_bloom, encode_bloom, wrap32.
  rewrite Z.mod_small, <- !app_assoc, get_u32_app by (try apply fb_hashes_u32; done || ulia). bind_ok.
  rewrite get_u32_app by ulia. bind_ok. rewrite Nat2Z.id, decode_n_encode_all.
  - bind_ok. unfold bloom_from_blocks, bloom_blocks, bloom_num_hashes. rewrite fb_rebuild by done.
    by destruct b.
  - by apply fb_blocks_u64.
Qed.

Lemma header_decode_encode h rest : header_wf h -> header_decode (header_encode h ++ rest) = Ok (h, rest).
Proof.
  intros H. unfold header_decode, header_encode.
  rewrite <- !app_assoc, get_u32_app by (unfold HEADER_MAGIC; ulia). bind_ok. cbn [negb Z.eqb Pos.eqb HEADER_MAGIC].
  rewrite get_u16_app by (unfold HEADER_VERSION; ulia). bind_ok. cbn [negb Z.eqb Pos.eqb HEADER_VERSION].
  destruct h as [id [mn mx] bloom size index | id blocks]; cbn [header_wf rmin rmax] in *.
  - destruct H as (H1 & H2 & H3 & H4 & H5 & H6).
    rewrite <- !app_assoc. cbn [app]. rewrite get_u8_app, byteZ_byte_of. bind_ok.
    change (ROLE_ROOT mod 256 =? ROLE_ROOT) with true. cbv iota.
    rewrite get_u64_app by done. bind_ok.
    rewrite get_bytes_app by done. bind_ok. rewrite get_bytes_app by done. bind_ok.
    rewrite get_u64_app by done. bind_ok. rewrite decode_encode_bloom by done. bind_ok.
    destruct index as [l|l]; cbn [app index_metas] in *; rewrite get_u8_app, byteZ_byte_of; bind_ok.
    + change (INDEX_INLINE mod 256 =? INDEX_INLINE) with true. cbv iota. by rewrite get_put_metas.
    + change (INDEX_SHARDED mod 256 =? INDEX_INLINE) with false.
      change (INDEX_SHARDED mod 256 =? INDEX_SHARDED) with true. cbv iota. by rewrite get_put_metas.
  - destruct H as (H1 & H2). rewrite <- !app_assoc. cbn [app]. rewrite get_u8_app, byteZ_byte_of. bind_ok.
    rewrite get_u64_app by done. bind_ok.
    change (ROLE_CHILD mod 256 =? ROLE_ROOT) with false.
    change (ROLE_CHILD mod 256 =? ROLE_CHILD) with true. cbv iota. by rewrite get_put_metas.
Qed.

(** A header, root or index shard, inline or sharded, decodes to itself
    whatever follows it, with its bloom filter rebuilt from the raw blocks. *)
Theorem header_round_trip h rest :
  header_wf h -> header_decode (header_encode h ++ rest) = Ok (h, rest).
Proof. apply header_decode_encode. Qed.

(** Sizes: an encoded header is at least as long as its lists. *)
Lemma length_meta_encode m : (20 <= length (meta_encode m))%nat.
Proof. unfold meta_encode. rewrite !length_app, !length_put_bytes, !length_be_bytes. lia. Qed.

Lemma length_put_metas l : (length l <= length (put_metas l))%nat.
Proof.
  unfold put_metas. rewrite length_app, length_be_bytes.
  enough (length l <= length (encode_all l))%nat by lia.
  induction l as [|m l IH]; [done|]. unfold encode_all in *. cbn [flat_map length].
  rewrite length_app. change (wire_encode m) with (meta_encode m). pose proof (length_meta_encode m). lia.
Qed.

Lemma length_encode_bloom b : (length (bloom_blocks b) <= length (encode_bloom b))%nat.
Proof.
  unfold encode_bloom. rewrite !length_app, !length_be_bytes.
  enough (length (bloom_blocks b) <= length (encode_all (bloom_blocks b)))%nat by lia.
  induction (bloom_blocks b) as [|m l IH]; [done|]. unfold encode_all in *. cbn [flat_map length].
  rewrite length_app. change (wire_encode m) with (be_bytes 8 m). rewrite length_be_bytes. lia.
Qed.

Lemma length_root_encode id range bloom size index :
  (length (bloom_blocks bloom) + length (index_metas index)
   <= length (header_encode (Root id range bloom size index)))%nat.
Proof.
  unfold header_encode. rewrite !length_app. pose proof (length_encode_bloom bloom).
  destruct index as [l|l]; cbn [index_metas]; rewrite !length_app; pose proof (length_put_metas l); lia.
Qed.

Lemma length_child_encode id blocks : (length blocks <= length (header_encode (Child id blocks)))%nat.
Proof. unfold header_encode. rewrite !length_app. pose proof (length_put_metas blocks). lia. Qed.
End bloom.

Abbreviation ChunkRef := BlockMeta (only parsing).

(** ** A concrete filter

    One 64-bit word and one hash, the key's value modulo 64: an instance that
    shows the laws of [FastBloomOk] can hold. *)

Module TinyBloom.
Definition slot (k : list byte) : Z := be_value k mod 64.

#[export] Instance tiny_bloom : FastBloom := {|
  fastbloom := Z * Z;
  with_num_bits _ _ _ := (0, 1);
  from_vec blocks _ hashes := (default 0 (head blocks), hashes);
  fb_insert f k := (Z.setbit f.1 (slot k), f.2);
  fb_contains f k := Z.testbit f.1 (slot k);
  fb_as_slice f := [f.1];
  fb_num_hashes f := f.2 |}.

Lemma slot_range k : 0 <= slot k < 64.
Proof. apply Z.mod_pos_bound. lia. Qed.

#[export] Instance tiny_bloom_ok : FastBloomOk.
Proof.
  refine {| fb_wf f := is_u64 f.1 /\ f.2 = 1 |}; cbn.
  - done.
  - intros [w h] k [Hw Hh]. cbn in *. split; [|done]. pose proof (slot_range k) as Hs.
    assert (Hl : Z.log2 w < 64).
    { destruct (Z.eq_dec w 0) as [->|]; [cbn; lia|]. apply Z.log2_lt_pow2; ulia. }
    split.
    + apply Z.bits_iff_nonneg_ex. exists 64. intros m Hm.
      rewrite Z.setbit_neq by lia. apply Z.bits_above_log2; ulia.
    + unfold u64_max. enough (Z.setbit w (slot k) < 2 ^ 64) by lia.
      rewrite Z.setbit_spec'. apply Z.log2_lt_cancel.
      rewrite Z.log2_pow2 by lia. rewrite Z.log2_lor; [|ulia|apply Z.pow_nonneg; lia].
      rewrite Z.log2_pow2 by lia. apply Z.max_lub_lt; lia.
  - intros [w h] k. apply Z.setbit_eq. apply slot_range.
  - intros [w h] k k'. cbn. intros H. rewrite Z.setbit_eqb by apply slot_range. rewrite H. apply orb_true_r.
  - intros [w h] [Hw _]. by constructor.
  - intros [w h] [_ ->]. cbn. ulia.
  - intros [w h] _. done.
Defined.
End TinyBloom.

Import TinyBloom.

