(* ===== verification/SsTable.v ===== *)
(** * SSTable files ([crates/lsm/src/storage/sstable.rs])

    A directory of table files is a map from table ids to file bytes.  [write]
    packs sorted entries into page-aligned blocks, indexes them inline or in
    child shards, and ends the file with the root header and its length;
    [open], [get] and the lazy [BlockStream] read through the page cache, which
    is threaded through every read.  The facts are stated for a written file
    and every cache coherent with it. *)

From Stdlib Require Import Strings.Byte ZArith Lia Sorted.
From stdpp Require Import prelude list strings gmap.
From S2P Require Import Prelude Codec LsmKey Memtable Journal DataBlock Iterator Policies MemoCache SstHeader.
Local Open Scope Z_scope.

(** ** Slices of a list: [slice::chunks] *)

Fixpoint chunks_loop {A} (fuel n : nat) (l : list A) : list (list A) :=
  match fuel, l with
  | O, _ | _, [] => []
  | S f, _ => take n l :: chunks_loop f n (drop n l)
  end.

Definition chunks {A} (n : nat) (l : list A) : list (list A) := chunks_loop (length l) n l.

(** The files of an [sstables] directory, by table id. *)
Abbreviation sst_dir := (gmap Z (list byte)).

Section sstable.
Context `{FB : !FastBloom}.

(** ** Building a table *)

(** The inner loop of [build]: entries go into the current block until the
    next would exceed the target. *)
Fixpoint fill_block (target block_size : nat) (max : list byte) (data : list byte) (entries : list KeyValue)
  : list byte * list byte * list KeyValue :=
  match entries with
  | [] => (data, max, [])
  | e :: rest =>
      let esize := entry_size e in
      if ((0 <? block_size) && (target <? block_size + esize))%nat then (data, max, entries)
      else fill_block target (block_size + esize) (user_key (key e)) (data ++ kv_encode e) rest
  end.

(** Zero padding to the next multiple of [target]. *)
Definition pad (target : nat) (data : list byte) : list byte :=
  let rem := (length data mod target)%nat in
  if (rem =? 0)%nat then data else data ++ replicate (target - rem) x00.

(** The outer loop, one block per turn; [fuel] is at least the entries left. *)
Fixpoint build_loop (fuel target : nat) (data : list byte) (entries : list KeyValue)
  : list byte * list BlockMeta :=
  match fuel, entries with
  | O, _ | _, [] => (data, [])
  | S n, e :: _ =>
      let offset := length data in
      let mn := user_key (key e) in
      let '(data1, mx, rest) := fill_block target 0 mn data entries in
      let m := Meta mn mx (Z.of_nat offset) (wrap32 (Z.of_nat (length data1 - offset))) in
      let '(data2, ms) := build_loop n target (pad target data1) rest in
      (data2, m :: ms)
  end.

Record Built : Type := MkBuilt {
  b_buf : list byte; b_blocks : list BlockMeta; b_bloom : BloomFilter; b_range : KeyRange; b_size : Z }.

Definition build (config : TableConfig) (entries : list KeyValue) : Built :=
  let target := Nat.max (page_size_bytes (page_config config)) 1 in
  let '(data, blocks) := build_loop (length entries) target [] entries in
  let bloom := bloom_build (bloom_config config) (Z.of_nat (length entries))
                 ((fun e => user_key (key e)) <$> entries) in
  let range := match head blocks, last blocks with
    | Some f, Some l => Range (min_key f) (max_key l)
    | _, _ => Range [] [] end in
  MkBuilt data blocks bloom range (Z.of_nat (length data)).

(** The loop of [append_shards] over the chunks. *)
Fixpoint append_shards (id : Z) (buf : list byte) (slices : list (list BlockMeta))
  : list byte * list ChunkRef :=
  match slices with
  | [] => (buf, [])
  | s :: rest =>
      let bytes := header_encode (Child id s) in
      let c := Meta (from_option min_key [] (head s)) (from_option max_key [] (last s))
                 (Z.of_nat (length buf)) (wrap32 (Z.of_nat (length bytes))) in
      let '(buf', cs) := append_shards id (buf ++ bytes) rest in
      (buf', c :: cs)
  end.

(** What precedes the root in the file, and the root. *)
Definition sst_parts (id : Z) (config : TableConfig) (entries : list KeyValue) : list byte * Header :=
  let b := build config entries in
  let per_chunk := Nat.max (blocks_per_chunk (page_config config)) 1 in
  let '(buf, index) :=
    if (length (b_blocks b) <=? per_chunk)%nat then (b_buf b, Inline (b_blocks b))
    else let '(buf, cs) := append_shards id (b_buf b) (chunks per_chunk (b_blocks b)) in
         (buf, Sharded cs) in
  (buf, Root id (b_range b) (b_bloom b) (b_size b) index).

Definition sst_bytes (id : Z) (config : TableConfig) (entries : list KeyValue) : list byte :=
  let '(buf, root) := sst_parts id config entries in
  let root_bytes := header_encode root in
  buf ++ root_bytes ++ be_bytes 4 (wrap32 (Z.of_nat (length root_bytes))).

(** [SsTable::write]: [File::create] replaces what was there. *)
Definition sst_write (env : io_env) (id : Z) (config : TableConfig) (entries : list KeyValue) (dir : sst_dir)
  : sst_dir * res io_error unit :=
  let bytes := sst_bytes id config entries in
  match on_write env with
  | IoFail n e => (<[id := take n bytes]> dir, Err e)
  | IoDone => (<[id := bytes]> dir,
               match on_sync env with None => Ok tt | Some e => Err e end)
  end.

(** ** Reading pages *)

Definition read_header_page (dir : sst_dir) (id : Z) : res io_error Page :=
  match dir !! id with
  | None => Err IoNotFound
  | Some file =>
      let file_len := Z.of_nat (length file) in
      if file_len <? 4 then Err (IoInvalidData "sstable file too small") else
      let header_len := be_value (drop (length file - 4) file) in
      if file_len <? header_len + 4 then Err (IoInvalidData "header_len exceeds file size") else
      Ok (slice (length file - (4 + Z.to_nat header_len)) (Z.to_nat header_len) file)
  end.

(** Seeking past the end is allowed; the read then comes up short. *)
Definition read_range (dir : sst_dir) (id offset len : Z) : res io_error Page :=
  match dir !! id with
  | None => Err IoNotFound
  | Some file =>
      if (len =? 0) || (offset + len <=? Z.of_nat (length file))
      then Ok (slice (Z.to_nat offset) (Z.to_nat len) file)
      else Err IoUnexpectedEof
  end.

(** ** The table handle *)

Record SsTable : Type := MkSsTable {
  t_id : Z; t_range : KeyRange; t_bloom : BloomFilter; t_size : Z; t_index : Index }.

Definition lsm_of_decode (e : DecodeError) : LsmError := LInternal (OfDecode e).

Definition sst_open (dir : sst_dir) (id : Z) (c : SstPageCache) : res LsmError SsTable * SstPageCache :=
  let '(page, c') := fetch_header (HRoot id) (read_header_page dir id) c in
  (p ← map_err lsm_of_io page;
   '(h, _) ← map_err lsm_of_decode (header_decode p);
   match h with
   | Root id range bloom size index => Ok (MkSsTable id range bloom size index)
   | Child _ _ => Err (LInternal (Text "sstable tail is not a root header"))
   end, c').

Definition covering (metas : list BlockMeta) (k : list byte) : option BlockMeta :=
  List.find (fun m => bytes_leb (min_key m) k && bytes_leb k (max_key m)) metas.

Definition load_child (dir : sst_dir) (t : SsTable) (cref : ChunkRef) (c : SstPageCache)
  : res LsmError (list BlockMeta) * SstPageCache :=
  let '(page, c') := fetch_header (HChild (t_id t) (moffset cref))
                       (read_range dir (t_id t) (moffset cref) (mlen cref)) c in
  (p ← map_err lsm_of_io page;
   '(h, _) ← map_err lsm_of_decode (header_decode p);
   match h with
   | Child _ blocks => Ok blocks
   | Root _ _ _ _ _ => Err (LInternal (Text "expected child header, got root"))
   end, c').

Definition locate_block (dir : sst_dir) (t : SsTable) (k : list byte) (c : SstPageCache)
  : res LsmError (option BlockMeta) * SstPageCache :=
  match t_index t with
  | Inline blocks => (Ok (covering blocks k), c)
  | Sharded chunks =>
      match covering chunks k with
      | None => (Ok None, c)
      | Some cref =>
          let '(r, c') := load_child dir t cref c in
          (blocks ← r; Ok (covering blocks k), c')
      end
  end.

Definition sst_get (dir : sst_dir) (t : SsTable) (k : list byte) (max_seq : Z) (c : SstPageCache)
  : res LsmError (option KeyValue) * SstPageCache :=
  if negb (range_contains (t_range t) k) || negb (bloom_contains (t_bloom t) k) then (Ok None, c) else
  let '(located, c1) := locate_block dir t k c in
  match located with
  | Err e => (Err e, c1)
  | Panic => (Panic, c1)
  | Ok None => (Ok None, c1)
  | Ok (Some block) =>
      let '(page, c2) := fetch_block (MkPageId (t_id t) (moffset block))
                           (read_range dir (t_id t) (moffset block) (mlen block)) c1 in
      (p ← map_err lsm_of_io page;
       data ← map_err lsm_of_decode (block_decode p);
       Ok (List.find (fun kv => bool_decide (user_key (key kv) = k) && (seq (key kv) <=? max_seq)) data), c2)
  end.

(** ** The lazy scan *)

Inductive Cursor : Type :=
| CInline (next : nat)
| CSharded (next_chunk : nat) (child : list BlockMeta) (next_in_child : nat).

Record BlockStream : Type := MkStream {
  s_table : SsTable; s_start : bound (list byte); s_end : bound (list byte); s_max_seq : Z;
  s_cursor : Cursor; s_current : list KeyValue; s_done : bool }.

Definition with_cursor (cur : Cursor) (s : BlockStream) : BlockStream :=
  MkStream (s_table s) (s_start s) (s_end s) (s_max_seq s) cur (s_current s) (s_done s).
Definition with_current (l : list KeyValue) (s : BlockStream) : BlockStream :=
  MkStream (s_table s) (s_start s) (s_end s) (s_max_seq s) (s_cursor s) l (s_done s).
Definition finished (s : BlockStream) : BlockStream :=
  MkStream (s_table s) (s_start s) (s_end s) (s_max_seq s) (s_cursor s) (s_current s) true.

Definition sst_scan (t : SsTable) (start end_ : bound (list byte)) (max_seq : Z) : BlockStream :=
  MkStream t start end_ max_seq
    (match t_index t with Inline _ => CInline 0 | Sharded _ => CSharded 0 [] 0 end) [] false.

Definition block_overlaps (b : BlockMeta) (start end_ : bound (list byte)) : bool :=
  let entirely_below := match start with
    | Included s => bytes_ltb (max_key b) s
    | Excluded s => bytes_leb (max_key b) s
    | Unbounded => false end in
  let entirely_above := match end_ with
    | Included e => bytes_ltb e (min_key b)
    | Excluded e => bytes_leb e (min_key b)
    | Unbounded => false end in
  negb (entirely_below || entirely_above).

(** [while *next < metas.len() { .. }]: the first overlapping meta from [next]
    on, and the position after it. *)
Fixpoint next_overlap (metas : list BlockMeta) (start end_ : bound (list byte)) (next : nat)
  : option BlockMeta * nat :=
  match metas with
  | [] => (None, next)
  | b :: rest => if block_overlaps b start end_ then (Some b, S next)
                 else next_overlap rest start end_ (S next)
  end.

(** The loop of [next_block]; [fuel] bounds the shards loaded in one call. *)
Fixpoint next_block (dir : sst_dir) (fuel : nat) (s : BlockStream) (c : SstPageCache)
  : option (res ReadError BlockMeta) * BlockStream * SstPageCache :=
  match fuel with
  | O => (None, s, c)
  | S n =>
      match s_cursor s with
      | CInline next =>
          match t_index (s_table s) with
          | Sharded _ => (Some Panic, s, c)
          | Inline blocks =>
              let '(b, next') := next_overlap (drop next blocks) (s_start s) (s_end s) next in
              (Ok <$> b, with_cursor (CInline next') s, c)
          end
      | CSharded next_chunk child next_in_child =>
          match next_overlap (drop next_in_child child) (s_start s) (s_end s) next_in_child with
          | (Some b, ni) => (Some (Ok b), with_cursor (CSharded next_chunk child ni) s, c)
          | (None, ni) =>
              match t_index (s_table s) with
              | Inline _ => (Some Panic, s, c)
              | Sharded chunks =>
                  match next_overlap (drop next_chunk chunks) (s_start s) (s_end s) next_chunk with
                  | (None, nc) => (None, with_cursor (CSharded nc child ni) s, c)
                  | (Some cref, nc) =>
                      let id := t_id (s_table s) in
                      let '(page, c1) := fetch_header (HChild id (moffset cref))
                                           (read_range dir id (moffset cref) (mlen cref)) c in
                      let s1 := with_cursor (CSharded nc child ni) s in
                      match page with
                      | Panic => (Some Panic, s1, c1)
                      | Err e => (Some (Err (RInternal (OfIo e))), s1, c1)
                      | Ok p =>
                          match header_decode p with
                          | Ok (Child _ blocks, _) =>
                              next_block dir n (with_cursor (CSharded nc blocks 0) s) c1
                          | Ok (Root _ _ _ _ _, _) =>
                              (Some (Err (RInternal (Text "expected child header, got root"))), s1, c1)
                          | Err e => (Some (Err (RInternal (OfDecode e))), s1, c1)
                          | Panic => (Some Panic, s1, c1)
                          end
                      end
                  end
              end
          end
      end
  end.

Definition entry_visible (start end_ : bound (list byte)) (max_seq : Z) (kv : KeyValue) : bool :=
  (seq (key kv) <=? max_seq) && in_bounds (user_key (key kv)) start end_.

Definition load_entries (dir : sst_dir) (s : BlockStream) (block : BlockMeta) (c : SstPageCache)
  : res ReadError (list KeyValue) * SstPageCache :=
  let id := t_id (s_table s) in
  let '(page, c') := fetch_block (MkPageId id (moffset block))
                       (read_range dir id (moffset block) (mlen block)) c in
  (p ← map_err (fun e => RInternal (OfIo e)) page;
   data ← map_err (fun e => RInternal (OfDecode e)) (block_decode p);
   Ok (List.filter (entry_visible (s_start s) (s_end s) (s_max_seq s)) data), c').

(** [BlockStream::next]; [fuel] bounds the blocks without a visible entry that
    one call skips, plus one. *)
Fixpoint stream_next (dir : sst_dir) (fuel : nat) (s : BlockStream) (c : SstPageCache)
  : option item * BlockStream * SstPageCache :=
  match s_current s with
  | kv :: rest => (Some (Ok kv), with_current rest s, c)
  | [] =>
      if s_done s then (None, s, c) else
      match fuel with
      | O => (None, s, c)
      | S n =>
          match next_block dir (S (length (index_metas (t_index (s_table s))))) s c with
          | (Some (Ok block), s1, c1) =>
              match load_entries dir s1 block c1 with
              | (Ok entries, c2) => stream_next dir n (with_current entries s1) c2
              | (Err e, c2) => (Some (Err e), finished s1, c2)
              | (Panic, c2) => (Some Panic, finished s1, c2)
              end
          | (Some (Err e), s1, c1) => (Some (Err e), finished s1, c1)
          | (Some Panic, s1, c1) => (Some Panic, finished s1, c1)
          | (None, s1, c1) => (None, finished s1, c1)
          end
      end
  end.
End sstable.
