(* ===== verification/SsTableRead.v ===== *)
(** * Reading a well-formed table

    What [SsTable::get] and [BlockStream] return for a table whose index
    describes its entries ([table_ok]), whatever the coherent page cache they
    read through.  [SsTableWrite.v] shows that [write] produces such tables. *)

From Stdlib Require Import Strings.Byte ZArith Lia Sorted.
From stdpp Require Import prelude list strings gmap.
From S2P Require Import Prelude Codec LsmKey Memtable Journal DataBlock Iterator Policies MemoCache SstHeader SsTable.
Local Open Scope Z_scope.

Abbreviation uk kv := (user_key (key kv)).
Abbreviation kvs_sorted := (StronglySorted Resolver.kv_le).

(** ** Sorted lists of entries *)

Lemma sorted_app_inv {A} (R : A -> A -> Prop) l1 l2 :
  StronglySorted R (l1 ++ l2) ->
  StronglySorted R l1 /\ StronglySorted R l2 /\ forall x y, x ∈ l1 -> y ∈ l2 -> R x y.
Proof.
  induction l1 as [|a l1 IH]; cbn; intros H.
  { split; [constructor|]. split; [done|]. by intros x y ?%not_elem_of_nil. }
  apply StronglySorted_inv in H as [H Ha]. destruct (IH H) as (H1 & H2 & H3).
  apply Forall_app in Ha as [Ha1 Ha2]. rewrite Forall_forall in Ha2.
  split; [by constructor|]. split; [done|].
  intros x y [->|Hx]%elem_of_cons Hy; [by apply Ha2 | by apply H3].
Qed.

Lemma find_app {A} (f : A -> bool) l1 l2 :
  List.find f (l1 ++ l2) = match List.find f l1 with Some x => Some x | None => List.find f l2 end.
Proof. induction l1 as [|a l1 IH]; [done|]. cbn. by destruct (f a). Qed.

Lemma find_none_iff {A} (f : A -> bool) l : List.find f l = None <-> forall x, x ∈ l -> f x = false.
Proof.
  split.
  - intros H x Hx. apply (List.find_none _ _ H). by apply list_elem_of_In.
  - intros H. induction l as [|a l IH]; [done|]. cbn. rewrite H by apply elem_of_cons, or_introl, eq_refl.
    apply IH. intros x Hx. apply H. apply elem_of_cons. by right.
Qed.

Lemma find_ext_in {A} (f g : A -> bool) l : (forall x, x ∈ l -> f x = g x) -> List.find f l = List.find g l.
Proof.
  induction l as [|a l IH]; intros H; [done|]. cbn.
  rewrite (H a) by apply elem_of_cons, or_introl, eq_refl. rewrite IH; [done|].
  intros x Hx. apply H, elem_of_cons. by right.
Qed.

Lemma filter_none {A} (f : A -> bool) l : (forall x, x ∈ l -> f x = false) -> List.filter f l = [].
Proof.
  induction l as [|a l IH]; intros H; [done|]. cbn.
  rewrite (H a) by apply elem_of_cons, or_introl, eq_refl. apply IH.
  intros x Hx. apply H, elem_of_cons. by right.
Qed.

Lemma elem_of_concat_lookup {A} (ls : list (list A)) i l x : ls !! i = Some l -> x ∈ l -> x ∈ concat ls.
Proof.
  intros Hl Hx. apply list_elem_of_In, List.in_concat. exists l. split; apply list_elem_of_In; [|done].
  by apply list_elem_of_lookup_2 in Hl.
Qed.

Lemma sorted_concat_lookup {A} (R : A -> A -> Prop) ls i l :
  StronglySorted R (concat ls) -> ls !! i = Some l -> StronglySorted R l.
Proof.
  intros Hs Hl. apply list_elem_of_split_length in Hl as (l1 & l2 & -> & _).
  rewrite concat_app in Hs. apply sorted_app_inv in Hs as (_ & Hs & _). cbn in Hs.
  by apply sorted_app_inv in Hs as (Hs & _).
Qed.

Section read.
Context `{FB : !FastBloom, FBOk : !FastBloomOk}.

(** ** Index entries and the entries they cover *)

(** [m] spans [g]: its keys are those of the first and the last entry. *)
Definition spans (m : BlockMeta) (g : list KeyValue) : Prop :=
  (fun kv => uk kv) <$> head g = Some (min_key m) /\ (fun kv => uk kv) <$> last g = Some (max_key m).

Lemma spans_range m g kv :
  spans m g -> kvs_sorted g -> kv ∈ g -> range_contains (Range (min_key m) (max_key m)) (uk kv) = true.
Proof.
  intros [H1 H2] Hs Hin. apply range_contains_iff. cbn. split.
  - destruct g as [|a g]; [done|]. cbn in H1. injection H1 as <-.
    apply StronglySorted_inv in Hs as [_ Ha]. rewrite Forall_forall in Ha.
    apply elem_of_cons in Hin as [->|Hin]; [reflexivity|]. by apply Resolver.kv_le_uk, Ha.
  - destruct (last g) as [z|] eqn:El; [|done]. cbn in H2. injection H2 as <-.
    apply last_Some in El as [g' ->]. apply sorted_app_inv in Hs as (_ & _ & Hs).
    apply elem_of_app in Hin as [Hin|Hin%list_elem_of_singleton]; [|by subst].
    apply Resolver.kv_le_uk, Hs; [done|]. by apply list_elem_of_singleton.
Qed.

Lemma spans_nonempty m g : spans m g -> g <> [].
Proof. intros [H _] ->. done. Qed.

(** The first index entry that covers [k] leads to the first version of [k],
    if there is one at all, also when versions of [k] straddle two entries. *)
Lemma covering_find metas gs k :
  Forall2 spans metas gs -> kvs_sorted (concat gs) ->
  match covering metas k with
  | Some m => exists i g, metas !! i = Some m /\ gs !! i = Some g
                /\ Resolver.first_version k (concat gs) = Resolver.first_version k g
  | None => Resolver.first_version k (concat gs) = None
  end.
Proof.
  unfold covering, Resolver.first_version. induction 1 as [|m g ms gs Hm _ IH]; cbn; intros Hs; [done|].
  apply sorted_app_inv in Hs as (Hg & Hgs & Hle). rewrite find_app.
  destruct (bytes_leb (min_key m) k && bytes_leb k (max_key m)) eqn:Ec.
  - exists 0%nat, g. do 2 (split; [done|]). destruct (List.find _ g) eqn:Ef; [done|].
    apply find_none_iff. intros x Hx. apply bool_decide_eq_false. intros Ek.
    rewrite find_none_iff in Ef. apply andb_true_iff in Ec as [_ Hmax]. apply bytes_leb_le in Hmax.
    destruct Hm as [_ Hl]. destruct (last g) as [z|] eqn:El; [|done]. cbn in Hl. injection Hl as Hl.
    assert (Hz : z ∈ g) by (apply last_Some in El as [g' ->]; apply elem_of_app; right; by apply list_elem_of_singleton).
    specialize (Ef z Hz). apply bool_decide_eq_false in Ef. apply Ef, bytes_le_antisym.
    + rewrite <- Ek. by apply Resolver.kv_le_uk, Hle.
    + by rewrite Hl.
  - assert (Ef : List.find (fun kv => bool_decide (uk kv = k)) g = None).
    { apply find_none_iff. intros x Hx. apply bool_decide_eq_false. intros <-.
      pose proof (spans_range m g x Hm Hg Hx) as Hr. unfold range_contains in Hr. cbn in Hr. congruence. }
    rewrite Ef. specialize (IH Hgs).
    destruct (List.find _ ms) as [m'|]; [|done]. destruct IH as (i & g' & H1 & H2 & H3).
    exists (S i), g'. done.
Qed.

(** ** Well-formed tables *)

Context (dir : sst_dir) (th : HeaderId -> option Page) (tb : PageId -> option Page).
Abbreviation inv := (sst_coherent th tb).

Definition block_ok (id : Z) (m : BlockMeta) (g : list KeyValue) : Prop :=
  spans m g /\ Forall kv_wf g
  /\ read_range dir id (moffset m) (mlen m) = Ok (block_encode g)
  /\ tb (MkPageId id (moffset m)) = Some (block_encode g).

(** A shard: its metas and, per meta, the entries. *)
Definition chunk_ok (id : Z) (c : ChunkRef) (part : list BlockMeta * list (list KeyValue)) : Prop :=
  let '(s, gs) := part in
  spans c (concat gs) /\ header_wf (Child id s)
  /\ read_range dir id (moffset c) (mlen c) = Ok (header_encode (Child id s))
  /\ th (HChild id (moffset c)) = Some (header_encode (Child id s))
  /\ Forall2 (block_ok id) s gs.

Definition index_ok (id : Z) (idx : Index) (gs : list (list KeyValue)) : Prop :=
  match idx with
  | Inline blocks => Forall2 (block_ok id) blocks gs
  | Sharded cs => exists parts, Forall2 (chunk_ok id) cs parts /\ gs = concat parts.*2
  end.

(** The table [t] holds exactly the sorted entries [es]: its index leads to
    them, its range and its filter admit all their keys. *)
Definition table_ok (t : SsTable) (es : list KeyValue) : Prop :=
  kvs_sorted es
  /\ (exists gs, concat gs = es /\ index_ok (t_id t) (t_index t) gs)
  /\ (forall kv, kv ∈ es -> range_contains (t_range t) (uk kv) = true
                       /\ bloom_contains (t_bloom t) (uk kv) = true).

Lemma block_ok_spans id ms gs : Forall2 (block_ok id) ms gs -> Forall2 spans ms gs.
Proof. intros H. eapply Forall2_impl; [exact H|]. by intros m g (? & _). Qed.

Lemma header_decode_exact h : header_wf h -> header_decode (header_encode h) = Ok (h, []).
Proof. intros H. rewrite <- (app_nil_r (header_encode h)). by apply header_decode_encode. Qed.

(** ** Point lookups *)

Lemma load_child_ok t cref s gs c :
  chunk_ok (t_id t) cref (s, gs) -> inv c ->
  exists c', load_child dir t cref c = (Ok s, c') /\ inv c'.
Proof.
  intros (_ & Hwf & Hr & Ht & _) Hc. unfold load_child.
  destruct (fetch_header_coherent th tb c _ _ _ Hc Hr Ht) as (c' & -> & Hc').
  exists c'. split; [|done]. cbn [map_err]. bind_ok. rewrite header_decode_exact by done. done.
Qed.

(** Locating: the block found holds the first version of [k], if any does. *)
Lemma locate_block_ok t es k c :
  table_ok t es -> inv c ->
  exists r c', locate_block dir t k c = (Ok r, c') /\ inv c' /\
    match r with
    | None => Resolver.first_version k es = None
    | Some m => exists g, block_ok (t_id t) m g /\ (forall kv, kv ∈ g -> kv ∈ es)
                  /\ Resolver.first_version k es = Resolver.first_version k g
    end.
Proof.
  intros (Hs & (gs & <- & Hi) & _) Hc. unfold locate_block. destruct (t_index t) as [blocks|cs]; cbn in Hi.
  - exists (covering blocks k), c. split; [done|]. split; [done|].
    pose proof (covering_find blocks gs k (block_ok_spans _ _ _ Hi) Hs) as Hf.
    destruct (covering blocks k) as [m|]; [|done]. destruct Hf as (i & g & Hm & Hg & ->).
    exists g. split; [by apply (Forall2_lookup_lr _ _ _ _ _ _ Hi Hm Hg)|]. split; [|done].
    intros kv. by apply (elem_of_concat_lookup _ i).
  - destruct Hi as (parts & Hp & ->).
    set (ggs := (fun part : list BlockMeta * list (list KeyValue) => concat part.2) <$> parts).
    assert (Eg : concat (concat parts.*2) = concat ggs).
    { unfold ggs. clear. induction parts as [|[s g] parts IH]; [done|]. cbn. by rewrite concat_app, IH. }
    assert (Hsp : Forall2 spans cs ggs).
    { unfold ggs. apply Forall2_fmap_r. eapply Forall2_impl; [exact Hp|]. by intros m [s g] (? & _). }
    rewrite Eg in Hs |- *. pose proof (covering_find cs ggs k Hsp Hs) as Hf.
    destruct (covering cs k) as [cref|]; [|by exists None, c].
    destruct Hf as (i & g & Hm & Hg & ->). unfold ggs in Hg. rewrite list_lookup_fmap in Hg.
    destruct (parts !! i) as [[s gs]|] eqn:Epart; [|done]. cbn in Hg. injection Hg as <-.
    pose proof (Forall2_lookup_lr _ _ _ _ _ _ Hp Hm Epart) as Hck.
    destruct (load_child_ok t cref s gs c Hck Hc) as (c' & -> & Hc').
    exists (covering s k), c'. split; [done|]. split; [done|].
    destruct Hck as (_ & _ & _ & _ & Hb).
    assert (Hsg : kvs_sorted (concat gs)).
    { apply (sorted_concat_lookup _ ggs i); [done|]. unfold ggs. by rewrite list_lookup_fmap, Epart. }
    pose proof (covering_find s gs k (block_ok_spans _ _ _ Hb) Hsg) as Hf.
    destruct (covering s k) as [m|]; [|done]. destruct Hf as (j & g' & Hm' & Hg' & ->).
    exists g'. split; [by apply (Forall2_lookup_lr _ _ _ _ _ _ Hb Hm' Hg')|]. split; [|done].
    intros kv Hkv. apply (elem_of_concat_lookup _ i (concat gs)); [by unfold ggs; rewrite list_lookup_fmap, Epart|].
    by apply (elem_of_concat_lookup _ j g').
Qed.

Lemma first_version_in k l kv : Resolver.first_version k l = Some kv -> kv ∈ l /\ uk kv = k.
Proof.
  unfold Resolver.first_version. intros H. apply List.find_some in H as [H1 H2].
  split; [by apply list_elem_of_In | by apply bool_decide_eq_true in H2].
Qed.

(** The bounded lookup inside one block, when no version is above the bound. *)
Lemma find_bounded k s g :
  (forall kv, kv ∈ g -> uk kv = k -> seq (key kv) <= s) ->
  List.find (fun kv => bool_decide (uk kv = k) && (seq (key kv) <=? s)) g = Resolver.first_version k g.
Proof.
  intros H. apply find_ext_in. intros kv Hin. case_bool_decide as Hk; [|done]. cbn.
  apply Z.leb_le. by apply H.
Qed.

(** Lookups at a sequence number no version of the key exceeds return its
    newest version, and leave the cache coherent. *)
Lemma sst_get_ok t es k s c :
  table_ok t es -> inv c ->
  (forall kv, kv ∈ es -> uk kv = k -> seq (key kv) <= s) ->
  exists c', sst_get dir t k s c = (Ok (Resolver.first_version k es), c') /\ inv c'.
Proof.
  intros Ht Hc Hseq. unfold sst_get.
  destruct (negb (range_contains (t_range t) k) || negb (bloom_contains (t_bloom t) k)) eqn:Eg.
  { exists c. split; [|done]. destruct (Resolver.first_version k es) as [kv|] eqn:Ef; [|done].
    apply first_version_in in Ef as [Hin <-]. destruct Ht as (_ & _ & Hadm).
    destruct (Hadm kv Hin) as [E1 E2]. by rewrite E1, E2 in Eg. }
  destruct (locate_block_ok t es k c) as (r & c1 & -> & Hc1 & Hr); [done|done|].
  destruct r as [m|]; [|exists c1; split; [by rewrite Hr | done]].
  destruct Hr as (g & (_ & Hwf & Hrd & Htb) & Hsub & ->).
  destruct (fetch_block_coherent th tb c1 _ _ _ Hc1 Hrd Htb) as (c2 & -> & Hc2).
  exists c2. split; [|done]. cbn [map_err]. bind_ok. unfold block_decode.
  rewrite block_decode_loop_encode by done. cbn [map_err]. bind_ok. do 2 f_equal.
  apply find_bounded. intros kv Hin. by apply Hseq, Hsub.
Qed.

(** ** Scans *)

Lemma block_overlaps_range b start end_ :
  block_overlaps b start end_ = overlaps (Range (min_key b) (max_key b)) start end_.
Proof. unfold block_overlaps, overlaps. cbn. by rewrite orb_comm. Qed.

Lemma no_overlap_invisible m g start end_ q :
  spans m g -> kvs_sorted g -> block_overlaps m start end_ = false ->
  List.filter (entry_visible start end_ q) g = [].
Proof.
  intros Hm Hs Ho. apply filter_none. intros kv Hin. unfold entry_visible.
  destruct (in_bounds (uk kv) start end_) eqn:Eb; [|by rewrite andb_false_r].
  rewrite block_overlaps_range in Ho.
  by rewrite (overlaps_complete _ _ _ _ (spans_range m g kv Hm Hs Hin) Eb) in Ho.
Qed.

Lemma no_overlaps_invisible ms gs start end_ q :
  Forall2 spans ms gs -> kvs_sorted (concat gs) ->
  Forall (fun m => block_overlaps m start end_ = false) ms ->
  List.filter (entry_visible start end_ q) (concat gs) = [].
Proof.
  induction 1 as [|m g ms gs Hm _ IH]; intros Hs Ho; [done|]. cbn in *.
  apply sorted_app_inv in Hs as (Hg & Hgs & _). apply Forall_cons in Ho as [Ho Hos].
  rewrite List.filter_app, IH, app_nil_r by done. by apply (no_overlap_invisible m).
Qed.

Lemma next_overlap_spec metas start end_ next :
  match next_overlap metas start end_ next with
  | (Some b, n) => exists pre post, metas = pre ++ b :: post /\ n = (next + S (length pre))%nat
      /\ Forall (fun m => block_overlaps m start end_ = false) pre
  | (None, n) => n = (next + length metas)%nat /\ Forall (fun m => block_overlaps m start end_ = false) metas
  end.
Proof.
  revert next. induction metas as [|m metas IH]; intros next; cbn; [split; [lia | done]|].
  destruct (block_overlaps m start end_) eqn:Eo.
  - exists [], metas. repeat split; [cbn; lia | constructor].
  - specialize (IH (S next)). destruct (next_overlap metas start end_ (S next)) as [[b|] n].
    + destruct IH as (pre & post & -> & -> & Hp). exists (m :: pre), post. repeat split; [cbn; lia|].
      by constructor.
    + destruct IH as [-> Hp]. split; [lia | by constructor].
Qed.

Lemma drop_after {A} next (l pre post : list A) b :
  drop next l = pre ++ b :: post -> drop (next + S (length pre)) l = post.
Proof.
  intros H. rewrite <- drop_drop, H. change (pre ++ b :: post) with (pre ++ [b] ++ post).
  rewrite app_assoc. apply drop_app_exact. rewrite length_app. cbn. lia.
Qed.

(** The blocks a stream has still to visit. *)
Definition pending (s : BlockStream) (rem : list (list KeyValue)) : Prop :=
  let id := t_id (s_table s) in
  match s_cursor s, t_index (s_table s) with
  | CInline next, Inline blocks => Forall2 (block_ok id) (drop next blocks) rem
  | CSharded nc child ni, Sharded cs =>
      exists g1 parts, Forall2 (block_ok id) (drop ni child) g1
        /\ Forall2 (chunk_ok id) (drop nc cs) parts /\ rem = g1 ++ concat parts.*2
  | _, _ => False
  end.

Definition shards_left (s : BlockStream) : nat :=
  match s_cursor s with
  | CInline _ => 0
  | CSharded nc _ _ => length (index_metas (t_index (s_table s))) - nc
  end.

Abbreviation vis s := (List.filter (entry_visible (s_start s) (s_end s) (s_max_seq s))).

Lemma chunks_spans id cs parts : Forall2 (chunk_ok id) cs parts -> Forall2 spans cs ((fun p => concat p.2) <$> parts).
Proof. intros H. apply Forall2_fmap_r. eapply Forall2_impl; [exact H|]. by intros m [s g] (? & _). Qed.

Lemma concat_parts (parts : list (list BlockMeta * list (list KeyValue))) :
  concat (concat parts.*2) = concat ((fun p => concat p.2) <$> parts).
Proof. induction parts as [|[s g] parts IH]; [done|]. cbn. by rewrite concat_app, IH. Qed.

(** Taking the next overlapping block from a list of indexed blocks. *)
Lemma take_overlap id s metas gs next :
  Forall2 (block_ok id) (drop next metas) gs -> kvs_sorted (concat gs) ->
  match next_overlap (drop next metas) (s_start s) (s_end s) next with
  | (Some b, n) => exists pre g post, gs = pre ++ g :: post /\ block_ok id b g
      /\ vis s (concat pre) = [] /\ Forall2 (block_ok id) (drop n metas) post
  | (None, n) => vis s (concat gs) = [] /\ drop n metas = []
  end.
Proof.
  intros H Hs. pose proof (next_overlap_spec (drop next metas) (s_start s) (s_end s) next) as Hn.
  destruct (next_overlap _ _ _ _) as [[b|] n].
  - destruct Hn as (pre & post & E & -> & Hp). rewrite E in H.
    apply Forall2_app_inv_l in H as (gpre & gpost & Hpre & Hpost & ->).
    apply Forall2_cons_inv_l in Hpost as (g & gpost' & Hb & Hpost & ->).
    rewrite concat_app in Hs. apply sorted_app_inv in Hs as (Hs & _ & _).
    exists gpre, g, gpost'. split; [done|]. split; [done|]. split.
    + apply (no_overlaps_invisible pre); [by eapply block_ok_spans | done | done].
    + by rewrite (drop_after _ _ _ _ _ E).
  - destruct Hn as [-> Hp]. split.
    + apply (no_overlaps_invisible (drop next metas)); [by eapply block_ok_spans | done | done].
    + rewrite length_drop. apply drop_ge. lia.
Qed.

Lemma next_block_ok fuel s rem c :
  pending s rem -> kvs_sorted (concat rem) -> inv c -> (shards_left s < fuel)%nat ->
  exists cur c', inv c' /\
    ((next_block dir fuel s c = (None, with_cursor cur s, c') /\ vis s (concat rem) = [])
     \/ exists b pre g post, next_block dir fuel s c = (Some (Ok b), with_cursor cur s, c')
          /\ rem = pre ++ g :: post /\ vis s (concat pre) = []
          /\ block_ok (t_id (s_table s)) b g /\ pending (with_cursor cur s) post).
Proof.
  revert s rem c. induction fuel as [|n IH]; intros s rem c Hp Hs Hc Hf; [lia|]. cbn [next_block].
  unfold pending in Hp. destruct (s_cursor s) as [next|nc child ni] eqn:Ecur;
    destruct (t_index (s_table s)) as [blocks|cs] eqn:Eidx; try done.
  - pose proof (take_overlap _ s blocks rem next Hp Hs) as Ht.
    destruct (next_overlap _ _ _ _) as [[b|] n']; exists (CInline n'), c; (split; [done|]).
    + right. destruct Ht as (pre & g & post & -> & Hb & Hv & Hpost).
      exists b, pre, g, post. repeat split; try done; try apply Hb. unfold pending. cbn. by rewrite Eidx.
    + left. by destruct Ht as [Hv _].
  - destruct Hp as (g1 & parts & H1 & H2 & ->). rewrite concat_app in Hs.
    apply sorted_app_inv in Hs as (Hs1 & Hs2 & _).
    pose proof (take_overlap _ s child g1 ni H1 Hs1) as Ht.
    destruct (next_overlap (drop ni child) _ _ _) as [[b|] ni'].
    + exists (CSharded nc child ni'), c. split; [done|]. right.
      destruct Ht as (pre & g & post & -> & Hb & Hv & Hpost).
      exists b, pre, g, (post ++ concat parts.*2). split; [done|]. split; [by rewrite <- app_assoc|].
      split; [done|]. split; [done|]. unfold pending. cbn. rewrite Eidx. by exists post, parts.
    + destruct Ht as [Hv1 _].
      pose proof (next_overlap_spec (drop nc cs) (s_start s) (s_end s) nc) as Hn.
      destruct (next_overlap (drop nc cs) _ _ _) as [[cref|] nc'].
      * destruct Hn as (pre & post & E & -> & Hpre). pose proof E as E'. rewrite E' in H2.
        apply Forall2_app_inv_l in H2 as (ppre & ppost & Hppre & H2 & ->).
        apply Forall2_cons_inv_l in H2 as ([sh gs] & ppost' & Hck & Hppost & ->).
        rewrite fmap_app, fmap_cons, concat_app, concat_app in Hs2. cbn [concat] in Hs2.
        apply sorted_app_inv in Hs2 as (Hs2 & Hs3 & _).
        assert (Hvp : vis s (concat (concat ppre.*2)) = []).
        { rewrite concat_parts in Hs2 |- *. apply (no_overlaps_invisible pre); [by eapply chunks_spans | done | done]. }
        destruct Hck as (_ & Hwf & Hr & Hth & Hb).
        destruct (fetch_header_coherent th tb c _ _ _ Hc Hr Hth) as (c1 & -> & Hc1).
        rewrite header_decode_exact by done.
        set (s1 := with_cursor _ s).
        destruct (IH s1 (gs ++ concat ppost'.*2) c1) as (cur & c' & Hc' & Hres).
        -- unfold pending, s1. cbn. rewrite Eidx. exists gs, ppost'. rewrite drop_0.
           split; [done|]. split; [|done]. by rewrite (drop_after _ _ _ _ _ E).
        -- exact Hs3.
        -- done.
        -- unfold shards_left in *. rewrite Ecur in Hf. cbn [s1 with_cursor s_cursor s_table].
           rewrite Eidx in *. cbn [index_metas] in *.
           assert (length (drop nc cs) = length (pre ++ cref :: post)) as L by (by rewrite E).
           rewrite length_drop, length_app in L. cbn in L. lia.
        -- exists cur, c'. split; [done|]. unfold s1 in *. cbn [with_cursor s_start s_end s_max_seq s_table s_current s_done] in Hres.
           destruct Hres as [[-> Hv]|(b & pre' & g & post' & -> & Er & Hv & Hbk & Hpend)].
           ++ left. split; [done|]. rewrite concat_app, List.filter_app, Hv1. cbn [app].
              rewrite fmap_app, fmap_cons, concat_app, concat_app, List.filter_app, Hvp. done.
           ++ right. exists b, (g1 ++ concat ppre.*2 ++ pre'), g, post'. split; [done|]. split.
              { rewrite fmap_app, fmap_cons, concat_app. cbn [concat snd]. rewrite Er. by rewrite <- !app_assoc. }
              split; [by rewrite !concat_app, !List.filter_app, Hv1, Hvp, Hv|]. done.
      * exists (CSharded nc' child ni'), c. split; [done|]. left. split; [done|].
        destruct Hn as [_ Hn]. rewrite concat_app, List.filter_app, Hv1. cbn [app].
        rewrite concat_parts in Hs2 |- *.
        apply (no_overlaps_invisible (drop nc cs)); [by eapply chunks_spans | done | done].
Qed.

Lemma load_entries_ok s b g c :
  block_ok (t_id (s_table s)) b g -> inv c ->
  exists c', load_entries dir s b c = (Ok (vis s g), c') /\ inv c'.
Proof.
  intros (_ & Hwf & Hr & Ht) Hc. unfold load_entries.
  destruct (fetch_block_coherent th tb c _ _ _ Hc Hr Ht) as (c' & -> & Hc').
  exists c'. split; [|done]. cbn [map_err]. bind_ok. unfold block_decode.
  by rewrite block_decode_loop_encode.
Qed.

(** A stream that still owes [l]: what is left of the current block, then the
    visible entries of the blocks to visit. *)
Definition owes (s : BlockStream) (rem : list (list KeyValue)) (l : list KeyValue) : Prop :=
  pending s rem /\ kvs_sorted (concat rem) /\ s_done s = false
  /\ l = s_current s ++ vis s (concat rem).

Lemma shards_left_bound s rem :
  pending s rem -> (shards_left s < S (length (index_metas (t_index (s_table s)))))%nat.
Proof. intros _. unfold shards_left. destruct (s_cursor s); lia. Qed.

Lemma stream_next_ok fuel s rem l c :
  owes s rem l -> inv c -> (length rem < fuel)%nat ->
  match l with
  | [] => exists s' c', stream_next dir fuel s c = (None, s', c') /\ inv c'
  | kv :: l' => exists s' c' rem', stream_next dir fuel s c = (Some (Ok kv), s', c') /\ inv c'
                  /\ owes s' rem' l' /\ (length rem' <= length rem)%nat
  end.
Proof.
  revert s rem c. induction fuel as [|n IH]; intros s rem c (Hp & Hs & Hd & El) Hc Hf; [lia|].
  cbn [stream_next]. destruct (s_current s) as [|kv cur] eqn:Ecur.
  - rewrite Hd. cbn [app] in El.
    destruct (next_block_ok _ s rem c Hp Hs Hc (shards_left_bound s rem Hp)) as (cur & c1 & Hc1 & Hres).
    destruct Hres as [[-> Hv]|(b & pre & g & post & -> & -> & Hv & Hb & Hpend)].
    + rewrite El, Hv. eauto.
    + destruct (load_entries_ok (with_cursor cur s) b g c1 Hb Hc1) as (c2 & -> & Hc2).
      rewrite length_app in Hf |- *. cbn [length] in Hf |- *.
      assert (Ho : owes (with_current (vis s g) (with_cursor cur s)) post l).
      { split; [exact Hpend|]. rewrite concat_app in Hs. cbn [concat] in Hs.
        apply sorted_app_inv in Hs as (_ & Hs & _). apply sorted_app_inv in Hs as (_ & Hs & _).
        split; [done|]. split; [done|]. cbn [with_current with_cursor s_current s_start s_end s_max_seq].
        rewrite El, concat_app. cbn [concat]. by rewrite !List.filter_app, Hv. }
      specialize (IH _ post c2 Ho Hc2 ltac:(lia)).
      cbn [with_cursor s_start s_end s_max_seq] in IH |- *.
      destruct l as [|kv l'].
      * exact IH.
      * destruct IH as (s' & c' & rem' & E & Hc' & Ho' & Hl). exists s', c', rem'. split; [exact E|].
        split; [done|]. split; [done|]. lia.
  - cbn [app] in El. subst l. exists (with_current cur s), c, rem. by repeat (split; [done|]).
Qed.

Lemma stream_streams fuel s rem l :
  owes s rem l -> (length rem < fuel)%nat -> streams (stream_next dir fuel) inv s (Ok <$> l).
Proof.
  revert s rem. induction l as [|kv l IH]; intros s rem Ho Hf c Hc;
    pose proof (stream_next_ok fuel s rem _ c Ho Hc Hf) as H.
  - done.
  - destruct H as (s' & c' & rem' & E & Hc' & Ho' & Hl). exists s', c'.
    split; [done|]. split; [done|]. apply (IH s' rem'); [done|lia].
Qed.

(** A scan of a well-formed table streams exactly the visible entries of the
    range, in order; one pull per block is fuel enough. *)
Lemma sst_scan_streams t es start end_ q fuel :
  table_ok t es -> (length es < fuel)%nat ->
  streams (stream_next dir fuel) inv (sst_scan t start end_ q)
    (Ok <$> List.filter (entry_visible start end_ q) es).
Proof.
  intros (Hs & (gs & <- & Hi) & _) Hf.
  assert (Hlen : (length gs <= length (concat gs))%nat).
  { assert (Hne : Forall (fun g => g <> []) gs).
    { destruct (t_index t) as [blocks|cs]; cbn in Hi.
      - apply Forall_forall. intros g Hg. apply list_elem_of_lookup in Hg as [i Hg].
        destruct (Forall2_lookup_r _ _ _ _ _ Hi Hg) as (m & _ & Hm & _). by apply (spans_nonempty m).
      - destruct Hi as (parts & Hp & ->). apply Forall_forall. intros g Hg.
        apply list_elem_of_In, List.in_concat in Hg as (gs & Hgs & Hg).
        apply list_elem_of_In, list_elem_of_fmap in Hgs as ([sh gs'] & -> & Hin).
        apply list_elem_of_lookup in Hin as [i Hin].
        destruct (Forall2_lookup_r _ _ _ _ _ Hp Hin) as (m & _ & (_ & _ & _ & _ & Hb)).
        apply list_elem_of_In, list_elem_of_lookup in Hg as [j Hg].
        destruct (Forall2_lookup_r _ _ _ _ _ Hb Hg) as (m' & _ & Hm & _). by apply (spans_nonempty m'). }
    clear -Hne. induction Hne as [|g gs Hg _ IH]; [done|]. cbn. rewrite length_app.
    destruct g; [done|]. cbn. lia. }
  apply (stream_streams _ _ gs); [|lia].
  split; [|done]. unfold pending, sst_scan. cbn [s_cursor s_table].
  destruct (t_index t) as [blocks|cs]; cbn in Hi; [by rewrite drop_0|].
  destruct Hi as (parts & Hp & ->). exists [], parts. split; [constructor|]. by rewrite drop_0.
Qed.
End read.
