(* ===== verification/SsTableWrite.v ===== *)
(** * What [SsTable::write] produces

    The blocks and shards of a written file sit where its index says, and
    reopening the file gives a table that holds exactly the entries written
    ([SsTableRead.table_ok]).  The page truth a cache must agree with is defined
    from the tables written, so that it only grows when a fresh table is
    added. *)

From Stdlib Require Import Strings.Byte ZArith Lia Sorted.
From stdpp Require Import prelude list strings gmap.
From S2P Require Import Prelude Codec LsmKey Memtable Journal DataBlock Iterator Policies MemoCache SstHeader SsTable SsTableRead.
Local Open Scope Z_scope.

(** ** Lists *)

Lemma concat_chunks {A} (n : nat) (l : list A) : (0 < n)%nat -> concat (chunks n l) = l.
Proof.
  intros Hn. unfold chunks. generalize (Nat.le_refl (length l)). generalize (length l) at 2 3 as fuel.
  intros fuel. revert l. induction fuel as [|f IH]; intros [|a l] Hf; cbn [length] in Hf; try done; [lia|].
  cbn [chunks_loop concat]. rewrite IH; [apply take_drop|]. rewrite length_drop. cbn [length]. lia.
Qed.

Lemma chunks_nonempty {A} (n : nat) (l : list A) : (0 < n)%nat -> Forall (fun s => s <> []) (chunks n l).
Proof.
  intros Hn. unfold chunks. generalize (length l) as fuel. intros fuel. revert l.
  induction fuel as [|f IH]; intros [|a l]; cbn; try constructor; [|apply IH]. by destruct n; [lia|].
Qed.

Lemma Forall2_concat_split {A B} (R : A -> B -> Prop) ls gs :
  Forall2 R (concat ls) gs -> exists gss, gs = concat gss /\ Forall2 (Forall2 R) ls gss.
Proof.
  revert gs. induction ls as [|l ls IH]; cbn; intros gs H.
  - apply Forall2_nil_inv_l in H as ->. exists []. split; [done | constructor].
  - apply Forall2_app_inv_l in H as (g & gs' & Hg & Hgs & ->). destruct (IH _ Hgs) as (gss & -> & H).
    exists (g :: gss). split; [done | by constructor].
Qed.

(** ** Where bytes sit in a file *)

Section write.
Context `{FB : !FastBloom}.

Definition placed (file : list byte) (m : BlockMeta) (bytes : list byte) : Prop :=
  exists pre post, file = pre ++ bytes ++ post /\ moffset m = Z.of_nat (length pre)
    /\ mlen m = Z.of_nat (length bytes).

Lemma placed_app file m bytes more : placed file m bytes -> placed (file ++ more) m bytes.
Proof.
  intros (pre & post & -> & H1 & H2). exists pre, (post ++ more). split; [|done].
  by rewrite <- !app_assoc.
Qed.

Lemma placed_bounds file m bytes :
  placed file m bytes -> Z.of_nat (length file) <= u32_max -> is_u64 (moffset m) /\ is_u32 (mlen m).
Proof. intros (pre & post & -> & -> & ->). rewrite !length_app. ulia. Qed.

Definition page_of (file : list byte) (m : BlockMeta) : list byte :=
  slice (Z.to_nat (moffset m)) (Z.to_nat (mlen m)) file.

Lemma page_of_placed file m bytes : placed file m bytes -> page_of file m = bytes.
Proof. intros (pre & post & -> & E1 & E2). unfold page_of. apply slice_app_exact; lia. Qed.

Lemma read_range_placed (dir : sst_dir) id file m bytes :
  dir !! id = Some file -> placed file m bytes ->
  read_range dir id (moffset m) (mlen m) = Ok bytes.
Proof.
  intros Hd Hp. unfold read_range. rewrite Hd. pose proof (page_of_placed _ _ _ Hp) as E. unfold page_of in E.
  rewrite E. destruct Hp as (pre & post & -> & -> & ->).
  rewrite (proj2 (Z.leb_le _ _)); [by rewrite orb_true_r|]. rewrite !length_app. lia.
Qed.

Definition off_lt (a b : BlockMeta) : Prop := moffset a < moffset b.

Definition find_meta (metas : list BlockMeta) (off : Z) : option BlockMeta :=
  List.find (fun m => moffset m =? off) metas.

Lemma find_meta_in ms m : StronglySorted off_lt ms -> m ∈ ms -> find_meta ms (moffset m) = Some m.
Proof.
  unfold find_meta, off_lt. induction 1 as [|a ms Hs IH Ha]; intros Hin; [by apply not_elem_of_nil in Hin|].
  cbn. apply elem_of_cons in Hin as [->|Hin]; [by rewrite Z.eqb_refl|].
  rewrite Forall_forall in Ha. specialize (Ha m Hin). rewrite (proj2 (Z.eqb_neq _ _)) by lia. by apply IH.
Qed.

(** ** Blocks *)

Lemma length_block_encode g : g <> [] -> (0 < length (block_encode g))%nat.
Proof.
  destruct g as [|e g]; [done|]. intros _. unfold block_encode, encode_all. cbn [flat_map].
  rewrite length_app. change (wire_encode e) with (kv_encode e). rewrite length_kv_encode.
  unfold entry_size. lia.
Qed.

Lemma fill_block_spec target bs mx data es :
  exists g rest, es = g ++ rest
    /\ fill_block target bs mx data es = (data ++ block_encode g, from_option (fun kv => uk kv) mx (last g), rest)
    /\ (bs = 0%nat -> es <> [] -> g <> []).
Proof.
  revert bs mx data. induction es as [|e es IH]; intros bs mx data; cbn [fill_block].
  { exists [], []. cbn. rewrite app_nil_r. by repeat split. }
  destruct ((0 <? bs) && (target <? bs + entry_size e))%nat eqn:Eb.
  - exists [], (e :: es). cbn. rewrite app_nil_r. repeat split. intros ->. by cbn in Eb.
  - destruct (IH (bs + entry_size e)%nat (uk e) (data ++ kv_encode e)) as (g & rest & -> & -> & _).
    exists (e :: g), rest. split; [done|]. split; [|done]. f_equal; f_equal.
    + unfold block_encode, encode_all. cbn [flat_map]. by rewrite <- app_assoc.
    + destruct g as [|a g] using rev_ind; [done|]. by rewrite app_comm_cons, !last_snoc.
Qed.

Lemma pad_app target data : exists z, pad target data = data ++ z.
Proof. unfold pad. case_match; [exists []; by rewrite app_nil_r | by eexists]. Qed.

(** The blocks partition the entries, span them and sit at their offsets. *)
Lemma build_loop_spec fuel target data es :
  (length es <= fuel)%nat ->
  exists gs tail ms, build_loop fuel target data es = (data ++ tail, ms) /\ concat gs = es
    /\ Forall2 spans ms gs
    /\ (Z.of_nat (length (data ++ tail)) <= u32_max ->
        Forall2 (fun m g => placed (data ++ tail) m (block_encode g)) ms gs)
    /\ Forall (fun m => Z.of_nat (length data) <= moffset m) ms
    /\ StronglySorted off_lt ms.
Proof.
  revert data es. induction fuel as [|f IH]; intros data es Hf.
  { destruct es; [|cbn in Hf; lia]. exists [], [], []. cbn. rewrite app_nil_r. repeat split; constructor. }
  destruct es as [|e es].
  { exists [], [], []. cbn. rewrite app_nil_r. repeat split; constructor. }
  cbn [build_loop].
  destruct (fill_block_spec target 0 (uk e) data (e :: es)) as (g & rest & Ees & -> & Hg).
  specialize (Hg eq_refl ltac:(done)). destruct (pad_app target (data ++ block_encode g)) as [z ->].
  pose proof (length_block_encode g Hg) as Hlg.
  destruct (IH ((data ++ block_encode g) ++ z) rest) as (gs & tail & ms & -> & Ec & Hsp & Hpl & Hlo & Hso).
  { apply (f_equal length) in Ees. rewrite length_app in Ees. cbn [length] in *.
    assert (0 < length g)%nat by (destruct g; [done | cbn; lia]). lia. }
  set (m := Meta _ _ _ _).
  assert (Em : mlen m = wrap32 (Z.of_nat (length (block_encode g)))).
  { unfold m. cbn. do 2 f_equal. rewrite length_app. lia. }
  exists (g :: gs), (block_encode g ++ z ++ tail), (m :: ms).
  assert (Ed : ((data ++ block_encode g) ++ z) ++ tail = data ++ block_encode g ++ z ++ tail)
    by (by rewrite <- !app_assoc).
  rewrite Ed in *. split; [done|]. split; [cbn; by rewrite Ec|]. split; [|split; [|split]].
  - constructor; [|done]. split; cbn.
    + destruct g as [|a g]; [done|]. cbn in Ees. by injection Ees as -> _.
    + destruct g as [|a g _] using rev_ind; [done|]. by rewrite last_snoc.
  - intros Hb. constructor; [|by apply Hpl]. exists data, (z ++ tail). split; [done|]. split; [done|].
    rewrite Em. unfold wrap32. apply Z.mod_small. rewrite !length_app in Hb. ulia.
  - constructor; [cbn; lia|]. eapply Forall_impl; [exact Hlo|]. intros x. cbn. rewrite !length_app. lia.
  - constructor; [done|]. eapply Forall_impl; [exact Hlo|]. intros x. unfold off_lt. cbn.
    rewrite !length_app. lia.
Qed.

Lemma spans_concat ms gs o l :
  Forall2 spans ms gs -> ms <> [] ->
  spans (Meta (from_option min_key [] (head ms)) (from_option max_key [] (last ms)) o l) (concat gs).
Proof.
  induction 1 as [|m g ms gs [Hh Hl] H IH]; [done|]. intros _.
  destruct g as [|a g]; [done|]. cbn in Hh. injection Hh as Hh.
  destruct ms as [|m' ms].
  - apply Forall2_nil_inv_l in H as ->. cbn [concat]. rewrite app_nil_r. split; cbn; [by rewrite Hh | done].
  - destruct (IH ltac:(done)) as [_ IHl]. split; cbn [head min_key concat app from_option fmap option_fmap option_map].
    + cbn. by rewrite Hh.
    + cbn [max_key]. change (last (m :: m' :: ms)) with (last (m' :: ms)).
      change (a :: g ++ concat gs) with ((a :: g) ++ concat gs). rewrite last_app.
      cbn [max_key] in IHl. destruct (last (concat gs)); [|done]. exact IHl.
Qed.

(** ** Shards *)

Definition key_span (c : ChunkRef) (s : list BlockMeta) : Prop :=
  min_key c = from_option min_key [] (head s) /\ max_key c = from_option max_key [] (last s).

Lemma length_header_pos h : (0 < length (header_encode h))%nat.
Proof. unfold header_encode. rewrite length_app, length_be_bytes. lia. Qed.

Lemma append_shards_spec id buf slices :
  exists tail cs, append_shards id buf slices = (buf ++ tail, cs)
    /\ Forall2 key_span cs slices
    /\ (Z.of_nat (length (buf ++ tail)) <= u32_max ->
        Forall2 (fun c s => placed (buf ++ tail) c (header_encode (Child id s))) cs slices)
    /\ Forall (fun c => Z.of_nat (length buf) <= moffset c) cs
    /\ StronglySorted off_lt cs.
Proof.
  revert buf. induction slices as [|s slices IH]; intros buf.
  { exists [], []. cbn. rewrite app_nil_r. repeat split; constructor. }
  cbn [append_shards].
  destruct (IH (buf ++ header_encode (Child id s))) as (tail & cs & -> & Hk & Hpl & Hlo & Hso).
  pose proof (length_header_pos (Child id s)) as Hlh.
  set (c := Meta _ _ _ _). exists (header_encode (Child id s) ++ tail), (c :: cs).
  rewrite <- app_assoc in *. split; [done|]. split; [by constructor|]. split; [|split].
  - intros Hb. constructor; [|by apply Hpl]. exists buf, tail. split; [done|]. split; [done|].
    unfold c. cbn. unfold wrap32. apply Z.mod_small. rewrite !length_app in Hb. ulia.
  - constructor; [cbn; lia|]. eapply Forall_impl; [exact Hlo|]. intros x. cbn. rewrite !length_app. lia.
  - constructor; [done|]. eapply Forall_impl; [exact Hlo|]. intros x. unfold off_lt. cbn.
    rewrite !length_app. lia.
Qed.

(** ** The truth of a set of tables

    [tabs] records, per table id, the configuration and the entries its file
    was written from. *)
Abbreviation tables := (gmap Z (TableConfig * list KeyValue)).

Definition root_of (id : Z) (config : TableConfig) (es : list KeyValue) : Header := (sst_parts id config es).2.

Definition root_chunks (h : Header) : list ChunkRef :=
  match h with Root _ _ _ _ (Sharded cs) => cs | _ => [] end.

Definition truth_h (tabs : tables) (h : HeaderId) : option Page :=
  match h with
  | HRoot id => '(config, es) ← tabs !! id; Some (header_encode (root_of id config es))
  | HChild id off =>
      '(config, es) ← tabs !! id;
      c ← find_meta (root_chunks (root_of id config es)) off;
      Some (page_of (sst_bytes id config es) c)
  end.

Definition truth_b (tabs : tables) (p : PageId) : option Page :=
  '(config, es) ← tabs !! pg_table p;
  m ← find_meta (b_blocks (build config es)) (pg_offset p);
  Some (page_of (sst_bytes (pg_table p) config es) m).

Context `{FBOk : !FastBloomOk}.

(** A table the format can hold: sorted entries with fields in range, and a
    file of less than 4 GiB. *)
Definition tab_wf (id : Z) (config : TableConfig) (es : list KeyValue) : Prop :=
  is_u64 id /\ kvs_sorted es /\ Forall kv_wf es /\ Z.of_nat (length (sst_bytes id config es)) <= u32_max.

(** The directory holds the files of [tabs]. *)
Definition dir_holds (dir : sst_dir) (tabs : tables) : Prop :=
  forall id config es, tabs !! id = Some (config, es) ->
    tab_wf id config es /\ dir !! id = Some (sst_bytes id config es).

Abbreviation coherent_with tabs := (sst_coherent (truth_h tabs) (truth_b tabs)).

(** The layout of a written file, in one statement. *)
Lemma sst_layout id config es :
  Z.of_nat (length (sst_bytes id config es)) <= u32_max ->
  let b := build config es in
  exists gs buf index, sst_parts id config es = (buf, Root id (b_range b) (b_bloom b) (b_size b) index)
    /\ concat gs = es /\ Forall2 spans (b_blocks b) gs /\ StronglySorted off_lt (b_blocks b)
    /\ Forall2 (fun m g => placed buf m (block_encode g)) (b_blocks b) gs
    /\ b_size b <= Z.of_nat (length buf) /\ 0 <= b_size b
    /\ match index with
       | Inline blocks => blocks = b_blocks b
       | Sharded cs => exists slices, concat slices = b_blocks b /\ Forall (fun s => s <> []) slices
           /\ Forall2 key_span cs slices /\ StronglySorted off_lt cs
           /\ Forall2 (fun c s => placed buf c (header_encode (Child id s))) cs slices
       end.
Proof.
  intros Hlen b. unfold sst_bytes, sst_parts in Hlen. unfold sst_parts. fold b in Hlen |- *.
  unfold build in b.
  destruct (build_loop_spec (length es) (Nat.max (page_size_bytes (page_config config)) 1) [] es)
    as (gs & data & ms & E & Hc & Hsp & Hpl & _ & Hso); [lia|].
  cbn [app] in *. unfold b in *. rewrite E in *. cbn [b_buf b_blocks b_range b_bloom b_size] in *.
  exists gs. set (n := Nat.max (blocks_per_chunk (page_config config)) 1) in *.
  destruct (length ms <=? n)%nat eqn:En.
  - exists data, (Inline ms). rewrite length_app in Hlen. do 4 (split; [done|]). split; [apply Hpl; lia|].
    by repeat (split; [lia|]).
  - destruct (append_shards_spec id data (chunks n ms)) as (tail & cs & Ea & Hk & Hpa & _ & Hsa).
    rewrite Ea in Hlen |- *. rewrite !length_app in Hlen.
    exists (data ++ tail), (Sharded cs). do 4 (split; [done|]). split; [|split; [|split]].
    + eapply Forall2_impl; [apply Hpl; lia|]. intros m g. apply placed_app.
    + rewrite length_app. lia.
    + lia.
    + exists (chunks n ms). split; [by apply concat_chunks; lia|]. split; [apply chunks_nonempty; lia|].
      split; [done|]. split; [done|]. apply Hpa. rewrite length_app. lia.
Qed.

Lemma spans_fits m g : spans m g -> Forall kv_wf g -> fits_u32 (min_key m) /\ fits_u32 (max_key m).
Proof.
  intros [H1 H2] Hw. rewrite Forall_forall in Hw. split.
  - destruct g as [|a g]; [done|]. injection H1 as <-. apply Hw, elem_of_cons. by left.
  - destruct (last g) as [z|] eqn:El; [|done]. injection H2 as <-. apply Hw.
    apply last_Some in El as [g' ->]. apply elem_of_app. right. by apply list_elem_of_singleton.
Qed.

Lemma metas_wf_placed file ms gs (enc : list KeyValue -> list byte) :
  Forall2 spans ms gs -> Forall (Forall kv_wf) gs ->
  Forall2 (fun m g => placed file m (enc g)) ms gs -> Z.of_nat (length file) <= u32_max -> Forall meta_wf ms.
Proof.
  intros Hsp Hw Hpl Hl. apply Forall_forall. intros m Hin. apply list_elem_of_lookup in Hin as [i Hi].
  destruct (Forall2_lookup_l _ _ _ _ _ Hsp Hi) as (g & Hg & Hs).
  pose proof (Forall2_lookup_lr _ _ _ _ _ _ Hpl Hi Hg) as Hp.
  pose proof (Forall_lookup_1 _ _ _ _ Hw Hg) as Hwg.
  destruct (spans_fits m g Hs Hwg). destruct (placed_bounds _ _ _ Hp Hl). done.
Qed.

Lemma Forall_concat_inv {A} (P : A -> Prop) gs : Forall P (concat gs) -> Forall (Forall P) gs.
Proof.
  induction gs as [|g gs IH]; cbn; [constructor|]. intros [H1 H2]%Forall_app. by constructor; [|apply IH].
Qed.

Section one_table.
Context (dir : sst_dir) (tabs : tables) (id : Z) (config : TableConfig) (es : list KeyValue).
Context (Hdir : dir_holds dir tabs) (Htab : tabs !! id = Some (config, es)).
Abbreviation b := (build config es).
Abbreviation file := (sst_bytes id config es).
Abbreviation th := (truth_h tabs).
Abbreviation tb := (truth_b tabs).

Definition handle (index : Index) : SsTable := MkSsTable id (b_range b) (b_bloom b) (b_size b) index.

Lemma sst_wf : tab_wf id config es.
Proof. by destruct (Hdir _ _ _ Htab). Qed.

Lemma sst_on_disk : dir !! id = Some file.
Proof. by destruct (Hdir _ _ _ Htab). Qed.

Lemma file_split buf root :
  sst_parts id config es = (buf, root) ->
  file = buf ++ header_encode root ++ be_bytes 4 (wrap32 (Z.of_nat (length (header_encode root)))).
Proof. intros E. unfold sst_bytes. by rewrite E. Qed.

Lemma blocks_ok gs buf root :
  sst_parts id config es = (buf, root) -> concat gs = es ->
  Forall2 spans (b_blocks b) gs -> StronglySorted off_lt (b_blocks b) ->
  Forall2 (fun m g => placed buf m (block_encode g)) (b_blocks b) gs ->
  Forall2 (block_ok dir tb id) (b_blocks b) gs.
Proof.
  intros E Hc Hsp Hso Hpl. destruct sst_wf as (_ & _ & Hw & _).
  rewrite <- Hc in Hw. apply Forall_concat_inv in Hw.
  apply Forall2_same_length_lookup. split; [by eapply Forall2_length|].
  intros i m g Hm Hg. pose proof (Forall2_lookup_lr _ _ _ _ _ _ Hsp Hm Hg) as Hs.
  pose proof (Forall2_lookup_lr _ _ _ _ _ _ Hpl Hm Hg) as Hp.
  pose proof (Forall_lookup_1 _ _ _ _ Hw Hg) as Hwg.
  assert (Hpf : placed file m (block_encode g)) by (rewrite (file_split _ _ E); by apply placed_app).
  split; [done|]. split; [done|]. split; [by apply (read_range_placed dir id file), Hpf; apply sst_on_disk|].
  unfold truth_b. cbn [pg_table pg_offset]. rewrite Htab. cbn [mbind option_bind].
  rewrite find_meta_in by (try done; by eapply list_elem_of_lookup_2).
  cbn. by rewrite (page_of_placed _ _ _ Hpf).
Qed.

(** The index of the written root leads to the entries. *)
Lemma written_index :
  exists buf index gs, sst_parts id config es = (buf, Root id (b_range b) (b_bloom b) (b_size b) index)
    /\ concat gs = es /\ index_ok dir th tb id index gs /\ Forall2 spans (b_blocks b) gs
    /\ Forall meta_wf (index_metas index) /\ 0 <= b_size b <= u32_max.
Proof.
  pose proof sst_wf as (Hid & Hs & Hw & Hl).
  destruct (sst_layout id config es Hl) as (gs & buf & index & E & Hc & Hsp & Hso & Hpl & Hb1 & Hb2 & Hidx).
  pose proof (blocks_ok gs buf _ E Hc Hsp Hso Hpl) as Hbk.
  pose proof (file_split _ _ E) as Ef.
  assert (Hbl : Z.of_nat (length buf) <= u32_max) by (rewrite Ef, length_app in Hl; lia).
  exists buf, index, gs. split; [done|]. split; [done|].
  rewrite <- Hc in Hw. apply Forall_concat_inv in Hw.
  destruct index as [blocks|cs].
  - subst blocks. repeat (split; [done|]). split; [|lia]. cbn. by apply (metas_wf_placed buf _ gs block_encode).
  - destruct Hidx as (slices & Ec & Hne & Hk & Hsc & Hpc).
    rewrite <- Ec in Hbk. destruct (Forall2_concat_split _ _ _ Hbk) as (gss & Eg & Hbs).
    rewrite Eg in Hw. apply Forall_concat_inv in Hw.
    pose proof (metas_wf_placed buf _ gs block_encode Hsp ltac:(rewrite Eg; by apply Forall_concat) Hpl Hbl) as Hmw.
    rewrite <- Ec in Hmw. apply Forall_concat_inv in Hmw.
    assert (Hck : Forall2 (chunk_ok dir th tb id) cs (zip slices gss)).
    { apply Forall2_same_length_lookup. split.
      { rewrite length_zip_with, (Forall2_length _ _ _ Hk), (Forall2_length _ _ _ Hbs). lia. }
      intros i c [sl gs'] Hci Hz. apply lookup_zip_Some in Hz as [Hsl Hgs'].
      pose proof (Forall2_lookup_lr _ _ _ _ _ _ Hpc Hci Hsl) as Hp.
      destruct (Forall2_lookup_lr _ _ _ _ _ _ Hk Hci Hsl) as [Emn Emx].
      pose proof (Forall2_lookup_lr _ _ _ _ _ _ Hbs Hsl Hgs') as Hb.
      pose proof (Forall_lookup_1 _ _ _ _ Hne Hsl) as Hn.
      assert (Hpf : placed file c (header_encode (Child id sl))) by (rewrite Ef; by apply placed_app).
      split; [|split; [|split; [|split; [|done]]]].
      - pose proof (spans_concat sl gs' (moffset c) (mlen c) (block_ok_spans _ _ _ _ _ Hb) Hn) as Hsp'.
        rewrite <- Emn, <- Emx in Hsp'. by destruct c.
      - split; [done|]. split; [by apply (Forall_lookup_1 _ _ _ _ Hmw Hsl)|].
        pose proof (length_child_encode id sl). destruct Hp as (pre & post & Ep & _ & _).
        rewrite Ep, !length_app in Hbl. lia.
      - by apply (read_range_placed dir id file), Hpf; apply sst_on_disk.
      - unfold truth_h. rewrite Htab. cbn [mbind option_bind]. unfold root_of. rewrite E. cbn [snd root_chunks].
        rewrite find_meta_in by (try done; by eapply list_elem_of_lookup_2).
        cbn. by rewrite (page_of_placed _ _ _ Hpf). }
    assert (Hz : (zip slices gss).*2 = gss)
      by (apply snd_zip; by rewrite (Forall2_length _ _ _ Hbs)).
    assert (Hcs : Forall2 spans cs ((fun p => concat p.2) <$> zip slices gss)) by (by eapply chunks_spans).
    split; [exists (zip slices gss); split; [done | by rewrite Hz]|]. split; [done|]. split; [|lia]. cbn [index_metas].
    assert (Hkw : Forall (Forall kv_wf) ((fun p : list BlockMeta * list (list KeyValue) => concat p.2) <$> zip slices gss)).
    { apply Forall_fmap, Forall_forall. intros [sl gs'] Hin. apply elem_of_zip_r in Hin.
      rewrite Forall_forall in Hw. cbn. by apply Forall_concat, Hw. }
    apply Forall_forall. intros c Hin. apply list_elem_of_lookup in Hin as [i Hi].
    destruct (Forall2_lookup_l _ _ _ _ _ Hcs Hi) as (g & Hg & Hspc).
    destruct (Forall2_lookup_l _ _ _ _ _ Hpc Hi) as (sl & _ & Hp).
    destruct (spans_fits c g Hspc (Forall_lookup_1 _ _ _ _ Hkw Hg)).
    by destruct (placed_bounds _ _ _ Hp Hbl).
Qed.

Lemma wrap32_small z : is_u32 z -> wrap32 z = z.
Proof. intros H. apply Z.mod_small. ulia. Qed.

Lemma read_root_ok : read_header_page dir id = Ok (header_encode (root_of id config es)).
Proof.
  pose proof sst_wf as (_ & _ & _ & Hl). unfold read_header_page. rewrite sst_on_disk.
  unfold root_of. destruct (sst_parts id config es) as [buf root] eqn:E. cbn [snd].
  pose proof (file_split _ _ E) as Ef. rewrite Ef in Hl |- *.
  set (h := header_encode root) in *. rewrite !length_app, length_be_bytes in Hl |- *.
  rewrite (proj2 (Z.ltb_ge _ _)) by lia.
  rewrite (app_assoc buf h), (drop_app_exact (buf ++ h)) by (rewrite length_app; lia).
  rewrite wrap32_small, be_u32 by ulia. rewrite (proj2 (Z.ltb_ge _ _)) by lia.
  f_equal. rewrite <- app_assoc. apply slice_app_exact; lia.
Qed.

Lemma range_fits gs : concat gs = es -> Forall2 spans (b_blocks b) gs ->
  fits_u32 (rmin (b_range b)) /\ fits_u32 (rmax (b_range b))
  /\ forall kv, kv ∈ es -> range_contains (b_range b) (uk kv) = true.
Proof.
  intros Hc Hsp. pose proof sst_wf as (_ & Hs & Hw & _). 
  unfold build in Hsp |- *. destruct (build_loop _ _ _ es) as [data ms].
  cbn [b_blocks b_range] in *. destruct ms as [|m ms].
  - apply Forall2_nil_inv_l in Hsp as ->. cbn in Hc. rewrite <- Hc.
    split; [unfold fits_u32; cbn; ulia|]. split; [unfold fits_u32; cbn; ulia|].
    by intros kv ?%not_elem_of_nil.
  - pose proof (spans_concat _ _ 0 0 Hsp ltac:(done)) as Hsc. rewrite Hc in Hsc.
    destruct (last (m :: ms)) as [z|] eqn:El; [|by apply last_None in El]. cbn [head] in *.
    cbn [from_option] in Hsc. destruct (spans_fits _ _ Hsc Hw) as [H1 H2]. split; [done|]. split; [done|].
    intros kv Hin. by apply (spans_range _ _ _ Hsc Hs Hin).
Qed.

Lemma root_wf : header_wf (root_of id config es).
Proof.
  pose proof sst_wf as (Hid & _ & _ & Hl).
  destruct written_index as (buf & index & gs & E & Hc & _ & Hsp & Hm & Hb).
  pose proof (file_split _ _ E) as Ef. unfold root_of. rewrite E. cbn [snd header_wf].
  destruct (range_fits gs Hc Hsp) as (H1 & H2 & _).
  pose proof (length_root_encode id (b_range b) (b_bloom b) (b_size b) index) as Hr.
  rewrite Ef, !length_app in Hl. split; [done|]. split; [done|]. split; [done|]. split; [ulia|].
  split; [split; [|lia]|split; [done|lia]].
  unfold build. destruct (build_loop _ _ _ es). apply bloom_build_wf.
Qed.

Lemma sst_open_ok c :
  coherent_with tabs c ->
  exists t c', sst_open dir id c = (Ok t, c') /\ coherent_with tabs c' /\ table_ok dir th tb t es
    /\ t_id t = id /\ t_range t = b_range b.
Proof.
  intros Hcoh. unfold sst_open.
  destruct (fetch_header_coherent th tb c (HRoot id) _ _ Hcoh read_root_ok) as (c' & -> & Hc').
  { unfold truth_h. by rewrite Htab. }
  destruct written_index as (buf & index & gs & E & Hc & Hidx & Hsp & _ & _).
  exists (handle index), c'. cbn [map_err]. bind_ok. rewrite header_decode_exact by apply root_wf.
  cbn [map_err]. bind_ok. unfold root_of. rewrite E. cbn [snd]. split; [done|]. split; [done|].
  split; [|done]. pose proof sst_wf as (_ & Hs & _ & _). split; [done|].
  split; [by exists gs|]. intros kv Hin. split; [by apply (range_fits gs Hc Hsp)|].
  cbn [handle t_bloom]. unfold build. destruct (build_loop _ _ _ es). cbn [b_bloom].
  apply bloom_build_contains, list_elem_of_fmap. by exists kv.
Qed.
End one_table.

(** ** Adding a table *)

Lemma sst_coherent_mono (tabs tabs' : tables) c :
  tabs ⊆ tabs' -> coherent_with tabs c -> coherent_with tabs' c.
Proof.
  intros Hsub [Hh Hb].
  assert (Hl : forall id v, tabs !! id = Some v -> tabs' !! id = Some v) by (intros; by eapply lookup_weaken).
  split.
  - destruct Hh as (? & ? & ? & H). repeat (split; [done|]). intros k v Hv. specialize (H k v Hv).
    unfold truth_h in *. destruct k as [id|id off]; destruct (tabs !! id) as [[cf es]|] eqn:E; cbn in H; try done;
      by rewrite (Hl _ _ E).
  - destruct Hb as (? & ? & ? & H). repeat (split; [done|]). intros k v Hv. specialize (H k v Hv).
    unfold truth_b in *. destruct (tabs !! pg_table k) as [[cf es]|] eqn:E; cbn in H; try done.
    by rewrite (Hl _ _ E).
Qed.

Lemma dir_holds_insert dir tabs id config es :
  dir_holds dir tabs -> tab_wf id config es ->
  dir_holds (<[id := sst_bytes id config es]> dir) (<[id := (config, es)]> tabs).
Proof.
  intros Hd Hw id' cf' es' Hl. rewrite lookup_insert in Hl. rewrite lookup_insert. case_decide as Ei.
  - injection Hl as <- <-. subst id'. done.
  - by apply Hd.
Qed.

Lemma dir_holds_other dir tabs id bytes :
  dir_holds dir tabs -> tabs !! id = None -> dir_holds (<[id := bytes]> dir) tabs.
Proof.
  intros Hd Hn id' cf' es' Hl. destruct (Hd _ _ _ Hl) as [? H]. split; [done|].
  rewrite lookup_insert. case_decide; [congruence | done].
Qed.

(** ** Correctness of a written table *)

(** Writing sorted entries, reopening the table through any coherent page
    cache and looking a key up at a sequence number none of its versions
    exceeds returns the key's newest version in the table, tombstones included,
    or nothing exactly when the table has no version of it; this holds for
    inline and sharded indexes, and when versions of a key straddle blocks. *)
Theorem written_table_get dir tabs id config es c k max_seq :
  dir_holds dir tabs -> tabs !! id = Some (config, es) -> coherent_with tabs c ->
  (forall kv, kv ∈ es -> uk kv = k -> seq (key kv) <= max_seq) ->
  exists t c1 c2, sst_open dir id c = (Ok t, c1)
    /\ sst_get dir t k max_seq c1 = (Ok (Resolver.first_version k es), c2)
    /\ coherent_with tabs c2.
Proof.
  intros Hd Ht Hc Hseq. destruct (sst_open_ok dir tabs id config es Hd Ht c Hc) as (t & c1 & Eo & Hc1 & Hok & _).
  destruct (sst_get_ok dir _ _ t es k max_seq c1 Hok Hc1 Hseq) as (c2 & Eg & Hc2). by exists t, c1, c2.
Qed.

(** Scanning a written table through any coherent page cache yields, in
    order and without an error, exactly the entries whose key is in the bounds
    and whose sequence number is at most [max_seq]; pulling one item more than
    there are entries exhausts the stream. *)
Theorem written_table_scan dir tabs id config es c start end_ max_seq fuel :
  dir_holds dir tabs -> tabs !! id = Some (config, es) -> coherent_with tabs c ->
  (length es < fuel)%nat ->
  exists t c1 c2, sst_open dir id c = (Ok t, c1)
    /\ drain_iter (stream_next dir fuel) fuel (sst_scan t start end_ max_seq) c1
       = (Ok <$> List.filter (entry_visible start end_ max_seq) es, c2)
    /\ coherent_with tabs c2.
Proof.
  intros Hd Ht Hc Hf. destruct (sst_open_ok dir tabs id config es Hd Ht c Hc) as (t & c1 & Eo & Hc1 & Hok & _).
  pose proof (sst_scan_streams dir _ _ t es start end_ max_seq fuel Hok Hf) as Hs.
  destruct (streams_drain _ _ _ _ c1 fuel Hs Hc1) as (c2 & Ed & Hc2).
  { rewrite length_fmap. pose proof (List.filter_length_le (entry_visible start end_ max_seq) es). lia. }
  by exists t, c1, c2.
Qed.
End write.

(** ** Witnesses *)

Import TinyBloom.

(** A block per entry and a shard per block. *)
Definition tiny_config : TableConfig := MkTableConfig 1 BloomConfig_default (MkPageConfig 20 1).
Definition two_versions : list KeyValue :=
  [KV (IKey [x61] 2 Put) [x6e]; KV (IKey [x61] 1 Put) [x6f]].
Definition tiny_dir : sst_dir := {[ 1 := sst_bytes 1 tiny_config two_versions ]}.
Definition tiny_tables : gmap Z (TableConfig * list KeyValue) := {[ 1 := (tiny_config, two_versions) ]}.

Lemma tiny_holds : dir_holds tiny_dir tiny_tables.
Proof.
  intros id config es H. unfold tiny_tables in H. apply lookup_singleton_Some in H as [<- [= <- <-]].
  split; [|unfold tiny_dir; apply lookup_singleton_Some; done].
  split; [ulia|]. split.
  - repeat constructor; unfold Resolver.kv_le, cmp_le; by vm_compute.
  - split; [|by vm_compute]. repeat constructor; unfold fits_u32; cbn; ulia.
Qed.

(** A lookup below the newest version can miss an existing one: the two
    versions of the key sit in two blocks, both blocks cover the key, and the
    lookup reads the first only.  The table holds version 1 and a lookup at
    sequence number 1 answers that there is none, though a scan at the same
    sequence number finds it. *)
Theorem straddling_version_missed :
  match sst_open tiny_dir 1 (SstPageCache_new PageCacheConfig_default) with
  | (Ok t, c) =>
      (sst_get tiny_dir t [x61] 1 c).1 = Ok None
      /\ (drain_iter (stream_next tiny_dir 3) 3 (sst_scan t Unbounded Unbounded 1) c).1
         = [Ok (KV (IKey [x61] 1 Put) [x6f])]
  | _ => False
  end.
Proof. vm_compute. split; reflexivity. Qed.
