(* ===== verification/Manifest.v ===== *)
(** * The manifest ([crates/lsm/src/manifest/mod.rs], [codec.rs],
      [manager.rs], and [compaction.rs])

    The tree's structure ([Version]) as the fold of the edits a journal holds,
    the edit codec, and the manager that opens, commits, checkpoints and
    garbage-collects.  The manifests directory is explicit state: the
    [MANIFEST-n] files by number and the text of [CURRENT]. *)

From Stdlib Require Import Strings.Byte ZArith Lia.
From stdpp Require Import prelude list strings gmap.
From S2P Require Import Prelude Codec Journal LsmKey.
Local Open Scope Z_scope.

(** ** Structure *)

Record RunDescriptor : Type := MkRun { run_level : Z; run_id : Z; run_files : list Z }.

Inductive ManifestOp : Type :=
| AddRun (r : RunDescriptor)
| RemoveRun (id : Z)
| SetNextSstId (next : Z)
| SetLastSeq (s : Z).

Record ManifestEdit : Type := MkEdit { ops : list ManifestOp }.

Definition edit_new : ManifestEdit := MkEdit [].
Definition add_run (r : RunDescriptor) (e : ManifestEdit) : ManifestEdit := MkEdit (ops e ++ [AddRun r]).
Definition remove_run (id : Z) (e : ManifestEdit) : ManifestEdit := MkEdit (ops e ++ [RemoveRun id]).
Definition set_next_sst_id (n : Z) (e : ManifestEdit) : ManifestEdit := MkEdit (ops e ++ [SetNextSstId n]).
Definition set_last_seq (s : Z) (e : ManifestEdit) : ManifestEdit := MkEdit (ops e ++ [SetLastSeq s]).

Record Version : Type := MkVersion { runs : list RunDescriptor; next_sst_id : Z; last_seq : Z }.
Definition Version_default : Version := MkVersion [] 0 0.

Definition apply_op (v : Version) (op : ManifestOp) : Version :=
  match op with
  | AddRun r => MkVersion (runs v ++ [r]) (next_sst_id v) (last_seq v)
  | RemoveRun id => MkVersion (List.filter (fun r => negb (run_id r =? id)) (runs v)) (next_sst_id v) (last_seq v)
  | SetNextSstId n => MkVersion (runs v) n (last_seq v)
  | SetLastSeq s => MkVersion (runs v) (next_sst_id v) s
  end.

Definition apply (v : Version) (e : ManifestEdit) : Version := foldl apply_op v (ops e).

Definition to_snapshot (v : Version) : ManifestEdit :=
  MkEdit ((AddRun <$> runs v) ++ [SetNextSstId (next_sst_id v)] ++ [SetLastSeq (last_seq v)]).

Definition runs_in (v : Version) (level : Z) : list RunDescriptor :=
  List.filter (fun r => run_level r =? level) (runs v).

Definition live_files (v : Version) : list Z := flat_map run_files (runs v).

(** ** Compaction jobs ([compaction.rs]) *)

Inductive CompactionKind : Type := KFlush | KMerge.

Record CompactionJob : Type := MkJob {
  kind : CompactionKind; source_level : Z; target_level : Z; inputs : list Z }.

Definition job_flush : CompactionJob := MkJob KFlush 0 0 [].
Definition job_merge (source target : Z) (ins : list Z) : CompactionJob := MkJob KMerge source target ins.

Definition to_edit (j : CompactionJob) (output : RunDescriptor) : ManifestEdit :=
  foldl (fun e id => remove_run id e) (add_run output edit_new) (inputs j).

(** ** The edit codec *)

Definition OP_ADD_RUN : Z := 1.
Definition OP_REMOVE_RUN : Z := 2.
Definition OP_SET_NEXT_SST_ID : Z := 3.
Definition OP_SET_LAST_SEQ : Z := 4.

Definition op_encode (op : ManifestOp) : list byte :=
  match op with
  | AddRun r => [byte_of OP_ADD_RUN] ++ be_bytes 4 (run_level r) ++ be_bytes 8 (run_id r)
                ++ be_bytes 4 (wrap32 (Z.of_nat (length (run_files r)))) ++ encode_all (run_files r)
  | RemoveRun id => [byte_of OP_REMOVE_RUN] ++ be_bytes 8 id
  | SetNextSstId n => [byte_of OP_SET_NEXT_SST_ID] ++ be_bytes 8 n
  | SetLastSeq s => [byte_of OP_SET_LAST_SEQ] ++ be_bytes 8 s
  end.

Definition edit_encode (e : ManifestEdit) : list byte :=
  be_bytes 4 (wrap32 (Z.of_nat (length (ops e)))) ++ flat_map op_encode (ops e).

(** The codec's own readers, with their own error. *)
Definition mtake (bytes : list byte) (n : Z) : res JournalError (list byte * list byte) :=
  if Z.of_nat (length bytes) <? n then Err (JDecode (Text "truncated manifest edit"))
  else Ok (take (Z.to_nat n) bytes, drop (Z.to_nat n) bytes).

Abbreviation mdecoder A := (list byte -> res JournalError (A * list byte)).

Definition mget_u8 : mdecoder Z := fun bytes => '(h, rest) ← mtake bytes 1; Ok (be_value h, rest).
Definition mget_u32 : mdecoder Z := fun bytes => '(h, rest) ← mtake bytes 4; Ok (be_value h, rest).
Definition mget_u64 : mdecoder Z := fun bytes => '(h, rest) ← mtake bytes 8; Ok (be_value h, rest).

Fixpoint mget_n {A} (get : mdecoder A) (count : nat) : mdecoder (list A) := fun bytes =>
  match count with
  | O => Ok ([], bytes)
  | S n => '(a, rest) ← get bytes; '(l, rest') ← mget_n get n rest; Ok (a :: l, rest')
  end.

Definition op_decode : mdecoder ManifestOp := fun bytes =>
  '(tag, b1) ← mget_u8 bytes;
  if tag =? OP_ADD_RUN then
    '(level, b2) ← mget_u32 b1;
    '(run, b3) ← mget_u64 b2;
    '(count, b4) ← mget_u32 b3;
    '(files, b5) ← mget_n mget_u64 (Z.to_nat count) b4;
    Ok (AddRun (MkRun level run files), b5)
  else if tag =? OP_REMOVE_RUN then '(id, b2) ← mget_u64 b1; Ok (RemoveRun id, b2)
  else if tag =? OP_SET_NEXT_SST_ID then '(n, b2) ← mget_u64 b1; Ok (SetNextSstId n, b2)
  else if tag =? OP_SET_LAST_SEQ then '(s, b2) ← mget_u64 b1; Ok (SetLastSeq s, b2)
  else Err (JDecode (TextNum "unknown manifest op " tag)).

Definition edit_decode (bytes : list byte) : res JournalError ManifestEdit :=
  '(count, b1) ← mget_u32 bytes;
  '(l, _) ← mget_n op_decode (Z.to_nat count) b1;
  Ok (MkEdit l).

#[global] Instance ManifestEditCodec : Codec ManifestEdit :=
  {| codec_encode := edit_encode; codec_decode := edit_decode |}.

Definition run_wf (r : RunDescriptor) : Prop :=
  is_u32 (run_level r) /\ is_u64 (run_id r) /\ Forall is_u64 (run_files r)
  /\ Z.of_nat (length (run_files r)) <= u32_max.

Definition op_wf (op : ManifestOp) : Prop :=
  match op with AddRun r => run_wf r | RemoveRun z | SetNextSstId z | SetLastSeq z => is_u64 z end.

Definition edit_wf (e : ManifestEdit) : Prop :=
  Forall op_wf (ops e) /\ fits_u32 (edit_encode e).

Lemma mtake_app (l rest : list byte) n : n = Z.of_nat (length l) -> mtake (l ++ rest) n = Ok (l, rest).
Proof.
  intros ->. unfold mtake. rewrite (proj2 (Z.ltb_ge _ _)) by (rewrite length_app; lia).
  by rewrite Nat2Z.id, take_app_length, drop_app_length.
Qed.

Lemma mget_u8_app b rest : mget_u8 (b :: rest) = Ok (byteZ b, rest).
Proof. unfold mget_u8. change (b :: rest) with ([b] ++ rest). by rewrite mtake_app. Qed.

Lemma mget_u32_app z rest : is_u32 z -> mget_u32 (be_bytes 4 z ++ rest) = Ok (z, rest).
Proof. intros H. unfold mget_u32. rewrite mtake_app by len. bind_ok. by rewrite be_u32. Qed.

Lemma mget_u64_app z rest : is_u64 z -> mget_u64 (be_bytes 8 z ++ rest) = Ok (z, rest).
Proof. intros H. unfold mget_u64. rewrite mtake_app by len. bind_ok. by rewrite be_u64. Qed.

Lemma mget_n_app {A} (get : mdecoder A) (enc : A -> list byte) (P : A -> Prop) l rest :
  (forall a r, P a -> get (enc a ++ r) = Ok (a, r)) -> Forall P l ->
  mget_n get (length l) (flat_map enc l ++ rest) = Ok (l, rest).
Proof.
  intros Hg. induction 1 as [|a l Ha Hl IH]; [done|]. cbn [mget_n flat_map length].
  rewrite <- app_assoc, Hg by done. bind_ok. by rewrite IH.
Qed.

Lemma op_decode_encode op rest : op_wf op -> op_decode (op_encode op ++ rest) = Ok (op, rest).
Proof.
  intros H. unfold op_decode, op_encode. destruct op as [[lv id fs]|z|z|z]; cbn [op_wf run_level run_id run_files] in *.
  - destruct H as (H1 & H2 & H3 & H4). cbn in H1, H2, H3, H4.
    rewrite <- !app_assoc. cbn [app]. rewrite mget_u8_app, byteZ_byte_of. bind_ok.
    change (OP_ADD_RUN mod 256 =? OP_ADD_RUN) with true. cbv iota.
    rewrite mget_u32_app by done. bind_ok. rewrite mget_u64_app by done. bind_ok.
    unfold wrap32. rewrite Z.mod_small, mget_u32_app by ulia. bind_ok. rewrite Nat2Z.id.
    by rewrite (mget_n_app mget_u64 (be_bytes 8) is_u64) by (try done; apply mget_u64_app).
  - rewrite <- !app_assoc. cbn [app]. rewrite mget_u8_app, byteZ_byte_of. bind_ok. cbn. by rewrite mget_u64_app.
  - rewrite <- !app_assoc. cbn [app]. rewrite mget_u8_app, byteZ_byte_of. bind_ok. cbn. by rewrite mget_u64_app.
  - rewrite <- !app_assoc. cbn [app]. rewrite mget_u8_app, byteZ_byte_of. bind_ok. cbn. by rewrite mget_u64_app.
Qed.

Lemma length_ops_encode l : (length l <= length (flat_map op_encode l))%nat.
Proof.
  induction l as [|op l IH]; [done|]. cbn [flat_map length]. rewrite length_app.
  assert (0 < length (op_encode op))%nat by (destruct op; cbn; lia). lia.
Qed.

Lemma edit_decode_encode e : edit_wf e -> edit_decode (edit_encode e) = Ok e.
Proof.
  intros [H Hf]. unfold fits_u32, edit_encode in Hf. rewrite length_app, length_be_bytes in Hf.
  pose proof (length_ops_encode (ops e)).
  unfold edit_decode, edit_encode, wrap32. rewrite Z.mod_small, mget_u32_app by ulia. bind_ok.
  rewrite Nat2Z.id, <- (app_nil_r (flat_map _ _)), (mget_n_app op_decode op_encode op_wf);
    [by destruct e | apply op_decode_encode | done].
Qed.

#[global] Instance ManifestEditCodec_ok : CodecOk ManifestEdit.
Proof.
  refine {| codec_wf := edit_wf |}; [by intros r [] | apply edit_decode_encode].
Defined.

(** ** Facts on versions *)

Lemma apply_app v l1 l2 : foldl apply_op v (l1 ++ l2) = foldl apply_op (foldl apply_op v l1) l2.
Proof. apply foldl_app. Qed.

Lemma apply_adds v l : foldl apply_op v (AddRun <$> l) = MkVersion (runs v ++ l) (next_sst_id v) (last_seq v).
Proof.
  revert v. induction l as [|r l IH]; intros v; cbn; [rewrite app_nil_r; by destruct v|].
  rewrite IH. cbn. by rewrite <- app_assoc.
Qed.

Lemma snapshot_rebuilds v : apply Version_default (to_snapshot v) = v.
Proof. unfold apply, to_snapshot. cbn [ops]. rewrite apply_app, apply_adds. by destruct v. Qed.

Lemma to_edit_ops j out : ops (to_edit j out) = AddRun out :: (RemoveRun <$> inputs j).
Proof.
  unfold to_edit. assert (H : forall e, ops (foldl (fun e id => remove_run id e) e (inputs j)) = ops e ++ (RemoveRun <$> inputs j)).
  { induction (inputs j) as [|i l IH]; intros e; cbn; [by rewrite app_nil_r|].
    rewrite IH. cbn. by rewrite <- app_assoc. }
  by rewrite H.
Qed.

Lemma apply_removes v ids :
  foldl apply_op v (RemoveRun <$> ids)
  = MkVersion (List.filter (fun r => negb (existsb (Z.eqb (run_id r)) ids)) (runs v)) (next_sst_id v) (last_seq v).
Proof.
  revert v. induction ids as [|i ids IH]; intros v; cbn.
  - rewrite List.filter_true. by destruct v.
  - rewrite IH. cbn. f_equal. induction (runs v) as [|r l IHl]; [done|]. cbn.
    destruct (run_id r =? i); cbn; [done|]. destruct (existsb _ ids); cbn; by rewrite IHl.
Qed.

(** Committing a finished compaction job replaces exactly its input runs
    by the output run: every other run stays, in its order, the output is last
    (unless its own id is among the inputs), and the counters do not move. *)
Theorem compaction_swaps_runs v j out :
  ~ out.(run_id) ∈ inputs j ->
  let v' := apply v (to_edit j out) in
  runs v' = List.filter (fun r => negb (existsb (Z.eqb (run_id r)) (inputs j))) (runs v) ++ [out]
  /\ next_sst_id v' = next_sst_id v /\ last_seq v' = last_seq v.
Proof.
  intros Hn v'. unfold v', apply. rewrite to_edit_ops. cbn [foldl]. rewrite apply_removes. cbn.
  split; [|done]. rewrite List.filter_app. f_equal. cbn.
  destruct (existsb (Z.eqb (run_id out)) (inputs j)) eqn:E; [|done].
  apply existsb_exists in E as (x & Hx & <-%Z.eqb_eq). by apply list_elem_of_In in Hx.
Qed.

