(* ===== verification/ManifestManager.v ===== *)
(** * The manifest manager ([crates/lsm/src/manifest/manager.rs])

    Opening, committing, checkpointing and garbage collection over an explicit
    manifests directory: the [MANIFEST-n] files by number and the text of
    [CURRENT].  The commit and the checkpoint take how their I/O goes as an
    argument, so a crash inside either is a reachable directory. *)

From Stdlib Require Import Strings.Byte ZArith Lia.
From stdpp Require Import prelude list strings gmap.
From S2P Require Import Prelude Codec Journal LsmKey Manifest.
Local Open Scope Z_scope.

(** ** Decimal text: [write!(file, "{n}")] and [str::trim().parse::<u64>()]

    [CURRENT] holds ASCII text. *)

Fixpoint dec_digits (fuel : nat) (n : Z) : list byte :=
  match fuel with
  | O => []
  | S f => if n <? 10 then [byte_of (48 + n)]
           else dec_digits f (n / 10) ++ [byte_of (48 + n mod 10)]
  end.

(** A [u64] has at most 20 digits. *)
Definition show_u64 (n : Z) : list byte := dec_digits 20 n.

Definition is_digit (b : byte) : bool := (48 <=? byteZ b) && (byteZ b <=? 57).
Definition is_space (b : byte) : bool := ((9 <=? byteZ b) && (byteZ b <=? 13)) || (byteZ b =? 32).

Fixpoint trim_start (l : list byte) : list byte :=
  match l with b :: l' => if is_space b then trim_start l' else l | [] => [] end.
Definition trim (l : list byte) : list byte := reverse (trim_start (reverse (trim_start l))).

(** One digit, with the overflow checks of [from_str]. *)
Definition push_digit (acc : option Z) (b : byte) : option Z :=
  a ← acc;
  if is_digit b && (a * 10 + (byteZ b - 48) <=? u64_max) then Some (a * 10 + (byteZ b - 48)) else None.

Definition parse_u64 (l : list byte) : option Z :=
  let digits := match l with b :: l' => if byteZ b =? 43 then l' else l | [] => [] end in
  match digits with [] => None | _ => foldl push_digit (Some 0) digits end.

Definition read_current (text : list byte) : res LsmError Z :=
  match parse_u64 (trim text) with
  | Some n => Ok n
  | None => Err (LInternal (Text "malformed CURRENT pointer"))
  end.

(** ** The directory and the manager *)

Record manifests_dir : Type := MkDir {
  md_files : gmap Z (list byte);
  md_current : option (list byte) }.

(** The atomic rename of [CURRENT.tmp]. *)
Definition write_current (n : Z) (d : manifests_dir) : manifests_dir := MkDir (md_files d) (Some (show_u64 n)).

Definition set_file (n : Z) (bytes : list byte) (d : manifests_dir) : manifests_dir :=
  MkDir (<[n := bytes]> (md_files d)) (md_current d).
Definition remove_file (n : Z) (d : manifests_dir) : manifests_dir :=
  MkDir (delete n (md_files d)) (md_current d).

Section manager.
Context {Crc : Crc32}.

Record ManifestManager : Type := MkManager {
  current : Z; mjournal : Journal; version : Version }.

(** The replay loop of [open]. *)
Fixpoint replay_version (records : list (res JournalError ManifestEdit)) (v : Version) : res LsmError Version :=
  match records with
  | [] => Ok v
  | r :: rest => e ← map_err lsm_of_journal r; replay_version rest (apply v e)
  end.

Definition m_open (d : manifests_dir) : manifests_dir * res LsmError ManifestManager :=
  match md_current d with
  | Some text =>
      match read_current text with
      | Ok n =>
          match with_codec (md_files d !! n) with
          | Ok j => (set_file n (f_bytes (jfile j)) d,
                     v ← replay_version (replay_all j) Version_default; Ok (MkManager n j v))
          | Err e => (d, Err (lsm_of_journal e))
          | Panic => (d, Panic)
          end
      | Err e => (d, Err e)
      | Panic => (d, Panic)
      end
  | None =>
      match with_codec (md_files d !! 0) with
      | Ok j => (write_current 0 (set_file 0 (f_bytes (jfile j)) d), Ok (MkManager 0 j Version_default))
      | Err e => (d, Err (lsm_of_journal e))
      | Panic => (d, Panic)
      end
  end.

Abbreviation mstate := (manifests_dir * ManifestManager)%type.

Definition commit (env : io_env) (e : ManifestEdit) (st : mstate) : mstate * res LsmError unit :=
  let '(d, m) := st in
  let '(j, r) := append env (mjournal m) e in
  let d' := set_file (current m) (f_bytes (jfile j)) d in
  match r with
  | Ok _ => ((d', MkManager (current m) j (apply (version m) e)), Ok tt)
  | Err err => ((d', MkManager (current m) j (version m)), Err (lsm_of_journal err))
  | Panic => ((d', MkManager (current m) j (version m)), Panic)
  end.

(** How a checkpoint's I/O goes: the creation of the next manifest, the snapshot
    append, an error before the rename, whether the old file could be removed. *)
Record ckpt_env : Type := CkptEnv { ck_create : create_env; ck_append : io_env; ck_pointer : option io_error; ck_removed : bool }.
Definition ckpt_fine : ckpt_env := CkptEnv create_fine io_fine None true.

Definition m_checkpoint (env : ckpt_env) (st : mstate) : mstate * res LsmError unit :=
  let '(d, m) := st in
  let next := current m + 1 in
  match with_codec_io (ck_create env) (md_files d !! next) with
  | (bytes, Err e) => ((set_file next bytes d, m), Err (lsm_of_journal e))
  | (bytes, Panic) => ((set_file next bytes d, m), Panic)
  | (_, Ok fresh0) =>
      let '(fresh, r) := append (ck_append env) fresh0 (to_snapshot (version m)) in
      let d1 := set_file next (f_bytes (jfile fresh)) d in
      match r with
      | Err e => ((d1, m), Err (lsm_of_journal e))
      | Panic => ((d1, m), Panic)
      | Ok _ =>
          match ck_pointer env with
          | Some e => ((d1, m), Err (lsm_of_io e))
          | None =>
              let d2 := write_current next d1 in
              let d3 := if ck_removed env then remove_file (current m) d2 else d2 in
              ((d3, MkManager next fresh (version m)), Ok tt)
          end
      end
  end.

(** Garbage collection over the table files present, by id. *)
Definition garbage_collect {A} (m : ManifestManager) (tables : gmap Z A) : gmap Z A * list Z :=
  let dead := List.filter (fun id => (id <? next_sst_id (version m)) && negb (existsb (Z.eqb id) (live_files (version m))))
                (map_to_list tables).*1 in
  (foldl (fun t id => delete id t) tables dead, dead).

(** ** Decimal round trip *)

Lemma is_digit_of n : 0 <= n <= 9 -> byteZ (byte_of (48 + n)) = 48 + n /\ is_digit (byte_of (48 + n)) = true.
Proof.
  intros H. rewrite byteZ_byte_of, Z.mod_small by lia. split; [done|]. unfold is_digit.
  rewrite byteZ_byte_of, Z.mod_small by lia. apply andb_true_iff. split; apply Z.leb_le; lia.
Qed.

Lemma dec_digits_all fuel n : 0 <= n -> Forall (fun b => is_digit b = true) (dec_digits fuel n).
Proof.
  revert n. induction fuel as [|f IH]; intros n Hn; cbn; [constructor|].
  destruct (Z.ltb_spec n 10).
  - constructor; [|constructor]. apply is_digit_of. lia.
  - apply Forall_app. split; [apply IH, Z.div_pos; lia|]. constructor; [|constructor].
    apply is_digit_of. pose proof (Z.mod_pos_bound n 10). lia.
Qed.

Lemma dec_digits_parse fuel n :
  0 <= n < 10 ^ Z.of_nat fuel -> n <= u64_max -> (0 < fuel)%nat ->
  foldl push_digit (Some 0) (dec_digits fuel n) = Some n.
Proof.
  revert n. induction fuel as [|f IH]; intros n Hn Hm Hf; [lia|]. cbn [dec_digits].
  destruct (Z.ltb_spec n 10).
  - cbn. destruct (is_digit_of n ltac:(lia)) as [E ->]. rewrite E.
    rewrite (proj2 (Z.leb_le _ _)) by lia. cbn. f_equal. lia.
  - rewrite foldl_app. rewrite Nat2Z.inj_succ, Z.pow_succ_r in Hn by lia.
    pose proof (Z.div_mod n 10 ltac:(lia)) as Hdm. pose proof (Z.mod_pos_bound n 10 ltac:(lia)).
    assert (0 < f)%nat.
    { destruct f; [|lia]. change (10 ^ Z.of_nat 0) with 1 in Hn. lia. }
    rewrite IH; [| split; [apply Z.div_pos; lia | apply Z.div_lt_upper_bound; lia]
                 | assert (n / 10 <= n) by (apply Z.div_le_upper_bound; lia); lia | done].
    cbn [foldl]. unfold push_digit. cbn [mbind option_bind].
    destruct (is_digit_of (n mod 10) ltac:(lia)) as [E ->]. rewrite E.
    rewrite (proj2 (Z.leb_le _ _)) by lia. cbn. f_equal. lia.
Qed.

Lemma trim_start_digits l : Forall (fun b => is_digit b = true) l -> trim_start l = l.
Proof.
  destruct 1 as [|b l Hb _]; [done|]. cbn. unfold is_digit in Hb. unfold is_space.
  apply andb_true_iff in Hb as [H1%Z.leb_le H2%Z.leb_le].
  rewrite (proj2 (Z.leb_gt (byteZ b) 13)) by lia. rewrite (proj2 (Z.eqb_neq _ _)) by lia.
  by rewrite andb_false_r.
Qed.

Lemma read_show n : is_u64 n -> read_current (show_u64 n) = Ok n.
Proof.
  intros Hn. assert (Hd : Forall (fun b => is_digit b = true) (show_u64 n)) by (apply dec_digits_all; ulia).
  unfold read_current, trim. rewrite (trim_start_digits (show_u64 n)) by done.
  rewrite trim_start_digits by (by apply Forall_reverse). rewrite reverse_involutive.
  assert (Hp : foldl push_digit (Some 0) (show_u64 n) = Some n)
    by (apply dec_digits_parse; [|ulia|lia]; change (10 ^ Z.of_nat 20) with 100000000000000000000; ulia).
  unfold parse_u64. destruct (show_u64 n) as [|b l] eqn:E.
  { unfold show_u64 in E. cbn [dec_digits] in E. destruct (n <? 10); [done|]. by apply app_eq_nil in E as [_ ?]. }
  apply Forall_inv in Hd. unfold is_digit in Hd. apply andb_true_iff in Hd as [H1%Z.leb_le _].
  rewrite (proj2 (Z.eqb_neq _ _)) by lia. by rewrite Hp.
Qed.

(** ** What a manager's directory holds *)

Context {CrcOk : Crc32Ok}.

(** The active manifest holds exactly [edits], the version is their fold, and
    [CURRENT] names the active file. *)
Definition m_ok (st : mstate) (edits : list ManifestEdit) : Prop :=
  let '(d, m) := st in
  holds (mjournal m) edits /\ version m = foldl apply Version_default edits
  /\ md_files d !! current m = Some (f_bytes (jfile (mjournal m)))
  /\ md_current d = Some (show_u64 (current m)) /\ is_u64 (current m).

(** No leftover of an interrupted checkpoint. *)
Definition next_free (st : mstate) : Prop := md_files st.1 !! (current st.2 + 1) = None.

Lemma replay_version_ok edits v : replay_version (Ok <$> edits) v = Ok (foldl apply v edits).
Proof. revert v. induction edits as [|e l IH]; intros v; [done|]. cbn. apply IH. Qed.

Lemma set_file_id n bytes d : md_files d !! n = Some bytes -> set_file n bytes d = d.
Proof. intros H. unfold set_file. rewrite insert_id by done. by destruct d. Qed.

(** Opening a directory whose [CURRENT] names a journal that reads back. *)
Lemma m_open_at d n j edits :
  md_current d = Some (show_u64 n) -> is_u64 n ->
  with_codec (md_files d !! n) = Ok j -> replay_all j = Ok <$> edits ->
  m_open d = (set_file n (f_bytes (jfile j)) d, Ok (MkManager n j (foldl apply Version_default edits))).
Proof.
  intros Hc Hn Hj Hr. unfold m_open. by rewrite Hc, read_show, Hj, Hr, replay_version_ok.
Qed.

Lemma m_open_ok d m edits : m_ok (d, m) edits -> m_open d = (d, Ok m).
Proof.
  intros (Hh & Hv & Hf & Hc & Hn).
  rewrite (m_open_at d (current m) (mjournal m) edits Hc Hn).
  - rewrite set_file_id by done. rewrite <- Hv. by destruct m.
  - rewrite Hf. by apply (holds_reopen _ edits).
  - by apply holds_replay.
Qed.

Lemma m_open_fresh : exists st, m_open (MkDir ∅ None) = (st.1, Ok st.2) /\ m_ok st [] /\ next_free st
  /\ version st.2 = Version_default.
Proof.
  destruct (holds_fresh (R := ManifestEdit)) as (j & E & Hj).
  exists (write_current 0 (set_file 0 (f_bytes (jfile j)) (MkDir ∅ None)), MkManager 0 j Version_default).
  unfold m_open. cbn [md_current md_files]. rewrite lookup_empty, E. split; [done|]. split; [|split; [|done]].
  - split; [exact Hj|]. split; [done|]. split; [by cbn; rewrite lookup_insert_eq | done].
  - unfold next_free. cbn. rewrite lookup_insert_ne by done. apply lookup_empty.
Qed.

Lemma commit_ok st edits e :
  m_ok st edits -> edit_wf e ->
  exists st', commit io_fine e st = (st', Ok tt) /\ m_ok st' (edits ++ [e])
    /\ version st'.2 = apply (version st.2) e /\ current st'.2 = current st.2
    /\ forall n, n <> current st.2 -> md_files st'.1 !! n = md_files st.1 !! n.
Proof.
  destruct st as [d m]. intros (Hh & Hv & Hf & Hc & Hn) He. unfold commit.
  destruct (holds_append _ _ e Hh He) as (j & -> & Hj).
  eexists. split; [reflexivity|]. cbn [fst snd]. split.
  - split; [exact Hj|]. cbn. split; [by rewrite foldl_app, Hv|]. split; [by rewrite lookup_insert_eq | done].
  - split; [done|]. split; [done|]. intros n Hne. cbn. by rewrite lookup_insert_ne.
Qed.

Lemma m_checkpoint_ok st edits removed :
  m_ok st edits -> next_free st -> is_u64 (current st.2 + 1) -> edit_wf (to_snapshot (version st.2)) ->
  exists st', m_checkpoint (CkptEnv create_fine io_fine None removed) st = (st', Ok tt)
    /\ m_ok st' [to_snapshot (version st.2)] /\ version st'.2 = version st.2.
Proof.
  destruct st as [d m]. unfold next_free. cbn [fst snd]. intros (Hh & Hv & Hf & Hc & Hn) Hfree Hu He.
  unfold m_checkpoint. rewrite Hfree. destruct (holds_fresh (R := ManifestEdit)) as (j0 & E0 & Hj0).
  cbn [ck_create ck_append ck_pointer ck_removed]. unfold with_codec in E0. destruct (with_codec_io create_fine None) as [b0 o0]. cbn [snd] in E0. subst o0. destruct (holds_append _ _ _ Hj0 He) as (j & -> & Hj).
  eexists. split; [reflexivity|]. split; [|done]. split; [exact Hj|]. cbn [version current mjournal]. split; [|split; [|split; [|done]]].
  - cbn [foldl app]. by rewrite snapshot_rebuilds.
  - destruct removed; cbn; [rewrite lookup_delete_ne by lia|]; by rewrite lookup_insert_eq.
  - by destruct removed.
Qed.

(** Files above the active one never exist between operations. *)
Definition none_above (st : mstate) : Prop := forall n, current st.2 < n -> md_files st.1 !! n = None.

Lemma m_checkpoint_above st st' :
  none_above st -> m_checkpoint ckpt_fine st = (st', Ok tt) -> none_above st'.
Proof.
  intros Hab Hc n Hn. destruct st as [d m]. unfold m_checkpoint in Hc. cbn [ckpt_fine ck_create ck_append ck_pointer ck_removed] in Hc.
  destruct (with_codec_io _ _) as [b0 [j0|?|]]; [|done|done].
  destruct (append _ _ _) as [j [u|?|]]; [|done|done]. injection Hc as <-. cbn in *.
  rewrite lookup_delete_ne, lookup_insert_ne by lia. apply Hab. cbn. lia.
Qed.

(** ** Correctness *)

(** The states of a manager: opened fresh, after commits, checkpoints and
    reopens, with the list of all edits ever committed. *)
Inductive mrun : mstate -> list ManifestEdit -> Prop :=
| mrun_open st : m_open (MkDir ∅ None) = (st.1, Ok st.2) -> mrun st []
| mrun_commit st st' log e :
    mrun st log -> edit_wf e -> commit io_fine e st = (st', Ok tt) -> mrun st' (log ++ [e])
| mrun_checkpoint st st' log :
    mrun st log -> edit_wf (to_snapshot (version st.2)) -> is_u64 (current st.2 + 1) ->
    m_checkpoint ckpt_fine st = (st', Ok tt) -> mrun st' log
| mrun_reopen st st' log : mrun st log -> m_open st.1 = (st'.1, Ok st'.2) -> mrun st' log.

Lemma mrun_ok st log :
  mrun st log ->
  (exists edits, m_ok st edits) /\ none_above st /\ version st.2 = foldl apply Version_default log.
Proof.
  induction 1 as [st Ho|st st' log e _ ((edits & IH) & Hab & Hv) He Hc
                 |st st' log _ ((edits & IH) & Hab & Hv) He Hu Hc|st st' log _ ((edits & IH) & Hab & Hv) Ho].
  - destruct (holds_fresh (R := ManifestEdit)) as (j & E & Hj).
    destruct m_open_fresh as (st0 & E0 & H0 & _ & Hv0). rewrite Ho in E0. injection E0 as E1 E2.
    destruct st as [d m], st0 as [d0 m0]. cbn in E1, E2. subst d0 m0.
    split; [by exists []|]. split; [|done].
    unfold m_open in Ho. cbn [md_current md_files] in Ho. rewrite lookup_empty, E in Ho. cbn in Ho.
    injection Ho as <- <-. intros n Hn. cbn in *. rewrite lookup_insert_ne by lia. apply lookup_empty.
  - destruct (commit_ok _ _ _ IH He) as (st2 & E & Hok & Hv2 & Hcur & Hoth).
    rewrite E in Hc. injection Hc as ->. split; [by eexists|]. split.
    + intros n Hn. rewrite Hcur in Hn. rewrite Hoth by lia. by apply Hab.
    + by rewrite Hv2, Hv, foldl_app.
  - destruct (m_checkpoint_ok st edits true IH) as (st2 & E & Hok & Hv2); [apply Hab; lia|done|done|].
    pose proof Hc as Hc'. unfold ckpt_fine in Hc'. rewrite E in Hc'. injection Hc' as ->.
    split; [by eexists|]. split; [|by rewrite Hv2].
    by apply (m_checkpoint_above st).
  - destruct st as [d m]. cbn [fst snd] in Ho. rewrite (m_open_ok d m edits IH) in Ho. cbn [fst snd] in *.
    injection Ho as E1 E2. destruct st' as [d' m']. cbn in E1, E2. subst. split; [by exists edits|]. done.
Qed.

(** C35: after any run of commits, checkpoints and reopens, opening the
    directory again succeeds, changes nothing on disk and gives the version
    obtained by applying every committed edit in order: checkpoints lose and
    reorder nothing. *)
Theorem manifest_recovers_all_edits st log :
  mrun st log ->
  m_open st.1 = (st.1, Ok st.2) /\ version st.2 = foldl apply Version_default log.
Proof.
  intros H. destruct (mrun_ok st log H) as ((edits & Hok) & _ & Hv). split; [|done].
  destruct st as [d m]. by apply (m_open_ok d m edits).
Qed.

(** A commit is atomic under crashes: whatever prefix of its frame
    reached the active manifest, opening succeeds with the version before the
    edit, or with the whole edit applied exactly when the frame is complete. *)
Theorem commit_crash_atomic st log e n :
  mrun st log -> edit_wf e ->
  let frame := write_frame (codec_encode e) in
  let torn := set_file (current st.2) (f_bytes (jfile (mjournal st.2)) ++ take n frame) st.1 in
  exists d m, m_open torn = (d, Ok m)
    /\ version m = if (n <? length frame)%nat then version st.2 else apply (version st.2) e.
Proof.
  intros H He frame torn. destruct (mrun_ok st log H) as ((edits & Hok) & _ & _).
  destruct st as [d m]. destruct Hok as (Hh & Hv & Hf & Hc & Hn). cbn [fst snd] in *.
  destruct (append_crash_open (mjournal m) edits e n Hh He) as (j & Hj & Hr).
  eexists _, _. split.
  - apply (m_open_at torn (current m) j); [done|done| |exact Hr].
    unfold torn, set_file. cbn [md_files]. by rewrite lookup_insert_eq.
  - cbn [version]. fold frame. destruct (n <? length frame)%nat; rewrite Hv; [done|]. by rewrite foldl_app.
Qed.

(** Before the rename, whatever the next manifest holds. *)
Lemma open_before_rename d m edits bytes :
  m_ok (d, m) edits -> let d1 := set_file (current m + 1) bytes d in m_ok (d1, m) edits /\ m_open d1 = (d1, Ok m).
Proof.
  intros (Hh & Hv & Hf & Hc & Hn) d1. assert (Hok : m_ok (d1, m) edits).
  { split; [done|]. split; [done|]. split; [|done]. cbn. by rewrite lookup_insert_ne by lia. }
  split; [exact Hok|]. by apply (m_open_ok _ m edits).
Qed.

(** C36: a checkpoint is atomic under crashes.  Wherever its I/O stops (in the two
    writes of the new manifest's header, anywhere in the snapshot's frame, at its
    sync, before the rename of [CURRENT], before the removal of the old file), the
    directory [checkpoint] leaves opens to the version it started from, and so does
    the directory of one that succeeds.  The directory it starts from is one left
    by a run: commits, checkpoints and opens that succeeded, so without the leftover
    of an earlier interrupted checkpoint. *)
Theorem checkpoint_crash_safe st log env :
  mrun st log -> is_u64 (current st.2 + 1) -> edit_wf (to_snapshot (version st.2)) ->
  exists d m, m_open (m_checkpoint env st).1.1 = (d, Ok m) /\ version m = version st.2.
Proof.
  intros H Hu He. destruct (mrun_ok st log H) as ((edits & Hok) & Hab & _). destruct st as [d m]. cbn [fst snd] in *.
  assert (Hb : forall bytes, exists d' m', m_open (set_file (current m + 1) bytes d) = (d', Ok m') /\ version m' = version m).
  { intros bytes. eexists _, m. split; [apply (open_before_rename d m edits bytes Hok)|done]. }
  assert (Hfree : md_files d !! (current m + 1) = None) by (apply Hab; cbn; lia).
  unfold m_checkpoint. rewrite Hfree. destruct (with_codec_io (ck_create env) None) as [b0 [j0|e|]] eqn:E0; [|apply Hb..].
  apply with_codec_io_ok in E0 as [_ E0]. destruct (holds_fresh (R := ManifestEdit)) as (j1 & E1 & Hj). rewrite E0 in E1. apply Ok_inj in E1 as <-.
  destruct (append (ck_append env) j0 (to_snapshot (version m))) as [fresh [u|e|]] eqn:Ea; [|apply Hb..].
  apply append_ok_inv in Ea. destruct (holds_append _ _ _ Hj He) as (j2 & E2 & Hj2). rewrite Ea in E2. injection E2 as <-. cbn [app] in Hj2.
  destruct (ck_pointer env) as [e|]; [apply Hb|]. eexists _, _. split; [apply (m_open_at _ (current m + 1) fresh [to_snapshot (version m)])|].
  - by destruct (ck_removed env).
  - done.
  - rewrite <- (holds_reopen _ _ Hj2). f_equal. destruct (ck_removed env); cbn; [rewrite lookup_delete_ne by lia|]; apply lookup_insert_eq.
  - by apply holds_replay.
  - cbn. apply snapshot_rebuilds.
Qed.

(** C37: the snapshot file of a checkpoint that crashed is not discarded.  When the
    first checkpoint of a run stops after [n] bytes of its snapshot's frame, the
    directory still opens to the version; the next checkpoint then opens the torn
    file, appends its snapshot behind the torn frame and flips [CURRENT] to it, all
    reporting success, and the next open finds an empty version: every run of the
    tree is lost.  This is so whenever the torn bytes, followed by the frame, fail
    the length or the checksum test of a frame. *)
Theorem checkpoint_over_torn_checkpoint_loses_version st log n e :
  mrun st log -> is_u64 (current st.2 + 1) -> edit_wf (to_snapshot (version st.2)) ->
  let frame := write_frame (codec_encode (to_snapshot (version st.2))) in
  read_frame (take n frame ++ frame) 0 = None ->
  let torn := (m_checkpoint (CkptEnv create_fine (IoEnv (IoFail n e) None) None true) st).1.1 in
  exists m1 st2 d3 m3, m_open torn = (torn, Ok m1) /\ version m1 = version st.2
    /\ m_checkpoint ckpt_fine (torn, m1) = (st2, Ok tt) /\ m_open st2.1 = (d3, Ok m3) /\ version m3 = Version_default.
Proof.
  intros H Hu He frame Hrf torn. destruct (mrun_ok st log H) as ((edits & Hok) & Hab & _). destruct st as [d m]. cbn [fst snd] in *.
  assert (Hfree : md_files d !! (current m + 1) = None) by (apply Hab; cbn; lia).
  assert (Et : torn = set_file (current m + 1) (header_bytes ++ take n frame) d).
  { unfold torn, m_checkpoint. rewrite Hfree. cbn [ck_create ck_append ck_pointer ck_removed].
    change (with_codec_io create_fine None) with (header_bytes, Ok (E := JournalError) (MkJournal (File header_bytes (length header_bytes)))). cbn iota.
    unfold append. cbn [on_write on_sync jfile write_all f_pos f_bytes]. fold frame. by rewrite write_at_end. }
  destruct (open_before_rename d m edits (header_bytes ++ take n frame) Hok) as [Hok1 Ho]. rewrite <- Et in Hok1, Ho.
  assert (Hnext : md_files torn !! (current m + 1) = Some (header_bytes ++ take n frame)) by (rewrite Et; apply lookup_insert_eq).
  clearbody torn. pose proof (with_codec_existing (take n frame)) as Hw.
  pose proof (with_codec_existing (take n frame ++ frame)) as Hw2.
  eexists m, _, _, _. split; [exact Ho|]. split; [done|]. split; [|split].
  - unfold m_checkpoint. rewrite Hnext. unfold with_codec in Hw. cbn [ckpt_fine ck_create ck_append ck_pointer ck_removed].
    destruct (with_codec_io create_fine (Some (header_bytes ++ take n frame))) as [b0 o0]. cbn [snd] in Hw. subst o0.
    unfold append, io_fine. cbn [on_write on_sync jfile write_all f_pos f_bytes]. rewrite write_at_end. reflexivity.
  - eapply (m_open_at _ (current m + 1) _ []); cbn [fst]; [done|done| |].
    + cbn. rewrite lookup_delete_ne, lookup_insert_eq by lia. fold frame. rewrite <- app_assoc. exact Hw2.
    + pose proof (replay_log_with_tail (R := ManifestEdit) [] (take n frame ++ frame)) as E. unfold journal_bytes in E. cbn [frames flat_map] in E.
      rewrite app_nil_r in E. by apply E.
  - done.
Qed.

Lemma foldl_delete_lookup {A} (ids : list Z) (t : gmap Z A) id :
  foldl (fun t id => delete id t) t ids !! id = if existsb (Z.eqb id) ids then None else t !! id.
Proof.
  revert t. induction ids as [|i ids IH]; intros t; [done|]. cbn. rewrite IH.
  destruct (existsb (Z.eqb id) ids); [by rewrite orb_true_r|]. rewrite orb_false_r, lookup_delete.
  case_decide; destruct (Z.eqb_spec id i); congruence.
Qed.

Lemma gc_lookup {A} (m : ManifestManager) (tables : gmap Z A) id :
  let '(t', removed) := garbage_collect m tables in
  t' !! id = (if (id <? next_sst_id (version m)) && negb (existsb (Z.eqb id) (live_files (version m)))
              then None else tables !! id)
  /\ (id ∈ removed <-> is_Some (tables !! id) /\ t' !! id = None).
Proof.
  unfold garbage_collect. rewrite foldl_delete_lookup.
  set (f := fun id => (id <? next_sst_id (version m)) && negb (existsb (Z.eqb id) (live_files (version m)))).
  assert (Hdead : existsb (Z.eqb id) (List.filter f (map_to_list tables).*1)
                  = f id && bool_decide (is_Some (tables !! id))).
  { apply eq_true_iff_eq. rewrite existsb_exists, andb_true_iff, bool_decide_eq_true. split.
    - intros (x & Hx & <-%Z.eqb_eq). apply List.filter_In in Hx as [Hx Hfx]. split; [done|].
      apply list_elem_of_In, list_elem_of_fmap in Hx as ([i v] & -> & Hx). apply elem_of_map_to_list in Hx. by eexists.
    - intros [Hfx [v Hv]]. exists id. split; [|apply Z.eqb_refl]. apply List.filter_In. split; [|done].
      apply list_elem_of_In, list_elem_of_fmap. exists (id, v). split; [done | by apply elem_of_map_to_list]. }
  rewrite Hdead. fold (f id). split.
  - destruct (f id); [|done]. cbn. case_bool_decide as Hs; [done|]. by apply eq_None_not_Some.
  - assert (Hin : id ∈ List.filter f (map_to_list tables).*1 <-> existsb (Z.eqb id) (List.filter f (map_to_list tables).*1) = true).
    { rewrite existsb_exists, list_elem_of_In. split; [intros; by exists id; rewrite Z.eqb_refl|].
      by intros (x & Hx & ->%Z.eqb_eq). }
    rewrite Hin, Hdead. destruct (f id); cbn; [|by split; [|intros [[? ->] ?]]].
    rewrite bool_decide_eq_true. split; [|by intros []]. intros Hs. split; [done|]. by rewrite bool_decide_true.
Qed.

(** Garbage collection removes exactly the tables below the id watermark
    that no live run references, and reports those it removed: no live table
    is lost, and no table at or above the watermark is touched. *)
Theorem gc_removes_exactly_dead {A} (m : ManifestManager) (tables : gmap Z A) id :
  let '(t', removed) := garbage_collect m tables in
  t' !! id = (if (id <? next_sst_id (version m)) && negb (existsb (Z.eqb id) (live_files (version m)))
              then None else tables !! id)
  /\ (id ∈ removed <-> is_Some (tables !! id) /\ t' !! id = None).
Proof. apply gc_lookup. Qed.
End manager.

(** ** Witnesses *)

Import Ieee.

Definition flush_edit : ManifestEdit :=
  set_last_seq 9 (set_next_sst_id 1 (add_run (MkRun 0 0 [0]) edit_new)).

Definition fresh_state : manifests_dir * ManifestManager :=
  match m_open (MkDir ∅ None) with
  | (d, Ok m) => (d, m)
  | (d, _) => (d, MkManager 0 (MkJournal (File [] 0)) Version_default)
  end.
Definition flushed_state : manifests_dir * ManifestManager := (commit io_fine flush_edit fresh_state).1.

Lemma flush_edit_wf : edit_wf flush_edit.
Proof.
  split; [|by vm_compute].
  repeat first [apply Forall_cons; split | apply Forall_nil; done]; cbn; try ulia.
  repeat split; cbn; try ulia. by constructor; [cbn; ulia|constructor].
Qed.

Lemma flushed_run : mrun flushed_state [flush_edit].
Proof.
  eapply (mrun_commit fresh_state _ []); [apply mrun_open | apply flush_edit_wf |]; by vm_compute.
Qed.

Lemma flushed_snapshot_wf : edit_wf (to_snapshot (version flushed_state.2)).
Proof.
  replace (to_snapshot (version flushed_state.2)) with flush_edit by (by vm_compute). apply flush_edit_wf.
Qed.

Lemma manifest_recovers_all_edits_witness :
  m_open flushed_state.1 = (flushed_state.1, Ok flushed_state.2)
  /\ version flushed_state.2 = foldl apply Version_default [flush_edit].
Proof. apply (manifest_recovers_all_edits flushed_state [flush_edit]). apply flushed_run. Defined.

(** The append of the snapshot stops after 12 bytes of its frame. *)
Definition torn_ckpt : ckpt_env := CkptEnv create_fine (IoEnv (IoFail 12 IoUnexpectedEof) None) None true.

Lemma checkpoint_crash_safe_witness :
  exists d m, m_open (m_checkpoint torn_ckpt flushed_state).1.1 = (d, Ok m) /\ version m = version flushed_state.2.
Proof.
  apply (checkpoint_crash_safe flushed_state [flush_edit] torn_ckpt flushed_run); [by vm_compute|apply flushed_snapshot_wf].
Defined.

Lemma checkpoint_over_torn_checkpoint_loses_version_witness :
  runs (version flushed_state.2) = [MkRun 0 0 [0]]
  /\ exists m1 st2 d3 m3, m_open (m_checkpoint torn_ckpt flushed_state).1.1 = ((m_checkpoint torn_ckpt flushed_state).1.1, Ok m1)
       /\ version m1 = version flushed_state.2
       /\ m_checkpoint ckpt_fine ((m_checkpoint torn_ckpt flushed_state).1.1, m1) = (st2, Ok tt)
       /\ m_open st2.1 = (d3, Ok m3) /\ version m3 = Version_default.
Proof.
  split; [by vm_compute|].
  apply (checkpoint_over_torn_checkpoint_loses_version flushed_state [flush_edit] 12 IoUnexpectedEof flushed_run);
    [by vm_compute|apply flushed_snapshot_wf|by vm_compute].
Defined.
