(* ===== verification/Lsm.v ===== *)
(** * The LSM tree ([crates/lsm/src/lib.rs], [layout.rs])

    The whole tree: opening from a directory, [put]/[delete], [flush],
    [checkpoint], [get] and [scan].  The directory under the storage root is
    explicit state next to the in-memory fields; the page cache, mutated
    behind a shared reference by reads, is threaded through them. *)

From Stdlib Require Import Strings.Byte ZArith Lia Sorted.
From stdpp Require Import prelude list strings gmap.
From S2P Require Import Prelude Codec LsmKey Memtable Journal DataBlock Journaled Iterator Policies MemoCache SstHeader SsTable Manifest ManifestManager.
Local Open Scope Z_scope.

(** What lies under the storage root: [sstables/], [manifests/] and
    [memtable.jrnl]. *)
Record root_dir : Type := MkRoot {
  rd_tables : sst_dir; rd_manifests : manifests_dir; rd_journal : option (list byte) }.

(** An open tree and the files under its root.  The journal file is the one
    inside [mem], the active manifest the one inside [manifest]. *)
Record Lsm (M : Type) : Type := MkLsm {
  config : LsmConfig; cache : SstPageCache; mem : Journaled M; manifest : ManifestManager; lseq : Z;
  tables : sst_dir; mdir : manifests_dir }.
Arguments MkLsm {M} _ _ _ _ _ _ _.
Arguments config {M} _.
Arguments cache {M} _.
Arguments mem {M} _.
Arguments manifest {M} _.
Arguments lseq {M} _.
Arguments tables {M} _.
Arguments mdir {M} _.

Definition to_kv (e : entry) : KeyValue := KV e.1 e.2.
Definition item_of (r : res ReadError entry) : item := map_ok to_kv r.

Section lsm.
Context {Crc : Crc32} {FB : FastBloom} {M : Type} `{!MemStore M}.
Abbreviation Lsm := (Lsm M).

(** The files a crash would leave behind. *)
Definition root_of_tree (t : Lsm) : root_dir := MkRoot (tables t) (mdir t) (Some (jdisk (mem t))).

Definition with_cache (c : SstPageCache) (t : Lsm) : Lsm :=
  MkLsm (config t) c (mem t) (manifest t) (lseq t) (tables t) (mdir t).
Definition with_mem (m : Journaled M) (t : Lsm) : Lsm :=
  MkLsm (config t) (cache t) m (manifest t) (lseq t) (tables t) (mdir t).
Definition with_tables (d : sst_dir) (t : Lsm) : Lsm :=
  MkLsm (config t) (cache t) (mem t) (manifest t) (lseq t) d (mdir t).
Definition with_manifest (st : manifests_dir * ManifestManager) (t : Lsm) : Lsm :=
  MkLsm (config t) (cache t) (mem t) st.2 (lseq t) (tables t) st.1.

(** ** Opening *)

(** [filter_map(Result::ok).map(seq).max().unwrap_or(0)]. *)
Definition max_seq_of (items : list (res ReadError entry)) : Z :=
  foldr (fun r acc => match r with Ok e => Z.max (seq e.1) acc | _ => acc end) 0 items.

Definition with_memtable (cfg : LsmConfig) (m0 : M) (root : root_dir) : res LsmError Lsm :=
  let c := SstPageCache_new (page_cache cfg) in
  let '(md, opened) := m_open (rd_manifests root) in
  man ← opened;
  mm ← map_err lsm_of_write (jopen (rd_journal root) m0);
  items ← map_err lsm_of_read (jscan_at Unbounded Unbounded u64_max mm);
  let sq := Z.max (last_seq (version man)) (max_seq_of items) in
  let '(kept, _) := garbage_collect man (rd_tables root) in
  Ok (MkLsm cfg c mm man sq kept md).

(** ** Writing *)

Definition write (env : io_env) (k v : list byte) (o : OpType) (t : Lsm) : Lsm * res LsmError unit :=
  let ik := IKey k (lseq t + 1) o in
  let '(m, r) := jput env ik v (mem t) in
  match r with
  | Ok _ => (MkLsm (config t) (cache t) m (manifest t) (lseq t + 1) (tables t) (mdir t), Ok tt)
  | Err e => (with_mem m t, Err (lsm_of_write e))
  | Panic => (with_mem m t, Panic)
  end.

Definition lsm_put (env : io_env) (k v : list byte) (t : Lsm) : Lsm * res LsmError unit := write env k v Put t.
Definition lsm_delete (env : io_env) (k : list byte) (t : Lsm) : Lsm * res LsmError unit := write env k [] Delete t.

(** The table configuration a flush uses: the first level's, or the default. *)
Definition flush_config (cfg : LsmConfig) : TableConfig :=
  match levels cfg with l :: _ => table_config l | [] => TableConfig_default end.

(** The edit a flush commits. *)
Definition flush_edit_of (id sq : Z) : ManifestEdit :=
  set_last_seq sq (set_next_sst_id (id + 1) (add_run (MkRun 0 id [id]) edit_new)).

(** How the I/O of a flush goes: the table file, the manifest commit, then the
    truncation of the journal. *)
Record flush_env : Type := FlushEnv { fl_table : io_env; fl_commit : io_env; fl_clear : trunc_step }.
Definition flush_fine : flush_env := FlushEnv io_fine io_fine TruncDone.

Definition flush (env : flush_env) (t : Lsm) : Lsm * res LsmError unit :=
  match map_err lsm_of_read (items ← jscan_at Unbounded Unbounded u64_max (mem t); collect_res (item_of <$> items)) with
  | Err e => (t, Err e)
  | Panic => (t, Panic)
  | Ok [] => (t, Ok tt)
  | Ok entries =>
      let id := next_sst_id (version (manifest t)) in
      let '(d, wrote) := sst_write (fl_table env) id (flush_config (config t)) entries (tables t) in
      let t1 := with_tables d t in
      match wrote with
      | Err e => (t1, Err (lsm_of_io e))
      | Panic => (t1, Panic)
      | Ok _ =>
          let '(st, committed) := commit (fl_commit env) (flush_edit_of id (lseq t)) (mdir t, manifest t) in
          let t2 := with_manifest st t1 in
          match committed with
          | Err e => (t2, Err e)
          | Panic => (t2, Panic)
          | Ok _ =>
              let '(m, cleared) := jclear_io (fl_clear env) (mem t) in
              (with_mem m t2, map_err lsm_of_write cleared)
          end
      end
  end.

Definition checkpoint (env : ckpt_env) (t : Lsm) : Lsm * res LsmError unit :=
  let '(st, r) := m_checkpoint env (mdir t, manifest t) in (with_manifest st t, r).

(** ** Point lookups *)

(** The table files in the order [get_at] visits them: levels ascending, and
    within a level the newest run first. *)
Definition get_order (cfg : LsmConfig) (v : Version) : list Z :=
  flat_map (fun level => flat_map run_files (reverse (runs_in v (Z.of_nat level)))) (List.seq 0 (num_levels cfg)).

Fixpoint get_in_tables (dir : sst_dir) (ids : list Z) (k : list byte) (max_seq : Z) (c : SstPageCache)
  : res LsmError (option (list byte)) * SstPageCache :=
  match ids with
  | [] => (Ok None, c)
  | id :: rest =>
      match sst_open dir id c with
      | (Err e, c1) => (Err e, c1)
      | (Panic, c1) => (Panic, c1)
      | (Ok table, c1) =>
          match sst_get dir table k max_seq c1 with
          | (Err e, c2) => (Err e, c2)
          | (Panic, c2) => (Panic, c2)
          | (Ok (Some kv), c2) => (Ok (resolve (op (key kv)) (value kv)), c2)
          | (Ok None, c2) => get_in_tables dir rest k max_seq c2
          end
      end
  end.

Definition get_at (k : list byte) (max_seq : Z) (t : Lsm) : res LsmError (option (list byte)) * Lsm :=
  match map_err lsm_of_read (jscan_at (Included k) (Included k) max_seq (mem t)) with
  | Err e => (Err e, t)
  | Panic => (Panic, t)
  | Ok (r :: _) => (e ← map_err lsm_of_read r; Ok (resolve (op e.1) e.2), t)
  | Ok [] =>
      let '(r, c) := get_in_tables (tables t) (get_order (config t) (version (manifest t))) k max_seq (cache t) in
      (r, with_cache c t)
  end.

Definition get (k : list byte) (t : Lsm) : res LsmError (option (list byte)) * Lsm := get_at k (lseq t) t.

(** ** Scans *)

Definition read_err (e : LsmError) : ReadError := RInternal (lsm_message e).

(** A boxed [KvStream]: a materialised list (the memtable's entries, or the
    one error of a table that does not open), or a table's block stream. *)
Inductive KvStream : Type :=
| SList (l : list item)
| SBlocks (s : BlockStream).

Definition kv_next (dir : sst_dir) (fuel : nat) : step_fn KvStream item SstPageCache := fun s c =>
  match s with
  | SList l => match l with [] => (None, SList [], c) | a :: l' => (Some a, SList l', c) end
  | SBlocks b => let '(a, b', c') := stream_next dir fuel b c in (a, SBlocks b', c')
  end.

(** The table files in the order [scan_at] collects them. *)
Definition scan_order (cfg : LsmConfig) (v : Version) : list Z :=
  flat_map (fun level => flat_map run_files (runs_in v (Z.of_nat level))) (List.seq 0 (num_levels cfg)).

Fixpoint table_sources (dir : sst_dir) (ids : list Z) (start end_ : bound (list byte)) (max_seq : Z)
    (c : SstPageCache) : list KvStream * SstPageCache :=
  match ids with
  | [] => ([], c)
  | id :: rest =>
      let '(opened, c1) := sst_open dir id c in
      let '(srcs, c2) := table_sources dir rest start end_ max_seq c1 in
      (match opened with
       | Ok table => if overlaps (t_range table) start end_
                     then SBlocks (sst_scan table start end_ max_seq) :: srcs else srcs
       | Err e => SList [Err (read_err e)] :: srcs
       | Panic => SList [Panic] :: srcs
       end, c2)
  end.

(** [ScanIterator]: the resolver over the merge over the sources. *)
Abbreviation ScanIterator := (Resolver.t (J := list (Merge.Source (I := KvStream) (A := item)))).

Definition scan_at (fuel : nat) (start end_ : bound (list byte)) (max_seq : Z) (t : Lsm)
  : res LsmError ScanIterator * Lsm :=
  match map_err lsm_of_read (jscan_at start end_ max_seq (mem t)) with
  | Err e => (Err e, t)
  | Panic => (Panic, t)
  | Ok items =>
      let '(srcs, c1) := table_sources (tables t) (scan_order (config t) (version (manifest t)))
                           start end_ max_seq (cache t) in
      let '(heads, c2) := Merge.new (kv_next (tables t) fuel) (SList (item_of <$> items) :: srcs) c1 in
      (Ok (Resolver.new heads), with_cache c2 t)
  end.

(** [ScanIterator::next]; [fuel] bounds the blocks and the versions skipped. *)
Definition scan_next (dir : sst_dir) (fuel : nat) : step_fn ScanIterator (res LsmError KVPair) SstPageCache :=
  fun it c =>
    let '(r, it', c') := Resolver.resolver_next
      (Merge.merge_next (kv_next dir fuel) item_cmp) fuel it c in
    (map_err lsm_of_read <$> r, it', c').

(** Collecting a whole scan. *)
Definition scan_collect (fuel : nat) (start end_ : bound (list byte)) (max_seq : Z) (t : Lsm)
  : res LsmError (list (res LsmError KVPair)) * Lsm :=
  match scan_at fuel start end_ max_seq t with
  | (Ok it, t1) =>
      let '(l, c) := drain_iter (scan_next (tables t) fuel) fuel it (cache t1) in (Ok l, with_cache c t1)
  | (Err e, t1) => (Err e, t1)
  | (Panic, t1) => (Panic, t1)
  end.

(** [Lsm::scan]: as of the current sequence number. *)
Definition scan (fuel : nat) (start end_ : bound (list byte)) (t : Lsm) :=
  scan_collect fuel start end_ (lseq t) t.
End lsm.
