(* ===== verification/LsmReads.v ===== *)
(** * What the tree's reads return

    The abstract store is the history of acknowledged writes; a read as of
    sequence number [s] sees the first [s] of them.  [view] relates a tree to a
    history through the entries its memtable and its tables hold, and the
    theorems show that [get] and [scan] return what the history says. *)

From Stdlib Require Import Strings.Byte ZArith Lia Sorted.
From stdpp Require Import prelude list strings gmap.
From S2P Require Import Prelude Codec LsmKey Memtable Journal DataBlock Journaled Iterator Policies MemoCache SstHeader SsTable SsTableRead SsTableWrite Manifest ManifestManager Lsm.
Local Open Scope Z_scope.

#[global] Instance concat_Permutation {A} : Proper ((≡ₚ) ==> (≡ₚ)) (@concat A).
Proof.
  intros ls ls' H. induction H as [|l ls ls' _ IH|l l' ls|ls1 ls2 ls3 _ IH1 _ IH2]; cbn.
  - done.
  - by rewrite IH.
  - rewrite !app_assoc. by rewrite (Permutation_app_comm l' l).
  - by transitivity (concat ls2).
Qed.

(** ** The abstract store *)

(** A write: the key, and the value put or [None] for a delete. *)
Abbreviation change := (list byte * option (list byte))%type.
Abbreviation history := (list change).

(** The [n]-th write, as the record the tree stores for it. *)
Definition hist_entry (n : nat) (w : change) : KeyValue :=
  match w.2 with
  | Some v => KV (IKey w.1 (Z.of_nat (S n)) Put) v
  | None => KV (IKey w.1 (Z.of_nat (S n)) Delete) []
  end.

Definition hist_kvs (h : history) : list KeyValue := imap hist_entry h.

(** The value of [k]: that of its last write. *)
Definition spec_get (h : history) (k : list byte) : option (list byte) :=
  match List.find (fun w => bool_decide (w.1 = k)) (reverse h) with
  | Some w => w.2
  | None => None
  end.

Lemma hist_entry_fields n w :
  uk (hist_entry n w) = w.1 /\ seq (key (hist_entry n w)) = Z.of_nat (S n)
  /\ resolve (op (key (hist_entry n w))) (value (hist_entry n w)) = w.2.
Proof. unfold hist_entry. destruct w as [k [v|]]; done. Qed.

Lemma elem_of_hist kv h : kv ∈ hist_kvs h <-> exists n w, h !! n = Some w /\ kv = hist_entry n w.
Proof.
  unfold hist_kvs. rewrite list_elem_of_lookup. split.
  - intros [n Hn]. rewrite list_lookup_imap in Hn. destruct (h !! n) as [w|] eqn:E; [|done].
    injection Hn as <-. by exists n, w.
  - intros (n & w & E & ->). exists n. by rewrite list_lookup_imap, E.
Qed.

Lemma hist_seq kv h : kv ∈ hist_kvs h -> 1 <= seq (key kv) <= Z.of_nat (length h).
Proof.
  intros (n & w & Hl & ->)%elem_of_hist. destruct (hist_entry_fields n w) as (_ & -> & _).
  apply lookup_lt_Some in Hl. lia.
Qed.

Lemma hist_take kv h s : kv ∈ hist_kvs (take s h) <-> kv ∈ hist_kvs h /\ seq (key kv) <= Z.of_nat s.
Proof.
  rewrite !elem_of_hist. split.
  - intros (n & w & Hl & ->). apply lookup_take_Some in Hl as [Hl Hn]. split; [eauto|].
    destruct (hist_entry_fields n w) as (_ & -> & _). lia.
  - intros [(n & w & Hl & ->) Hs]. exists n, w. split; [|done]. apply lookup_take_Some. split; [done|].
    destruct (hist_entry_fields n w) as (_ & E & _). lia.
Qed.

Lemma hist_snoc h w : hist_kvs (h ++ [w]) = hist_kvs h ++ [hist_entry (length h) w].
Proof. unfold hist_kvs. rewrite imap_app. cbn. by rewrite Nat.add_0_r. Qed.

(** ** Newest versions *)

(** [o] is the newest version of [k] among the records of [l]. *)
Definition is_newest (l : list KeyValue) (k : list byte) (o : option KeyValue) : Prop :=
  match o with
  | Some kv => kv ∈ l /\ uk kv = k /\ forall kv', kv' ∈ l -> uk kv' = k -> seq (key kv') <= seq (key kv)
  | None => forall kv, kv ∈ l -> uk kv <> k
  end.

Lemma is_newest_ext l l' k o : (forall kv, kv ∈ l <-> kv ∈ l') -> is_newest l k o -> is_newest l' k o.
Proof.
  intros E. destruct o as [kv|]; cbn.
  - intros (H1 & H2 & H3). split; [by apply E|]. split; [done|]. intros kv' Hin. by apply H3, E.
  - intros H kv Hin. by apply H, E.
Qed.

Lemma hist_newest h k o :
  is_newest (hist_kvs h) k o ->
  spec_get h k = (kv ← o; resolve (op (key kv)) (value kv)).
Proof.
  induction h as [|w h IH] using rev_ind.
  { destruct o as [kv|]; cbn; [by intros [?%not_elem_of_nil _] | done]. }
  rewrite hist_snoc. unfold spec_get in *. rewrite reverse_app. cbn [reverse app List.find]. cbn.
  destruct (hist_entry_fields (length h) w) as (F1 & F2 & F3). case_bool_decide as Hk.
  - intros Hn. assert (Hin : hist_entry (length h) w ∈ hist_kvs h ++ [hist_entry (length h) w])
      by (apply elem_of_app; right; by apply list_elem_of_singleton).
    destruct o as [kv|]; [|by destruct (Hn _ Hin); rewrite F1].
    destruct Hn as (H1 & H2 & H3). specialize (H3 _ Hin ltac:(by rewrite F1)).
    apply elem_of_app in H1 as [H1| ->%list_elem_of_singleton]; [|by rewrite <- F3].
    apply hist_seq in H1. rewrite F2 in H3. lia.
  - intros Hn. apply IH. destruct o as [kv|]; cbn in *.
    + destruct Hn as (H1 & H2 & H3). split; [|split; [done|]].
      * apply elem_of_app in H1 as [H1| ->%list_elem_of_singleton]; [done|]. congruence.
      * intros kv' Hin. apply H3, elem_of_app. by left.
    + intros kv Hin. apply Hn, elem_of_app. by left.
Qed.

Lemma first_version_newest k l : kvs_sorted l -> is_newest l k (Resolver.first_version k l).
Proof.
  intros Hs. destruct (Resolver.first_version k l) as [kv|] eqn:E; cbn.
  - unfold Resolver.first_version in E. revert E. induction Hs as [|a l Hs IH Ha]; [done|]. cbn.
    case_bool_decide as Hk.
    + intros [= <-]. split; [by apply elem_of_cons; left|]. split; [done|].
      intros kv' [-> |Hin]%elem_of_cons Hk'; [lia|]. rewrite Forall_forall in Ha. specialize (Ha _ Hin).
      unfold Resolver.kv_le, cmp_le, ikey_cmp in Ha. rewrite Hk, Hk', (cmp_refl bytes_cmp) in Ha.
      apply Z.compare_ngt_iff in Ha. lia.
    + intros E. destruct (IH E) as (H1 & H2 & H3). split; [by apply elem_of_cons; right|]. split; [done|].
      intros kv' [-> |Hin]%elem_of_cons Hk'; [done | by apply H3].
  - unfold Resolver.first_version in E. rewrite find_none_iff in E. intros kv Hin.
    specialize (E kv Hin). by apply bool_decide_eq_false in E.
Qed.

(** ** Layers: what a lookup stops at *)

Fixpoint layer_find (k : list byte) (layers : list (list KeyValue)) : option KeyValue :=
  match layers with
  | [] => None
  | l :: ls => match Resolver.first_version k l with Some kv => Some kv | None => layer_find k ls end
  end.

(** A layer that holds a key holds a version at least as new as any below. *)
Definition shadows (l below : list KeyValue) : Prop :=
  forall a b, a ∈ below -> b ∈ l -> uk a = uk b ->
    exists b', b' ∈ l /\ uk b' = uk a /\ seq (key a) <= seq (key b').

Fixpoint layers_ok (layers : list (list KeyValue)) : Prop :=
  match layers with
  | [] => True
  | l :: ls => kvs_sorted l /\ shadows l (concat ls) /\ layers_ok ls
  end.

Lemma layer_find_newest k layers : layers_ok layers -> is_newest (concat layers) k (layer_find k layers).
Proof.
  induction layers as [|l ls IH]; cbn; [by intros _ kv ?%not_elem_of_nil|]. intros (Hs & Hsh & Hls).
  pose proof (first_version_newest k l Hs) as Hf. specialize (IH Hls).
  destruct (Resolver.first_version k l) as [kv|].
  - destruct Hf as (H1 & H2 & H3). split; [apply elem_of_app; by left|]. split; [done|].
    intros kv' [Hin|Hin]%elem_of_app Hk; [by apply H3|].
    destruct (Hsh kv' kv Hin H1 ltac:(congruence)) as (b' & Hb & Hub & Hle).
    specialize (H3 b' Hb ltac:(congruence)). lia.
  - destruct (layer_find k ls) as [kv|]; cbn in *.
    + destruct IH as (H1 & H2 & H3). split; [apply elem_of_app; by right|]. split; [done|].
      intros kv' [Hin|Hin]%elem_of_app Hk; [by destruct (Hf kv' Hin) | by apply H3].
    + intros kv' [Hin|Hin]%elem_of_app; [by apply Hf | by apply IH].
Qed.

(** ** The tree's contents *)

Definition mem_kvs {M} `{!MemStore M, !MemStoreOk M} (m : M) : list KeyValue := to_kv <$> ms_entries m.

Definition seg (tabs : gmap Z (TableConfig * list KeyValue)) (id : Z) : list KeyValue :=
  match tabs !! id with Some (_, es) => es | None => [] end.

(** The runs a tree without compaction has: one file per run, all in level 0. *)
Definition flushed_runs (ids : list Z) : list RunDescriptor := (fun id => MkRun 0 id [id]) <$> ids.

Section reads.
Context {Crc : Crc32} {FB : FastBloom} {FBOk : FastBloomOk} {M : Type} {MS : MemStore M} {MSOk : MemStoreOk M}.
Abbreviation Lsm := (Lsm M).
Abbreviation tables_of := (gmap Z (TableConfig * list KeyValue)).

Definition layers (m : M) (tabs : tables_of) (ids : list Z) : list (list KeyValue) :=
  mem_kvs m :: (seg tabs <$> reverse ids).

(** The tree [t] holds the history [h]: its memtable and the tables [tabs] of
    its runs [ids] hold exactly the records of [h], newer layers shadow older
    ones, and the files and the page cache agree with [tabs]. *)
Record view (t : Lsm) (h : history) (tabs : tables_of) (ids : list Z) : Prop := {
  v_levels : (0 < num_levels (config t))%nat;
  v_runs : runs (version (manifest t)) = flushed_runs ids;
  v_tabs : forall id, is_Some (tabs !! id) <-> id ∈ ids;
  v_dir : dir_holds (tables t) tabs;
  v_coh : sst_coherent (truth_h tabs) (truth_b tabs) (cache t);
  v_mem : ms_wf (inner (mem t));
  v_seq : lseq t = Z.of_nat (length h);
  v_u64 : is_u64 (lseq t);
  v_set : forall kv, kv ∈ concat (layers (inner (mem t)) tabs ids) <-> kv ∈ hist_kvs h;
  v_layers : layers_ok (layers (inner (mem t)) tabs ids) }.

Lemma view_with_cache t h tabs ids c :
  view t h tabs ids -> sst_coherent (truth_h tabs) (truth_b tabs) c -> view (with_cache c t) h tabs ids.
Proof. by intros [] Hc; split. Qed.

(** A bound on the entries a scan can meet, from the tree's own state: those of
    the memtable are distinct writes, those of a table take bytes of its file. *)
Definition scan_fuel (t : Lsm) : nat :=
  S (Z.to_nat (lseq t) + sum_list_with (fun id => length (default [] (tables t !! id))) (flat_map run_files (runs (version (manifest t))))).

(** *** The memtable layer *)

Lemma mem_sorted m : ms_wf m -> kvs_sorted (mem_kvs m).
Proof.
  intros Hw. apply ms_sorted in Hw. unfold mem_kvs, BTree.sorted in *.
  induction Hw as [|e l Hs IH Ha]; cbn; constructor; [done|]. apply Forall_fmap.
  eapply Forall_impl; [exact Ha|]. intros e' Hlt. unfold Resolver.kv_le, cmp_le, BTree.lt_entry in *. cbn. congruence.
Qed.

Lemma block_length g : (length g <= length (block_encode g))%nat.
Proof.
  unfold block_encode, encode_all. induction g as [|e g IH]; [done|]. cbn [flat_map length]. rewrite length_app.
  change (wire_encode e) with (kv_encode e). rewrite length_kv_encode. unfold entry_size. lia.
Qed.

Lemma build_loop_length fuel target : forall data es, (length es <= fuel)%nat ->
  (length data + length es <= length (build_loop fuel target data es).1)%nat.
Proof.
  induction fuel as [|f IH]; intros data es Hf; [destruct es; cbn in *; lia|]. destruct es as [|e es]; [cbn; lia|]. cbn [build_loop].
  destruct (fill_block_spec target 0 (uk e) data (e :: es)) as (g & rest & Ees & -> & Hg).
  specialize (Hg eq_refl ltac:(done)). destruct (pad_app target (data ++ block_encode g)) as [z ->].
  apply (f_equal length) in Ees. rewrite length_app in Ees. assert (0 < length g)%nat by (destruct g; [done | cbn; lia]).
  specialize (IH ((data ++ block_encode g) ++ z) rest ltac:(lia)). pose proof (block_length g).
  destruct (build_loop f target ((data ++ block_encode g) ++ z) rest) as [d ms]. cbn [fst] in *. rewrite !length_app in IH. lia.
Qed.

Lemma entries_le_bytes id config es : (length es <= length (sst_bytes id config es))%nat.
Proof.
  unfold sst_bytes, sst_parts, build.
  pose proof (build_loop_length (length es) (Nat.max (page_size_bytes (page_config config)) 1) [] es ltac:(lia)) as H.
  destruct (build_loop _ _ _ _) as [d ms]. cbn [b_blocks b_buf b_range b_bloom b_size fst length Nat.add] in *.
  destruct (_ <=? _)%nat; [rewrite length_app; lia|].
  destruct (append_shards_spec id d (chunks (Nat.max (blocks_per_chunk (page_config config)) 1) ms)) as (tail & cs & -> & _).
  rewrite !length_app. lia.
Qed.

Lemma mem_count t h tabs ids : view t h tabs ids -> (length (mem_kvs (inner (mem t))) <= length h)%nat.
Proof.
  intros V. replace (length h) with (length (hist_kvs h)) by (unfold hist_kvs; apply length_imap).
  apply submseteq_length, NoDup_submseteq.
  - pose proof (ms_sorted _ (v_mem _ _ _ _ V)) as Hs. unfold mem_kvs, BTree.sorted in *.
    induction Hs as [|e l _ IH Ha]; [constructor|]. cbn. constructor; [|done]. intros (e' & E & He)%list_elem_of_fmap.
    rewrite Forall_forall in Ha. specialize (Ha e' He). unfold BTree.lt_entry in Ha.
    assert (key (to_kv e) = key (to_kv e')) as Ek by (by rewrite E). cbn in Ek. rewrite Ek, (cmp_refl ikey_cmp) in Ha. done.
  - intros kv Hkv. apply (v_set _ _ _ _ V). unfold layers. cbn. apply elem_of_app. by left.
Qed.

Lemma hd_filter_find {A} (f : A -> bool) l : head (List.filter f l) = List.find f l.
Proof. induction l as [|a l IH]; [done|]. cbn. by destruct (f a). Qed.

Lemma in_bounds_point k k' : in_bounds k' (Included k) (Included k) = bool_decide (k' = k).
Proof.
  unfold in_bounds. apply eq_true_iff_eq. rewrite andb_true_iff, !bytes_leb_le, bool_decide_eq_true. split.
  - intros [H1 H2]. by apply bytes_le_antisym.
  - intros ->. split; reflexivity.
Qed.

Lemma find_to_kv f l : List.find f (to_kv <$> l) = to_kv <$> List.find (fun e => f (to_kv e)) l.
Proof. induction l as [|e l IH]; [done|]. cbn. by destruct (f (to_kv e)). Qed.

(** The probe of [get_at]: the first visible entry of the memtable, if any. *)
Lemma mem_probe k s m :
  ms_wf m -> (forall kv, kv ∈ mem_kvs m -> seq (key kv) <= s) ->
  exists l, ms_scan_at (Included k) (Included k) s m = Ok (Ok <$> l)
    /\ to_kv <$> head l = Resolver.first_version k (mem_kvs m).
Proof.
  intros Hw Hs. eexists. split.
  - apply ms_scan_spec; [done|]. cbn. by apply bytes_leb_le.
  - rewrite hd_filter_find. unfold Resolver.first_version, mem_kvs. rewrite find_to_kv. f_equal.
    apply find_ext_in. intros e He. unfold visible. rewrite in_bounds_point. cbn.
    rewrite (proj2 (Z.leb_le _ _)); [by rewrite andb_true_r|].
    apply (Hs (to_kv e)), list_elem_of_fmap. by exists e.
Qed.

(** *** The visiting order *)

Lemma runs_in_flushed v ids lv :
  runs v = flushed_runs ids -> runs_in v lv = if lv =? 0 then flushed_runs ids else [].
Proof.
  intros E. unfold runs_in. rewrite E. unfold flushed_runs. destruct (Z.eqb_spec lv 0) as [->|Hn].
  - clear E. induction ids as [|i ids IH]; [done|]. cbn. by rewrite IH.
  - apply filter_none. intros r (i & -> & _)%list_elem_of_fmap. cbn [run_level]. apply Z.eqb_neq. lia.
Qed.

Lemma flat_files ids : flat_map run_files (flushed_runs ids) = ids.
Proof. unfold flushed_runs. induction ids as [|i ids IH]; [done|]. cbn. by rewrite IH. Qed.

Lemma scan_fuel_enough t h tabs ids : view t h tabs ids -> (length (concat (layers (inner (mem t)) tabs ids)) < scan_fuel t)%nat.
Proof.
  intros V. unfold scan_fuel, layers. cbn. rewrite length_app. pose proof (mem_count t h tabs ids V).
  rewrite (v_seq _ _ _ _ V), Nat2Z.id, (v_runs _ _ _ _ V), flat_files.
  enough (length (concat (seg tabs <$> reverse ids)) <= sum_list_with (fun id => length (default [] (tables t !! id))) ids)%nat by lia.
  rewrite <- (sum_list_with_reverse _ ids). assert (forall id, id ∈ reverse ids -> is_Some (tabs !! id)) as Ht.
  { intros id Hid. apply (v_tabs _ _ _ _ V). by apply elem_of_reverse. }
  induction (reverse ids) as [|id l IH]; [done|]. cbn. rewrite length_app.
  destruct (Ht id ltac:(by left)) as [[cf es] E]. unfold seg at 1. rewrite E.
  destruct (v_dir _ _ _ _ V id cf es E) as [_ ->]. cbn. pose proof (entries_le_bytes id cf es).
  specialize (IH ltac:(intros; apply Ht; by right)). lia.
Qed.

Lemma flat_map_levels n (f : Z -> list Z) :
  (0 < n)%nat -> (forall lv, lv <> 0 -> f lv = []) -> flat_map (fun l => f (Z.of_nat l)) (List.seq 0 n) = f 0.
Proof.
  intros Hn Hf. destruct n as [|n]; [lia|]. cbn [List.seq flat_map].
  enough (E : flat_map (fun l => f (Z.of_nat l)) (List.seq 1 n) = []) by (rewrite E; apply app_nil_r).
  assert (Hall : forall a, (1 <= a)%nat -> flat_map (fun l => f (Z.of_nat l)) (List.seq a n) = []).
  { induction n as [|n IH]; intros a Ha; [done|]. cbn. rewrite Hf by lia. apply IH; lia. }
  by apply Hall.
Qed.

Lemma get_order_flushed cfg v ids :
  (0 < num_levels cfg)%nat -> runs v = flushed_runs ids -> get_order cfg v = reverse ids.
Proof.
  intros Hn E. unfold get_order.
  rewrite (flat_map_levels _ (fun lv => flat_map run_files (reverse (runs_in v lv)))); [|done|].
  - rewrite (runs_in_flushed v ids 0 E). cbn [Z.eqb]. unfold flushed_runs. rewrite <- fmap_reverse. apply flat_files.
  - intros lv Hlv. rewrite (runs_in_flushed v ids lv E), (proj2 (Z.eqb_neq _ _)) by done. done.
Qed.

Lemma scan_order_flushed cfg v ids :
  (0 < num_levels cfg)%nat -> runs v = flushed_runs ids -> scan_order cfg v = ids.
Proof.
  intros Hn E. unfold scan_order.
  rewrite (flat_map_levels _ (fun lv => flat_map run_files (runs_in v lv))); [|done|].
  - rewrite (runs_in_flushed v ids 0 E). apply flat_files.
  - intros lv Hlv. rewrite (runs_in_flushed v ids lv E), (proj2 (Z.eqb_neq _ _)) by done. done.
Qed.

(** ** Point lookups *)

Lemma get_in_tables_ok dir tabs ids k s c :
  dir_holds dir tabs -> (forall id, id ∈ ids -> is_Some (tabs !! id)) ->
  (forall kv, kv ∈ concat (seg tabs <$> ids) -> seq (key kv) <= s) ->
  sst_coherent (truth_h tabs) (truth_b tabs) c ->
  exists c', get_in_tables dir ids k s c
    = (Ok (kv ← layer_find k (seg tabs <$> ids); resolve (op (key kv)) (value kv)), c')
    /\ sst_coherent (truth_h tabs) (truth_b tabs) c'.
Proof.
  intros Hd. revert c. induction ids as [|id ids IH]; intros c Hids Hs Hc; cbn [get_in_tables]; [by exists c|].
  destruct (Hids id ltac:(apply elem_of_cons; by left)) as [[cf es] Ht].
  destruct (sst_open_ok dir tabs id cf es Hd Ht c Hc) as (t & c1 & -> & Hc1 & Hok & _).
  assert (Eseg : seg tabs id = es) by (unfold seg; by rewrite Ht).
  cbn [fmap list_fmap concat layer_find] in *. rewrite Eseg in *.
  destruct (sst_get_ok dir _ _ t es k s c1 Hok Hc1) as (c2 & -> & Hc2).
  { intros kv Hin _. apply Hs, elem_of_app. by left. }
  destruct (Resolver.first_version k es) as [kv|]; [by exists c2|].
  apply IH; [|intros kv Hin; apply Hs, elem_of_app; by right|done].
  intros id' Hin. apply Hids, elem_of_cons. by right.
Qed.

Lemma view_seqs t h tabs ids kv :
  view t h tabs ids -> kv ∈ concat (layers (inner (mem t)) tabs ids) -> seq (key kv) <= lseq t.
Proof. intros V Hin. apply (v_set _ _ _ _ V), hist_seq in Hin. rewrite (v_seq _ _ _ _ V). lia. Qed.

Lemma get_ok t h tabs ids k :
  view t h tabs ids ->
  exists c, get k t = (Ok (spec_get h k), with_cache c t) /\ sst_coherent (truth_h tabs) (truth_b tabs) c.
Proof.
  intros V. pose proof (layer_find_newest k _ (v_layers _ _ _ _ V)) as Hn.
  apply (is_newest_ext _ _ _ _ (v_set _ _ _ _ V)), hist_newest in Hn. rewrite Hn. cbn [layers layer_find].
  unfold get, get_at, jscan_at.
  destruct (mem_probe k (lseq t) (inner (mem t)) (v_mem _ _ _ _ V)) as (l & -> & Hl).
  { intros kv Hin. apply (view_seqs t h tabs ids kv V). cbn. apply elem_of_app. by left. }
  cbn [map_err]. rewrite <- Hl. destruct l as [|e l]; cbn [fmap list_fmap head option_fmap option_map].
  - rewrite (get_order_flushed _ _ ids (v_levels _ _ _ _ V) (v_runs _ _ _ _ V)).
    destruct (get_in_tables_ok (tables t) tabs (reverse ids) k (lseq t) (cache t)) as (c & -> & Hc).
    + apply V.
    + intros id Hin. apply (v_tabs _ _ _ _ V). by rewrite elem_of_reverse in Hin.
    + intros kv Hin. apply (view_seqs t h tabs ids kv V). cbn. apply elem_of_app. by right.
    + apply V.
    + by exists c.
  - exists (cache t). split; [|apply V]. cbn. by destruct t.
Qed.

(** ** Scans *)

Abbreviation inv tabs := (sst_coherent (truth_h tabs) (truth_b tabs)).

Lemma slist_streams dir fuel (P : SstPageCache -> Prop) l : streams (kv_next dir fuel) P (SList l) l.
Proof. induction l as [|a l IH]; cbn; intros c Hc; eauto. Qed.

Lemma sblocks_streams dir fuel (P : SstPageCache -> Prop) b l :
  streams (stream_next dir fuel) P b l -> streams (kv_next dir fuel) P (SBlocks b) l.
Proof.
  revert b. induction l as [|a l IH]; cbn; intros b H c Hc; destruct (H c Hc) as (b' & c' & -> & Hr); [eauto|].
  destruct Hr as [Hc' Hs]. eauto 6.
Qed.

Lemma kvs_sorted_filter f l : kvs_sorted l -> kvs_sorted (List.filter f l).
Proof.
  induction 1 as [|a l Hs IH Ha]; cbn; [constructor|]. destruct (f a); [|done]. constructor; [done|].
  rewrite Forall_forall in Ha |- *. intros x Hx. apply Ha. apply list_elem_of_In, List.filter_In in Hx as [Hx _].
  by apply list_elem_of_In.
Qed.

Lemma elem_of_lfilter {A} (f : A -> bool) l x : x ∈ List.filter f l <-> x ∈ l /\ f x = true.
Proof. rewrite !list_elem_of_In. apply List.filter_In. Qed.

Lemma table_sources_ok dir tabs ids start end_ q fuel c :
  dir_holds dir tabs -> (forall id, id ∈ ids -> is_Some (tabs !! id)) ->
  (length (concat (seg tabs <$> ids)) < fuel)%nat -> inv tabs c ->
  exists srcs c' ls, table_sources dir ids start end_ q c = (srcs, c') /\ inv tabs c'
    /\ Forall2 (fun s l => streams (kv_next dir fuel) (inv tabs) s (Ok <$> l)) srcs ls
    /\ Forall (StronglySorted Resolver.kv_le) ls
    /\ concat ls = List.filter (entry_visible start end_ q) (concat (seg tabs <$> ids)).
Proof.
  intros Hd. revert c. induction ids as [|id ids IH]; intros c Hids Hf Hc; cbn [table_sources].
  { exists [], c, []. repeat split; try done; try apply Hc; constructor. }
  destruct (Hids id ltac:(apply elem_of_cons; by left)) as [[cf es] Ht].
  destruct (sst_open_ok dir tabs id cf es Hd Ht c Hc) as (t & c1 & -> & Hc1 & Hok & _).
  assert (Eseg : seg tabs id = es) by (unfold seg; by rewrite Ht).
  cbn [fmap list_fmap concat] in *. rewrite Eseg in *. rewrite length_app in Hf.
  destruct (IH c1) as (srcs & c2 & ls & E & Hc2 & Hst & Hso & Ecc).
  { intros id' Hin. apply Hids, elem_of_cons. by right. }
  { lia. }
  { done. }
  unfold list_fmap in E. rewrite E. rewrite List.filter_app. pose proof Hok as (Hs & _ & Hadm).
  destruct (overlaps (t_range t) start end_) eqn:Eo.
  - eexists _, c2, (List.filter (entry_visible start end_ q) es :: ls). split; [done|]. split; [done|].
    split; [|split; [|cbn; by rewrite Ecc]].
    + constructor; [|done]. apply sblocks_streams. by apply sst_scan_streams; [|lia].
    + constructor; [by apply kvs_sorted_filter | done].
  - exists srcs, c2, ls. split; [done|]. split; [done|]. split; [done|]. split; [done|].
    rewrite filter_none; [done|]. intros kv Hin. unfold entry_visible.
    destruct (in_bounds (uk kv) start end_) eqn:Eb; [|by rewrite andb_false_r].
    destruct (Hadm kv Hin) as [Hr _]. by rewrite (overlaps_complete _ _ _ _ Hr Eb) in Eo.
Qed.

Lemma item_le_sorted l : kvs_sorted l -> StronglySorted (cmp_le item_cmp) (Ok <$> l).
Proof.
  induction 1 as [|a l Hs IH Ha]; cbn; constructor; [done|]. apply Forall_fmap.
  eapply Forall_impl; [exact Ha|]. done.
Qed.

Lemma kv_le_sorted_inv l : StronglySorted (cmp_le item_cmp) (Ok <$> l) -> kvs_sorted l.
Proof.
  induction l as [|a l IH]; cbn; intros H; [constructor|]. apply StronglySorted_inv in H as [H Ha].
  constructor; [by apply IH|]. rewrite Forall_fmap in Ha. exact Ha.
Qed.

Lemma perm_fmap_ok (l : list item) kvs :
  l ≡ₚ Ok <$> kvs -> exists kvs', l = Ok <$> kvs' /\ kvs' ≡ₚ kvs.
Proof. intros H. apply Permutation_map_inv in H as (l' & -> & H). by exists l'. Qed.

Lemma drain_scan_next dir fuel n it c l c' :
  drain_iter (Resolver.resolver_next (Merge.merge_next (kv_next dir fuel) item_cmp) fuel) n it c = (l, c') ->
  drain_iter (scan_next dir fuel) n it c = (map_err lsm_of_read <$> l, c').
Proof.
  revert it c l c'. induction n as [|n IH]; cbn; intros it c l c' E; [by injection E as <- <-|].
  unfold scan_next. destruct (Resolver.resolver_next _ fuel it c) as [[[a|] it'] c1]; cbn.
  - destruct (drain_iter _ n it' c1) as [l1 c2] eqn:E1. injection E as <- <-.
    fold (scan_next dir fuel). by rewrite (IH _ _ _ _ E1).
  - by injection E as <- <-.
Qed.

Lemma mem_scan_items lo hi q m :
  ms_wf m -> valid_range lo hi = true ->
  exists es, ms_scan_at lo hi q m = Ok (Ok <$> es)
    /\ to_kv <$> es = List.filter (entry_visible lo hi q) (mem_kvs m).
Proof.
  intros Hw Hv. eexists. split; [by apply ms_scan_spec|]. unfold mem_kvs.
  induction (ms_entries m) as [|e l IH]; [done|]. cbn.
  unfold visible at 1, entry_visible at 1. cbn. rewrite andb_comm. destruct (_ && _); cbn; by rewrite IH.
Qed.

Lemma filter_concat_elem {A} (f : A -> bool) ls x :
  x ∈ List.filter f (concat ls) <-> x ∈ concat ls /\ f x = true.
Proof. apply elem_of_lfilter. Qed.

(** The newest visible version of a key is the abstract value as of [q]. *)
Lemma visible_newest h l (all : list KeyValue) lo hi q k :
  0 <= q -> (forall kv, kv ∈ all <-> kv ∈ hist_kvs h) -> kvs_sorted l ->
  (forall kv, kv ∈ l <-> kv ∈ all /\ entry_visible lo hi q kv = true) ->
  in_bounds k lo hi = true ->
  spec_get (take (Z.to_nat q) h) k
  = (kv ← Resolver.first_version k l; resolve (op (key kv)) (value kv)).
Proof.
  intros Hq Hall Hs Hl Hk. apply hist_newest. pose proof (first_version_newest k l Hs) as Hn.
  assert (E : forall kv, uk kv = k -> kv ∈ l <-> kv ∈ hist_kvs (take (Z.to_nat q) h)).
  { intros kv Hu. rewrite Hl, Hall, hist_take. unfold entry_visible.
    rewrite Hu, Hk, andb_true_r, Z.leb_le, Z2Nat.id by done. done. }
  destruct (Resolver.first_version k l) as [kv|]; cbn in *.
  - destruct Hn as (H1 & H2 & H3). split; [by apply E|]. split; [done|].
    intros kv' Hin Hu. apply H3; [by apply E | done].
  - intros kv Hin Hu. apply (Hn kv); [by apply E | done].
Qed.

Lemma first_version_outside k l lo hi q :
  (forall kv, kv ∈ l -> entry_visible lo hi q kv = true) -> in_bounds k lo hi = false ->
  Resolver.first_version k l = None.
Proof.
  intros Hl Hk. destruct (Resolver.first_version k l) as [kv|] eqn:E; [|done].
  apply first_version_in in E as [Hin <-]. specialize (Hl kv Hin). unfold entry_visible in Hl.
  by rewrite Hk, andb_false_r in Hl.
Qed.

(** Merging streams of sorted records: a sorted stream of all of them. *)
Lemma merge_records {I} (next : step_fn I item SstPageCache) (P : SstPageCache -> Prop) srcs ls c :
  Forall2 (fun s l => streams next P s (Ok <$> l)) srcs ls -> Forall (StronglySorted Resolver.kv_le) ls -> P c ->
  exists ss c' l, Merge.new next srcs c = (ss, c') /\ P c'
    /\ streams (Merge.merge_next next item_cmp) P ss (Ok <$> l) /\ kvs_sorted l /\ l ≡ₚ concat ls.
Proof.
  intros Hst Hso Hc. set (lists := fmap (M := list) (fun l : list KeyValue => fmap (M := list) (@Ok ReadError KeyValue) l) ls).
  assert (Hsrc : Forall2 (streams next P) srcs lists) by (apply Forall2_fmap_r; exact Hst).
  destruct (Merge.new_streams _ _ _ _ c Hsrc Hc) as (ss & c' & E & Hc' & Hss).
  assert (Econc : concat lists = Ok <$> concat ls).
  { unfold lists. clear. induction ls as [|l ll IH]; [done|]. cbn. by rewrite IH, fmap_app. }
  pose proof (Merge.merge_streams next item_cmp P (S (Merge.total lists)) ss lists Hss ltac:(lia)) as Hm.
  pose proof (Merge.kmerge_Permutation item_cmp (S (Merge.total lists)) lists ltac:(lia)) as Hp.
  assert (Hsorted : StronglySorted (cmp_le item_cmp) (Merge.kmerge item_cmp (S (Merge.total lists)) lists)).
  { apply Merge.kmerge_sorted; [apply _|lia|]. unfold lists. apply Forall_fmap.
    eapply Forall_impl; [exact Hso|]. apply item_le_sorted. }
  rewrite Econc in Hp. destruct (perm_fmap_ok _ _ Hp) as (l & El & Hl). rewrite El in Hm, Hsorted.
  apply kv_le_sorted_inv in Hsorted. by exists ss, c', l.
Qed.

Lemma item_of_entries (es : list entry) : item_of <$> (Ok <$> es) = Ok <$> (to_kv <$> es).
Proof. induction es as [|e es IH]; [done|]. cbn. by rewrite <- IH. Qed.

(** The merged stream a scan resolves: all visible records, sorted. *)
Lemma scan_at_ok t h tabs ids lo hi q fuel :
  view t h tabs ids -> valid_range lo hi = true ->
  (length (concat (layers (inner (mem t)) tabs ids)) < fuel)%nat ->
  exists ss c l, scan_at fuel lo hi q t = (Ok (Resolver.new ss), with_cache c t) /\ inv tabs c
    /\ streams (Merge.merge_next (kv_next (tables t) fuel) item_cmp) (inv tabs) ss (Ok <$> l) /\ kvs_sorted l
    /\ (length l < fuel)%nat
    /\ forall kv, kv ∈ l <-> kv ∈ concat (layers (inner (mem t)) tabs ids) /\ entry_visible lo hi q kv = true.
Proof.
  intros V Hv Hf. unfold scan_at, jscan_at.
  destruct (mem_scan_items lo hi q _ (v_mem _ _ _ _ V) Hv) as (es & -> & Hes). cbn [map_err].
  rewrite (scan_order_flushed _ _ ids (v_levels _ _ _ _ V) (v_runs _ _ _ _ V)).
  assert (Hperm : concat (seg tabs <$> reverse ids) ≡ₚ concat (seg tabs <$> ids)).
  { rewrite fmap_reverse. by rewrite reverse_Permutation. }
  cbn [layers concat] in Hf. rewrite length_app, Hperm in Hf.
  destruct (table_sources_ok (tables t) tabs ids lo hi q fuel (cache t)) as (srcs & c1 & ls & -> & Hc1 & Hst & Hso & Ecc).
  { apply V. } { intros id. apply V. } { lia. } { apply V. }
  rewrite item_of_entries, Hes.
  destruct (merge_records (kv_next (tables t) fuel) (inv tabs) (SList (Ok <$> List.filter (entry_visible lo hi q) (mem_kvs (inner (mem t)))) :: srcs)
              (List.filter (entry_visible lo hi q) (mem_kvs (inner (mem t))) :: ls) c1)
    as (ss & c2 & l & -> & Hc2 & Hm & Hsl & Hl); [| |done|].
  { constructor; [apply slist_streams | exact Hst]. }
  { constructor; [by apply kvs_sorted_filter, mem_sorted, V | done]. }
  exists ss, c2, l. split; [done|]. split; [done|]. split; [done|]. split; [done|].
  cbn [concat] in Hl. rewrite Ecc, <- List.filter_app in Hl. split.
  - rewrite Hl. pose proof (List.filter_length_le (entry_visible lo hi q) (mem_kvs (inner (mem t)) ++ concat (seg tabs <$> ids))) as Hle.
    rewrite length_app in Hle. lia.
  - intros kv. rewrite Hl, elem_of_lfilter. cbn [layers concat]. by rewrite !elem_of_app, Hperm.
Qed.

Lemma scan_ok t h tabs ids lo hi q fuel :
  view t h tabs ids -> valid_range lo hi = true -> 0 <= q ->
  (length (concat (layers (inner (mem t)) tabs ids)) < fuel)%nat ->
  exists out c, scan_collect fuel lo hi q t = (Ok (Ok <$> out), with_cache c t) /\ inv tabs c
    /\ StronglySorted (fun a b => bytes_cmp a.1 b.1 = Lt) out
    /\ forall k v, (k, v) ∈ out <-> in_bounds k lo hi = true /\ spec_get (take (Z.to_nat q) h) k = Some v.
Proof.
  intros V Hv Hq Hf. unfold scan_collect.
  destruct (scan_at_ok t h tabs ids lo hi q fuel V Hv Hf) as (ss & c2 & l & -> & Hc2 & Hm & Hsorted & Hlen & Hmem).
  destruct (resolver_drain _ (inv tabs) ss l c2 fuel Hm Hc2 Hsorted Hlen) as (out & c3 & Ed & Hc3 & Hs & Hout).
  exists out, c3. cbn [with_cache cache tables]. rewrite (drain_scan_next _ _ _ _ _ _ _ Ed).
  split; [|split; [done|]; split; [done|]].
  - f_equal. f_equal. rewrite <- list_fmap_compose. done.
  - intros k v. rewrite Hout. destruct (in_bounds k lo hi) eqn:Ek.
    + rewrite (visible_newest h l _ lo hi q k Hq (v_set _ _ _ _ V) Hsorted Hmem Ek). split.
      * intros (kv & -> & Ho & <-). split; [done|]. cbn. by rewrite Ho.
      * intros [_ E]. destruct (Resolver.first_version k l) as [kv|]; [|done]. cbn in E.
        exists kv. split; [done|]. destruct (op (key kv)); [|done]. by injection E as ->.
    + rewrite (first_version_outside k l lo hi q); [|by intros kv [_ ?]%Hmem|done].
      split; [by intros (? & ? & _) | by intros [? _]].
Qed.
End reads.
