(* ===== verification/LsmDurable.v ===== *)
(** * Writes, flushes and recovery of the tree

    [durable] says that the files of an open tree rebuild it.  Writes, flushes
    and checkpoints keep the tree's history and its durability; opening the
    files left by a clean stop, or by a crash at any point of a flush, gives a
    tree that holds the same history. *)

From Stdlib Require Import Strings.Byte ZArith Lia Sorted.
From stdpp Require Import prelude list strings gmap.
From S2P Require Import Prelude Codec LsmKey Memtable Journal DataBlock Journaled Iterator Policies MemoCache SstHeader SsTable SsTableRead SsTableWrite Manifest ManifestManager Lsm LsmReads.
Local Open Scope Z_scope.

Section durable.
Context {Crc : Crc32} {CrcOk : Crc32Ok} {FB : FastBloom} {FBOk : FastBloomOk}
  {M : Type} {MS : MemStore M} {MSOk : MemStoreOk M}.
Abbreviation Lsm := (Lsm M).

(** The largest sequence number in the memtable. *)
Definition mem_seq (m : M) : Z := max_seq_of (Ok <$> ms_entries m).

Record durable (m0 : M) (t : Lsm) (ids : list Z) : Prop := {
  d_fresh : ms_clear m0 = (m0, Ok tt);
  d_clear : ms_clear (inner (mem t)) = (m0, Ok tt);
  d_log : consistent m0 (mem t);
  d_man : exists edits, m_ok (mdir t, manifest t) edits;
  d_above : none_above (mdir t, manifest t);
  d_next : forall id, id ∈ ids -> id < next_sst_id (version (manifest t));
  d_next64 : is_u64 (next_sst_id (version (manifest t)));
  d_seq : Z.max (last_seq (version (manifest t))) (mem_seq (inner (mem t))) = lseq t;
  d_wf : Forall kv_wf (mem_kvs (inner (mem t)));
  d_size : size_ok (cache_size (page_cache (config t))) }.

(** The tree holds [h], and so do its files. *)
Definition state_ok (m0 : M) (t : Lsm) (h : history) : Prop :=
  exists tabs ids, view t h tabs ids /\ durable m0 t ids.

(** ** Small facts *)

Lemma fresh_empty m0 : ms_clear m0 = (m0, Ok tt) -> ms_wf m0 /\ ms_entries m0 = [].
Proof. intros H. destruct (ms_clear_spec m0) as (m' & E & Hw & He). rewrite H in E. by injection E as <-. Qed.

#[local] Instance max_seq_of_perm : Proper ((≡ₚ) ==> (=)) max_seq_of.
Proof.
  intros l l' H. unfold max_seq_of. induction H as [|r l l' _ IH|r r' l|l1 l2 l3 _ IH1 _ IH2]; cbn; [done| | |congruence].
  - destruct r; [by rewrite IH|done|done].
  - destruct r, r'; try done. lia.
Qed.

Lemma max_seq_of_le (l : list entry) b : 0 <= b -> (forall e, e ∈ l -> seq e.1 <= b) -> max_seq_of (Ok <$> l) <= b.
Proof.
  intros Hb. unfold max_seq_of. induction l as [|e l IH]; cbn; intros H; [done|]. apply Z.max_lub.
  - apply H, elem_of_cons. by left.
  - apply IH. intros e' He'. apply H, elem_of_cons. by right.
Qed.

Lemma max_seq_of_nonneg (l : list entry) : 0 <= max_seq_of (Ok <$> l).
Proof. unfold max_seq_of. induction l as [|e l IH]; cbn in *; lia. Qed.

(** The whole memtable, as the scan of [open] and [flush] reads it. *)
Lemma mem_scan_all m :
  ms_wf m -> ms_scan_at Unbounded Unbounded u64_max m = Ok (Ok <$> ms_entries m).
Proof.
  intros Hw. rewrite ms_scan_spec by done. do 2 f_equal. pose proof (ms_seqs m Hw) as Hs.
  induction Hs as [|e l He _ IH]; [done|]. cbn [List.filter].
  replace (visible Unbounded Unbounded u64_max e) with true; [by rewrite IH|].
  symmetry. apply Z.leb_le. unfold is_u64 in He. lia.
Qed.

Lemma elem_of_mem_kvs m kv : kv ∈ mem_kvs m <-> (key kv, value kv) ∈ ms_entries m.
Proof.
  unfold mem_kvs. rewrite list_elem_of_fmap. split.
  - intros ([k v] & -> & H). done.
  - intros H. exists (key kv, value kv). split; [by destruct kv | done].
Qed.

(** ** Writes *)

Lemma mem_put_perm k v m m' :
  ms_wf m -> is_u64 (seq k) -> (forall kv, kv ∈ mem_kvs m -> seq (key kv) < seq k) ->
  ms_put k v m = (m', Ok tt) ->
  ms_wf m' /\ ms_entries m' ≡ₚ (k, v) :: ms_entries m /\ mem_kvs m' ≡ₚ KV k v :: mem_kvs m.
Proof.
  intros Hw Hk Hlt Hp. destruct (ms_put_ok k v m m' Hw Hk Hp) as [Hw' He].
  assert (Hperm : ms_entries m' ≡ₚ (k, v) :: ms_entries m).
  { rewrite He. apply BTree.insert_Permutation. apply Forall_forall. intros [k' v'] Hin E. cbn in E.
    apply ikey_cmp_eq in E as [_ Es].
    specialize (Hlt (KV k' v') ltac:(by apply elem_of_mem_kvs)). cbn in Hlt. lia. }
  split; [done|]. split; [done|]. unfold mem_kvs. by rewrite Hperm.
Qed.

Definition change_of (k v : list byte) (o : OpType) : change :=
  (k, match o with Put => Some v | Delete => None end).

Lemma hist_entry_of n k v o : (o = Delete -> v = []) -> hist_entry n (change_of k v o) = KV (IKey k (Z.of_nat (S n)) o) v.
Proof. intros H. unfold hist_entry, change_of. destruct o; [done|]. by rewrite H. Qed.

Lemma write_view t h tabs ids k v o m' j' :
  view t h tabs ids -> is_u64 (lseq t + 1) -> (o = Delete -> v = []) ->
  ms_put (IKey k (lseq t + 1) o) v (inner (mem t)) = (m', Ok tt) ->
  view (MkLsm (config t) (cache t) (MkJournaled m' j') (manifest t) (lseq t + 1) (tables t) (mdir t))
    (h ++ [change_of k v o]) tabs ids.
Proof.
  intros V Hu Hd Hp.
  assert (Hlt : forall kv, kv ∈ concat (layers (inner (mem t)) tabs ids) -> seq (key kv) < lseq t + 1)
    by (intros kv Hin; pose proof (view_seqs t h tabs ids kv V Hin); lia).
  destruct (mem_put_perm (IKey k (lseq t + 1) o) v (inner (mem t)) m' (v_mem _ _ _ _ V) Hu) as (Hw' & Hpe & Hpk); [|done|].
  { intros kv Hin. apply Hlt. cbn. apply elem_of_app. by left. }
  pose proof (v_layers _ _ _ _ V) as Hl. cbn [layers layers_ok] in Hl. destruct Hl as (Hs & Hsh & Hls).
  split; cbn [config cache mem manifest lseq tables inner]; try apply V; try done.
  - rewrite length_app, (v_seq _ _ _ _ V). cbn. lia.
  - intros kv. rewrite hist_snoc, (hist_entry_of _ k v o Hd), elem_of_app, list_elem_of_singleton.
    rewrite <- (v_set _ _ _ _ V kv). cbn [layers concat]. rewrite !elem_of_app, Hpk, elem_of_cons.
    rewrite Nat2Z.inj_succ, <- Z.add_1_r, <- (v_seq _ _ _ _ V). tauto.
  - cbn [layers layers_ok]. split; [by apply mem_sorted|]. split; [|done].
    intros a b Ha Hb Hab. rewrite Hpk, elem_of_cons in Hb.
    destruct (decide (uk a = k)) as [Hk|Hk].
    + exists (KV (IKey k (lseq t + 1) o) v). split; [rewrite Hpk; apply elem_of_cons; by left|]. split; [done|].
      cbn. specialize (Hlt a ltac:(cbn; apply elem_of_app; by right)). lia.
    + destruct Hb as [-> |Hb]; [done|]. destruct (Hsh a b Ha Hb Hab) as (b' & Hb' & ? & ?).
      exists b'. split; [rewrite Hpk; apply elem_of_cons; by right | done].
Qed.

Lemma write_ok m0 t h k v o t' :
  state_ok m0 t h -> codec_wf (KV (IKey k (lseq t + 1) o) v) -> (o = Delete -> v = []) ->
  write io_fine k v o t = (t', Ok tt) -> state_ok m0 t' (h ++ [change_of k v o]).
Proof.
  intros (tabs & ids & V & D) Hwf Hdel. unfold write, jput.
  assert (Hu : is_u64 (lseq t + 1)) by apply Hwf.
  destruct (d_log _ _ _ D) as (rs & Hj & Hr). destruct (holds_append _ _ _ Hj Hwf) as (j' & E & Hj'). rewrite E.
  destruct (ms_put _ v (inner (mem t))) as [m' r] eqn:Ep. destruct r as [[]|e|]; [|done|done]. intros [= <-].
  exists tabs, ids. split; [by apply write_view|].
  destruct (mem_put_perm (IKey k (lseq t + 1) o) v (inner (mem t)) m' (v_mem _ _ _ _ V) Hu) as (_ & Hpe & Hpk); [|done|].
  { intros kv Hin. cbn. pose proof (view_seqs t h tabs ids kv V ltac:(cbn; apply elem_of_app; by left)). lia. }
  split; cbn [config cache mem manifest lseq tables inner mdir]; try apply D.
  - pose proof (ms_put_clear (IKey k (lseq t + 1) o) v (inner (mem t))) as Ec. rewrite Ep in Ec. cbn in Ec.
    rewrite Ec. apply D.
  - apply (consistent_put m0 (mem t) (IKey k (lseq t + 1) o) v); [apply D | done|].
    unfold jput. by rewrite E, Ep.
  - unfold mem_seq. rewrite Hpe. change (fmap Ok ((IKey k (lseq t + 1) o, v) :: ms_entries (inner (mem t))))
      with (@Ok ReadError _ (IKey k (lseq t + 1) o, v) :: fmap Ok (ms_entries (inner (mem t)))).
    pose proof (d_seq _ _ _ D) as Hs. unfold mem_seq in Hs. cbn [max_seq_of foldr fst seq].
    fold (max_seq_of (Ok <$> ms_entries (inner (mem t)))). lia.
  - rewrite Hpk. constructor; [apply Hwf | apply D].
Qed.

(** ** Flushing *)

Abbreviation next_id t := (next_sst_id (version (manifest t))).

Lemma lsm_flush_edit_wf id sq : is_u64 id -> is_u64 (id + 1) -> is_u64 sq -> edit_wf (flush_edit_of id sq).
Proof.
  intros H1 H2 H3. split.
  - cbn. repeat (apply Forall_cons; split; [|]); try apply Forall_nil; try done.
    split; [cbn; ulia|]. split; [done|]. split; [constructor; [done|constructor] | cbn; ulia].
  - unfold fits_u32, edit_encode, encode_all. cbn [flush_edit_of ops set_last_seq set_next_sst_id add_run edit_new app
      flat_map op_encode run_files run_level run_id length wire_encode u64_wire encode_all].
    repeat (rewrite ?length_app, ?length_be_bytes; cbn [length flat_map wire_encode u64_wire]). ulia.
Qed.

Lemma flush_entries m :
  ms_wf m ->
  map_err lsm_of_read (items ← ms_scan_at Unbounded Unbounded u64_max m; collect_res (item_of <$> items))
  = Ok (mem_kvs m).
Proof.
  intros Hw. rewrite mem_scan_all by done. bind_ok.
  rewrite item_of_entries, collect_res_Ok. done.
Qed.

Lemma next_unused m0 t h tabs ids : view t h tabs ids -> durable m0 t ids -> tabs !! next_id t = None.
Proof.
  intros V D. apply eq_None_not_Some. intros Hs. apply (v_tabs _ _ _ _ V), (d_next _ _ _ D) in Hs. lia.
Qed.

(** Whatever the file of the next table holds, the tree is as before. *)
Lemma flush_stage1 m0 t h tabs ids bytes :
  view t h tabs ids -> durable m0 t ids ->
  view (with_tables (<[next_id t := bytes]> (tables t)) t) h tabs ids
  /\ durable m0 (with_tables (<[next_id t := bytes]> (tables t)) t) ids.
Proof.
  intros V D. split; [|by destruct D; split].
  split; try apply V. cbn. apply dir_holds_other; [apply V | by eapply next_unused].
Qed.

Lemma seg_insert tabs id cf es i : i <> id -> seg (<[id := (cf, es)]> tabs) i = seg tabs i.
Proof. intros H. unfold seg. by rewrite lookup_insert_ne. Qed.

Lemma layers_insert (m : M) tabs ids id cf es :
  id ∉ ids ->
  layers m (<[id := (cf, es)]> tabs) (ids ++ [id]) = mem_kvs m :: es :: (seg tabs <$> reverse ids).
Proof.
  intros Hn. unfold layers. rewrite reverse_app. cbn [reverse app fmap list_fmap]. f_equal. cbn. f_equal.
  - unfold seg. by rewrite lookup_insert_eq.
  - apply list_fmap_ext. intros i x Hx. apply seg_insert. intros ->. apply Hn.
    apply list_elem_of_lookup_2 in Hx. by rewrite elem_of_reverse in Hx.
Qed.

(** The tree once the flush is committed and before the memtable is cleared:
    its entries are in the memtable and in the new table. *)
Lemma flush_stage2 m0 t h tabs ids es st :
  view t h tabs ids -> durable m0 t ids -> es = mem_kvs (inner (mem t)) ->
  tab_wf (next_id t) (flush_config (config t)) es -> is_u64 (next_id t + 1) ->
  commit io_fine (flush_edit_of (next_id t) (lseq t)) (mdir t, manifest t) = (st, Ok tt) ->
  let t2 := with_manifest st (with_tables (<[next_id t := sst_bytes (next_id t) (flush_config (config t)) es]> (tables t)) t) in
  let tabs' := <[next_id t := (flush_config (config t), es)]> tabs in
  view t2 h tabs' (ids ++ [next_id t]) /\ durable m0 t2 (ids ++ [next_id t]).
Proof.
  intros V D Hes Hwf Hu Hc t2 tabs'.
  destruct (d_man _ _ _ D) as [edits Hm].
  destruct (commit_ok _ edits (flush_edit_of (next_id t) (lseq t)) Hm) as (st' & E & Hm' & Hv' & Hcur & Hoth).
  { apply lsm_flush_edit_wf; [apply D|done|apply V]. }
  rewrite Hc in E. injection E as <-. cbn [snd] in Hv', Hcur. cbn [fst] in Hoth.
  assert (Hn : next_id t ∉ ids) by (intros Hin%(d_next _ _ _ D); lia).
  pose proof (v_layers _ _ _ _ V) as Hl. cbn [layers layers_ok] in Hl. destruct Hl as (Hs & Hsh & Hls).
  assert (Ever : version st.2 = MkVersion (flushed_runs (ids ++ [next_id t])) (next_id t + 1) (lseq t)).
  { rewrite Hv'. unfold apply, flush_edit_of. cbn. rewrite (v_runs _ _ _ _ V). unfold flushed_runs. by rewrite fmap_app. }
  split.
  - split; cbn [t2 with_manifest with_tables config cache mem manifest lseq tables mdir]; try apply V.
    + by rewrite Ever.
    + intros i. unfold tabs'. rewrite lookup_insert, elem_of_app, list_elem_of_singleton, <- (v_tabs _ _ _ _ V).
      case_decide; [subst; split; [by right | by eexists] | split; [by left | by intros [?| ->]]].
    + apply dir_holds_insert; [apply V | done].
    + apply (sst_coherent_mono tabs); [|apply V]. apply insert_subseteq. by eapply next_unused.
    + intros kv. unfold tabs'. rewrite layers_insert by done. rewrite <- (v_set _ _ _ _ V kv).
      cbn [concat layers]. rewrite Hes, !elem_of_app. tauto.
    + unfold tabs'. rewrite layers_insert by done. rewrite Hes. cbn [layers_ok].
      split; [done|]. split; [|done]. intros a b Ha Hb Hab. cbn [concat] in Ha.
      apply elem_of_app in Ha as [Ha|Ha]; [by exists a | by apply (Hsh a b)].
  - split; cbn [t2 with_manifest with_tables config cache mem manifest lseq tables mdir]; try apply D.
    + eexists. destruct st. exact Hm'.
    + intros n Hlt. cbn [fst snd] in *. rewrite Hcur in Hlt. rewrite Hoth by lia. by apply (d_above _ _ _ D).
    + intros i. rewrite Ever. cbn. intros [Hi%(d_next _ _ _ D)| ->%list_elem_of_singleton]%elem_of_app; lia.
    + by rewrite Ever.
    + rewrite Ever. cbn. pose proof (d_seq _ _ _ D). lia.
Qed.

(** Clearing a memtable whose entries are in the newest table. *)
Lemma flush_stage3 m0 t h tabs ids id es :
  view t h tabs (ids ++ [id]) -> durable m0 t (ids ++ [id]) -> seg tabs id = es ->
  es = mem_kvs (inner (mem t)) -> last_seq (version (manifest t)) = lseq t ->
  exists m, jclear (mem t) = (m, Ok tt) /\ inner m = m0
    /\ view (with_mem m t) h tabs (ids ++ [id]) /\ durable m0 (with_mem m t) (ids ++ [id]).
Proof.
  intros V D Hseg Hes Hlast. pose proof (d_clear _ _ _ D) as Hcl.
  destruct (fresh_empty m0 (d_fresh _ _ _ D)) as [Hw0 He0].
  assert (E : jclear (mem t) = (MkJournaled m0 (truncate (journal (mem t))), Ok tt)) by (unfold jclear, jclear_io; cbn [truncate_io]; by rewrite Hcl).
  destruct (consistent_clear m0 (mem t) _ (d_log _ _ _ D) Hcl E) as [Hcons _].
  assert (Hk0 : mem_kvs m0 = []) by (unfold mem_kvs; by rewrite He0).
  pose proof (v_layers _ _ _ _ V) as Hl. pose proof (v_set _ _ _ _ V) as Hset.
  unfold layers in Hl, Hset. rewrite reverse_app in Hl, Hset. cbn [reverse app fmap list_fmap layers_ok concat] in Hl, Hset.
  cbn in Hl, Hset. rewrite Hseg in Hl, Hset.
  eexists. split; [exact E|]. split; [done|]. split.
  - split; cbn [with_mem config cache mem manifest lseq tables inner]; try apply V; try done.
    + intros kv. rewrite <- Hset. unfold layers. rewrite reverse_app, Hk0. cbn. rewrite Hseg, !elem_of_app, <- Hes. 
      tauto.
    + unfold layers. rewrite reverse_app, Hk0. cbn. rewrite Hseg. split; [constructor|].
      split; [by intros a b _ ?%not_elem_of_nil|]. apply Hl.
  - split; cbn [with_mem config cache mem manifest lseq tables inner mdir]; try apply D; try done.
    + unfold mem_seq. rewrite He0, Hlast. cbn. pose proof (v_u64 _ _ _ _ V). ulia.
    + by rewrite Hk0.
Qed.

Lemma flush_ok m0 t h :
  state_ok m0 t h -> is_u64 (next_id t + 1) ->
  Z.of_nat (length (sst_bytes (next_id t) (flush_config (config t)) (mem_kvs (inner (mem t))))) <= u32_max ->
  exists t', flush flush_fine t = (t', Ok tt) /\ state_ok m0 t' h /\ mem_kvs (inner (mem t')) = [].
Proof.
  intros (tabs & ids & V & D) Hu Hlen. unfold flush, jscan_at.
  rewrite (flush_entries _ (v_mem _ _ _ _ V)). destruct (mem_kvs (inner (mem t))) as [|e0 es0] eqn:Ees.
  { exists t. split; [done|]. split; [by exists tabs, ids|]. done. }
  rewrite <- Ees in Hlen |- *. cbn [flush_fine fl_table fl_commit fl_clear]. unfold sst_write. cbn [io_fine on_write on_sync].
  assert (Hwf : tab_wf (next_id t) (flush_config (config t)) (mem_kvs (inner (mem t)))).
  { split; [apply D|]. split; [by apply mem_sorted, V|]. split; [apply D | done]. }
  destruct (d_man _ _ _ D) as [edits Hm].
  destruct (commit_ok _ edits (flush_edit_of (next_id t) (lseq t)) Hm) as (st & Ec & _ & Hv' & _).
  { apply lsm_flush_edit_wf; [apply D|done|apply V]. }
  fold io_fine. rewrite Ec. destruct (flush_stage2 m0 t h tabs ids _ st V D eq_refl Hwf Hu Ec) as [V2 D2].
  set (t2 := with_manifest _ _) in *.
  destruct (flush_stage3 m0 t2 h _ ids (next_id t) (mem_kvs (inner (mem t))) V2 D2) as (m & Ej & Hin & V3 & D3).
  { unfold seg. by rewrite lookup_insert_eq. } { done. } { cbn. by rewrite Hv'. }
  cbn [t2 with_manifest with_tables mem] in Ej. fold (jclear (mem t)). rewrite Ej. eexists. split; [reflexivity|].
  split; [eexists _, _; split; [exact V3 | exact D3]|].
  cbn. rewrite Hin. unfold mem_kvs. by rewrite (proj2 (fresh_empty m0 (d_fresh _ _ _ D))).
Qed.

(** ** Opening *)

Lemma gc_keeps_live man (dir : sst_dir) tabs ids :
  dir_holds dir tabs -> (forall id, is_Some (tabs !! id) <-> id ∈ ids) ->
  runs (version man) = flushed_runs ids -> dir_holds (garbage_collect man dir).1 tabs.
Proof.
  intros Hd Ht Hr id cf es Hl. destruct (Hd id cf es Hl) as [Hw Hf]. split; [done|].
  pose proof (gc_lookup man dir id) as Hgc. destruct (garbage_collect man dir) as [d' rm].
  destruct Hgc as [Hgc _]. cbn [fst]. rewrite Hgc.
  assert (Hin : existsb (Z.eqb id) (live_files (version man)) = true).
  { apply existsb_exists. exists id. split; [|apply Z.eqb_refl]. unfold live_files. rewrite Hr, flat_files.
    apply list_elem_of_In, Ht. by eexists. }
  rewrite Hin, andb_false_r. exact Hf.
Qed.

(** Opening a root whose manifest and journal read back. *)
Lemma open_view cfg m0 root md man mm h tabs ids :
  m_open (rd_manifests root) = (md, Ok man) -> jopen (rd_journal root) m0 = Ok mm ->
  (0 < num_levels cfg)%nat -> size_ok (cache_size (page_cache cfg)) -> runs (version man) = flushed_runs ids ->
  (forall id, is_Some (tabs !! id) <-> id ∈ ids) -> dir_holds (rd_tables root) tabs -> ms_wf (inner mm) ->
  Z.max (last_seq (version man)) (mem_seq (inner mm)) = Z.of_nat (length h) -> Z.of_nat (length h) <= u64_max ->
  (forall kv, kv ∈ concat (layers (inner mm) tabs ids) <-> kv ∈ hist_kvs h) ->
  layers_ok (layers (inner mm) tabs ids) ->
  exists t, with_memtable cfg m0 root = Ok t /\ view t h tabs ids
    /\ config t = cfg /\ mem t = mm /\ manifest t = man /\ mdir t = md /\ lseq t = Z.of_nat (length h).
Proof.
  intros Hm Hj Hn Hsz Hr Ht Hd Hw Hsq Hu Hset Hl. unfold with_memtable. rewrite Hm, Hj. cbn [map_err]. bind_ok.
  unfold jscan_at. rewrite mem_scan_all by done. cbn [map_err]. bind_ok.
  pose proof (gc_keeps_live man (rd_tables root) tabs ids Hd Ht Hr) as Hg.
  destruct (garbage_collect man (rd_tables root)) as [kept rm]. cbn in Hg.
  eexists. split; [reflexivity|]. unfold mem_seq in Hsq. rewrite Hsq. split; [|done].
  split; cbn; try done; [by apply sst_cache_new_coherent | ulia].
Qed.

(** The files of a tree rebuild it. *)
Lemma recover_ok m0 t h :
  state_ok m0 t h ->
  exists t', with_memtable (config t) m0 (root_of_tree t) = Ok t' /\ state_ok m0 t' h
    /\ mem t' = mem t /\ manifest t' = manifest t /\ lseq t' = lseq t /\ config t' = config t.
Proof.
  intros (tabs & ids & V & D). destruct (d_man _ _ _ D) as [edits Hm].
  destruct (open_view (config t) m0 (root_of_tree t) (mdir t) (manifest t) (mem t) h tabs ids)
    as (t' & E & V' & E1 & E2 & E3 & E4 & E5); try apply V; try apply D.
  - cbn. by apply (m_open_ok _ _ edits).
  - cbn. apply consistent_open, D.
  - rewrite <- (v_seq _ _ _ _ V). apply D.
  - rewrite <- (v_seq _ _ _ _ V). apply (v_u64 _ _ _ _ V).
  - exists t'. split; [done|]. rewrite <- (v_seq _ _ _ _ V) in E5. split; [|done].
    exists tabs, ids. split; [done|]. destruct D. split; rewrite ?E1, ?E2, ?E3, ?E4, ?E5; done.
Qed.

Definition empty_root : root_dir := MkRoot ∅ (MkDir ∅ None) None.

Lemma fresh_ok cfg m0 :
  (0 < num_levels cfg)%nat -> size_ok (cache_size (page_cache cfg)) -> ms_clear m0 = (m0, Ok tt) ->
  exists t, with_memtable cfg m0 empty_root = Ok t /\ state_ok m0 t [] /\ config t = cfg.
Proof.
  intros Hn Hsz Hf. destruct (fresh_empty m0 Hf) as [Hw He].
  destruct m_open_fresh as ([md man] & Em & Hok & Hnf & Hv). cbn [fst snd] in *.
  destruct (consistent_fresh m0) as (mm & Ej & Hi & Hcons).
  assert (Hk : mem_kvs (inner mm) = []) by (unfold mem_kvs; by rewrite Hi, He).
  assert (Hs0 : mem_seq (inner mm) = 0) by (unfold mem_seq; by rewrite Hi, He).
  destruct (open_view cfg m0 empty_root md man mm [] ∅ []) as (t & E & V & E1 & E2 & E3 & E4 & E5); try done.
  - by rewrite Hv.
  - intros id. rewrite lookup_empty. split; [by intros [] | by intros ?%not_elem_of_nil].
  - by rewrite Hi.
  - by rewrite Hv, Hs0.
  - intros kv. cbn. by rewrite Hk.
  - cbn. rewrite Hk. split; [constructor|]. split; [by intros a b ?%not_elem_of_nil | done].
  - exists t. split; [done|]. split; [|done]. exists ∅, []. split; [done|].
    split; rewrite ?E1, ?E2, ?E3, ?E4, ?E5; try done.
    + by rewrite Hi.
    + by exists [].
    + destruct (mrun_ok (md, man) []) as (_ & Hab & _); [by apply mrun_open|]. exact Hab.
    + by intros id ?%not_elem_of_nil.
    + rewrite Hv. cbn. ulia.
    + by rewrite Hv, Hs0.
    + by rewrite Hk.
Qed.

(** ** Checkpoints *)

Lemma checkpoint_ok m0 t h :
  state_ok m0 t h -> is_u64 (current (manifest t) + 1) -> edit_wf (to_snapshot (version (manifest t))) ->
  exists t', checkpoint ckpt_fine t = (t', Ok tt) /\ state_ok m0 t' h.
Proof.
  intros (tabs & ids & V & D) Hu He. destruct (d_man _ _ _ D) as [edits Hm]. unfold checkpoint.
  destruct (m_checkpoint_ok (mdir t, manifest t) edits true Hm) as (st & E & Hok & Hv); [|done|done|].
  { apply (d_above _ _ _ D). cbn. lia. }
  pose proof (m_checkpoint_above (mdir t, manifest t) st (d_above _ _ _ D) E) as Hab.
  unfold ckpt_fine. rewrite E. eexists. split; [reflexivity|]. exists tabs, ids. cbn [snd] in Hv. split.
  - split; cbn [with_manifest config cache mem manifest lseq tables]; try apply V. rewrite Hv. apply V.
  - split; cbn [with_manifest config cache mem manifest lseq tables mdir]; try apply D.
    + exists [to_snapshot (version (manifest t))]. by destruct st.
    + by destruct st.
    + rewrite Hv. apply D.
    + rewrite Hv. apply D.
    + rewrite Hv. apply D.
Qed.

(** Operations never change the configuration. *)
Lemma flush_config_same t t' r : flush flush_fine t = (t', r) -> config t = config t'.
Proof.
  unfold flush. destruct (map_err _ _) as [[|e es]|e|]; [by intros [= <- _]| |by intros [= <- _]|by intros [= <- _]].
  destruct (sst_write _ _ _ _ _) as [d [u|e'|]]; [|by intros [= <- _]|by intros [= <- _]].
  destruct (commit _ _ _) as [st [u'|e'|]]; [|by intros [= <- _]|by intros [= <- _]].
  destruct (jclear_io _ _) as [m c]. by intros [= <- _].
Qed.

(** ** Runs of a tree

    Every way the API drives a tree: opening an empty root, acknowledged
    writes, flushes, checkpoints, reads (which move the page cache), and
    reopening.  The side conditions are the widths of the format: keys and
    values under 4 GiB, counters under 2^64, tables under 4 GiB. *)

Definition flush_fits (t : Lsm) : Prop :=
  is_u64 (next_id t + 1)
  /\ Z.of_nat (length (sst_bytes (next_id t) (flush_config (config t)) (mem_kvs (inner (mem t))))) <= u32_max.

Definition checkpoint_fits (t : Lsm) : Prop :=
  is_u64 (current (manifest t) + 1) /\ edit_wf (to_snapshot (version (manifest t))).

Inductive lrun (cfg : LsmConfig) (m0 : M) : Lsm -> history -> Prop :=
| lrun_open t : with_memtable cfg m0 empty_root = Ok t -> lrun cfg m0 t []
| lrun_write t h k v o t' :
    lrun cfg m0 t h -> codec_wf (KV (IKey k (lseq t + 1) o) v) -> (o = Delete -> v = []) ->
    write io_fine k v o t = (t', Ok tt) -> lrun cfg m0 t' (h ++ [change_of k v o])
| lrun_flush t h t' : lrun cfg m0 t h -> flush_fits t -> flush flush_fine t = (t', Ok tt) -> lrun cfg m0 t' h
| lrun_checkpoint t h t' :
    lrun cfg m0 t h -> checkpoint_fits t -> checkpoint ckpt_fine t = (t', Ok tt) -> lrun cfg m0 t' h
| lrun_get t h k : lrun cfg m0 t h -> lrun cfg m0 (get k t).2 h
| lrun_scan t h lo hi q fuel :
    lrun cfg m0 t h -> valid_range lo hi = true -> 0 <= q -> (scan_fuel t <= fuel)%nat -> lrun cfg m0 (scan_collect fuel lo hi q t).2 h
| lrun_reopen t h t' : lrun cfg m0 t h -> with_memtable cfg m0 (root_of_tree t) = Ok t' -> lrun cfg m0 t' h.

(** A usable configuration and an empty memtable to start from. *)
Definition usable (cfg : LsmConfig) (m0 : M) : Prop :=
  (0 < num_levels cfg)%nat /\ size_ok (cache_size (page_cache cfg)) /\ ms_clear m0 = (m0, Ok tt).

Lemma durable_with_cache m0 t ids c : durable m0 t ids -> durable m0 (with_cache c t) ids.
Proof. by intros []; split. Qed.

Lemma lrun_ok cfg m0 t h : usable cfg m0 -> lrun cfg m0 t h -> state_ok m0 t h /\ config t = cfg.
Proof.
  intros (Hn & Hsz & Hf). induction 1 as [t Ho|t h k v o t' _ [IH Hc] Hwf Hd Hw|t h t' _ [IH Hc] [Hu Hl] Hfl
    |t h t' _ [IH Hc] [Hu He] Hck|t h k _ [IH Hc]|t h lo hi q fuel _ [IH Hc] Hv Hq Hfu|t h t' _ [IH Hc] Ho].
  - destruct (fresh_ok cfg m0 Hn Hsz Hf) as (t0 & E & Hs & Hc). rewrite Ho in E. by apply Ok_inj in E as <-.
  - split; [by eapply write_ok|]. unfold write in Hw. destruct (jput _ _ _ _) as [m [u|e|]]; try done.
    by injection Hw as <-.
  - destruct (flush_ok m0 t h IH Hu Hl) as (t2 & E & Hs & _). rewrite Hfl in E. injection E as <-.
    split; [done|]. rewrite <- Hc. symmetry. by eapply (flush_config_same t).
  - destruct (checkpoint_ok m0 t h IH Hu He) as (t2 & E & Hs). rewrite Hck in E. injection E as <-.
    split; [done|]. unfold checkpoint in Hck. destruct (m_checkpoint _ _). by injection Hck as <- _.
  - destruct IH as (tabs & ids & V & D). destruct (get_ok t h tabs ids k V) as (c & -> & Hcoh).
    split; [|done]. exists tabs, ids. split; [by apply view_with_cache | by apply durable_with_cache].
  - destruct IH as (tabs & ids & V & D). pose proof (scan_fuel_enough t h tabs ids V).
    destruct (scan_ok t h tabs ids lo hi q fuel V Hv Hq ltac:(lia)) as (out & c & -> & Hcoh & _).
    split; [|done]. exists tabs, ids. split; [by apply view_with_cache | by apply durable_with_cache].
  - destruct (recover_ok m0 t h IH) as (t2 & E & Hs & _ & _ & _ & Hc2). rewrite Hc in E. rewrite E in Ho.
    apply Ok_inj in Ho as <-. by rewrite Hc2.
Qed.

(** A refused write is logged, and blocks the next open. *)
Lemma refused_blocks_reopen m0 t h k v o t1 e :
  state_ok m0 t h -> codec_wf (KV (IKey k (lseq t + 1) o) v) -> write io_fine k v o t = (t1, Err e) ->
  with_memtable (config t) m0 (root_of_tree t1) = Err (LWrite StoreFull).
Proof.
  intros (tabs & ids & V & D) Hwf Ew. pose proof (d_log _ _ _ D) as (rs & Hj & _). destruct (d_man _ _ _ D) as [edits Hm].
  unfold write in Ew. destruct (jput io_fine (IKey k (lseq t + 1) o) v (mem t)) as [m [u|er|]] eqn:Ep; [done| |done]. injection Ew as <- <-.
  assert (er = StoreFull) as ->.
  { unfold jput in Ep. destruct (holds_append _ _ _ Hj Hwf) as (j' & Ea & _). rewrite Ea in Ep.
    destruct (ms_put _ v (inner (mem t))) as [m' r] eqn:Em. injection Ep as _ ->. by destruct (ms_put_full _ _ _ _ _ Em). }
  unfold with_memtable, root_of_tree. cbn [rd_manifests rd_journal rd_tables with_mem mdir mem tables config].
  rewrite (m_open_ok _ _ edits Hm), bind_Ok. by rewrite (store_full_write_blocks_reopen m0 (mem t) _ v m (d_log _ _ _ D) Hwf Ep).
Qed.

(** ** Theorems *)

(** C13: the tree implements its abstract specification, the history of
    acknowledged writes: after any run of writes, flushes, checkpoints, reads,
    scans and reopens, a lookup of any key returns the value of its last write. *)
Theorem lsm_refines_history cfg m0 t h k :
  usable cfg m0 -> lrun cfg m0 t h -> (get k t).1 = Ok (spec_get h k).
Proof.
  intros Hu Hr. destruct (lrun_ok cfg m0 t h Hu Hr) as [(tabs & ids & V & _) _].
  by destruct (get_ok t h tabs ids k V) as (c & -> & _).
Qed.

(** C14: a scan as of sequence number [q] is a snapshot: after any run it
    yields, in strictly ascending key order and without an error, exactly the
    pairs [(k, v)] with [k] in the bounds whose last write among the first [q]
    writes of the history is a put of [v], merging memtable and tables,
    resolving versions and dropping tombstones; every fuel of at least
    [scan_fuel], a bound read off the tree, gives this result. *)
Theorem scan_is_snapshot cfg m0 t h lo hi q :
  usable cfg m0 -> lrun cfg m0 t h -> valid_range lo hi = true -> 0 <= q ->
  exists out, (forall fuel, (scan_fuel t <= fuel)%nat -> (scan_collect fuel lo hi q t).1 = Ok (Ok <$> out))
    /\ StronglySorted (fun a b => bytes_cmp a.1 b.1 = Lt) out
    /\ forall k v, (k, v) ∈ out <-> in_bounds k lo hi = true /\ spec_get (take (Z.to_nat q) h) k = Some v.
Proof.
  intros Hu Hr Hv Hq. destruct (lrun_ok cfg m0 t h Hu Hr) as [(tabs & ids & V & _) _].
  pose proof (scan_fuel_enough t h tabs ids V) as Hn.
  destruct (scan_ok t h tabs ids lo hi q (scan_fuel t) V Hv Hq Hn) as (out & c & E & _ & Hs & Hout).
  exists out. split; [|done]. intros fuel Hf.
  destruct (scan_ok t h tabs ids lo hi q fuel V Hv Hq ltac:(lia)) as (out' & c' & -> & _ & Hs' & Hout').
  cbn [fst]. do 2 f_equal. apply (sorted_pairs_unique out' out Hs' Hs).
  intros [k v]. by rewrite Hout, Hout'.
Qed.

(** C17: stopping between two operations.  After any run of acknowledged writes,
    flushes, checkpoints, reads and reopens, the files open to a tree with the same
    memtable, the same structure and the same next sequence number, in which every
    lookup answers as before.  The exception is a write the memtable refuses as too
    large: it stays in the journal, and after it the files do not open, [open]
    failing with [StoreFull]. *)
Theorem reopen_restores_tree cfg m0 t h :
  usable cfg m0 -> lrun cfg m0 t h ->
  (exists t', with_memtable cfg m0 (root_of_tree t) = Ok t'
    /\ mem t' = mem t /\ version (manifest t') = version (manifest t) /\ lseq t' = lseq t
    /\ forall k, (get k t').1 = (get k t).1)
  /\ forall k v o t1 e, codec_wf (KV (IKey k (lseq t + 1) o) v) -> write io_fine k v o t = (t1, Err e) ->
       with_memtable cfg m0 (root_of_tree t1) = Err (LWrite StoreFull).
Proof.
  intros Hu Hr. destruct (lrun_ok cfg m0 t h Hu Hr) as [Hs Hc]. split.
  - destruct (recover_ok m0 t h Hs) as (t' & E & Hs' & E1 & E2 & E3 & _). rewrite Hc in E.
    exists t'. split; [done|]. split; [done|]. split; [by rewrite E2|]. split; [done|]. intros k.
    destruct Hs as (tabs & ids & V & _), Hs' as (tabs' & ids' & V' & _).
    destruct (get_ok t h tabs ids k V) as (c & -> & _). by destruct (get_ok t' h tabs' ids' k V') as (c' & -> & _).
  - intros k v o t1 e Hwf Hw. rewrite <- Hc. by eapply refused_blocks_reopen.
Qed.

(** A flush of a tree in use succeeds and empties the memtable, and no
    lookup notices: every key has the value it had. *)
Theorem flush_preserves_reads cfg m0 t h :
  usable cfg m0 -> lrun cfg m0 t h -> flush_fits t ->
  exists t', flush flush_fine t = (t', Ok tt) /\ ms_entries (inner (mem t')) = []
    /\ forall k, (get k t').1 = (get k t).1.
Proof.
  intros Hu Hr [Hn Hl]. destruct (lrun_ok cfg m0 t h Hu Hr) as [Hs _].
  destruct (flush_ok m0 t h Hs Hn Hl) as (t' & E & Hs' & Hm). exists t'. split; [done|].
  split; [by apply fmap_nil_inv in Hm|]. intros k.
  destruct Hs as (tabs & ids & V & _), Hs' as (tabs' & ids' & V' & _).
  destruct (get_ok t h tabs ids k V) as (c & -> & _). by destruct (get_ok t' h tabs' ids' k V') as (c' & -> & _).
Qed.

(** The file a flush writes. *)
Definition flush_bytes (t : Lsm) : list byte :=
  sst_bytes (next_id t) (flush_config (config t)) (mem_kvs (inner (mem t))).

Lemma torn_commit_open m0 t h tabs ids n bytes :
  view t h tabs ids -> durable m0 t ids -> is_u64 (next_id t + 1) ->
  (n < length (write_frame (codec_encode (flush_edit_of (next_id t) (lseq t)))))%nat ->
  exists t', with_memtable (config t) m0 (MkRoot (<[next_id t := bytes]> (tables t))
      (set_file (current (manifest t)) (f_bytes (jfile (mjournal (manifest t)))
         ++ take n (write_frame (codec_encode (flush_edit_of (next_id t) (lseq t))))) (mdir t))
      (Some (jdisk (mem t)))) = Ok t' /\ view t' h tabs ids.
Proof.
  intros V D Hu Hn. destruct (d_man _ _ _ D) as [edits Hm]. pose proof Hm as (Hh & Hv & Hf & Hc & Hcu).
  assert (He : edit_wf (flush_edit_of (next_id t) (lseq t))) by (apply lsm_flush_edit_wf; [apply D|done|apply V]).
  destruct (append_crash_open (mjournal (manifest t)) edits _ n Hh He) as (j & Hj & Hr).
  rewrite (proj2 (Nat.ltb_lt _ _) Hn) in Hr.
  set (torn := set_file _ _ _).
  assert (Hmo : m_open torn = (set_file (current (manifest t)) (f_bytes (jfile j)) torn,
                 Ok (MkManager (current (manifest t)) j (foldl apply Version_default edits)))).
  { apply (m_open_at torn (current (manifest t)) j edits); [done|done| |done].
    unfold torn. cbn. by rewrite lookup_insert_eq. }
  destruct (open_view (config t) m0 (MkRoot (<[next_id t := bytes]> (tables t)) torn (Some (jdisk (mem t)))) _ _ (mem t) h tabs ids Hmo)
    as (t' & E & V' & _); try apply V; try apply D.
  - apply consistent_open, D.
  - cbn. rewrite <- Hv. apply V.
  - cbn. apply dir_holds_other; [apply V | by eapply next_unused].
  - cbn. rewrite <- Hv, <- (v_seq _ _ _ _ V). apply D.
  - rewrite <- (v_seq _ _ _ _ V). apply (v_u64 _ _ _ _ V).
  - by exists t'.
Qed.

(** Opening a root that answers as the history says. *)
Definition opens_as (cfg : LsmConfig) (m0 : M) (root : root_dir) (h : history) : Prop :=
  exists t', with_memtable cfg m0 root = Ok t' /\ lseq t' = Z.of_nat (length h) /\ forall k, (get k t').1 = Ok (spec_get h k).

Lemma view_opens cfg m0 root h t' tabs ids : with_memtable cfg m0 root = Ok t' -> view t' h tabs ids -> opens_as cfg m0 root h.
Proof.
  intros E V. exists t'. split; [done|]. split; [apply V|]. intros k. by destruct (get_ok t' h tabs ids k V) as (c & -> & _).
Qed.

Lemma state_opens m0 t h : state_ok m0 t h -> opens_as (config t) m0 (root_of_tree t) h.
Proof. intros H. destruct (recover_ok m0 t h H) as (t' & E & (tabs & ids & V & _) & _). by eapply view_opens. Qed.

(** What a commit leaves in the directory, acknowledged or not. *)
Lemma commit_dir env e d m : (commit env e (d, m)).1.1 = set_file (current m) (f_bytes (jfile (append env (mjournal m) e).1)) d.
Proof. unfold commit. by destruct (append env (mjournal m) e) as [j [u|er|]]. Qed.

Lemma commit_ok_inv env e st st' u : commit env e st = (st', Ok u) -> commit io_fine e st = (st', Ok tt).
Proof.
  destruct st as [d m]. unfold commit. destruct (append env (mjournal m) e) as [j [u'|er|]] eqn:Ea; [|done..]. by rewrite (append_ok_inv _ _ _ _ _ Ea); intros [= <-].
Qed.

(** The root once the table is written and the commit was attempted. *)
Lemma commit_opens m0 t h tabs ids env :
  view t h tabs ids -> durable m0 t ids -> flush_fits t ->
  opens_as (config t) m0 (MkRoot (<[next_id t := flush_bytes t]> (tables t))
    (commit env (flush_edit_of (next_id t) (lseq t)) (mdir t, manifest t)).1.1 (Some (jdisk (mem t)))) h.
Proof.
  intros V D [Hn Hl]. set (e := flush_edit_of (next_id t) (lseq t)). destruct (d_man _ _ _ D) as [edits Hm]. pose proof Hm as (Hh & _).
  assert (He : edit_wf e) by (apply lsm_flush_edit_wf; [apply D|done|apply V]). rewrite commit_dir.
  rewrite (append_bytes env (mjournal (manifest t)) e _ (proj1 Hh)). cbn [f_bytes].
  destruct (appended_cut env e) as [E|(n & Hlt & E)]; rewrite E.
  - destruct (commit_ok _ edits e Hm He) as (st & Ec & _). pose proof (commit_dir io_fine e (mdir t) (manifest t)) as Ed. rewrite Ec in Ed. cbn [fst] in Ed.
    rewrite (append_bytes io_fine (mjournal (manifest t)) e _ (proj1 Hh)) in Ed. cbn [f_bytes appended io_fine on_write] in Ed.
    assert (Hwf : tab_wf (next_id t) (flush_config (config t)) (mem_kvs (inner (mem t)))).
    { split; [apply D|]. split; [by apply mem_sorted, V|]. split; [apply D | done]. }
    destruct (flush_stage2 m0 t h tabs ids _ st V D eq_refl Hwf Hn Ec) as [V2 D2].
    pose proof (state_opens m0 _ h (ex_intro _ _ (ex_intro _ _ (conj V2 D2)))) as Ho. unfold root_of_tree in Ho. cbn in Ho. by rewrite Ed in Ho.
  - destruct (torn_commit_open m0 t h tabs ids n (flush_bytes t) V D Hn Hlt) as (t' & Eo & V'). rewrite (proj1 Hh) in Eo. by eapply view_opens.
Qed.

(** C15: a flush is atomic under crashes.  Wherever its I/O stops (anywhere in the
    table file or at its sync, anywhere in the manifest's frame or at its sync,
    before or after the journal is cut), the files [flush] leaves open, and every
    lookup and the next sequence number are as before the flush; so they are after
    a flush that succeeds.  The run before it is of acknowledged operations: a write
    refused with [StoreFull] leaves files that do not open until a flush has cut the
    journal. *)
Theorem flush_crash_recovers cfg m0 t h env :
  usable cfg m0 -> lrun cfg m0 t h -> flush_fits t ->
  exists t', with_memtable cfg m0 (root_of_tree (flush env t).1) = Ok t' /\ lseq t' = lseq t /\ forall k, (get k t').1 = (get k t).1.
Proof.
  intros Hu Hr Hfit. destruct (lrun_ok cfg m0 t h Hu Hr) as [Hs <-]. pose proof Hs as (tabs & ids & V & D).
  enough (Ho : opens_as (config t) m0 (root_of_tree (flush env t).1) h).
  { destruct Ho as (t' & E & Eq & Hg). exists t'. split; [done|]. split; [by rewrite Eq, (v_seq _ _ _ _ V)|].
    intros k. rewrite Hg. by destruct (get_ok t h tabs ids k V) as (c & -> & _). }
  destruct (flush_ok m0 t h Hs (proj1 Hfit) (proj2 Hfit)) as (t3 & E3 & Hs3 & _). pose proof (flush_config_same _ _ _ E3) as Hc3.
  pose proof (commit_opens m0 t h tabs ids (fl_commit env) V D Hfit) as Hcm.
  unfold flush, jscan_at in *. rewrite (flush_entries _ (v_mem _ _ _ _ V)) in *.
  destruct (mem_kvs (inner (mem t))) as [|e0 es0] eqn:Ees; [by apply state_opens|]. rewrite <- Ees in *.
  assert (Hst1 : forall bytes, opens_as (config t) m0 (MkRoot (<[next_id t := bytes]> (tables t)) (mdir t) (Some (jdisk (mem t)))) h).
  { intros bytes. destruct (flush_stage1 m0 t h tabs ids bytes V D) as [V1 D1].
    exact (state_opens m0 _ h (ex_intro _ _ (ex_intro _ _ (conj V1 D1)))). }
  unfold sst_write at 1. destruct (on_write (fl_table env)) as [|n e]; [|apply Hst1]. destruct (on_sync (fl_table env)) as [e|]; [apply Hst1|].
  unfold sst_write in E3. cbn [flush_fine fl_table fl_commit fl_clear io_fine on_write on_sync] in E3. fold (flush_bytes t) in *. fold io_fine in E3.
  destruct (commit (fl_commit env) _ _) as [st [u|e|]] eqn:Ec; [|exact Hcm..].
  assert (Ec' : commit io_fine (flush_edit_of (next_id t) (lseq t)) (mdir t, manifest t) = (st, Ok tt)).
  { by eapply commit_ok_inv. }
  rewrite Ec' in E3. unfold jclear_io in *. destruct (ms_clear (inner (mem t))) as [m r]. cbn [truncate_io] in E3.
  pose proof (state_opens m0 t3 h Hs3) as Ho3. injection E3 as <- _. unfold root_of_tree in Ho3. cbn in Ho3.
  destruct (fl_clear env) as [|[|] e]; cbn [truncate_io]; [exact Ho3..|exact Hcm].
Qed.

(** C16: a write cut off by a crash.  When less than the whole frame of its record
    reached the journal, the files open with every lookup as before the write; when
    all of it did, acknowledged or not, with every lookup as after it.  The last
    holds of a write the memtable accepts: one it refuses as too large is refused
    after it was logged, and the files it leaves do not open, [open] failing with
    [StoreFull]. *)
Theorem write_crash_atomic cfg m0 t h k v o env :
  usable cfg m0 -> lrun cfg m0 t h -> codec_wf (KV (IKey k (lseq t + 1) o) v) -> (o = Delete -> v = []) ->
  let kv := KV (IKey k (lseq t + 1) o) v in
  let root := root_of_tree (write env k v o t).1 in
  if (length (appended env kv) <? length (write_frame (codec_encode kv)))%nat then opens_as cfg m0 root h
  else match (write io_fine k v o t).2 with
       | Ok _ => opens_as cfg m0 root (h ++ [change_of k v o])
       | _ => with_memtable cfg m0 root = Err (LWrite StoreFull)
       end.
Proof.
  intros Hu Hr Hwf Hd kv root. destruct (lrun_ok cfg m0 t h Hu Hr) as [Hs <-]. pose proof Hs as (tabs & ids & V & D).
  pose proof (d_log _ _ _ D) as (rs & [Hj Hjw] & Hre). destruct (d_man _ _ _ D) as [edits Hm].
  assert (Hroot : forall env', root_of_tree (write env' k v o t).1 = MkRoot (tables t) (mdir t) (Some (jdisk (mem t) ++ appended env' kv))).
  { intros env'. unfold write, jput, root_of_tree, jdisk. pose proof (append_bytes env' (Journaled.journal (mem t)) kv _ Hj) as Ha. fold kv.
    destruct (append env' (Journaled.journal (mem t)) kv) as [j [u|e|]]; cbn [fst] in Ha;
      [destruct (ms_put _ v (inner (mem t))) as [m' [u'|e'|]]|..]; cbn; by rewrite Ha, Hj. }
  unfold root. rewrite Hroot. destruct (appended_cut env kv) as [E|(n & Hn & E)]; rewrite E.
  - rewrite Nat.ltb_irrefl. pose proof (Hroot io_fine) as Hf. cbn [appended io_fine on_write] in Hf. rewrite <- Hf.
    destruct (write io_fine k v o t) as [t1 r] eqn:Ew. cbn [fst snd].
    assert (Hct : config t1 = config t) by (revert Ew; unfold write; by destruct (jput _ _ _ _) as [m [u|e|]]; intros [= <- _]).
    destruct r as [[]|e|].
    + rewrite <- Hct. apply state_opens. by eapply write_ok.
    + by eapply refused_blocks_reopen.
    + exfalso. unfold write, jput in Ew. destruct (holds_append _ _ _ (conj Hj Hjw) Hwf) as (j' & Ea & _). fold kv in Ew. unfold kv in Ew. rewrite Ea in Ew.
      pose proof (ms_put_total (IKey k (lseq t + 1) o) v (inner (mem t))) as Hp. by destruct (ms_put _ v (inner (mem t))) as [m' [u|e|]].
  - rewrite length_take, Nat.min_l, (proj2 (Nat.ltb_lt _ _)) by lia.
    destruct (consistent_torn_open m0 (mem t) kv n (d_log _ _ _ D) Hwf Hn) as (mm & Ej & Ei).
    destruct (open_view (config t) m0 (MkRoot (tables t) (mdir t) (Some (jdisk (mem t) ++ take n (write_frame (codec_encode kv)))))
                (mdir t) (manifest t) mm h tabs ids) as (t' & Eo & V' & _); rewrite ?Ei; try apply V; try apply D.
    + by apply (m_open_ok _ _ edits).
    + exact Ej.
    + rewrite <- (v_seq _ _ _ _ V). apply D.
    + rewrite <- (v_seq _ _ _ _ V). apply (v_u64 _ _ _ _ V).
    + by eapply view_opens.
Qed.

(** A write the memtable refuses with [StoreFull] is reported as such and
    changes no answer: lookups and the sequence number are as before. *)
Theorem refused_write_changes_nothing cfg m0 t h k v o t' e :
  usable cfg m0 -> lrun cfg m0 t h -> codec_wf (KV (IKey k (lseq t + 1) o) v) ->
  write io_fine k v o t = (t', Err e) ->
  e = LWrite StoreFull /\ is_exhausted e = true /\ lseq t' = lseq t /\ forall k', (get k' t').1 = (get k' t).1.
Proof.
  intros Hu Hr Hwf. destruct (lrun_ok cfg m0 t h Hu Hr) as [(tabs & ids & V & D) _].
  unfold write, jput. destruct (d_log _ _ _ D) as (rs & Hj & _).
  destruct (holds_append _ _ _ Hj Hwf) as (j' & -> & _).
  destruct (ms_put _ v (inner (mem t))) as [m' r] eqn:Ep. destruct r as [u|er|]; [done| |done]. intros [= <- <-].
  destruct (ms_put_full _ _ _ _ _ Ep) as [-> ->]. split; [done|]. split; [done|]. split; [done|]. intros k'.
  destruct (get_ok t h tabs ids k' V) as (c & -> & _).
  assert (V' : view (with_mem (MkJournaled (inner (mem t)) j') t) h tabs ids) by (split; try apply V).
  by destruct (get_ok _ h tabs ids k' V') as (c' & -> & _).
Qed.

(** The table an interrupted flush leaves is not swept by the garbage
    collection of the next open: its id is the allocation watermark itself,
    and only ids below the watermark are eligible.  (The next flush then writes
    over it.) *)
Theorem orphan_of_crashed_flush_survives_open cfg m0 t h n :
  usable cfg m0 -> lrun cfg m0 t h ->
  exists t', with_memtable cfg m0
      (MkRoot (<[next_id t := take n (flush_bytes t)]> (tables t)) (mdir t) (Some (jdisk (mem t)))) = Ok t'
    /\ tables t' !! next_id t = Some (take n (flush_bytes t)).
Proof.
  intros Hu Hr. destruct (lrun_ok cfg m0 t h Hu Hr) as [(tabs & ids & V & D) <-].
  destruct (flush_stage1 m0 t h tabs ids (take n (flush_bytes t)) V D) as [V1 D1].
  destruct (recover_ok m0 (with_tables (<[next_id t := take n (flush_bytes t)]> (tables t)) t) h) as (t' & E & _).
  { by exists tabs, ids. }
  exists t'. split; [exact E|]. unfold with_memtable, root_of_tree in E. cbn [rd_manifests rd_journal rd_tables] in E.
  destruct (d_man _ _ _ D) as [edits Hm]. cbn [with_tables mdir mem config tables] in E.
  rewrite (m_open_ok _ _ edits Hm) in E. bind_ok. cbn in E.
  rewrite (consistent_open m0 (mem t) (d_log _ _ _ D)) in E. cbn in E. unfold jscan_at in E.
  rewrite (mem_scan_all _ (v_mem _ _ _ _ V)) in E. cbn in E.
  pose proof (gc_lookup (manifest t) (<[next_id t := take n (flush_bytes t)]> (tables t)) (next_id t)) as Hg.
  unfold garbage_collect in Hg. apply Ok_inj in E as <-.
  destruct Hg as [Hg _]. rewrite Z.ltb_irrefl in Hg. cbn [andb] in Hg.
  etransitivity; [exact Hg|]. apply lookup_insert_eq.
Qed.
End durable.

(** ** Witnesses *)

Import Ieee TinyBloom.

Definition w_config : LsmConfig :=
  MkLsmConfig [MkLevelConfig 4 RunConfig_default (MkTableConfig 1 BloomConfig_default (MkPageConfig 32 1))]
    PageCacheConfig_default.
Definition w_mem : BTreeMemtable.t := BTreeMemtable.with_capacity 6.

Definition w_fallback : Lsm BTreeMemtable.t :=
  MkLsm w_config (SstPageCache_new PageCacheConfig_default) (MkJournaled w_mem (MkJournal (File [] 0)))
    (MkManager 0 (MkJournal (File [] 0)) Version_default) 0 ∅ (MkDir ∅ None).
Definition w_open : Lsm BTreeMemtable.t :=
  match with_memtable w_config w_mem empty_root with Ok t => t | _ => w_fallback end.

(** Two versions of [a] flushed, then [a] deleted in the memtable. *)
Definition w1 : Lsm BTreeMemtable.t := (lsm_put io_fine [x61] [x01] w_open).1.
Definition w2 : Lsm BTreeMemtable.t := (lsm_put io_fine [x61] [x02] w1).1.
Definition w3 : Lsm BTreeMemtable.t := (flush flush_fine w2).1.
Definition w4 : Lsm BTreeMemtable.t := (lsm_delete io_fine [x61] w3).1.
Definition w_history : history := [([x61], Some [x01]); ([x61], Some [x02])].

Lemma w_usable : usable w_config w_mem.
Proof. split; [cbn; lia|]. split; [cbn; unfold MIB; lia | done]. Qed.

Lemma w2_run : lrun w_config w_mem w2 w_history.
Proof.
  apply (lrun_write _ _ w1 [([x61], Some [x01])] [x61] [x02] Put).
  - apply (lrun_write _ _ w_open [] [x61] [x01] Put).
    + apply lrun_open. by vm_compute.
    + by vm_compute.
    + done.
    + by vm_compute.
  - by vm_compute.
  - done.
  - by vm_compute.
Qed.

Lemma w2_fits : flush_fits w2.
Proof. split; by vm_compute. Qed.

Lemma w3_run : lrun w_config w_mem w3 w_history.
Proof. apply (lrun_flush _ _ w2); [apply w2_run | apply w2_fits | by vm_compute]. Qed.

Lemma w4_run : lrun w_config w_mem w4 (w_history ++ [([x61], None)]).
Proof.
  apply (lrun_write _ _ w3 w_history [x61] [] Delete); [apply w3_run | by vm_compute | done | by vm_compute].
Qed.

Lemma lsm_refines_history_witness :
  (get [x61] w3).1 = Ok (Some [x02]) /\ (get [x61] w4).1 = Ok None.
Proof.
  split.
  - apply (lsm_refines_history w_config w_mem w3 w_history [x61] w_usable w3_run).
  - apply (lsm_refines_history w_config w_mem w4 (w_history ++ [([x61], None)]) [x61] w_usable w4_run).
Defined.

Lemma scan_is_snapshot_witness :
  exists out, (forall fuel, (scan_fuel w4 <= fuel)%nat -> (scan_collect fuel Unbounded Unbounded 1 w4).1 = Ok (Ok <$> out))
    /\ StronglySorted (fun a b => bytes_cmp a.1 b.1 = Lt) out
    /\ forall k v, (k, v) ∈ out <-> in_bounds k Unbounded Unbounded = true
         /\ spec_get (take (Z.to_nat 1) (w_history ++ [([x61], None)])) k = Some v.
Proof.
  apply (scan_is_snapshot w_config w_mem w4 (w_history ++ [([x61], None)]) Unbounded Unbounded 1 w_usable w4_run).
  - reflexivity.
  - lia.
Defined.

(** A capacity of 6 bytes: a second put of 8 bytes is refused. *)
Definition w_big : list byte := replicate 8 x00.

Lemma reopen_restores_tree_witness :
  (exists t', with_memtable w_config w_mem (root_of_tree w4) = Ok t'
    /\ mem t' = mem w4 /\ version (manifest t') = version (manifest w4) /\ lseq t' = lseq w4
    /\ forall k, (get k t').1 = (get k w4).1)
  /\ with_memtable w_config w_mem (root_of_tree (write io_fine [x61] w_big Put w4).1) = Err (LWrite StoreFull).
Proof.
  destruct (reopen_restores_tree w_config w_mem w4 (w_history ++ [([x61], None)]) w_usable w4_run) as [H1 H2].
  split; [exact H1|]. apply (H2 [x61] w_big Put _ (LWrite StoreFull)); by vm_compute.
Defined.

(** The flush of two writes whose manifest frame is cut after 7 bytes. *)
Definition w_cut : flush_env := FlushEnv io_fine (IoEnv (IoFail 7 IoUnexpectedEof) None) TruncDone.

Lemma flush_crash_recovers_witness :
  exists t', with_memtable w_config w_mem (root_of_tree (flush w_cut w2).1) = Ok t'
    /\ lseq t' = lseq w2 /\ forall k, (get k t').1 = (get k w2).1.
Proof. apply (flush_crash_recovers w_config w_mem w2 w_history w_cut w_usable w2_run w2_fits). Defined.

Lemma write_crash_atomic_witness :
  opens_as w_config w_mem (root_of_tree (write (IoEnv (IoFail 12 IoUnexpectedEof) None) [x61] [] Delete w3).1) w_history
  /\ opens_as w_config w_mem (root_of_tree (write (IoEnv IoDone (Some IoUnexpectedEof)) [x61] [] Delete w3).1) (w_history ++ [([x61], None)])
  /\ with_memtable w_config w_mem (root_of_tree (write io_fine [x61] w_big Put w4).1) = Err (LWrite StoreFull).
Proof.
  split; [|split].
  - apply (write_crash_atomic w_config w_mem w3 w_history [x61] [] Delete (IoEnv (IoFail 12 IoUnexpectedEof) None) w_usable w3_run); [by vm_compute|done].
  - apply (write_crash_atomic w_config w_mem w3 w_history [x61] [] Delete (IoEnv IoDone (Some IoUnexpectedEof)) w_usable w3_run); [by vm_compute|done].
  - apply (write_crash_atomic w_config w_mem w4 (w_history ++ [([x61], None)]) [x61] w_big Put io_fine w_usable w4_run); [by vm_compute|done].
Defined.
