(* ===== verification/Page.v ===== *)
(** * Pages ([crates/filesystem/src/page], [error.rs], [tuple/loc.rs])

    A block of [BLOCK_SIZE] bytes read as a typed page: the 21-byte header,
    the whole-page checksum, and the 10-byte tuple address an index stores.
    The crate's error type and the bounds-checked buffer accesses every page
    type uses are here too.  [crc32c] is third-party code and a parameter
    ([Crc32c]).  Two pages that differ only in the four checksum bytes are
    [page_eqv]: that is what the page cache preserves, since it finalises the
    checksum of a resident page when it writes it back. *)

From Stdlib Require Import Strings.Byte ZArith Lia.
From stdpp Require Import prelude list strings.
From S2P Require Import Prelude Codec Journal.
Local Open Scope Z_scope.

(** ** Errors *)

Inductive Error : Type :=
| EIo (e : io_error)
| EChecksum (id : Z)
| EBadMagic
| EBadHeaderVersion (v : Z)
| EBadPageType (expected got : Z)
| EPoolExhausted (frames : Z)
| EBusy (id : Z)
| ETupleTooLarge (len max : Z)
| EUtf8
| EJournal (e : JournalError)
| EFreeListOverflow (len max : Z)
| EExhausted (m : message)
| EWorkspaceFull (requested used capacity : Z).

#[global] Instance Error_eq_dec : EqDecision Error.
Proof. solve_decision. Defined.

Definition error_is_exhausted (e : Error) : bool :=
  match e with
  | EPoolExhausted _ | EExhausted _ | EWorkspaceFull _ _ _ => true
  | _ => false
  end.

(** ** Blocks and bounds-checked buffers *)

Definition BLOCK_SIZE : nat := Z.to_nat (8 * 1024).
Definition PAGE_SIZE : nat := BLOCK_SIZE.

Lemma BLOCK_SIZE_Z : Z.of_nat BLOCK_SIZE = 8192.
Proof. reflexivity. Qed.

#[global] Arguments BLOCK_SIZE : simpl never.
#[global] Opaque BLOCK_SIZE.

Abbreviation Block := (list byte).
Definition zeroed : Block := replicate BLOCK_SIZE x00.

Lemma length_zeroed : length zeroed = BLOCK_SIZE.
Proof. apply length_replicate. Qed.

#[global] Arguments zeroed : simpl never.

Section buffers.
Context {E : Type}.

(** [buf[off..off + n]]; an index past the end panics. *)
Definition buf_get (off n : nat) (buf : list byte) : res E (list byte) :=
  if (off + n <=? length buf)%nat then Ok (slice off n buf) else Panic.

(** [buf[off..off + data.len()].copy_from_slice(data)]. *)
Definition buf_put (off : nat) (data buf : list byte) : res E (list byte) :=
  if (off + length data <=? length buf)%nat then Ok (splice off data buf) else Panic.

(** [get_u16], [put_u16], [get_u64] and [put_u64] of the page types. *)
Definition buf_get_u16 (buf : list byte) (off : nat) : res E Z :=
  b ← buf_get off 2 buf; Ok (be_value b).
Definition buf_put_u16 (buf : list byte) (off : nat) (v : Z) : res E (list byte) :=
  buf_put off (be_bytes 2 v) buf.
Definition buf_get_u64 (buf : list byte) (off : nat) : res E Z :=
  b ← buf_get off 8 buf; Ok (be_value b).
Definition buf_put_u64 (buf : list byte) (off : nat) (v : Z) : res E (list byte) :=
  buf_put off (be_bytes 8 v) buf.

Lemma buf_get_ok off n buf : (off + n <= length buf)%nat -> buf_get off n buf = Ok (slice off n buf).
Proof. intros. unfold buf_get. by rewrite (proj2 (Nat.leb_le _ _)). Qed.

Lemma buf_put_ok off data buf :
  (off + length data <= length buf)%nat -> buf_put off data buf = Ok (splice off data buf).
Proof. intros. unfold buf_put. by rewrite (proj2 (Nat.leb_le _ _)). Qed.

Lemma buf_get_u16_ok buf off :
  (off + 2 <= length buf)%nat -> buf_get_u16 buf off = Ok (be_value (slice off 2 buf)).
Proof. intros. unfold buf_get_u16. by rewrite buf_get_ok. Qed.

Lemma buf_put_u16_ok buf off v :
  (off + 2 <= length buf)%nat -> buf_put_u16 buf off v = Ok (splice off (be_bytes 2 v) buf).
Proof. intros. unfold buf_put_u16. by rewrite buf_put_ok by len. Qed.

Lemma buf_get_u64_ok buf off :
  (off + 8 <= length buf)%nat -> buf_get_u64 buf off = Ok (be_value (slice off 8 buf)).
Proof. intros. unfold buf_get_u64. by rewrite buf_get_ok. Qed.

Lemma buf_put_u64_ok buf off v :
  (off + 8 <= length buf)%nat -> buf_put_u64 buf off v = Ok (splice off (be_bytes 8 v) buf).
Proof. intros. unfold buf_put_u64. by rewrite buf_put_ok by len. Qed.
End buffers.

(** [b'] is [b] with [d] written at [off]: what later reads see. *)
Record wrote (off : nat) (d b b' : list byte) : Prop := {
  w_len : length b' = length b;
  w_eq : slice off (length d) b' = d;
  w_ne o n : (o + n <= off \/ off + length d <= o)%nat -> slice o n b' = slice o n b;
}.

Lemma splice_wrote off d b : (off + length d <= length b)%nat -> wrote off d b (splice off d b).
Proof.
  intros H. split.
  - by apply length_splice.
  - by apply slice_splice_eq.
  - intros o n Ho. by apply slice_splice_ne.
Qed.

Lemma buf_put_wrote {E} off d b :
  (off + length d <= length b)%nat -> exists b', buf_put (E := E) off d b = Ok b' /\ wrote off d b b'.
Proof. intros H. rewrite buf_put_ok by done. eauto using splice_wrote. Qed.

(** ** Page header *)

Definition PAGE_MAGIC : list byte := [x53; x54; x44; x42]. (* "STDB" *)
Definition HEADER_VERSION : Z := 1.
Definition PAGE_HEADER_LEN : nat := 21.
Definition OFF_CHECKSUM : nat := 17.

Definition TUPLE_PAGE : Z := 1.
Definition DELTA_PAGE : Z := 2.
Definition TEXT_PAGE : Z := 3.

Record PageHeader : Type := MkPageHeader { page_type : Z; format_version : Z; lsn : Z }.

#[global] Instance PageHeader_eq_dec : EqDecision PageHeader.
Proof. solve_decision. Defined.

Definition PageHeader_new (page_type format_version : Z) : PageHeader :=
  MkPageHeader page_type format_version 0.

Definition header_write (h : PageHeader) (page : list byte) : res Error (list byte) :=
  p ← buf_put 0 PAGE_MAGIC page;
  p ← buf_put 4 [byte_of HEADER_VERSION] p;
  p ← buf_put 5 (be_bytes 2 (page_type h)) p;
  p ← buf_put 7 (be_bytes 2 (format_version h)) p;
  buf_put 9 (be_bytes 8 (lsn h)) p.

Definition header_parse (page : list byte) : res Error PageHeader :=
  if (length page <? PAGE_HEADER_LEN)%nat || negb (bool_decide (slice 0 4 page = PAGE_MAGIC)) then
    Err EBadMagic
  else if negb (be_value (slice 4 1 page) =? HEADER_VERSION) then
    Err (EBadHeaderVersion (be_value (slice 4 1 page)))
  else
    Ok (MkPageHeader (be_value (slice 5 2 page)) (be_value (slice 7 2 page)) (be_value (slice 9 8 page))).

(** The type test every page-type handler opens with. *)
Definition expect_type (ty : Z) (page : list byte) : res Error unit :=
  h ← header_parse page;
  if page_type h =? ty then Ok tt else Err (EBadPageType ty (page_type h)).

Definition header_wf (h : PageHeader) : Prop :=
  is_u16 (page_type h) /\ is_u16 (format_version h) /\ is_u64 (lsn h).

(** The bytes of a header, without the checksum field. *)
Definition header_field_bytes (h : PageHeader) : list byte :=
  PAGE_MAGIC ++ [byte_of HEADER_VERSION] ++ be_bytes 2 (page_type h)
  ++ be_bytes 2 (format_version h) ++ be_bytes 8 (lsn h).

Lemma length_header_field_bytes h : length (header_field_bytes h) = OFF_CHECKSUM.
Proof. unfold header_field_bytes, PAGE_MAGIC, OFF_CHECKSUM. len. Qed.

(** Consecutive writes are one write of the concatenation. *)
Lemma splice_splice {A} off off' (k1 k2 l : list A) :
  off' = (off + length k1)%nat -> (off + length k1 + length k2 <= length l)%nat ->
  splice off' k2 (splice off k1 l) = splice off (k1 ++ k2) l.
Proof.
  intros -> H. apply list_eq. intros i.
  rewrite lookup_splice by (rewrite length_splice; lia).
  rewrite (lookup_splice off k1) by lia. rewrite (lookup_splice off (k1 ++ k2)) by len.
  rewrite length_app. repeat case_decide; try lia; try done.
  - rewrite lookup_app_r by lia. f_equal. lia.
  - by rewrite lookup_app_l by lia.
Qed.

Lemma header_write_ok h page :
  (PAGE_HEADER_LEN <= length page)%nat ->
  header_write h page = Ok (splice 0 (header_field_bytes h) page).
Proof.
  unfold header_write, PAGE_HEADER_LEN. intros H.
  assert (HM : length PAGE_MAGIC = 4%nat) by done.
  rewrite buf_put_ok by (cbn; lia). bind_ok.
  rewrite buf_put_ok by (rewrite length_splice; cbn; lia). bind_ok.
  rewrite splice_splice by len.
  rewrite buf_put_ok by (rewrite ?length_splice; len). bind_ok.
  rewrite splice_splice by len.
  rewrite buf_put_ok by (rewrite ?length_splice; len). bind_ok.
  rewrite splice_splice by len.
  rewrite buf_put_ok by (rewrite ?length_splice; len).
  rewrite splice_splice by len.
  unfold header_field_bytes. by rewrite <- !app_assoc.
Qed.

(** What parsing reads of a page: its first [OFF_CHECKSUM] bytes. *)
Lemma slice_take {A} off n m (l : list A) :
  (off + n <= m)%nat -> slice off n (take m l) = slice off n l.
Proof.
  intros H. apply list_eq. intros i. rewrite !lookup_slice. case_decide; [|done].
  by rewrite lookup_take_lt by lia.
Qed.

Lemma header_parse_take page page' :
  take OFF_CHECKSUM page = take OFF_CHECKSUM page' -> length page = length page' ->
  header_parse page = header_parse page'.
Proof.
  unfold OFF_CHECKSUM. intros Ht Hl. unfold header_parse.
  assert (E : forall off n, (off + n <= 17)%nat -> slice off n page = slice off n page').
  { intros off n H. by rewrite <- (slice_take off n 17 page), Ht, slice_take. }
  by rewrite Hl, !E by lia.
Qed.

Lemma header_parse_slice page page' :
  length page = length page' -> slice 0 17 page = slice 0 17 page' -> header_parse page = header_parse page'.
Proof. unfold slice. rewrite !drop_0. intros. by apply header_parse_take. Qed.

Lemma header_parse_app h rest :
  header_wf h -> (4 <= length rest)%nat -> header_parse (header_field_bytes h ++ rest) = Ok h.
Proof.
  intros (H1 & H2 & H3) Hl. unfold header_parse.
  rewrite length_app, length_header_field_bytes. unfold OFF_CHECKSUM, PAGE_HEADER_LEN.
  rewrite (proj2 (Nat.ltb_ge _ _)) by lia.
  unfold header_field_bytes. rewrite <- !app_assoc.
  assert (HM : length PAGE_MAGIC = 4%nat) by done.
  set (tail := be_bytes 2 (page_type h) ++ _).
  assert (E0 : forall r, slice 0 4 (PAGE_MAGIC ++ r) = PAGE_MAGIC) by done. rewrite E0.
  rewrite bool_decide_true by done. cbn [orb negb].
  rewrite (slice_app_exact PAGE_MAGIC [_]) by done.
  change (be_value [byte_of HEADER_VERSION] =? HEADER_VERSION) with true. cbn [negb].
  unfold tail.
  rewrite (app_assoc PAGE_MAGIC), (slice_app_exact _ (be_bytes 2 (page_type h))) by len.
  rewrite (app_assoc _ (be_bytes 2 (page_type h))).
  rewrite (slice_app_exact _ (be_bytes 2 (format_version h))) by len.
  rewrite (app_assoc _ (be_bytes 2 (format_version h))).
  rewrite (slice_app_exact _ (be_bytes 8 (lsn h))) by len.
  rewrite !be_u16, be_u64 by done. by destruct h.
Qed.

(** A header written over any page big enough parses back to itself. *)
Lemma header_write_parse h page :
  header_wf h -> (PAGE_HEADER_LEN <= length page)%nat ->
  exists page', header_write h page = Ok page' /\ header_parse page' = Ok h
    /\ length page' = length page /\ drop OFF_CHECKSUM page' = drop OFF_CHECKSUM page.
Proof.
  intros Hh Hl. rewrite header_write_ok by done. eexists. split; [done|].
  unfold PAGE_HEADER_LEN in Hl. unfold splice. rewrite take_0, app_nil_l, Nat.add_0_l.
  pose proof (length_header_field_bytes h) as HL. unfold OFF_CHECKSUM in *.
  split; [apply header_parse_app; [done|]; len|].
  split; [len|]. by rewrite drop_app_exact, HL by done.
Qed.

(** ** Checksum *)

(** The [crc32c] crate: the checksum of a slice, and its continuation over a
    further slice.  The code relies on the result being a [u32]. *)
Class Crc32c : Type := {
  crc32c : list byte -> Z;
  crc32c_append : Z -> list byte -> Z;
}.
Class Crc32cOk `{!Crc32c} : Prop := crc32c_append_u32 : forall c l, is_u32 (crc32c_append c l).

(** Pages that agree outside the checksum field. *)
Definition page_eqv (p q : list byte) : Prop :=
  length p = length q /\ take OFF_CHECKSUM p = take OFF_CHECKSUM q
  /\ drop PAGE_HEADER_LEN p = drop PAGE_HEADER_LEN q.

Infix "≈p" := page_eqv (at level 70).

#[global] Instance page_eqv_equiv : Equivalence page_eqv.
Proof.
  split.
  - by intros p.
  - by intros p q (?&?&?).
  - intros p q r (?&?&?) (?&?&?). repeat split; congruence.
Qed.

#[global] Instance page_eqv_length : Proper (page_eqv ==> eq) (@length byte).
Proof. by intros p q (?&?&?). Qed.

#[global] Instance header_parse_proper : Proper (page_eqv ==> eq) header_parse.
Proof. intros p q (Hl & Ht & _). by apply header_parse_take. Qed.

Lemma slice_drop_eq off n (p q : list byte) m :
  drop m p = drop m q -> (m <= off)%nat -> slice off n p = slice off n q.
Proof.
  intros Hd Hm. unfold slice. replace off with (m + (off - m))%nat by lia.
  by rewrite <- !drop_drop, Hd.
Qed.

(** Reads behind the header do not see the checksum field. *)
Lemma page_eqv_slice off n (p q : list byte) :
  p ≈p q -> (PAGE_HEADER_LEN <= off)%nat -> slice off n p = slice off n q.
Proof. intros (_ & _ & Hd). by apply slice_drop_eq. Qed.

(** The same write behind the header keeps pages equivalent. *)
Lemma page_eqv_splice off k (p q : list byte) :
  p ≈p q -> (PAGE_HEADER_LEN <= off)%nat -> (off + length k <= length p)%nat ->
  splice off k p ≈p splice off k q.
Proof.
  intros (Hl & Ht & Hd) Ho Hk. unfold page_eqv, PAGE_HEADER_LEN, OFF_CHECKSUM in *. split; [|split].
  - rewrite !length_splice by lia. done.
  - apply list_eq. intros i. destruct (decide (i < 17)%nat); [|by rewrite !lookup_take_ge by lia].
    rewrite !lookup_take_lt, !lookup_splice by lia. rewrite !decide_False by lia.
    rewrite <- (lookup_take_lt p 17), <- (lookup_take_lt q 17), Ht by lia. done.
  - apply list_eq. intros i. rewrite !lookup_drop, !lookup_splice by lia. case_decide; [done|].
    by rewrite <- !lookup_drop, Hd.
Qed.

Section checksum.
Context `{!Crc32c}.

Definition checksum (page : list byte) : Z :=
  crc32c_append (crc32c (take OFF_CHECKSUM page)) (drop (OFF_CHECKSUM + 4) page).

Definition finalize_checksum (page : list byte) : res Error (list byte) :=
  buf_put OFF_CHECKSUM (be_bytes 4 (checksum page)) page.

Definition verify_checksum (page : list byte) (id : Z) : res Error unit :=
  b ← buf_get OFF_CHECKSUM 4 page;
  if negb (checksum page =? be_value b) then Err (EChecksum id) else Ok tt.

(** The page with its checksum filled in. *)
Definition finalized (page : list byte) : list byte :=
  splice OFF_CHECKSUM (be_bytes 4 (checksum page)) page.

Lemma finalize_ok page :
  (PAGE_HEADER_LEN <= length page)%nat -> finalize_checksum page = Ok (finalized page).
Proof. unfold PAGE_HEADER_LEN. intros. apply buf_put_ok. unfold OFF_CHECKSUM. len. Qed.

#[global] Instance checksum_proper : Proper (page_eqv ==> eq) checksum.
Proof. intros p q (_ & Ht & Hd). unfold checksum, PAGE_HEADER_LEN, OFF_CHECKSUM in *. cbn. by rewrite Ht, Hd. Qed.

Lemma finalized_eqv page : (PAGE_HEADER_LEN <= length page)%nat -> finalized page ≈p page.
Proof.
  unfold PAGE_HEADER_LEN, finalized. intros Hl. unfold page_eqv, OFF_CHECKSUM, PAGE_HEADER_LEN.
  split; [apply length_splice; len|]. split.
  - unfold splice. rewrite take_app_exact; [done | len].
  - unfold splice. rewrite app_assoc, drop_app_exact; [by len | len].
Qed.

Lemma length_finalized page : (PAGE_HEADER_LEN <= length page)%nat -> length (finalized page) = length page.
Proof. intros Hp. by destruct (finalized_eqv page Hp). Qed.

Context `{!Crc32cOk}.

(** A finalised page verifies, whatever its checksum field held before. *)
Lemma verify_finalized page id :
  (PAGE_HEADER_LEN <= length page)%nat -> verify_checksum (finalized page) id = Ok tt.
Proof.
  intros Hl. unfold verify_checksum. unfold PAGE_HEADER_LEN in *.
  rewrite buf_get_ok by (rewrite length_finalized by done; unfold OFF_CHECKSUM; lia). bind_ok.
  unfold finalized at 2. rewrite slice_splice_eq by (unfold OFF_CHECKSUM; len).
  rewrite be_u32 by apply crc32c_append_u32.
  rewrite (checksum_proper _ _ (finalized_eqv page Hl)). by rewrite Z.eqb_refl.
Qed.
End checksum.

(** ** The checksum function itself

    CRC-32C (Castagnoli, reflected polynomial 0x82F63B78), which the [crc32c]
    crate documents, for the concrete examples. *)
Module Castagnoli.
Fixpoint shift_bits (n : nat) (c : Z) : Z :=
  match n with
  | O => c
  | S m => shift_bits m (if Z.testbit c 0 then Z.lxor 0x82F63B78 (Z.shiftr c 1) else Z.shiftr c 1)
  end.

Definition append_crc (c : Z) (l : list byte) : Z :=
  wrap32 (Z.lxor 0xFFFFFFFF (foldl (fun c b => shift_bits 8 (Z.lxor c (byteZ b))) (Z.lxor 0xFFFFFFFF c) l)).

#[export] Instance castagnoli : Crc32c := {| crc32c := append_crc 0; crc32c_append := append_crc |}.

#[export] Instance castagnoli_ok : Crc32cOk.
Proof.
  intros c l. unfold crc32c_append, castagnoli, append_crc.
  match goal with |- context [wrap32 ?x] => pose proof (Z.mod_pos_bound x (2 ^ 32) ltac:(lia)) end. ulia.
Qed.

Example castagnoli_check :
  crc32c (byte_of <$> [49; 50; 51; 52; 53; 54; 55; 56; 57]) = 0xE3069283.
Proof. vm_compute. reflexivity. Qed.

Example castagnoli_append :
  crc32c_append (crc32c (byte_of <$> [49; 50; 51; 52])) (byte_of <$> [53; 54; 55; 56; 57]) = 0xE3069283.
Proof. vm_compute. reflexivity. Qed.
End Castagnoli.
