(* ===== verification/TuplePage.v ===== *)
(** * Tuple pages ([crates/filesystem/src/tuple/page.rs], [tuple/loc.rs])

    The slotted page: a slot array growing up from offset 27, tuple bytes
    packed down from the end of the page.  The views [TuplePage] and
    [TuplePageMut] borrow the page's bytes, so their methods are functions on
    the buffer.  [u16] subtractions and additions are checked: an overflow is
    a panic, which the invariant excludes.

    [tp_rep buf ts] relates a page to the list of its tuples with their
    deletion marks; every operation is proved to act on that list. *)

From Stdlib Require Import Strings.Byte ZArith Lia.
From stdpp Require Import prelude list strings.
From S2P Require Import Prelude Codec Journal Page.
Local Open Scope Z_scope.

(** ** Tuple addresses *)

Record TupleLoc : Type := MkLoc { page_id : Z; slot_id : Z }.

#[global] Instance TupleLoc_eq_dec : EqDecision TupleLoc.
Proof. solve_decision. Defined.

Definition ENCODED_LEN : nat := 10.

Definition loc_encode (l : TupleLoc) : list byte := be_bytes 8 (page_id l) ++ be_bytes 2 (slot_id l).

Definition loc_decode (bytes : list byte) : option TupleLoc :=
  if negb (length bytes =? ENCODED_LEN)%nat then None
  else Some (MkLoc (be_value (slice 0 8 bytes)) (be_value (slice 8 2 bytes))).

Definition loc_wf (l : TupleLoc) : Prop := is_u64 (page_id l) /\ is_u16 (slot_id l).

(** The value an index stores for a row decodes to the tuple's address,
    and a value decodes exactly when it is the encoding of an address. *)
Lemma loc_decode_exact bytes l :
  loc_decode bytes = Some l <-> loc_wf l /\ bytes = loc_encode l.
Proof.
  unfold loc_decode, loc_encode, loc_wf, ENCODED_LEN. split.
  - destruct (Nat.eqb_spec (length bytes) 10) as [Hl|]; [|done]. intros [= <-]. cbn.
    split.
    + split; [apply be_value_u64 | apply be_value_u16]; apply length_slice; lia.
    + rewrite !be_bytes_be_value by (apply length_slice; lia).
      unfold slice. rewrite drop_0, (take_ge (drop 8 bytes)) by len. by rewrite take_drop.
  - destruct l as [p s]. cbn. intros [[Hp Hs] ->]. rewrite length_app, !length_be_bytes. cbn [Nat.add Nat.eqb negb].
    rewrite (slice_app_l 0) by len. rewrite <- (app_nil_r (be_bytes 2 s)) at 1.
    rewrite slice_app_exact by len. unfold slice. rewrite drop_0, take_ge by len.
    by rewrite be_u64, be_u16.
Qed.

(** ** The page *)

Definition FORMAT_VERSION : Z := 1.
Definition OFF_SLOT_COUNT : nat := 21.
Definition OFF_FREE_START : nat := 23.
Definition OFF_FREE_END : nat := 25.
Definition SLOT_ARRAY_OFFSET : nat := 27.
Definition SLOT_SIZE : nat := 8.
Definition FLAG_DELETED : Z := 1.

(** [u16] subtraction and addition, panicking on overflow. *)
Definition sub16 (a b : Z) : res Error Z := if b <=? a then Ok (a - b) else Panic.
Definition add16 (a b : Z) : res Error Z := if a + b <=? u16_max then Ok (a + b) else Panic.

Lemma sub16_ok a b : b <= a -> sub16 a b = Ok (a - b).
Proof. intros. unfold sub16. by rewrite (proj2 (Z.leb_le _ _)). Qed.

Lemma add16_ok a b : a + b <= u16_max -> add16 a b = Ok (a + b).
Proof. intros. unfold add16. by rewrite (proj2 (Z.leb_le _ _)). Qed.

(** [TuplePage::open] and [TuplePageMut::open]. *)
Definition tp_open (buf : list byte) : res Error unit := expect_type TUPLE_PAGE buf.

Definition slot_count (buf : list byte) : res Error Z := buf_get_u16 buf OFF_SLOT_COUNT.

(** The range [off..off + len] of a live slot. *)
Definition slot_range (buf : list byte) (slot : Z) : res Error (option (nat * nat)) :=
  count ← buf_get_u16 buf OFF_SLOT_COUNT;
  if count <=? slot then Ok None
  else
    let pos := (SLOT_ARRAY_OFFSET + Z.to_nat slot * SLOT_SIZE)%nat in
    flags ← buf_get_u16 buf (pos + 4)%nat;
    if negb (Z.land flags FLAG_DELETED =? 0) then Ok None
    else
      off ← buf_get_u16 buf pos;
      len ← buf_get_u16 buf (pos + 2)%nat;
      Ok (Some (Z.to_nat off, Z.to_nat len)).

Definition slot_bytes (buf : list byte) (slot : Z) : res Error (option (list byte)) :=
  r ← slot_range buf slot;
  match r with
  | None => Ok None
  | Some (off, len) => b ← buf_get off len buf; Ok (Some b)
  end.

Definition tp_get (buf : list byte) (slot : Z) : res Error (option (list byte)) := slot_bytes buf slot.

(** [(0..slot_count).filter_map(..)], collected. *)
Definition tp_entry (buf : list byte) (s : Z) : res Error (option (Z * list byte)) :=
  map_ok (option_map (pair s)) (slot_bytes buf s).
Definition tp_iter (buf : list byte) : res Error (list (Z * list byte)) :=
  count ← slot_count buf;
  l ← collect_res (map (tp_entry buf) (seqZ 0 count));
  Ok (omap (M := list) id l).

Definition tp_init (buf : list byte) : res Error (list byte) :=
  buf ← header_write (PageHeader_new TUPLE_PAGE FORMAT_VERSION) buf;
  buf ← buf_put_u16 buf OFF_SLOT_COUNT 0;
  buf ← buf_put_u16 buf OFF_FREE_START (Z.of_nat SLOT_ARRAY_OFFSET);
  buf_put_u16 buf OFF_FREE_END (wrap16 (Z.of_nat PAGE_SIZE)).

Definition free_space (buf : list byte) : res Error Z :=
  free_end ← buf_get_u16 buf OFF_FREE_END;
  free_start ← buf_get_u16 buf OFF_FREE_START;
  span ← sub16 free_end free_start;
  Ok (Z.max 0 (span - Z.of_nat SLOT_SIZE)).

Definition tp_insert (buf tuple : list byte) : res Error (option Z * list byte) :=
  slot_count ← buf_get_u16 buf OFF_SLOT_COUNT;
  free_start ← buf_get_u16 buf OFF_FREE_START;
  free_end ← buf_get_u16 buf OFF_FREE_END;
  span ← sub16 free_end free_start;
  if span <? Z.of_nat (length tuple + SLOT_SIZE) then Ok (None, buf)
  else
    tuple_off ← sub16 free_end (wrap16 (Z.of_nat (length tuple)));
    buf ← buf_put (Z.to_nat tuple_off) tuple buf;
    let slot_pos := Z.to_nat free_start in
    buf ← buf_put_u16 buf slot_pos tuple_off;
    buf ← buf_put_u16 buf (slot_pos + 2) (wrap16 (Z.of_nat (length tuple)));
    buf ← buf_put_u16 buf (slot_pos + 4) 0;
    buf ← buf_put_u16 buf (slot_pos + 6) 0;
    count' ← add16 slot_count 1;
    buf ← buf_put_u16 buf OFF_SLOT_COUNT count';
    start' ← add16 free_start (Z.of_nat SLOT_SIZE);
    buf ← buf_put_u16 buf OFF_FREE_START start';
    buf ← buf_put_u16 buf OFF_FREE_END tuple_off;
    Ok (Some slot_count, buf).

Definition tp_delete (buf : list byte) (slot : Z) : res Error (bool * list byte) :=
  count ← buf_get_u16 buf OFF_SLOT_COUNT;
  if count <=? slot then Ok (false, buf)
  else
    let flags_pos := (SLOT_ARRAY_OFFSET + Z.to_nat slot * SLOT_SIZE + 4)%nat in
    flags ← buf_get_u16 buf flags_pos;
    buf ← buf_put_u16 buf flags_pos (Z.lor flags FLAG_DELETED);
    Ok (true, buf).

(** [into_slot_bytes_mut], used to copy [data] over the tuple in place:
    [None] when there is no live tuple; [copy_from_slice] panics on a length
    that differs. *)
Definition slot_write (buf : list byte) (slot : Z) (data : list byte) : res Error (option (list byte)) :=
  r ← slot_range buf slot;
  match r with
  | None => Ok None
  | Some (off, len) =>
      _ ← buf_get off len buf;
      if (length data =? len)%nat then b ← buf_put off data buf; Ok (Some b) else Panic
  end.

(** ** The page as a list of tuples *)

(** A slot's tuple, and whether it is live. *)
Record tuple_slot : Type := MkSlot { live : bool; data : list byte }.

Definition tuples_size (ts : list tuple_slot) : nat := sum_list (length ∘ data <$> ts).

(** Where the bytes of slot [i] start. *)
Definition data_off (ts : list tuple_slot) (i : nat) : nat := BLOCK_SIZE - tuples_size (take (S i) ts).

Definition slot_pos (i : nat) : nat := SLOT_ARRAY_OFFSET + i * SLOT_SIZE.

Definition slot_rep (buf : list byte) (ts : list tuple_slot) (i : nat) (t : tuple_slot) : Prop :=
  be_value (slice (slot_pos i) 2 buf) = Z.of_nat (data_off ts i)
  /\ be_value (slice (slot_pos i + 2) 2 buf) = Z.of_nat (length (data t))
  /\ be_value (slice (slot_pos i + 4) 2 buf) = (if live t then 0 else 1)
  /\ slice (data_off ts i) (length (data t)) buf = data t.

Record tp_rep (buf : list byte) (ts : list tuple_slot) : Prop := {
  rep_length : length buf = BLOCK_SIZE;
  rep_type : tp_open buf = Ok tt;
  rep_fits : (slot_pos (length ts) + tuples_size ts <= BLOCK_SIZE)%nat;
  rep_count : be_value (slice OFF_SLOT_COUNT 2 buf) = Z.of_nat (length ts);
  rep_start : be_value (slice OFF_FREE_START 2 buf) = Z.of_nat (slot_pos (length ts));
  rep_end : be_value (slice OFF_FREE_END 2 buf) = Z.of_nat (BLOCK_SIZE - tuples_size ts);
  rep_slots i t : ts !! i = Some t -> slot_rep buf ts i t;
}.

(** The contract of the page, on its list of tuples. *)
Definition spec_get (ts : list tuple_slot) (slot : Z) : option (list byte) :=
  match ts !! Z.to_nat slot with
  | Some t => if live t then Some (data t) else None
  | None => None
  end.
Definition spec_fits (ts : list tuple_slot) (tuple : list byte) : bool :=
  (slot_pos (length ts) + tuples_size ts + length tuple + SLOT_SIZE <=? BLOCK_SIZE)%nat.
Definition spec_delete (ts : list tuple_slot) (slot : Z) : list tuple_slot :=
  alter (fun t => MkSlot false (data t)) (Z.to_nat slot) ts.
Definition spec_write (ts : list tuple_slot) (slot : Z) (d : list byte) : list tuple_slot :=
  alter (fun t => MkSlot (live t) d) (Z.to_nat slot) ts.

Ltac tp_consts := unfold slot_pos, OFF_SLOT_COUNT, OFF_FREE_START, OFF_FREE_END, SLOT_ARRAY_OFFSET, SLOT_SIZE in *.

(** Offsets on a page: unfold the layout, then linear arithmetic. *)
Ltac plia := tp_consts; pose proof BLOCK_SIZE_Z; unfold_widths; unfold PAGE_SIZE, PAGE_HEADER_LEN, OFF_CHECKSUM in *; lia.

(** One step of an operation: its next buffer access, which the layout shows
    to be in range; a write introduces the new buffer and what it holds. *)
Ltac pside := rewrite ?length_be_bytes; plia.
Ltac pput o d b :=
  let b' := fresh "b" in let W := fresh "W" in let E := fresh "E" in
  destruct (buf_put_wrote (E := Error) o d b) as (b' & E & W); [pside|]; rewrite E; clear E;
  pose proof (w_len _ _ _ _ W); rewrite ?length_be_bytes in *.
Ltac head_comp :=
  match goal with
  | |- mbind _ ?m = _ => m
  | |- exists _, mbind _ ?m = _ /\ _ => m
  end.
Ltac pstep :=
  let m := head_comp in
  lazymatch m with
  | buf_get_u16 ?b ?o => rewrite (buf_get_u16_ok b o) by pside
  | buf_get ?o ?n ?b => rewrite (buf_get_ok o n b) by pside
  | sub16 ?x ?y => rewrite (sub16_ok x y) by plia
  | add16 ?x ?y => rewrite (add16_ok x y) by plia
  | buf_put_u16 ?b ?o ?d => change (buf_put_u16 (E := Error) b o d) with (buf_put (E := Error) o (be_bytes 2 d) b); pput o (be_bytes 2 d) b
  | buf_put ?o ?d ?b => pput o d b
  end; rewrite bind_Ok; cbv beta iota zeta.

(** Read a field through the writes made since. *)
Ltac pread :=
  repeat match goal with
  | W : wrote ?o ?d _ ?b |- context [slice ?o ?n ?b] =>
      let H := fresh in pose proof (w_eq _ _ _ _ W) as H; rewrite ?length_be_bytes in H; rewrite H; clear H
  | W : wrote _ _ _ ?b |- context [slice ?o ?n ?b] => rewrite (w_ne _ _ _ _ W o n) by pside
  end.

Lemma tuples_size_app ts ts' : tuples_size (ts ++ ts') = (tuples_size ts + tuples_size ts')%nat.
Proof. unfold tuples_size. rewrite fmap_app. induction (length ∘ data <$> ts); cbn; lia. Qed.

Lemma tuples_size_lookup ts i t :
  ts !! i = Some t -> tuples_size (take (S i) ts) = (tuples_size (take i ts) + length (data t))%nat.
Proof. intros H. rewrite (take_S_r _ _ _ H), tuples_size_app. unfold tuples_size at 2. cbn. lia. Qed.

Lemma tuples_size_take ts i : (tuples_size (take i ts) <= tuples_size ts)%nat.
Proof. rewrite <- (take_drop i ts) at 2. rewrite tuples_size_app. lia. Qed.

(** The bytes of slot [i] lie between the free space and the end of the page. *)
Lemma data_off_bounds buf ts i t :
  tp_rep buf ts -> ts !! i = Some t ->
  (BLOCK_SIZE - tuples_size ts <= data_off ts i)%nat /\ (data_off ts i + length (data t) <= BLOCK_SIZE)%nat
  /\ (i < length ts)%nat /\ (slot_pos (length ts) <= data_off ts i)%nat.
Proof.
  intros R H. pose proof (rep_fits _ _ R). pose proof (tuples_size_take ts (S i)).
  pose proof (tuples_size_lookup _ _ _ H). pose proof (lookup_lt_Some _ _ _ H).
  unfold data_off. lia.
Qed.

(** The bytes of two slots do not overlap. *)
Lemma data_off_disjoint ts i j t t' :
  (tuples_size ts <= BLOCK_SIZE)%nat -> ts !! i = Some t -> ts !! j = Some t' -> i <> j ->
  (data_off ts i + length (data t) <= data_off ts j \/ data_off ts j + length (data t') <= data_off ts i)%nat.
Proof.
  intros Hs Hi Hj Hn. unfold data_off.
  pose proof (tuples_size_lookup _ _ _ Hi). pose proof (tuples_size_lookup _ _ _ Hj).
  pose proof (tuples_size_take ts (S i)). pose proof (tuples_size_take ts (S j)).
  assert (M : forall a b, (a <= b)%nat -> (tuples_size (take a ts) <= tuples_size (take b ts))%nat).
  { intros a b Hab. rewrite <- (tuples_size_take (take b ts) a), take_take. by rewrite Nat.min_l. }
  destruct (decide (i < j)%nat).
  - pose proof (M (S i) j). lia.
  - pose proof (M (S j) i). lia.
Qed.

(** ** The operations on the represented list *)

Section rep.
Context (buf : list byte) (ts : list tuple_slot) (R : tp_rep buf ts).

Lemma rep_slots_bound : (length ts <= 1020)%nat.
Proof using R. pose proof (rep_fits _ _ R). plia. Qed.

Lemma slot_range_rep slot :
  is_u16 slot ->
  slot_range buf slot
  = Ok (match ts !! Z.to_nat slot with
        | Some t => if live t then Some (data_off ts (Z.to_nat slot), length (data t)) else None
        | None => None
        end).
Proof using R.
  intros Hs. destruct R as [Hl Ht Hf Hc Hst He Hsl]. pose proof BLOCK_SIZE_Z.
  unfold slot_range. pstep. rewrite Hc.
  destruct (Z.leb_spec (Z.of_nat (length ts)) slot) as [Hge|Hlt].
  { rewrite lookup_ge_None_2 by lia. done. }
  destruct (lookup_lt_is_Some_2 ts (Z.to_nat slot)) as [t E]; [ulia|]. rewrite E.
  destruct (Hsl _ _ E) as (Ho & Hn & Hfl & _). unfold slot_pos in Ho, Hn, Hfl. assert (Z.to_nat slot < length ts)%nat by ulia.
  pstep. rewrite Hfl.
  destruct (live t); [|done]. change (negb (Z.land 0 FLAG_DELETED =? 0)) with false. cbv iota.
  pstep. pstep. by rewrite Ho, Hn, !Nat2Z.id.
Qed.

Lemma tp_get_rep slot : is_u16 slot -> tp_get buf slot = Ok (spec_get ts slot).
Proof using R.
  intros Hs. unfold tp_get, slot_bytes, spec_get. rewrite slot_range_rep by done. bind_ok.
  destruct (ts !! Z.to_nat slot) as [t|] eqn:E; [|done]. destruct (live t); [|done].
  destruct (data_off_bounds _ _ _ _ R E) as (_ & Hb & _).
  rewrite buf_get_ok by (rewrite (rep_length _ _ R); lia). bind_ok.
  by rewrite (proj2 (proj2 (proj2 (rep_slots _ _ R _ _ E)))).
Qed.

Lemma free_space_rep :
  free_space buf = Ok (Z.max 0 (Z.of_nat BLOCK_SIZE - Z.of_nat (tuples_size ts + slot_pos (length ts) + SLOT_SIZE))).
Proof using R.
  destruct R as [Hl Ht Hf Hc Hst He Hsl]. unfold free_space.
  do 2 pstep. rewrite He, Hst. pstep. do 2 f_equal. lia.
Qed.

Lemma rep_eqv buf' : buf ≈p buf' -> tp_rep buf' ts.
Proof using R.
  intros E. destruct R as [Hl Ht Hf Hc Hst He Hsl].
  assert (S : forall off n, (21 <= off)%nat -> slice off n buf' = slice off n buf)
    by (intros; symmetry; by apply page_eqv_slice).
  split; try done.
  - by rewrite <- E.
  - revert Ht. unfold tp_open, expect_type. by rewrite E.
  - by rewrite S by plia.
  - by rewrite S by plia.
  - by rewrite S by plia.
  - intros i t Hi. destruct (data_off_bounds _ _ _ _ R Hi) as (_ & _ & _ & Hb).
    destruct (Hsl i t Hi) as (H1 & H2 & H3 & H4).
    unfold slot_rep. rewrite !S by plia. done.
Qed.

Lemma tp_open_slice buf' :
  length buf' = length buf -> slice 0 17 buf' = slice 0 17 buf -> tp_open buf' = Ok tt.
Proof using R.
  intros Hl Hs. rewrite <- (rep_type _ _ R). unfold tp_open, expect_type.
  by rewrite (header_parse_slice buf' buf).
Qed.

Lemma data_off_snoc t i : (i < length ts)%nat -> data_off (ts ++ [t]) i = data_off ts i.
Proof using Type. intros. unfold data_off. by rewrite take_app_le by lia. Qed.

Lemma tp_insert_none tuple : spec_fits ts tuple = false -> tp_insert buf tuple = Ok (None, buf).
Proof using R.
  destruct R as [Hl Ht Hf Hc Hst He Hsl]. unfold spec_fits. intros H%Nat.leb_gt.
  unfold tp_insert. do 3 pstep. rewrite Hc, Hst, He. pstep.
  by rewrite (proj2 (Z.ltb_lt _ _)) by lia.
Qed.

Lemma tp_insert_some tuple :
  spec_fits ts tuple = true ->
  exists buf', tp_insert buf tuple = Ok (Some (Z.of_nat (length ts)), buf')
    /\ tp_rep buf' (ts ++ [MkSlot true tuple]).
Proof using R.
  destruct R as [Hl Ht Hf Hc Hst He Hsl]. unfold spec_fits. intros H%Nat.leb_le.
  unfold tp_insert. do 3 pstep. rewrite Hc, Hst, He. pstep.
  rewrite (proj2 (Z.ltb_ge _ _)) by lia.
  unfold wrap16. rewrite Z.mod_small by plia. pstep.
  rewrite Nat2Z.id. set (D := Z.of_nat (BLOCK_SIZE - tuples_size ts) - Z.of_nat (length tuple)).
  assert (HD : Z.to_nat D = (BLOCK_SIZE - tuples_size ts - length tuple)%nat) by (unfold D; lia).
  rewrite HD. do 10 pstep.
  eexists. split; [done|]. split.
  - plia.
  - apply tp_open_slice; [plia|]. by pread.
  - rewrite length_app, tuples_size_app. unfold tuples_size at 2. cbn. plia.
  - pread. rewrite be_u16 by plia. rewrite length_app. cbn. lia.
  - pread. rewrite be_u16 by plia. rewrite length_app. cbn [length]. plia.
  - pread. rewrite be_u16 by (unfold D; plia). rewrite tuples_size_app. unfold tuples_size at 2, D. cbn. lia.
  - intros i t [Hi|[Hi [Hi' <-]%list_lookup_singleton_Some]]%lookup_app_Some; unfold slot_rep.
    + destruct (data_off_bounds _ _ _ _ R Hi) as (Hb1 & Hb2 & Hb3 & _).
      rewrite data_off_snoc by done. destruct (Hsl i t Hi) as (S1 & S2 & S3 & S4). by pread.
    + assert (i = length ts) as -> by lia.
      assert (Ho : data_off (ts ++ [MkSlot true tuple]) (length ts) = (BLOCK_SIZE - tuples_size ts - length tuple)%nat).
      { unfold data_off. rewrite take_ge by (rewrite length_app; cbn; lia).
        rewrite tuples_size_app. unfold tuples_size at 2. cbn. lia. }
      rewrite Ho. cbn [data live]. pread. rewrite !be_u16 by (unfold D; plia).
      split; [unfold D; lia|]. done.
Qed.

(** A slot altered in place: the layout of every slot stays. *)
Lemma tuples_size_alter (f : tuple_slot -> tuple_slot) (l : list tuple_slot) i :
  (forall t, l !! i = Some t -> length (data (f t)) = length (data t)) ->
  tuples_size (alter f i l) = tuples_size l.
Proof using Type.
  intros Hf. unfold tuples_size. f_equal. revert i Hf.
  induction l as [|t l IH]; intros [|i] Hf; cbn; [done..| |].
  - by rewrite Hf.
  - by rewrite IH.
Qed.

Lemma data_off_alter (f : tuple_slot -> tuple_slot) i j :
  (forall t, ts !! i = Some t -> length (data (f t)) = length (data t)) ->
  data_off (alter f i ts) j = data_off ts j.
Proof using Type.
  intros Hf. unfold data_off. f_equal. destruct (decide (i < S j)%nat).
  - rewrite take_alter_lt by done. apply tuples_size_alter.
    intros t. rewrite lookup_take_lt by done. apply Hf.
  - by rewrite take_alter_ge by lia.
Qed.

Lemma rep_alter (f : tuple_slot -> tuple_slot) buf' i :
  (forall t, ts !! i = Some t -> length (data (f t)) = length (data t)) ->
  length buf' = length buf -> slice 0 27 buf' = slice 0 27 buf ->
  (forall j t, ts !! j = Some t -> slot_rep buf' ts j (if decide (i = j) then f t else t)) ->
  tp_rep buf' (alter f i ts).
Proof using R.
  intros Hf Hl' H0 Hs. destruct R as [Hl Ht Hfi Hc Hst He Hsl].
  assert (S : forall o n, (o + n <= 27)%nat -> slice o n buf' = slice o n buf).
  { intros o n Ho. unfold slice in H0. rewrite !drop_0 in H0.
    by rewrite <- (slice_take o n 27 buf'), H0, slice_take. }
  assert (Ho : forall j, data_off (alter f i ts) j = data_off ts j) by (intros; by apply data_off_alter).
  split; rewrite ?length_alter, ?tuples_size_alter by exact Hf; try done.
  - plia.
  - apply tp_open_slice; [done|]. apply S. lia.
  - by rewrite S by plia.
  - by rewrite S by plia.
  - by rewrite S by plia.
  - intros j t. rewrite list_lookup_alter. case_decide; subst.
    + destruct (ts !! j) as [t'|] eqn:E; [|done]. intros [= <-].
      specialize (Hs j t' E). rewrite decide_True in Hs by done.
      unfold slot_rep in *. by rewrite Ho.
    + intros E. specialize (Hs j t E). rewrite decide_False in Hs by done.
      unfold slot_rep in *. by rewrite Ho.
Qed.

Lemma tp_delete_rep slot :
  is_u16 slot ->
  exists buf', tp_delete buf slot = Ok (bool_decide (slot < Z.of_nat (length ts)), buf')
    /\ tp_rep buf' (spec_delete ts slot).
Proof using R.
  intros Hs. unfold tp_delete. pose proof R as [Hl Ht Hf Hc Hst He Hsl]. pstep. rewrite Hc.
  destruct (Z.leb_spec (Z.of_nat (length ts)) slot) as [Hge|Hlt].
  { rewrite bool_decide_false by lia. exists buf. split; [done|]. unfold spec_delete.
    by rewrite alter_out by lia. }
  rewrite bool_decide_true by lia. assert (Z.to_nat slot < length ts)%nat by ulia.
  destruct (lookup_lt_is_Some_2 ts (Z.to_nat slot)) as [t E]; [done|].
  destruct (Hsl _ _ E) as (So & Sn & Sf & Sd). unfold slot_pos in Sf. pstep. rewrite Sf. pstep.
  eexists. split; [done|]. apply rep_alter; [done|done|by pread|].
  intros j t' Hj. destruct (data_off_bounds _ _ _ _ R Hj) as (_ & Hb2 & Hb3 & Hb4).
  destruct (Hsl _ _ Hj) as (S1 & S2 & S3 & S4). unfold slot_rep. case_decide; subst.
  - simplify_eq. cbn [data live]. unfold slot_pos at 3. pread. rewrite be_u16 by (by destruct (live t)). 
    split; [done|]. split; [done|]. split; [by destruct (live t)|done].
  - by pread.
Qed.

Lemma slot_write_rep slot d :
  is_u16 slot ->
  match spec_get ts slot with
  | None => slot_write buf slot d = Ok None
  | Some t => length d = length t ->
      exists buf', slot_write buf slot d = Ok (Some buf') /\ tp_rep buf' (spec_write ts slot d)
  end.
Proof using R.
  intros Hs. unfold spec_get, slot_write. rewrite slot_range_rep by done. bind_ok.
  destruct (ts !! Z.to_nat slot) as [t|] eqn:E; [|done]. destruct (live t) eqn:El; [|done]. intros Hd.
  destruct (data_off_bounds _ _ _ _ R E) as (Hb1 & Hb2 & Hb3 & Hb4).
  pose proof R as [Hl Ht Hf Hc Hst He Hsl]. pstep.
  rewrite (proj2 (Nat.eqb_eq _ _)) by done. pstep.
  eexists. split; [done|]. apply rep_alter; [by intros; simplify_eq|done|by pread|].
  intros j t' Hj. destruct (data_off_bounds _ _ _ _ R Hj) as (_ & Hc2 & Hc3 & Hc4).
  destruct (Hsl _ _ Hj) as (S1 & S2 & S3 & S4). unfold slot_rep. case_decide; subst.
  - simplify_eq. cbn [data live]. rewrite Hd.
    pose proof (w_eq _ _ _ _ W) as We. rewrite Hd in We. rewrite We. by pread.
  - destruct (data_off_disjoint ts _ _ _ _ ltac:(plia) E Hj ltac:(done)); by pread.
Qed.
End rep.

Lemma tp_init_rep buf :
  length buf = BLOCK_SIZE -> exists buf', tp_init buf = Ok buf' /\ tp_rep buf' [].
Proof.
  intros Hl. unfold tp_init.
  destruct (header_write_parse (PageHeader_new TUPLE_PAGE FORMAT_VERSION) buf) as (b0 & -> & Hp & Hl0 & _);
    [done | plia |]. rewrite bind_Ok.
  do 2 pstep. change (wrap16 (Z.of_nat PAGE_SIZE)) with (wrap16 8192). unfold buf_put_u16.
  destruct (buf_put_wrote (E := Error) OFF_FREE_END (be_bytes 2 (wrap16 8192)) b1) as (b2 & -> & W1); [pside|].
  pose proof (w_len _ _ _ _ W1). eexists. split; [done|]. split; try done.
  - lia.
  - unfold tp_open, expect_type. rewrite (header_parse_slice b2 b0), Hp; [done | lia | by pread].
  - cbn. plia.
  - by pread.
  - by pread.
  - by pread.
Qed.

(** ** Runs of operations *)

Inductive tp_op : Type :=
| OpInsert (tuple : list byte)
| OpDelete (slot : Z)
| OpWrite (slot : Z) (d : list byte).

Inductive tp_out : Type :=
| Inserted (slot : option Z)
| Deleted (found : bool)
| Written (found : bool).

Definition tp_do (op : tp_op) (buf : list byte) : res Error (tp_out * list byte) :=
  match op with
  | OpInsert t => '(s, buf') ← tp_insert buf t; Ok (Inserted s, buf')
  | OpDelete s => '(b, buf') ← tp_delete buf s; Ok (Deleted b, buf')
  | OpWrite s d => o ← slot_write buf s d;
      Ok (match o with Some buf' => (Written true, buf') | None => (Written false, buf) end)
  end.

Fixpoint tp_run (ops : list tp_op) (buf : list byte) : res Error (list tp_out * list byte) :=
  match ops with
  | [] => Ok ([], buf)
  | op :: ops' => '(o, buf1) ← tp_do op buf; '(os, buf2) ← tp_run ops' buf1; Ok (o :: os, buf2)
  end.

(** The same on the list of tuples; a write in place of another length than
    the tuple has is a misuse, [None]. *)
Definition spec_do (op : tp_op) (ts : list tuple_slot) : option (tp_out * list tuple_slot) :=
  match op with
  | OpInsert t =>
      Some (if spec_fits ts t then (Inserted (Some (Z.of_nat (length ts))), ts ++ [MkSlot true t])
            else (Inserted None, ts))
  | OpDelete s =>
      if bool_decide (is_u16 s) then
        Some (Deleted (bool_decide (s < Z.of_nat (length ts))), spec_delete ts s)
      else None
  | OpWrite s d =>
      if bool_decide (is_u16 s) then
        match spec_get ts s with
        | None => Some (Written false, ts)
        | Some t => if (length d =? length t)%nat then Some (Written true, spec_write ts s d) else None
        end
      else None
  end.

Fixpoint spec_run (ops : list tp_op) (ts : list tuple_slot) : option (list tp_out * list tuple_slot) :=
  match ops with
  | [] => Some ([], ts)
  | op :: ops' =>
      '(o, ts1) ← spec_do op ts; '(os, ts2) ← spec_run ops' ts1; Some (o :: os, ts2)
  end.

(** The live tuples in slot order. *)
Definition spec_iter (ts : list tuple_slot) : list (Z * list byte) :=
  omap (M := list) (fun s => option_map (pair s) (spec_get ts s)) (seqZ 0 (Z.of_nat (length ts))).

Lemma tp_do_rep op buf ts o ts' :
  tp_rep buf ts -> spec_do op ts = Some (o, ts') ->
  exists buf', tp_do op buf = Ok (o, buf') /\ tp_rep buf' ts'.
Proof.
  intros R. destruct op as [t|s|s d]; cbn [spec_do tp_do].
  - destruct (spec_fits ts t) eqn:E; intros [= <- <-].
    + destruct (tp_insert_some _ _ R _ E) as (b & -> & R'). by exists b.
    + rewrite (tp_insert_none _ _ R _ E). by exists buf.
  - case_bool_decide as Hs; [|done]. intros [= <- <-].
    destruct (tp_delete_rep _ _ R s Hs) as (b & -> & R'). by exists b.
  - case_bool_decide as Hs; [|done]. pose proof (slot_write_rep _ _ R s d Hs) as Hw.
    destruct (spec_get ts s) as [t|].
    + destruct (Nat.eqb_spec (length d) (length t)) as [Hd|]; [|done]. intros [= <- <-].
      destruct (Hw Hd) as (b & -> & R'). by exists b.
    + intros [= <- <-]. rewrite Hw. by exists buf.
Qed.

Lemma tp_run_rep ops buf ts os ts' :
  tp_rep buf ts -> spec_run ops ts = Some (os, ts') ->
  exists buf', tp_run ops buf = Ok (os, buf') /\ tp_rep buf' ts'.
Proof.
  revert buf ts os. induction ops as [|op ops IH]; intros buf ts os R; cbn.
  - intros [= <- <-]. by exists buf.
  - destruct (spec_do op ts) as [[o ts1]|] eqn:E; cbn; [|done].
    destruct (spec_run ops ts1) as [[os1 ts2]|] eqn:E2; cbn; [|done]. intros [= <- <-].
    destruct (tp_do_rep _ _ _ _ _ R E) as (b1 & -> & R1). bind_ok.
    destruct (IH _ _ _ R1 E2) as (b2 & -> & R2). by exists b2.
Qed.

Lemma tp_iter_rep buf ts : tp_rep buf ts -> tp_iter buf = Ok (spec_iter ts).
Proof.
  intros R. pose proof R as [Hl _ Hf Hc _ _ _]. unfold tp_iter, slot_count, spec_iter. pstep. rewrite Hc.
  rewrite (collect_res_map _ (fun s => option_map (pair s) (spec_get ts s))).
  - bind_ok. f_equal. induction (seqZ _ _) as [|x l IH]; [done|]. cbn. by rewrite IH.
  - intros s Hs%elem_of_seqZ. unfold tp_entry.
    pose proof (tp_get_rep _ _ R s ltac:(plia)) as Hg. unfold tp_get in Hg. by rewrite Hg.
Qed.

(** C22: a tuple page behaves as the list of its tuples.  From a freshly
    initialised page, any sequence of inserts, deletes and same-length writes
    in place runs without panicking and answers as the list does: an insert is
    refused exactly when the tuple and its slot do not fit and otherwise
    returns the next slot number, a delete reports whether the slot exists,
    and afterwards every lookup and the iterator return the bytes last stored
    in each live slot. *)
Theorem tuple_page_refines ops buf0 os ts :
  length buf0 = PAGE_SIZE -> spec_run ops [] = Some (os, ts) ->
  exists buf, (b ← tp_init buf0; tp_run ops b) = Ok (os, buf)
    /\ (forall slot, is_u16 slot -> tp_get buf slot = Ok (spec_get ts slot))
    /\ tp_iter buf = Ok (spec_iter ts).
Proof.
  intros Hl Hs. destruct (tp_init_rep buf0 Hl) as (b0 & -> & R0). rewrite bind_Ok.
  destruct (tp_run_rep _ _ _ _ _ R0 Hs) as (b & -> & R). exists b. split; [done|].
  split; [|by apply tp_iter_rep]. intros slot Hslot. by apply tp_get_rep.
Qed.

Definition page_ops : list tp_op :=
  [OpInsert [x61; x6c]; OpInsert (replicate (BLOCK_SIZE - 40) x62); OpInsert [x63]; OpDelete 0; OpWrite 2 [x64]].

Lemma tuple_page_refines_witness :
  exists buf, (b ← tp_init zeroed; tp_run page_ops b)
      = Ok ([Inserted (Some 0); Inserted None; Inserted (Some 1); Deleted true; Written false], buf)
    /\ (forall slot, is_u16 slot -> tp_get buf slot = Ok (spec_get [MkSlot false [x61; x6c]; MkSlot true [x63]] slot))
    /\ tp_iter buf = Ok (spec_iter [MkSlot false [x61; x6c]; MkSlot true [x63]]).
Proof. apply (tuple_page_refines page_ops zeroed); [apply length_zeroed | vm_compute; reflexivity]. Defined.
