(* ===== verification/BlockStore.v ===== *)
(** * Block stores ([crates/filesystem/src/block/mod.rs], [mem.rs], [disk.rs])

    The [BlockStore] trait as a class, with the laws its clients rely on in
    [BlockStoreOk], and its two implementations: [MemBlockStore], a vector of
    blocks, and [DiskBlockStore], one file with a superblock in block 0.  The
    file's contents are explicit ([file.rs] only forwards to the operating
    system); growing it past [d_limit] bytes fails with [ENOSPC], reading past
    its end with an unexpected end of file.  Additions and multiplications of
    [u64] are checked: an overflow is a panic. *)

From Stdlib Require Import Strings.Byte ZArith Lia.
From stdpp Require Import prelude list strings.
From S2P Require Import Prelude Codec Journal Page.
Local Open Scope Z_scope.

Class BlockStore (V : Type) : Type := {
  bs_allocate : V -> V * res Error Z;
  bs_free : Z -> V -> V;
  bs_ensure_allocated : Z -> V -> V * res Error unit;
  bs_read : V -> Z -> res Error Block;
  bs_write : Z -> Block -> V -> V * res Error unit;
  bs_sync : V -> V * res Error unit;
  bs_block_count : V -> Z;
}.

(** [v'] keeps every block of [v] that could be read, and every id in use. *)
Definition bs_extends {V} `{!BlockStore V} (used : V -> Z -> Prop) (v v' : V) : Prop :=
  (forall id b, bs_read v id = Ok b -> bs_read v' id = Ok b)
  /\ (forall id, used v id -> used v' id).

(** What the page cache relies on.  [bs_used v id]: [id] was handed out, is
    backed by storage, and is not free. *)
Class BlockStoreOk (V : Type) `{!BlockStore V} : Type := {
  bs_wf : V -> Prop;
  bs_used : V -> Z -> Prop;
  bs_used_u64 v id : bs_wf v -> bs_used v id -> is_u64 id;
  bs_used_pos v id : bs_wf v -> bs_used v id -> 1 <= id;
  bs_read_used v id : bs_wf v -> bs_used v id ->
    exists b, bs_read v id = Ok b /\ length b = BLOCK_SIZE;
  bs_read_length v id b : bs_wf v -> bs_read v id = Ok b -> length b = BLOCK_SIZE;
  bs_allocate_ok v v' r : bs_wf v -> bs_allocate v = (v', r) ->
    match r with
    | Ok id => bs_wf v' /\ bs_extends bs_used v v' /\ bs_used v' id /\ ~ bs_used v id
    | Err _ => bs_wf v' /\ bs_extends bs_used v v'
    | Panic => True
    end;
  bs_write_ok v id b : bs_wf v -> bs_used v id -> length b = BLOCK_SIZE ->
    exists v', bs_write id b v = (v', Ok tt) /\ bs_wf v' /\ (forall i, bs_used v' i <-> bs_used v i)
      /\ bs_read v' id = Ok b /\ (forall i, i <> id -> bs_read v' i = bs_read v i);
  bs_sync_ok v : bs_wf v ->
    exists v', bs_sync v = (v', Ok tt) /\ bs_wf v' /\ (forall i, bs_used v' i <-> bs_used v i)
      /\ (forall i, bs_used v i -> bs_read v' i = bs_read v i);
}.

(** ** In memory *)

Record MemBlockStore : Type := MkMem { blocks : list Block; m_next_id : Z; m_free_list : list Z }.

Definition MemBlockStore_new : MemBlockStore := MkMem [zeroed] 1 [].

(** [Vec::pop]. *)
Definition vec_pop {A} (l : list A) : option (A * list A) :=
  match reverse l with [] => None | x :: r => Some (x, reverse r) end.

Definition mem_allocate (v : MemBlockStore) : MemBlockStore * res Error Z :=
  match vec_pop (m_free_list v) with
  | Some (id, fl) => (MkMem (blocks v) (m_next_id v) fl, Ok id)
  | None =>
      if u64_max <? m_next_id v + 1 then (v, Panic)
      else (MkMem (blocks v ++ [zeroed]) (m_next_id v + 1) (m_free_list v), Ok (m_next_id v))
  end.

Definition mem_free (id : Z) (v : MemBlockStore) : MemBlockStore :=
  MkMem (blocks v) (m_next_id v) (m_free_list v ++ [id]).

Definition mem_ensure_allocated (id : Z) (v : MemBlockStore) : MemBlockStore * res Error unit :=
  let missing := (Z.to_nat (id + 1) - length (blocks v))%nat in
  if u64_max <? id + 1 then (v, Panic)
  else (MkMem (blocks v ++ replicate missing zeroed) (Z.max (m_next_id v) (id + 1)) (m_free_list v), Ok tt).

Definition mem_read (v : MemBlockStore) (id : Z) : res Error Block :=
  match blocks v !! Z.to_nat id with Some b => Ok b | None => Err (EChecksum id) end.

Definition mem_write (id : Z) (b : Block) (v : MemBlockStore) : MemBlockStore * res Error unit :=
  match blocks v !! Z.to_nat id with
  | Some _ => (MkMem (<[Z.to_nat id := b]> (blocks v)) (m_next_id v) (m_free_list v), Ok tt)
  | None => (v, Err (EChecksum id))
  end.

#[global] Instance MemBlockStore_store : BlockStore MemBlockStore := {|
  bs_allocate := mem_allocate;
  bs_free := mem_free;
  bs_ensure_allocated := mem_ensure_allocated;
  bs_read := mem_read;
  bs_write := mem_write;
  bs_sync v := (v, Ok tt);
  bs_block_count := m_next_id |}.

Lemma vec_pop_some {A} (l : list A) x r : vec_pop l = Some (x, r) <-> l = r ++ [x].
Proof.
  unfold vec_pop. split.
  - destruct (reverse l) as [|y k] eqn:E; [done|]. intros [= <- <-].
    by rewrite <- (reverse_involutive l), E, reverse_cons.
  - intros ->. by rewrite reverse_snoc, reverse_involutive.
Qed.

Lemma vec_pop_none {A} (l : list A) : vec_pop l = None <-> l = [].
Proof.
  unfold vec_pop. split; [|by intros ->]. destruct (reverse l) eqn:E; [|done]. intros _.
  by rewrite <- (reverse_involutive l), E.
Qed.

Record mem_ok (v : MemBlockStore) : Prop := {
  mo_next : m_next_id v = Z.of_nat (length (blocks v));
  mo_reserved : 1 <= m_next_id v <= u64_max;
  mo_blocks : Forall (fun b => length b = BLOCK_SIZE) (blocks v);
  mo_free : Forall (fun id => 1 <= id < m_next_id v) (m_free_list v);
  mo_nodup : NoDup (m_free_list v);
}.

Definition mem_used (v : MemBlockStore) (id : Z) : Prop := 1 <= id < m_next_id v /\ id ∉ m_free_list v.

Lemma mem_allocate_ok v v' r :
  mem_ok v -> mem_allocate v = (v', r) ->
  match r with
  | Ok id => mem_ok v' /\ bs_extends mem_used v v' /\ mem_used v' id /\ ~ mem_used v id
  | Err _ => mem_ok v' /\ bs_extends mem_used v v'
  | Panic => True
  end.
Proof.
  intros [Hn Hr Hb Hf Hd]. unfold mem_allocate.
  destruct (vec_pop (m_free_list v)) as [[id fl]|] eqn:E.
  - apply vec_pop_some in E. rewrite E in Hf, Hd. apply Forall_app in Hf as [Hf Hid]. rewrite Forall_singleton in Hid.
    apply NoDup_app in Hd as (Hd & Hdis & _).
    assert (Hx : id ∉ fl) by (intros Hx; apply (Hdis _ Hx); by left).
    intros [= <- <-]. split; [by split|]. split; [|split].
    + split; [done|]. intros i [? Hi]. split; [done|]. cbn. rewrite E, elem_of_app in Hi. by intros ?; apply Hi; left.
    + split; [exact Hid | exact Hx].
    + intros [_ Hu]. apply Hu. rewrite E. apply elem_of_app. right. by left.
  - apply vec_pop_none in E. destruct (Z.ltb_spec u64_max (m_next_id v + 1)); [by intros [= <- <-]|].
    intros [= <- <-]. rewrite E in *.
    split; [split; cbn; try done|split; [|split]].
    + rewrite length_app. cbn. lia.
    + lia.
    + apply Forall_app. split; [done|]. apply Forall_singleton, length_zeroed.
    + split; cbn.
      * unfold mem_read. cbn. intros i b. destruct (blocks v !! Z.to_nat i) eqn:Ei; [|done].
        by rewrite (lookup_app_l_Some _ _ _ _ Ei).
      * intros i [? _]. split; cbn; [lia|apply not_elem_of_nil].
    + split; cbn; [lia|apply not_elem_of_nil].
    + unfold mem_used. rewrite E. intros [? _]. lia.
Qed.

#[global] Instance MemBlockStore_ok : BlockStoreOk MemBlockStore.
Proof.
  refine {| bs_wf := mem_ok; bs_used := mem_used; bs_allocate_ok := mem_allocate_ok |}; cbn.
  - intros v id W [Hu _]. pose proof (mo_reserved _ W). ulia.
  - intros v id W [Hu _]. lia.
  - intros v id W [Hu _]. unfold mem_read. destruct W as [Hn Hr Hb _ _].
    destruct (lookup_lt_is_Some_2 (blocks v) (Z.to_nat id)) as [b E]; [lia|]. rewrite E.
    exists b. split; [done|]. by eapply (Forall_lookup_1 _ _ _ _ Hb).
  - intros v id b W. unfold mem_read. case_match; [|done]. intros [= <-].
    by eapply (Forall_lookup_1 _ _ _ _ (mo_blocks _ W)).
  - intros v id b [Hn Hr Hb Hf Hd] [Hu Hnf] Hl. unfold mem_write, mem_read.
    destruct (lookup_lt_is_Some_2 (blocks v) (Z.to_nat id)) as [b0 E]; [lia|]. rewrite E.
    eexists. split; [done|]. split; [|split; [done|split]]; cbn.
    + split; cbn; try done. { by rewrite length_insert. } by apply Forall_insert.
    + by rewrite list_lookup_insert_eq by (by eapply lookup_lt_Some).
    + intros i Hi. by rewrite list_lookup_insert_ne by lia.
  - intros v W. by exists v.
Defined.

(** ** On disk *)

Definition SUPER_MAGIC : list byte := [x53; x56; x46; x53]. (* "SVFS" *)
Definition GROWTH_CHUNK_BLOCKS : Z := 16.

Record DiskBlockStore : Type := MkDisk {
  d_file : list byte;
  d_next_id : Z;
  capacity_blocks : Z;
  d_free_list : list Z;
  d_limit : Z;
}.

(** [File::set_len]. *)
Definition resize (n : nat) (l : list byte) : list byte := take n (l ++ replicate (n - length l) x00).

(** [File::read_exact_at] of one block. *)
Definition read_block_at (file : list byte) (off : Z) : res io_error Block :=
  if Z.of_nat (length file) <? off + Z.of_nat BLOCK_SIZE then Err IoUnexpectedEof
  else Ok (slice (Z.to_nat off) BLOCK_SIZE file).

Definition grow_error (e : io_error) : Error :=
  match e with
  | IoOs n => if n =? ENOSPC then EExhausted (Prefixed "cannot grow backing file: " (OfIo e)) else EIo e
  | _ => EIo e
  end.

(** [u64] addition and multiplication, panicking on overflow. *)
Definition add64 {E} (a b : Z) : res E Z := if a + b <=? u64_max then Ok (a + b) else Panic.
Definition mul64 {E} (a b : Z) : res E Z := if a * b <=? u64_max then Ok (a * b) else Panic.

Definition next_multiple_of (a n : Z) : Z := (a + n - 1) / n * n.

Definition disk_offset (id : Z) : res Error Z := mul64 id (Z.of_nat BLOCK_SIZE).

Definition set_capacity (blocks : Z) (d : DiskBlockStore) : DiskBlockStore * res Error unit :=
  match mul64 blocks (Z.of_nat BLOCK_SIZE) with
  | Ok len =>
      if d_limit d <? len then (d, Err (grow_error (IoOs ENOSPC)))
      else (MkDisk (resize (Z.to_nat len) (d_file d)) (d_next_id d) blocks (d_free_list d) (d_limit d), Ok tt)
  | Err e => (d, Err e)
  | Panic => (d, Panic)
  end.

Definition ensure_capacity (blocks : Z) (d : DiskBlockStore) : DiskBlockStore * res Error unit :=
  if capacity_blocks d <? blocks then set_capacity (next_multiple_of blocks GROWTH_CHUNK_BLOCKS) d
  else (d, Ok tt).

Definition max_free : Z := (Z.of_nat BLOCK_SIZE - 20) / 8.

(** [for &id in &self.free_list { block[off..off + 8].copy_from_slice(..); off += 8 }]. *)
Fixpoint put_ids (ids : list Z) (off : nat) (block : Block) : res Error Block :=
  match ids with
  | [] => Ok block
  | id :: ids' => b ← buf_put off (be_bytes 8 id) block; put_ids ids' (off + 8) b
  end.

(** The block [write_superblock] builds. *)
Definition superblock (next_id : Z) (free_list : list Z) : res Error Block :=
  b ← buf_put 0 SUPER_MAGIC zeroed;
  b ← buf_put 4 (be_bytes 8 next_id) b;
  b ← buf_put 12 (be_bytes 8 (Z.of_nat (length free_list))) b;
  put_ids free_list 20 b.

Definition write_superblock (d : DiskBlockStore) : DiskBlockStore * res Error unit :=
  if max_free <? Z.of_nat (length (d_free_list d)) then
    (d, Err (EFreeListOverflow (Z.of_nat (length (d_free_list d))) max_free))
  else
    match superblock (d_next_id d) (d_free_list d) with
    | Ok b => (MkDisk (write_at 0 b (d_file d)) (d_next_id d) (capacity_blocks d) (d_free_list d) (d_limit d), Ok tt)
    | Err e => (d, Err e)
    | Panic => (d, Panic)
    end.

Fixpoint get_ids (count : nat) (off : nat) (block : Block) : res Error (list Z) :=
  match count with
  | O => Ok []
  | S n => b ← buf_get off 8 block; ids ← get_ids n (off + 8) block; Ok (be_value b :: ids)
  end.

(** A count that no superblock can hold panics in the loop at the latest
    ([Vec::with_capacity] may refuse it before). *)
Definition read_superblock (d : DiskBlockStore) : res Error (Z * list Z) :=
  block ← map_err EIo (read_block_at (d_file d) 0);
  if negb (bool_decide (slice 0 4 block = SUPER_MAGIC)) then Err EBadMagic
  else
    let next_id := be_value (slice 4 8 block) in
    let free_count := be_value (slice 12 8 block) in
    if max_free <? free_count then Panic
    else ids ← get_ids (Z.to_nat free_count) 20 block; Ok (next_id, ids).

(** [DiskBlockStore::open] over the file's bytes, empty when it was created.  The high-water
    mark is asserted ([debug_assert!]). *)
Definition disk_open (limit : Z) (bytes : list byte) : DiskBlockStore * res Error unit :=
  let len := Z.of_nat (length bytes) in
  if len =? 0 then
    match set_capacity 1 (MkDisk bytes 1 0 [] limit) with
    | (d, Ok _) => write_superblock d
    | (d, r) => (d, r)
    end
  else
    let d := MkDisk bytes 0 (len / Z.of_nat BLOCK_SIZE) [] limit in
    match read_superblock d with
    | Ok (next_id, free_list) => (MkDisk bytes next_id (capacity_blocks d) free_list limit, if 1 <=? next_id then Ok tt else Panic)
    | Err e => (d, Err e)
    | Panic => (d, Panic)
    end.

Definition with_next_id (n : Z) (d : DiskBlockStore) : DiskBlockStore :=
  MkDisk (d_file d) n (capacity_blocks d) (d_free_list d) (d_limit d).

Definition disk_allocate (d : DiskBlockStore) : DiskBlockStore * res Error Z :=
  match vec_pop (d_free_list d) with
  | Some (id, fl) => (MkDisk (d_file d) (d_next_id d) (capacity_blocks d) fl (d_limit d), Ok id)
  | None =>
      match add64 (d_next_id d) 1 with
      | Ok n =>
          match ensure_capacity n (with_next_id n d) with
          | (d', Ok _) => (d', Ok (d_next_id d))
          | (d', Err e) => (d', Err e)
          | (d', Panic) => (d', Panic)
          end
      | Err e => (d, Err e)
      | Panic => (d, Panic)
      end
  end.

Definition disk_free (id : Z) (d : DiskBlockStore) : DiskBlockStore :=
  MkDisk (d_file d) (d_next_id d) (capacity_blocks d) (d_free_list d ++ [id]) (d_limit d).

Definition disk_ensure_allocated (id : Z) (d : DiskBlockStore) : DiskBlockStore * res Error unit :=
  if d_next_id d <=? id then
    match add64 id 1 with
    | Ok n => ensure_capacity n (with_next_id n d)
    | Err e => (d, Err e)
    | Panic => (d, Panic)
    end
  else (d, Ok tt).

Definition disk_read (d : DiskBlockStore) (id : Z) : res Error Block :=
  off ← disk_offset id; map_err EIo (read_block_at (d_file d) off).

Definition disk_write (id : Z) (b : Block) (d : DiskBlockStore) : DiskBlockStore * res Error unit :=
  match disk_offset id with
  | Ok off =>
      (MkDisk (write_at (Z.to_nat off) b (d_file d)) (d_next_id d) (capacity_blocks d) (d_free_list d) (d_limit d), Ok tt)
  | Err e => (d, Err e)
  | Panic => (d, Panic)
  end.

(** The superblock, then [sync_all]. *)
Definition disk_sync (d : DiskBlockStore) : DiskBlockStore * res Error unit := write_superblock d.

#[global] Instance DiskBlockStore_store : BlockStore DiskBlockStore := {|
  bs_allocate := disk_allocate;
  bs_free := disk_free;
  bs_ensure_allocated := disk_ensure_allocated;
  bs_read := disk_read;
  bs_write := disk_write;
  bs_sync := disk_sync;
  bs_block_count := d_next_id |}.

(** ** The disk store's invariant *)

Record disk_ok (d : DiskBlockStore) : Prop := {
  do_len : Z.of_nat (length (d_file d)) = capacity_blocks d * 8192;
  do_max : capacity_blocks d * 8192 <= u64_max;
  do_cap : 1 <= capacity_blocks d;
  do_next : 1 <= d_next_id d <= u64_max;
  do_free : Forall (fun id => 1 <= id < d_next_id d /\ id < capacity_blocks d) (d_free_list d);
  do_nodup : NoDup (d_free_list d);
  do_room : Z.of_nat (length (d_free_list d)) <= max_free;
}.

Definition disk_used (d : DiskBlockStore) (id : Z) : Prop :=
  1 <= id < d_next_id d /\ id < capacity_blocks d /\ id ∉ d_free_list d.

Definition block_of (file : list byte) (id : Z) : Block := slice (Z.to_nat (id * 8192)) BLOCK_SIZE file.

Lemma max_free_eq : max_free = 1021.
Proof. reflexivity. Qed.

Lemma mul64_ok {E} a b : a * b <= u64_max -> mul64 (E := E) a b = Ok (a * b).
Proof. intros. unfold mul64. by rewrite (proj2 (Z.leb_le _ _)). Qed.

(** Reading a block: in range exactly below the capacity. *)
Lemma disk_read_at d id :
  disk_ok d -> id < capacity_blocks d -> disk_read d id = Ok (block_of (d_file d) id).
Proof.
  intros W Hid. unfold disk_read, disk_offset. rewrite BLOCK_SIZE_Z.
  pose proof (do_len _ W). pose proof (do_max _ W). rewrite mul64_ok by lia. bind_ok.
  unfold read_block_at. rewrite BLOCK_SIZE_Z, (proj2 (Z.ltb_ge _ _)) by lia. done.
Qed.

Lemma disk_read_past d id : disk_ok d -> capacity_blocks d <= id -> forall b, disk_read d id <> Ok b.
Proof.
  intros W Hid b. unfold disk_read, disk_offset, mul64. rewrite BLOCK_SIZE_Z.
  pose proof (do_len _ W). destruct (id * 8192 <=? u64_max); [|done]. bind_ok.
  unfold read_block_at. rewrite BLOCK_SIZE_Z, (proj2 (Z.ltb_lt _ _)) by lia. done.
Qed.

Lemma length_block_of d id : disk_ok d -> id < capacity_blocks d -> length (block_of (d_file d) id) = BLOCK_SIZE.
Proof.
  intros W Hid. pose proof (do_len _ W). pose proof (do_cap _ W). pose proof BLOCK_SIZE_Z.
  apply length_slice. lia.
Qed.

Lemma resize_grow n l : (length l <= n)%nat -> resize n l = l ++ replicate (n - length l) x00.
Proof. intros. unfold resize. apply take_ge. rewrite length_app, length_replicate. lia. Qed.

(** [ensure_capacity] either leaves the store as it is, or grows the file by
    zeros to a whole number of chunks. *)
Lemma ensure_capacity_spec n d d' r :
  disk_ok (with_next_id n d) -> ensure_capacity n d = (d', r) ->
  match r with
  | Ok _ => n <= capacity_blocks d' /\ capacity_blocks d <= capacity_blocks d'
            /\ d' = MkDisk (d_file d ++ replicate (Z.to_nat ((capacity_blocks d' - capacity_blocks d) * 8192)) x00)
                       (d_next_id d) (capacity_blocks d') (d_free_list d) (d_limit d)
            /\ capacity_blocks d' * 8192 <= u64_max
  | Err _ => d' = d
  | Panic => True
  end.
Proof.
  intros W. pose proof (do_len _ W) as Hl. pose proof (do_cap _ W) as Hc. pose proof (do_max _ W) as Hm.
  cbn in Hl, Hc, Hm. unfold ensure_capacity.
  destruct (Z.ltb_spec (capacity_blocks d) n) as [Hlt|Hge].
  - unfold set_capacity, mul64. rewrite BLOCK_SIZE_Z. set (m := next_multiple_of n _).
    assert (Hn : n <= m).
    { unfold m, next_multiple_of, GROWTH_CHUNK_BLOCKS. pose proof (Z.div_mod (n + 16 - 1) 16).
      pose proof (Z.mod_pos_bound (n + 16 - 1) 16). lia. }
    destruct (Z.leb_spec (m * 8192) u64_max); [|by intros [= <- <-]].
    destruct (d_limit d <? m * 8192); intros [= <- <-]; [done|]. cbn. split; [done|]. split; [lia|]. split; [|done].
    rewrite resize_grow by lia. do 3 f_equal. lia.
  - intros [= <- <-]. split; [done|]. split; [lia|]. split; [|done].
    rewrite Z.sub_diag. cbn. rewrite app_nil_r. by destruct d.
Qed.

(** A store whose file is another's, grown by zeros. *)
Lemma grown_reads d d' k :
  disk_ok d -> disk_ok d' -> d_file d' = d_file d ++ k -> capacity_blocks d <= capacity_blocks d' ->
  forall id b, disk_read d id = Ok b -> disk_read d' id = Ok b.
Proof.
  intros W W' Hf Hc id b Hr. destruct (decide (id < capacity_blocks d)) as [Hid|Hid].
  - rewrite (disk_read_at d id W Hid) in Hr. rewrite (disk_read_at d' id W' ltac:(lia)), Hf.
    rewrite <- Hr. apply (f_equal Ok). unfold block_of. apply slice_app_l. pose proof (do_len _ W). pose proof (do_cap _ W). pose proof BLOCK_SIZE_Z. lia.
  - exfalso. by apply (disk_read_past d id W ltac:(lia) b).
Qed.

Lemma grown_ok d m k n :
  disk_ok (with_next_id n d) -> d_next_id d <= n -> 
  Z.of_nat (length k) = (m - capacity_blocks d) * 8192 -> m * 8192 <= u64_max ->
  capacity_blocks d <= m ->
  disk_ok (MkDisk (d_file d ++ k) n m (d_free_list d) (d_limit d)).
Proof.
  intros [Hl Hm Hc Hn Hf Hd Hr] Hnn Hk Hmm Hcm. cbn in *. split; cbn; try done; try lia.
  - rewrite length_app. lia.
  - eapply Forall_impl; [exact Hf|]. cbn. lia.
Qed.

(** ** The superblock *)

Definition ids_bytes (ids : list Z) : list byte := flat_map (be_bytes 8) ids.

Lemma length_ids_bytes ids : length (ids_bytes ids) = (8 * length ids)%nat.
Proof. induction ids as [|i ids IH]; [done|]. unfold ids_bytes in *. cbn [flat_map]. len. Qed.

Lemma put_ids_ok ids off b :
  (off + 8 * length ids <= length b)%nat -> put_ids ids off b = Ok (splice off (ids_bytes ids) b).
Proof.
  revert off b. induction ids as [|i ids IH]; intros off b H; cbn [put_ids length] in *.
  - unfold splice. cbn. by rewrite Nat.add_0_r, take_drop.
  - rewrite buf_put_ok by len. rewrite bind_Ok, IH by (rewrite length_splice; len).
    rewrite splice_splice by (rewrite ?length_ids_bytes; len). done.
Qed.

Definition super_fields (next_id : Z) (fl : list Z) : list byte :=
  SUPER_MAGIC ++ be_bytes 8 next_id ++ be_bytes 8 (Z.of_nat (length fl)) ++ ids_bytes fl.

Lemma length_super_fields n fl : length (super_fields n fl) = (20 + 8 * length fl)%nat.
Proof. unfold super_fields. rewrite !length_app, length_ids_bytes, !length_be_bytes. done. Qed.

Lemma superblock_ok n fl :
  Z.of_nat (length fl) <= max_free -> superblock n fl = Ok (splice 0 (super_fields n fl) zeroed).
Proof.
  rewrite max_free_eq. intros H. pose proof BLOCK_SIZE_Z. pose proof length_zeroed.
  assert (HM : length SUPER_MAGIC = 4%nat) by done. unfold superblock.
  rewrite buf_put_ok by lia. bind_ok.
  rewrite buf_put_ok by (rewrite ?length_splice; len). bind_ok. rewrite splice_splice by len.
  rewrite buf_put_ok by (rewrite ?length_splice; len). bind_ok. rewrite splice_splice by len.
  rewrite put_ids_ok by (rewrite length_splice; len).
  rewrite splice_splice by (rewrite ?length_ids_bytes; len).
  unfold super_fields. by rewrite <- !app_assoc.
Qed.

Lemma get_ids_ok ids pre post off :
  Forall is_u64 ids -> off = length pre -> get_ids (length ids) off (pre ++ ids_bytes ids ++ post) = Ok ids.
Proof.
  intros H ->. revert pre. induction H as [|i ids Hi Hids IH]; intros pre; [done|].
  cbn [get_ids length]. unfold ids_bytes. cbn [flat_map]. rewrite <- app_assoc.
  rewrite buf_get_ok by len. rewrite slice_app_exact by len. bind_ok.
  specialize (IH (pre ++ be_bytes 8 i)). rewrite length_app, length_be_bytes, <- app_assoc in IH.
  unfold ids_bytes in IH. rewrite IH. bind_ok. by rewrite be_u64.
Qed.

(** Whatever follows the superblock, opening reads its two fields back. *)
Lemma read_superblock_ok n fl rest lim cap m :
  is_u64 n -> Forall is_u64 fl -> Z.of_nat (length fl) <= max_free ->
  read_superblock (MkDisk (splice 0 (super_fields n fl) zeroed ++ rest) m cap [] lim) = Ok (n, fl).
Proof.
  intros Hn Hf Hl. rewrite max_free_eq in Hl. pose proof BLOCK_SIZE_Z. pose proof length_zeroed.
  assert (HM : length SUPER_MAGIC = 4%nat) by done.
  pose proof (length_super_fields n fl). unfold read_superblock, read_block_at. cbn [d_file].
  rewrite length_app, length_splice by lia.
  rewrite (proj2 (Z.ltb_ge _ _)) by lia. cbn [map_err]. bind_ok.
  assert (EB : slice (Z.to_nat 0) BLOCK_SIZE (splice 0 (super_fields n fl) zeroed ++ rest)
               = splice 0 (super_fields n fl) zeroed).
  { unfold slice. change (Z.to_nat 0) with 0%nat. rewrite drop_0. apply take_app_exact. rewrite length_splice; lia. }
  rewrite EB. clear EB. unfold splice. rewrite take_0, app_nil_l, Nat.add_0_l. set (z := drop _ zeroed).
  unfold super_fields. rewrite <- !app_assoc.
  assert (E0 : forall r, slice 0 4 (SUPER_MAGIC ++ r) = SUPER_MAGIC) by done. rewrite E0.
  rewrite bool_decide_true by done. cbn [negb].
  set (tail := be_bytes 8 (Z.of_nat (length fl)) ++ ids_bytes fl ++ z).
  assert (E1 : slice 4 8 (SUPER_MAGIC ++ be_bytes 8 n ++ tail) = be_bytes 8 n)
    by (apply slice_app_exact; len).
  assert (E2 : slice 12 8 (SUPER_MAGIC ++ be_bytes 8 n ++ tail) = be_bytes 8 (Z.of_nat (length fl)))
    by (rewrite app_assoc; apply slice_app_exact; len).
  assert (E3 : get_ids (length fl) 20 (SUPER_MAGIC ++ be_bytes 8 n ++ tail) = Ok fl).
  { unfold tail. rewrite !app_assoc, <- (app_assoc _ (ids_bytes fl) z). apply get_ids_ok; [done|len]. }
  rewrite E1, E2, (be_u64 _ Hn), be_u64 by ulia. rewrite max_free_eq, (proj2 (Z.ltb_ge _ _)) by lia.
  by rewrite Nat2Z.id, E3.
Qed.

Lemma write_superblock_ok d :
  disk_ok d ->
  write_superblock d = (MkDisk (splice 0 (super_fields (d_next_id d) (d_free_list d)) zeroed ++ drop BLOCK_SIZE (d_file d))
                          (d_next_id d) (capacity_blocks d) (d_free_list d) (d_limit d), Ok tt).
Proof.
  intros W. pose proof (do_room _ W). unfold write_superblock.
  rewrite (proj2 (Z.ltb_ge _ _)), superblock_ok by done. do 2 f_equal.
  unfold write_at. rewrite take_0, app_nil_l, Nat.add_0_l. rewrite length_splice, length_zeroed; [done|].
  rewrite max_free_eq in *. pose proof BLOCK_SIZE_Z. rewrite length_zeroed, length_super_fields. lia.
Qed.

Lemma disk_used_ok d id : disk_ok d -> disk_used d id -> 1 <= id < capacity_blocks d.
Proof. intros _ (?&?&_). lia. Qed.

(** The file after a write of whole blocks in range. *)
Lemma disk_write_at d id b :
  disk_ok d -> 0 <= id < capacity_blocks d -> length b = BLOCK_SIZE ->
  disk_write id b d = (MkDisk (splice (Z.to_nat (id * 8192)) b (d_file d)) (d_next_id d) (capacity_blocks d)
                         (d_free_list d) (d_limit d), Ok tt).
Proof.
  intros W Hid Hb. pose proof (do_len _ W). pose proof (do_max _ W). pose proof BLOCK_SIZE_Z.
  unfold disk_write, disk_offset. rewrite BLOCK_SIZE_Z, mul64_ok by lia. do 2 f_equal.
  unfold write_at, splice. replace (Z.to_nat (id * 8192) - length (d_file d))%nat with 0%nat by lia.
  by rewrite app_nil_r.
Qed.

(** Replacing the file by one of the same length keeps the invariant. *)
Lemma disk_ok_file d f :
  disk_ok d -> length f = length (d_file d) ->
  disk_ok (MkDisk f (d_next_id d) (capacity_blocks d) (d_free_list d) (d_limit d)).
Proof. intros [] Hf. split; cbn; try done. by rewrite Hf. Qed.

Lemma block_of_splice file id i b :
  length b = BLOCK_SIZE -> 1 <= id -> (id + 1) * 8192 <= Z.of_nat (length file) ->
  block_of (splice (Z.to_nat (id * 8192)) b file) i = if decide (i = id) then b else block_of file i.
Proof.
  intros Hb Hid Hl. pose proof BLOCK_SIZE_Z. unfold block_of. case_decide; subst.
  - apply slice_splice_eq; lia.
  - apply slice_splice_ne; lia.
Qed.

Lemma block_of_super file s i :
  length s = BLOCK_SIZE -> (BLOCK_SIZE <= length file)%nat -> 1 <= i ->
  block_of (s ++ drop BLOCK_SIZE file) i = block_of file i.
Proof.
  intros Hs Hl Hi. pose proof BLOCK_SIZE_Z. unfold block_of, slice. apply (f_equal (take BLOCK_SIZE)).
  rewrite drop_app_ge by lia. rewrite drop_drop. apply (f_equal (fun n => drop n file)). lia.
Qed.

Lemma disk_sync_file d :
  disk_ok d -> let s := splice 0 (super_fields (d_next_id d) (d_free_list d)) zeroed in
  length s = BLOCK_SIZE /\ length (s ++ drop BLOCK_SIZE (d_file d)) = length (d_file d).
Proof.
  intros W s. pose proof (do_room _ W). pose proof (do_len _ W). pose proof (do_cap _ W).
  rewrite max_free_eq in *. pose proof BLOCK_SIZE_Z. unfold s.
  assert (length (splice 0 (super_fields (d_next_id d) (d_free_list d)) zeroed) = BLOCK_SIZE) as E.
  { rewrite length_splice, length_zeroed; [done|]. rewrite length_zeroed, length_super_fields. lia. }
  split; [done|]. rewrite length_app, E, length_drop. lia.
Qed.

Lemma disk_allocate_ok d d' r :
  disk_ok d -> disk_allocate d = (d', r) ->
  match r with
  | Ok id => disk_ok d' /\ bs_extends disk_used d d' /\ disk_used d' id /\ ~ disk_used d id
  | Err _ => disk_ok d' /\ bs_extends disk_used d d'
  | Panic => True
  end.
Proof.
  intros W. pose proof W as [Hl Hm Hc Hn Hf Hd Hr]. unfold disk_allocate.
  destruct (vec_pop (d_free_list d)) as [[id fl]|] eqn:E.
  - apply vec_pop_some in E. rewrite E in Hf, Hd, Hr.
    apply Forall_app in Hf as [Hf Hid]. rewrite Forall_singleton in Hid.
    apply NoDup_app in Hd as (Hd & Hdis & _). rewrite length_app in Hr.
    assert (Hx : id ∉ fl) by (intros Hx; apply (Hdis _ Hx); by left).
    intros [= <- <-]. split; [split; cbn; try done; lia|]. split; [|split].
    + split; [done|]. intros i (? & ? & Hi). split; [done|]. split; [done|].
      cbn. rewrite E, elem_of_app in Hi. by intros ?; apply Hi; left.
    + split; cbn; [lia|]. by split; [lia|].
    + intros (_ & _ & Hu). apply Hu. rewrite E. apply elem_of_app. right. by left.
  - apply vec_pop_none in E. unfold add64.
    destruct (Z.leb_spec (d_next_id d + 1) u64_max) as [Hu|]; [|by intros [= <- <-]].
    destruct (ensure_capacity _ _) as [d1 r1] eqn:Ec.
    assert (W1 : disk_ok (with_next_id (d_next_id d + 1) d)).
    { split; cbn; try done; try lia. by rewrite E. }
    apply ensure_capacity_spec in Ec; [|done].
    assert (Hused : forall c, capacity_blocks d <= c -> forall f i, disk_used d i ->
              disk_used (MkDisk f (d_next_id d + 1) c (d_free_list d) (d_limit d)) i).
    { intros c Hcc f i (? & ? & ?). split; cbn; [lia|]. split; [lia|done]. }
    destruct r1 as [[]|e|]; intros [= <- <-]; [| |done].
    + destruct Ec as (Hle & Hge & -> & Hmax). cbn in *.
      assert (W2 := grown_ok d (capacity_blocks d1) (replicate (Z.to_nat ((capacity_blocks d1 - capacity_blocks d) * 8192)) x00)
                      _ W1 ltac:(lia) ltac:(rewrite length_replicate; lia) Hmax Hge).
      split; [done|]. split; [|split].
      * split; [eapply grown_reads; [exact W | exact W2 | reflexivity | exact Hge]|]. by apply Hused.
      * split; cbn; [lia|]. split; [lia|]. rewrite E. apply not_elem_of_nil.
      * intros (? & _). lia.
    + rewrite Ec. split; [done|]. split; [done|]. intros i Hi. by apply Hused.
Qed.

Lemma disk_write_law d id b :
  disk_ok d -> disk_used d id -> length b = BLOCK_SIZE ->
  exists d', disk_write id b d = (d', Ok tt) /\ disk_ok d' /\ (forall i, disk_used d' i <-> disk_used d i)
    /\ disk_read d' id = Ok b /\ (forall i, i <> id -> disk_read d' i = disk_read d i).
Proof.
  intros W Hu Hb. pose proof (disk_used_ok _ _ W Hu) as Hid. pose proof (do_len _ W) as Hl.
  pose proof BLOCK_SIZE_Z. rewrite (disk_write_at d id b W ltac:(lia) Hb). eexists. split; [reflexivity|].
  assert (Hs : length (splice (Z.to_nat (id * 8192)) b (d_file d)) = length (d_file d))
    by (apply length_splice; lia).
  assert (W' := disk_ok_file d _ W Hs).
  split; [exact W'|]. split; [intros i; reflexivity|]. split.
  - rewrite (disk_read_at _ id W') by (cbn [capacity_blocks]; lia). cbn [d_file].
    rewrite block_of_splice by lia. by rewrite decide_True.
  - intros i Hi. unfold disk_read, disk_offset, mul64. rewrite BLOCK_SIZE_Z.
    destruct (i * 8192 <=? u64_max); [|reflexivity]. bind_ok. unfold read_block_at. cbn [d_file]. rewrite Hs.
    destruct (_ <? _); [reflexivity|]. apply (f_equal (map_err EIo ∘ Ok)). apply slice_splice_ne; lia.
Qed.

Lemma disk_sync_law d :
  disk_ok d ->
  exists d', disk_sync d = (d', Ok tt) /\ disk_ok d' /\ (forall i, disk_used d' i <-> disk_used d i)
    /\ (forall i, 1 <= i < capacity_blocks d -> disk_read d' i = disk_read d i).
Proof.
  intros W. unfold disk_sync. rewrite (write_superblock_ok d W).
  destruct (disk_sync_file d W) as [Hs Hl]. eexists. split; [reflexivity|].
  assert (W' := disk_ok_file d _ W Hl). split; [exact W'|]. split; [intros i; reflexivity|].
  intros i Hi. pose proof (do_len _ W). pose proof BLOCK_SIZE_Z.
  rewrite (disk_read_at d i W), (disk_read_at _ i W') by (cbn [capacity_blocks]; lia). cbn [d_file].
  rewrite block_of_super; [reflexivity | exact Hs | lia | lia].
Qed.

#[global] Instance DiskBlockStore_ok : BlockStoreOk DiskBlockStore.
Proof.
  refine {| bs_wf := disk_ok; bs_used := disk_used; bs_allocate_ok := disk_allocate_ok;
            bs_write_ok := disk_write_law |}; cbn [bs_read bs_sync DiskBlockStore_store].
  - intros d id W Hu. pose proof (do_next _ W). destruct Hu as (? & _). ulia.
  - intros d id W Hu. destruct Hu as (? & _). lia.
  - intros d id W Hu. pose proof (disk_used_ok _ _ W Hu) as Hid. rewrite (disk_read_at d id W ltac:(lia)).
    eexists. split; [reflexivity|]. apply (length_block_of d id W). lia.
  - intros d id b W Hr. destruct (decide (id < capacity_blocks d)) as [Hid|Hid].
    + rewrite (disk_read_at d id W Hid) in Hr. injection Hr as <-. by apply length_block_of.
    + exfalso. by apply (disk_read_past d id W ltac:(lia) b).
  - intros d W. destruct (disk_sync_law d W) as (d' & ? & ? & ? & Hr). exists d'.
    split; [done|]. split; [done|]. split; [done|]. intros i Hu. apply Hr. by apply disk_used_ok.
Defined.

(** Closing a disk store after a sync and opening its file again gives the
    same store: the high-water mark, the free list in its order, the capacity
    and every block, so no id in use is handed out a second time. *)
Theorem disk_reopen_restores d d' :
  disk_ok d -> disk_sync d = (d', Ok tt) ->
  disk_open (d_limit d) (d_file d') = (d', Ok tt)
  /\ d_next_id d' = d_next_id d /\ d_free_list d' = d_free_list d
  /\ forall id, 1 <= id < capacity_blocks d -> disk_read d' id = disk_read d id.
Proof.
  intros W Hsy. destruct (disk_sync_law d W) as (d1 & E & _ & _ & Hr). rewrite Hsy in E. injection E as <-.
  revert Hsy. unfold disk_sync. rewrite (write_superblock_ok d W). intros E%(f_equal fst). cbn [fst] in E. subst d'.
  destruct (disk_sync_file d W) as [_ Hl]. pose proof W as [Hlen Hm Hc Hn Hf _ Hro].
  split; [|split; [reflexivity|split; [reflexivity|exact Hr]]].
  unfold disk_open. cbn [d_file]. rewrite Hl, Hlen, BLOCK_SIZE_Z.
  rewrite (proj2 (Z.eqb_neq _ _)) by lia. rewrite Z.div_mul by lia. cbn [capacity_blocks].
  rewrite read_superblock_ok; [by rewrite (proj2 (Z.leb_le 1 _)) by lia | ulia | | done].
  eapply Forall_impl; [exact Hf|]. cbn. intros x [? ?]. ulia.
Qed.

(** A store of two pages, the first one freed. *)
Definition fresh_disk : DiskBlockStore := (disk_open (2 ^ 40) []).1.
Definition two_pages : DiskBlockStore := disk_free 1 (disk_allocate (disk_allocate fresh_disk).1).1.

Lemma two_pages_ok : disk_ok two_pages.
Proof.
  split; try by vm_compute.
  - repeat constructor; by vm_compute.
  - vm_compute. repeat constructor. apply not_elem_of_nil.
Qed.

(** Recovery's [ensure_allocated] does not take an id off the free list.
    When the superblock still lists an id as free (it was reused, but no sync
    followed before the crash), the page replayed into it is handed out again
    by the next allocation. *)
Theorem recovered_free_id_reissued d id d' r :
  disk_ok d -> last (d_free_list d) = Some id -> disk_ensure_allocated id d = (d', r) ->
  (r = Ok tt /\ exists d'', disk_allocate d' = (d'', Ok id)).
Proof.
  intros W [fl Hfl]%last_Some. pose proof (do_free _ W) as Hf. rewrite Hfl in Hf.
  apply Forall_app in Hf as [_ Hid]. rewrite Forall_singleton in Hid.
  unfold disk_ensure_allocated. rewrite (proj2 (Z.leb_gt _ _)) by lia. intros [= <- <-].
  split; [done|]. unfold disk_allocate. rewrite (proj2 (vec_pop_some _ _ _) Hfl). by eexists.
Qed.

