(* ===== verification/BlockJournal.v ===== *)
(** * The page journal ([crates/filesystem/src/block/journal.rs])

    The record type of the page cache's redo log over the journal crate: full
    after-images of pages and commit marks.  A failed append is fail-stop: the
    process panics. *)

From Stdlib Require Import Strings.Byte ZArith Lia.
From stdpp Require Import prelude list strings.
From S2P Require Import Prelude Codec Journal Page.
Local Open Scope Z_scope.

Definition TAG_WRITE : Z := 1.
Definition TAG_COMMIT : Z := 2.

Inductive JournalOp : Type :=
| JWrite (page_id : Z) (image : list byte)
| JCommit.

#[global] Instance JournalOp_eq_dec : EqDecision JournalOp.
Proof. solve_decision. Defined.

Definition pageop_encode (op : JournalOp) : list byte :=
  match op with
  | JWrite page_id image => [byte_of TAG_WRITE] ++ be_bytes 8 page_id ++ image
  | JCommit => [byte_of TAG_COMMIT]
  end.

Definition pageop_decode (bytes : list byte) : res JournalError JournalOp :=
  match bytes with
  | b :: _ =>
      if byteZ b =? TAG_WRITE then
        if (length bytes <? 9)%nat then
          Err (JDecode (TextNum "write record too short: " (Z.of_nat (length bytes))))
        else Ok (JWrite (be_value (slice 1 8 bytes)) (drop 9 bytes))
      else if byteZ b =? TAG_COMMIT then Ok JCommit
      else Err (JDecode (TextNum "unknown record tag: " (byteZ b)))
  | [] => Err (JDecode (Text "unknown record tag: None"))
  end.

#[global] Instance PageOpCodec : Codec JournalOp :=
  {| codec_encode := pageop_encode; codec_decode := pageop_decode |}.

(** An image that fits a frame, and a page id that is a [u64]. *)
Definition pageop_wf (op : JournalOp) : Prop :=
  match op with
  | JWrite page_id image => is_u64 page_id /\ Z.of_nat (length image) + 9 <= u32_max
  | JCommit => True
  end.

#[global] Instance PageOpCodec_ok : CodecOk JournalOp.
Proof.
  refine {| codec_wf := pageop_wf |}; cbn [codec_encode codec_decode PageOpCodec].
  - intros [id image|]; cbn [pageop_encode pageop_wf]; unfold fits_u32; [|by vm_compute].
    intros [_ H]. rewrite !length_app, length_be_bytes. cbn [length]. lia.
  - intros [id image|]; [|done]. cbn [pageop_wf]. intros [Hid _]. unfold pageop_decode, pageop_encode.
    cbn [app]. change (byteZ (byte_of TAG_WRITE) =? TAG_WRITE) with true. cbv iota.
    rewrite (proj2 (Nat.ltb_ge _ _)) by (cbn [length]; rewrite length_app, length_be_bytes; lia).
    change (byte_of TAG_WRITE :: be_bytes 8 id ++ image) with ([byte_of TAG_WRITE] ++ be_bytes 8 id ++ image).
    rewrite slice_app_exact by (rewrite ?length_be_bytes; done). rewrite be_u64 by done.
    rewrite app_assoc, drop_app_exact by (rewrite length_app, length_be_bytes; done). done.
Defined.

Section block_journal.
Context {CRC : Crc32}.

(** [BlockJournal]: the journal, with the page codec. *)
Record BlockJournal : Type := MkBJ { bj_inner : Journal }.

Definition bj_open (disk : option (list byte)) : res Error BlockJournal :=
  j ← map_err EJournal (with_codec disk); Ok (MkBJ j).

(** One append; its failure is a panic. *)
Definition bj_append (env : io_env) (j : BlockJournal) (op : JournalOp) : BlockJournal * res Error unit :=
  match append env (bj_inner j) op with
  | (j', Ok _) => (MkBJ j', Ok tt)
  | (j', _) => (MkBJ j', Panic)
  end.

Definition bj_replay (j : BlockJournal) : res Error (list JournalOp) :=
  map_err EJournal (collect_res (replay_all (bj_inner j))).

Definition bj_truncate (j : BlockJournal) : BlockJournal := MkBJ (truncate (bj_inner j)).

(** The appends of one flush, [env n] being the I/O of the [n]-th. *)
Fixpoint bj_append_all (env : nat -> io_env) (j : BlockJournal) (ops : list JournalOp) : BlockJournal * res Error unit :=
  match ops with
  | [] => (j, Ok tt)
  | op :: ops' =>
      match bj_append (env 0%nat) j op with
      | (j', Ok _) => bj_append_all (fun n => env (S n)) j' ops'
      | r => r
      end
  end.

Context {CRCok : Crc32Ok}.

(** An append that reports success stored the whole frame. *)
Lemma bj_append_holds env j rs op j' :
  holds (bj_inner j) rs -> pageop_wf op -> bj_append env j op = (j', Ok tt) ->
  holds (bj_inner j') (rs ++ [op]).
Proof.
  intros H Hop. destruct (holds_append _ _ op H Hop) as (j1 & E1 & H1). revert E1.
  unfold bj_append, append, io_fine, write_all. cbn [on_write on_sync].
  destruct env as [[|n e] [e'|]]; cbn [on_write on_sync]; try done. by intros [= <-] [= <-].
Qed.

(** Appends that do not fail extend the log by exactly their records. *)
Lemma bj_append_all_holds env j rs ops j' :
  holds (bj_inner j) rs -> Forall pageop_wf ops -> bj_append_all env j ops = (j', Ok tt) ->
  holds (bj_inner j') (rs ++ ops).
Proof.
  intros H Hops. revert env j rs H. induction Hops as [|op ops Hop Hops IH]; intros env j rs H; cbn [bj_append_all].
  - intros [= <-]. by rewrite app_nil_r.
  - destruct (bj_append (env 0%nat) j op) as [j1 [[]|e|]] eqn:E; [|done..]. intros Hr.
    pose proof (bj_append_holds _ _ _ _ _ H Hop E) as H1.
    specialize (IH _ _ _ H1 Hr). by rewrite <- app_assoc in IH.
Qed.

(** With a disk that does not fail, the appends succeed. *)
Lemma bj_append_all_fine env j rs ops :
  holds (bj_inner j) rs -> Forall pageop_wf ops -> (forall n, env n = io_fine) ->
  exists j', bj_append_all env j ops = (j', Ok tt) /\ holds (bj_inner j') (rs ++ ops).
Proof.
  intros H Hops Henv. revert env Henv j rs H.
  induction Hops as [|op ops Hop Hops IH]; intros env Henv j rs H; cbn [bj_append_all].
  - exists j. by rewrite app_nil_r.
  - destruct (holds_append _ _ op H Hop) as (j1 & E1 & H1). unfold bj_append. rewrite Henv, E1.
    destruct (IH (fun n => env (S n)) (fun n => Henv (S n)) (MkBJ j1) _ H1) as (j2 & E2 & H2).
    exists j2. by rewrite <- app_assoc in H2.
Qed.

Lemma bj_replay_holds j rs : holds (bj_inner j) rs -> bj_replay j = Ok rs.
Proof. intros H. unfold bj_replay. by rewrite (holds_replay _ _ H), collect_res_Ok. Qed.

Lemma bj_truncate_holds j rs : holds (bj_inner j) rs -> holds (bj_inner (bj_truncate j)) [].
Proof. intros [Hf _]. apply (holds_truncate _ rs []). rewrite app_nil_r. by rewrite Hf. Qed.

(** ** Crash states of a sequence of appends *)

(** The file after [ops] were appended to a log of [rs], cut by a crash: some
    whole frames, then part of the next one. *)
Inductive cut_log (rs ops : list JournalOp) : list byte -> list JournalOp -> Prop :=
| cut_at pre op post n :
    ops = pre ++ op :: post -> (n < length (write_frame (codec_encode op)))%nat ->
    cut_log rs ops (journal_bytes (rs ++ pre) ++ take n (write_frame (codec_encode op))) (rs ++ pre)
| cut_end : cut_log rs ops (journal_bytes (rs ++ ops)) (rs ++ ops).

(** What the appends leave in the file, wherever one of them stops. *)
Lemma append_all_cut env j rs ops :
  holds (bj_inner j) rs -> Forall pageop_wf ops ->
  exists seen, cut_log rs ops (f_bytes (jfile (bj_inner (bj_append_all env j ops).1))) seen.
Proof.
  intros H Hops. revert env j rs H. induction Hops as [|op ops Hop Hops IH]; intros env j rs H; cbn [bj_append_all].
  - exists rs. cbn [fst]. destruct H as [Hf _]. rewrite Hf. cbn [f_bytes]. pose proof (cut_end rs []) as Hc. rewrite app_nil_r in Hc. exact Hc.
  - unfold bj_append. pose proof (append_bytes (env 0%nat) (bj_inner j) op _ (proj1 H)) as Hb.
    destruct (append (env 0%nat) (bj_inner j) op) as [j1 r1] eqn:E1. cbn [fst] in Hb.
    assert (Hstop : exists seen, cut_log rs (op :: ops) (f_bytes (jfile j1)) seen).
    { rewrite Hb. cbn [f_bytes]. destruct (appended_cut (env 0%nat) op) as [->|(n & Hn & ->)].
      - exists (rs ++ [op]). destruct ops as [|op2 ops2]; [rewrite <- journal_bytes_snoc; apply cut_end|].
        pose proof (cut_at rs (op :: op2 :: ops2) [op] op2 ops2 0 eq_refl) as Hc. rewrite take_0, app_nil_r, journal_bytes_snoc in Hc.
        apply Hc. rewrite length_write_frame. lia.
      - exists rs. pose proof (cut_at rs (op :: ops) [] op ops n eq_refl Hn) as Hc. by rewrite app_nil_r in Hc. }
    destruct r1 as [u|e|]; [|exact Hstop..]. apply append_ok_inv in E1. clear Hstop.
    destruct (holds_append _ _ _ H Hop) as (j2 & E3 & H2). rewrite E1 in E3. injection E3 as <-.
    destruct (IH (fun n => env (S n)) (MkBJ j1) (rs ++ [op]) H2) as [seen Hc]. exists seen.
    inversion Hc as [pre op' post n Eo Hn Eb Es|Eb Es].
    + pose proof (cut_at rs (op :: ops) (op :: pre) op' post n) as Hc'. rewrite (cons_middle op rs pre), app_assoc in Hc'. apply Hc'; [by rewrite Eo|done].
    + pose proof (cut_end rs (op :: ops)) as Hc'. rewrite (cons_middle op rs ops), app_assoc in Hc'. exact Hc'.
Qed.

(** Appends that all succeed are not stopped. *)
Lemma append_all_ok env j ops j' : bj_append_all env j ops = (j', Ok tt) -> bj_append_all (fun _ => io_fine) j ops = (j', Ok tt).
Proof.
  revert env j. induction ops as [|op ops IH]; intros env j; cbn [bj_append_all]; [done|]. unfold bj_append.
  destruct (append (env 0%nat) (bj_inner j) op) as [j1 [u|e|]] eqn:E; [|done..]. rewrite (append_ok_inv _ _ _ _ _ E). apply IH.
Qed.

(** Whatever the crash left, the journal opens and replays the whole frames. *)
Lemma cut_log_open rs ops bytes seen :
  Forall pageop_wf rs -> Forall pageop_wf ops -> cut_log rs ops bytes seen ->
  exists j, bj_open (Some bytes) = Ok j /\ bj_replay j = Ok seen
    /\ exists p, bj_inner j = MkJournal (File bytes p).
Proof.
  intros Hrs Hops [pre op post n -> Hn|].
  - apply Forall_app in Hops as [Hpre [Hop _]%Forall_cons].
    eexists. unfold bj_open, journal_bytes. rewrite <- app_assoc, with_codec_existing. cbn [map_err].
    rewrite bind_Ok. split; [reflexivity|]. split; [|by eexists].
    unfold bj_replay. cbn [bj_inner]. rewrite (app_assoc header_bytes). fold (journal_bytes (rs ++ pre)).
    rewrite replay_log_with_tail; [by rewrite collect_res_Ok | |].
    + by apply Forall_app.
    + apply read_torn_frame; [by apply (codec_fits op) | done].
  - eexists. unfold bj_open, journal_bytes. rewrite with_codec_existing. cbn [map_err]. rewrite bind_Ok.
    split; [reflexivity|]. split; [|by eexists]. apply bj_replay_holds. split; [done|]. by apply Forall_app.
Qed.
End block_journal.
