(* ===== verification/PageCache.v ===== *)
(** * The page cache ([crates/filesystem/src/cache/mod.rs])

    A fixed pool of frames over a block store, with an eviction policy and an
    optional redo journal.  The pool ([Inner]) is the shared state; every
    method is a state-and-error computation on it.  A handle ([ReadPage],
    [WritePage]) names its frame, whose buffer lives in the pool, so what one
    handle writes is what the next one reads; dropping a handle is
    [release_read] or [release_write].  A handle's borrow of the buffer does
    not span another call on the cache.

    [env n] is how the I/O of a flush's [n]-th journal append goes. *)

From Stdlib Require Import Strings.Byte ZArith Lia.
From stdpp Require Import prelude list gmap strings.
From S2P Require Import Prelude Codec Journal Page BlockStore BlockJournal Policies.
Local Open Scope Z_scope.

Record Frame : Type := MkFrame {
  fr_page : option Z;
  fr_buf : Block;
  fr_readers : Z;
  fr_writer : bool;
  fr_dirty : bool;
}.

Definition Frame_new : Frame := MkFrame None zeroed 0 false false.

Definition with_buf (b : Block) (fr : Frame) : Frame :=
  MkFrame (fr_page fr) b (fr_readers fr) (fr_writer fr) (fr_dirty fr).
Definition with_page (id : option Z) (fr : Frame) : Frame :=
  MkFrame id (fr_buf fr) (fr_readers fr) (fr_writer fr) (fr_dirty fr).
Definition with_readers (n : Z) (fr : Frame) : Frame :=
  MkFrame (fr_page fr) (fr_buf fr) n (fr_writer fr) (fr_dirty fr).
Definition with_writer (w : bool) (fr : Frame) : Frame :=
  MkFrame (fr_page fr) (fr_buf fr) (fr_readers fr) w (fr_dirty fr).
Definition with_dirty (d : bool) (fr : Frame) : Frame :=
  MkFrame (fr_page fr) (fr_buf fr) (fr_readers fr) (fr_writer fr) d.

(** [fr.readers == 0 && !fr.writer]. *)
Definition unpinned (fr : Frame) : bool := (fr_readers fr =? 0) && negb (fr_writer fr).

Section inner.
Context {V P : Type} {CRC : Crc32} {CRCc : Crc32c}.
Context `{!BlockStore V} `{!EvictionPolicy P nat}.

Record Inner : Type := MkInner {
  block : V;
  frames : list Frame;
  table : gmap Z nat;
  free : list nat;
  policy : P;
  journal : option BlockJournal;
}.

Abbreviation M := (SR Inner Error).

Definition set_block (v : V) (c : Inner) : Inner :=
  MkInner v (frames c) (table c) (free c) (policy c) (journal c).
Definition set_frames (l : list Frame) (c : Inner) : Inner :=
  MkInner (block c) l (table c) (free c) (policy c) (journal c).
Definition set_table (t : gmap Z nat) (c : Inner) : Inner :=
  MkInner (block c) (frames c) t (free c) (policy c) (journal c).
Definition set_free (l : list nat) (c : Inner) : Inner :=
  MkInner (block c) (frames c) (table c) l (policy c) (journal c).
Definition set_policy (p : P) (c : Inner) : Inner :=
  MkInner (block c) (frames c) (table c) (free c) p (journal c).
Definition set_journal (j : option BlockJournal) (c : Inner) : Inner :=
  MkInner (block c) (frames c) (table c) (free c) (policy c) j.

(** [self.frames[f]]: reading it, and changing it in place. *)
Definition frame_at (f : nat) : M Frame := fun c =>
  (c, match frames c !! f with Some fr => Ok fr | None => Panic end).
Definition on_frame (f : nat) (g : Frame -> Frame) : M unit :=
  sr_modify (fun c => set_frames (alter g f (frames c)) c).

(** An operation of the block store, of the policy. *)
Definition on_block {A} (op : V -> V * res Error A) : M A := fun c =>
  let '(v, r) := op (block c) in (set_block v c, r).
Definition touch (f : nat) : M unit := sr_modify (fun c => set_policy (record_access f (policy c)) c).

(** The closure [pick_evictable] passes to the policy. *)
Definition evictable (c : Inner) (clean_only : bool) (f : nat) : bool :=
  match frames c !! f with
  | Some fr => unpinned fr && (negb clean_only || negb (fr_dirty fr))
  | None => false
  end.

Definition pick_evictable (clean_only : bool) : M (option nat) := fun c =>
  let '(o, p) := evict_candidate (evictable c clean_only) (policy c) in (set_policy p c, Ok o).

Definition reclaim (f : nat) : M nat :=
  fr ← frame_at f;
  _ ← sr_modify (fun c => match fr_page fr with
                          | Some old => set_table (delete old (table c)) c
                          | None => c
                          end);
  _ ← sr_modify (fun c => set_policy (policy_remove f (policy c)) c);
  _ ← on_frame f (fun fr => MkFrame None (fr_buf fr) 0 false false);
  mret f.

(** ** Flush *)

Definition is_dirty (fr : Frame) : bool :=
  fr_dirty fr && match fr_page fr with Some _ => true | None => false end.

Definition dirty_frames (c : Inner) : list nat :=
  List.filter (fun f => match frames c !! f with Some fr => is_dirty fr | None => false end)
    (seq 0 (length (frames c))).

Definition finalize_frame (f : nat) : M unit :=
  fr ← frame_at f;
  b ← sr_lift (finalize_checksum (fr_buf fr));
  on_frame f (with_buf b).

(** [page_id.unwrap()]. *)
Definition page_of (fr : Frame) : M Z := sr_lift (match fr_page fr with Some id => Ok id | None => Panic end).

Definition image_of (c : Inner) (f : nat) : res Error JournalOp :=
  match frames c !! f with
  | Some fr => match fr_page fr with Some id => Ok (JWrite id (fr_buf fr)) | None => Panic end
  | None => Panic
  end.

Variable env : nat -> io_env.

Definition journal_images (dirty : list nat) : M unit := fun c =>
  match journal c with
  | None => (c, Ok tt)
  | Some j =>
      match collect_res (map (image_of c) dirty) with
      | Ok images =>
          let '(j', r) := bj_append_all env j (images ++ [JCommit]) in (set_journal (Some j') c, r)
      | Err e => (c, Err e)
      | Panic => (c, Panic)
      end
  end.

Definition write_back (f : nat) : M unit :=
  fr ← frame_at f;
  id ← page_of fr;
  _ ← on_block (bs_write id (fr_buf fr));
  on_frame f (with_dirty false).

Definition flush : M unit :=
  c ← sr_get;
  let dirty := dirty_frames c in
  match dirty with
  | [] => mret tt
  | _ =>
      _ ← sr_for dirty finalize_frame;
      _ ← journal_images dirty;
      _ ← sr_for dirty write_back;
      _ ← on_block bs_sync;
      sr_modify (fun c => set_journal (bj_truncate <$> journal c) c)
  end.

(** ** Acquiring and releasing pages *)

Definition pool_exhausted {A} : M A :=
  c ← sr_get; sr_lift (Err (EPoolExhausted (Z.of_nat (length (frames c))))).

Definition victim_frame : M nat :=
  c ← sr_get;
  match vec_pop (free c) with
  | Some (f, rest) => _ ← sr_modify (set_free rest); mret f
  | None =>
      o ← pick_evictable true;
      match o with
      | Some f => reclaim f
      | None =>
          c ← sr_get;
          if existsb (fun fr => unpinned fr && fr_dirty fr) (frames c) then
            _ ← flush;
            o ← pick_evictable false;
            match o with Some f => reclaim f | None => pool_exhausted end
          else pool_exhausted
      end
  end.

Definition load (f : nat) (id : Z) : M unit :=
  c ← sr_get;
  b ← sr_lift (bs_read (block c) id);
  _ ← on_frame f (with_buf b);
  sr_lift (verify_checksum b id).

(** [load], handing the frame back when it fails. *)
Definition load_or_free (f : nat) (id : Z) : M unit := fun c =>
  match load f id c with
  | (c', Err e) => (set_free (free c' ++ [f]) c', Err e)
  | r => r
  end.

Definition enter (f : nat) (id : Z) : M unit :=
  _ ← sr_modify (fun c => set_table (<[id := f]> (table c)) c);
  touch f.

Definition acquire_read (id : Z) : M nat :=
  c ← sr_get;
  match table c !! id with
  | Some f =>
      fr ← frame_at f;
      if fr_writer fr then sr_lift (Err (EBusy id))
      else _ ← on_frame f (with_readers (fr_readers fr + 1)); _ ← touch f; mret f
  | None =>
      f ← victim_frame;
      _ ← load_or_free f id;
      _ ← on_frame f (fun fr => with_readers 1 (with_page (Some id) fr));
      _ ← enter f id; mret f
  end.

Definition acquire_write (id : Z) : M nat :=
  c ← sr_get;
  match table c !! id with
  | Some f =>
      fr ← frame_at f;
      if fr_writer fr || (0 <? fr_readers fr) then sr_lift (Err (EBusy id))
      else _ ← on_frame f (with_writer true); _ ← touch f; mret f
  | None =>
      f ← victim_frame;
      _ ← load_or_free f id;
      _ ← on_frame f (fun fr => with_writer true (with_page (Some id) fr));
      _ ← enter f id; mret f
  end.

Definition inner_allocate : M (Z * nat) :=
  id ← on_block bs_allocate;
  f ← victim_frame;
  _ ← on_frame f (fun fr => MkFrame (Some id) zeroed (fr_readers fr) true true);
  _ ← enter f id;
  mret (id, f).

Definition release_read (f : nat) : M unit := fr ← frame_at f; on_frame f (with_readers (fr_readers fr - 1)).
Definition release_write (f : nat) : M unit := on_frame f (fun fr => with_dirty true (with_writer false fr)).

(** ** The public handles *)

Record ReadPage : Type := MkReadPage { rp_frame : nat; rp_page_id : Z }.
Record WritePage : Type := MkWritePage { wp_frame : nat; wp_page_id : Z }.

Definition cache_read (id : Z) : M ReadPage := f ← acquire_read id; mret (MkReadPage f id).
Definition cache_write (id : Z) : M WritePage := f ← acquire_write id; mret (MkWritePage f id).
Definition cache_allocate : M (Z * WritePage) := p ← inner_allocate; mret (p.1, MkWritePage p.2 p.1).

Definition rp_bytes (h : ReadPage) : M Block := fr ← frame_at (rp_frame h); mret (fr_buf fr).
Definition wp_bytes (h : WritePage) : M Block := fr ← frame_at (wp_frame h); mret (fr_buf fr).

(** What a caller of [bytes_mut] leaves in the page. *)
Definition wp_set (h : WritePage) (b : Block) : M unit := on_frame (wp_frame h) (with_buf b).

Definition rp_header (h : ReadPage) : M PageHeader := b ← rp_bytes h; sr_lift (header_parse b).
Definition rp_drop (h : ReadPage) : M unit := release_read (rp_frame h).
Definition wp_drop (h : WritePage) : M unit := release_write (wp_frame h).

Definition frame_count (c : Inner) : nat := length (frames c).
Definition resident (c : Inner) : nat := size (table c).

(** ** Construction and recovery *)

Definition build (v : V) (n : nat) (p : P) (j : option BlockJournal) : res Error Inner :=
  if (n =? 0)%nat then Panic
  else Ok (MkInner v (replicate n Frame_new) ∅ (reverse (seq 0 n)) p j).

Definition with_policy (v : V) (n : nat) (p : P) : res Error Inner := build v n p None.
End inner.
Arguments Inner : clear implicits.

(** [records.iter().rposition(|op| matches!(op, Commit))]. *)
Fixpoint rposition_commit (l : list JournalOp) : option nat :=
  match l with
  | [] => None
  | op :: l' =>
      match rposition_commit l' with
      | Some k => Some (S k)
      | None => match op with JCommit => Some 0%nat | _ => None end
      end
  end.

Section recovery.
Context {V : Type} {CRC : Crc32} `{!BlockStore V}.

Definition redo (op : JournalOp) : SR V Error unit :=
  match op with
  | JWrite id image =>
      _ ← bs_ensure_allocated id;
      if (length image =? BLOCK_SIZE)%nat then bs_write id image else sr_lift Panic
  | JCommit => mret tt
  end.

Definition recover (j : BlockJournal) : SR V Error unit :=
  records ← sr_lift (bj_replay j);
  match rposition_commit records with
  | None => mret tt
  | Some committed => _ ← sr_for (take committed records) redo; bs_sync
  end.

(** [PageCache::with_journal]: the store after recovery, and the cache over it. *)
Definition with_journal (n : nat) (jdisk : option (list byte)) : SR V Error (Inner V (LruK nat)) := fun v =>
  match bj_open jdisk with
  | Ok j =>
      match recover j v with
      | (v', Ok _) =>
          (v', match LruK_new 2 with Ok p => build v' n p (Some (bj_truncate j)) | _ => Panic end)
      | (v', Err e) => (v', Err e)
      | (v', Panic) => (v', Panic)
      end
  | Err e => (v, Err e)
  | Panic => (v, Panic)
  end.

Definition PageCache_new (v : V) (n : nat) : res Error (Inner V (LruK nat)) :=
  match LruK_new 2 with Ok p => with_policy v n p | _ => Panic end.
End recovery.
