(* ===== verification/PageCacheOk.v ===== *)
(** * The page cache: invariant and refinement

    [view c id] is the page a reader of [id] sees: the resident buffer, or the
    verified block of the store.  [cache_inv] is the pool's invariant; every
    operation preserves it and, up to the checksum field, the view of every
    page in use ([keeps]).  The [pins] of the frames are tracked exactly. *)

From Stdlib Require Import Strings.Byte ZArith Lia.
From stdpp Require Import prelude list gmap strings.
From S2P Require Import Prelude Codec Journal Page BlockStore BlockJournal Policies PageCache.
Local Open Scope Z_scope.

Section cache.
Context {V P : Type} {CRC : Crc32} {CRCok : Crc32Ok} {CRCc : Crc32c} {CRCcok : Crc32cOk}.
Context {BS : BlockStore V} {BSok : BlockStoreOk V} {EP : EvictionPolicy P nat} {EPok : EvictionPolicyOk P nat}.

Abbreviation Inner := (Inner V P).
Abbreviation opt_eqv := (option_Forall2 page_eqv).

#[global] Instance opt_eqv_equiv : Equivalence opt_eqv.
Proof.
  split.
  - intros [x|]; by constructor.
  - intros x y [a b Hab|]; constructor. by symmetry.
  - intros x y z [a b Hab|] Hyz; inversion Hyz; constructor. by etrans.
Qed.

(** ** What the store holds, what a reader sees *)

Definition stored (v : V) (id : Z) : option Block :=
  match bs_read v id with
  | Ok b => match verify_checksum b id with Ok _ => Some b | _ => None end
  | _ => None
  end.

Definition view (c : Inner) (id : Z) : option Block :=
  match table c !! id with
  | Some f => fr_buf <$> frames c !! f
  | None => stored (block c) id
  end.

Definition pins (c : Inner) : list (Z * bool) := (fun fr => (fr_readers fr, fr_writer fr)) <$> frames c.

(** No page is pinned. *)
Definition idle (c : Inner) : Prop := forall f fr, frames c !! f = Some fr -> unpinned fr = true.

Definition frame_pin (fr : Frame) : Z * bool := (fr_readers fr, fr_writer fr).

(** Any number of readers, or one writer. *)
Definition latch_ok (p : Z * bool) : Prop := 0 <= p.1 /\ (p.2 = true -> p.1 = 0).

Definition frame_ok (v : V) (fr : Frame) : Prop :=
  length (fr_buf fr) = BLOCK_SIZE /\ latch_ok (frame_pin fr)
  /\ match fr_page fr with
     | None => unpinned fr = true /\ fr_dirty fr = false
     | Some id => bs_used v id
         /\ (fr_dirty fr = false -> fr_writer fr = false -> opt_eqv (stored v id) (Some (fr_buf fr)))
     end.

(** The invariant, [held] being a frame taken out of the pool by the operation
    that runs. *)
Record cache_inv (held : option nat) (c : Inner) : Prop := {
  ok_store : bs_wf (block c);
  ok_policy : policy_wf (policy c);
  ok_table id f : table c !! id = Some f <-> exists fr, frames c !! f = Some fr /\ fr_page fr = Some id;
  ok_frame f fr : frames c !! f = Some fr -> frame_ok (block c) fr;
  ok_free f : f ∈ free c <-> held <> Some f /\ exists fr, frames c !! f = Some fr /\ fr_page fr = None;
  ok_nodup : NoDup (free c);
  ok_tracked f : f ∈ tracked (policy c) <-> exists fr, frames c !! f = Some fr /\ is_Some (fr_page fr);
  ok_journal j : journal c = Some j -> holds (bj_inner j) [];
}.

Definition keeps (c c' : Inner) : Prop :=
  forall id, bs_used (block c) id -> bs_used (block c') id /\ opt_eqv (view c id) (view c' id).

#[global] Instance keeps_preorder : PreOrder keeps.
Proof.
  split.
  - intros c id Hu. by split.
  - intros c1 c2 c3 H1 H2 id Hu. destruct (H1 id Hu) as [Hu1 E1]. destruct (H2 id Hu1) as [Hu2 E2].
    split; [done|]. by etrans.
Qed.

(** The same pages, up to checksums, under the same pins, and no page newly
    resident. *)
Definition same_pool (c c' : Inner) : Prop :=
  keeps c c' /\ pins c' = pins c /\ (forall id, table c !! id = None -> table c' !! id = None).

#[global] Instance same_pool_preorder : PreOrder same_pool.
Proof.
  split; [by repeat split|]. intros c1 c2 c3 (H1 & P1 & T1) (H2 & P2 & T2).
  split; [by etrans | split; [congruence | auto]].
Qed.

Lemma table_inj held c f1 f2 fr1 fr2 id :
  cache_inv held c -> frames c !! f1 = Some fr1 -> frames c !! f2 = Some fr2 ->
  fr_page fr1 = Some id -> fr_page fr2 = Some id -> f1 = f2.
Proof.
  intros I H1 H2 P1 P2. assert (E1 : table c !! id = Some f1) by (apply (ok_table _ _ I); eauto).
  assert (E2 : table c !! id = Some f2) by (apply (ok_table _ _ I); eauto). congruence.
Qed.

Lemma stored_read v v' id : bs_read v' id = bs_read v id -> stored v' id = stored v id.
Proof. unfold stored. by intros ->. Qed.

Lemma stored_length v id b : bs_wf v -> stored v id = Some b -> length b = BLOCK_SIZE.
Proof.
  unfold stored. intros W. destruct (bs_read v id) eqn:E; [|done..]. case_match; [|done..].
  intros [= <-]. by eapply bs_read_length.
Qed.

Lemma stored_finalized v id b :
  length b = BLOCK_SIZE -> bs_read v id = Ok (finalized b) -> stored v id = Some (finalized b).
Proof.
  intros Hl E. unfold stored. rewrite E, verify_finalized; [done|].
  pose proof BLOCK_SIZE_Z. unfold PAGE_HEADER_LEN. lia.
Qed.

(** ** Flush *)

(** The frames after a loop that changes each frame of [ds] by [g]. *)
Definition changed (ds : list nat) (g : Frame -> Frame) (l : list Frame) : list Frame :=
  imap (fun f fr => if decide (f ∈ ds) then g fr else fr) l.

Lemma changed_lookup ds g l f :
  changed ds g l !! f = (fun fr => if decide (f ∈ ds) then g fr else fr) <$> l !! f.
Proof. unfold changed. by rewrite list_lookup_imap. Qed.

Lemma changed_nil g l : changed [] g l = l.
Proof.
  apply list_eq. intros f. rewrite changed_lookup. destruct (l !! f); cbn; [|done].
  by rewrite decide_False by apply not_elem_of_nil.
Qed.

Lemma changed_cons f ds g l :
  f ∉ ds -> changed ds g (alter g f l) = changed (f :: ds) g l.
Proof.
  intros Hf. apply list_eq. intros i. rewrite !changed_lookup, list_lookup_alter.
  destruct (decide (f = i)) as [<-|Hne].
  - destruct (l !! f); cbn; [|done]. rewrite decide_False by done. by rewrite decide_True by left.
  - destruct (l !! i); cbn; [|done]. f_equal. destruct (decide (i ∈ ds)).
    + by rewrite decide_True by by right.
    + rewrite decide_False; [done|]. intros [->|]%elem_of_cons; done.
Qed.

Definition refinalize (fr : Frame) : Frame := with_buf (finalized (fr_buf fr)) fr.

Lemma finalize_loop ds (c : Inner) :
  NoDup ds -> (forall f, f ∈ ds -> exists fr, frames c !! f = Some fr /\ length (fr_buf fr) = BLOCK_SIZE) ->
  sr_for ds finalize_frame c = (set_frames (changed ds refinalize (frames c)) c, Ok tt).
Proof.
  intros Hd. revert c. induction Hd as [|f ds Hf Hd IH]; intros c H; cbn [sr_for].
  - rewrite changed_nil. by destruct c.
  - destruct (H f) as (fr & E & Hl); [by left|].
    assert (Hfin : finalize_frame f c = (set_frames (alter refinalize f (frames c)) c, Ok tt)).
    { unfold finalize_frame. erewrite sr_bind_ok; [|unfold frame_at; by rewrite E].
      erewrite sr_bind_ok; [|unfold sr_lift; rewrite finalize_ok; [reflexivity|]; pose proof BLOCK_SIZE_Z; unfold PAGE_HEADER_LEN; lia].
      unfold on_frame, sr_modify. do 2 f_equal. apply list_alter_ext; [|done]. intros fr' E'.
      rewrite E in E'. by injection E' as <-. }
    erewrite sr_bind_ok by exact Hfin. rewrite IH.
    + cbn [set_frames frames]. by rewrite changed_cons.
    + intros f' Hf'. cbn [frames set_frames]. rewrite list_lookup_alter_ne by (by intros ->).
      apply H. by right.
Qed.

(** Frames of a flush: in range, with distinct pages in use. *)
Definition flushable (v : V) (l : list Frame) (ds : list nat) : Prop :=
  NoDup ds
  /\ (forall f, f ∈ ds -> exists fr id, l !! f = Some fr /\ fr_page fr = Some id /\ bs_used v id
                              /\ length (fr_buf fr) = BLOCK_SIZE)
  /\ (forall f1 f2 fr1 fr2 id, f1 ∈ ds -> f2 ∈ ds -> l !! f1 = Some fr1 -> l !! f2 = Some fr2 ->
        fr_page fr1 = Some id -> fr_page fr2 = Some id -> f1 = f2).

(** [v'] is [v] after some successful block writes. *)
Inductive writes : V -> V -> Prop :=
| writes_nil v : writes v v
| writes_cons v v1 v2 id b : bs_write id b v = (v1, Ok tt) -> writes v1 v2 -> writes v v2.

(** The store after the pages of [ds] were written to it. *)
Record written (v : V) (l : list Frame) (ds : list nat) (v' : V) : Prop := {
  wr_wf : bs_wf v';
  wr_used i : bs_used v' i <-> bs_used v i;
  wr_in f fr id : f ∈ ds -> l !! f = Some fr -> fr_page fr = Some id -> bs_read v' id = Ok (fr_buf fr);
  wr_out i : (forall f fr, f ∈ ds -> l !! f = Some fr -> fr_page fr <> Some i) -> bs_read v' i = bs_read v i;
  wr_steps : writes v v';
}.

Lemma write_back_ok f fr id (c : Inner) :
  bs_wf (block c) -> frames c !! f = Some fr -> fr_page fr = Some id -> bs_used (block c) id ->
  length (fr_buf fr) = BLOCK_SIZE ->
  exists v, write_back f c = (set_block v (set_frames (alter (with_dirty false) f (frames c)) c), Ok tt)
    /\ bs_write id (fr_buf fr) (block c) = (v, Ok tt) /\ bs_wf v /\ (forall i, bs_used v i <-> bs_used (block c) i)
    /\ bs_read v id = Ok (fr_buf fr) /\ (forall i, i <> id -> bs_read v i = bs_read (block c) i).
Proof.
  intros W E Hp Hu Hl. destruct (bs_write_ok _ _ _ W Hu Hl) as (v & Ew & Hv). exists v. split; [|by split].
  unfold write_back. erewrite sr_bind_ok; [|unfold frame_at; by rewrite E].
  erewrite sr_bind_ok; [|unfold page_of; by rewrite Hp].
  erewrite sr_bind_ok; [|unfold on_block; by rewrite Ew]. done.
Qed.

Lemma write_loop ds (c : Inner) :
  bs_wf (block c) -> flushable (block c) (frames c) ds ->
  exists v, sr_for ds write_back c
              = (set_block v (set_frames (changed ds (with_dirty false) (frames c)) c), Ok tt)
    /\ written (block c) (frames c) ds v.
Proof.
  intros W (Hd & Hin & Hinj). revert c W Hin Hinj. induction Hd as [|f ds Hf Hd IH]; intros c W Hin Hinj.
  - exists (block c). cbn [sr_for]. rewrite changed_nil. split; [by destruct c|].
    split; [done|done|by intros ? ? ? ?%not_elem_of_nil|done|constructor].
  - destruct (Hin f) as (fr & id & E & Hp & Hu & Hl); [by left|].
    destruct (write_back_ok f fr id c W E Hp Hu Hl) as (v1 & E1 & Ew1 & W1 & U1 & R1 & O1).
    set (c1 := set_block v1 (set_frames (alter (with_dirty false) f (frames c)) c)) in *.
    assert (Hl1 : forall f', f' ∈ ds -> frames c1 !! f' = frames c !! f').
    { intros f' Hf'. cbn. apply list_lookup_alter_ne. by intros ->. }
    destruct (IH c1) as (v2 & E2 & [W2 U2 I2 O2 S2]).
    { done. }
    { intros f' Hf'. rewrite Hl1 by done. destruct (Hin f') as (fr' & id' & ? & ? & ? & ?); [by right|].
      exists fr', id'. split; [done|]. split; [done|]. split; [by apply U1|done]. }
    { intros f1 f2 fr1 fr2 id' Hf1 Hf2. rewrite !Hl1 by done. apply Hinj; by right. }
    exists v2. split.
    + cbn [sr_for]. rewrite (sr_bind_ok _ _ _ _ _ E1), E2. unfold c1.
      cbn [set_block set_frames frames block table free policy journal]. by rewrite changed_cons.
    + split.
      * done.
      * intros i. rewrite U2. apply U1.
      * intros f' fr' id' [->|Hf']%elem_of_cons E' Hp'.
        -- rewrite E in E'. injection E' as <-. rewrite Hp in Hp'. injection Hp' as <-.
           rewrite O2; [done|]. intros f2 fr2 Hf2. rewrite Hl1 by done. intros E2' Hp2.
           rewrite (Hinj f f2 fr fr2 id) in Hf; try done; [by left | by right].
        -- apply (I2 f'); [done|by rewrite Hl1|done].
      * intros i Hi. rewrite O2.
        -- apply O1. intros ->. by apply (Hi f fr); [left|..].
        -- intros f' fr' Hf'. rewrite Hl1 by done. apply Hi. by right.
      * by eapply writes_cons.
Qed.

(** The dirty frames of a pool that satisfies the invariant. *)
Lemma elem_of_dirty (c : Inner) f :
  f ∈ dirty_frames c <-> exists fr, frames c !! f = Some fr /\ is_dirty fr = true.
Proof.
  unfold dirty_frames. rewrite list_elem_of_In, List.filter_In, <- list_elem_of_In, elem_of_seq. split.
  - intros [_ H]. destruct (frames c !! f) as [fr|]; [|done]. eauto.
  - intros (fr & E & H). rewrite E. split; [|done]. apply lookup_lt_Some in E. lia.
Qed.

Lemma is_dirty_page fr : is_dirty fr = true -> fr_dirty fr = true /\ exists id, fr_page fr = Some id.
Proof. unfold is_dirty. destruct (fr_page fr); intros [? ?]%andb_true_iff; [eauto|done]. Qed.

Lemma dirty_flushable held (c : Inner) :
  cache_inv held c -> flushable (block c) (frames c) (dirty_frames c).
Proof.
  intros I. split; [|split].
  - unfold dirty_frames. apply NoDup_ListNoDup, List.NoDup_filter, NoDup_ListNoDup, NoDup_seq.
  - intros f (fr & E & [_ [id Hp]]%is_dirty_page)%elem_of_dirty. exists fr, id.
    destruct (ok_frame _ _ I f fr E) as (Hl & _ & Hu). rewrite Hp in Hu. by destruct Hu.
  - intros f1 f2 fr1 fr2 id _ _. by apply table_inj with (held := held) (c := c).
Qed.

Lemma flushable_changed v l ds g :
  (forall fr, fr_page (g fr) = fr_page fr) -> (forall fr, length (fr_buf fr) = BLOCK_SIZE -> length (fr_buf (g fr)) = BLOCK_SIZE) ->
  flushable v l ds -> flushable v (changed ds g l) ds.
Proof.
  intros Hg Hlen (Hd & Hin & Hinj). split; [done|]. split.
  - intros f Hf. destruct (Hin f Hf) as (fr & id & E & Hp & Hu & Hl). exists (g fr), id.
    rewrite changed_lookup, E. cbn. rewrite decide_True by done. rewrite Hg. auto.
  - intros f1 f2 fr1 fr2 id H1 H2. rewrite !changed_lookup.
    destruct (l !! f1) as [a1|] eqn:E1; [|done]. destruct (l !! f2) as [a2|] eqn:E2; [|done]. cbn.
    rewrite !decide_True by done. intros [= <-] [= <-]. rewrite !Hg. by apply Hinj.
Qed.

(** The after-images of the pages in the frames [ds]. *)
Definition images (l : list Frame) (ds : list nat) : list JournalOp :=
  map (fun f => match l !! f with
                | Some fr => JWrite (default 0 (fr_page fr)) (fr_buf fr)
                | None => JCommit
                end) ds.

Lemma images_wf v l ds : bs_wf v -> flushable v l ds -> Forall pageop_wf (images l ds).
Proof.
  intros W (_ & Hin & _). apply Forall_forall. intros op (f & <- & Hf%list_elem_of_In)%list_elem_of_In%List.in_map_iff.
  destruct (Hin f Hf) as (fr & id & E & Hp & Hu & Hl). rewrite E, Hp. cbn.
  pose proof BLOCK_SIZE_Z. split; [by eapply bs_used_u64|]. ulia.
Qed.

Lemma journal_images_ok env ds (c : Inner) :
  (forall n, env n = io_fine) -> bs_wf (block c) -> flushable (block c) (frames c) ds ->
  (forall j, journal c = Some j -> holds (bj_inner j) []) ->
  exists jo, journal_images env ds c = (set_journal jo c, Ok tt)
    /\ match jo with
       | Some j => is_Some (journal c) /\ holds (bj_inner j) (images (frames c) ds ++ [JCommit])
       | None => journal c = None
       end.
Proof.
  intros Henv W Hfl Hj. unfold journal_images. destruct (journal c) as [j|] eqn:Ej.
  - rewrite (collect_res_map _ (fun f => match frames c !! f with
                | Some fr => JWrite (default 0 (fr_page fr)) (fr_buf fr) | None => JCommit end)).
    + destruct (bj_append_all_fine env j [] (images (frames c) ds ++ [JCommit])) as (j' & E & Hh); [by apply Hj| |done|].
      { apply Forall_app. split; [by eapply images_wf|]. by repeat constructor. }
      unfold images in E. rewrite E. exists (Some j'). split; [done|]. split; [done|]. exact Hh.
    + intros f Hf. destruct (proj1 (proj2 Hfl) f Hf) as (fr & id & E & Hp & _).
      unfold image_of. by rewrite E, Hp.
  - exists None. split; [|done]. destruct c. cbn in *. by subst.
Qed.

(** A frame after the flush. *)
Definition flushed (fr : Frame) : Frame := with_dirty false (refinalize fr).

Lemma changed_changed ds g1 g2 l : changed ds g2 (changed ds g1 l) = changed ds (g2 ∘ g1) l.
Proof.
  apply list_eq. intros f. rewrite !changed_lookup. destruct (l !! f); cbn; [|done]. by case_decide.
Qed.

Lemma refinalize_length fr : length (fr_buf fr) = BLOCK_SIZE -> length (fr_buf (refinalize fr)) = BLOCK_SIZE.
Proof.
  intros H. cbn [fr_buf with_buf refinalize]. rewrite length_finalized; [done|]. pose proof BLOCK_SIZE_Z. unfold PAGE_HEADER_LEN. lia.
Qed.

Lemma refinalize_eqv fr : length (fr_buf fr) = BLOCK_SIZE -> fr_buf (refinalize fr) ≈p fr_buf fr.
Proof. intros H. apply finalized_eqv. pose proof BLOCK_SIZE_Z. unfold PAGE_HEADER_LEN. lia. Qed.

(** What a flush does to the pool and to the store. *)
Record flush_effect (c c' : Inner) : Prop := {
  fe_frames : frames c' = changed (dirty_frames c) flushed (frames c);
  fe_table : table c' = table c;
  fe_free : free c' = free c;
  fe_policy : policy c' = policy c;
  fe_wf : bs_wf (block c');
  fe_used i : bs_used (block c') i <-> bs_used (block c) i;
  fe_in f fr id : f ∈ dirty_frames c -> frames c !! f = Some fr -> fr_page fr = Some id ->
    bs_read (block c') id = Ok (finalized (fr_buf fr));
  fe_out i : bs_used (block c) i ->
    (forall f fr, f ∈ dirty_frames c -> frames c !! f = Some fr -> fr_page fr <> Some i) ->
    bs_read (block c') i = bs_read (block c) i;
  fe_journal j : journal c' = Some j -> holds (bj_inner j) [];
  fe_store : (dirty_frames c = [] /\ c' = c) \/ exists v, bs_wf v /\ writes (block c) v /\ bs_sync v = (block c', Ok tt);
}.

Lemma flush_run env held (c : Inner) :
  (forall n, env n = io_fine) -> cache_inv held c ->
  exists c', flush env c = (c', Ok tt) /\ flush_effect c c'.
Proof.
  intros Henv I. pose proof (dirty_flushable _ _ I) as Hfl. pose proof (ok_store _ _ I) as W.
  unfold flush. rewrite sr_bind_get. remember (dirty_frames c) as ds eqn:Eds.
  destruct (decide (ds = [])) as [->|Hne].
  { exists c. split; [done|]. split; rewrite <- ?Eds; try done.
    - by rewrite changed_nil.
    - by intros ? ? ? ?%not_elem_of_nil.
    - apply (ok_journal _ _ I).
    - by left. }
  assert (Hm : forall A (x y : A), match ds with [] => x | _ => y end = y) by (intros; by destruct ds).
  rewrite Hm. clear Hm.
  erewrite sr_bind_ok; [|apply finalize_loop; [apply Hfl|]].
  2:{ intros f Hf. destruct (proj1 (proj2 Hfl) f Hf) as (fr & id & E & _ & _ & Hl). eauto. }
  set (c1 := set_frames _ c).
  assert (Hfl1 : flushable (block c1) (frames c1) ds).
  { cbn [block frames c1 set_frames]. apply flushable_changed; [done | apply refinalize_length | done]. }
  destruct (journal_images_ok env ds c1 Henv W Hfl1 (ok_journal _ _ I)) as (jo & E1 & Hjo).
  erewrite sr_bind_ok by exact E1. set (c2 := set_journal jo c1) in *.
  destruct (write_loop ds c2 W Hfl1) as (v1 & E2 & [W1 U1 In1 Out1 St1]).
  erewrite sr_bind_ok by exact E2.
  destruct (bs_sync_ok v1 W1) as (v2 & E3 & W2 & U2 & R2).
  erewrite sr_bind_ok; [|unfold on_block; cbn [block set_block]; by rewrite E3].
  eexists. split; [reflexivity|].
  split; rewrite <- ?Eds; cbn [set_block set_frames set_journal frames block table free policy journal c1 c2]; try done.
  - by rewrite changed_changed.
  - intros i. by rewrite U2, U1.
  - intros f fr id Hf E Hp. rewrite R2.
    + apply (In1 f (refinalize fr)); [done| |done]. cbn [frames c1 c2 set_journal set_frames].
      rewrite changed_lookup, E. cbn. by rewrite decide_True.
    + apply U1. destruct (proj1 (proj2 Hfl) f Hf) as (fr' & id' & E' & Hp' & Hu & _). rewrite E in E'. injection E' as <-. rewrite Hp in Hp'. by injection Hp' as <-.
  - intros i Hu Hi. rewrite R2 by by apply U1. apply Out1. intros f fr Hf.
    cbn [frames c1 c2 set_journal set_frames]. rewrite changed_lookup.
    destruct (frames c !! f) as [fr0|] eqn:E; [|done]. cbn. rewrite decide_True by done.
    intros [= <-]. cbn. by apply (Hi f fr0).
  - intros j Hj. destruct jo as [j0|]; [|done]. injection Hj as <-. destruct Hjo as [_ Hh].
    by eapply bj_truncate_holds.
  - right. eauto.
Qed.

Section flush_effect.
Context (held : option nat) (c c' : Inner) (I : cache_inv held c) (F : flush_effect c c').

Lemma flush_frame f fr :
  frames c !! f = Some fr ->
  exists fr', frames c' !! f = Some fr'
    /\ fr_page fr' = fr_page fr /\ fr_readers fr' = fr_readers fr /\ fr_writer fr' = fr_writer fr
    /\ fr_buf fr' ≈p fr_buf fr /\ fr_dirty fr' = false.
Proof using I F.
  intros E. rewrite (fe_frames _ _ F), changed_lookup, E. cbn [fmap option_fmap option_map].
  destruct (ok_frame _ _ I f fr E) as (Hl & _ & Hp). destruct (decide (f ∈ dirty_frames c)) as [Hd|Hd].
  - exists (flushed fr). do 4 (split; [done|]). split; [by apply refinalize_eqv|done].
  - exists fr. do 5 (split; [done|]). destruct (fr_dirty fr) eqn:Ed; [|done]. exfalso. apply Hd, elem_of_dirty.
    exists fr. split; [done|]. unfold is_dirty. rewrite Ed. destruct (fr_page fr); [done|]. by destruct Hp.
Qed.

Lemma flush_frame_inv f fr' :
  frames c' !! f = Some fr' -> exists fr, frames c !! f = Some fr.
Proof using F. rewrite (fe_frames _ _ F), changed_lookup. destruct (frames c !! f); [eauto|done]. Qed.

(** Frames of the two pools correspond, with the same page. *)
Lemma flush_frames_iff (Q : option Z -> Prop) f :
  (exists fr, frames c' !! f = Some fr /\ Q (fr_page fr)) <-> (exists fr, frames c !! f = Some fr /\ Q (fr_page fr)).
Proof using I F.
  split; intros (fr & E & HQ).
  - destruct (flush_frame_inv _ _ E) as (fr0 & E0). destruct (flush_frame _ _ E0) as (fr1 & E1 & Hp & _).
    rewrite E in E1. injection E1 as <-. exists fr0. by rewrite <- Hp.
  - destruct (flush_frame _ _ E) as (fr1 & E1 & Hp & _). exists fr1. by rewrite Hp.
Qed.

(** What the store holds of a resident page that nobody is writing to. *)
Lemma flush_stored f fr id :
  frames c !! f = Some fr -> fr_page fr = Some id -> fr_writer fr = false ->
  opt_eqv (stored (block c') id) (Some (fr_buf fr)).
Proof using I F CRCcok.
  intros Ef Hp Hw. destruct (ok_frame _ _ I f fr Ef) as (Hl & _ & Hu). rewrite Hp in Hu. destruct Hu as [Hu Hc].
  destruct (decide (f ∈ dirty_frames c)) as [Hd|Hd].
  - rewrite (stored_finalized _ id (fr_buf fr) Hl (fe_in _ _ F f fr id Hd Ef Hp)). constructor.
    by apply (refinalize_eqv fr).
  - rewrite (stored_read (block c) (block c') id); [apply Hc; [|done]|].
    + destruct (fr_dirty fr) eqn:Edd; [|done]. exfalso. apply Hd, elem_of_dirty. exists fr. split; [done|].
      unfold is_dirty. by rewrite Edd, Hp.
    + apply (fe_out _ _ F); [done|]. intros f' fr' Hd' E' Hp'.
      rewrite (table_inj _ _ f f' fr fr' id I) in Hd; done.
Qed.

Lemma flush_unresident id :
  bs_used (block c) id -> table c !! id = None -> stored (block c') id = stored (block c) id.
Proof using I F.
  intros Hu Ht. apply stored_read, (fe_out _ _ F); [done|]. intros f fr _ Ef Hp.
  assert (table c !! id = Some f) by (apply (ok_table _ _ I); eauto). congruence.
Qed.

Lemma flush_frame_ok f fr' : frames c' !! f = Some fr' -> frame_ok (block c') fr'.
Proof using I F CRCcok.
  intros Hf. destruct (flush_frame_inv _ _ Hf) as (fr & Ef).
  destruct (flush_frame _ _ Ef) as (fr1 & E1 & Hp & Hr & Hw & Hb & Hd).
  rewrite Hf in E1. injection E1 as <-. destruct (ok_frame _ _ I f fr Ef) as (Hl & H0 & Hpage).
  split; [by rewrite Hb|]. split; [unfold frame_pin; by rewrite Hr, Hw|]. rewrite Hp. destruct (fr_page fr) as [id|] eqn:Ep.
  - destruct Hpage as [Hu _]. split; [by apply (fe_used _ _ F)|]. intros _ Hw'. rewrite Hw in Hw'.
    etrans; [by apply (flush_stored f fr)|]. constructor. by symmetry.
  - split; [|done]. unfold unpinned in *. rewrite Hr, Hw. by destruct Hpage.
Qed.

Lemma flush_inv : cache_inv held c'.
Proof using I F CRCcok.
  destruct F as [Ffr Ft Ffree Fp Fw _ _ _ Fj _]. split; rewrite ?Ft, ?Ffree, ?Fp.
  - exact Fw.
  - apply (ok_policy _ _ I).
  - intros id f. rewrite (ok_table _ _ I id f). symmetry. apply (flush_frames_iff (fun o => o = Some id)).
  - apply flush_frame_ok.
  - intros f. rewrite (ok_free _ _ I f). by rewrite (flush_frames_iff (fun o => o = None)).
  - apply (ok_nodup _ _ I).
  - intros f. rewrite (ok_tracked _ _ I f). by rewrite (flush_frames_iff is_Some).
  - exact Fj.
Qed.

Lemma flush_same_pool : same_pool c c'.
Proof using I F CRCcok.
  split.
  - intros id Hu. split; [by apply (fe_used _ _ F)|]. unfold view. rewrite (fe_table _ _ F).
    destruct (table c !! id) as [f|] eqn:Et; [|by rewrite flush_unresident].
    apply (ok_table _ _ I) in Et as (fr & Ef & Hp).
    destruct (flush_frame _ _ Ef) as (fr1 & E1 & _ & _ & _ & Hb & _).
    rewrite Ef, E1. constructor. by symmetry.
  - split; [|by rewrite (fe_table _ _ F)]. unfold pins. rewrite (fe_frames _ _ F). apply list_eq. intros f. rewrite !list_lookup_fmap, changed_lookup.
    destruct (frames c !! f) as [fr|]; [|done]. cbn. by case_decide.
Qed.
End flush_effect.

(** A page no handle is writing to. *)
Definition quiet (c : Inner) (id : Z) : Prop :=
  forall f fr, frames c !! f = Some fr -> fr_page fr = Some id -> fr_writer fr = false.

(** A flush succeeds, changes no page, leaves every frame clean and every page
    nobody writes to on the store. *)
Lemma flush_spec env held (c : Inner) :
  (forall n, env n = io_fine) -> cache_inv held c ->
  exists c', flush env c = (c', Ok tt) /\ flush_effect c c' /\ cache_inv held c' /\ same_pool c c'
    /\ (forall f fr, frames c' !! f = Some fr -> fr_dirty fr = false)
    /\ (forall id, bs_used (block c) id -> quiet c id -> opt_eqv (stored (block c') id) (view c id)).
Proof.
  intros Henv I. destruct (flush_run env held c Henv I) as (c' & E & F). exists c'.
  split; [done|]. split; [done|]. split; [by apply (flush_inv held c)|]. split; [by apply (flush_same_pool held)|].
  split.
  - intros f fr Hf. destruct (flush_frame_inv c c' F _ _ Hf) as (fr0 & E0).
    destruct (flush_frame held c c' I F _ _ E0) as (fr1 & E1 & _ & _ & _ & _ & Hd). congruence.
  - intros id Hu Hw. unfold view. destruct (table c !! id) as [f|] eqn:Et.
    + apply (ok_table _ _ I) in Et as (fr & Ef & Hp). rewrite Ef. apply (flush_stored held c c' I F f); [done|done|].
      by apply (Hw f).
    + by rewrite (flush_unresident held c).
Qed.

(** ** Finding a frame *)

(** A change of the policy's order, of the free list's frame. *)
Lemma set_policy_ok held (c : Inner) p :
  cache_inv held c -> policy_wf p -> (forall f, f ∈ tracked p <-> f ∈ tracked (policy c)) ->
  cache_inv held (set_policy p c) /\ same_pool c (set_policy p c).
Proof.
  intros [I1 I2 I3 I4 I5 I6 I7 I8] Hp Ht. split; [|by split; [|split]].
  split; try done. intros f. cbn [policy set_policy frames]. by rewrite Ht.
Qed.

Lemma pick_spec b held (c : Inner) :
  cache_inv held c ->
  exists c' o, pick_evictable b c = (c', Ok o) /\ cache_inv held c' /\ same_pool c c'
    /\ frames c' = frames c /\ free c' = free c
    /\ match o with
       | Some f => exists fr, frames c !! f = Some fr /\ is_Some (fr_page fr) /\ unpinned fr = true
                     /\ (b = true -> fr_dirty fr = false)
       | None => forall f fr, frames c !! f = Some fr -> is_Some (fr_page fr) ->
                   unpinned fr = true -> b = true /\ fr_dirty fr = true
       end.
Proof.
  intros I. pose proof (ok_policy _ _ I) as Hp. unfold pick_evictable. set (ok := evictable c b).
  pose proof (fun id => evict_some ok _ id Hp) as Hs. pose proof (evict_none ok _ Hp) as Hn.
  pose proof (wf_evict ok _ Hp) as Hw. pose proof (tracked_evict ok _ Hp) as Ht.
  destruct (evict_candidate ok (policy c)) as [o p]. cbn [fst snd] in *.
  destruct (set_policy_ok held c p I Hw) as [I' S']; [intros f; by rewrite Ht|].
  exists (set_policy p c), o. do 5 (split; [done|]). destruct o as [f|].
  - specialize (Hs f eq_refl) as [Htr Hok]. apply (ok_tracked _ _ I) in Htr as (fr & E & Hpg).
    unfold ok, evictable in Hok. rewrite E in Hok. apply andb_true_iff in Hok as [Hu Hd]. exists fr.
    do 3 (split; [done|]). intros ->. by destruct (fr_dirty fr).
  - intros f fr E Hpg Hu. assert (Htr : f ∈ tracked (policy c)) by (apply (ok_tracked _ _ I); eauto).
    specialize (Hn eq_refl f Htr). unfold ok, evictable in Hn. rewrite E, Hu in Hn. cbn in Hn.
    destruct b, (fr_dirty fr); done.
Qed.

Lemma reclaim_spec f fr (c : Inner) :
  cache_inv None c -> frames c !! f = Some fr -> is_Some (fr_page fr) -> unpinned fr = true -> fr_dirty fr = false ->
  exists c' fr', reclaim f c = (c', Ok f) /\ cache_inv (Some f) c' /\ same_pool c c'
    /\ frames c' !! f = Some fr' /\ fr_page fr' = None.
Proof.
  intros I E [id Hp] Hu Hd. set (g := fun fr => MkFrame None (fr_buf fr) 0 false false).
  set (c' := MkInner (block c) (alter g f (frames c)) (delete id (table c)) (free c)
               (policy_remove f (policy c)) (journal c)).
  exists c', (g fr). split; [|split; [|split; [|split; [|done]]]].
  - unfold reclaim. erewrite sr_bind_ok; [|unfold frame_at; by rewrite E]. rewrite Hp. done.
  - destruct I as [I1 I2 I3 I4 I5 I6 I7 I8].
    assert (Ht : table c !! id = Some f) by (apply I3; eauto).
    split; cbn [block policy table frames free journal c']; try done.
    + by apply wf_remove.
    + intros i f'. rewrite lookup_delete_Some, I3, list_lookup_alter. destruct (decide (f = f')) as [<-|Hne].
      * rewrite E. cbn. split; [|by intros (? & [= <-] & ?)]. intros [Hi (fr' & [= <-] & Hp')]. congruence.
      * split; [by intros [_ ?]|]. intros H. split; [|done]. intros <-.
        destruct H as (fr' & E' & Hp'). assert (table c !! id = Some f') by (apply I3; eauto). congruence.
    + intros f' fr'. rewrite list_lookup_alter. case_decide; [subst|by apply I4].
      rewrite E. intros [= <-]. destruct (I4 f' fr E) as (Hl & _). by split.
    + intros f'. rewrite I5, list_lookup_alter. destruct (decide (f = f')) as [<-|Hne].
      * rewrite E. split; [intros [_ (? & [= <-] & ?)]; congruence|]. by intros [[] _].
      * split; intros [_ H]; (split; [congruence|done]).
    + intros f'. rewrite (tracked_remove f _ f') by done. rewrite I7, list_lookup_alter.
      destruct (decide (f = f')) as [<-|Hne].
      * rewrite E. split; [by intros [[] _]|]. intros (? & [= <-] & ?%is_Some_None). done.
      * split; [by intros [_ ?]|]. by split.
  - split.
    + intros i Hui. split; [done|]. unfold view. cbn [table frames block c']. destruct (decide (i = id)) as [->|Hne].
      * assert (Ht : table c !! id = Some f) by (apply (ok_table _ _ I); eauto). rewrite Ht, E, lookup_delete_eq.
        destruct (ok_frame _ _ I f fr E) as (_ & _ & Hs). rewrite Hp in Hs. symmetry. apply Hs; [done|].
        unfold unpinned in Hu. by destruct (fr_writer fr); [rewrite andb_false_r in Hu|].
      * rewrite lookup_delete_ne by done. destruct (table c !! i) as [f'|] eqn:Et; [|done].
        rewrite list_lookup_alter. case_decide; [subst|done]. rewrite E. done.
    + split; [|intros i Hi; cbn [table c']; by rewrite lookup_delete_None; right].
      unfold pins. cbn [frames c']. apply list_eq. intros f'. rewrite !list_lookup_fmap, list_lookup_alter.
      case_decide; [subst|done]. rewrite E. cbn. f_equal. unfold unpinned in Hu.
      apply andb_true_iff in Hu as [Hr%Z.eqb_eq Hw]. by destruct (fr_writer fr); rewrite ?Hr.
  - cbn [frames c']. by rewrite list_lookup_alter_eq, E.
Qed.

(** Every frame is pinned. *)
Definition all_pinned (c : Inner) : Prop := forall f fr, frames c !! f = Some fr -> unpinned fr = false.

(** What an operation that needs a frame comes back with. *)
Definition frame_result (c c' : Inner) (r : res Error nat) : Prop :=
  same_pool c c' /\
  match r with
  | Ok f => cache_inv (Some f) c' /\ exists fr, frames c' !! f = Some fr /\ fr_page fr = None
  | Err e => cache_inv None c' /\ e = EPoolExhausted (Z.of_nat (length (frames c))) /\ all_pinned c
  | Panic => False
  end.

Lemma pop_spec f rest (c : Inner) :
  cache_inv None c -> free c = rest ++ [f] ->
  cache_inv (Some f) (set_free rest c) /\ same_pool c (set_free rest c)
  /\ exists fr, frames c !! f = Some fr /\ fr_page fr = None.
Proof.
  intros [I1 I2 I3 I4 I5 I6 I7 I8] E. rewrite E in I6. apply NoDup_app in I6 as (Hd & Hx & _).
  assert (Hf : f ∉ rest) by (intros Hf; apply (Hx f Hf); by left).
  split; [|split; [by split; [|split]|]].
  - split; cbn [block policy table frames free journal set_free]; try done.
    intros f'. specialize (I5 f'). rewrite E, elem_of_app, list_elem_of_singleton in I5. split.
    + intros Hr. split; [by intros [= ->]|]. apply I5. by left.
    + intros [Hne Hfr]. destruct I5 as [_ I5]. destruct I5 as [|Hy]; [by split|done|congruence].
  - apply I5. rewrite E. apply elem_of_app. right. by left.
Qed.

(** With an empty free list, every frame holds a page. *)
Lemma no_free_page (c : Inner) f fr :
  cache_inv None c -> free c = [] -> frames c !! f = Some fr -> is_Some (fr_page fr).
Proof.
  intros I Hf E. destruct (fr_page fr) eqn:Ep; [done|]. exfalso.
  assert (Hin : f ∈ free c) by (apply (ok_free _ _ I); split; [done|eauto]). rewrite Hf in Hin. by apply not_elem_of_nil in Hin.
Qed.

Lemma reclaim_result f fr (c0 c : Inner) :
  cache_inv None c -> same_pool c0 c -> frames c !! f = Some fr -> is_Some (fr_page fr) ->
  unpinned fr = true -> fr_dirty fr = false ->
  exists c' r, reclaim f c = (c', r) /\ frame_result c0 c' r.
Proof.
  intros I S E Hp Hu Hd. destruct (reclaim_spec f fr c I E Hp Hu Hd) as (c' & fr' & Er & I' & S' & E' & Hp').
  exists c', (Ok f). split; [done|]. split; [by etrans|]. split; [done|eauto].
Qed.

Lemma same_pool_length c c' : same_pool c c' -> length (frames c') = length (frames c).
Proof. intros (_ & H & _). apply (f_equal length) in H. unfold pins in H. by rewrite !length_fmap in H. Qed.

Lemma same_pool_unpinned c c' f fr fr' :
  same_pool c c' -> frames c !! f = Some fr -> frames c' !! f = Some fr' -> unpinned fr' = unpinned fr.
Proof.
  intros (_ & H & _) E E'. apply (f_equal (.!! f)) in H. unfold pins in H.
  rewrite !list_lookup_fmap, E, E' in H. injection H as Hr Hw. unfold unpinned. by rewrite Hr, Hw.
Qed.

Lemma victim_spec env (c : Inner) :
  (forall n, env n = io_fine) -> cache_inv None c ->
  exists c' r, victim_frame env c = (c', r) /\ frame_result c c' r.
Proof.
  intros Henv I. unfold victim_frame. rewrite sr_bind_get.
  destruct (vec_pop (free c)) as [[f rest]|] eqn:Ep.
  { apply vec_pop_some in Ep. destruct (pop_spec f rest c I Ep) as (I' & S' & Hfr).
    exists (set_free rest c), (Ok f). split; [done|]. by split. }
  apply vec_pop_none in Ep. destruct (pick_spec true None c I) as (c1 & o & E1 & I1 & S1 & F1 & Fr1 & Ho).
  rewrite (sr_bind_ok _ _ _ _ _ E1). destruct o as [f|].
  { destruct Ho as (fr & E & Hp & Hu & Hd). rewrite <- F1 in E. apply (reclaim_result f fr); auto. }
  rewrite sr_bind_get. rewrite F1.
  destruct (existsb _ (frames c)) eqn:Ex.
  - destruct (flush_spec env None c1 Henv I1) as (c2 & E2 & F2 & I2 & S2 & Hclean & _).
    rewrite (sr_bind_ok _ _ _ _ _ E2).
    destruct (pick_spec false None c2 I2) as (c3 & o3 & E3 & I3 & S3 & F3 & _ & Ho3).
    rewrite (sr_bind_ok _ _ _ _ _ E3). destruct o3 as [f|].
    + destruct Ho3 as (fr & E & Hp & Hu & _). rewrite <- F3 in E. apply (reclaim_result f fr); try done.
      * by repeat (etrans; [eassumption|]).
      * rewrite F3 in E. by apply (Hclean f).
    + apply existsb_exists in Ex as (fr & Hin%list_elem_of_In%list_elem_of_lookup & [Hu Hd]%andb_true_iff).
      destruct Hin as [f E]. assert (Hp := no_free_page _ _ _ I Ep E). rewrite <- F1 in E.
      destruct (flush_frame None c1 c2 I1 F2 f fr E) as (fr2 & E4 & Hp2 & _).
      exfalso. destruct (Ho3 f fr2 E4) as [? _]; [by rewrite Hp2| |done].
      by rewrite (same_pool_unpinned _ _ f fr fr2 S2 E E4).
  - exists c1, (Err (EPoolExhausted (Z.of_nat (length (frames c))))). split.
    { unfold pool_exhausted. rewrite sr_bind_get. by rewrite F1. }
    split; [done|]. split; [done|]. split; [done|]. intros f fr E.
    destruct (unpinned fr) eqn:Hu; [|done]. destruct (Ho f fr E (no_free_page _ _ _ I Ep E) Hu) as [_ Hd].
    rewrite <- Ex. symmetry. apply existsb_exists. exists fr. split; [|by rewrite Hu, Hd].
    apply list_elem_of_In, list_elem_of_lookup. eauto.
Qed.

(** ** Installing and changing frames *)

(** A frame's page put into the table, as [acquire_*] and [allocate] do. *)
Definition installed (f : nat) (id : Z) (fr : Frame) (c : Inner) : Inner :=
  MkInner (block c) (<[f := fr]> (frames c)) (<[id := f]> (table c)) (free c) (record_access f (policy c)) (journal c).

Lemma installed_ok f id fr0 fr (c : Inner) :
  cache_inv (Some f) c -> frames c !! f = Some fr0 -> fr_page fr0 = None -> table c !! id = None ->
  fr_page fr = Some id -> frame_ok (block c) fr ->
  cache_inv None (installed f id fr c).
Proof.
  intros [I1 I2 I3 I4 I5 I6 I7 I8] E0 Hp0 Ht Hp Hok.
  assert (Hlt : (f < length (frames c))%nat) by (by eapply lookup_lt_Some).
  split; cbn [block policy table frames free journal installed]; try done.
  - by apply wf_access.
  - intros i f'. rewrite lookup_insert, list_lookup_insert. destruct (decide (id = i)) as [<-|Hne].
    + split.
      * intros [= <-]. exists fr. rewrite decide_True by done. done.
      * intros (fr' & E' & Hp'). case_decide as Hd; [by destruct Hd as [-> _]|].
        assert (table c !! id = Some f') by (apply I3; eauto). congruence.
    + rewrite I3. case_decide as Hd; [destruct Hd as [<- _]|done].
      split; intros (fr' & E' & Hp'); [congruence|]. injection E' as <-. congruence.
  - intros f' fr'. rewrite list_lookup_insert. case_decide; [by intros [= <-]|]. apply I4.
  - intros f'. rewrite I5, list_lookup_insert. destruct (decide (f = f' /\ (f < length (frames c))%nat)) as [[<- _]|Hd].
    + split; [by intros [[] _]|]. intros (_ & fr' & [= <-] & Hp'). congruence.
    + split; intros [_ H]; (split; [|done]); [done|]. intros [= <-]. by apply Hd.
  - intros f'. rewrite (tracked_access f _ f') by done. rewrite I7, list_lookup_insert.
    destruct (decide (f = f' /\ (f < length (frames c))%nat)) as [[<- _]|Hd].
    + split; [|by left]. intros _. exists fr. by rewrite Hp.
    + split; [|by right]. intros [->|]; [by destruct Hd|done].
Qed.

Lemma installed_view f id fr i (c : Inner) :
  cache_inv (Some f) c -> (exists fr0, frames c !! f = Some fr0 /\ fr_page fr0 = None) ->
  view (installed f id fr c) i = if decide (i = id) then Some (fr_buf fr) else view c i.
Proof.
  intros I (fr0 & E0 & Hp0). assert (Hlt : (f < length (frames c))%nat) by (by eapply lookup_lt_Some).
  unfold view. cbn [installed table frames block]. rewrite lookup_insert.
  destruct (decide (i = id)) as [->|Hne].
  - rewrite decide_True by done. by rewrite list_lookup_insert_eq.
  - rewrite decide_False by done. destruct (table c !! i) as [f'|] eqn:Et; [|done].
    rewrite list_lookup_insert_ne; [done|]. intros <-.
    apply (ok_table _ _ I) in Et as (fr' & E' & Hp'). congruence.
Qed.

Lemma installed_pins f id fr (c : Inner) :
  pins (installed f id fr c) = <[f := (fr_readers fr, fr_writer fr)]> (pins c).
Proof. unfold pins. cbn [installed frames]. by rewrite list_fmap_insert. Qed.

(** A resident frame changed in place, with the policy told or not. *)
Lemma changed_frame_ok held f id fr fr' p (c : Inner) :
  cache_inv held c -> frames c !! f = Some fr -> fr_page fr = Some id -> fr_page fr' = Some id ->
  frame_ok (block c) fr' -> policy_wf p -> (forall x, x ∈ tracked p <-> x ∈ tracked (policy c)) ->
  cache_inv held (set_policy p (set_frames (<[f := fr']> (frames c)) c)).
Proof.
  intros [I1 I2 I3 I4 I5 I6 I7 I8] E Hp Hp' Hok Wp Tp.
  assert (Hlt : (f < length (frames c))%nat) by (by eapply lookup_lt_Some).
  assert (Hiff : forall (Q : option Z -> Prop) g,
            (exists x, <[f := fr']> (frames c) !! g = Some x /\ Q (fr_page x))
            <-> (exists x, frames c !! g = Some x /\ Q (fr_page x))).
  { intros Q g. rewrite list_lookup_insert. case_decide as Hd; [destruct Hd as [<- _]|done].
    rewrite E. split; intros (x & [= <-] & HQ); eexists; (split; [done|]); congruence. }
  split; cbn [block policy table frames free journal set_policy set_frames]; try done.
  - intros i g. rewrite (Hiff (fun o => o = Some i)). apply I3.
  - intros g x. rewrite list_lookup_insert. case_decide; [by intros [= <-]|]. apply I4.
  - intros g. rewrite (Hiff (fun o => o = None)). apply I5.
  - intros g. rewrite (Hiff is_Some), Tp. apply I7.
Qed.

Lemma changed_frame_view held f id fr fr' p i (c : Inner) :
  cache_inv held c -> frames c !! f = Some fr -> fr_page fr = Some id ->
  view (set_policy p (set_frames (<[f := fr']> (frames c)) c)) i = if decide (i = id) then Some (fr_buf fr') else view c i.
Proof.
  intros I E Hp. assert (Hlt : (f < length (frames c))%nat) by (by eapply lookup_lt_Some).
  unfold view. cbn [table frames block set_policy set_frames].
  assert (Ht : table c !! id = Some f) by (apply (ok_table _ _ I); eauto).
  destruct (decide (i = id)) as [->|Hne].
  - rewrite Ht. by rewrite list_lookup_insert_eq.
  - destruct (table c !! i) as [f'|] eqn:Et; [|done]. rewrite list_lookup_insert_ne; [done|].
    intros <-. apply (ok_table _ _ I) in Et as (x & Ex & Hx). congruence.
Qed.

(** ** Acquiring *)

Definition pin_read (p : Z * bool) : Z * bool := (p.1 + 1, p.2).
Definition unpin_read (p : Z * bool) : Z * bool := (p.1 - 1, p.2).
Definition pin_write (p : Z * bool) : Z * bool := (p.1, true).
Definition unpin_write (p : Z * bool) : Z * bool := (p.1, false).

(** Some handle holds [id]; some handle writes to it. *)
Definition pinned (c : Inner) (id : Z) : Prop :=
  exists f fr, frames c !! f = Some fr /\ fr_page fr = Some id /\ unpinned fr = false.

(** The outcome of [acquire_read] and [acquire_write] on a page in use. *)
Definition acquired (g : Z * bool -> Z * bool) (busy : Inner -> Z -> Prop) (id : Z) (c c' : Inner) (r : res Error nat) : Prop :=
  cache_inv None c' /\ keeps c c' /\
  match r with
  | Ok f => pins c' = alter g f (pins c)
      /\ exists fr, frames c' !! f = Some fr /\ fr_page fr = Some id /\ opt_eqv (view c id) (Some (fr_buf fr))
  | Err e => pins c' = pins c
      /\ ((e = EBusy id /\ busy c id) \/ (e = EPoolExhausted (Z.of_nat (length (frames c))) /\ all_pinned c))
  | Panic => False
  end.

Lemma pins_lookup (c : Inner) f fr : frames c !! f = Some fr -> pins c !! f = Some (frame_pin fr).
Proof. intros E. unfold pins. by rewrite list_lookup_fmap, E. Qed.

Lemma changed_frame_pins g f fr fr' p (c : Inner) :
  frames c !! f = Some fr -> frame_pin fr' = g (frame_pin fr) ->
  pins (set_policy p (set_frames (<[f := fr']> (frames c)) c)) = alter g f (pins c).
Proof.
  intros E Hg. rewrite (alter_insert_lookup _ _ _ _ (pins_lookup _ _ _ E)), <- Hg.
  unfold pins. cbn [frames set_policy set_frames]. by rewrite list_fmap_insert.
Qed.

(** A page that is resident: the frame is pinned in place. *)
Lemma hit_spec g busy f fr fr' id (c : Inner) :
  cache_inv None c -> frames c !! f = Some fr -> fr_page fr = Some id ->
  fr' = MkFrame (Some id) (fr_buf fr) (g (frame_pin fr)).1 (g (frame_pin fr)).2 (fr_dirty fr) ->
  latch_ok (g (frame_pin fr)) -> (fr_writer fr = true -> (g (frame_pin fr)).2 = true) ->
  acquired g busy id c
    (set_policy (record_access f (policy c)) (set_frames (<[f := fr']> (frames c)) c)) (Ok f).
Proof.
  intros I E Hp -> H0 Hw. set (fr' := MkFrame _ _ _ _ _).
  pose proof (ok_policy _ _ I) as Wp. destruct (ok_frame _ _ I f fr E) as (Hl & _ & Hc). rewrite Hp in Hc.
  assert (Hlt : (f < length (frames c))%nat) by (by eapply lookup_lt_Some).
  split; [|split; [|split]].
  - apply (changed_frame_ok None f id fr fr'); try done.
    + destruct Hc as [Hu Hc]. split; [done|]. split; [done|]. cbn. split; [done|]. intros Hd Hw'. apply Hc; [done|].
      destruct (fr_writer fr); [|done]. cbn in Hw'. by rewrite Hw in Hw'.
    + by apply wf_access.
    + intros x. rewrite (tracked_access f _ x) by done. split; [|by right]. intros [->|]; [|done].
      apply (ok_tracked _ _ I). exists fr. by rewrite Hp.
  - intros i Hu. split; [done|]. rewrite (changed_frame_view None f id fr fr') by done.
    destruct (decide (i = id)) as [->|]; [|done].
    unfold view. rewrite (proj2 (ok_table _ _ I id f)) by eauto. rewrite E. done.
  - apply (changed_frame_pins g f fr); [done|]. unfold fr', frame_pin at 1. cbn. by destruct (g (frame_pin fr)).
  - exists fr'. cbn [frames set_policy set_frames]. rewrite list_lookup_insert_eq by done. split; [done|]. split; [done|].
    unfold view. rewrite (proj2 (ok_table _ _ I id f)) by eauto. by rewrite E.
Qed.

(** The rest of an acquire once the page is not resident. *)
Definition miss env (h : Frame -> Frame) (id : Z) : SR Inner Error nat :=
  f ← victim_frame env; _ ← load_or_free f id; _ ← on_frame f h; _ ← enter f id; mret f.

Lemma load_ok f id b (c : Inner) :
  stored (block c) id = Some b ->
  load_or_free f id c = (set_frames (alter (with_buf b) f (frames c)) c, Ok tt).
Proof.
  unfold stored. destruct (bs_read (block c) id) as [b0| |] eqn:E; [|done..].
  destruct (verify_checksum b0 id) as [[]| |] eqn:Ev; [|done..]. intros [= ->].
  unfold load_or_free, load. rewrite sr_bind_get. erewrite sr_bind_ok; [|unfold sr_lift; by rewrite E].
  unfold on_frame. rewrite sr_bind_modify. unfold sr_lift. by rewrite Ev.
Qed.

Lemma miss_spec env g busy h id (c : Inner) :
  (forall n, env n = io_fine) -> cache_inv None c -> bs_used (block c) id -> is_Some (view c id) ->
  table c !! id = None -> latch_ok (g (0, false)) ->
  (forall fr, unpinned fr = true -> h fr = MkFrame (Some id) (fr_buf fr) (g (0, false)).1 (g (0, false)).2 (fr_dirty fr)) ->
  exists c' r, miss env h id c = (c', r) /\ acquired g busy id c c' r.
Proof.
  intros Henv I Hu [b0 Hv] Ht H0 Hh. unfold miss.
  destruct (victim_spec env c Henv I) as (c1 & r & E1 & (K1 & P1 & T1) & Hr).
  destruct r as [f|e|]; [| |done].
  2:{ exists c1, (Err e). split; [by apply sr_bind_err|]. destruct Hr as (I1 & -> & Hall).
      split; [done|]. split; [done|]. split; [done|]. right. done. }
  destruct Hr as (I1 & fr0 & E0 & Hp0). rewrite (sr_bind_ok _ _ _ _ _ E1).
  destruct (K1 id Hu) as [Hu1 Hv1]. specialize (T1 id Ht). rewrite Hv in Hv1. unfold view in Hv1. rewrite T1 in Hv1.
  inversion Hv1 as [x b Hb Hx Hs|]; subst x. rewrite (sr_bind_ok _ _ _ _ _ (load_ok f id b c1 (eq_sym Hs))).
  destruct (ok_frame _ _ I1 f fr0 E0) as (Hl0 & Hr0 & Hf0). rewrite Hp0 in Hf0. destruct Hf0 as [Hun Hd].
  set (fr := MkFrame (Some id) b (g (0, false)).1 (g (0, false)).2 false).
  exists (installed f id fr c1), (Ok f). split.
  { unfold on_frame. rewrite sr_bind_modify. cbn [frames set_frames].
    rewrite (alter_insert_lookup (with_buf b) _ _ _ E0).
    rewrite (alter_insert_lookup h f _ (with_buf b fr0)) by (by rewrite list_lookup_insert_eq by (by eapply lookup_lt_Some)).
    rewrite list_insert_insert_eq, Hh by done. cbn [fr_buf with_buf fr_dirty]. rewrite Hd. done. }
  assert (Hlt : (f < length (frames c1))%nat) by (by eapply lookup_lt_Some).
  split; [|split; [|split]].
  - apply (installed_ok f id fr0 fr); try done. split; [by eapply stored_length; [apply (ok_store _ _ I1)|]|].
    split; [done|]. cbn. split; [done|]. intros _ _. rewrite <- Hs. done.
  - intros i Hui. destruct (K1 i Hui) as [Hui1 Hvi]. split; [done|]. rewrite installed_view by eauto.
    destruct (decide (i = id)) as [->|]; [|done]. rewrite Hv. by constructor.
  - rewrite installed_pins, P1. symmetry. cbn [fr_readers fr_writer fr].
    rewrite <- P1. rewrite (alter_insert_lookup _ _ _ _ (pins_lookup _ _ _ E0)).
    unfold frame_pin. unfold unpinned in Hun. apply andb_true_iff in Hun as [Hz%Z.eqb_eq Hw].
    rewrite Hz. destruct (fr_writer fr0); [done|]. by destruct (g (0, false)).
  - exists fr. cbn [installed frames]. rewrite list_lookup_insert_eq by done. split; [done|]. split; [done|].
    rewrite Hv. by constructor.
Qed.

(** A handle is writing to [id]. *)
Definition writing (c : Inner) (id : Z) : Prop :=
  exists f fr, frames c !! f = Some fr /\ fr_page fr = Some id /\ fr_writer fr = true.

Lemma busy_spec g (busy : Inner -> Z -> Prop) id (c : Inner) :
  cache_inv None c -> busy c id -> acquired g busy id c c (Err (EBusy id)).
Proof. intros I H. split; [done|]. split; [done|]. split; [done|]. by left. Qed.

Section acquire.
Context (env : nat -> io_env) (Henv : forall n, env n = io_fine).
Context (c : Inner) (I : cache_inv None c) (id : Z) (Hu : bs_used (block c) id) (Hv : is_Some (view c id)).

Lemma acquire_read_spec :
  exists c' r, acquire_read env id c = (c', r) /\ acquired pin_read writing id c c' r.
Proof using Henv I Hu Hv CRCcok CRCok BSok EPok.
  unfold acquire_read. rewrite sr_bind_get. destruct (table c !! id) as [f|] eqn:Et.
  - apply (ok_table _ _ I) in Et as (fr & E & Hp). erewrite sr_bind_ok; [|unfold frame_at; by rewrite E].
    destruct (fr_writer fr) eqn:Ew.
    + exists c, (Err (EBusy id)). split; [done|]. apply busy_spec; [done|]. exists f, fr. done.
    + exists (set_policy (record_access f (policy c)) (set_frames (<[f := with_readers (fr_readers fr + 1) fr]> (frames c)) c)), (Ok f).
      split; [unfold on_frame; by rewrite sr_bind_modify, (alter_insert_lookup _ _ _ _ E)|].
      apply (hit_spec pin_read writing f fr); try done.
      * unfold with_readers. by rewrite Hp.
      * destruct (ok_frame _ _ I f fr E) as (_ & [H0 _] & _). cbn in H0. split; cbn; [lia|]. by rewrite Ew.
  - apply (miss_spec env pin_read writing (fun fr => with_readers 1 (with_page (Some id) fr))); try done.
    intros fr Hun. unfold unpinned in Hun. apply andb_true_iff in Hun as [_ Hw].
    unfold with_readers, with_page. cbn. by destruct (fr_writer fr).
Qed.

Lemma acquire_write_spec :
  exists c' r, acquire_write env id c = (c', r) /\ acquired pin_write pinned id c c' r.
Proof using Henv I Hu Hv CRCcok CRCok BSok EPok.
  unfold acquire_write. rewrite sr_bind_get. destruct (table c !! id) as [f|] eqn:Et.
  - apply (ok_table _ _ I) in Et as (fr & E & Hp). erewrite sr_bind_ok; [|unfold frame_at; by rewrite E].
    destruct (ok_frame _ _ I f fr E) as (_ & [H0 _] & _). cbn in H0.
    destruct (fr_writer fr || (0 <? fr_readers fr)) eqn:Eb.
    + exists c, (Err (EBusy id)). split; [done|]. apply busy_spec; [done|]. exists f, fr. split; [done|]. split; [done|].
      unfold unpinned. apply orb_true_iff in Eb as [->|Eb%Z.ltb_lt]; [by rewrite andb_false_r|].
      by rewrite (proj2 (Z.eqb_neq _ _)) by lia.
    + apply orb_false_iff in Eb as [Ew Er%Z.ltb_ge].
      exists (set_policy (record_access f (policy c)) (set_frames (<[f := with_writer true fr]> (frames c)) c)), (Ok f).
      split; [unfold on_frame; by rewrite sr_bind_modify, (alter_insert_lookup _ _ _ _ E)|].
      apply (hit_spec pin_write pinned f fr); try done.
      * unfold with_writer. by rewrite Hp.
      * split; cbn; [done | lia].
  - apply (miss_spec env pin_write pinned (fun fr => with_writer true (with_page (Some id) fr))); try done.
    intros fr Hun. unfold unpinned in Hun. apply andb_true_iff in Hun as [Hr%Z.eqb_eq _].
    unfold with_writer, with_page. cbn. by rewrite Hr.
Qed.
End acquire.

(** ** Allocating, writing, releasing *)

(** The store grew by allocations and nothing else. *)
Lemma set_block_ok held v (c : Inner) :
  cache_inv held c -> bs_wf v -> bs_extends bs_used (block c) v ->
  cache_inv held (set_block v c) /\ same_pool c (set_block v c).
Proof.
  intros I W [Hr Hu]. pose proof I as [I1 I2 I3 I4 I5 I6 I7 I8].
  assert (Hst : forall i, bs_used (block c) i -> stored v i = stored (block c) i).
  { intros i Hi. destruct (bs_read_used _ _ I1 Hi) as (b & Hb & _). apply stored_read.
    by rewrite Hb, (Hr _ _ Hb). }
  split.
  - split; cbn [block policy table frames free journal set_block]; try done.
    intros f fr E. destruct (I4 f fr E) as (Hl & H0 & Hp). split; [done|]. split; [done|].
    destruct (fr_page fr) as [id|]; [|done]. destruct Hp as [Hui Hc]. split; [by apply Hu|].
    intros Hd Hw. rewrite Hst by done. auto.
  - split; [|by split]. intros i Hi. split; [by apply Hu|].
    unfold view. cbn [table frames block set_block]. destruct (table c !! i); [done|]. by rewrite Hst.
Qed.

(** [allocate] hands out an id nobody uses, zeroed and pinned for writing;
    otherwise the pool or the store is exhausted, or ids ran out. *)
Lemma allocate_spec env (c : Inner) :
  (forall n, env n = io_fine) -> cache_inv None c ->
  exists c' r, inner_allocate env c = (c', r) /\
  match r with
  | Ok (id, f) => cache_inv None c' /\ keeps c c' /\ ~ bs_used (block c) id /\ bs_used (block c') id
      /\ pins c' = alter pin_write f (pins c)
      /\ exists fr, frames c' !! f = Some fr /\ fr_page fr = Some id /\ fr_buf fr = zeroed
  | Err e => cache_inv None c' /\ same_pool c c'
      /\ ((exists v, bs_allocate (block c) = (v, Err e))
          \/ (e = EPoolExhausted (Z.of_nat (length (frames c))) /\ all_pinned c))
  | Panic => exists v, bs_allocate (block c) = (v, Panic)
  end.
Proof.
  intros Henv I. unfold inner_allocate, on_block. pose proof (ok_store _ _ I) as W.
  destruct (bs_allocate (block c)) as [v r] eqn:Ea. pose proof (bs_allocate_ok _ _ _ W Ea) as Hr.
  unfold mbind at 1, sr_bind at 1. rewrite Ea. destruct r as [id|e|].
  - destruct Hr as (Wv & Hext & Hu & Hnu). destruct (set_block_ok None v c I Wv Hext) as [I0 S0].
    destruct (victim_spec env (set_block v c) Henv I0) as (c1 & r1 & E1 & (K1 & P1 & T1) & Hr1).
    destruct r1 as [f|e|]; [| |done].
    2:{ exists c1, (Err e). split; [by apply sr_bind_err|]. destruct Hr1 as (I1 & -> & Hall).
        split; [done|]. split; [by etrans; [exact S0|]|]. right. done. }
    destruct Hr1 as (I1 & fr0 & E0 & Hp0). rewrite (sr_bind_ok _ _ _ _ _ E1).
    assert (Hnt : table c1 !! id = None).
    { apply T1. cbn [table set_block]. destruct (table c !! id) as [g|] eqn:Et; [|done]. exfalso.
      apply (ok_table _ _ I) in Et as (x & Ex & Hx). destruct (ok_frame _ _ I g x Ex) as (_ & _ & Hux).
      rewrite Hx in Hux. by destruct Hux. }
    destruct (ok_frame _ _ I1 f fr0 E0) as (_ & Hr0 & Hf0). rewrite Hp0 in Hf0. destruct Hf0 as [Hun _].
    assert (Hz : frame_pin fr0 = (0, false)).
    { unfold unpinned in Hun. apply andb_true_iff in Hun as [Hz%Z.eqb_eq Hw]. unfold frame_pin. rewrite Hz. by destruct (fr_writer fr0). }
    set (fr := MkFrame (Some id) zeroed (fr_readers fr0) true true).
    exists (installed f id fr c1), (Ok (id, f)). split.
    { unfold on_frame. rewrite sr_bind_modify. cbn [frames set_frames]. by rewrite (alter_insert_lookup _ _ _ _ E0). }
    destruct (K1 id Hu) as [Hu1 _].
    split; [|split; [|split; [done|split; [done|split]]]].
    + apply (installed_ok f id fr0 fr); [exact I1 | exact E0 | exact Hp0 | exact Hnt | reflexivity |]. split; [apply length_zeroed|].
      split; [|by split]. injection Hz as Hz _. split; cbn; by rewrite Hz.
    + intros i Hi. destruct S0 as (K0 & _ & _). destruct (K0 i Hi) as [Hi0 V0]. destruct (K1 i Hi0) as [Hi1 V1].
      split; [done|]. rewrite installed_view by eauto. destruct (decide (i = id)) as [->|]; [done|]. by etrans.
    + rewrite installed_pins. change (pins c) with (pins (set_block v c)). rewrite <- P1.
      rewrite (alter_insert_lookup _ _ _ _ (pins_lookup _ _ _ E0)). unfold fr, pin_write. cbn. by injection Hz as ->.
    + exists fr. cbn [installed frames]. rewrite list_lookup_insert_eq by (by eapply lookup_lt_Some). done.
  - exists (set_block v c), (Err e). split; [done|]. destruct Hr as (Wv & Hext).
    destruct (set_block_ok None v c I Wv Hext) as [I0 S0]. split; [done|]. split; [done|]. left. eauto.
  - eexists _, Panic. split; [done|]. eauto.
Qed.

(** A change of a resident frame that keeps its page and its place in the
    policy, with the pins it leaves. *)
Lemma on_frame_spec g f fr fr' id (h : Frame -> Frame) (c : Inner) :
  cache_inv None c -> frames c !! f = Some fr -> fr_page fr = Some id ->
  h fr = fr' -> fr_page fr' = Some id -> frame_ok (block c) fr' -> frame_pin fr' = g (frame_pin fr) ->
  exists c', on_frame f h c = (c', Ok tt) /\ cache_inv None c' /\ block c' = block c
    /\ pins c' = alter g f (pins c) /\ frames c' = <[f := fr']> (frames c)
    /\ (forall i, view c' i = if decide (i = id) then Some (fr_buf fr') else view c i).
Proof.
  intros I E Hp Hh Hp' Hok Hg. pose proof (ok_policy _ _ I) as Wp.
  exists (set_policy (policy c) (set_frames (<[f := fr']> (frames c)) c)). split; [|split; [|split; [done|split; [|split; [done|]]]]].
  - unfold on_frame, sr_modify. rewrite (alter_insert_lookup _ _ _ _ E), Hh. done.
  - by apply (changed_frame_ok None f id fr fr').
  - by apply (changed_frame_pins g f fr).
  - intros i. by apply (changed_frame_view None f id fr fr').
Qed.

Lemma view_frame (c : Inner) f fr id :
  cache_inv None c -> frames c !! f = Some fr -> fr_page fr = Some id -> view c id = Some (fr_buf fr).
Proof. intros I E Hp. unfold view. rewrite (proj2 (ok_table _ _ I id f)) by eauto. by rewrite E. Qed.

(** Writing through a handle changes the page it holds and no other. *)
Lemma wp_set_spec f fr id b (c : Inner) :
  cache_inv None c -> frames c !! f = Some fr -> fr_page fr = Some id -> fr_writer fr = true ->
  length b = BLOCK_SIZE ->
  exists c', wp_set (MkWritePage f id) b c = (c', Ok tt) /\ cache_inv None c' /\ block c' = block c
    /\ pins c' = pins c /\ frames c' = <[f := with_buf b fr]> (frames c)
    /\ (forall i, view c' i = if decide (i = id) then Some b else view c i).
Proof.
  intros I E Hp Hw Hb. destruct (ok_frame _ _ I f fr E) as (_ & H0 & Hpg). rewrite Hp in Hpg.
  destruct (on_frame_spec (fun p => p) f fr (with_buf b fr) id (with_buf b) c) as (c' & E' & I' & B' & P' & F' & V');
    try done.
  - split; [done|]. split; [done|]. cbn. rewrite Hp. split; [by destruct Hpg|]. intros _ Hw'. congruence.
  - exists c'. do 3 (split; [done|]). split; [by rewrite P', list_alter_id|done].
Qed.

Lemma release_write_spec f fr id (c : Inner) :
  cache_inv None c -> frames c !! f = Some fr -> fr_page fr = Some id ->
  exists c', release_write f c = (c', Ok tt) /\ cache_inv None c' /\ block c' = block c
    /\ pins c' = alter unpin_write f (pins c) /\ (forall i, view c' i = view c i).
Proof.
  intros I E Hp. destruct (ok_frame _ _ I f fr E) as (Hl & H0 & Hpg). rewrite Hp in Hpg.
  destruct (on_frame_spec unpin_write f fr (with_dirty true (with_writer false fr)) id
              (fun fr => with_dirty true (with_writer false fr)) c) as (c' & E' & I' & B' & P' & _ & V'); try done.
  - split; [done|]. split; [by split; [apply H0|]|]. cbn. rewrite Hp. split; [by destruct Hpg|done].
  - exists c'. do 4 (split; [done|]). intros i. rewrite V'. case_decide as Hd; [|done]. subst i. symmetry. exact (view_frame c f fr id I E Hp).
Qed.

Lemma release_read_spec f fr id (c : Inner) :
  cache_inv None c -> frames c !! f = Some fr -> fr_page fr = Some id -> 0 < fr_readers fr ->
  exists c', release_read f c = (c', Ok tt) /\ cache_inv None c' /\ block c' = block c
    /\ pins c' = alter unpin_read f (pins c) /\ (forall i, view c' i = view c i).
Proof.
  intros I E Hp Hr. destruct (ok_frame _ _ I f fr E) as (Hl & H0 & Hpg). rewrite Hp in Hpg.
  destruct (on_frame_spec unpin_read f fr (with_readers (fr_readers fr - 1) fr) id
              (with_readers (fr_readers fr - 1)) c) as (c' & E' & I' & B' & P' & _ & V'); try done.
  - split; [done|]. split; [|cbn; by rewrite Hp]. destruct H0 as [_ H0]. cbn in H0.
    split; cbn; [lia|]. intros Hw. specialize (H0 Hw). lia.
  - exists c'. unfold release_read. erewrite sr_bind_ok; [|unfold frame_at; by rewrite E]. do 4 (split; [done|]).
    intros i. rewrite V'. case_decide as Hd; [|done]. subst i. symmetry. exact (view_frame c f fr id I E Hp).
Qed.

(** A fresh pool: every frame free, every page on the store. *)
Lemma build_inv v n p j c :
  bs_wf v -> policy_wf p -> tracked p = [] -> (forall j', j = Some j' -> holds (bj_inner j') []) ->
  build v n p j = Ok c ->
  cache_inv None c /\ block c = v /\ journal c = j /\ length (frames c) = n /\ idle c /\ (forall id, view c id = stored v id).
Proof.
  intros W Wp Ht Hj. unfold build. destruct (Nat.eqb_spec n 0); [done|]. intros [= <-].
  assert (Hfr : forall f fr, replicate n Frame_new !! f = Some fr -> fr = Frame_new /\ (f < n)%nat)
    by (intros f fr H; by apply lookup_replicate_1 in H).
  split; [|split; [done|split; [done|split; [apply length_replicate|split]]]].
  - split; cbn [block policy table frames free journal]; try done.
    + intros id f. rewrite lookup_empty. split; [done|]. by intros (fr & [-> _]%Hfr & ?).
    + intros f fr [-> _]%Hfr. split; [apply length_zeroed|]. by split.
    + intros f. rewrite elem_of_reverse, elem_of_seq. split.
      * intros Hf. split; [done|]. exists Frame_new. rewrite lookup_replicate_2 by lia. done.
      * intros (_ & fr & [_ Hf]%Hfr & _). lia.
    + rewrite reverse_Permutation. apply NoDup_seq.
    + intros f. rewrite Ht. split; [by intros ?%not_elem_of_nil|]. by intros (fr & [-> _]%Hfr & [? ?]).
  - intros f fr E. cbn [frames] in E. by apply Hfr in E as [-> _].
  - done.
Qed.

(** ** Runs

    Every way callers drive a cache over a working disk: start from a store
    that holds the pages they know, acquire such pages, allocate, write through a write handle, drop handles they hold,
    flush.  [m] maps each page to the bytes last written to it. *)
Definition on_store (v : V) (m : gmap Z Block) : Prop :=
  forall id p, m !! id = Some p -> bs_used v id /\ opt_eqv (stored v id) (Some p).

Inductive cache_run (env : nat -> io_env) : Inner -> gmap Z Block -> Prop :=
| run_new v n p j c m :
    bs_wf v -> policy_wf p -> tracked p = [] -> (forall j', j = Some j' -> holds (bj_inner j') []) ->
    on_store v m -> build v n p j = Ok c -> cache_run env c m
| run_read c m id c' r :
    cache_run env c m -> is_Some (m !! id) -> acquire_read env id c = (c', r) -> cache_run env c' m
| run_write c m id c' r :
    cache_run env c m -> is_Some (m !! id) -> acquire_write env id c = (c', r) -> cache_run env c' m
| run_allocate c m c' id f :
    cache_run env c m -> inner_allocate env c = (c', Ok (id, f)) -> cache_run env c' (<[id := zeroed]> m)
| run_allocate_err c m c' e :
    cache_run env c m -> inner_allocate env c = (c', Err e) -> cache_run env c' m
| run_set c m f fr id b c' :
    cache_run env c m -> frames c !! f = Some fr -> fr_page fr = Some id -> fr_writer fr = true ->
    length b = BLOCK_SIZE -> wp_set (MkWritePage f id) b c = (c', Ok tt) -> cache_run env c' (<[id := b]> m)
| run_release_read c m f fr c' :
    cache_run env c m -> frames c !! f = Some fr -> is_Some (fr_page fr) -> 0 < fr_readers fr ->
    release_read f c = (c', Ok tt) -> cache_run env c' m
| run_release_write c m f fr c' :
    cache_run env c m -> frames c !! f = Some fr -> is_Some (fr_page fr) ->
    release_write f c = (c', Ok tt) -> cache_run env c' m
| run_flush c m c' :
    cache_run env c m -> flush env c = (c', Ok tt) -> cache_run env c' m.

(** Every known page is in use and seen with the bytes last written. *)
Definition shows (c : Inner) (m : gmap Z Block) : Prop :=
  forall id p, m !! id = Some p -> bs_used (block c) id /\ opt_eqv (view c id) (Some p).

Lemma shows_keeps c c' m : keeps c c' -> shows c m -> shows c' m.
Proof.
  intros K H id p Hp. destruct (H id p Hp) as [Hu Hv]. destruct (K id Hu) as [Hu' Hv'].
  split; [done|]. by rewrite <- Hv'.
Qed.

Lemma shows_view c c' m :
  block c' = block c -> (forall i, view c' i = view c i) -> shows c m -> shows c' m.
Proof. intros B Hv H id p Hp. rewrite B, Hv. by apply H. Qed.

Lemma run_inv env c m :
  (forall n, env n = io_fine) -> cache_run env c m -> cache_inv None c /\ shows c m.
Proof.
  intros Henv. induction 1 as [v n p j c m W Wp Ht Hj Hm E | c m id c' r _ [I H] [p Hp] E | c m id c' r _ [I H] [p Hp] E
    | c m c' id f _ [I H] E | c m c' e _ [I H] E | c m f fr id b c' _ [I H] Ef Hpg Hw Hb E
    | c m f fr c' _ [I H] Ef [id Hpg] Hr E | c m f fr c' _ [I H] Ef [id Hpg] E | c m c' _ [I H] E].
  - destruct (build_inv v n p j c W Wp Ht Hj E) as (I & B & _ & _ & _ & Hv). split; [done|]. intros id q Hq. rewrite B, Hv. by apply Hm.
  - destruct (H id p Hp) as [Hu Hv]. destruct (acquire_read_spec env Henv c I id Hu) as (c1 & r1 & E1 & I1 & K1 & _).
    { inversion Hv. eauto. } rewrite E in E1. injection E1 as <- <-. eauto using shows_keeps.
  - destruct (H id p Hp) as [Hu Hv]. destruct (acquire_write_spec env Henv c I id Hu) as (c1 & r1 & E1 & I1 & K1 & _).
    { inversion Hv. eauto. } rewrite E in E1. injection E1 as <- <-. eauto using shows_keeps.
  - destruct (allocate_spec env c Henv I) as (c1 & r1 & E1 & Hr). rewrite E in E1. injection E1 as <- <-.
    destruct Hr as (I1 & K1 & Hnu & Hu & _ & fr & Ef & Hpg & Hb). split; [done|].
    intros i q. rewrite lookup_insert. case_decide; [subst|by apply (shows_keeps c)].
    intros [= <-]. split; [done|]. by rewrite (view_frame c' f fr i I1 Ef Hpg), Hb.
  - destruct (allocate_spec env c Henv I) as (c1 & r1 & E1 & Hr). rewrite E in E1. injection E1 as <- <-.
    destruct Hr as (I1 & (K1 & _) & _). eauto using shows_keeps.
  - destruct (wp_set_spec f fr id b c I Ef Hpg Hw Hb) as (c1 & E1 & I1 & B1 & _ & _ & V1).
    rewrite E in E1. injection E1 as <-. split; [done|]. intros i q. rewrite lookup_insert, V1, B1.
    case_decide as Hd; [subst|].
    + intros [= <-]. rewrite decide_True by done. split; [|done].
      destruct (ok_frame _ _ I f fr Ef) as (_ & _ & Hu). rewrite Hpg in Hu. by destruct Hu.
    + rewrite decide_False by done. apply H.
  - destruct (release_read_spec f fr id c I Ef Hpg Hr) as (c1 & E1 & I1 & B1 & _ & V1).
    rewrite E in E1. injection E1 as <-. eauto using shows_view.
  - destruct (release_write_spec f fr id c I Ef Hpg) as (c1 & E1 & I1 & B1 & _ & V1).
    rewrite E in E1. injection E1 as <-. eauto using shows_view.
  - destruct (flush_spec env None c Henv I) as (c1 & E1 & _ & I1 & (K1 & _) & _).
    rewrite E in E1. injection E1 as <-. eauto using shows_keeps.
Qed.

(** C19: the page cache is transparent.  After any run of reads, writes,
    allocations, releases and flushes, with any pool size and eviction policy,
    reading a page gives the bytes last written to it (up to the checksum the
    cache fills in), wherever the page went in between; it fails only when a
    handle is writing to that page, or when every frame is pinned. *)
Theorem page_cache_refines env c m id p :
  (forall n, env n = io_fine) -> cache_run env c m -> m !! id = Some p ->
  exists c' r, cache_read env id c = (c', r) /\
  match r with
  | Ok h => rp_page_id h = id /\ exists b, rp_bytes h c' = (c', Ok b) /\ b ≈p p
  | Err e => (e = EBusy id /\ writing c id)
             \/ (e = EPoolExhausted (Z.of_nat (frame_count c)) /\ all_pinned c)
  | Panic => False
  end.
Proof.
  intros Henv Hrun Hp. destruct (run_inv env c m Henv Hrun) as [I H]. destruct (H id p Hp) as [Hu Hv].
  destruct (acquire_read_spec env Henv c I id Hu) as (c1 & r1 & E1 & I1 & _ & Hr); [inversion Hv; eauto|].
  exists c1. unfold cache_read. destruct r1 as [f|e|]; [| |done].
  - exists (Ok (MkReadPage f id)). rewrite (sr_bind_ok _ _ _ _ _ E1). split; [done|]. split; [done|].
    destruct Hr as (_ & fr & Ef & _ & Hb). exists (fr_buf fr). split.
    + unfold rp_bytes. erewrite sr_bind_ok; [done|]. unfold frame_at. cbn [rp_frame]. by rewrite Ef.
    + rewrite Hv in Hb. by inversion Hb.
  - exists (Err e). rewrite (sr_bind_err _ _ _ _ _ E1). split; [done|]. apply Hr.
Qed.

(** C20: the latches exclude each other.  In every run a page is held by any
    number of readers or by one writer, never both, and lives in one frame
    only, so a writer never shares its buffer. *)
Theorem latches_exclude env c m f fr :
  (forall n, env n = io_fine) -> cache_run env c m -> frames c !! f = Some fr ->
  (fr_writer fr = true -> fr_readers fr = 0) /\ 0 <= fr_readers fr
  /\ forall f' fr' id, frames c !! f' = Some fr' -> fr_page fr = Some id -> fr_page fr' = Some id -> f' = f.
Proof.
  intros Henv Hrun E. destruct (run_inv env c m Henv Hrun) as [I _].
  destruct (ok_frame _ _ I f fr E) as (_ & [H0 Hw] & _).
  split; [done|]. split; [done|]. intros f' fr' id E' Hp Hp'. by apply (table_inj None c f' f fr' fr id).
Qed.
End cache.

(** ** Witnesses *)

Section witnesses.
Import Journal.Ieee Castagnoli.
Let fine : nat -> io_env := fun _ => io_fine.

(** A pool of one frame over an empty store in memory. *)
Definition pool1 : Inner MemBlockStore (LruK nat) :=
  match PageCache_new MemBlockStore_new 1 with Ok c => c | _ => MkInner MemBlockStore_new [] ∅ [] (MkLruK 2 0 ∅) None end.

Lemma mem_new_ok : bs_wf MemBlockStore_new.
Proof.
  split; cbn; try done.
  - apply Forall_singleton, length_zeroed.
  - constructor.
Qed.

(** It after the allocation of page 1, which is pinned for writing. *)
Definition pool1_alloc : Inner MemBlockStore (LruK nat) := (inner_allocate fine pool1).1.

Lemma pool1_run : cache_run fine pool1_alloc {[1 := zeroed]}.
Proof.
  apply (run_allocate fine pool1 ∅ pool1_alloc 1 0).
  - apply (run_new fine MemBlockStore_new 1 (MkLruK 2 0 ∅) None _ ∅); [apply mem_new_ok | done..].
  - reflexivity.
Qed.

Lemma page_cache_refines_witness :
  exists (c : Inner MemBlockStore (LruK nat)) (m : gmap Z Block), cache_run fine c m /\ m !! 1 = Some zeroed
    /\ exists c' r, cache_read fine 1 c = (c', r) /\
      match r with
      | Ok h => rp_page_id h = 1 /\ exists b, rp_bytes h c' = (c', Ok b) /\ b ≈p zeroed
      | Err e => (e = EBusy 1 /\ writing c 1)
                 \/ (e = EPoolExhausted (Z.of_nat (frame_count c)) /\ all_pinned c)
      | Panic => False
      end.
Proof.
  assert (R : cache_run fine (release_write 0 pool1_alloc).1 {[1 := zeroed]}).
  { eapply (run_release_write fine pool1_alloc _ 0); [exact pool1_run | reflexivity | by eexists | reflexivity]. }
  exists (release_write 0 pool1_alloc).1, {[1 := zeroed]}. split; [exact R|]. split; [reflexivity|].
  apply (page_cache_refines fine (release_write 0 pool1_alloc).1 {[1 := zeroed]} 1 zeroed); [done | exact R | reflexivity].
Defined.

Lemma latches_exclude_witness :
  exists fr, frames pool1_alloc !! 0%nat = Some fr /\ (fr_writer fr = true -> fr_readers fr = 0) /\ 0 <= fr_readers fr
  /\ forall f' fr' id, frames pool1_alloc !! f' = Some fr' -> fr_page fr = Some id -> fr_page fr' = Some id -> f' = 0%nat.
Proof.
  exists (MkFrame (Some 1) zeroed 0 true true). split; [reflexivity|].
  apply (latches_exclude fine pool1_alloc {[1 := zeroed]} 0); [done | exact pool1_run | reflexivity].
Defined.
End witnesses.
