(* ===== verification/PageCacheCrash.v ===== *)
(** * Crashes inside a flush

    The page cache over a [DiskBlockStore] with its journal, as [Heap::open]
    builds it.  [Stopping] is a disk store that stops: the cache's own [flush] is
    run over it, stops at the write or sync it stops at, and the journal's appends
    stop where [env] says.  The store also keeps what the last completed sync made
    durable; [survives] says which files a crash then leaves.  Recovery
    ([disk_open], then [with_journal]) shows every page as before the flush, or
    every page as the flush meant to leave it.

    [synced D n0 v]: [D] is what the last sync made durable of the store's file,
    [n0] the high-water mark in its superblock.  Assumed of the file system: whole
    blocks, the superblock written atomically, and the growth of the file durable
    no later than the superblock that counts it. *)

From Stdlib Require Import Strings.Byte ZArith Lia.
From stdpp Require Import prelude list gmap strings.
From S2P Require Import Prelude Codec Journal Page BlockStore BlockJournal Policies PageCache PageCacheOk.
Local Open Scope Z_scope.

(** ** Redoing a log *)

Definition op_id (op : JournalOp) : option Z := match op with JWrite id _ => Some id | JCommit => None end.

(** A record that recovery can apply to a store with room for [n] ids. *)
Definition redoable (n : Z) (op : JournalOp) : Prop :=
  match op with JWrite id b => 1 <= id < n /\ length b = BLOCK_SIZE | JCommit => False end.

(** Room to grow the file to [n] ids. *)
Definition room (n limit : Z) : Prop := next_multiple_of n GROWTH_CHUNK_BLOCKS * 8192 <= Z.min limit u64_max.

Lemma next_multiple_mono a b : a <= b -> next_multiple_of a GROWTH_CHUNK_BLOCKS <= next_multiple_of b GROWTH_CHUNK_BLOCKS.
Proof. intros H. unfold next_multiple_of, GROWTH_CHUNK_BLOCKS. apply Z.mul_le_mono_nonneg_r; [lia|]. apply Z.div_le_mono; lia. Qed.

Lemma next_multiple_ge a : a <= next_multiple_of a GROWTH_CHUNK_BLOCKS.
Proof.
  unfold next_multiple_of, GROWTH_CHUNK_BLOCKS. pose proof (Z.div_mod (a + 16 - 1) 16).
  pose proof (Z.mod_pos_bound (a + 16 - 1) 16). lia.
Qed.

(** A store without free ids, every issued id backed. *)
Definition backed (d : DiskBlockStore) : Prop :=
  disk_ok d /\ d_free_list d = [] /\ d_next_id d <= capacity_blocks d.

Lemma disk_ok_next n d : disk_ok d -> d_free_list d = [] -> 1 <= n <= u64_max -> disk_ok (with_next_id n d).
Proof. intros [? ? ? ? ? ? ?] Hf Hn. split; cbn; try done. by rewrite Hf. Qed.

Lemma ensure_allocated_ok id n d :
  backed d -> 1 <= id < n -> room n (d_limit d) ->
  exists d', disk_ensure_allocated id d = (d', Ok tt) /\ backed d' /\ d_limit d' = d_limit d
    /\ d_next_id d <= d_next_id d' /\ id < d_next_id d' /\ capacity_blocks d <= capacity_blocks d'
    /\ (forall i, i < capacity_blocks d -> disk_read d' i = disk_read d i).
Proof.
  intros (W & Hf & Hb) Hid Hroom. unfold disk_ensure_allocated.
  destruct (Z.leb_spec (d_next_id d) id) as [Hle|Hlt].
  2:{ exists d. split; [done|]. split; [done|]. split; [done|]. split; [lia|]. split; [lia|]. split; [lia|done]. }
  pose proof (next_multiple_mono (id + 1) n ltac:(lia)) as Hm. pose proof (next_multiple_ge (id + 1)) as Hg.
  unfold room in Hroom. unfold add64. rewrite (proj2 (Z.leb_le _ _)) by lia.
  assert (W1 : disk_ok (with_next_id (id + 1) d)) by (apply disk_ok_next; [done..|lia]).
  destruct (ensure_capacity (id + 1) (with_next_id (id + 1) d)) as [d1 r] eqn:E.
  assert (Er : r = Ok tt).
  { revert E. unfold ensure_capacity, set_capacity. cbn [capacity_blocks with_next_id d_limit].
    destruct (_ <? _); [|by intros [= <- <-]]. rewrite BLOCK_SIZE_Z, mul64_ok by lia.
    rewrite (proj2 (Z.ltb_ge _ _)) by lia. by intros [= <- <-]. }
  pose proof (ensure_capacity_spec (id + 1) (with_next_id (id + 1) d) d1 r W1 E) as Hs. rewrite Er in Hs. destruct Hs as (H1 & H2 & H3 & H4).
  cbn in H2. assert (Hk : Z.of_nat (length (replicate (Z.to_nat ((capacity_blocks d1 - capacity_blocks d) * 8192)) x00))
                     = (capacity_blocks d1 - capacity_blocks d) * 8192) by (rewrite length_replicate; lia).
  assert (W2 := grown_ok d (capacity_blocks d1) _ (id + 1) W1 ltac:(lia) Hk H4 H2).
  rewrite Er. exists d1. split; [done|]. cbn in H3. rewrite H3 in *. clear E H3. cbn in *.
  split; [by split|]. split; [done|]. split; [lia|]. split; [lia|]. split; [done|].
  intros i Hi. pose proof (disk_read_at d i W Hi) as Hr. rewrite Hr.
  eapply (grown_reads d _ _ W W2); [reflexivity|exact H2|exact Hr].
Qed.

Lemma redo_ok n op d :
  backed d -> redoable n op -> room n (d_limit d) ->
  exists d', redo op d = (d', Ok tt) /\ backed d' /\ d_limit d' = d_limit d
    /\ d_next_id d <= d_next_id d' /\ capacity_blocks d <= capacity_blocks d'
    /\ (forall id b, op = JWrite id b -> disk_read d' id = Ok b /\ disk_used d' id)
    /\ (forall i, i < capacity_blocks d -> op_id op <> Some i -> disk_read d' i = disk_read d i).
Proof.
  intros B Hop Hroom. destruct op as [id b|]; [|done]. destruct Hop as [Hid Hb].
  destruct (ensure_allocated_ok id n d B Hid Hroom) as (d1 & E1 & B1 & L1 & N1 & I1 & C1 & R1).
  destruct B1 as (W1 & F1 & K1).
  assert (U1 : disk_used d1 id) by (split; [lia|]; split; [lia|]; rewrite F1; apply not_elem_of_nil).
  destruct (disk_write_law d1 id b W1 U1 Hb) as (d2 & E2 & W2 & U2 & R2 & O2).
  assert (Hd2 : d2 = MkDisk (d_file d2) (d_next_id d1) (capacity_blocks d1) (d_free_list d1) (d_limit d1)).
  { rewrite (disk_write_at d1 id b W1 ltac:(lia) Hb) in E2. apply (f_equal fst) in E2. cbn [fst] in E2. by subst d2. }
  exists d2. split.
  { unfold redo. erewrite sr_bind_ok by exact E1. rewrite (proj2 (Nat.eqb_eq _ _)) by done. exact E2. }
  rewrite Hd2 at 2 3 4. cbn [d_limit d_next_id capacity_blocks].
  split; [split; [done|]; rewrite Hd2; by split|]. split; [done|]. split; [lia|]. split; [lia|]. split.
  - intros ? ? [= <- <-]. split; [done|]. by apply U2.
  - intros i Hi Hne. cbn in Hne. rewrite O2 by congruence. by apply R1.
Qed.

(** The blocks a log of distinct pages leaves. *)
Lemma redo_loop n ops d :
  backed d -> Forall (redoable n) ops -> room n (d_limit d) -> NoDup (op_id <$> ops) ->
  exists d', sr_for ops redo d = (d', Ok tt) /\ backed d' /\ capacity_blocks d <= capacity_blocks d'
    /\ (forall id b, JWrite id b ∈ ops -> disk_read d' id = Ok b /\ disk_used d' id)
    /\ (forall i, i < capacity_blocks d -> Some i ∉ op_id <$> ops -> disk_read d' i = disk_read d i)
    /\ d_next_id d <= d_next_id d'.
Proof.
  intros B Hops. revert d B. induction Hops as [|op ops Hop Hops IH]; intros d B Hroom Hnd; cbn [sr_for].
  - exists d. split; [done|]. split; [done|]. split; [lia|].
    split; [by intros ? ? ?%not_elem_of_nil|]. split; [done|lia].
  - cbn in Hnd. apply NoDup_cons in Hnd as [Hni Hnd].
    destruct (redo_ok n op d B Hop Hroom) as (d1 & E1 & B1 & L1 & N1 & C1 & W1 & O1).
    destruct (IH d1 B1 ltac:(by rewrite L1) Hnd) as (d2 & E2 & B2 & C2 & W2 & O2 & N2).
    exists d2. split; [by rewrite (sr_bind_ok _ _ _ _ _ E1)|]. split; [done|]. split; [lia|]. split; [|split; [|lia]].
    + intros id b [Heq|Hin]%elem_of_cons; [|by apply W2]. destruct (W1 id b) as [Hr [Hu1 [Hu2 _]]]; [done|].
      subst op. split.
      * rewrite O2; [done|lia|done].
      * split; [lia|]. split; [lia|]. rewrite (proj1 (proj2 B2)). apply not_elem_of_nil.
    + intros i Hi Hn. cbn in Hn. apply not_elem_of_cons in Hn as [Hne Hn].
      rewrite O2 by (try done; lia). apply O1; [done|congruence].
Qed.

Lemma rposition_none ops : Forall (fun op => op <> JCommit) ops -> rposition_commit ops = None.
Proof. induction 1 as [|op ops Hop _ IH]; [done|]. cbn. rewrite IH. by destruct op. Qed.

Lemma rposition_snoc ops : rposition_commit (ops ++ [JCommit]) = Some (length ops).
Proof. induction ops as [|op ops IH]; [done|]. cbn. by rewrite IH. Qed.

Lemma redoable_not_commit n ops : Forall (redoable n) ops -> Forall (fun op => op <> JCommit) ops.
Proof. intros H. eapply Forall_impl; [exact H|]. by intros [|]. Qed.

(** ** What is durable, and what a crash leaves *)

Definition super (n : Z) (fl : list Z) : Block := splice 0 (super_fields n fl) zeroed.

Definition synced (D : list byte) (n0 : Z) (d : DiskBlockStore) : Prop :=
  (exists k, d_file d = D ++ replicate k x00) /\ take BLOCK_SIZE D = super n0 []
  /\ 1 <= n0 <= d_next_id d /\ (exists cap, Z.of_nat (length D) = cap * 8192 /\ n0 <= cap)
  /\ backed d.

(** ** A store that stops

    [st_left] writes and syncs complete.  The next one is the last: a write is
    issued, a sync writes the superblock and, when [st_flushed], also reaches the
    disk; either way the call does not return. *)
Record Stopping : Type := MkStopping { st_disk : DiskBlockStore; st_durable : list byte; st_left : nat; st_flushed : bool }.

Definition on_disk {A} (op : DiskBlockStore -> DiskBlockStore * res Error A) (s : Stopping) : Stopping * res Error A :=
  let '(d, r) := op (st_disk s) in (MkStopping d (st_durable s) (st_left s) (st_flushed s), r).

Definition stop_write (id : Z) (b : Block) (s : Stopping) : Stopping * res Error unit :=
  let '(d, r) := disk_write id b (st_disk s) in
  match st_left s with
  | O => (MkStopping d (st_durable s) 0 (st_flushed s), Panic)
  | S n => (MkStopping d (st_durable s) n (st_flushed s), r)
  end.

Definition stop_sync (s : Stopping) : Stopping * res Error unit :=
  let '(d, r) := disk_sync (st_disk s) in
  match st_left s with
  | O => (MkStopping d (if st_flushed s then d_file d else st_durable s) 0 (st_flushed s), Panic)
  | S n => (MkStopping d (d_file d) n (st_flushed s), r)
  end.

#[global] Instance Stopping_store : BlockStore Stopping := {|
  bs_allocate := on_disk disk_allocate;
  bs_free := fun id s => MkStopping (disk_free id (st_disk s)) (st_durable s) (st_left s) (st_flushed s);
  bs_ensure_allocated := fun id => on_disk (disk_ensure_allocated id);
  bs_read := fun s => disk_read (st_disk s);
  bs_write := stop_write;
  bs_sync := stop_sync;
  bs_block_count := fun s => d_next_id (st_disk s) |}.

(** What a crash leaves of a file: [old] is durable, [new] has the writes issued
    since.  A block written since may hold anything, the others are as they were;
    the superblock is the old one or, with the file grown, the new one. *)
Record survives (old new file : list byte) : Prop := {
  sv_len : exists cap, Z.of_nat (length file) = cap * 8192;
  sv_grow : (length old <= length file <= length new)%nat;
  sv_block i : 1 <= i -> (i + 1) * 8192 <= Z.of_nat (length old) -> block_of old i = block_of new i -> block_of file i = block_of old i;
  sv_super : take BLOCK_SIZE file = take BLOCK_SIZE old
             \/ (take BLOCK_SIZE file = take BLOCK_SIZE new /\ length file = length new) }.

(** A file with nothing written since the sync is kept. *)
Lemma survives_same file file' cap :
  Z.of_nat (length file) = cap * 8192 -> survives file file file' -> file' = file.
Proof.
  intros Hl [_ Hg Hb Hs]. assert (Ht : take BLOCK_SIZE file' = take BLOCK_SIZE file) by (destruct Hs as [?|[? _]]; done).
  pose proof BLOCK_SIZE_Z as HB. apply list_eq. intros p. destruct (decide (p < length file)%nat) as [Hp|Hp];
    [|by rewrite !lookup_ge_None_2 by lia]. destruct (decide (p < BLOCK_SIZE)%nat) as [Hp0|Hp0].
  - rewrite <- (lookup_take_lt file' BLOCK_SIZE), Ht by done. by apply lookup_take_lt.
  - set (i := Z.of_nat p / 8192). pose proof (Z.div_mod (Z.of_nat p) 8192 ltac:(lia)) as Hdm. pose proof (Z.mod_pos_bound (Z.of_nat p) 8192 ltac:(lia)).
    fold i in Hdm. assert (1 <= i) by (apply Z.div_le_lower_bound; lia). assert ((i + 1) * 8192 <= Z.of_nat (length file)) by nia.
    specialize (Hb i ltac:(done) ltac:(done) eq_refl). unfold block_of, slice in Hb.
    apply (f_equal (fun l => l !! (p - Z.to_nat (i * 8192))%nat)) in Hb.
    rewrite !lookup_take_lt, !lookup_drop in Hb by lia. by replace (Z.to_nat (i * 8192) + (p - Z.to_nat (i * 8192)))%nat with p in Hb by lia.
Qed.

Section crash.
Context {P : Type} {CRC : Crc32} {CRCok : Crc32Ok} {CRCc : Crc32c} {CRCcok : Crc32cOk}.
Context {EP : EvictionPolicy P nat} {EPok : EvictionPolicyOk P nat}.
Abbreviation Inner := (Inner DiskBlockStore P).
Abbreviation opt_eqv := (option_Forall2 page_eqv).

(** The records a flush of [c] logs before its commit mark. *)
Definition flush_images (c : Inner) : list JournalOp :=
  images (changed (dirty_frames c) refinalize (frames c)) (dirty_frames c).

(** The page the flush means to leave on disk. *)
Definition flush_target (c : Inner) (id : Z) : option Block :=
  match table c !! id with
  | Some f => match frames c !! f with
              | Some fr => if fr_dirty fr then Some (fr_buf fr) else stored (block c) id
              | None => None
              end
  | None => stored (block c) id
  end.

Lemma flush_images_elem (c : Inner) id b :
  cache_inv None c ->
  JWrite id b ∈ flush_images c <->
  exists f fr, frames c !! f = Some fr /\ fr_page fr = Some id /\ fr_dirty fr = true /\ b = finalized (fr_buf fr).
Proof.
  intros I. unfold flush_images, images. rewrite list_elem_of_In, List.in_map_iff. split.
  - intros (f & Hop & Hf%list_elem_of_In). pose proof Hf as (fr & E & [Hd [id' Hp]]%is_dirty_page)%elem_of_dirty.
    rewrite changed_lookup, E in Hop. cbn [fmap option_fmap option_map] in Hop. rewrite decide_True in Hop by done.
    cbn [refinalize with_buf fr_page fr_buf] in Hop. rewrite Hp in Hop. injection Hop as <- <-. eauto 6.
  - intros (f & fr & E & Hp & Hd & ->). assert (Hf : f ∈ dirty_frames c).
    { apply elem_of_dirty. exists fr. split; [done|]. unfold is_dirty. by rewrite Hd, Hp. }
    exists f. split; [|by apply list_elem_of_In]. rewrite changed_lookup, E. cbn [fmap option_fmap option_map].
    rewrite decide_True by done. cbn [refinalize with_buf fr_page fr_buf]. by rewrite Hp.
Qed.

Lemma flush_images_nodup (c : Inner) : cache_inv None c -> NoDup (op_id <$> flush_images c).
Proof.
  intros I. destruct (dirty_flushable None c I) as (Hd & Hin & Hinj).
  unfold flush_images, images. set (g := fun f => match _ with Some _ => _ | None => _ end).
  change (map g (dirty_frames c)) with (g <$> dirty_frames c). rewrite <- list_fmap_compose.
  assert (Hg : forall f, f ∈ dirty_frames c -> exists fr id, frames c !! f = Some fr /\ fr_page fr = Some id
                 /\ op_id (g f) = Some id).
  { intros f Hf. destruct (Hin f Hf) as (fr & id & E & Hp & _). exists fr, id. split; [done|]. split; [done|].
    unfold g. rewrite changed_lookup, E. cbn [fmap option_fmap option_map]. rewrite decide_True by done. cbn. by rewrite Hp. }
  apply NoDup_fmap_2_strong; [|done]. intros f1 f2 H1 H2 Heq. cbn in Heq.
  destruct (Hg f1 H1) as (fr1 & id1 & E1 & P1 & O1). destruct (Hg f2 H2) as (fr2 & id2 & E2 & P2 & O2).
  rewrite O1, O2 in Heq. injection Heq as <-. by apply (Hinj f1 f2 fr1 fr2 id1).
Qed.

Lemma flush_images_redoable (c : Inner) :
  cache_inv None c -> Forall (redoable (d_next_id (block c))) (flush_images c).
Proof.
  intros I. apply Forall_forall. intros op Hop. destruct op as [id b|].
  - apply (flush_images_elem c id b I) in Hop as (f & fr & E & Hp & _ & ->).
    destruct (ok_frame _ _ I f fr E) as (Hl & _ & Hu). rewrite Hp in Hu. destruct Hu as [(Hu & _) _].
    split; [done|]. pose proof BLOCK_SIZE_Z. rewrite length_finalized; [done|]. unfold PAGE_HEADER_LEN. lia.
  - exfalso. unfold flush_images, images in Hop. apply list_elem_of_In, List.in_map_iff in Hop as (f & Hop & Hf%list_elem_of_In).
    destruct (proj1 (proj2 (dirty_flushable None c I)) f Hf) as (fr & id & E & _).
    rewrite changed_lookup, E in Hop. done.
Qed.

Lemma flush_images_wf (c : Inner) : cache_inv None c -> Forall pageop_wf (flush_images c ++ [JCommit]).
Proof.
  intros I. apply Forall_app. split; [|by repeat constructor].
  apply (images_wf (block c)); [apply (ok_store _ _ I)|].
  apply flushable_changed; [done | apply refinalize_length | by apply (dirty_flushable None)].
Qed.

(** ** Reopening *)

(** Opening a file that starts with the superblock of [n]. *)
Lemma open_super lim n file cap :
  take BLOCK_SIZE file = super n [] -> Z.of_nat (length file) = cap * 8192 -> 1 <= n <= u64_max -> n <= cap ->
  cap * 8192 <= u64_max ->
  exists d, disk_open lim file = (d, Ok tt) /\ backed d /\ d_file d = file /\ d_next_id d = n
    /\ capacity_blocks d = cap /\ d_limit d = lim.
Proof.
  intros Ht Hl Hn Hc Hm. exists (MkDisk file n cap [] lim). split.
  - unfold disk_open. rewrite Hl, BLOCK_SIZE_Z, (proj2 (Z.eqb_neq _ _)) by lia. rewrite Z.div_mul by lia.
    cbn [capacity_blocks]. rewrite <- (take_drop BLOCK_SIZE file) at 1. rewrite Ht. unfold super.
    rewrite read_superblock_ok; [by rewrite (proj2 (Z.leb_le 1 _)) by lia | ulia | constructor | done].
  - split; [|done]. split; [|by split]. split; cbn; try done; try lia. constructor.
Qed.

(** The store recovery leaves for a log without, and with, a commit mark. *)
Lemma recover_uncommitted j seen (d : DiskBlockStore) :
  bj_replay j = Ok seen -> Forall (fun op => op <> JCommit) seen -> recover j d = (d, Ok tt).
Proof.
  intros Hr Hn. unfold recover. erewrite sr_bind_ok; [|unfold sr_lift; by rewrite Hr].
  by rewrite rposition_none.
Qed.

Lemma recover_committed j ops n d :
  bj_replay j = Ok (ops ++ [JCommit]) -> backed d -> Forall (redoable n) ops -> room n (d_limit d) ->
  NoDup (op_id <$> ops) ->
  exists d', recover j d = (d', Ok tt) /\ disk_ok d' /\ capacity_blocks d <= capacity_blocks d'
    /\ (forall id b, JWrite id b ∈ ops -> disk_read d' id = Ok b)
    /\ (forall i, 1 <= i < capacity_blocks d -> Some i ∉ op_id <$> ops -> disk_read d' i = disk_read d i).
Proof.
  intros Hr B Hops Hroom Hnd.
  destruct (redo_loop n ops d B Hops Hroom Hnd) as (d1 & E1 & (W1 & F1 & K1) & C1 & In1 & Out1 & N1).
  destruct (disk_sync_law d1 W1) as (d2 & E2 & W2 & U2 & R2).
  assert (Hc : capacity_blocks d2 = capacity_blocks d1).
  { unfold disk_sync in E2. rewrite (write_superblock_ok d1 W1) in E2. apply (f_equal fst) in E2. cbn [fst] in E2. by subst d2. }
  exists d2. split.
  { unfold recover. erewrite sr_bind_ok; [|unfold sr_lift; by rewrite Hr].
    rewrite rposition_snoc, take_app_length. by erewrite sr_bind_ok by exact E1. }
  split; [done|]. split; [lia|]. split.
  - intros id b Hin. destruct (In1 id b Hin) as [Hrd (? & ? & _)]. rewrite R2 by lia. done.
  - intros i Hi Hn. rewrite R2 by lia. apply Out1; [lia|done].
Qed.

Lemma with_journal_ok n d d' jb j rs tail p :
  (0 < n)%nat -> disk_ok d' -> bj_open (Some jb) = Ok j -> bj_inner j = MkJournal (File jb p) ->
  jb = journal_bytes (R := JournalOp) rs ++ tail -> recover j d = (d', Ok tt) ->
  exists c' : PageCache.Inner DiskBlockStore (LruK nat),
    with_journal n (Some jb) d = (d', Ok c') /\ cache_inv None c' /\ idle c' /\ (forall id, view c' id = stored d' id).
Proof.
  intros Hn W Ho Hj Hjb Hr. unfold with_journal. rewrite Ho, Hr.
  destruct (build d' n (MkLruK 2 0 (∅ : gmap nat (list Z))) (Some (bj_truncate j))) as [c'| |] eqn:E.
  - exists c'. assert (Hh : forall j', Some (bj_truncate j) = Some j' -> holds (bj_inner j') []).
    { intros j' [= <-]. apply (holds_truncate _ rs tail). rewrite Hj. exact Hjb. }
    destruct (build_inv (BSok := DiskBlockStore_ok) (EPok := LruK_ok) d' n (MkLruK 2 0 ∅) _ c' W I ltac:(done) Hh E) as (Hinv & _ & _ & _ & Hi & Hv).
    split; [|done]. unfold LruK_new. cbn. by rewrite E.
  - unfold build in E. by destruct (n =? 0)%nat.
  - exfalso. unfold build in E. destruct (Nat.eqb_spec n 0); [lia|done].
Qed.

(** Two stores with the same block. *)
Lemma stored_same d d' id :
  disk_ok d -> disk_ok d' -> id < capacity_blocks d -> id < capacity_blocks d' ->
  block_of (d_file d) id = block_of (d_file d') id -> stored d id = stored d' id.
Proof.
  intros W W' H H' Hb. unfold stored. cbn [bs_read DiskBlockStore_store].
  by rewrite (disk_read_at d id W H), (disk_read_at d' id W' H'), Hb.
Qed.

Lemma block_of_app D k id :
  1 <= id -> (id + 1) * 8192 <= Z.of_nat (length D) -> block_of (D ++ k) id = block_of D id.
Proof. intros. pose proof BLOCK_SIZE_Z. apply slice_app_l. lia. Qed.

(** A dirty page's target, and a clean one's. *)
Lemma target_dirty (c : Inner) id b :
  cache_inv None c -> JWrite id b ∈ flush_images c -> exists p, flush_target c id = Some p /\ b = finalized p /\ length p = BLOCK_SIZE.
Proof.
  intros I (f & fr & E & Hp & Hd & ->)%flush_images_elem; [|done]. exists (fr_buf fr).
  unfold flush_target. rewrite (proj2 (ok_table _ _ I id f)) by eauto. rewrite E, Hd.
  split; [done|]. split; [done|]. apply (ok_frame _ _ I f fr E).
Qed.

Lemma target_clean (c : Inner) id :
  cache_inv None c -> Some id ∉ op_id <$> flush_images c -> flush_target c id = stored (block c) id.
Proof.
  intros I Hn. unfold flush_target. destruct (table c !! id) as [f|] eqn:Et; [|done].
  apply (ok_table _ _ I) in Et as (fr & E & Hp). rewrite E. destruct (fr_dirty fr) eqn:Ed; [|done].
  exfalso. apply Hn. apply list_elem_of_fmap. exists (JWrite id (finalized (fr_buf fr))). split; [done|].
  apply flush_images_elem; [done|]. eauto 6.
Qed.

(** A recovered store shows the target once the images are on it and the other
    blocks are as they were. *)
Lemma shows_target (c : Inner) (d' : DiskBlockStore) id :
  cache_inv None c ->
  (forall i b, JWrite i b ∈ flush_images c -> bs_read d' i = Ok b) ->
  (Some id ∉ op_id <$> flush_images c -> stored d' id = stored (block c) id) ->
  opt_eqv (stored d' id) (flush_target c id).
Proof.
  intros I Hin Hout. destruct (decide (Some id ∈ op_id <$> flush_images c)) as [Hi|Hn].
  - apply list_elem_of_fmap in Hi as ([i b|] & Hid & Hin'); [|done]. injection Hid as <-.
    destruct (target_dirty c id b I Hin') as (p & Ht & -> & Hl). rewrite Ht.
    rewrite (stored_finalized d' id p Hl (Hin _ _ Hin')). constructor.
    apply finalized_eqv. pose proof BLOCK_SIZE_Z. unfold PAGE_HEADER_LEN. lia.
  - by rewrite Hout, target_clean.
Qed.

Lemma writes_fields d d' :
  writes d d' -> d_next_id d' = d_next_id d /\ d_free_list d' = d_free_list d /\ capacity_blocks d' = capacity_blocks d.
Proof.
  induction 1 as [|d d1 d2 id b E _ (H1 & H2 & H3)]; [done|]. cbn in E. unfold disk_write in E.
  destruct (disk_offset id); [|done..]. apply (f_equal fst) in E. cbn [fst] in E. by subst d1.
Qed.

(** What [synced] says of the blocks below the durable high-water mark. *)
Lemma synced_facts D n0 d :
  synced D n0 d -> exists cap k, Z.of_nat (length D) = cap * 8192 /\ 1 <= n0 <= cap /\ cap <= capacity_blocks d
    /\ n0 <= d_next_id d /\ d_file d = D ++ k
    /\ forall id, 1 <= id < n0 -> block_of (d_file d) id = block_of D id.
Proof.
  intros ([k Hf] & _ & Hn & (cap & Hl & Hc) & (W & _ & _)). exists cap, (replicate k x00). pose proof (do_len _ W) as Hlen.
  rewrite Hf, length_app in Hlen. split; [done|]. split; [lia|]. split; [lia|]. split; [lia|]. split; [done|].
  intros id Hid. rewrite Hf. apply block_of_app; lia.
Qed.

(** ** The flush over a store that stops *)

Abbreviation InnerS := (PageCache.Inner Stopping P).

(** The pool [c] over a store that stops; the pool of one that did not. *)
Definition stopping (D : list byte) (k : nat) (fl : bool) (c : Inner) : InnerS :=
  MkInner (MkStopping (block c) D k fl) (frames c) (table c) (free c) (policy c) (journal c).
Definition erase (x : InnerS) : Inner := MkInner (st_disk (block x)) (frames x) (table x) (free x) (policy x) (journal x).

(** The bytes of the journal's file. *)
Definition log_bytes (x : InnerS) : list byte := match journal x with Some j => f_bytes (jfile (bj_inner j)) | None => [] end.

Definition erases {A} (m : SR InnerS Error A) (m' : SR Inner Error A) : Prop :=
  forall x x' a, m x = (x', Ok a) -> m' (erase x) = (erase x', Ok a).

Lemma erases_bind {A B} m m' (f : A -> SR InnerS Error B) f' : erases m m' -> (forall a, erases (f a) (f' a)) -> erases (m ≫= f) (m' ≫= f').
Proof. intros Hm Hf x x' b (x1 & a & E1 & E2)%sr_bind_inv. rewrite (sr_bind_ok _ _ _ _ _ (Hm _ _ _ E1)). by apply Hf. Qed.

Lemma erases_for {A} (l : list A) m m' : (forall a, erases (m a) (m' a)) -> erases (sr_for l m) (sr_for l m').
Proof. intros H. induction l as [|a l IH]; [by intros x x' b [= <- <-]|]. cbn [sr_for]. by apply erases_bind. Qed.

Lemma erases_frame f : erases (frame_at f) (frame_at f).
Proof. intros x x' fr. unfold frame_at. cbn [erase frames]. by destruct (frames x !! f); intros [= <- <-]. Qed.

Lemma erases_on_frame f g : erases (on_frame f g) (on_frame f g).
Proof. by intros x x' [] [= <-]. Qed.

Lemma erases_lift {A} (r : res Error A) : erases (sr_lift r) (sr_lift r).
Proof. by intros x x' a [= <- ->]. Qed.

Lemma erases_write id b : erases (on_block (bs_write id b)) (on_block (bs_write id b)).
Proof.
  intros x x' a. unfold on_block. cbn. unfold stop_write. destruct (disk_write id b (st_disk (block x))) as [d r].
  destruct (st_left (block x)); [done|]. by intros [= <- ->].
Qed.

Lemma erases_sync : erases (on_block bs_sync) (on_block bs_sync).
Proof.
  intros x x' a. unfold on_block. cbn. unfold stop_sync. destruct (disk_sync (st_disk (block x))) as [d r].
  destruct (st_left (block x)); [done|]. by intros [= <- ->].
Qed.

Lemma erases_images env ds : erases (journal_images env ds) (journal_images env ds).
Proof.
  intros x x' a. unfold journal_images. cbn [erase journal]. destruct (journal x) as [j|]; [|by intros [= <- <-]].
  change (map (image_of (erase x)) ds) with (map (image_of x) ds). destruct (collect_res _) as [ims|e|]; [|done..].
  destruct (bj_append_all env j _) as [j' r]. by intros [= <- ->].
Qed.

(** A flush that is not stopped is one over the disk. *)
Lemma flush_erases env : erases (flush env) (flush env).
Proof.
  intros x x' a. unfold flush. rewrite !sr_bind_get. change (dirty_frames (erase x)) with (dirty_frames x). revert x x' a.
  assert (Hb : forall ds, erases
     (_ ← sr_for ds finalize_frame; _ ← journal_images env ds; _ ← sr_for ds write_back; _ ← on_block bs_sync; sr_modify (fun c => set_journal (bj_truncate <$> journal c) c))
     (_ ← sr_for ds finalize_frame; _ ← journal_images env ds; _ ← sr_for ds write_back; _ ← on_block bs_sync; sr_modify (fun c => set_journal (bj_truncate <$> journal c) c))).
  { intros ds. apply erases_bind; [apply erases_for; intros f|intros _].
    { apply erases_bind; [apply erases_frame|intros fr]. apply erases_bind; [apply erases_lift|intros b]. apply erases_on_frame. }
    apply erases_bind; [apply erases_images|intros _]. apply erases_bind; [apply erases_for; intros f|intros _].
    { apply erases_bind; [apply erases_frame|intros fr]. apply erases_bind; [apply erases_lift|intros id].
      apply erases_bind; [apply erases_write|intros _]. apply erases_on_frame. }
    apply erases_bind; [apply erases_sync|intros _]. by intros x x' [] [= <-]. }
  intros x x' a. destruct (dirty_frames x) as [|f ds]; [by intros [= <- <-]|]. apply (Hb (f :: ds)).
Qed.

Section theorem.
Context (c : Inner) (D : list byte) (n0 lim : Z) (n : nat).
Context (I : cache_inv None c) (Hsync : synced D n0 (block c)) (Hroom : room (d_next_id (block c)) lim) (Hn : (0 < n)%nat).

(** The conclusion of the theorem below, for one outcome of the crash. *)
Definition recovers (committed : bool) (file jb : list byte) : Prop :=
  exists d d' (c' : PageCache.Inner DiskBlockStore (LruK nat)),
    disk_open lim file = (d, Ok tt) /\ with_journal n (Some jb) d = (d', Ok c')
    /\ cache_inv None c' /\ idle c'
    /\ forall id, 1 <= id < n0 \/ (committed = true /\ exists b, JWrite id b ∈ flush_images c) ->
         opt_eqv (view c' id) (if committed then flush_target c id else stored (block c) id).

Lemma backed_c : backed (block c).
Proof using Hsync. apply Hsync. Qed.

Lemma recovers_logging file cap pre op post m :
  flush_images c ++ [JCommit] = pre ++ op :: post -> (m < length (write_frame (codec_encode op)))%nat ->
  Z.of_nat (length file) = cap * 8192 -> (length D <= length file <= length (d_file (block c)))%nat ->
  (forall i, 1 <= i -> (i + 1) * 8192 <= Z.of_nat (length D) -> block_of file i = block_of D i) ->
  take BLOCK_SIZE file = take BLOCK_SIZE D ->
  recovers false file (journal_bytes pre ++ take m (write_frame (codec_encode op))).
Proof using I Hsync Hn CRCok.
  intros Hpre Hm Hcap Hlen Hblk Hsup. destruct (synced_facts _ _ _ Hsync) as (capD & z & Hl & Hc & Hcc & Hnn & Hf & Hb).
  destruct backed_c as (W & _ & _). pose proof (do_len _ W). pose proof (do_max _ W). pose proof (do_next _ W).
  pose proof BLOCK_SIZE_Z.
  destruct (open_super lim n0 file cap) as (d & Eo & B & Fd & _ & Cd & _); try lia; [rewrite Hsup; apply Hsync|].
  pose proof (flush_images_wf c I) as Hwf.
  destruct (cut_log_open [] (flush_images c ++ [JCommit]) _ _ ltac:(constructor) Hwf (cut_at [] _ pre op post m Hpre Hm)) as (j & Ej & Hr & p & Hj).
  cbn [app] in *. assert (Hnc : Forall (fun op => op <> JCommit) pre).
  { assert (Hle : (length pre <= length (flush_images c))%nat).
    { apply (f_equal length) in Hpre. rewrite !length_app in Hpre. cbn in Hpre. lia. }
    assert (Hp : pre = take (length pre) (flush_images c)).
    { apply (f_equal (take (length pre))) in Hpre. rewrite take_app_length, take_app_le in Hpre by done. done. }
    rewrite Hp. apply Forall_take. by eapply redoable_not_commit, flush_images_redoable. }
  destruct (with_journal_ok n d d _ j pre _ p Hn (proj1 B) Ej Hj eq_refl (recover_uncommitted j pre d Hr Hnc)) as (c' & Ec & I' & Hi & Hv).
  exists d, d, c'. do 4 (split; [done|]). intros id [Hid|[? _]]; [|done]. rewrite Hv.
  rewrite (stored_same d (block c) id); [done|apply B|done|lia|lia|]. rewrite Fd, Hb by done. apply Hblk; lia.
Qed.

Lemma recovers_writing file cap :
  Z.of_nat (length file) = cap * 8192 -> (length D <= length file <= length (d_file (block c)))%nat ->
  (forall i, 1 <= i -> (i + 1) * 8192 <= Z.of_nat (length D) -> Some i ∉ op_id <$> flush_images c ->
     block_of file i = block_of D i) ->
  (take BLOCK_SIZE file = take BLOCK_SIZE D
   \/ (take BLOCK_SIZE file = super (d_next_id (block c)) [] /\ length file = length (d_file (block c)))) ->
  recovers true file (journal_bytes (flush_images c ++ [JCommit])).
Proof using I Hsync Hroom Hn CRCok CRCcok.
  intros Hcap Hlen Hblk Hsup. destruct (synced_facts _ _ _ Hsync) as (capD & z & Hl & Hc & Hcc & Hnn & Hf & Hb).
  destruct backed_c as (W & _ & Hbk). pose proof (do_len _ W). pose proof (do_max _ W). pose proof (do_next _ W).
  assert (Hopen : exists d, disk_open lim file = (d, Ok tt) /\ backed d /\ d_file d = file
                    /\ capacity_blocks d = cap /\ d_limit d = lim).
  { destruct Hsup as [Hs|[Hs He]].
    - destruct (open_super lim n0 file cap) as (d & ? & ? & ? & ? & ? & ?); try lia; [by rewrite Hs; apply Hsync|by exists d].
    - destruct (open_super lim (d_next_id (block c)) file cap) as (d & ? & ? & ? & ? & ? & ?); try lia; [done|by exists d]. }
  destruct Hopen as (d & Eo & B & Fd & Cd & Ld).
  destruct (cut_log_open [] (flush_images c ++ [JCommit]) _ _ ltac:(constructor) (flush_images_wf c I) (cut_end [] _)) as (j & Ej & Hr & p & Hj).
  cbn [app] in *.
  destruct (recover_committed j (flush_images c) (d_next_id (block c)) d Hr B (flush_images_redoable c I)
              ltac:(by rewrite Ld) (flush_images_nodup c I)) as (d' & Er & W' & C' & Hin & Hout).
  destruct (with_journal_ok n d d' _ j (flush_images c ++ [JCommit]) [] p Hn W' Ej Hj (eq_sym (app_nil_r _)) Er) as (c' & Ec & I' & Hi & Hv).
  exists d, d', c'. do 4 (split; [done|]). intros id Hid. rewrite Hv. apply shows_target; [done|done|].
  intros Hni. destruct Hid as [Hid|[_ [b Hb']]].
  - rewrite <- (stored_same d (block c) id); [|apply B|done|lia|lia|].
    + apply stored_read. apply Hout; [lia|done].
    + rewrite Fd, Hb by done. apply Hblk; [lia|lia|done].
  - exfalso. apply Hni, list_elem_of_fmap. by exists (JWrite id b).
Qed.

(** Once flushed, the store holds the images, the other pages as they were,
    and a superblock that opens. *)
Lemma flush_store env c1 :
  (forall m, env m = io_fine) -> flush env c = (c1, Ok tt) ->
  (forall i b, JWrite i b ∈ flush_images c -> bs_read (block c1) i = Ok b)
  /\ (forall id, 1 <= id < n0 -> Some id ∉ op_id <$> flush_images c -> bs_read (block c1) id = bs_read (block c) id)
  /\ exists m, take BLOCK_SIZE (d_file (block c1)) = super m [] /\ 1 <= m <= capacity_blocks (block c)
       /\ length (d_file (block c1)) = length (d_file (block c)).
Proof using I Hsync CRCok CRCcok EPok.
  clear Hn. intros Henv E. destruct (flush_run env None c Henv I) as (c1' & E' & F). rewrite E in E'. injection E' as <-.
  destruct (synced_facts _ _ _ Hsync) as (cap & z & Hl & Hc & Hcc & Hnn & Hf & Hb). destruct backed_c as (W & Hfree & Hbk).
  pose proof (do_len _ W). pose proof (do_next _ W). pose proof BLOCK_SIZE_Z. split; [|split].
  - intros i b (f & fr & Ef & Hp & Hd & ->)%flush_images_elem; [|done]. apply (fe_in _ _ F f); [|done|done].
    apply elem_of_dirty. exists fr. split; [done|]. unfold is_dirty. by rewrite Hd, Hp.
  - intros id Hid Hni. apply (fe_out _ _ F).
    + split; [lia|]. split; [lia|]. rewrite Hfree. apply not_elem_of_nil.
    + intros f fr Hd Ef Hp. apply Hni, list_elem_of_fmap. exists (JWrite id (finalized (fr_buf fr))). split; [done|].
      apply flush_images_elem; [done|]. apply elem_of_dirty in Hd as (fr' & Ef' & [Hd _]%is_dirty_page).
      exists f, fr. rewrite Ef in Ef'. injection Ef' as <-. done.
  - destruct (fe_store _ _ F) as [[_ ->]|(v & Wv & Hw & Hs)].
    + exists n0. split; [|split; [lia|done]]. rewrite Hf, take_app_le by lia. apply Hsync.
    + destruct (writes_fields _ _ Hw) as (Hv1 & Hv2 & Hv3). cbn in Hs, Wv. unfold disk_sync in Hs.
      rewrite (write_superblock_ok v Wv) in Hs. apply (f_equal fst) in Hs. cbn [fst] in Hs. rewrite <- Hs. cbn [d_file].
      destruct (disk_sync_file v Wv) as [Hsl Hfl]. pose proof (do_len _ Wv). exists (d_next_id (block c)).
      split; [|split; [lia|rewrite Hfl; lia]]. rewrite take_app_le by lia. rewrite take_ge by lia.
      unfold super. by rewrite Hv1, Hv2, Hfree.
Qed.

Lemma recovers_truncated env c1 :
  (forall m, env m = io_fine) -> flush env c = (c1, Ok tt) ->
  recovers true (d_file (block c1)) (journal_bytes (@nil JournalOp)).
Proof using I Hsync Hn CRCok CRCcok EPok.
  intros Henv E. destruct (flush_store env c1 Henv E) as (Hin & Hout & m & Hs & Hm & Hl).
  destruct (synced_facts _ _ _ Hsync) as (cap & z & _ & Hc & Hcc & Hnn & _). destruct backed_c as (W & _ & Hbk).
  pose proof (do_len _ W). pose proof (do_max _ W). pose proof BLOCK_SIZE_Z.
  destruct (open_super lim m (d_file (block c1)) (capacity_blocks (block c))) as (d & Eo & B & Fd & _ & Cd & _); try lia; [done|].
  assert (Hrd : forall i, bs_read d i = bs_read (block c1) i) by (intros i; cbn; unfold disk_read; by rewrite Fd).
  destruct (cut_log_open [] (@nil JournalOp) _ _ ltac:(constructor) ltac:(constructor) (cut_end [] _)) as (j & Ej & Hr & p & Hj).
  cbn [app] in *.
  destruct (with_journal_ok n d d _ j [] [] p Hn (proj1 B) Ej Hj (eq_sym (app_nil_r _)) (recover_uncommitted j [] d Hr ltac:(constructor)))
    as (c' & Ec & I' & Hi & Hv).
  exists d, d, c'. do 4 (split; [done|]). intros id Hid. rewrite Hv. apply shows_target; [done| |].
  - intros i b Hib. rewrite Hrd. by apply Hin.
  - intros Hni. destruct Hid as [Hid|[_ [b Hb]]].
    + unfold stored. by rewrite Hrd, Hout.
    + exfalso. apply Hni, list_elem_of_fmap. by exists (JWrite id b).
Qed.
(** What the loop of writes keeps, wherever it stops: the journal, what is durable,
    and every block that is not one of the images. *)
Record writing (x0 x : InnerS) : Prop := {
  wo_journal : journal x = journal x0;
  wo_durable : st_durable (block x) = D;
  wo_disk : disk_ok (st_disk (block x));
  wo_used i : disk_used (st_disk (block x)) i <-> disk_used (block c) i;
  wo_fields : d_next_id (st_disk (block x)) = d_next_id (block c) /\ d_free_list (st_disk (block x)) = []
              /\ capacity_blocks (st_disk (block x)) = capacity_blocks (block c);
  wo_blocks i : Some i ∉ op_id <$> flush_images c -> disk_read (st_disk (block x)) i = disk_read (block c) i;
  wo_frames f fr : frames x !! f = Some fr -> exists fr0, frames x0 !! f = Some fr0 /\ fr_page fr = fr_page fr0 /\ fr_buf fr = fr_buf fr0 }.

Let x1 k fl : InnerS := set_frames (changed (dirty_frames c) refinalize (frames c)) (stopping D k fl c).

Lemma writing_block x0 x : writing x0 x ->
  length (d_file (st_disk (block x))) = length (d_file (block c))
  /\ forall i, 0 <= i < capacity_blocks (block c) -> Some i ∉ op_id <$> flush_images c -> block_of (d_file (st_disk (block x))) i = block_of (d_file (block c)) i.
Proof using Hsync.
  clear Hn. intros H. destruct (wo_fields _ _ H) as (_ & _ & Hcap). destruct backed_c as (W & _ & _). pose proof (do_len _ W). pose proof (do_len _ (wo_disk _ _ H)).
  split; [lia|]. intros i Hi Hni. pose proof (wo_blocks _ _ H i Hni) as E. rewrite !disk_read_at in E by (done || lia || apply (wo_disk _ _ H)). by apply Ok_inj in E.
Qed.

Lemma write_back_writing k fl jo f x :
  f ∈ dirty_frames c -> writing (set_journal jo (x1 k fl)) x -> writing (set_journal jo (x1 k fl)) (write_back f x).1.
Proof using I Hsync.
  intros Hf H. unfold write_back. apply sr_bind_keeps; [by unfold frame_at; destruct (frames x !! f)|]. intros x' fr E Hx'.
  unfold frame_at in E. destruct (frames x !! f) as [fr'|] eqn:Ef; [|done]. injection E as <- <-.
  destruct (wo_frames _ _ H f fr' Ef) as (fr0 & E0 & Hp & Hb). cbn [set_journal x1 set_frames frames] in E0.
  assert (Hfl : flushable (block c) (changed (dirty_frames c) refinalize (frames c)) (dirty_frames c)).
  { apply flushable_changed; [done|apply refinalize_length|by apply (dirty_flushable None)]. }
  destruct (proj1 (proj2 Hfl) f Hf) as (fr1 & id & E1 & Hp1 & Hu & Hl). rewrite E0 in E1. injection E1 as <-. rewrite Hp1 in Hp. rewrite <- Hb in Hl.
  apply sr_bind_keeps; [by unfold page_of; rewrite Hp|]. intros x' id' E Hx2. unfold page_of in E. rewrite Hp in E. injection E as <- <-.
  assert (Him : Some id ∈ op_id <$> flush_images c).
  { apply list_elem_of_fmap. exists (JWrite id (fr_buf fr0)). split; [done|]. unfold flush_images, images. apply list_elem_of_In, List.in_map_iff.
    exists f. split; [by rewrite E0, Hp1|by apply list_elem_of_In]. }
  destruct (disk_write_law (st_disk (block x)) id (fr_buf fr') (wo_disk _ _ H)) as (d & Ed & Wd & Ud & _ & Od); [by apply (wo_used _ _ H)|done|].
  assert (Hfd : d_next_id d = d_next_id (st_disk (block x)) /\ d_free_list d = d_free_list (st_disk (block x)) /\ capacity_blocks d = capacity_blocks (st_disk (block x))).
  { revert Ed. unfold disk_write. destruct (disk_offset id); [|done..]. by intros [= <-]. }
  destruct Hfd as (F1 & F2 & F3). destruct (wo_fields _ _ H) as (G1 & G2 & G3).
  assert (Hw : forall y, frames y = frames x -> journal y = journal x -> st_disk (block y) = d -> st_durable (block y) = D -> writing (set_journal jo (x1 k fl)) y).
  { intros y Y1 Y2 Y3 Y4. split; rewrite ?Y1, ?Y2, ?Y3, ?Y4; try apply H; try done.
    - intros i. rewrite Ud. apply (wo_used _ _ H).
    - by rewrite F1, F2, F3.
    - intros i Hni. rewrite Od; [by apply (wo_blocks _ _ H)|]. by intros ->. }
  apply sr_bind_keeps.
  - unfold on_block. cbn [bs_write Stopping_store]. unfold stop_write. rewrite Ed. destruct (st_left (block x)); apply Hw; try done; apply H.
  - intros y [] _ Hy. cbn [on_frame sr_modify fst]. split; try apply Hy. intros g gr. cbn [set_frames frames]. rewrite list_lookup_alter.
    case_decide as Hg; [subst g|apply (wo_frames _ _ Hy)]. destruct (frames y !! f) as [gr0|] eqn:Eg; [|done]. intros [= <-].
    destruct (wo_frames _ _ Hy f gr0 Eg) as (a & ? & ? & ?). by exists a.
Qed.

Lemma images_pos i : Some i ∈ op_id <$> flush_images c -> 1 <= i.
Proof using I.
  clear Hn. intros ([id b|] & Hid & Hin)%list_elem_of_fmap; [|done]. injection Hid as ->.
  pose proof (flush_images_redoable c I) as Hr. rewrite Forall_forall in Hr. by destruct (Hr _ Hin) as [[? _] _].
Qed.

(** The file a crash leaves once the images are logged: some of them issued, the
    superblock maybe. *)
Lemma recovers_issued x0 x new file :
  writing x0 x -> (new = d_file (st_disk (block x)) \/ new = super (d_next_id (block c)) [] ++ drop BLOCK_SIZE (d_file (st_disk (block x)))) ->
  survives D new file -> recovers true file (journal_bytes (flush_images c ++ [JCommit])).
Proof using I Hsync Hroom Hn CRCok CRCcok.
  intros H Hnew [[cap Hcap] Hgrow Hblk Hsup]. destruct (writing_block _ _ H) as [Hlen Hsame]. pose proof BLOCK_SIZE_Z as HB.
  destruct (synced_facts _ _ _ Hsync) as (capD & z & Hl & Hc & Hcc & Hnn & Hf & Hb). destruct backed_c as (W & Hfree & _). pose proof (do_len _ W).
  assert (Hs : length (super (d_next_id (block c)) []) = BLOCK_SIZE).
  { destruct (disk_sync_file (block c) W) as [Hs _]. unfold super. by rewrite Hfree in Hs. }
  assert (Hln : length new = length (d_file (block c))).
  { destruct Hnew as [->| ->]; [done|]. rewrite length_app, length_drop, Hs. lia. }
  assert (Hbn : forall i, 1 <= i < capacity_blocks (block c) -> Some i ∉ op_id <$> flush_images c -> block_of new i = block_of (d_file (block c)) i).
  { intros i Hi Hni. rewrite <- Hsame; [|lia|exact Hni]. destruct Hnew as [->| ->]; [done|]. apply block_of_super; [done|lia|lia]. }
  apply (recovers_writing file cap); [done|lia| |].
  - intros i Hi HiD Hni. apply Hblk; [done|done|]. rewrite Hbn; [|lia|exact Hni]. rewrite Hf. symmetry. by apply block_of_app.
  - destruct Hsup as [Hsup|[Hsup Hfull]]; [by left|]. rewrite Hsup, Hfull, Hln. destruct Hnew as [->| ->].
    + left. assert (Hni : Some 0 ∉ op_id <$> flush_images c) by (intros ?%images_pos; lia).
      pose proof (Hsame 0 ltac:(lia) Hni) as E. unfold block_of, slice in E. cbn in E. rewrite !drop_0 in E. rewrite E, Hf. rewrite take_app_le by lia. done.
    + right. split; [|done]. rewrite take_app_le by lia. by rewrite take_ge by lia.
Qed.

(** Nothing to flush: before is after. *)
Lemma recovers_clean file jb : flush_images c = [] -> recovers false file jb -> recovers true file jb.
Proof using I.
  clear Hn. intros Hi (d & d' & c' & H1 & H2 & H3 & H4 & Hv). exists d, d', c'. do 4 (split; [done|]). intros id [Hid|[_ [b Hb]]].
  - rewrite (target_clean c id I) by (rewrite Hi; apply not_elem_of_nil). apply Hv. by left.
  - rewrite Hi in Hb. by apply not_elem_of_nil in Hb.
Qed.

(** While the log is not complete the file is the old one. *)
Lemma recovers_cut jb seen file :
  cut_log [] (flush_images c ++ [JCommit]) jb seen -> survives D (d_file (block c)) file -> exists b, recovers b file jb.
Proof using I Hsync Hroom Hn CRCok CRCcok.
  intros Hcut Hsv. destruct (synced_facts _ _ _ Hsync) as (capD & z & Hl & Hc & Hcc & Hnn & Hf & Hb). pose proof BLOCK_SIZE_Z as HB.
  destruct Hcut as [pre op post m Hpre Hm|].
  - exists false. destruct Hsv as [[cap Hcap] Hgrow Hblk Hsup]. eapply (recovers_logging file cap pre op post m); [done|done|done|lia| |].
    + intros i Hi HiD. apply Hblk; [done|done|]. rewrite Hf. symmetry. by apply block_of_app.
    + destruct Hsup as [->|[-> _]]; [done|]. rewrite Hf. by rewrite take_app_le by lia.
  - exists true. destruct backed_c as (W & Hfree & _). apply (recovers_issued (stopping D 0 false c) (stopping D 0 false c) (d_file (block c))); [|by left|done].
    split; try done. intros f fr Ef. by exists fr.
Qed.

Lemma recovers_idle file : flush_images c = [] -> survives D (d_file (block c)) file -> recovers true file (journal_bytes (@nil JournalOp)).
Proof using I Hsync Hroom Hn CRCok CRCcok.
  intros Him Hsv. destruct (recovers_cut (journal_bytes (@nil JournalOp)) [] file) as [[|] Hb]; [|done|done|by apply recovers_clean].
  pose proof (cut_at [] (flush_images c ++ [JCommit]) [] JCommit [] 0) as Hc. rewrite Him, take_0, !app_nil_r in Hc. rewrite Him.
  apply Hc; [done|]. rewrite length_write_frame. lia.
Qed.

(** From the complete log on: the flush stops and the new pages are recovered, or it
    returns with everything durable and the log empty. *)
Lemma logged_outcome k fl j' x r file :
  holds (bj_inner j') (flush_images c ++ [JCommit]) ->
  (_ ← sr_for (dirty_frames c) write_back; _ ← on_block bs_sync; sr_modify (fun c => set_journal (bj_truncate <$> journal c) c))
    (set_journal (Some j') (x1 k fl)) = (x, r) ->
  survives (st_durable (block x)) (d_file (st_disk (block x))) file ->
  (r <> Ok tt /\ recovers true file (log_bytes x))
  \/ (r = Ok tt /\ st_durable (block x) = d_file (st_disk (block x)) /\ log_bytes x = journal_bytes (@nil JournalOp)
      /\ Z.of_nat (length (d_file (st_disk (block x)))) = capacity_blocks (block c) * 8192).
Proof using I Hsync Hroom Hn CRCok CRCcok.
  intros Hlog E Hsv. set (x2 := set_journal (Some j') (x1 k fl)) in E. destruct backed_c as (W & Hfree & _).
  assert (Hw0 : writing x2 x2) by (split; try done; intros f fr Ef; by exists fr).
  pose proof (sr_for_keeps (writing x2) (dirty_frames c) write_back x2 (fun f y Hf => write_back_writing k fl (Some j') f y Hf) Hw0) as Hw.
  assert (Hlb : forall y, writing x2 y -> log_bytes y = journal_bytes (flush_images c ++ [JCommit])).
  { intros y Hy. unfold log_bytes. rewrite (wo_journal _ _ Hy). cbn [x2 set_journal journal]. by rewrite (proj1 Hlog). }
  unfold mbind at 1, sr_bind at 1 in E. destruct (sr_for (dirty_frames c) write_back x2) as [y [[]|e|]] eqn:Ew; cbn [fst] in Hw.
  2, 3: injection E as <- <-; left; split; [done|]; rewrite (Hlb y Hw), (wo_durable _ _ Hw) in *; by apply (recovers_issued x2 y (d_file (st_disk (block y)))); [|left|].
  destruct (wo_fields _ _ Hw) as (F1 & F2 & F3). pose proof (wo_disk _ _ Hw) as Wy. pose proof (do_len _ Wy) as Hly.
  destruct (disk_sync_file _ Wy) as [Hsl Hfl]. rewrite F1, F2 in Hsl, Hfl. fold (super (d_next_id (block c)) []) in Hsl, Hfl.
  set (new := super (d_next_id (block c)) [] ++ drop BLOCK_SIZE (d_file (st_disk (block y)))) in *.
  assert (Esync : exists d, disk_sync (st_disk (block y)) = (d, Ok tt) /\ d_file d = new).
  { unfold disk_sync. rewrite (write_superblock_ok _ Wy), F1, F2. eexists. split; reflexivity. }
  destruct Esync as (d & Esync & Hd). unfold mbind, sr_bind, on_block in E. cbn [bs_sync Stopping_store] in E. unfold stop_sync in E. rewrite Esync in E.
  destruct (st_left (block y)) as [|left]; cbn in E; injection E as <- <-; cbn [block st_durable st_disk set_journal set_block] in Hsv |- *; rewrite Hd in *.
  - left. split; [done|]. unfold log_bytes. cbn [journal set_block]. fold (log_bytes y). rewrite (Hlb y Hw). rewrite (wo_durable _ _ Hw) in Hsv.
    destruct (st_flushed (block y)); [|by apply (recovers_issued x2 y new); [|right|]].
    assert (file = new) as ->; [eapply survives_same; [|exact Hsv]; rewrite Hfl; exact Hly|].
    apply (recovers_issued x2 y new); [done|by right|]. destruct (synced_facts _ _ _ Hsync) as (capD & z & Hl & Hc & Hcc & _). pose proof (do_len _ W).
    split; [eexists; rewrite Hfl; exact Hly|rewrite Hfl; lia|done|by right].
  - right. split; [done|]. split; [done|]. split; [|rewrite Hfl, Hly; lia]. unfold log_bytes. cbn [journal set_journal set_block].
    rewrite (wo_journal _ _ Hw). cbn [x2 set_journal journal fmap option_fmap option_map].
    by destruct (bj_truncate_holds _ _ Hlog) as [-> _].
Qed.
End theorem.


Lemma flush_ok_fine env (c c' : Inner) : flush env c = (c', Ok tt) -> flush (fun _ => io_fine) c = (c', Ok tt).
Proof.
  unfold flush. rewrite !sr_bind_get. destruct (dirty_frames c) as [|f ds]; [done|].
  intros (c1 & [] & E1 & (c2 & [] & E2 & E3)%sr_bind_inv)%sr_bind_inv. rewrite (sr_bind_ok _ _ _ _ _ E1).
  assert (E2' : journal_images (fun _ => io_fine) (f :: ds) c1 = (c2, Ok tt)); [|by rewrite (sr_bind_ok _ _ _ _ _ E2')].
  revert E2. unfold journal_images. destruct (journal c1) as [j|]; [|done]. destruct (collect_res _) as [ims|e|]; [|done..].
  destruct (bj_append_all env j (ims ++ [JCommit])) as [j' r] eqn:E. intros [= <- ->]. by rewrite (append_all_ok _ _ _ _ E).
Qed.

(** C21: a crash inside a flush is atomic.  The cache's [flush] runs over a journal
    whose appends stop where [env] says and a disk that stops at its [k]-th write or
    sync; what the flush leaves, a crash turns into [file] ([survives]: the blocks
    written since the last sync may hold anything) and the journal's bytes.
    Reopening the store and replaying the journal succeeds and gives an
    empty-handed, well-formed pool that shows every page that was durable as it was
    before the flush, or every such page, and those flushed for the first time, as
    the flush meant to leave them; never a mix.  After a flush that returned, it is
    the second. *)
Theorem flush_crash_atomic (c : Inner) D n0 lim n env k fl j file :
  cache_inv None c -> synced D n0 (block c) -> room (d_next_id (block c)) lim -> (0 < n)%nat -> journal c = Some j ->
  let '(x, r) := flush env (stopping D k fl c) in
  survives (st_durable (block x)) (d_file (st_disk (block x))) file ->
  exists committed, recovers c n0 lim n committed file (log_bytes x) /\ (r = Ok tt -> committed = true).
Proof.
  intros I Hs Hroom Hn Hj. destruct (flush env (stopping D k fl c)) as [x r] eqn:E. intros Hsv. pose proof E as Efl.
  pose proof (ok_journal _ _ I j Hj) as Hlog. pose proof (dirty_flushable None c I) as Hfl. pose proof (flush_images_wf c I) as Hwf.
  unfold flush in E. rewrite sr_bind_get in E. change (dirty_frames (stopping D k fl c)) with (dirty_frames c) in E.
  destruct (decide (dirty_frames c = [])) as [Ed|Hne].
  { rewrite Ed in E. injection E as <- <-. exists true. split; [|done]. unfold log_bytes. cbn [journal stopping]. rewrite Hj, (proj1 Hlog). cbn [f_bytes].
    eapply (recovers_idle c D n0 lim n); try done. unfold flush_images, images. by rewrite Ed. }
  assert (Hm : forall A (a b : A), match dirty_frames c with [] => a | _ => b end = b) by (intros; by destruct (dirty_frames c)). rewrite Hm in E. clear Hm.
  erewrite sr_bind_ok in E; [|apply finalize_loop; [apply Hfl|]].
  2:{ intros f Hf. destruct (proj1 (proj2 Hfl) f Hf) as (fr & id & Ef & _ & _ & Hl). eauto. }
  change (frames (stopping D k fl c)) with (frames c) in E. set (x1 := set_frames _ (stopping D k fl c)) in E.
  assert (Him : collect_res (map (image_of x1) (dirty_frames c)) = Ok (flush_images c)).
  { apply collect_res_map. intros f Hf. destruct (proj1 (proj2 Hfl) f Hf) as (fr & id & Ef & Hp & _). unfold image_of.
    cbn [x1 set_frames frames]. rewrite changed_lookup, Ef. cbn. rewrite decide_True by done. cbn. by rewrite Hp. }
  assert (Hji : journal_images env (dirty_frames c) x1
            = (set_journal (Some (bj_append_all env j (flush_images c ++ [JCommit])).1) x1, (bj_append_all env j (flush_images c ++ [JCommit])).2)).
  { unfold journal_images. change (journal x1) with (journal c). rewrite Hj, Him. by destruct (bj_append_all env j _). }
  destruct (append_all_cut env j [] (flush_images c ++ [JCommit]) Hlog Hwf) as [seen Hcut].
  destruct (bj_append_all env j (flush_images c ++ [JCommit])) as [j' r'] eqn:Ea. cbn [fst snd] in *. destruct r' as [[]|e|].
  2, 3: unfold mbind at 1, sr_bind at 1 in E; rewrite Hji in E; injection E as <- <-;
    destruct (recovers_cut c D n0 lim n I Hs Hroom Hn _ seen file Hcut Hsv) as [b Hb]; by exists b.
  rewrite (sr_bind_ok _ _ _ _ _ Hji) in E.
  destruct (bj_append_all_fine (fun _ => io_fine) j [] _ Hlog Hwf ltac:(done)) as (j2 & E2 & Hlog'). rewrite (append_all_ok _ _ _ _ Ea) in E2. injection E2 as <-.
  destruct (logged_outcome c D n0 lim n I Hs Hroom Hn k fl j' x r file Hlog' E Hsv) as [[Hr Hrec]|(-> & Hdur & Hlb & Hlen)]; [by exists true|].
  exists true. split; [|done]. rewrite Hdur in Hsv. rewrite (survives_same _ _ _ Hlen Hsv), Hlb.
  pose proof (flush_erases env _ _ _ Efl) as Ee. replace (erase (stopping D k fl c)) with c in Ee by (by destruct c).
  change (d_file (st_disk (block x))) with (d_file (block (erase x))). by eapply (recovers_truncated c D n0 lim n I Hs Hn (fun _ => io_fine)); [|eapply flush_ok_fine].
Qed.
End crash.

(** ** Witness *)

Section witness.
Import Journal.Ieee Castagnoli.
Let fine : nat -> io_env := fun _ => io_fine.

(** A pool with a journal over a fresh file, after the allocation of page 1. *)
Definition disk_pool : PageCache.Inner DiskBlockStore (LruK nat) :=
  MkInner fresh_disk [Frame_new] ∅ [0%nat] (MkLruK 2 0 ∅)
    (Some (MkBJ (MkJournal (File (journal_bytes (@nil JournalOp)) (length (journal_bytes (@nil JournalOp))))))).
Definition disk_pool_alloc : PageCache.Inner DiskBlockStore (LruK nat) := (inner_allocate fine disk_pool).1.

Lemma fresh_disk_ok : disk_ok fresh_disk.
Proof. split; try (by vm_compute); vm_compute; constructor. Qed.

(** The store after that allocation, which grows the file by one chunk. *)
Definition grown_disk : DiskBlockStore := (disk_allocate fresh_disk).1.

Lemma grown_disk_eq : disk_allocate fresh_disk = (grown_disk, Ok 1).
Proof.
  assert (E : (disk_allocate fresh_disk).2 = Ok 1) by (vm_compute; reflexivity).
  unfold grown_disk. destruct (disk_allocate fresh_disk). cbn [fst snd] in *. by rewrite E.
Qed.

Lemma grown_disk_facts :
  d_next_id grown_disk = 2 /\ d_free_list grown_disk = [] /\ capacity_blocks grown_disk = 16
  /\ d_file grown_disk = d_file fresh_disk ++ replicate (15 * BLOCK_SIZE) x00.
Proof.
  split; [vm_compute; reflexivity|]. split; [vm_compute; reflexivity|]. split; [vm_compute; reflexivity|].
  apply (bool_decide_eq_true_1 _). vm_compute. reflexivity.
Qed.

Lemma disk_pool_allocate : inner_allocate fine disk_pool = (disk_pool_alloc, Ok (1, 0%nat)) /\ block disk_pool_alloc = grown_disk.
Proof.
  unfold disk_pool_alloc, inner_allocate. erewrite sr_bind_ok.
  2:{ unfold on_block. cbn [block disk_pool bs_allocate DiskBlockStore_store]. rewrite grown_disk_eq. reflexivity. }
  generalize grown_disk. intros d. split; reflexivity.
Qed.

Lemma disk_pool_run : cache_run fine disk_pool_alloc {[1 := zeroed]}.
Proof.
  apply (run_allocate fine disk_pool ∅ disk_pool_alloc 1 0); [|apply disk_pool_allocate].
  apply (run_new fine fresh_disk 1 (MkLruK 2 0 ∅) (journal disk_pool) _ ∅); [apply fresh_disk_ok|done|done| |done|reflexivity].
  intros j' [= <-]. split; [done|constructor].
Qed.

Lemma disk_pool_synced : synced (d_file fresh_disk) 1 (block disk_pool_alloc).
Proof.
  destruct disk_pool_allocate as [_ ->]. destruct grown_disk_facts as (Hn & Hfl & Hc & Hf).
  split; [by eexists|]. split; [vm_compute; reflexivity|]. split; [lia|].
  split; [exists 1; vm_compute; split; congruence|]. split; [|split; [done|lia]].
  destruct (disk_allocate_ok _ _ _ fresh_disk_ok grown_disk_eq) as [W _]. exact W.
Qed.

(** The flush of page 1 stops at its first write, and the file is the old one. *)
Definition w_stopped := flush fine (stopping (d_file fresh_disk) 0 false disk_pool_alloc).

Lemma w_survives : survives (st_durable (block w_stopped.1)) (d_file (st_disk (block w_stopped.1))) (d_file fresh_disk).
Proof.
  assert (Hd : st_durable (block w_stopped.1) = d_file fresh_disk) by (vm_compute; reflexivity).
  assert (Hn : bool_decide (length (d_file fresh_disk) <= length (d_file (st_disk (block w_stopped.1))))%nat = true) by (vm_compute; reflexivity).
  apply bool_decide_eq_true in Hn. assert (Hl : Z.of_nat (length (d_file fresh_disk)) = 8192) by (vm_compute; reflexivity).
  rewrite Hd. split; [by exists 1|lia|lia|by left].
Qed.

Lemma flush_crash_atomic_witness :
  exists committed, recovers disk_pool_alloc 1 (2 ^ 40) 4 committed (d_file fresh_disk) (log_bytes w_stopped.1)
    /\ (w_stopped.2 = Ok tt -> committed = true).
Proof.
  assert (Hj : exists j, journal disk_pool_alloc = Some j) by (destruct disk_pool_allocate as [_ _]; by eexists).
  destruct Hj as [j Hj]. pose proof (flush_crash_atomic disk_pool_alloc (d_file fresh_disk) 1 (2 ^ 40) 4 fine 0 false j (d_file fresh_disk)) as H.
  pose proof w_survives as Hsv. unfold w_stopped in *. destruct (flush fine (stopping (d_file fresh_disk) 0 false disk_pool_alloc)) as [x r]. apply H.
  - apply (run_inv fine _ {[1 := zeroed]}); [done|apply disk_pool_run].
  - apply disk_pool_synced.
  - destruct disk_pool_allocate as [_ ->], grown_disk_facts as (-> & _). by vm_compute.
  - lia.
  - exact Hj.
  - exact Hsv.
Defined.
End witness.
