(* ===== verification/Heap.v ===== *)
(** * The tuple heap

    [Heap] of tuple/heap.rs: tuples parked in tuple pages over the page cache
    and addressed by [TupleLoc].  [edit] is the shape of every mutation in the
    source: take the page's bytes mutably, change them, drop the handle on every
    path out.  [heap_run] is every way callers drive a heap, with the map of live
    tuples it stands for. *)

From Stdlib Require Import Strings.Byte ZArith Lia.
From stdpp Require Import prelude list gmap strings.
From S2P Require Import Prelude Codec Journal Page TuplePage BlockStore BlockJournal Policies PageCache PageCacheOk.
Local Open Scope Z_scope.

#[global] Instance TupleLoc_countable : Countable TupleLoc.
Proof. apply (inj_countable' (fun l => (page_id l, slot_id l)) (fun p => MkLoc p.1 p.2)). by intros []. Defined.

(** ** Operations on a pinned page *)

(** Open the page as a tuple page, then act on it. *)
Definition on_tuple_page {A} (op : list byte -> res Error (A * list byte)) : SR (list byte) Error A := fun b =>
  match tp_open b with
  | Ok _ => match op b with Ok (a, b') => (b', Ok a) | Err e => (b, Err e) | Panic => (b, Panic) end
  | Err e => (b, Err e)
  | Panic => (b, Panic)
  end.

(** Initialise the page, then insert the tuple. *)
Definition init_and_insert (tuple : list byte) : SR (list byte) Error Z := fun b =>
  match tp_init b with
  | Ok b1 =>
      match free_space b1 with
      | Ok max =>
          match tp_insert b1 tuple with
          | Ok (Some slot, b2) => (b2, Ok slot)
          | Ok (None, b2) => (b2, Err (ETupleTooLarge (Z.of_nat (length tuple)) max))
          | Err e => (b1, Err e)
          | Panic => (b1, Panic)
          end
      | Err e => (b1, Err e)
      | Panic => (b1, Panic)
      end
  | Err e => (b, Err e)
  | Panic => (b, Panic)
  end.

(** [TuplePage::open(page).ok()?.get(slot)]. *)
Definition live_tuple (b : list byte) (slot : Z) : res Error (option (list byte)) :=
  match tp_open b with
  | Ok _ => tp_get b slot
  | Err _ => Ok None
  | Panic => Panic
  end.

(** [TuplePageMut::open(page).ok()?.into_slot_bytes_mut(slot)], filled with [d]. *)
Definition live_tuple_write (d : list byte) (slot : Z) (b : list byte) : res Error (option (list byte)) :=
  match tp_open b with
  | Ok _ => slot_write b slot d
  | Err _ => Ok None
  | Panic => Panic
  end.

Section heap.
Context {V P : Type} {CRC : Crc32} {CRCc : Crc32c}.
Context `{!BlockStore V} `{!EvictionPolicy P nat}.
Abbreviation Inner := (Inner V P).

Record Heap : Type := MkHeap { h_cache : Inner; h_current : option Z }.

Definition Heap_new (c : Inner) : Heap := MkHeap c None.

(** An operation of the cache. *)
Definition on_cache {A} (op : SR Inner Error A) : SR Heap Error A := fun h =>
  let '(c, r) := op (h_cache h) in (MkHeap c (h_current h), r).

Definition set_current (id : Z) : SR Heap Error unit := sr_modify (fun h => MkHeap (h_cache h) (Some id)).

(** Change the bytes behind a write handle and drop it, whatever the outcome. *)
Definition edit {A} (w : WritePage) (body : SR (list byte) Error A) : SR Inner Error A :=
  b ← wp_bytes w;
  let '(b', r) := body b in
  _ ← wp_set w b';
  _ ← wp_drop w;
  sr_lift r.

Section ops.
Context (env : nat -> io_env).

Definition try_append (id : Z) (tuple : list byte) : SR Heap Error (option Z) :=
  on_cache (w ← cache_write env id; edit w (on_tuple_page (fun b => tp_insert b tuple))).

Definition append_to_new_page (tuple : list byte) : SR Heap Error (Z * Z) :=
  on_cache (p ← cache_allocate env; s ← edit p.2 (init_and_insert tuple); mret (p.1, s)).

Definition insert_fresh (tuple : list byte) : SR Heap Error TupleLoc :=
  p ← append_to_new_page tuple;
  _ ← set_current p.1;
  mret (MkLoc p.1 p.2).

Definition heap_insert (tuple : list byte) : SR Heap Error TupleLoc :=
  h ← sr_get;
  match h_current h with
  | Some id =>
      o ← try_append id tuple;
      match o with
      | Some slot => mret (MkLoc id slot)
      | None => insert_fresh tuple
      end
  | None => insert_fresh tuple
  end.

Definition heap_delete (l : TupleLoc) : SR Heap Error bool :=
  on_cache (w ← cache_write env (page_id l); edit w (on_tuple_page (fun b => tp_delete b (slot_id l)))).

Definition heap_flush : SR Heap Error unit := on_cache (flush env).

(** Views own a pin on their page. *)
Record TupleRef : Type := MkTupleRef { tr_page : ReadPage; tr_slot : Z }.
Record TupleMut : Type := MkTupleMut { tm_page : WritePage; tm_slot : Z }.
Record PageTuples : Type := MkPageTuples { pt_page : ReadPage }.

Definition heap_get (l : TupleLoc) : SR Heap Error TupleRef :=
  page ← on_cache (cache_read env (page_id l));
  mret (MkTupleRef page (slot_id l)).

Definition heap_get_mut (l : TupleLoc) : SR Heap Error TupleMut :=
  page ← on_cache (cache_write env (page_id l));
  mret (MkTupleMut page (slot_id l)).

Definition heap_page (id : Z) : SR Heap Error PageTuples :=
  page ← on_cache (cache_read env id);
  mret (MkPageTuples page).
End ops.

Definition tr_loc (v : TupleRef) : TupleLoc := MkLoc (rp_page_id (tr_page v)) (tr_slot v).
Definition tr_bytes (v : TupleRef) : SR Heap Error (option (list byte)) :=
  b ← on_cache (rp_bytes (tr_page v)); sr_lift (live_tuple b (tr_slot v)).
Definition tr_drop (v : TupleRef) : SR Heap Error unit := on_cache (rp_drop (tr_page v)).

Definition tm_bytes (v : TupleMut) : SR Heap Error (option (list byte)) :=
  b ← on_cache (wp_bytes (tm_page v)); sr_lift (live_tuple b (tm_slot v)).

(** A caller fills the slice [bytes_mut] lends with [d]; [false]: there is none. *)
Definition tm_write (v : TupleMut) (d : list byte) : SR Heap Error bool :=
  b ← on_cache (wp_bytes (tm_page v));
  o ← sr_lift (live_tuple_write d (tm_slot v) b);
  match o with
  | Some b' => _ ← on_cache (wp_set (tm_page v) b'); mret true
  | None => mret false
  end.
Definition tm_drop (v : TupleMut) : SR Heap Error unit := on_cache (wp_drop (tm_page v)).

(** [PageTuples::tuple(slot).bytes()]. *)
Definition pt_tuple (v : PageTuples) (slot : Z) : SR Heap Error (option (list byte)) :=
  b ← on_cache (rp_bytes (pt_page v)); sr_lift (live_tuple b slot).

(** [PageTuples::iter]: the slots it yields views for. *)
Definition pt_iter (v : PageTuples) : SR Heap Error (list Z) :=
  b ← on_cache (rp_bytes (pt_page v));
  match tp_open b with
  | Ok _ => n ← sr_lift (slot_count b); mret (seqZ 0 n)
  | Err _ => mret []
  | Panic => sr_lift Panic
  end.
Definition pt_drop (v : PageTuples) : SR Heap Error unit := on_cache (rp_drop (pt_page v)).
End heap.
Arguments Heap : clear implicits.

(** [Heap::open] over the bytes of [tuples.db] and [tuples.journal]. *)
Definition heap_open {CRC : Crc32} {CRCc : Crc32c} (limit : Z) (frames : nat) (db : list byte) (jdisk : option (list byte))
  : DiskBlockStore * res Error (Heap DiskBlockStore (LruK nat)) :=
  match disk_open limit db with
  | (d, Ok _) =>
      match with_journal frames jdisk d with
      | (d', Ok c) => (d', Ok (Heap_new c))
      | (d', Err e) => (d', Err e)
      | (d', Panic) => (d', Panic)
      end
  | (d, Err e) => (d, Err e)
  | (d, Panic) => (d, Panic)
  end.

(** ** The abstract heap

    [T] gives each tuple page its list of slots; the live tuples are what a
    lookup finds. *)
Definition tlookup (T : gmap Z (list tuple_slot)) (l : TupleLoc) : option (list byte) :=
  ts ← T !! page_id l; spec_get ts (slot_id l).

Lemma tlookup_insert T id ts l :
  tlookup (<[id := ts]> T) l = if decide (page_id l = id) then spec_get ts (slot_id l) else tlookup T l.
Proof.
  unfold tlookup. rewrite lookup_insert. case_decide as H; case_decide as H'; try done; congruence.
Qed.

Lemma spec_get_snoc ts t slot :
  0 <= slot -> spec_get (ts ++ [MkSlot true t]) slot
               = if decide (slot = Z.of_nat (length ts)) then Some t else spec_get ts slot.
Proof.
  intros H. unfold spec_get. case_decide as Hd.
  - subst slot. by rewrite Nat2Z.id, list_lookup_middle.
  - destruct (decide (Z.to_nat slot < length ts)%nat).
    + by rewrite lookup_app_l by lia.
    + rewrite (lookup_ge_None_2 ts), lookup_ge_None_2; [done| |lia]. rewrite length_app. cbn. lia.
Qed.

Lemma spec_get_delete ts s slot :
  0 <= slot -> 0 <= s ->
  spec_get (spec_delete ts s) slot = if decide (slot = s) then None else spec_get ts slot.
Proof.
  intros H Hs. unfold spec_get, spec_delete. rewrite list_lookup_alter. case_decide as Hd; case_decide as Hd'; try done; try lia.
  subst slot. by destruct (ts !! Z.to_nat s).
Qed.

Lemma spec_get_write ts s d t slot :
  0 <= slot -> 0 <= s -> spec_get ts s = Some t ->
  spec_get (spec_write ts s d) slot = if decide (slot = s) then Some d else spec_get ts slot.
Proof.
  intros H Hs Ht. unfold spec_get, spec_write in *. rewrite list_lookup_alter. case_decide as Hd; case_decide as Hd'; try done; try lia.
  subst slot. destruct (ts !! Z.to_nat s) as [x|]; [|done]. cbn. by destruct (live x).
Qed.

Lemma spec_get_lt ts s t : 0 <= s -> spec_get ts s = Some t -> s < Z.of_nat (length ts).
Proof.
  intros H. unfold spec_get. destruct (ts !! Z.to_nat s) as [x|] eqn:E; [|done]. apply lookup_lt_Some in E. lia.
Qed.

Section refinement.
Context {V P : Type} {CRC : Crc32} {CRCok : Crc32Ok} {CRCc : Crc32c} {CRCcok : Crc32cOk}.
Context {BS : BlockStore V} {BSok : BlockStoreOk V} {EP : EvictionPolicy P nat} {EPok : EvictionPolicyOk P nat}.
Abbreviation Inner := (Inner V P).
Abbreviation Heap := (Heap V P).
Context (env : nat -> io_env) (Henv : forall n, env n = io_fine).

(** No handle is held. *)
Definition at_rest (c : Inner) : Prop := Forall (fun p => p = (0, false)) (pins c).

(** No write handle is held. *)
Definition no_writer (c : Inner) : Prop := Forall (fun p => p.2 = false) (pins c).

Lemma at_rest_no_writer (c : Inner) : at_rest c -> no_writer c.
Proof. intros H. eapply Forall_impl; [exact H|]. by intros ? ->. Qed.

(** A write handle taken and dropped. *)
Lemma unpin_pin f (l : list (Z * bool)) :
  Forall (fun p => p.2 = false) l -> alter unpin_write f (alter pin_write f l) = l.
Proof.
  intros H. apply list_eq. intros i. rewrite list_lookup_alter.
  case_decide; [subst|by rewrite list_lookup_alter_ne]. rewrite list_lookup_alter_eq. destruct (l !! i) as [p|] eqn:E; [|done].
  rewrite Forall_lookup in H. specialize (H _ _ E). destruct p. cbn in *. by subst.
Qed.

Lemma at_rest_unpinned (c : Inner) f fr : at_rest c -> frames c !! f = Some fr -> unpinned fr = true.
Proof.
  intros H E. apply pins_lookup in E. unfold at_rest in H. rewrite Forall_lookup in H. specialize (H _ _ E). destruct fr. cbn in H. by injection H as -> ->.
Qed.

(** Why a page could not be pinned. *)
Definition pin_failure (c : Inner) (id : Z) (e : Error) : Prop :=
  (e = EBusy id /\ pinned c id) \/ (e = EPoolExhausted (Z.of_nat (length (frames c))) /\ all_pinned c).

(** One mutation through a handle. *)
Lemma edit_run {A} f fr id (body : SR (list byte) Error A) (c : Inner) m :
  cache_run env c m -> frames c !! f = Some fr -> fr_page fr = Some id -> fr_writer fr = true ->
  length (body (fr_buf fr)).1 = BLOCK_SIZE ->
  exists c', edit (MkWritePage f id) body c = (c', (body (fr_buf fr)).2)
    /\ cache_run env c' (<[id := (body (fr_buf fr)).1]> m) /\ pins c' = alter unpin_write f (pins c)
    /\ length (frames c') = length (frames c).
Proof using Henv CRCcok CRCok BSok EPok.
  intros R E Hp Hw Hl. destruct (run_inv env c m Henv R) as [I _].
  destruct (wp_set_spec f fr id _ c I E Hp Hw Hl) as (c1 & E1 & I1 & B1 & P1 & F1 & V1).
  assert (Hlt : (f < length (frames c))%nat) by (by eapply lookup_lt_Some).
  set (b' := (body (fr_buf fr)).1) in *.
  assert (Ef1 : frames c1 !! f = Some (with_buf b' fr)) by (rewrite F1; by apply list_lookup_insert_eq).
  destruct (release_write_spec f _ id c1 I1 Ef1 Hp) as (c2 & E2 & I2 & B2 & P2 & V2).
  exists c2. split; [|split; [|split]].
  - unfold edit. erewrite sr_bind_ok; [|unfold wp_bytes; erewrite sr_bind_ok; [done|]; unfold frame_at; cbn [wp_frame]; by rewrite E].
    subst b'. destruct (body (fr_buf fr)) as [b' r] eqn:Eb. cbn [fst snd] in *. rewrite (sr_bind_ok _ _ _ _ _ E1).
    unfold wp_drop. cbn [wp_frame]. by rewrite (sr_bind_ok _ _ _ _ _ E2).
  - eapply (run_release_write env c1 _ f); [|exact Ef1|by eexists|exact E2]. by eapply (run_set env c m f fr id).
  - by rewrite P2, P1.
  - apply (f_equal length) in P2, P1. unfold pins in *. rewrite length_alter in P2. rewrite !length_fmap in *. lia.
Qed.

Lemma pins_frames (c c' : Inner) g f : pins c' = alter g f (pins c) -> length (frames c') = length (frames c).
Proof. intros H. apply (f_equal length) in H. unfold pins in H. rewrite length_alter, !length_fmap in H. done. Qed.

Lemma pin_write_writer (c c' : Inner) f fr :
  pins c' = alter pin_write f (pins c) -> frames c' !! f = Some fr -> fr_writer fr = true.
Proof.
  intros H E. apply pins_lookup in E. rewrite H, list_lookup_alter_eq in E. destruct (pins c !! f); [|done].
  cbn in E. destruct fr. by injection E.
Qed.

(** What a mutation of a known page comes back with: the page could not be
    pinned and nothing changed, or [body] ran on its bytes. *)
Lemma write_page_run {A} id p (body : SR (list byte) Error A) (c : Inner) m :
  cache_run env c m -> m !! id = Some p -> (forall b, b ≈p p -> length (body b).1 = BLOCK_SIZE) ->
  exists c' r, (w ← cache_write env id; edit w body) c = (c', r)
    /\ length (frames c') = length (frames c) /\ (no_writer c -> pins c' = pins c)
    /\ ((exists e, r = Err e /\ pin_failure c id e /\ cache_run env c' m)
        \/ exists b, b ≈p p /\ r = (body b).2 /\ cache_run env c' (<[id := (body b).1]> m)).
Proof using Henv CRCcok CRCok BSok EPok.
  intros R Hp Hb. destruct (run_inv env c m Henv R) as [I H]. destruct (H id p Hp) as [Hu Hv].
  destruct (acquire_write_spec env Henv c I id Hu) as (c1 & r1 & E1 & I1 & _ & Hr); [inversion Hv; eauto|].
  unfold cache_write. destruct r1 as [f|e|]; [| |done].
  - destruct Hr as (P1 & fr & Ef & Hpg & Hbuf). pose proof (pin_write_writer _ _ _ _ P1 Ef) as Hw.
    assert (Hbp : fr_buf fr ≈p p) by (rewrite Hv in Hbuf; by inversion Hbuf).
    assert (R1 : cache_run env c1 m) by (eapply (run_write env c m id); eauto).
    destruct (edit_run f fr id body c1 m R1 Ef Hpg Hw (Hb _ Hbp)) as (c2 & E2 & R2 & P2 & F2).
    exists c2, (body (fr_buf fr)).2. split; [by rewrite (sr_bind_ok _ _ _ c1 (MkWritePage f id)) by (by rewrite (sr_bind_ok _ _ _ _ _ E1))|].
    split; [by rewrite F2, (pins_frames _ _ _ _ P1)|]. split; [|right; eauto].
    intros Hr. rewrite P2, P1. by apply unpin_pin.
  - destruct Hr as (P1 & He). exists c1, (Err e).
    split; [by rewrite (sr_bind_err _ _ _ c1 e) by (by rewrite (sr_bind_err _ _ _ _ _ E1))|].
    split; [by rewrite (pins_frames c c1 (fun p => p) 0) by (by rewrite list_alter_id)|].
    split; [done|]. left. exists e. split; [done|]. split; [done|].
    eapply (run_write env c m id); eauto.
Qed.

(** What filling a fresh page comes back with. *)
Lemma new_page_run {A} (body : SR (list byte) Error A) (c : Inner) m :
  cache_run env c m -> length (body zeroed).1 = BLOCK_SIZE ->
  exists c' r, (p ← cache_allocate env; s ← edit p.2 body; mret (p.1, s)) c = (c', r) /\
    match r with
    | Panic => (exists v, bs_allocate (block c) = (v, Panic)) \/ (body zeroed).2 = Panic
    | _ => length (frames c') = length (frames c) /\ (no_writer c -> pins c' = pins c)
      /\ ((exists e, r = Err e /\ cache_run env c' m
             /\ ((exists v, bs_allocate (block c) = (v, Err e))
                 \/ (e = EPoolExhausted (Z.of_nat (length (frames c))) /\ all_pinned c)))
          \/ exists id, ~ bs_used (block c) id /\ m !! id = None /\ is_u64 id
              /\ r = map_ok (pair id) (body zeroed).2 /\ cache_run env c' (<[id := (body zeroed).1]> m))
    end.
Proof using Henv CRCcok CRCok BSok EPok.
  intros R Hl. destruct (run_inv env c m Henv R) as [I H].
  destruct (allocate_spec env c Henv I) as (c1 & r1 & E1 & Hr). unfold cache_allocate.
  destruct r1 as [[id f]|e|].
  - destruct Hr as (I1 & K1 & Hnu & Hu & P1 & fr & Ef & Hpg & Hbuf).
    pose proof (pin_write_writer _ _ _ _ P1 Ef) as Hw. rewrite <- Hbuf in Hl.
    assert (R1 : cache_run env c1 (<[id := zeroed]> m)) by (by eapply (run_allocate env c m)).
    destruct (edit_run f fr id body c1 _ R1 Ef Hpg Hw Hl) as (c2 & E2 & R2 & P2 & F2). rewrite Hbuf, insert_insert_eq in *.
    exists c2, (map_ok (pair id) (body zeroed).2). split.
    { rewrite (sr_bind_ok _ _ _ c1 (id, MkWritePage f id)) by (by rewrite (sr_bind_ok _ _ _ _ _ E1)). cbn [fst snd].
      unfold mbind, sr_bind. rewrite E2. by destruct (body zeroed).2. }
    destruct (body zeroed).2 eqn:Eb; cbn [map_ok]; [| |by right].
    all: split; [by rewrite F2, (pins_frames _ _ _ _ P1)|]; split; [intros Hr; rewrite P2, P1; by apply unpin_pin|].
    all: right; exists id; split; [done|]; split; [|split; [by apply (bs_used_u64 (block c1)); [apply I1|]|done]].
    all: destruct (m !! id) as [p|] eqn:Em; [|done]; by destruct (H id p Em).
  - destruct Hr as (I1 & (_ & P1 & _) & He). exists c1, (Err e).
    split; [by rewrite (sr_bind_err _ _ _ c1 e) by (by rewrite (sr_bind_err _ _ _ _ _ E1))|].
    split; [by rewrite (pins_frames c c1 (fun p => p) 0) by (by rewrite list_alter_id)|].
    split; [done|]. left. exists e. split; [done|]. split; [|done].
    by eapply (run_allocate_err env c m).
  - exists c1, Panic. split; [|by left]. unfold mbind, sr_bind. by rewrite E1.
Qed.

(** ** The invariant *)

Definition pages_rep (pages : gmap Z Block) (T : gmap Z (list tuple_slot)) : Prop :=
  forall id ts, T !! id = Some ts -> exists p, pages !! id = Some p /\ tp_rep p ts.

Definition heap_inv (h : Heap) (T : gmap Z (list tuple_slot)) : Prop :=
  exists pages, cache_run env (h_cache h) pages /\ pages_rep pages T
    /\ (forall id, h_current h = Some id -> is_Some (T !! id)) /\ (0 < length (frames (h_cache h)))%nat.

(** [m] is the map of the live tuples. *)
Definition lives (T : gmap Z (list tuple_slot)) (m : gmap TupleLoc (list byte)) : Prop :=
  forall l t, m !! l = Some t <-> loc_wf l /\ tlookup T l = Some t.

Lemma pages_rep_insert pages T id p ts :
  pages_rep pages T -> tp_rep p ts -> pages_rep (<[id := p]> pages) (<[id := ts]> T).
Proof.
  intros H Hp i x. rewrite !lookup_insert. case_decide; [|apply H]. intros [= <-]. eauto.
Qed.

Lemma pages_rep_same pages T id p ts :
  pages_rep pages T -> T !! id = Some ts -> tp_rep p ts -> pages_rep (<[id := p]> pages) T.
Proof. intros H Hts Hp. rewrite <- (insert_id T id ts Hts). by apply pages_rep_insert. Qed.

(** A known page is a used block, so its id is a [u64]. *)
Lemma page_u64 (c : Inner) pages id p : cache_run env c pages -> pages !! id = Some p -> is_u64 id.
Proof using Henv CRCcok CRCok BSok EPok.
  intros R Hp. destruct (run_inv env c pages Henv R) as [I H]. destruct (H id p Hp) as [Hu _].
  apply (bs_used_u64 (block c)); [apply I|done].
Qed.

Lemma rep_u16 p ts : tp_rep p ts -> is_u16 (Z.of_nat (length ts)).
Proof. intros R. pose proof (rep_fits _ _ R). plia. Qed.

(** The bodies of the mutations, on a page with slots [ts]. *)
Lemma on_tuple_page_rep {A} p ts b (op : list byte -> res Error (A * list byte)) (a : A) b' :
  tp_rep p ts -> b ≈p p -> (tp_rep b ts -> op b = Ok (a, b')) -> on_tuple_page op b = (b', Ok a).
Proof.
  intros R Hb Hop. assert (Rb : tp_rep b ts) by (apply (rep_eqv _ _ R); by symmetry). unfold on_tuple_page.
  by rewrite (rep_type _ _ Rb), Hop.
Qed.

Lemma append_body p ts b t :
  tp_rep p ts -> b ≈p p ->
  exists b', on_tuple_page (fun b => tp_insert b t) b
             = (b', Ok (if spec_fits ts t then Some (Z.of_nat (length ts)) else None))
    /\ tp_rep b' (if spec_fits ts t then ts ++ [MkSlot true t] else ts).
Proof.
  intros R Hb. assert (Rb : tp_rep b ts) by (apply (rep_eqv _ _ R); by symmetry). destruct (spec_fits ts t) eqn:E.
  - destruct (tp_insert_some _ _ Rb t E) as (b' & Ei & R'). exists b'. split; [|done]. by apply (on_tuple_page_rep p ts).
  - exists b. split; [|done]. apply (on_tuple_page_rep p ts); [done..|]. intros _. by apply (tp_insert_none _ _ Rb).
Qed.

(** The room an empty page has for a tuple. *)
Definition max_tuple : Z := 8157.

Lemma init_body t :
  exists b', tp_rep b' (if Z.of_nat (length t) <=? max_tuple then [MkSlot true t] else [])
    /\ init_and_insert t zeroed
       = (b', if Z.of_nat (length t) <=? max_tuple then Ok 0 else Err (ETupleTooLarge (Z.of_nat (length t)) max_tuple)).
Proof.
  destruct (tp_init_rep zeroed length_zeroed) as (b1 & E1 & R1). unfold init_and_insert.
  rewrite E1, (free_space_rep _ _ R1).
  assert (Hm : Z.max 0 (Z.of_nat BLOCK_SIZE - Z.of_nat (tuples_size [] + slot_pos (length (A := tuple_slot) []) + SLOT_SIZE)) = max_tuple).
  { unfold tuples_size, max_tuple. cbn [fmap list_fmap sum_list sum_list_with length]. plia. }
  rewrite Hm. assert (Hf : spec_fits [] t = (Z.of_nat (length t) <=? max_tuple)).
  { unfold spec_fits, tuples_size, max_tuple. cbn [fmap list_fmap sum_list sum_list_with length].
    destruct (Z.leb_spec (Z.of_nat (length t)) 8157); [apply Nat.leb_le|apply Nat.leb_gt]; plia. }
  rewrite <- Hf. destruct (spec_fits [] t) eqn:E.
  - destruct (tp_insert_some _ _ R1 t E) as (b2 & E2 & R2). rewrite E2. exists b2. split; [exact R2|reflexivity].
  - rewrite (tp_insert_none _ _ R1 t E). exists b1. split; [exact R1|reflexivity].
Qed.

(** ** The operations *)

Lemma on_cache_eq {A} (op : SR Inner Error A) (h : Heap) c' r :
  op (h_cache h) = (c', r) -> on_cache op h = (MkHeap c' (h_current h), r).
Proof. unfold on_cache. by intros ->. Qed.

(** A mutation of a page of [T]: it could not be pinned, or its slots are now [ts']. *)
Lemma edit_page_spec {A} h T id ts ts' (a : A) (op : list byte -> res Error (A * list byte)) :
  heap_inv h T -> T !! id = Some ts ->
  (forall p b, tp_rep p ts -> b ≈p p -> exists b', on_tuple_page op b = (b', Ok a) /\ tp_rep b' ts') ->
  exists h' r, on_cache (w ← cache_write env id; edit w (on_tuple_page op)) h = (h', r)
    /\ (no_writer (h_cache h) -> pins (h_cache h') = pins (h_cache h)) /\ length (frames (h_cache h')) = length (frames (h_cache h))
    /\ h_current h' = h_current h
    /\ ((exists e, r = Err e /\ pin_failure (h_cache h) id e /\ heap_inv h' T)
        \/ (r = Ok a /\ heap_inv h' (<[id := ts']> T))).
Proof using Henv CRCcok CRCok BSok EPok.
  intros (pages & R & Hrep & Hcur & Hn) Hts Hbody. destruct (Hrep id ts Hts) as (p & Hp & Rp).
  destruct (write_page_run id p (on_tuple_page op) (h_cache h) pages R Hp) as (c' & r & E & Hl & Hrest & Hr).
  { intros b Hb. destruct (Hbody p b Rp Hb) as (b' & -> & R'). apply (rep_length _ _ R'). }
  exists (MkHeap c' (h_current h)), r. split; [by apply on_cache_eq|]. do 3 (split; [done|]).
  destruct Hr as [(e & -> & He & R')|(b & Hb & -> & R')].
  - left. exists e. do 2 (split; [done|]). exists pages. cbn [h_cache h_current]. rewrite Hl. done.
  - right. destruct (Hbody p b Rp Hb) as (b' & Eb & Rb'). rewrite Eb in *. split; [done|]. cbn [fst] in R'.
    exists (<[id := b']> pages). cbn [h_cache h_current]. rewrite Hl. split; [done|]. split; [by apply pages_rep_insert|].
    split; [|done]. intros i Hi. rewrite lookup_insert. case_decide; [done|auto].
Qed.

(** A store that cannot extend itself. *)
Definition store_failure (e : Error) : Prop := exists v v', bs_wf v /\ bs_allocate v = (v', Err e).
Definition store_panic : Prop := exists v v', bs_wf v /\ bs_allocate v = (v', Panic).

Lemma insert_fresh_spec h T t :
  heap_inv h T ->
  exists h' r, insert_fresh env t h = (h', r) /\
  match r with
  | Ok l => Z.of_nat (length t) <= max_tuple /\ T !! page_id l = None /\ is_u64 (page_id l) /\ slot_id l = 0
      /\ h_current h' = Some (page_id l)
      /\ heap_inv h' (<[page_id l := [MkSlot true t]]> T) /\ (no_writer (h_cache h) -> pins (h_cache h') = pins (h_cache h))
  | Err e => (no_writer (h_cache h) -> pins (h_cache h') = pins (h_cache h)) /\ h_current h' = h_current h /\
      ((e = ETupleTooLarge (Z.of_nat (length t)) max_tuple /\ max_tuple < Z.of_nat (length t)
         /\ exists id, T !! id = None /\ heap_inv h' (<[id := []]> T))
       \/ (heap_inv h' T /\ (store_failure e
            \/ (e = EPoolExhausted (Z.of_nat (length (frames (h_cache h)))) /\ all_pinned (h_cache h)))))
  | Panic => store_panic
  end.
Proof using Henv CRCcok CRCok BSok EPok.
  intros (pages & R & Hrep & Hcur & Hn). destruct (init_body t) as (b' & Rb & Eb).
  destruct (new_page_run (init_and_insert t) (h_cache h) pages R) as (c' & r & E & Hr).
  { rewrite Eb. apply (rep_length _ _ Rb). }
  destruct (run_inv env _ _ Henv R) as [I _]. pose proof (ok_store _ _ I) as W. rewrite Eb in Hr. cbn [fst snd] in Hr. clear Eb.
  assert (Hfresh : forall id, pages !! id = None -> T !! id = None).
  { intros id Hi. destruct (T !! id) as [ts|] eqn:Et; [|done]. destruct (Hrep id ts Et) as (p & Hp & _). congruence. }
  unfold insert_fresh, set_current. destruct r as [[id s]|e|].
  - destruct Hr as (Hl & Hrest & [(e & ? & _)|(id' & Hnu & Hid & Hu & Hok & R')]); [done|].
    destruct (Z.leb_spec (Z.of_nat (length t)) max_tuple) as [Hfit|]; [|done]. injection Hok as -> ->.
    eexists _, _. split; [by rewrite (sr_bind_ok _ _ _ _ _ (on_cache_eq _ _ _ _ E)), sr_bind_modify|]. cbn [page_id slot_id h_cache fst snd].
    split; [done|]. split; [by apply Hfresh|]. split; [done|]. split; [done|]. split; [done|]. split; [|done].
    exists (<[id' := b']> pages). cbn [h_cache h_current]. split; [done|]. split; [by apply pages_rep_insert|].
    split; [|by rewrite Hl]. intros i [= <-]. by rewrite lookup_insert_eq.
  - destruct Hr as (Hl & Hrest & Hr). exists (MkHeap c' (h_current h)), (Err e).
    split; [by rewrite (sr_bind_err _ _ _ _ _ (on_cache_eq _ _ _ _ E))|]. split; [done|]. split; [done|].
    destruct Hr as [(e' & [= <-] & R' & He)|(id & Hnu & Hid & Hu & Hok & R')].
    + right. split; [exists pages; cbn [h_cache h_current]; by rewrite Hl|].
      destruct He as [[v He]|He]; [left; by eexists _, _|by right].
    + left. destruct (Z.leb_spec (Z.of_nat (length t)) max_tuple) as [|Hbig]; [done|]. injection Hok as ->.
      split; [done|]. split; [done|]. exists id. split; [by apply Hfresh|]. exists (<[id := b']> pages). cbn [h_cache h_current].
      split; [done|]. split; [by apply pages_rep_insert|]. split; [|by rewrite Hl].
      intros i Hi. rewrite lookup_insert. case_decide; [done|auto].
  - exists (MkHeap c' (h_current h)), Panic. split.
    + unfold mbind at 1, sr_bind at 1. unfold append_to_new_page. by rewrite (on_cache_eq _ _ _ _ E).
    + destruct Hr as [[v He]|Hp]; [by eexists _, _|]. by destruct (Z.of_nat (length t) <=? max_tuple).
Qed.

(** Why an insert fails. *)
Definition insert_failure (h : Heap) (t : list byte) (e : Error) : Prop :=
  (e = ETupleTooLarge (Z.of_nat (length t)) max_tuple /\ max_tuple < Z.of_nat (length t))
  \/ store_failure e
  \/ (~ at_rest (h_cache h)
      /\ (e = EPoolExhausted (Z.of_nat (length (frames (h_cache h)))) \/ exists id, h_current h = Some id /\ e = EBusy id)).

Definition insert_result (h : Heap) T t (h' : Heap) (r : res Error TupleLoc) : Prop :=
  match r with
  | Ok l => Z.of_nat (length t) <= max_tuple /\ loc_wf l /\ (no_writer (h_cache h) -> pins (h_cache h') = pins (h_cache h))
      /\ (h_current h = Some (page_id l) \/ T !! page_id l = None) /\ h_current h' = Some (page_id l)
      /\ exists ts, default [] (T !! page_id l) = ts /\ slot_id l = Z.of_nat (length ts)
           /\ heap_inv h' (<[page_id l := ts ++ [MkSlot true t]]> T)
  | Err e => insert_failure h t e /\ (no_writer (h_cache h) -> pins (h_cache h') = pins (h_cache h)) /\ h_current h' = h_current h
      /\ exists T', T ⊆ T' /\ (forall l, tlookup T' l = tlookup T l) /\ heap_inv h' T'
  | Panic => store_panic
  end.

Lemma not_at_rest (c : Inner) : (0 < length (frames c))%nat -> all_pinned c -> ~ at_rest c.
Proof.
  intros Hn Ha Hr. destruct (lookup_lt_is_Some_2 (frames c) 0%nat Hn) as [fr E].
  specialize (Ha _ _ E). by rewrite (at_rest_unpinned _ _ _ Hr E) in Ha.
Qed.

Lemma pinned_not_at_rest (c : Inner) id : pinned c id -> ~ at_rest c.
Proof. intros (f & fr & E & _ & Hu) Hr. by rewrite (at_rest_unpinned _ _ _ Hr E) in Hu. Qed.

Lemma empty_page_lookup T id l : T !! id = None -> tlookup (<[id := []]> T) l = tlookup T l.
Proof.
  intros H. rewrite tlookup_insert. case_decide as Hd; [|done]. subst id. unfold tlookup. by rewrite H.
Qed.

Lemma insert_fresh_result h0 h T t :
  heap_inv h T -> (0 < length (frames (h_cache h0)))%nat ->
  (no_writer (h_cache h0) -> pins (h_cache h) = pins (h_cache h0)) -> length (frames (h_cache h)) = length (frames (h_cache h0)) ->
  h_current h = h_current h0 ->
  exists h' r, insert_fresh env t h = (h', r) /\ insert_result h0 T t h' r.
Proof using Henv CRCcok CRCok BSok EPok.
  intros Inv Hn Hrest Hl Hcu.
  assert (Hch : forall h' : Heap, (no_writer (h_cache h) -> pins (h_cache h') = pins (h_cache h)) ->
            no_writer (h_cache h0) -> pins (h_cache h') = pins (h_cache h0)).
  { intros h' Hr Hw. rewrite Hr; [by apply Hrest|]. unfold no_writer. by rewrite Hrest. }
  destruct (insert_fresh_spec h T t Inv) as (h' & r & E & Hr). exists h', r. split; [done|].
  destruct r as [l|e|]; [| |done].
  - destruct Hr as (Hfit & Hnone & Hu & Hs & Hc' & Inv' & Hr'). split; [done|]. split; [split; [done|rewrite Hs; ulia]|].
    split; [auto|]. split; [by right|]. split; [done|]. exists []. by rewrite Hnone.
  - destruct Hr as (Hr' & Hc' & Hr). rewrite Hcu in Hc'. destruct Hr as [(-> & Hbig & id & Hid & Inv')|(Inv' & Hf)].
    + split; [by left|]. split; [auto|]. split; [done|]. exists (<[id := []]> T). split; [by apply insert_subseteq|].
      split; [|done]. intros l. by apply empty_page_lookup.
    + split; [|split; [auto|split; [done|by exists T]]]. destruct Hf as [Hf|(-> & Ha)]; [right; by left|]. right; right.
      rewrite Hl. split; [|by left]. intros Hc. revert Ha. intros Ha%not_at_rest; [|lia].
      apply Ha. unfold at_rest. rewrite Hrest; [done|by apply at_rest_no_writer].
Qed.

Lemma insert_spec h T t :
  heap_inv h T -> exists h' r, heap_insert env t h = (h', r) /\ insert_result h T t h' r.
Proof using Henv CRCcok CRCok BSok EPok.
  intros Inv. pose proof Inv as (pages & R & Hrep & Hcur & Hn). unfold heap_insert. rewrite sr_bind_get.
  destruct (h_current h) as [id|] eqn:Ec; [|by apply insert_fresh_result].
  destruct (Hcur id eq_refl) as [ts Hts]. unfold try_append.
  destruct (edit_page_spec h T id ts _ _ (fun b => tp_insert b t) Inv Hts (fun p b Rp Hb => append_body p ts b t Rp Hb))
    as (h1 & r1 & E1 & Hrest & Hl & Hcu & [(e & -> & He & Inv1)|(-> & Inv1)]).
  - exists h1, (Err e). rewrite (sr_bind_err _ _ _ _ _ E1). split; [done|]. split; [|split; [done|split; [done|by exists T]]].
    right; right. destruct He as [(-> & Hp)|(-> & Ha)]; (split; [|eauto]).
    + by eapply pinned_not_at_rest.
    + by apply not_at_rest.
  - rewrite (sr_bind_ok _ _ _ _ _ E1). destruct (spec_fits ts t) eqn:Ef.
    + exists h1, (Ok (MkLoc id (Z.of_nat (length ts)))). split; [done|]. cbn [page_id slot_id insert_result].
      destruct (Hrep id ts Hts) as (p & Hp & Rp). split.
      { apply Nat.leb_le in Ef. unfold max_tuple. plia. }
      split; [split; cbn [page_id slot_id]; [by eapply page_u64|by eapply rep_u16]|]. split; [done|].
      split; [by left|]. split; [by rewrite Hcu|]. exists ts. by rewrite Hts.
    + rewrite (insert_id T id ts Hts) in Inv1. by apply insert_fresh_result.
Qed.

(** Lookups in the map of live tuples after each change of a page. *)
Lemma lives_insert T m l ts t :
  lives T m -> loc_wf l -> default [] (T !! page_id l) = ts -> slot_id l = Z.of_nat (length ts) ->
  m !! l = None /\ lives (<[page_id l := ts ++ [MkSlot true t]]> T) (<[l := t]> m).
Proof.
  intros H Hw Hts Hs.
  assert (Hold : forall l', page_id l' = page_id l -> tlookup T l' = spec_get ts (slot_id l')).
  { intros l' Hl'. unfold tlookup. rewrite Hl'. subst ts. by destruct (T !! page_id l). }
  split.
  - destruct (m !! l) as [t'|] eqn:E; [|done]. apply H in E as [_ E]. rewrite (Hold l eq_refl) in E.
    apply spec_get_lt in E; [lia|]. destruct Hw as [_ ?]. ulia.
  - intros l' t'. rewrite lookup_insert, tlookup_insert. destruct (decide (page_id l' = page_id l)) as [Hp|Hp].
    + assert (Hsn := spec_get_snoc ts t (slot_id l')). destruct (decide (l = l')) as [Hd|Hd].
      * subst l'. rewrite Hsn, decide_True by (try done; destruct Hw as [_ ?]; ulia). split; [by intros [= ->]|by intros [_ [= ->]]].
      * rewrite (H l' t' : _ <-> _), Hold by done. split; intros [Hw' E]; (split; [done|]); rewrite Hsn in * by (destruct Hw' as [_ ?]; ulia).
        all: rewrite decide_False in * by (intros Hc; apply Hd; destruct l, l'; cbn in *; congruence); done.
    + rewrite decide_False by (by intros ->). apply H.
Qed.

Lemma lives_update T m l ts ts' (o : option (list byte)) :
  lives T m -> loc_wf l -> T !! page_id l = Some ts ->
  (forall slot, 0 <= slot -> spec_get ts' slot = if decide (slot = slot_id l) then o else spec_get ts slot) ->
  lives (<[page_id l := ts']> T) (match o with Some d => <[l := d]> m | None => delete l m end).
Proof.
  intros H Hw Hts Hg l' t'. rewrite tlookup_insert.
  assert (Hm : match o with Some d => <[l := d]> m | None => delete l m end !! l' = if decide (l = l') then o else m !! l').
  { destruct o; [by rewrite lookup_insert|by rewrite lookup_delete]. }
  rewrite Hm. clear Hm. destruct (decide (page_id l' = page_id l)) as [Hp|Hp].
  - destruct (decide (l = l')) as [Hd|Hd].
    + subst l'. rewrite Hg, decide_True by (try done; destruct Hw as [_ ?]; ulia). by split; [|intros [_ ?]].
    + rewrite (H l' t' : _ <-> _). unfold tlookup. rewrite Hp, Hts. cbn.
      split; intros [Hw' E]; (split; [done|]); rewrite Hg in * by (destruct Hw' as [_ ?]; ulia).
      all: rewrite decide_False in * by (intros Hc; apply Hd; destruct l, l'; cbn in *; congruence); done.
  - rewrite decide_False by (by intros ->). apply H.
Qed.

Lemma lives_page T m l t : lives T m -> m !! l = Some t ->
  loc_wf l /\ exists ts, T !! page_id l = Some ts /\ spec_get ts (slot_id l) = Some t.
Proof.
  intros H [Hw E]%H. split; [done|]. unfold tlookup in E. destruct (T !! page_id l) as [ts|]; [|done]. by exists ts.
Qed.

Lemma delete_spec h T m l t :
  heap_inv h T -> lives T m -> m !! l = Some t ->
  exists h' r, heap_delete env l h = (h', r) /\ (no_writer (h_cache h) -> pins (h_cache h') = pins (h_cache h))
    /\ ((exists e, r = Err e /\ pin_failure (h_cache h) (page_id l) e /\ heap_inv h' T)
        \/ (r = Ok true /\ exists T', heap_inv h' T' /\ lives T' (delete l m))).
Proof using Henv CRCcok CRCok BSok EPok.
  intros Inv Hlv Hm. destruct (lives_page _ _ _ _ Hlv Hm) as (Hw & ts & Hts & Hg). destruct Hw as [Hp Hs].
  unfold heap_delete.
  destruct (edit_page_spec h T (page_id l) ts (spec_delete ts (slot_id l)) true (fun b => tp_delete b (slot_id l)) Inv Hts)
    as (h' & r & E & Hrest & _ & _ & Hr).
  { intros p b Rp Hb. assert (Rb : tp_rep b ts) by (apply (rep_eqv _ _ Rp); by symmetry).
    destruct (tp_delete_rep _ _ Rb (slot_id l) Hs) as (b' & Ed & R'). exists b'. split; [|done].
    apply (on_tuple_page_rep p ts); [done|done|]. intros _. rewrite Ed.
    rewrite bool_decide_true; [done|]. eapply spec_get_lt; [ulia|done]. }
  exists h', r. split; [done|]. split; [done|]. destruct Hr as [Hr|(-> & Inv')]; [by left|]. right. split; [done|].
  exists (<[page_id l := spec_delete ts (slot_id l)]> T). split; [done|].
  eapply (lives_update T m l ts _ None); [done|by split|done|]. intros slot H0. apply spec_get_delete; [done|ulia].
Qed.

(** A page pinned for reading shows its slots. *)
Definition shows_page (h : Heap) (p : ReadPage) (ts : list tuple_slot) : Prop :=
  exists fr, frames (h_cache h) !! rp_frame p = Some fr /\ fr_page fr = Some (rp_page_id p) /\ tp_rep (fr_buf fr) ts.

Lemma live_tuple_shows h p ts slot :
  shows_page h p ts -> is_u16 slot ->
  (b ← on_cache (rp_bytes p); sr_lift (live_tuple b slot)) h = (h, Ok (spec_get ts slot)).
Proof.
  intros (fr & Ef & _ & Rb) Hs. destruct h as [c cur]. erewrite sr_bind_ok; [|apply on_cache_eq; unfold rp_bytes;
    erewrite sr_bind_ok; [done|]; unfold frame_at; by rewrite Ef].
  cbn [h_cache h_current]. unfold live_tuple. by rewrite (rep_type _ _ Rb), (tp_get_rep _ _ Rb _ Hs).
Qed.

Lemma page_spec h T id ts :
  heap_inv h T -> T !! id = Some ts ->
  exists h' r, on_cache (cache_read env id) h = (h', r) /\ heap_inv h' T /\
  match r with
  | Ok p => rp_page_id p = id /\ shows_page h' p ts /\ pins (h_cache h') = alter pin_read (rp_frame p) (pins (h_cache h))
  | Err e => pins (h_cache h') = pins (h_cache h)
      /\ ((e = EBusy id /\ writing (h_cache h) id)
          \/ (e = EPoolExhausted (Z.of_nat (length (frames (h_cache h)))) /\ all_pinned (h_cache h)))
  | Panic => False
  end.
Proof using Henv CRCcok CRCok BSok EPok.
  intros (pages & R & Hrep & Hcur & Hn) Hts.
  destruct (Hrep _ _ Hts) as (p & Hpg & Rp). destruct (run_inv env _ _ Henv R) as [I H]. destruct (H _ _ Hpg) as [Hu Hv].
  destruct (acquire_read_spec env Henv (h_cache h) I id Hu) as (c1 & r1 & E1 & I1 & _ & Hr); [inversion Hv; eauto|].
  assert (R1 : cache_run env c1 pages) by (eapply (run_read env (h_cache h) pages id); eauto).
  unfold cache_read. destruct r1 as [f|e|]; [| |done].
  - destruct Hr as (P1 & fr & Ef & Hfp & Hbuf). exists (MkHeap c1 (h_current h)), (Ok (MkReadPage f id)).
    split; [apply on_cache_eq; by rewrite (sr_bind_ok _ _ _ _ _ E1)|].
    split; [exists pages; cbn [h_cache h_current]; by rewrite (pins_frames _ _ _ _ P1)|].
    split; [done|]. split; [|done]. exists fr. split; [done|]. split; [done|].
    apply (rep_eqv _ _ Rp). rewrite Hv in Hbuf. by inversion Hbuf.
  - destruct Hr as [P1 Hr]. exists (MkHeap c1 (h_current h)), (Err e).
    split; [apply on_cache_eq; by rewrite (sr_bind_err _ _ _ _ _ E1)|]. split; [|done].
    exists pages. cbn [h_cache h_current]. rewrite (pins_frames (h_cache h) c1 (fun p => p) 0) by (by rewrite list_alter_id). done.
Qed.

(** A pinned frame holds a page. *)
Lemma pinned_frame h T f n :
  heap_inv h T -> pins (h_cache h) !! f = Some (n, false) -> 0 < n ->
  exists fr id, frames (h_cache h) !! f = Some fr /\ fr_page fr = Some id /\ fr_readers fr = n.
Proof using Henv CRCcok CRCok BSok EPok.
  intros (pages & R & _) Hf Hn. destruct (run_inv env _ _ Henv R) as [I _].
  unfold pins in Hf. rewrite list_lookup_fmap in Hf. destruct (frames (h_cache h) !! f) as [fr|] eqn:E; [|done].
  injection Hf as Hr Hw. destruct (ok_frame _ _ I f fr E) as (_ & _ & Hp). exists fr.
  destruct (fr_page fr) as [id|]; [by exists id|]. destruct Hp as [Hu _]. unfold unpinned in Hu.
  rewrite (proj2 (Z.eqb_neq _ _)) in Hu; [done|lia].
Qed.

(** Dropping a read view. *)
Lemma drop_spec h T f n :
  heap_inv h T -> pins (h_cache h) !! f = Some (n, false) -> 0 < n ->
  exists h', on_cache (release_read f) h = (h', Ok tt) /\ heap_inv h' T
    /\ pins (h_cache h') = alter unpin_read f (pins (h_cache h))
    /\ forall p ts, shows_page h p ts -> shows_page h' p ts.
Proof using Henv CRCcok CRCok BSok EPok.
  intros Inv Hf Hn. destruct (pinned_frame h T f n Inv Hf Hn) as (fr & id & Ef & Hp & Hr).
  pose proof Inv as (pages & R & Hrep & Hcur & Hl). destruct (run_inv env _ _ Henv R) as [I _].
  destruct (release_read_spec f fr id (h_cache h) I Ef Hp ltac:(lia)) as (c1 & E1 & I1 & B1 & P1 & V1).
  exists (MkHeap c1 (h_current h)). split; [by apply on_cache_eq|]. split; [|split; [done|]].
  - exists pages. cbn [h_cache h_current]. rewrite (pins_frames _ _ _ _ P1). split; [|done].
    eapply (run_release_read env (h_cache h) pages f fr); [done|done|by eexists|lia|done].
  - intros p ts (fr' & Ef' & Hp' & Rb). cbn [h_cache].
    assert (Hf1 : frames c1 = alter (with_readers (fr_readers fr - 1)) f (frames (h_cache h))).
    { unfold release_read in E1. erewrite sr_bind_ok in E1; [|unfold frame_at; by rewrite Ef].
      unfold on_frame in E1. by injection E1 as <-. }
    unfold shows_page. cbn [h_cache]. rewrite Hf1, list_lookup_alter, Ef'. case_decide as Hd; [|by exists fr'].
    rewrite Hd, Ef'. by eexists.
Qed.

Lemma heap_get_spec h T m l t :
  heap_inv h T -> lives T m -> m !! l = Some t ->
  exists h' r, heap_get env l h = (h', r) /\ heap_inv h' T /\
  match r with
  | Ok v => tr_loc v = l /\ tr_bytes v h' = (h', Ok (Some t))
      /\ pins (h_cache h') = alter pin_read (rp_frame (tr_page v)) (pins (h_cache h))
  | Err e => pins (h_cache h') = pins (h_cache h)
      /\ ((e = EBusy (page_id l) /\ writing (h_cache h) (page_id l))
          \/ (e = EPoolExhausted (Z.of_nat (length (frames (h_cache h)))) /\ all_pinned (h_cache h)))
  | Panic => False
  end.
Proof using Henv CRCcok CRCok BSok EPok.
  intros Inv Hlv Hm. destruct (lives_page _ _ _ _ Hlv Hm) as ([Hp Hs] & ts & Hts & Hg).
  destruct (page_spec h T (page_id l) ts Inv Hts) as (h' & r & E & Inv' & Hr). unfold heap_get.
  destruct r as [p|e|]; [| |done].
  - destruct Hr as (Hid & Hsh & P'). exists h', (Ok (MkTupleRef p (slot_id l))). rewrite (sr_bind_ok _ _ _ _ _ E).
    split; [done|]. split; [done|]. split; [unfold tr_loc; cbn; rewrite Hid; by destruct l|]. split; [|done].
    unfold tr_bytes. cbn [tr_page tr_slot]. by rewrite (live_tuple_shows h' p ts _ Hsh Hs), Hg.
  - exists h', (Err e). rewrite (sr_bind_err _ _ _ _ _ E). done.
Qed.

(** A tuple changed in place through a write view. *)
Lemma tm_write_spec h T m f fr l t d :
  heap_inv h T -> lives T m -> m !! l = Some t -> length d = length t ->
  frames (h_cache h) !! f = Some fr -> fr_page fr = Some (page_id l) -> fr_writer fr = true ->
  exists h', tm_write (MkTupleMut (MkWritePage f (page_id l)) (slot_id l)) d h = (h', Ok true)
    /\ exists T', heap_inv h' T' /\ lives T' (<[l := d]> m).
Proof using Henv CRCcok CRCok BSok EPok.
  intros (pages & R & Hrep & Hcur & Hn) Hlv Hm Hd Ef Hp Hw. destruct (lives_page _ _ _ _ Hlv Hm) as ([Hpu Hs] & ts & Hts & Hg).
  destruct (Hrep _ _ Hts) as (p & Hpg & Rp). destruct (run_inv env _ _ Henv R) as [I H]. destruct (H _ _ Hpg) as [_ Hv].
  rewrite (view_frame _ f fr _ I Ef Hp) in Hv.
  assert (Rb : tp_rep (fr_buf fr) ts) by (apply (rep_eqv _ _ Rp); inversion Hv; by symmetry).
  pose proof (slot_write_rep _ _ Rb (slot_id l) d Hs) as Hsw. rewrite Hg in Hsw. destruct (Hsw Hd) as (b' & Eb & Rb').
  destruct (wp_set_spec f fr (page_id l) b' (h_cache h) I Ef Hp Hw (rep_length _ _ Rb')) as (c' & Ec & _ & _ & P' & _).
  exists (MkHeap c' (h_current h)). split.
  - unfold tm_write. erewrite sr_bind_ok; [|apply on_cache_eq; unfold wp_bytes; erewrite sr_bind_ok; [done|];
      unfold frame_at; cbn [wp_frame tm_page]; by rewrite Ef].
    cbn [tm_slot tm_page]. erewrite sr_bind_ok; [|unfold sr_lift, live_tuple_write; by rewrite (rep_type _ _ Rb), Eb].
    cbv beta iota. erewrite sr_bind_ok; [done|]. destruct h as [c cur]. by apply (on_cache_eq _ (MkHeap c cur)).
  - exists (<[page_id l := spec_write ts (slot_id l) d]> T). split.
    + exists (<[page_id l := b']> pages). cbn [h_cache h_current]. split; [apply (run_set env (h_cache h) pages f fr (page_id l) b' c'); try done; apply (rep_length _ _ Rb')|].
      split; [by apply pages_rep_insert|]. split.
      * intros i Hi. rewrite lookup_insert. case_decide; [done|auto].
      * rewrite (pins_frames (h_cache h) c' (fun p => p) 0) by (by rewrite list_alter_id). done.
    + apply (lives_update T m l ts _ (Some d) Hlv); [by split|done|].
      intros slot H0. apply (spec_get_write ts (slot_id l) d t slot H0); [ulia|done].
Qed.

(** Every way callers drive a heap: [m] is the map of the tuples they
    inserted and did not delete, with their current bytes. *)
Inductive heap_run : Heap -> gmap TupleLoc (list byte) -> Prop :=
| hr_new (c : Inner) pages T m :
    cache_run env c pages -> (0 < length (frames c))%nat -> pages_rep pages T -> lives T m -> heap_run (Heap_new c) m
| hr_insert h m t h' l : heap_run h m -> heap_insert env t h = (h', Ok l) -> heap_run h' (<[l := t]> m)
| hr_insert_err h m t h' e : heap_run h m -> heap_insert env t h = (h', Err e) -> heap_run h' m
| hr_delete h m l h' : heap_run h m -> is_Some (m !! l) -> heap_delete env l h = (h', Ok true) -> heap_run h' (delete l m)
| hr_delete_err h m l h' e : heap_run h m -> is_Some (m !! l) -> heap_delete env l h = (h', Err e) -> heap_run h' m
| hr_get h m l h' r : heap_run h m -> is_Some (m !! l) -> heap_get env l h = (h', r) -> heap_run h' m
| hr_get_mut h m l h' r : heap_run h m -> is_Some (m !! l) -> heap_get_mut env l h = (h', r) -> heap_run h' m
| hr_write h m f fr l t d h' :
    heap_run h m -> m !! l = Some t -> length d = length t ->
    frames (h_cache h) !! f = Some fr -> fr_page fr = Some (page_id l) -> fr_writer fr = true ->
    tm_write (MkTupleMut (MkWritePage f (page_id l)) (slot_id l)) d h = (h', Ok true) -> heap_run h' (<[l := d]> m)
| hr_drop_ref h m f fr v h' :
    heap_run h m -> rp_frame (tr_page v) = f -> frames (h_cache h) !! f = Some fr -> is_Some (fr_page fr) ->
    0 < fr_readers fr -> tr_drop v h = (h', Ok tt) -> heap_run h' m
| hr_drop_mut h m f fr v h' :
    heap_run h m -> wp_frame (tm_page v) = f -> frames (h_cache h) !! f = Some fr -> is_Some (fr_page fr) ->
    tm_drop v h = (h', Ok tt) -> heap_run h' m
| hr_flush h m h' : heap_run h m -> heap_flush env h = (h', Ok tt) -> heap_run h' m.

(** The cache moved, the tuples did not. *)
Lemma heap_inv_cache h T c' :
  heap_inv h T -> length (frames c') = length (frames (h_cache h)) ->
  (forall pages, cache_run env (h_cache h) pages -> cache_run env c' pages) -> heap_inv (MkHeap c' (h_current h)) T.
Proof. intros (pages & R & Hrep & Hcur & Hn) Hl Hc. exists pages. cbn [h_cache h_current]. rewrite Hl. auto. Qed.

Lemma heap_flush_spec h T :
  heap_inv h T ->
  exists h', heap_flush env h = (h', Ok tt) /\ heap_inv h' T /\ pins (h_cache h') = pins (h_cache h).
Proof using Henv CRCcok CRCok BSok EPok.
  intros Inv. pose proof Inv as (pages & R & _). destruct (run_inv env _ _ Henv R) as [I _].
  destruct (flush_spec env None (h_cache h) Henv I) as (c1 & E1 & _ & _ & S1 & _).
  exists (MkHeap c1 (h_current h)). split; [by apply on_cache_eq|]. split; [|apply S1].
  apply heap_inv_cache; [done|by apply same_pool_length|]. intros q Rq. by eapply (run_flush env (h_cache h) q).
Qed.

Lemma on_cache_inv {A} (op : SR Inner Error A) (h h' : Heap) r :
  on_cache op h = (h', r) -> exists c', op (h_cache h) = (c', r) /\ h' = MkHeap c' (h_current h).
Proof. unfold on_cache. destruct (op (h_cache h)) as [c' r'] eqn:E. intros [= <- <-]. by exists c'. Qed.

Lemma get_mut_inv h T l h' r t :
  heap_inv h T -> tlookup T l = Some t -> heap_get_mut env l h = (h', r) -> heap_inv h' T.
Proof using Henv CRCcok CRCok BSok EPok.
  intros Inv Ht. pose proof Inv as (pages & R & Hrep & Hcur & Hn).
  unfold tlookup in Ht. destruct (T !! page_id l) as [ts|] eqn:Hts; [|done].
  destruct (Hrep _ _ Hts) as (p & Hpg & Rp). destruct (run_inv env _ _ Henv R) as [I H]. destruct (H _ _ Hpg) as [Hu Hv].
  destruct (acquire_write_spec env Henv (h_cache h) I (page_id l) Hu) as (c1 & r1 & E1 & I1 & _ & Hr); [inversion Hv; eauto|].
  assert (Hl : length (frames c1) = length (frames (h_cache h))).
  { destruct r1; [| |done]; destruct Hr as [P1 _]; [by eapply pins_frames|].
    apply (pins_frames (h_cache h) c1 (fun p => p) 0). by rewrite list_alter_id. }
  intros E. assert (Hh : h' = MkHeap c1 (h_current h)).
  { revert E. unfold heap_get_mut, cache_write. destruct r1 as [f|e|]; [| |done].
    - erewrite sr_bind_ok; [|apply on_cache_eq; by rewrite (sr_bind_ok _ _ _ _ _ E1)]. by intros [= <- <-].
    - erewrite sr_bind_err; [|apply on_cache_eq; by rewrite (sr_bind_err _ _ _ _ _ E1)]. by intros [= <- <-]. }
  subst h'. exists pages. cbn [h_cache h_current]. rewrite Hl. split; [|done].
  eapply (run_write env (h_cache h) pages (page_id l)); eauto.
Qed.

Lemma heap_run_inv h m : heap_run h m -> exists T, heap_inv h T /\ lives T m.
Proof using Henv CRCcok CRCok BSok EPok.
  induction 1 as [c pages T m R Hn Hrep Hl | h m t h' l _ (T & Inv & Hl) E | h m t h' e _ (T & Inv & Hl) E
    | h m l h' _ (T & Inv & Hl) [t Ht] E | h m l h' e _ (T & Inv & Hl) [t Ht] E | h m l h' r _ (T & Inv & Hl) [t Ht] E
    | h m l h' r _ (T & Inv & Hl) [t Ht] E | h m f fr l t d h' _ (T & Inv & Hl) Ht Hd Ef Hp Hw E
    | h m f fr v h' _ (T & Inv & Hl) Hf Ef Hp Hr E | h m f fr v h' _ (T & Inv & Hl) Hf Ef Hp E | h m h' _ (T & Inv & Hl) E].
  - exists T. split; [|done]. by exists pages.
  - destruct (insert_spec h T t Inv) as (h1 & r1 & E1 & Hr). rewrite E in E1. injection E1 as <- <-.
    destruct Hr as (_ & Hw & _ & _ & _ & ts & Hts & Hs & Inv'). eexists. split; [exact Inv'|]. by eapply lives_insert.
  - destruct (insert_spec h T t Inv) as (h1 & r1 & E1 & Hr). rewrite E in E1. injection E1 as <- <-.
    destruct Hr as (_ & _ & _ & T' & _ & HT & Inv'). exists T'. split; [done|]. intros l x. by rewrite HT.
  - destruct (delete_spec h T m l t Inv Hl Ht) as (h1 & r1 & E1 & _ & Hr). rewrite E in E1. injection E1 as <- <-.
    destruct Hr as [(e & ? & _)|(_ & Hr)]; [done|exact Hr].
  - destruct (delete_spec h T m l t Inv Hl Ht) as (h1 & r1 & E1 & _ & Hr). rewrite E in E1. injection E1 as <- <-.
    destruct Hr as [(e' & _ & _ & Inv')|(? & _)]; [by exists T|done].
  - destruct (heap_get_spec h T m l t Inv Hl Ht) as (h1 & r1 & E1 & Inv' & _). rewrite E in E1. injection E1 as <- <-. by exists T.
  - exists T. split; [|done]. eapply (get_mut_inv h T l); [done| |done]. by apply Hl.
  - destruct (tm_write_spec h T m f fr l t d Inv Hl Ht Hd Ef Hp Hw) as (h1 & E1 & Hr). rewrite E in E1. by injection E1 as <-.
  - exists T. split; [|done]. apply on_cache_inv in E as (c' & E & ->). pose proof Inv as (pages & R & _).
    destruct Hp as [id Hp]. destruct (run_inv env _ _ Henv R) as [I _]. unfold rp_drop in E. rewrite Hf in E.
    destruct (release_read_spec f fr id (h_cache h) I Ef Hp Hr) as (c1 & E1 & _ & _ & P1 & _). rewrite E in E1. injection E1 as <-.
    apply heap_inv_cache; [done|by eapply pins_frames|]. intros q Rq. by eapply (run_release_read env (h_cache h) q f fr).
  - exists T. split; [|done]. apply on_cache_inv in E as (c' & E & ->). pose proof Inv as (pages & R & _).
    destruct Hp as [id Hp]. destruct (run_inv env _ _ Henv R) as [I _]. unfold wp_drop in E. rewrite Hf in E.
    destruct (release_write_spec f fr id (h_cache h) I Ef Hp) as (c1 & E1 & _ & _ & P1 & _). rewrite E in E1. injection E1 as <-.
    apply heap_inv_cache; [done|by eapply pins_frames|]. intros q Rq. by eapply (run_release_write env (h_cache h) q f fr).
  - exists T. split; [|done]. destruct (heap_flush_spec h T Inv) as (h1 & E1 & Inv' & _). rewrite E in E1. by injection E1 as <-.
Qed.

(** C18: a location keeps its tuple.  After any run of inserts, deletes, in-place
    writes, view drops and flushes, over any pool and eviction policy, [get] of
    the location of a live tuple gives a view of exactly the bytes last stored
    there; it fails only when a write view holds that page or every frame is
    pinned. *)
Theorem heap_refines h m l t :
  heap_run h m -> m !! l = Some t ->
  exists h' r, heap_get env l h = (h', r) /\
  match r with
  | Ok v => tr_loc v = l /\ tr_bytes v h' = (h', Ok (Some t))
  | Err e => (e = EBusy (page_id l) /\ writing (h_cache h) (page_id l))
             \/ (e = EPoolExhausted (Z.of_nat (length (frames (h_cache h)))) /\ all_pinned (h_cache h))
  | Panic => False
  end.
Proof using Henv CRCcok CRCok BSok EPok.
  intros R Hl. destruct (heap_run_inv h m R) as (T & Inv & Hlv).
  destruct (heap_get_spec h T m l t Inv Hlv Hl) as (h' & r & E & _ & Hr). exists h', r. split; [done|].
  destruct r as [v|e|]; [by destruct Hr as (? & ? & _)|apply Hr|done].
Qed.

(** An insert lands on a location no live tuple has.  It refuses a tuple
    exactly when it is longer than an empty page can hold; else it fails only
    when the store cannot grow, or when a view is held (the current page is busy
    or the pool is exhausted). *)
Theorem heap_insert_fresh h m t :
  heap_run h m ->
  exists h' r, heap_insert env t h = (h', r) /\
  match r with
  | Ok l => Z.of_nat (length t) <= max_tuple /\ loc_wf l /\ m !! l = None /\ heap_run h' (<[l := t]> m)
  | Err e => heap_run h' m /\ insert_failure h t e
  | Panic => store_panic
  end.
Proof using Henv CRCcok CRCok BSok EPok.
  intros R. destruct (heap_run_inv h m R) as (T & Inv & Hlv). destruct (insert_spec h T t Inv) as (h' & r & E & Hr).
  exists h', r. split; [done|]. destruct r as [l|e|]; [| |done].
  - destruct Hr as (Hf & Hw & _ & _ & _ & ts & Hts & Hs & _). split; [done|]. split; [done|].
    split; [by eapply lives_insert|by eapply hr_insert].
  - destruct Hr as (Hf & _). split; [by eapply hr_insert_err|done].
Qed.
End refinement.

(** ** Opening a new heap *)

Lemma disk_open_fresh lim d : disk_open lim [] = (d, Ok tt) -> disk_ok d.
Proof.
  unfold disk_open, set_capacity. cbn [length]. change (Z.of_nat 0 =? 0) with true. cbn iota.
  rewrite BLOCK_SIZE_Z, mul64_ok by ulia. cbn [d_limit d_next_id d_free_list d_file]. destruct (lim <? _); [done|].
  assert (W : disk_ok (MkDisk (resize (Z.to_nat (1 * 8192)) []) 1 1 [] lim)).
  { split; cbn [d_file d_next_id capacity_blocks d_free_list d_limit].
    - unfold resize. rewrite length_take, length_app, length_replicate. cbn [length]. lia.
    - ulia.
    - lia.
    - ulia.
    - constructor.
    - constructor.
    - rewrite max_free_eq. cbn [length]. pose proof BLOCK_SIZE_Z. lia. }
  destruct (disk_sync_law _ W) as (d' & E & W' & _). unfold disk_sync in E. rewrite E. by intros [= <-].
Qed.

Lemma heap_open_fresh {CRC : Crc32} {CRCok : Crc32Ok} {CRCc : Crc32c} {CRCcok : Crc32cOk} env lim n d h :
  (forall m, env m = io_fine) -> heap_open lim n [] None = (d, Ok h) ->
  heap_inv (BS := DiskBlockStore_store) (BSok := DiskBlockStore_ok) (EPok := LruK_ok) env h ∅ /\ at_rest (h_cache h)
  /\ length (frames (h_cache h)) = n.
Proof.
  intros Henv. unfold heap_open. destruct (disk_open lim []) as [d0 [[]|e|]] eqn:Ed; [|done..].
  pose proof (disk_open_fresh _ _ Ed) as W. unfold with_journal.
  destruct (bj_open None) as [j|e|] eqn:Ej; [|done..].
  assert (Hj : holds (bj_inner j) []).
  { revert Ej. unfold bj_open. destruct holds_fresh as (j0 & E0 & H0). rewrite E0. intros [= <-]. exact H0. }
  assert (Er : recover j d0 = (d0, Ok tt)).
  { unfold recover. erewrite sr_bind_ok; [|unfold sr_lift, bj_replay; by rewrite (holds_replay _ _ Hj)]. reflexivity. }
  rewrite Er. change (LruK_new 2) with (Ok (E := unit) (MkLruK 2 0 (∅ : gmap nat (list Z)))). cbn iota.
  destruct (build d0 n (MkLruK 2 0 (∅ : gmap nat (list Z))) (Some (bj_truncate j))) as [c|e|] eqn:Eb; [|done..]. intros E. apply (f_equal snd) in E. cbn [snd] in E.
  apply Ok_inj in E. subst h. cbn [Heap_new h_cache].
  assert (Ht : forall j', Some (bj_truncate j) = Some j' -> holds (bj_inner j') []).
  { intros j' [= <-]. by eapply bj_truncate_holds. }
  destruct (build_inv (BSok := DiskBlockStore_ok) (EPok := LruK_ok) d0 n (MkLruK 2 0 ∅) _ c W I ltac:(done) Ht Eb) as (Hinv & _ & _ & Hl & Hi & _).
  split; [|split; [|done]].
  - exists ∅. cbn [h_cache h_current Heap_new]. split; [by eapply (run_new env d0 n (MkLruK 2 0 ∅) _ c ∅)|].
    split; [by intros id ts; rewrite lookup_empty|]. split; [done|]. rewrite Hl. unfold build in Eb. destruct (Nat.eqb_spec n 0); [done|lia].
  - apply Forall_lookup. intros f x. unfold pins. rewrite list_lookup_fmap. destruct (frames c !! f) as [fr|] eqn:E; [|done].
    intros [= <-]. apply Hi in E. unfold unpinned in E. apply andb_true_iff in E as [->%Z.eqb_eq Hw]. by destruct (fr_writer fr).
Qed.

(** ** Witnesses *)

Section witnesses.
Import Journal.Ieee Castagnoli.
Let fine : nat -> io_env := fun _ => io_fine.

Definition heap0 : Heap MemBlockStore (LruK nat) := Heap_new pool1.

Lemma heap0_run : heap_run fine heap0 ∅.
Proof.
  apply (hr_new fine pool1 ∅ ∅ ∅).
  - apply (run_new fine MemBlockStore_new 1 (MkLruK 2 0 ∅) None _ ∅); [apply mem_new_ok | done..].
  - vm_compute. lia.
  - intros id ts. by rewrite lookup_empty.
  - intros l t. unfold tlookup. rewrite !lookup_empty. by split; [|intros [_ ?]].
Qed.

Definition heap1 : Heap MemBlockStore (LruK nat) := (heap_insert fine [x61] heap0).1.

Lemma heap1_run : heap_run fine heap1 {[MkLoc 1 0 := [x61]]}.
Proof.
  apply (hr_insert fine heap0 ∅ [x61] heap1 (MkLoc 1 0)); [apply heap0_run|].
  assert (E : (heap_insert fine [x61] heap0).2 = Ok (MkLoc 1 0)) by (vm_compute; reflexivity).
  unfold heap1. destruct (heap_insert fine [x61] heap0). cbn [fst snd] in *. by rewrite E.
Qed.

Lemma heap_refines_witness :
  exists h' r, heap_get fine (MkLoc 1 0) heap1 = (h', r) /\
  match r with
  | Ok v => tr_loc v = MkLoc 1 0 /\ tr_bytes v h' = (h', Ok (Some [x61]))
  | Err e => (e = EBusy 1 /\ writing (h_cache heap1) 1)
             \/ (e = EPoolExhausted (Z.of_nat (length (frames (h_cache heap1)))) /\ all_pinned (h_cache heap1))
  | Panic => False
  end.
Proof.
  apply (heap_refines (V := MemBlockStore) (P := LruK nat) fine ltac:(done) heap1 {[MkLoc 1 0 := [x61]]} (MkLoc 1 0) [x61]); [exact heap1_run|reflexivity].
Defined.

(** A refused tuple leaves an allocated page behind: the page is initialised
    before the tuple is measured, and is not given back. *)
Example oversized_insert_leaks_page :
  let '(h, r) := heap_insert fine (replicate (Z.to_nat 8158) x00) heap0 in
  r = Err (ETupleTooLarge 8158 8157) /\ h_current h = None /\ bs_block_count (block (h_cache heap0)) = 1
  /\ bs_block_count (block (h_cache h)) = 2.
Proof. vm_compute. done. Qed.
End witnesses.
