(* ===== verification/Engine.v ===== *)
(** * The storage engine

    [StorageEngine] of strata-store: the LSM tree as an index from keys to
    tuple locations, over the heap that stores the tuples.  [erun] is every way
    the engine's API is driven, with the history of acknowledged writes it
    stands for; the theorems compose the index's refinement with the heap's. *)

From Stdlib Require Import Strings.Byte ZArith Lia Sorted.
From stdpp Require Import prelude list gmap strings.
From S2P Require Import Prelude Codec LsmKey Memtable Journal DataBlock Journaled Iterator Policies MemoCache SstHeader SsTable Manifest ManifestManager Lsm LsmReads LsmDurable Page TuplePage BlockStore BlockJournal PageCache PageCacheOk Heap.
Local Open Scope Z_scope.

(** ** Errors

    The strings of [Corruption] and [Exhausted] are kept as the values they
    render: the malformed bytes, the error of the layer below. *)
Inductive StorageError : Type :=
| SLsm (e : LsmError)
| SBlock (e : Page.Error)
| SCorruption (bytes : list byte)
| SExhausted (e : LsmError + Page.Error).

Definition storage_is_exhausted (e : StorageError) : bool := match e with SExhausted _ => true | _ => false end.

Definition storage_of_lsm (e : LsmError) : StorageError := if is_exhausted e then SExhausted (inl e) else SLsm e.
Definition storage_of_fs (e : Page.Error) : StorageError := if error_is_exhausted e then SExhausted (inr e) else SBlock e.
Definition storage_of_write (e : WriteError) : StorageError := storage_of_lsm (lsm_of_write e).
Definition storage_of_read (e : ReadError) : StorageError := storage_of_lsm (lsm_of_read e).
Definition storage_of_io (e : io_error) : StorageError := storage_of_lsm (lsm_of_io e).

Definition decode_loc (bytes : list byte) : res StorageError TupleLoc :=
  match loc_decode bytes with Some l => Ok l | None => Err (SCorruption bytes) end.

Definition HEAP_FRAMES : nat := Z.to_nat 1024.

Section engine.
Context {CRC : Crc32} {CRCc : Crc32c} {FB : FastBloom} {M : Type} {MS : MemStore M}.
Abbreviation Lsm := (Lsm.Lsm M).
Abbreviation Heap := (Heap DiskBlockStore (LruK nat)).

Record StorageEngine : Type := MkEngine { index : Lsm; heap : Heap }.
Abbreviation EM := (SR StorageEngine StorageError).

Definition on_heap {A} (op : SR Heap Page.Error A) : EM A := fun e =>
  let '(h, r) := op (heap e) in (MkEngine (index e) h, map_err storage_of_fs r).
Definition on_index {A} (op : SR Lsm LsmError A) : EM A := fun e =>
  let '(t, r) := op (index e) in (MkEngine t (heap e), map_err storage_of_lsm r).

(** What lies under the engine's root: the index's files, and [heap/]. *)
Record engine_dir : Type := MkEngineDir { ed_index : root_dir; ed_db : list byte; ed_journal : option (list byte) }.

(** [StorageEngine::new]; [with_levels] is the same with its own levels. *)
Definition engine_with (cfg : LsmConfig) (limit : Z) (mem : M) (dir : engine_dir) : res StorageError StorageEngine :=
  t ← map_err storage_of_lsm (with_memtable cfg mem (ed_index dir));
  h ← map_err storage_of_fs (heap_open limit HEAP_FRAMES (ed_db dir) (ed_journal dir)).2;
  Ok (MkEngine t h).
Definition engine_new : Z -> M -> engine_dir -> res StorageError StorageEngine := engine_with LsmConfig_default.
Definition engine_with_levels (limit : Z) (mem : M) (levels : list LevelConfig) (dir : engine_dir) :=
  engine_with (MkLsmConfig levels (page_cache LsmConfig_default)) limit mem dir.

(** How the I/O of an operation goes: the heap's journal, and the index. *)
Record engine_env : Type := EngineEnv { ee_heap : nat -> io_env; ee_index : io_env; ee_flush : flush_env }.

Section ops.
Context (env : engine_env).

Definition engine_put (k v : list byte) : EM unit :=
  l ← on_heap (heap_insert (ee_heap env) v);
  on_index (lsm_put (ee_index env) k (loc_encode l)).

Definition engine_delete (k : list byte) : EM unit := on_index (lsm_delete (ee_index env) k).

Definition engine_flush : EM unit :=
  _ ← on_heap (heap_flush (ee_heap env));
  on_index (Lsm.flush (ee_flush env)).

Definition engine_get (k : list byte) : EM (option TupleRef) :=
  o ← on_index (fun t => let '(r, t') := Lsm.get k t in (t', r));
  match o with
  | None => mret None
  | Some loc_bytes =>
      l ← sr_lift (decode_loc loc_bytes);
      v ← on_heap (heap_get (ee_heap env) l);
      mret (Some v)
  end.

Definition engine_num_levels (e : StorageEngine) : nat := num_levels (config (index e)).

(** ** Scans *)

Abbreviation ScanIterator := (Resolver.t (J := list (Merge.Source (I := KvStream) (A := item)))).
Record Scan : Type := MkScan { sc_index : ScanIterator; sc_current : option PageTuples }.
Record ScanRow : Type := MkScanRow { sr_key : list byte; sr_page : PageTuples; sr_slot : Z }.

Definition engine_scan_at (fuel : nat) (lo hi : bound (list byte)) (max_seq : Z) : EM Scan :=
  it ← on_index (fun t => let '(r, t') := Lsm.scan_at fuel lo hi max_seq t in (t', r));
  mret (MkScan it None).
Definition engine_scan (fuel : nat) (lo hi : bound (list byte)) : EM Scan :=
  e ← sr_get; engine_scan_at fuel lo hi (lseq (index e)).

(** The current page is kept when the row is on it; else the row's page is
    pinned and the assignment drops the old one. *)
Definition swap_page (id : Z) (cur : option PageTuples) : EM PageTuples :=
  match cur with
  | Some p => if rp_page_id (pt_page p) =? id then mret p
              else q ← on_heap (heap_page (ee_heap env) id); _ ← on_heap (pt_drop p); mret q
  | None => on_heap (heap_page (ee_heap env) id)
  end.

Definition scan_row (kv : KVPair) (cur : option PageTuples) : EM ScanRow :=
  l ← sr_lift (decode_loc kv.2);
  p ← swap_page (page_id l) cur;
  mret (MkScanRow kv.1 p (slot_id l)).

(** [Scan::next]. *)
Definition scan_step (fuel : nat) (s : Scan) (e : StorageEngine) : option (res StorageError ScanRow) * Scan * StorageEngine :=
  let '(r, it, c) := scan_next (tables (index e)) fuel (sc_index s) (cache (index e)) in
  let e1 := MkEngine (with_cache c (index e)) (heap e) in
  match r with
  | None => (None, MkScan it (sc_current s), e1)
  | Some (Ok kv) =>
      match scan_row kv (sc_current s) e1 with
      | (e2, Ok row) => (Some (Ok row), MkScan it (Some (sr_page row)), e2)
      | (e2, r') => (Some r', MkScan it (sc_current s), e2)
      end
  | Some (Err x) => (Some (Err (storage_of_lsm x)), MkScan it (sc_current s), e1)
  | Some Panic => (Some Panic, MkScan it (sc_current s), e1)
  end.

(** A caller that copies each row's bytes out before it asks for the next. *)
Definition row_bytes (row : ScanRow) : EM (option (list byte)) := on_heap (pt_tuple (sr_page row) (sr_slot row)).

Fixpoint scan_rows (fuel n : nat) (s : Scan) (e : StorageEngine)
  : list (res StorageError (list byte * option (list byte))) * option PageTuples * StorageEngine :=
  match n with
  | O => ([], sc_current s, e)
  | S n' =>
      match scan_step fuel s e with
      | (None, s', e1) => ([], sc_current s', e1)
      | (Some r, s', e1) =>
          let '(e2, out) := match r with
                            | Ok row => let '(e2, b) := row_bytes row e1 in (e2, map_ok (pair (sr_key row)) b)
                            | Err x => (e1, Err x)
                            | Panic => (e1, Panic)
                            end in
          let '(l, cur, e3) := scan_rows fuel n' s' e2 in (out :: l, cur, e3)
      end
  end.

(** A scan drained and dropped. *)
Definition scan_collect_rows (fuel : nat) (lo hi : bound (list byte)) (max_seq : Z) (e : StorageEngine)
  : StorageEngine * res StorageError (list (res StorageError (list byte * option (list byte)))) :=
  match engine_scan_at fuel lo hi max_seq e with
  | (e1, Ok s) =>
      let '(l, cur, e2) := scan_rows fuel fuel s e1 in
      match cur with
      | Some p => let '(e3, r) := on_heap (pt_drop p) e2 in (e3, map_ok (fun _ => l) r)
      | None => (e2, Ok l)
      end
  | (e1, Err x) => (e1, Err x)
  | (e1, Panic) => (e1, Panic)
  end.
End ops.
End engine.

(** ** Refinement *)

Section refinement.
Context {CRC : Crc32} {CRCok : Crc32Ok} {CRCc : Crc32c} {CRCcok : Crc32cOk} {FB : FastBloom} {FBok : FastBloomOk}.
Context {M : Type} {MS : MemStore M} {MSok : MemStoreOk M} (cfg : LsmConfig) (m0 : M) (Hu : usable cfg m0).
Abbreviation StorageEngine := (StorageEngine (M := M)).

Definition engine_fine : engine_env := EngineEnv (fun _ => io_fine) io_fine flush_fine.
Abbreviation heap_fine := (fun _ : nat => io_fine).

(** One write of the index's history stands for one of the engine's: a put
    stores the location of its value. *)
Definition points (m : gmap TupleLoc (list byte)) (i w : change) : Prop :=
  i.1 = w.1 /\ match w.2 with
               | None => i.2 = None
               | Some v => exists l, loc_wf l /\ i.2 = Some (loc_encode l) /\ m !! l = Some v
               end.

(** The index entry a lookup finds for what the history says. *)
Definition finds (m : gmap TupleLoc (list byte)) (o v : option (list byte)) : Prop :=
  match v with
  | None => o = None
  | Some v => exists l, loc_wf l /\ o = Some (loc_encode l) /\ m !! l = Some v
  end.

Lemma points_get m hi h k : Forall2 (points m) hi h -> finds m (LsmReads.spec_get hi k) (LsmReads.spec_get h k).
Proof.
  intros H. unfold LsmReads.spec_get. apply Forall2_reverse in H. revert H. generalize (reverse hi), (reverse h).
  induction 1 as [|i w l l' [Hk Hv] _ IH]; [done|]. cbn [List.find]. rewrite Hk. case_bool_decide; [|exact IH].
  unfold finds. by destruct (w.2).
Qed.

Lemma points_insert m l t hi h : m !! l = None -> Forall2 (points m) hi h -> Forall2 (points (<[l := t]> m)) hi h.
Proof.
  intros Hl H. eapply Forall2_impl; [exact H|]. intros i w [Hk Hv]. split; [done|]. destruct (w.2) as [v|]; [|done].
  destruct Hv as (l' & Hw & Hi & Hm). exists l'. split; [done|]. split; [done|].
  rewrite lookup_insert_ne; [done|]. intros <-. congruence.
Qed.

Record einv (e : StorageEngine) (h : history) (hi : history) (m : gmap TupleLoc (list byte)) (T : gmap Z (list tuple_slot)) : Prop := {
  ei_index : lrun cfg m0 (index e) hi;
  ei_heap : heap_inv heap_fine (heap e) T;
  ei_lives : lives T m;
  ei_points : Forall2 (points m) hi h;
  ei_writer : no_writer (h_cache (heap e)) }.

(** ** Runs *)

Definition empty_dir : engine_dir := MkEngineDir empty_root [] None.

(** The key and its location fit the index's format. *)
Definition key_fits (e : StorageEngine) (k : list byte) : Prop :=
  Z.of_nat (length k) + 27 <= u32_max /\ is_u64 (lseq (index e) + 1).

Inductive erun : StorageEngine -> history -> Prop :=
| er_open lim e : engine_with cfg lim m0 empty_dir = Ok e -> erun e []
| er_put e h k v e' :
    erun e h -> key_fits e k -> engine_put engine_fine k v e = (e', Ok tt) -> erun e' (h ++ [(k, Some v)])
| er_put_err e h v hp x :
    erun e h -> heap_insert heap_fine v (heap e) = (hp, Err x) -> erun (MkEngine (index e) hp) h
| er_delete e h k e' :
    erun e h -> key_fits e k -> engine_delete engine_fine k e = (e', Ok tt) -> erun e' (h ++ [(k, None)])
| er_flush e h e' :
    erun e h -> flush_fits (index e) -> engine_flush engine_fine e = (e', Ok tt) -> erun e' h
| er_get e h k e' r : erun e h -> engine_get engine_fine k e = (e', r) -> erun e' h
| er_scan e h lo hi q fuel e' l :
    erun e h -> at_rest (h_cache (heap e)) -> (2 <= length (pins (h_cache (heap e))))%nat -> valid_range lo hi = true -> 0 <= q ->
    (scan_fuel (index e) <= fuel)%nat -> scan_collect_rows engine_fine fuel lo hi q e = (e', l) -> erun e' h
| er_drop e h f n e' :
    erun e h -> pins (h_cache (heap e)) !! f = Some (n, false) -> 0 < n ->
    on_heap (on_cache (release_read f)) e = (e', Ok tt) -> erun e' h.

Lemma loc_encode_length l : length (loc_encode l) = 10%nat.
Proof. unfold loc_encode. by rewrite length_app, !length_be_bytes. Qed.

Lemma key_fits_wf e k o v : key_fits e k -> (length v <= 10)%nat -> codec_wf (KV (IKey k (lseq (index e) + 1) o) v).
Proof.
  intros [Hk Hs] Hv. unfold fits_u32 in *. split; [split; [|split]|]; cbn [key value user_key seq]; unfold fits_u32; [ulia|done|ulia|].
  unfold kv_encode, put_bytes. cbn [key value user_key seq]. len.
Qed.

Lemma on_heap_ok {A} (op : SR (Heap DiskBlockStore (LruK nat)) Page.Error A) (e : StorageEngine) hp a :
  op (heap e) = (hp, Ok a) -> on_heap op e = (MkEngine (index e) hp, Ok a).
Proof. unfold on_heap. by intros ->. Qed.

Lemma on_index_ok {A} (op : SR (Lsm.Lsm M) LsmError A) (e : StorageEngine) t a :
  op (index e) = (t, Ok a) -> on_index op e = (MkEngine t (heap e), Ok a).
Proof. unfold on_index. by intros ->. Qed.

(** An acknowledged write of the index. *)
Lemma index_write e (op : SR (Lsm.Lsm M) LsmError unit) e' :
  on_index op e = (e', Ok tt) -> exists t, op (index e) = (t, Ok tt) /\ e' = MkEngine t (heap e).
Proof.
  unfold on_index. destruct (op (index e)) as [t [[]|x|]]; [|done..]. intros [= <-]. by exists t.
Qed.

(** The lookup: what the engine's [get] comes back with. *)
Lemma engine_get_spec e h hi m T k :
  einv e h hi m T ->
  exists e' r, engine_get engine_fine k e = (e', r) /\ einv e' h hi m T /\
  match r with
  | Ok None => LsmReads.spec_get h k = None /\ heap e' = heap e
  | Ok (Some v) => exists b, LsmReads.spec_get h k = Some b /\ on_heap (tr_bytes v) e' = (e', Ok (Some b))
      /\ pins (h_cache (heap e')) = alter pin_read (rp_frame (tr_page v)) (pins (h_cache (heap e)))
  | Err x => x = SExhausted (inr (EPoolExhausted (Z.of_nat (length (PageCache.frames (h_cache (heap e)))))))
      /\ all_pinned (h_cache (heap e))
  | Panic => False
  end.
Proof using Hu CRCok CRCcok FBok MSok.
  intros [Hidx Hheap Hlv Hpt Hw]. destruct (lrun_ok cfg m0 _ _ Hu Hidx) as [(tabs & ids & V & _) _].
  destruct (get_ok (index e) hi tabs ids k V) as (c & Eg & _). pose proof (points_get m hi h k Hpt) as Hf.
  assert (Hidx' : lrun cfg m0 (with_cache c (index e)) hi).
  { pose proof (lrun_get _ _ _ _ k Hidx) as Hg. by rewrite Eg in Hg. }
  unfold engine_get. erewrite sr_bind_ok; [|apply on_index_ok; rewrite Eg; reflexivity].
  set (e1 := MkEngine (with_cache c (index e)) (heap e)).
  assert (I1 : einv e1 h hi m T) by (by split).
  destruct (LsmReads.spec_get h k) as [b|]; cbn [finds] in Hf.
  2:{ rewrite Hf. exists e1, (Ok None). done. }
  destruct Hf as (l & Hlw & -> & Hm). cbv beta iota. unfold decode_loc. rewrite (proj2 (loc_decode_exact _ l)) by done.
  erewrite sr_bind_ok; [|reflexivity].
  destruct (heap_get_spec (V := DiskBlockStore) (P := LruK nat) heap_fine ltac:(done) (heap e) T m l b Hheap Hlv Hm) as (hp & r & E & Inv' & Hr).
  destruct r as [v|x|]; [| |done].
  - destruct Hr as (_ & Hb & P'). exists (MkEngine (with_cache c (index e)) hp), (Ok (Some v)). split.
    { erewrite sr_bind_ok; [done|]. by apply on_heap_ok. }
    split; [split; try done; cbn [heap]|].
    { unfold no_writer. rewrite P'. apply Forall_alter; [done|]. by intros [n w]. }
    exists b. split; [done|]. split; [|done]. by apply on_heap_ok.
  - destruct Hr as (P' & He). assert (Hx : x = EPoolExhausted (Z.of_nat (length (PageCache.frames (h_cache (heap e)))))
                     /\ all_pinned (h_cache (heap e))).
    { destruct He as [(_ & f & fr & Ef & _ & Hwr)|He]; [|done]. apply pins_lookup in Ef. unfold no_writer in Hw.
      rewrite Forall_lookup in Hw. specialize (Hw _ _ Ef). cbn in Hw. congruence. }
    destruct Hx as [-> Ha]. eexists _, _. split.
    { erewrite sr_bind_err; [done|]. unfold on_heap. cbn [heap e1 ee_heap engine_fine]. rewrite E. reflexivity. }
    split; [split; try done; cbn [heap]; unfold no_writer; by rewrite P'|]. done.
Qed.

(** The pins of a heap without writers after a view is taken or dropped. *)
Lemma no_writer_alter (c c' : Inner DiskBlockStore (LruK nat)) g f :
  no_writer c -> pins c' = alter g f (pins c) -> (forall p, p.2 = false -> (g p).2 = false) -> no_writer c'.
Proof. intros H P' Hg. unfold no_writer. rewrite P'. apply Forall_alter; [done|]. intros p _. apply Hg. Qed.

Lemma put_inv e h hi m T k v e' :
  einv e h hi m T -> key_fits e k -> engine_put engine_fine k v e = (e', Ok tt) ->
  exists hi' m' T', einv e' (h ++ [(k, Some v)]) hi' m' T'.
Proof using CRCok CRCcok.
  intros [Hidx Hheap Hlv Hpt Hw] Hk. unfold engine_put.
  destruct (insert_spec (V := DiskBlockStore) (P := LruK nat) heap_fine ltac:(done) (heap e) T v Hheap) as (hp & r & E & Hr).
  destruct r as [l|x|].
  - destruct Hr as (_ & Hlw & Hrest & _ & _ & ts & Hts & Hs & Inv'). erewrite sr_bind_ok; [|apply on_heap_ok; exact E].
    intros (t & Et & ->)%index_write. cbn [index heap] in *.
    destruct (lives_insert T m l ts v Hlv Hlw Hts Hs) as [Hnone Hlv'].
    exists (hi ++ [(k, Some (loc_encode l))]), (<[l := v]> m), (<[page_id l := ts ++ [MkSlot true v]]> T).
    split; cbn [index heap]; [|done|done| |].
    + apply (lrun_write cfg m0 (index e) hi k (loc_encode l) Put t Hidx); [|done|exact Et].
      apply key_fits_wf; [done|]. rewrite loc_encode_length. lia.
    + apply Forall2_app; [by apply points_insert|]. constructor; [|constructor]. split; [done|]. exists l.
      split; [done|]. split; [done|]. apply lookup_insert_eq.
    + unfold no_writer. by rewrite Hrest.
  - erewrite sr_bind_err; [|unfold on_heap; cbn [ee_heap engine_fine]; rewrite E; reflexivity]. done.
  - unfold mbind, sr_bind, on_heap. cbn [ee_heap engine_fine]. rewrite E. done.
Qed.

(** ** Scans *)

Abbreviation rest P0 := (Forall (fun p : Z * bool => p = (0, false)) P0).

(** The scan's pin: none, or one on the page it keeps. *)
Definition scan_pin (P0 : list (Z * bool)) (hp : Heap DiskBlockStore (LruK nat)) (T : gmap Z (list tuple_slot)) (cur : option PageTuples) : Prop :=
  match cur with
  | None => pins (h_cache hp) = P0
  | Some p => (exists ts, T !! rp_page_id (pt_page p) = Some ts /\ shows_page hp (pt_page p) ts)
      /\ pins (h_cache hp) = alter pin_read (rp_frame (pt_page p)) P0
  end.

Lemma unpin_other f g (P0 : list (Z * bool)) :
  alter unpin_read f (alter pin_read g (alter pin_read f P0)) = alter pin_read g P0.
Proof.
  apply list_eq. intros i. rewrite !list_lookup_alter.
  repeat case_decide; subst; try done;
    match goal with |- context [?l !! ?x] => destruct (l !! x) as [[n w]|] end; try done;
    cbn; unfold unpin_read, pin_read; cbn; apply (f_equal (fun x => Some (x, w))); lia.
Qed.

(** With a frame to spare, a page can be pinned. *)
Lemma page_pinned (hp : Heap DiskBlockStore (LruK nat)) T id ts :
  heap_inv heap_fine hp T -> T !! id = Some ts -> no_writer (h_cache hp) ->
  (exists g, pins (h_cache hp) !! g = Some (0, false)) ->
  exists hp' p, heap_page heap_fine id hp = (hp', Ok p) /\ heap_inv heap_fine hp' T
    /\ rp_page_id (pt_page p) = id /\ shows_page hp' (pt_page p) ts
    /\ pins (h_cache hp') = alter pin_read (rp_frame (pt_page p)) (pins (h_cache hp)).
Proof using CRCok CRCcok.
  intros Inv Hts Hw [g Hg].
  destruct (page_spec (V := DiskBlockStore) (P := LruK nat) heap_fine ltac:(done) hp T id ts Inv Hts) as (hp' & r & E & Inv' & Hr).
  unfold heap_page. destruct r as [p|x|]; [| |done].
  - destruct Hr as (Hid & Hsh & P'). exists hp', (MkPageTuples p). rewrite (sr_bind_ok _ _ _ _ _ E). done.
  - exfalso. destruct Hr as (_ & [(_ & f & fr & Ef & _ & Hwr)|(_ & Ha)]).
    + apply pins_lookup in Ef. unfold no_writer in Hw. rewrite Forall_lookup in Hw. specialize (Hw _ _ Ef). cbn in Hw. congruence.
    + unfold pins in Hg. rewrite list_lookup_fmap in Hg. destruct (PageCache.frames (h_cache hp) !! g) as [fr|] eqn:Ef; [|done].
      injection Hg as Hr Hwr. specialize (Ha _ _ Ef). unfold unpinned in Ha. by rewrite Hr, Hwr in Ha.
Qed.

Lemma rest_no_writer P0 (c : Inner DiskBlockStore (LruK nat)) f :
  rest P0 -> pins c = P0 \/ pins c = alter pin_read f P0 -> no_writer c.
Proof.
  intros H Hp. assert (H0 : Forall (fun p : Z * bool => p.2 = false) P0) by (eapply Forall_impl; [exact H|]; by intros ? ->).
  unfold no_writer. destruct Hp as [-> | ->]; [done|]. apply Forall_alter; [done|]. by intros [].
Qed.

Lemma swap_page_spec P0 (e : StorageEngine) T id ts cur :
  rest P0 -> (2 <= length P0)%nat -> heap_inv heap_fine (heap e) T -> scan_pin P0 (heap e) T cur -> T !! id = Some ts ->
  exists hp p, swap_page engine_fine id cur e = (MkEngine (index e) hp, Ok p) /\ heap_inv heap_fine hp T
    /\ scan_pin P0 hp T (Some p) /\ rp_page_id (pt_page p) = id /\ shows_page hp (pt_page p) ts.
Proof using CRCok CRCcok.
  intros Hr Hlen Inv Hpin Hts. pose proof Hr as Hr'. rewrite Forall_lookup in Hr'.
  assert (Hgen : forall f g, (g < length P0)%nat -> g <> f -> alter pin_read f P0 !! g = Some (0, false)).
  { intros f g Hg Hne. rewrite list_lookup_alter_ne by done. destruct (lookup_lt_is_Some_2 P0 g Hg) as [x Hx]. by rewrite Hx, (Hr' _ _ Hx). }
  unfold swap_page. destruct cur as [p|].
  - destruct Hpin as ((ts0 & Hts0 & Hsh) & P1). destruct (Z.eqb_spec (rp_page_id (pt_page p)) id) as [Hid|Hne].
    + exists (heap e), p. rewrite Hid in Hts0. rewrite Hts in Hts0. injection Hts0 as <-. split; [by destruct e|].
      split; [done|]. split; [split; [|done]; rewrite Hid; by exists ts|]. done.
    + set (f := rp_frame (pt_page p)) in *. assert (Hf : (f < length P0)%nat).
      { destruct Hsh as (fr & Ef & _). apply pins_lookup in Ef. rewrite P1 in Ef. apply lookup_lt_Some in Ef. by rewrite length_alter in Ef. }
      destruct (page_pinned (heap e) T id ts Inv Hts) as (hp1 & q & E1 & Inv1 & Hq & Hshq & P1').
      { eapply (rest_no_writer P0 _ f); [done|by right]. }
      { destruct (decide (f = 0%nat)) as [Hf0|Hf0]; [exists 1%nat|exists 0%nat]; rewrite P1; apply Hgen; clear - Hlen Hf0; lia. }
      rewrite P1 in P1'. set (g := rp_frame (pt_page q)) in *.
      assert (Hpf : exists n, pins (h_cache hp1) !! f = Some (n, false) /\ 0 < n).
      { destruct (lookup_lt_is_Some_2 P0 f Hf) as [x Hx]. pose proof (Hr' _ _ Hx) as ->. rewrite P1', list_lookup_alter.
        case_decide as Hd; [rewrite Hd|]; rewrite list_lookup_alter_eq, Hx; cbn [fmap option_fmap option_map]; unfold pin_read; cbn [fst snd];
          eexists; (split; [reflexivity|lia]). }
      destruct Hpf as (n & Hpf & Hn).
      destruct (drop_spec (V := DiskBlockStore) (P := LruK nat) heap_fine ltac:(done) hp1 T f n Inv1 Hpf Hn) as (hp2 & E2 & Inv2 & P2 & Hsh2).
      exists hp2, q. split.
      { erewrite sr_bind_ok; [|apply on_heap_ok; exact E1]. cbn [index]. erewrite sr_bind_ok; [reflexivity|].
        apply (on_heap_ok (pt_drop p) (MkEngine (index e) hp1)). exact E2. }
      split; [done|]. split; [|split; [done|by apply Hsh2]]. split; [rewrite Hq; exists ts; split; [done|by apply Hsh2]|].
      by rewrite P2, P1', unpin_other.
  - cbn [scan_pin] in Hpin. destruct (page_pinned (heap e) T id ts Inv Hts) as (hp1 & q & E1 & Inv1 & Hq & Hshq & P1').
    { eapply (rest_no_writer P0 _ 0%nat); [done|by left]. }
    { exists 0%nat. rewrite Hpin. destruct (lookup_lt_is_Some_2 P0 0%nat ltac:(lia)) as [x Hx]. by rewrite Hx, (Hr' _ _ Hx). }
    exists hp1, q. split; [by apply on_heap_ok|]. split; [done|]. split; [|done].
    split; [rewrite Hq; by exists ts|]. by rewrite P1', Hpin.
Qed.

(** An index entry and the row it resolves to. *)
Definition resolves (m : gmap TupleLoc (list byte)) (kv row : KVPair) : Prop :=
  kv.1 = row.1 /\ exists l, loc_wf l /\ kv.2 = loc_encode l /\ m !! l = Some row.2.

Definition row_result (row : KVPair) : res StorageError (list byte * option (list byte)) := Ok (row.1, Some row.2).

Lemma scan_row_spec P0 (e : StorageEngine) T m kv row cur :
  rest P0 -> (2 <= length P0)%nat -> heap_inv heap_fine (heap e) T -> lives T m -> scan_pin P0 (heap e) T cur ->
  resolves m kv row ->
  exists hp r, scan_row engine_fine kv cur e = (MkEngine (index e) hp, Ok r) /\ heap_inv heap_fine hp T
    /\ scan_pin P0 hp T (Some (sr_page r)) /\ sr_key r = row.1
    /\ row_bytes r (MkEngine (index e) hp) = (MkEngine (index e) hp, Ok (Some row.2)).
Proof using CRCok CRCcok.
  intros Hr Hlen Inv Hlv Hpin (Hk & l & Hlw & Hv & Hm). destruct (lives_page _ _ _ _ Hlv Hm) as ([_ Hs] & ts & Hts & Hg).
  destruct (swap_page_spec P0 e T (page_id l) ts cur Hr Hlen Inv Hpin Hts) as (hp & p & E & Inv' & Hpin' & Hid & Hsh).
  exists hp, (MkScanRow kv.1 p (slot_id l)). split.
  { unfold scan_row, decode_loc. rewrite Hv, (proj2 (loc_decode_exact _ l)) by done. erewrite sr_bind_ok; [|reflexivity].
    rewrite (sr_bind_ok _ _ _ _ _ E). reflexivity. }
  split; [done|]. split; [done|]. split; [done|]. unfold row_bytes. cbn [sr_page sr_slot].
  apply (on_heap_ok (pt_tuple p (slot_id l)) (MkEngine (index e) hp)). cbn [heap]. unfold pt_tuple.
  by rewrite (live_tuple_shows (V := DiskBlockStore) (P := LruK nat) hp (pt_page p) ts (slot_id l) Hsh Hs), Hg.
Qed.

(** Draining: the rows are the index's entries, resolved. *)
Lemma scan_rows_spec P0 dir fuel T m n : forall it c out rows cur (e : StorageEngine),
  rest P0 -> (2 <= length P0)%nat -> lives T m -> heap_inv heap_fine (heap e) T -> scan_pin P0 (heap e) T cur ->
  tables (index e) = dir -> forall c', cache (index e) = c ->
  drain_iter (scan_next dir fuel) n it c = (Ok <$> out, c') -> Forall2 (resolves m) out rows ->
  exists cur' hp, scan_rows engine_fine fuel n (MkScan it cur) e
      = (row_result <$> rows, cur', MkEngine (with_cache c' (index e)) hp)
    /\ heap_inv heap_fine hp T /\ scan_pin P0 hp T cur'.
Proof using CRCok CRCcok.
  induction n as [|n IH]; intros it c out rows cur e Hr Hlen Hlv Inv Hpin Hdir c' Hc; cbn [drain_iter scan_rows].
  - intros [= Hout <-] Hrows. destruct out; [|done]. inversion Hrows; subst. exists cur, (heap e). split; [|done].
    by destruct e as [[] ?].
  - unfold scan_step. cbn [sc_index sc_current]. rewrite Hdir, Hc.
    destruct (scan_next dir fuel it c) as [[r it'] c1] eqn:En. destruct r as [a|].
    + destruct (drain_iter (scan_next dir fuel) n it' c1) as [l c2] eqn:Ed. intros [= Hout <-] Hrows.
      destruct out as [|kv out]; [done|]. cbn in Hout. injection Hout as -> ->.
      inversion Hrows as [|kv' row out' rows' Hrow Hrows' E1 E2]; subst.
      destruct (scan_row_spec P0 (MkEngine (with_cache c1 (index e)) (heap e)) T m kv row cur Hr Hlen Inv Hlv Hpin Hrow)
        as (hp & r & E & Inv' & Hpin' & Hk & Hb). cbn [index] in *.
      rewrite E. cbv beta iota. rewrite Hb. cbv beta iota.
      destruct (IH it' c1 out rows' (Some (sr_page r)) (MkEngine (with_cache c1 (index e)) hp) Hr Hlen Hlv Inv' Hpin' eq_refl c2 eq_refl Ed Hrows')
        as (cur' & hp' & E' & Inv'' & Hpin''). rewrite E'.
      exists cur', hp'. split; [|done]. cbn [fmap list_fmap map_ok]. unfold row_result at 2. by rewrite <- Hk.
    + intros [= Hout <-] Hrows. destruct out; [|done]. inversion Hrows; subst. exists cur, (heap e). done.
Qed.

Lemma scan_at_tables fuel lo hi q (t t1 : Lsm.Lsm M) it :
  Lsm.scan_at fuel lo hi q t = (Ok it, t1) -> tables t1 = tables t /\ exists c, t1 = with_cache c t.
Proof.
  unfold Lsm.scan_at. destruct (map_err _ _) as [items|x|]; [|done..].
  destruct (table_sources _ _ _ _ _ _) as [srcs c1]. destruct (Merge.new _ _ _) as [heads c2]. intros [= _ <-]. by eauto.
Qed.

(** A drained scan of an engine at rest. *)
Lemma scan_collect_spec e h hi m T lo hi_b q fuel out rows c :
  einv e h hi m T -> at_rest (h_cache (heap e)) -> (2 <= length (pins (h_cache (heap e))))%nat ->
  lrun cfg m0 (with_cache c (index e)) hi ->
  scan_collect fuel lo hi_b q (index e) = (Ok (Ok <$> out), with_cache c (index e)) -> Forall2 (resolves m) out rows ->
  exists e', scan_collect_rows engine_fine fuel lo hi_b q e = (e', Ok (row_result <$> rows))
    /\ einv e' h hi m T /\ pins (h_cache (heap e')) = pins (h_cache (heap e)) /\ lseq (index e') = lseq (index e).
Proof using CRCok CRCcok.
  intros [Hidx Hheap Hlv Hpt Hw] Hr Hlen Hidx' Hsc Hrows. unfold scan_collect in Hsc. unfold scan_collect_rows, engine_scan_at.
  destruct (Lsm.scan_at fuel lo hi_b q (index e)) as [[it|x|] t1] eqn:Es; [|done..].
  destruct (scan_at_tables _ _ _ _ _ _ _ Es) as (Ht & c1 & ->).
  destruct (drain_iter _ _ _ _) as [l c2] eqn:Ed. injection Hsc as -> Hc.
  erewrite sr_bind_ok; [|apply on_index_ok; rewrite Es; reflexivity].
  unfold mret, sr_ret.
  destruct (scan_rows_spec (pins (h_cache (heap e))) (tables (index e)) fuel T m fuel it (cache (with_cache c1 (index e))) out rows None
              (MkEngine (with_cache c1 (index e)) (heap e)) Hr Hlen Hlv Hheap eq_refl eq_refl c2 eq_refl Ed Hrows)
    as (cur' & hp & E & Inv' & Hpin'). rewrite E. destruct cur' as [p|].
  - destruct Hpin' as ((ts & _ & fr & Ef & _) & P'). set (f := rp_frame (pt_page p)) in *.
    assert (Hpf : pins (h_cache hp) !! f = Some (1, false)).
    { pose proof (pins_lookup _ _ _ Ef) as Hf. rewrite P', list_lookup_alter_eq in *. unfold at_rest in Hr. rewrite Forall_lookup in Hr.
      destruct (pins (h_cache (heap e)) !! f) as [x|] eqn:Ex; [|done]. by rewrite (Hr _ _ Ex). }
    destruct (drop_spec (V := DiskBlockStore) (P := LruK nat) heap_fine ltac:(done) hp T f 1 Inv' Hpf ltac:(lia)) as (hp2 & E2 & Inv2 & P2 & _).
    unfold on_heap at 1. cbn [heap]. unfold pt_drop, rp_drop. fold f. rewrite E2. cbn [map_err map_ok].
    eexists. split; [reflexivity|]. cbn [heap index]. rewrite P2, P'.
    assert (Hid : alter unpin_read f (alter pin_read f (pins (h_cache (heap e)))) = pins (h_cache (heap e))).
    { apply list_eq. intros i. rewrite !list_lookup_alter. case_decide; [subst i|done]. rewrite decide_True by done.
      destruct (pins (h_cache (heap e)) !! f) as [[n w]|]; [|done]. cbn. unfold unpin_read, pin_read. cbn.
      apply (f_equal (fun x => Some (x, w))). lia. }
    rewrite Hid. split; [|done]. split; cbn [heap index]; try done; [by rewrite Hc|]. unfold no_writer. by rewrite P2, P', Hid.
  - eexists. split; [reflexivity|]. cbn [heap index]. cbn [scan_pin] in Hpin'. rewrite Hpin'. split; [|done].
    split; cbn [heap index]; try done; [by rewrite Hc|]. unfold no_writer. by rewrite Hpin'.
Qed.

(** The rows of a snapshot. *)
Lemma points_take m hi h q : Forall2 (points m) hi h -> Forall2 (points m) (take q hi) (take q h).
Proof. intros H. by apply Forall2_take. Qed.

Lemma loc_encode_inj l l' : loc_wf l -> loc_wf l' -> loc_encode l = loc_encode l' -> l = l'.
Proof.
  intros H H' E. assert (H1 : loc_decode (loc_encode l) = Some l) by (by apply loc_decode_exact).
  rewrite E, (proj2 (loc_decode_exact _ l')) in H1 by done. by injection H1.
Qed.

Lemma resolve_rows m (out : list KVPair) :
  (forall kv, kv ∈ out -> exists l v, loc_wf l /\ kv.2 = loc_encode l /\ m !! l = Some v) ->
  exists rows, Forall2 (resolves m) out rows.
Proof.
  induction out as [|kv out IH]; intros H; [by exists []|].
  destruct (H kv ltac:(by left)) as (l & v & Hl & Hv & Hm). destruct IH as [rows Hrows]; [intros; apply H; by right|].
  exists ((kv.1, v) :: rows). constructor; [|done]. split; [done|]. by exists l.
Qed.

Lemma resolves_sorted m out rows :
  Forall2 (resolves m) out rows -> StronglySorted (fun a b => bytes_cmp a.1 b.1 = Lt) out ->
  StronglySorted (fun a b => bytes_cmp a.1 b.1 = Lt) rows.
Proof.
  induction 1 as [|kv row out rows [Hk _] Hrest IH]; [constructor|]. intros Hs. inversion Hs as [|? ? Hs' Hall]; subst.
  constructor; [by apply IH|]. rewrite <- Hk. clear - Hrest Hall.
  induction Hrest as [|kv' row' out rows [Hk' _] _ IH]; [constructor|]. inversion Hall; subst.
  constructor; [by rewrite <- Hk'|]. by apply IH.
Qed.

Lemma resolves_elem m hi h out rows (P : list byte -> Prop) :
  Forall2 (points m) hi h -> Forall2 (resolves m) out rows ->
  (forall k lb, (k, lb) ∈ out <-> P k /\ LsmReads.spec_get hi k = Some lb) ->
  forall k v, (k, v) ∈ rows <-> P k /\ LsmReads.spec_get h k = Some v.
Proof.
  intros Hp Hr Hout k v. pose proof (points_get m hi h k Hp) as Hf. split.
  - intros (i & Hi)%list_elem_of_lookup_1. destruct (Forall2_lookup_r _ _ _ _ _ Hr Hi) as ([k' lb] & Ho & Hk & l & Hlw & Hlb & Hm).
    cbn in Hk, Hlb, Hm. subst k' lb. apply list_elem_of_lookup_2, Hout in Ho as [HP Ho]. split; [done|].
    rewrite Ho in Hf. destruct (LsmReads.spec_get h k) as [v'|]; [|done]. destruct Hf as (l' & Hlw' & Hl & Hm').
    apply (inj Some), loc_encode_inj in Hl; [|done..]. subst l'. congruence.
  - intros [HP Hv]. rewrite Hv in Hf. destruct Hf as (l & Hlw & Hi & Hm).
    assert (Ho : (k, loc_encode l) ∈ out) by (by apply Hout).
    apply list_elem_of_lookup_1 in Ho as (i & Ho). destruct (Forall2_lookup_l _ _ _ _ _ Hr Ho) as ([k' v'] & Hrow & Hk & l' & Hlw' & Hl & Hm').
    cbn in Hk, Hl, Hm'. subst k'. apply loc_encode_inj in Hl; [|done..]. subst l'. rewrite Hm in Hm'. injection Hm' as <-.
    by eapply list_elem_of_lookup_2.
Qed.

(** A drained scan of an engine at rest, from its history. *)
Lemma scan_snapshot e h hi' m T lo hi q :
  einv e h hi' m T -> at_rest (h_cache (heap e)) -> (2 <= length (pins (h_cache (heap e))))%nat -> valid_range lo hi = true -> 0 <= q ->
  exists rows,
    (forall fuel, (scan_fuel (index e) <= fuel)%nat -> exists e', scan_collect_rows engine_fine fuel lo hi q e
        = (e', Ok (row_result <$> rows)) /\ einv e' h hi' m T /\ pins (h_cache (heap e')) = pins (h_cache (heap e))
        /\ lseq (index e') = lseq (index e))
    /\ StronglySorted (fun a b => bytes_cmp a.1 b.1 = Lt) rows
    /\ forall k v, (k, v) ∈ rows <-> in_bounds k lo hi = true /\ LsmReads.spec_get (take (Z.to_nat q) h) k = Some v.
Proof using Hu CRCok CRCcok FBok MSok.
  intros I Hr Hlen Hv Hq. pose proof I as [Hidx Hheap Hlv Hpt Hw].
  destruct (lrun_ok cfg m0 _ _ Hu Hidx) as [(tabs & ids & V & _) _]. pose proof (scan_fuel_enough _ _ _ _ V) as Hn.
  destruct (scan_ok (index e) hi' tabs ids lo hi q _ V Hv Hq Hn) as (out & c & E & _ & Hs & Hout).
  pose proof (points_take m hi' h (Z.to_nat q) Hpt) as Hpq.
  destruct (resolve_rows m out) as [rows Hrows].
  { intros [k lb] [_ Hk]%Hout. pose proof (points_get m _ _ k Hpq) as Hf. rewrite Hk in Hf.
    destruct (LsmReads.spec_get (take (Z.to_nat q) h) k) as [v|]; [|done]. destruct Hf as (l & Hlw & Hl%(inj Some) & Hm). by exists l, v. }
  exists rows. split; [|split; [by eapply resolves_sorted|by eapply (resolves_elem m _ _ out)]].
  intros fuel Hfu. destruct (scan_ok (index e) hi' tabs ids lo hi q fuel V Hv Hq ltac:(lia)) as (out' & c' & E' & _ & Hs' & Hout').
  assert (out' = out) as ->. { apply sorted_pairs_unique; [done..|]. intros [k v]. by rewrite Hout, Hout'. }
  eapply (scan_collect_spec e h hi' m T); [done..| |done|done].
  pose proof (lrun_scan cfg m0 (index e) hi' lo hi q fuel Hidx Hv Hq Hfu) as Hl. by rewrite E' in Hl.
Qed.

(** ** The invariant of a run *)

Lemma erun_inv e h : erun e h -> exists hi m T, einv e h hi m T.
Proof using Hu CRCok CRCcok FBok MSok.
  induction 1 as [lim e E|e h k v e' _ (hi & m & T & I) Hk E|e h v hp x _ (hi & m & T & I) E
    |e h k e' _ (hi & m & T & I) Hk E|e h e' _ (hi & m & T & I) Hf E|e h k e' r _ (hi & m & T & I) E
    |e h lo hi_b q fuel e' l _ (hi & m & T & I) Hr Hlen Hv Hq Hfu E|e h f n e' _ (hi & m & T & I) Hp Hn E].
  - unfold engine_with in E. destruct (with_memtable cfg m0 (ed_index empty_dir)) as [t|x|] eqn:Et; [|done..].
    cbn [map_err] in E. rewrite bind_Ok in E. cbn [ed_db ed_journal empty_dir] in E.
    destruct (heap_open lim HEAP_FRAMES [] None) as [d [hp|x|]] eqn:Eh; [|done..]. cbn [snd map_err] in E.
    rewrite bind_Ok in E. apply Ok_inj in E as <-.
    destruct (heap_open_fresh heap_fine lim HEAP_FRAMES d hp ltac:(done) Eh) as (Inv & Hr & _).
    exists [], ∅, ∅. split; cbn [index heap]; [by apply lrun_open|exact Inv| |constructor|by apply at_rest_no_writer].
    intros l t'. unfold tlookup. rewrite !lookup_empty. by split; [|intros [_ ?]].
  - by eapply put_inv.
  - destruct I as [Hidx Hheap Hlv Hpt Hw].
    destruct (insert_spec (V := DiskBlockStore) (P := LruK nat) heap_fine ltac:(done) (heap e) T v Hheap) as (hp1 & r & E1 & Hr).
    rewrite E in E1. apply pair_equal_spec in E1 as [<- <-]. destruct Hr as (_ & Hrest & _ & T' & _ & HT & Inv').
    exists hi, m, T'. split; cbn [index heap]; [done|done| |done|unfold no_writer; by rewrite Hrest].
    intros l t. by rewrite HT.
  - destruct I as [Hidx Hheap Hlv Hpt Hw]. apply index_write in E as (t & Et & ->).
    exists (hi ++ [(k, None)]), m, T. split; cbn [index heap]; try done.
    + apply (lrun_write cfg m0 (index e) hi k [] Delete t Hidx); [|done|exact Et]. apply key_fits_wf; [done|cbn; lia].
    + apply Forall2_app; [done|]. by constructor.
  - destruct I as [Hidx Hheap Hlv Hpt Hw].
    destruct (heap_flush_spec (V := DiskBlockStore) (P := LruK nat) heap_fine ltac:(done) (heap e) T Hheap) as (hp & E1 & Inv' & P').
    unfold engine_flush in E. erewrite sr_bind_ok in E; [|apply on_heap_ok; exact E1].
    apply index_write in E as (t & Et & ->). exists hi, m, T. split; cbn [index heap]; try done.
    + by apply (lrun_flush cfg m0 (index e)).
    + unfold no_writer. by rewrite P'.
  - destruct (engine_get_spec e h hi m T k I) as (e1 & r1 & E1 & I1 & _). rewrite E in E1. apply pair_equal_spec in E1 as [<- <-].
    by exists hi, m, T.
  - destruct (scan_snapshot e h hi m T lo hi_b q I Hr Hlen Hv Hq) as (rows & Es & _). destruct (Es fuel Hfu) as (e1 & E1 & I1 & _).
    rewrite E in E1. injection E1 as -> _. by exists hi, m, T.
  - destruct I as [Hidx Hheap Hlv Hpt Hw].
    destruct (drop_spec (V := DiskBlockStore) (P := LruK nat) heap_fine ltac:(done) (heap e) T f n Hheap Hp Hn) as (hp & E1 & Inv' & P' & _).
    rewrite (on_heap_ok _ _ _ _ E1) in E. apply (f_equal fst) in E. cbn [fst] in E. subst e'.
    exists hi, m, T. split; cbn [index heap]; try done. eapply no_writer_alter; [exact Hw|exact P'|]. by intros [].
Qed.

(** C2: the engine is a map with history.  After any run of puts, deletes,
    flushes, lookups, scans and view drops from a new engine, [get] of a key gives a
    view of the value of its last acknowledged put, or nothing when it was
    deleted or never written: the index and the heap never disagree.  It fails
    only when views pin every frame of the pool. *)
Theorem engine_refines_history e h k :
  erun e h ->
  exists e' r, engine_get engine_fine k e = (e', r) /\
  match r with
  | Ok None => LsmReads.spec_get h k = None
  | Ok (Some v) => exists b, LsmReads.spec_get h k = Some b /\ on_heap (tr_bytes v) e' = (e', Ok (Some b))
  | Err x => x = SExhausted (inr (EPoolExhausted (Z.of_nat (length (PageCache.frames (h_cache (heap e)))))))
      /\ all_pinned (h_cache (heap e))
  | Panic => False
  end.
Proof using Hu CRCok CRCcok FBok MSok.
  intros R. destruct (erun_inv e h R) as (hi & m & T & I).
  destruct (engine_get_spec e h hi m T k I) as (e' & r & E & _ & Hr). exists e', r. split; [done|].
  destruct r as [[v|]|x|]; [|apply Hr|done..]. destruct Hr as (b & Hb & Ht & _). by exists b.
Qed.

(** C3: a scan of the engine is a snapshot.  With no view held and two frames
    to work with, a drained scan as of sequence number [q] yields, in strictly
    ascending key order and without an error, exactly the live pairs of the
    first [q] writes in the bounds, each with its tuple's bytes, holding one
    page at a time and leaving no page pinned; every fuel of at least
    [scan_fuel] gives this result. *)
Theorem engine_scan_snapshot e h lo hi q :
  erun e h -> at_rest (h_cache (heap e)) -> (2 <= length (pins (h_cache (heap e))))%nat -> valid_range lo hi = true -> 0 <= q ->
  exists rows,
    (forall fuel, (scan_fuel (index e) <= fuel)%nat -> exists e', scan_collect_rows engine_fine fuel lo hi q e
        = (e', Ok ((fun row : KVPair => Ok (row.1, Some row.2)) <$> rows)) /\ at_rest (h_cache (heap e')))
    /\ StronglySorted (fun a b => bytes_cmp a.1 b.1 = Lt) rows
    /\ forall k v, (k, v) ∈ rows <-> in_bounds k lo hi = true /\ LsmReads.spec_get (take (Z.to_nat q) h) k = Some v.
Proof using Hu CRCok CRCcok FBok MSok.
  intros R Hr Hlen Hv Hq. destruct (erun_inv e h R) as (hi' & m & T & I).
  destruct (scan_snapshot e h hi' m T lo hi q I Hr Hlen Hv Hq) as (rows & E & Hs & Hm). exists rows. split; [|done].
  intros fuel Hf. destruct (E fuel Hf) as (e' & E' & _ & P' & _). exists e'. split; [done|]. unfold at_rest. by rewrite P'.
Qed.
End refinement.

(** ** Witnesses *)

Section witnesses.
Import Journal.Ieee TinyBloom Castagnoli.

(** A new engine, and the engine after one put. *)
Definition w_engine : StorageEngine (M := BTreeMemtable.t) :=
  match engine_with w_config (2 ^ 40) w_mem empty_dir with
  | Ok e => e
  | _ => MkEngine w_open (Heap_new (MkInner fresh_disk [] ∅ [] (MkLruK 2 0 ∅) None))
  end.
Definition w_engine1 : StorageEngine (M := BTreeMemtable.t) := (engine_put engine_fine [x61] [x01; x02] w_engine).1.

Lemma w_engine_open : engine_with w_config (2 ^ 40) w_mem empty_dir = Ok w_engine.
Proof.
  assert (E : match engine_with w_config (2 ^ 40) w_mem empty_dir with Ok _ => true | _ => false end = true) by (vm_compute; reflexivity).
  unfold w_engine. by destruct (engine_with w_config (2 ^ 40) w_mem empty_dir).
Qed.

Lemma w_engine1_put : engine_put engine_fine [x61] [x01; x02] w_engine = (w_engine1, Ok tt).
Proof.
  assert (E : match (engine_put engine_fine [x61] [x01; x02] w_engine).2 with Ok _ => true | _ => false end = true)
    by (vm_compute; reflexivity).
  unfold w_engine1. destruct (engine_put engine_fine [x61] [x01; x02] w_engine) as [e [[]| |]]; done.
Qed.

Lemma w_engine1_run : erun w_config w_mem w_engine1 [([x61], Some [x01; x02])].
Proof.
  apply (er_put w_config w_mem w_engine [] [x61] [x01; x02] w_engine1).
  - by apply (er_open w_config w_mem (2 ^ 40)), w_engine_open.
  - split; by vm_compute.
  - exact w_engine1_put.
Qed.

Lemma w_engine1_rest : at_rest (h_cache (heap w_engine1)) /\ (2 <= length (pins (h_cache (heap w_engine1))))%nat.
Proof.
  assert (E : pins (h_cache (heap w_engine1)) = replicate 1024 (0, false)).
  { apply (bool_decide_eq_true_1 _). vm_compute. reflexivity. }
  unfold at_rest. rewrite E. split; [apply Forall_forall; by intros x [-> _]%elem_of_replicate|]. rewrite length_replicate. lia.
Qed.

Lemma engine_refines_history_witness :
  exists e' r, engine_get engine_fine [x61] w_engine1 = (e', r) /\
  match r with
  | Ok None => False
  | Ok (Some v) => exists b, Some [x01; x02] = Some b /\ on_heap (tr_bytes v) e' = (e', Ok (Some b))
  | Err x => x = SExhausted (inr (EPoolExhausted (Z.of_nat (length (PageCache.frames (h_cache (heap w_engine1)))))))
      /\ all_pinned (h_cache (heap w_engine1))
  | Panic => False
  end.
Proof.
  destruct (engine_refines_history w_config w_mem w_usable w_engine1 [([x61], Some [x01; x02])] [x61] w_engine1_run) as (e' & r & E & Hr).
  exists e', r. split; [exact E|]. destruct r as [[v|]|x|]; [exact Hr|discriminate Hr|exact Hr|exact Hr].
Defined.

Lemma engine_scan_snapshot_witness :
  exists rows,
    (forall fuel, (scan_fuel (index w_engine1) <= fuel)%nat -> exists e', scan_collect_rows engine_fine fuel Unbounded Unbounded 1 w_engine1
        = (e', Ok ((fun row : KVPair => Ok (row.1, Some row.2)) <$> rows)) /\ at_rest (h_cache (heap e')))
    /\ StronglySorted (fun a b => bytes_cmp a.1 b.1 = Lt) rows
    /\ forall k v, (k, v) ∈ rows <-> in_bounds k Unbounded Unbounded = true
         /\ LsmReads.spec_get (take (Z.to_nat 1) [([x61], Some [x01; x02])]) k = Some v.
Proof.
  apply (engine_scan_snapshot w_config w_mem w_usable w_engine1 [([x61], Some [x01; x02])] Unbounded Unbounded 1);
    [exact w_engine1_run|apply w_engine1_rest|apply w_engine1_rest|reflexivity|lia].
Defined.
End witnesses.
