(* ===== verification/MemoryPool.v ===== *)
(** * The memory pool

    [MemoryPool] of memory.rs: one byte cap and one atomic usage counter,
    shared by every clone.  [pool_allocate] and [slab_drop] are the operations of
    a thread that runs alone.  [pool_step] interleaves threads at the grain of
    the atomic operations: an allocation reserves with [fetch_add], which wraps,
    then decides on the value it saw, then keeps the reservation, takes it back, or
    panics and leaves it. *)

From Stdlib Require Import Strings.Byte ZArith Lia.
From stdpp Require Import prelude list relations.
From S2P Require Import Prelude.
Local Open Scope Z_scope.

Record PoolInner : Type := MkPool { p_cap : Z; p_in_use : Z }.
Record OutOfMemory : Type := MkOom { requested : Z; oom_in_use : Z; oom_cap : Z }.
Record Slab : Type := MkSlab { slab_bytes : list byte }.

Definition pool_new (cap : Z) : PoolInner := MkPool cap 0.
Definition pool_in_use (p : PoolInner) : Z := p_in_use p.
Definition pool_cap (p : PoolInner) : Z := p_cap p.

(** The atomic operations wrap. *)
Definition fetch_add (n : Z) (p : PoolInner) : Z * PoolInner := (p_in_use p, MkPool (p_cap p) (wrap64 (p_in_use p + n))).
Definition fetch_sub (n : Z) (p : PoolInner) : Z * PoolInner := (p_in_use p, MkPool (p_cap p) (wrap64 (p_in_use p - n))).

(** [cap != 0 && prev + size > cap]: the sum panics on overflow. *)
Definition over_cap (cap prev size : Z) : res OutOfMemory bool :=
  if cap =? 0 then Ok false
  else if prev + size <=? u64_max then Ok (cap <? prev + size) else Panic.

(** [vec![0u8; size]] panics past [isize::MAX]. *)
Definition isize_max : Z := 2 ^ 63 - 1.
Definition new_slab (size : Z) : res OutOfMemory Slab :=
  if size <=? isize_max then Ok (MkSlab (replicate (Z.to_nat size) x00)) else Panic.

Definition slab_len (s : Slab) : Z := Z.of_nat (length (slab_bytes s)).
Definition slab_is_empty (s : Slab) : bool := match slab_bytes s with [] => true | _ => false end.

Definition pool_allocate (size : Z) (p : PoolInner) : PoolInner * res OutOfMemory Slab :=
  let '(prev, p) := fetch_add size p in
  match over_cap (p_cap p) prev size with
  | Ok true => let '(_, p) := fetch_sub size p in (p, Err (MkOom size prev (p_cap p)))
  | Ok false => (p, new_slab size)
  | Err e => (p, Err e)
  | Panic => (p, Panic)
  end.

Definition slab_drop (s : Slab) (p : PoolInner) : PoolInner := (fetch_sub (slab_len s) p).2.

(** ** Threads *)

Inductive thread : Type :=
| TIdle
| TReserved (size prev : Z)
| TRefused (size prev : Z)
| TPanicked (size : Z).

Record config : Type := MkConfig { c_pool : PoolInner; c_threads : list thread; c_slabs : list Z }.

(** Threads that ask for at most [m] bytes at a time. *)
Inductive pool_step (m : Z) : config -> config -> Prop :=
| step_reserve p ts ss i size :
    ts !! i = Some TIdle -> 0 <= size <= m ->
    pool_step m (MkConfig p ts ss)
              (MkConfig (fetch_add size p).2 (<[i := TReserved size (fetch_add size p).1]> ts) ss)
| step_grant p ts ss i size prev s :
    ts !! i = Some (TReserved size prev) -> over_cap (p_cap p) prev size = Ok false -> new_slab size = Ok s ->
    pool_step m (MkConfig p ts ss) (MkConfig p (<[i := TIdle]> ts) (slab_len s :: ss))
| step_refuse p ts ss i size prev :
    ts !! i = Some (TReserved size prev) -> over_cap (p_cap p) prev size = Ok true ->
    pool_step m (MkConfig p ts ss) (MkConfig p (<[i := TRefused size prev]> ts) ss)
| step_panic p ts ss i size prev :
    ts !! i = Some (TReserved size prev) ->
    over_cap (p_cap p) prev size = Panic \/ (over_cap (p_cap p) prev size = Ok false /\ new_slab size = Panic) ->
    pool_step m (MkConfig p ts ss) (MkConfig p (<[i := TPanicked size]> ts) ss)
| step_rollback p ts ss i size prev :
    ts !! i = Some (TRefused size prev) ->
    pool_step m (MkConfig p ts ss) (MkConfig (fetch_sub size p).2 (<[i := TIdle]> ts) ss)
| step_drop p ts ss1 n ss2 :
    pool_step m (MkConfig p ts (ss1 ++ n :: ss2)) (MkConfig (fetch_sub n p).2 ts (ss1 ++ ss2)).

Definition initial (cap : Z) (n : nat) : config := MkConfig (pool_new cap) (replicate n TIdle) [].

(** ** Accounting *)

Fixpoint zsum {A} (f : A -> Z) (l : list A) : Z := match l with [] => 0 | x :: l => f x + zsum f l end.

Lemma zsum_app {A} (f : A -> Z) l k : zsum f (l ++ k) = zsum f l + zsum f k.
Proof. induction l as [|x l IH]; cbn; lia. Qed.

Lemma zsum_insert {A} (f : A -> Z) l i x y : l !! i = Some x -> zsum f (<[i := y]> l) = zsum f l - f x + f y.
Proof.
  revert i. induction l as [|z l IH]; intros [|i] H; [done..| |].
  - injection H as ->. cbn. lia.
  - change (f z + zsum f (<[i := y]> l) = f z + zsum f l - f x + f y). rewrite (IH i H). lia.
Qed.

Lemma zsum_nonneg {A} (f : A -> Z) l : (forall x, x ∈ l -> 0 <= f x) -> 0 <= zsum f l.
Proof.
  induction l as [|x l IH]; intros H; cbn; [lia|]. pose proof (H x ltac:(by left)).
  enough (0 <= zsum f l) by lia. apply IH. intros y Hy. apply H. by right.
Qed.

(** What a thread has reserved; what of it the cap approved. *)
Definition reserved (t : thread) : Z := match t with TIdle => 0 | TReserved s _ | TRefused s _ | TPanicked s => s end.
Definition approved (cap : Z) (t : thread) : Z :=
  match t with TReserved s prev => if (cap =? 0) || (prev + s <=? cap) then s else 0 | _ => 0 end.
Definition live (c : config) : Z := zsum id (c_slabs c).

Lemma wrap64_id z : is_u64 z -> wrap64 z = z.
Proof. intros H. unfold wrap64. apply Z.mod_small. ulia. Qed.

Lemma live_nonneg c : Forall is_u64 (c_slabs c) -> 0 <= live c.
Proof. intros H. apply zsum_nonneg. intros x Hx. rewrite Forall_forall in H. specialize (H _ Hx). cbn. ulia. Qed.

Lemma new_slab_len size s : 0 <= size -> new_slab size = Ok s -> slab_len s = size.
Proof.
  intros H. unfold new_slab. destruct (_ <=? _); [|done]. intros [= <-]. unfold slab_len. cbn. rewrite length_replicate. lia.
Qed.

Lemma fetch_sub_inv k p x : is_u64 (p_in_use p) -> 0 <= k <= p_in_use p -> p_in_use p = k + x ->
  is_u64 (p_in_use (fetch_sub k p).2) /\ p_in_use (fetch_sub k p).2 = x.
Proof. intros H Hk Hx. cbn. rewrite wrap64_id by ulia. split; [ulia|lia]. Qed.

(** Requests of at most [m] bytes by [n] threads, which fit the counter over the cap. *)
Section bounded.
Context (cap m : Z) (n : nat).
Context (Hm : 0 <= m) (Hcap : 0 < cap) (Hfit : cap + Z.of_nat n * m <= u64_max).

Definition thread_ok (t : thread) : Prop := match t with TIdle => True | TReserved s _ | TRefused s _ | TPanicked s => 0 <= s <= m end.

Record pool_inv (c : config) : Prop := {
  pi_cap : p_cap (c_pool c) = cap;
  pi_slabs : Forall is_u64 (c_slabs c);
  pi_threads : Forall thread_ok (c_threads c);
  pi_number : length (c_threads c) = n;
  pi_count : p_in_use (c_pool c) = live c + zsum reserved (c_threads c);
  pi_approved : live c + zsum (approved cap) (c_threads c) <= cap }.

Lemma reserved_nonneg ts : Forall thread_ok ts -> 0 <= zsum reserved ts.
Proof using Type.
  clear Hm Hcap Hfit. intros H. apply zsum_nonneg. intros t Ht. rewrite Forall_forall in H. specialize (H _ Ht). destruct t; cbn in *; lia.
Qed.

Lemma reserved_bound ts : Forall thread_ok ts -> zsum reserved ts <= Z.of_nat (length ts) * m.
Proof using Hm.
  clear Hfit Hcap. induction 1 as [|t ts Ht _ IH]; cbn [zsum length]; [lia|]. destruct t; cbn [reserved thread_ok] in *; lia.
Qed.

Lemma approved_nonneg ts : Forall thread_ok ts -> 0 <= zsum (approved cap) ts.
Proof using Type.
  clear Hm Hcap Hfit. intros H. apply zsum_nonneg. intros t Ht. rewrite Forall_forall in H. specialize (H _ Ht). destruct t; cbn in *; try lia. destruct (_ || _); lia.
Qed.

Lemma approved_reserved ts : Forall thread_ok ts -> zsum (approved cap) ts <= zsum reserved ts.
Proof using Type.
  clear Hm Hcap Hfit. induction 1 as [|t ts Ht _ IH]; cbn; [lia|]. enough (approved cap t <= reserved t) by lia.
  destruct t as [|s p|s p|s]; cbn in *; try lia. destruct (_ || _); lia.
Qed.

(** One thread's reservation is part of the counter. *)
Lemma reserved_le ts i t : Forall thread_ok ts -> ts !! i = Some t -> reserved t <= zsum reserved ts.
Proof using Type.
  clear Hm Hcap Hfit. intros H E. assert (Ha : Forall thread_ok (<[i := TIdle]> ts)) by (by apply Forall_insert).
  apply reserved_nonneg in Ha. rewrite (zsum_insert _ _ _ _ _ E) in Ha. cbn in Ha. lia.
Qed.

Lemma over_cap_granted prev size : over_cap cap prev size = Ok false -> prev + size <= cap.
Proof using Hcap.
  clear Hfit. unfold over_cap. destruct (Z.eqb_spec cap 0); [lia|]. destruct (_ <=? _); [|done].
  by destruct (Z.ltb_spec cap (prev + size)).
Qed.

(** The counter never wraps. *)
Lemma in_use_fits c : pool_inv c -> 0 <= p_in_use (c_pool c) <= cap + Z.of_nat n * m.
Proof using Hm Hcap Hfit.
  intros [_ Hs Ht Hn Hc Ha]. pose proof (live_nonneg _ Hs). pose proof (reserved_nonneg _ Ht). pose proof (reserved_bound _ Ht).
  pose proof (approved_nonneg _ Ht). rewrite Hn in *. lia.
Qed.

Lemma initial_inv : pool_inv (initial cap n).
Proof using Hm Hcap Hfit.
  assert (Hz : forall f : thread -> Z, f TIdle = 0 -> zsum f (replicate n TIdle) = 0).
  { intros f Hf. clear - Hf. induction n; cbn; [done|lia]. }
  split; cbn; try done; unfold live; cbn; rewrite ?Hz by done; try lia; [by apply Forall_replicate|by rewrite length_replicate].
Qed.

Lemma pool_step_inv c c' : pool_inv c -> pool_step m c c' -> pool_inv c'.
Proof using Hm Hcap Hfit.
  intros Hi Hst. pose proof (in_use_fits _ Hi) as Hu. destruct Hi as [Hc Hs Ht Hn Hcount Ha]. pose proof (live_nonneg _ Hs) as Hl. unfold live in *.
  assert (Hthread : forall ts i t, Forall thread_ok ts -> ts !! i = Some t -> thread_ok t) by (intros ts i t H; rewrite Forall_lookup in H; apply H).
  destruct Hst as [p ts ss i size E Hsz|p ts ss i size prev s E Hok Hsl|p ts ss i size prev E Hbad|p ts ss i size prev E Hp|p ts ss i size prev E|p ts ss1 k ss2];
    cbn [c_pool c_threads c_slabs p_cap p_in_use] in *.
  - cbn [fetch_add fst snd]. pose proof (approved_reserved ts Ht) as Har. pose proof (approved_nonneg ts Ht).
    assert (Ht' : Forall thread_ok (<[i := TReserved size (p_in_use p)]> ts)) by (by apply Forall_insert).
    pose proof (reserved_bound _ Ht') as Hb. rewrite length_insert, (zsum_insert _ _ _ _ _ E), Hn in Hb. cbn [reserved] in Hb.
    assert (Hwr : wrap64 (p_in_use p + size) = p_in_use p + size) by (apply wrap64_id; ulia).
    split; unfold live; cbn [c_pool c_threads c_slabs p_cap p_in_use]; rewrite ?Hwr, ?length_insert, ?(zsum_insert _ _ _ _ _ E); try done.
    + cbn. lia.
    + cbn [approved]. rewrite (proj2 (Z.eqb_neq cap 0)) by lia. cbn [orb]. destruct (Z.leb_spec (p_in_use p + size) cap); lia.
  - pose proof (Hthread _ _ _ Ht E) as Hsize. cbn in Hsize. rewrite (new_slab_len size s) by (try done; lia).
    assert (Hle := over_cap_granted prev size ltac:(by rewrite <- Hc)).
    assert (Hap : approved cap (TReserved size prev) = size) by (cbn; by rewrite (proj2 (Z.leb_le _ _) Hle), orb_true_r).
    split; unfold live; cbn [c_pool c_threads c_slabs zsum id]; rewrite ?length_insert, ?(zsum_insert _ _ _ _ _ E), ?Hap; try done.
    + constructor; [|done]. pose proof (reserved_le _ _ _ Ht E). cbn in *. ulia.
    + by apply Forall_insert.
    + cbn. lia.
    + cbn. lia.
  - pose proof (Hthread _ _ _ Ht E) as Hsize. split; unfold live; cbn [c_pool c_threads c_slabs]; rewrite ?length_insert, ?(zsum_insert _ _ _ _ _ E); try done.
    + by apply Forall_insert.
    + cbn. lia.
    + cbn in *. destruct (_ || _); lia.
  - pose proof (Hthread _ _ _ Ht E) as Hsize. split; unfold live; cbn [c_pool c_threads c_slabs]; rewrite ?length_insert, ?(zsum_insert _ _ _ _ _ E); try done.
    + by apply Forall_insert.
    + cbn. lia.
    + cbn in *. destruct (_ || _); lia.
  - pose proof (reserved_le _ _ _ Ht E) as Hle. pose proof (Hthread _ _ _ Ht E) as Hsize. cbn in Hle, Hsize.
    destruct (fetch_sub_inv size p (p_in_use p - size) ltac:(ulia) ltac:(lia) ltac:(lia)) as [H1 H2].
    split; unfold live; cbn [c_pool c_threads c_slabs]; rewrite ?H2, ?length_insert, ?(zsum_insert _ _ _ _ _ E); try done.
    + by apply Forall_insert.
    + cbn. lia.
    + cbn. lia.
  - pose proof (reserved_nonneg _ Ht). rewrite zsum_app in *. cbn [zsum id] in *. apply Forall_app in Hs as [Hs1 [Hsn Hs2]%Forall_cons].
    assert (0 <= zsum id ss1 /\ 0 <= zsum id ss2) as [H1 H2].
    { split; apply (live_nonneg (MkConfig p ts _)); done. }
    destruct (fetch_sub_inv k p (p_in_use p - k) ltac:(ulia) ltac:(ulia) ltac:(lia)) as [H3 H4].
    split; unfold live; cbn [c_pool c_threads c_slabs]; rewrite ?H4, ?zsum_app; try done; [by apply Forall_app|lia|ulia].
Qed.

Lemma pool_run_inv c : rtc (pool_step m) (initial cap n) c -> pool_inv c.
Proof using Hm Hcap Hfit.
  intros H. pose proof initial_inv as H0. revert H0. induction H as [|x y z Hst _ IH]; [done|]. intros Hi. apply IH. by eapply pool_step_inv.
Qed.
End bounded.

(** C23: the cap holds under concurrency.  However the allocations and drops of [n]
    threads that each ask for at most [m] bytes at a time interleave, when a
    non-zero cap and [n] reservations of [m] bytes fit a [usize] together, the slabs
    alive never exceed the cap, the counter is at least the live bytes, and it is
    exactly the live bytes whenever no allocation is under way.  The counter is
    incremented before the request is checked: without the bound on the requests it
    wraps, and the cap is exceeded. *)
Theorem pool_cap_respected cap m n c :
  0 <= m -> 0 < cap -> cap + Z.of_nat n * m <= u64_max -> rtc (pool_step m) (initial cap n) c ->
  live c <= cap /\ live c <= pool_in_use (c_pool c)
  /\ (Forall (eq TIdle) (c_threads c) -> pool_in_use (c_pool c) = live c).
Proof.
  intros Hm Hcap Hfit H. destruct (pool_run_inv cap m n Hm Hcap Hfit c H) as [_ Hs Ht _ Hn Ha].
  pose proof (reserved_nonneg m _ Ht) as Hr. pose proof (approved_nonneg cap m _ Ht). split; [lia|]. split; [unfold pool_in_use; lia|].
  intros Hidle. unfold pool_in_use. rewrite Hn. enough (zsum reserved (c_threads c) = 0) by lia.
  clear - Hidle. induction Hidle as [|t ts <- _ IH]; [done|]. cbn. lia.
Qed.

(** A pool of 128 bytes, two threads, 100 bytes alive: the first thread asks
    for 50 and has not yet taken its reservation back. *)
Definition busy_pool : config := MkConfig (MkPool 128 150) [TRefused 50 100; TIdle] [100].

Lemma busy_pool_reachable : rtc (pool_step 100) (initial 128 2) busy_pool.
Proof.
  eapply rtc_l. { apply (step_reserve 100 (pool_new 128) [TIdle; TIdle] [] 0 100); [done|lia]. }
  eapply rtc_l. { eapply (step_grant 100 _ _ _ 0 100 0); [done|reflexivity|vm_compute; reflexivity]. }
  eapply rtc_l. { eapply (step_reserve 100 _ _ _ 0 50); [done|lia]. }
  eapply rtc_l. { eapply (step_refuse 100 _ _ _ 0 50 100); [done|reflexivity]. }
  apply rtc_refl.
Qed.

Lemma pool_cap_respected_witness :
  live busy_pool <= 128 /\ live busy_pool <= pool_in_use (c_pool busy_pool)
  /\ (Forall (eq TIdle) (c_threads busy_pool) -> pool_in_use (c_pool busy_pool) = live busy_pool).
Proof. apply (pool_cap_respected 128 100 2 busy_pool); [lia|lia|ulia|exact busy_pool_reachable]. Defined.

(** A request of [usize::MAX] bytes over a full cap.  The counter wraps to one below
    the cap, the sum in the check overflows and the thread panics without taking its
    reservation back; the next request of one byte is granted past the cap. *)
Theorem wrapped_counter_exceeds_cap :
  exists c, rtc (pool_step u64_max) (initial 100 2) c /\ live c = 101.
Proof.
  exists (MkConfig (MkPool 100 100) [TIdle; TPanicked u64_max] [1; 100]). split; [|done].
  eapply rtc_l. { apply (step_reserve u64_max (pool_new 100) [TIdle; TIdle] [] 0 100); [done|ulia]. }
  eapply rtc_l. { eapply (step_grant u64_max _ _ _ 0 100 0); [done|reflexivity|vm_compute; reflexivity]. }
  eapply rtc_l. { eapply (step_reserve u64_max _ _ _ 1 u64_max); [done|ulia]. }
  eapply rtc_l. { eapply (step_panic u64_max _ _ _ 1 u64_max 100); [done|left; reflexivity]. }
  eapply rtc_l. { eapply (step_reserve u64_max _ _ _ 0 1); [done|ulia]. }
  eapply rtc_l. { eapply (step_grant u64_max _ _ _ 0 1 99); [done|reflexivity|vm_compute; reflexivity]. }
  apply rtc_refl.
Qed.

(** The counter runs ahead of the live slabs.  While one thread's refused
    reservation is not rolled back, [in_use] counts bytes no slab holds, and an
    allocation that fits the cap is refused. *)
Theorem transient_reservation_refuses :
  exists c c', rtc (pool_step 100) (initial 128 2) c /\ live c < pool_in_use (c_pool c) /\ live c + 28 <= 128
    /\ rtc (pool_step 100) c c' /\ c_threads c' !! 1%nat = Some (TRefused 28 150) /\ live c' = live c.
Proof.
  exists busy_pool, (MkConfig (MkPool 128 178) [TRefused 50 100; TRefused 28 150] [100]).
  split; [apply busy_pool_reachable|]. split; [vm_compute; done|]. split; [vm_compute; done|]. split; [|done].
  eapply rtc_l. { apply (step_reserve 100 (MkPool 128 150) [TRefused 50 100; TIdle] [100] 1 28); [done|lia]. }
  eapply rtc_l. { eapply (step_refuse 100 _ _ _ 1 28 150); [done|reflexivity]. }
  apply rtc_refl.
Qed.

(** Alone, an allocation is refused exactly when it does not fit, and then
    leaves the pool as it was. *)
Lemma allocate_alone size p :
  is_u64 (p_in_use p) -> 0 <= size <= isize_max -> p_in_use p + size <= u64_max ->
  pool_allocate size p
  = if negb (p_cap p =? 0) && (p_cap p <? p_in_use p + size) then (p, Err (MkOom size (p_in_use p) (p_cap p)))
    else (MkPool (p_cap p) (p_in_use p + size), Ok (MkSlab (replicate (Z.to_nat size) x00))).
Proof.
  intros Hu Hs Ho. unfold pool_allocate, fetch_add, over_cap, new_slab. cbn [p_cap p_in_use]. rewrite (wrap64_id (p_in_use p + size)) by ulia.
  rewrite (proj2 (Z.leb_le size isize_max)) by lia. destruct (p_cap p =? 0); cbn [negb andb]; [done|].
  rewrite (proj2 (Z.leb_le _ u64_max)) by lia. destruct (p_cap p <? p_in_use p + size); [|done].
  unfold fetch_sub. cbn [p_cap p_in_use]. replace (p_in_use p + size - size) with (p_in_use p) by lia.
  rewrite wrap64_id by done. by destruct p.
Qed.

(** An allocation then the drop of its slab leaves the counter as it was. *)
Lemma allocate_drop size p p' s :
  is_u64 (p_in_use p) -> 0 <= size <= isize_max -> p_in_use p + size <= u64_max ->
  pool_allocate size p = (p', Ok s) -> slab_drop s p' = p.
Proof.
  intros Hu Hs Ho. rewrite (allocate_alone size p Hu Hs Ho). destruct (_ && _); [done|]. intros [= <- <-].
  unfold slab_drop, fetch_sub, slab_len. cbn [p_in_use p_cap slab_bytes snd]. rewrite length_replicate, Z2Nat.id by lia.
  replace (p_in_use p + size - size) with (p_in_use p) by lia. rewrite wrap64_id by done. by destruct p.
Qed.
