(* ===== verification/Utf8.v ===== *)
(** * UTF-8

    What the sources use of Rust's [str]: a string is its bytes with
    [utf8_valid] as the type's invariant, [chars] its code points, and
    [from_chars] the [collect] of code points back into a string. *)

From Stdlib Require Import Strings.Byte ZArith Lia.
From stdpp Require Import prelude list.
From S2P Require Import Prelude.
Local Open Scope Z_scope.

Definition in_range (lo hi : Z) (b : byte) : bool := (lo <=? byteZ b) && (byteZ b <=? hi).
Definition is_cont (b : byte) : bool := in_range 128 191 b.

(** [str::from_utf8]'s validity: shortest forms, no surrogates, up to U+10FFFF. *)
Fixpoint utf8_valid (l : list byte) : bool :=
  match l with
  | [] => true
  | b0 :: l1 =>
      if in_range 0 127 b0 then utf8_valid l1
      else if in_range 194 223 b0 then
        match l1 with b1 :: l2 => is_cont b1 && utf8_valid l2 | _ => false end
      else if in_range 224 239 b0 then
        match l1 with
        | b1 :: b2 :: l3 =>
            in_range (if byteZ b0 =? 224 then 160 else 128) (if byteZ b0 =? 237 then 159 else 191) b1
            && is_cont b2 && utf8_valid l3
        | _ => false
        end
      else if in_range 240 244 b0 then
        match l1 with
        | b1 :: b2 :: b3 :: l4 =>
            in_range (if byteZ b0 =? 240 then 144 else 128) (if byteZ b0 =? 244 then 143 else 191) b1
            && is_cont b2 && is_cont b3 && utf8_valid l4
        | _ => false
        end
      else false
  end.

(** A [char]: a Unicode scalar value. *)
Definition is_char (c : Z) : bool :=
  ((0 <=? c) && (c <=? 55295)) || ((57344 <=? c) && (c <=? 1114111)).

(** [char::encode_utf8]. *)
Definition char_bytes (c : Z) : list byte :=
  if c <? 128 then [byte_of c]
  else if c <? 2048 then [byte_of (192 + c / 64); byte_of (128 + c mod 64)]
  else if c <? 65536 then
    [byte_of (224 + c / 4096); byte_of (128 + c / 64 mod 64); byte_of (128 + c mod 64)]
  else
    [byte_of (240 + c / 262144); byte_of (128 + c / 4096 mod 64); byte_of (128 + c / 64 mod 64); byte_of (128 + c mod 64)].

Definition from_chars (cs : list Z) : list byte := flat_map char_bytes cs.

(** [str::chars] of a valid string; a malformed lead byte stands for itself,
    which no [str] contains. *)
Fixpoint chars (l : list byte) : list Z :=
  match l with
  | [] => []
  | b0 :: l1 =>
      let z0 := byteZ b0 in
      if in_range 0 127 b0 then z0 :: chars l1
      else if in_range 194 223 b0 then
        match l1 with
        | b1 :: l2 => (z0 - 192) * 64 + (byteZ b1 - 128) :: chars l2
        | [] => [z0]
        end
      else if in_range 224 239 b0 then
        match l1 with
        | b1 :: b2 :: l3 => (z0 - 224) * 4096 + (byteZ b1 - 128) * 64 + (byteZ b2 - 128) :: chars l3
        | _ => [z0]
        end
      else
        match l1 with
        | b1 :: b2 :: b3 :: l4 =>
            (z0 - 240) * 262144 + (byteZ b1 - 128) * 4096 + (byteZ b2 - 128) * 64 + (byteZ b3 - 128) :: chars l4
        | _ => [z0]
        end
  end.

Lemma in_range_spec lo hi b : in_range lo hi b = true <-> lo <= byteZ b <= hi.
Proof. unfold in_range. rewrite andb_true_iff, !Z.leb_le. done. Qed.

Lemma in_range_of lo hi z : 0 <= z < 256 -> in_range lo hi (byte_of z) = (lo <=? z) && (z <=? hi).
Proof. intros H. unfold in_range. by rewrite byteZ_byte_of, Z.mod_small by lia. Qed.

Lemma byte_of_eq z b : z = byteZ b -> byte_of z = b.
Proof. intros ->. apply byte_of_byteZ. Qed.

#[local] Ltac Zify.zify_post_hook ::= Z.div_mod_to_equations.

(** A test of [in_range] on a byte built from its value. *)
Lemma in_range_true lo hi z : 0 <= z < 256 -> lo <= z <= hi -> in_range lo hi (byte_of z) = true.
Proof. intros Hz H. rewrite in_range_of by done. apply andb_true_iff. rewrite !Z.leb_le. lia. Qed.

Lemma in_range_false lo hi z : 0 <= z < 256 -> z < lo \/ hi < z -> in_range lo hi (byte_of z) = false.
Proof. intros Hz H. rewrite in_range_of by done. apply andb_false_iff. rewrite !Z.leb_gt. lia. Qed.

Lemma byteZ_of z : 0 <= z < 256 -> byteZ (byte_of z) = z.
Proof. intros. rewrite byteZ_byte_of. by apply Z.mod_small. Qed.

(** One code point of each width, decoded and validated. *)
Lemma chars_char_bytes c l :
  is_char c = true -> chars (char_bytes c ++ l) = c :: chars l /\ utf8_valid (char_bytes c ++ l) = utf8_valid l.
Proof.
  unfold is_char. rewrite orb_true_iff, !andb_true_iff, !Z.leb_le. intros H. unfold char_bytes.
  destruct (Z.ltb_spec c 128); [|destruct (Z.ltb_spec c 2048); [|destruct (Z.ltb_spec c 65536)]]; cbn [app chars utf8_valid]; unfold is_cont.
  - rewrite in_range_true, byteZ_of by lia. done.
  - assert (exists q r, c / 64 = q /\ c mod 64 = r /\ c = 64 * q + r /\ 0 <= r < 64) as (q & r & -> & -> & Ec & Hr) by (do 2 eexists; repeat split; lia).
    rewrite (in_range_false 0 127), (in_range_true 194 223), (in_range_true 128 191), !byteZ_of by lia. split; [f_equal; lia|done].
  - assert (exists q r s, c / 4096 = q /\ c / 64 mod 64 = r /\ c mod 64 = s /\ c = 4096 * q + 64 * r + s /\ 0 <= r < 64 /\ 0 <= s < 64)
      as (q & r & s & -> & -> & -> & Ec & Hr & Hs) by (do 3 eexists; repeat split; lia).
    rewrite (in_range_false 0 127), (in_range_false 194 223), (in_range_true 224 239), !byteZ_of by lia.
    rewrite (in_range_true 128 191 (128 + s)) by lia. split; [f_equal; lia|].
    rewrite in_range_true; [done|lia|]. destruct (Z.eqb_spec (224 + q) 224), (Z.eqb_spec (224 + q) 237); lia.
  - assert (exists q r s t, c / 262144 = q /\ c / 4096 mod 64 = r /\ c / 64 mod 64 = s /\ c mod 64 = t
        /\ c = 262144 * q + 4096 * r + 64 * s + t /\ 0 <= r < 64 /\ 0 <= s < 64 /\ 0 <= t < 64)
      as (q & r & s & t & -> & -> & -> & -> & Ec & Hr & Hs & Ht) by (do 4 eexists; repeat split; lia).
    rewrite (in_range_false 0 127), (in_range_false 194 223), (in_range_false 224 239), (in_range_true 240 244), !byteZ_of by lia.
    rewrite (in_range_true 128 191 (128 + s)), (in_range_true 128 191 (128 + t)) by lia. split; [f_equal; lia|].
    rewrite in_range_true; [done|lia|]. destruct (Z.eqb_spec (240 + q) 240), (Z.eqb_spec (240 + q) 244); lia.
Qed.

Lemma chars_from_chars cs : Forall (fun c => is_char c = true) cs -> chars (from_chars cs) = cs /\ utf8_valid (from_chars cs) = true.
Proof.
  induction 1 as [|c cs Hc _ [IH1 IH2]]; [done|]. cbn [from_chars flat_map]. fold (from_chars cs).
  destruct (chars_char_bytes c (from_chars cs) Hc) as [-> ->]. by rewrite IH1, IH2.
Qed.

(** One code point of a valid string, taken off and encoded again. *)
Lemma utf8_uncons l :
  utf8_valid l = true -> l = [] \/ exists c l', is_char c = true /\ l = char_bytes c ++ l' /\ utf8_valid l' = true.
Proof.
  destruct l as [|b0 l1]; [by left|]. cbn [utf8_valid]. intros H. right.
  destruct (in_range 0 127 b0) eqn:E1.
  { apply in_range_spec in E1. exists (byteZ b0), l1. unfold char_bytes, is_char. rewrite (proj2 (Z.ltb_lt _ _)) by lia.
    split; [|split; [|done]]; [|by rewrite byte_of_byteZ]. apply orb_true_iff. left. apply andb_true_iff. rewrite !Z.leb_le. lia. }
  destruct (in_range 194 223 b0) eqn:E2.
  { destruct l1 as [|b1 l2]; [done|]. apply andb_true_iff in H as [H1 H]. apply in_range_spec in E2, H1.
    exists ((byteZ b0 - 192) * 64 + (byteZ b1 - 128)), l2. unfold char_bytes, is_char.
    rewrite (proj2 (Z.ltb_ge _ _)), (proj2 (Z.ltb_lt _ _)) by lia. split; [|split; [|done]].
    - apply orb_true_iff. left. apply andb_true_iff. rewrite !Z.leb_le. lia.
    - cbn [app]. f_equal; [|f_equal]; symmetry; apply byte_of_eq; lia. }
  destruct (in_range 224 239 b0) eqn:E3.
  { destruct l1 as [|b1 [|b2 l3]]; [done..|]. apply andb_true_iff in H as [[H1 H2]%andb_true_iff H]. apply in_range_spec in E3, H1, H2.
    assert (Hr : 128 <= byteZ b1 <= 191 /\ (byteZ b0 = 224 -> 160 <= byteZ b1) /\ (byteZ b0 = 237 -> byteZ b1 <= 159)).
    { destruct (Z.eqb_spec (byteZ b0) 224), (Z.eqb_spec (byteZ b0) 237); lia. }
    exists ((byteZ b0 - 224) * 4096 + (byteZ b1 - 128) * 64 + (byteZ b2 - 128)), l3. unfold char_bytes, is_char.
    rewrite (proj2 (Z.ltb_ge _ _)), (proj2 (Z.ltb_ge _ _)), (proj2 (Z.ltb_lt _ _)) by lia. split; [|split; [|done]].
    - apply orb_true_iff. rewrite !andb_true_iff, !Z.leb_le. lia.
    - cbn [app]. f_equal; [|f_equal; [|f_equal]]; symmetry; apply byte_of_eq; lia. }
  destruct (in_range 240 244 b0) eqn:E4; [|done].
  destruct l1 as [|b1 [|b2 [|b3 l4]]]; [done..|]. apply andb_true_iff in H as [[[H1 H2]%andb_true_iff H3]%andb_true_iff H].
  apply in_range_spec in E4, H1, H2, H3.
  assert (Hr : 128 <= byteZ b1 <= 191 /\ (byteZ b0 = 240 -> 144 <= byteZ b1) /\ (byteZ b0 = 244 -> byteZ b1 <= 143)).
  { destruct (Z.eqb_spec (byteZ b0) 240), (Z.eqb_spec (byteZ b0) 244); lia. }
  exists ((byteZ b0 - 240) * 262144 + (byteZ b1 - 128) * 4096 + (byteZ b2 - 128) * 64 + (byteZ b3 - 128)), l4. unfold char_bytes, is_char.
  rewrite (proj2 (Z.ltb_ge _ _)), (proj2 (Z.ltb_ge _ _)), (proj2 (Z.ltb_ge _ _)) by lia. split; [|split; [|done]].
  - apply orb_true_iff. rewrite !andb_true_iff, !Z.leb_le. lia.
  - cbn [app]. f_equal; [|f_equal; [|f_equal; [|f_equal]]]; symmetry; apply byte_of_eq; lia.
Qed.

Lemma length_char_bytes c : (0 < length (char_bytes c))%nat.
Proof. unfold char_bytes. repeat case_match; cbn; lia. Qed.

(** A string is the encoding of its [chars]. *)
Lemma from_chars_chars l : utf8_valid l = true -> from_chars (chars l) = l /\ Forall (fun c => is_char c = true) (chars l).
Proof.
  remember (length l) as n eqn:Hn. revert l Hn. induction (lt_wf n) as [n _ IH]. intros l -> H.
  destruct (utf8_uncons l H) as [->|(c & l' & Hc & -> & Hv)]; [split; [done|constructor]|].
  destruct (chars_char_bytes c l' Hc) as [-> _].
  destruct (IH (length l')) with (l := l') as [E F]; [rewrite length_app; pose proof (length_char_bytes c); lia|done|done|].
  split; [cbn [from_chars flat_map]; f_equal; exact E|by constructor].
Qed.

Lemma utf8_valid_app l1 l2 : utf8_valid l1 = true -> utf8_valid l2 = true -> utf8_valid (l1 ++ l2) = true.
Proof.
  intros H1 H2. destruct (from_chars_chars l1 H1) as [E1 F1], (from_chars_chars l2 H2) as [E2 F2].
  rewrite <- E1, <- E2. unfold from_chars. rewrite <- flat_map_app. apply chars_from_chars. by apply Forall_app.
Qed.
