(* ===== verification/TextPage.v ===== *)
(** * Text pages

    page/text.rs: a [TEXT] value as a chain of pages, written back to front so
    that each page links to the one after it, and read by following the links.
    A Rust [str] is its bytes, with [utf8_valid] as the type's invariant. *)

From Stdlib Require Import Strings.Byte ZArith Lia.
From stdpp Require Import prelude list gmap strings.
From S2P Require Import Prelude Utf8 Codec Journal Page TuplePage BlockStore BlockJournal Policies PageCache PageCacheOk Heap.
Local Open Scope Z_scope.

(** ** The page *)

Definition TEXT_FORMAT_VERSION : Z := 1.
Definition OFF_NEXT : nat := 21.
Definition OFF_TOTAL : nat := 29.
Definition OFF_SEG_LEN : nat := 37.
Definition CONTENT_OFFSET : nat := 39.
Definition CONTENT_CAPACITY : nat := PAGE_SIZE - CONTENT_OFFSET.

Definition write_segment (next total : Z) (content buf : list byte) : res Error (list byte) :=
  buf ← header_write (PageHeader_new TEXT_PAGE TEXT_FORMAT_VERSION) buf;
  buf ← buf_put_u64 buf OFF_NEXT next;
  buf ← buf_put_u64 buf OFF_TOTAL total;
  buf ← buf_put_u16 buf OFF_SEG_LEN (wrap16 (Z.of_nat (length content)));
  buf_put CONTENT_OFFSET content buf.

(** What the read loop takes from one page: the link and the content. *)
Definition read_segment (buf : list byte) : res Error (Z * list byte) :=
  _ ← expect_type TEXT_PAGE buf;
  next ← buf_get_u64 buf OFF_NEXT;
  seg_len ← buf_get_u16 buf OFF_SEG_LEN;
  content ← buf_get CONTENT_OFFSET (Z.to_nat seg_len) buf;
  Ok (next, content).

(** [bytes.chunks(n)]; [fuel] bounds the chunks. *)
Fixpoint chunks_of (fuel n : nat) (l : list byte) : list (list byte) :=
  match fuel, l with
  | S fuel', _ :: _ => take n l :: chunks_of fuel' n (drop n l)
  | _, _ => []
  end.

Definition text_chunks (s : list byte) : list (list byte) :=
  match s with [] => [[]] | _ => chunks_of (length s) CONTENT_CAPACITY s end.

Section text.
Context {V P : Type} {CRC : Crc32} {CRCc : Crc32c}.
Context `{!BlockStore V} `{!EvictionPolicy P nat}.
Abbreviation Inner := (Inner V P).

Definition segment_body (next total : Z) (content : list byte) : SR (list byte) Error unit := fun b =>
  match write_segment next total content b with
  | Ok b' => (b', Ok tt)
  | Err e => (b, Err e)
  | Panic => (b, Panic)
  end.

(** The loop over the chunks, last one first. *)
Fixpoint write_chain (env : nat -> io_env) (total : Z) (l : list (nat * list byte)) (next head : Z) : SR Inner Error Z :=
  match l with
  | [] => mret head
  | (i, chunk) :: l' =>
      p ← (p ← cache_allocate env;
           s ← edit p.2 (segment_body next (if (i =? 0)%nat then total else 0) chunk);
           mret (p.1, s));
      write_chain env total l' p.1 p.1
  end.

Definition write_text (env : nat -> io_env) (s : list byte) : SR Inner Error Z :=
  write_chain env (Z.of_nat (length s)) (reverse (imap pair (text_chunks s))) 0 0.

(** One turn of the read loop: the page is dropped on every path. *)
Definition read_page (env : nat -> io_env) (id : Z) : SR Inner Error (Z * list byte) :=
  page ← cache_read env id;
  b ← rp_bytes page;
  _ ← rp_drop page;
  sr_lift (read_segment b).

(** [None]: out of fuel. *)
Fixpoint read_chain (env : nat -> io_env) (fuel : nat) (cur : Z) (out : list byte) : SR Inner Error (option (list byte)) :=
  match fuel with
  | O => mret None
  | S fuel' =>
      seg ← read_page env cur;
      let out := out ++ seg.2 in
      if seg.1 =? 0 then mret (Some out) else read_chain env fuel' seg.1 out
  end.

Definition read_text (env : nat -> io_env) (fuel : nat) (head : Z) : SR Inner Error (option (list byte)) :=
  o ← read_chain env fuel head [];
  match o with
  | Some out => if utf8_valid out then mret (Some out) else sr_lift (Err EUtf8)
  | None => mret None
  end.
End text.

(** ** Segments and chunks *)

Record seg_rep (p : list byte) (next : Z) (content : list byte) : Prop := {
  sg_length : length p = BLOCK_SIZE;
  sg_type : expect_type TEXT_PAGE p = Ok tt;
  sg_fits : (length content <= CONTENT_CAPACITY)%nat;
  sg_next : be_value (slice OFF_NEXT 8 p) = next;
  sg_len : be_value (slice OFF_SEG_LEN 2 p) = Z.of_nat (length content);
  sg_content : slice CONTENT_OFFSET (length content) p = content }.

Ltac tlia := unfold CONTENT_CAPACITY, OFF_NEXT, OFF_TOTAL, OFF_SEG_LEN, CONTENT_OFFSET in *; plia.

Lemma seg_rep_eqv p q next content : seg_rep p next content -> p ≈p q -> seg_rep q next content.
Proof.
  intros [Hl Ht Hf Hn Hs Hc] E. pose proof E as (El & Et & Ed).
  assert (Hsl : forall off n, (21 <= off)%nat -> slice off n q = slice off n p).
  { intros off n Ho. symmetry. apply (slice_drop_eq off n p q 21); [exact Ed|done]. }
  split; rewrite ?Hsl by tlia; try done.
  - by rewrite <- El.
  - unfold expect_type in *. by rewrite <- (header_parse_proper p q E).
Qed.

Lemma read_segment_rep p next content : seg_rep p next content -> read_segment p = Ok (next, content).
Proof.
  intros [Hl Ht Hf Hn Hs Hc]. unfold read_segment. rewrite Ht, bind_Ok.
  rewrite buf_get_u64_ok, bind_Ok by tlia. rewrite buf_get_u16_ok, bind_Ok by tlia.
  rewrite Hs, Nat2Z.id, buf_get_ok, bind_Ok by tlia. by rewrite Hn, Hc.
Qed.

Lemma write_segment_rep next total content buf :
  length buf = BLOCK_SIZE -> (length content <= CONTENT_CAPACITY)%nat -> is_u64 next -> is_u64 total ->
  exists buf', write_segment next total content buf = Ok buf' /\ seg_rep buf' next content.
Proof.
  intros Hl Hc Hn Ht. unfold write_segment.
  destruct (header_write_parse (PageHeader_new TEXT_PAGE TEXT_FORMAT_VERSION) buf) as (b0 & -> & Hp & Hl0 & _);
    [done | plia |]. rewrite bind_Ok. unfold buf_put_u64, buf_put_u16.
  destruct (buf_put_wrote (E := Error) OFF_NEXT (be_bytes 8 next) b0) as (b1 & -> & W1); [rewrite length_be_bytes; tlia|].
  pose proof (w_len _ _ _ _ W1). rewrite bind_Ok.
  destruct (buf_put_wrote (E := Error) OFF_TOTAL (be_bytes 8 total) b1) as (b2 & -> & W2); [rewrite length_be_bytes; tlia|].
  pose proof (w_len _ _ _ _ W2). rewrite bind_Ok.
  destruct (buf_put_wrote (E := Error) OFF_SEG_LEN (be_bytes 2 (wrap16 (Z.of_nat (length content)))) b2) as (b3 & -> & W3); [rewrite length_be_bytes; tlia|].
  pose proof (w_len _ _ _ _ W3). rewrite bind_Ok.
  destruct (buf_put_wrote (E := Error) CONTENT_OFFSET content b3) as (b4 & -> & W4); [tlia|].
  pose proof (w_len _ _ _ _ W4). eexists. split; [done|].
  assert (Hin : forall off n, (off + n <= CONTENT_OFFSET)%nat -> slice off n b4 = slice off n b3).
  { intros off n Ho. apply (w_ne _ _ _ _ W4). by left. }
  split.
  - lia.
  - unfold expect_type. rewrite (header_parse_slice b4 b0), Hp; [done | lia |].
    rewrite Hin by tlia. rewrite (w_ne _ _ _ _ W3), (w_ne _ _ _ _ W2), (w_ne _ _ _ _ W1) by tlia. done.
  - done.
  - rewrite Hin by tlia. rewrite (w_ne _ _ _ _ W3), (w_ne _ _ _ _ W2) by tlia.
    pose proof (w_eq _ _ _ _ W1) as E. rewrite length_be_bytes in E. rewrite E. by apply be_u64.
  - rewrite Hin by tlia. pose proof (w_eq _ _ _ _ W3) as E. rewrite length_be_bytes in E. rewrite E.
    unfold wrap16. rewrite Z.mod_small by tlia. apply be_u16. tlia.
  - apply (w_eq _ _ _ _ W4).
Qed.

Lemma chunks_of_spec fuel n l :
  (0 < n)%nat -> (length l <= fuel)%nat ->
  concat (chunks_of fuel n l) = l /\ Forall (fun c => (length c <= n)%nat) (chunks_of fuel n l)
  /\ (length (chunks_of fuel n l) <= length l)%nat /\ (l <> [] -> chunks_of fuel n l <> []).
Proof.
  intros Hn. revert l. induction fuel as [|fuel IH]; intros [|x l] Hl; cbn [chunks_of concat length] in *; try done; try lia.
  destruct (IH (drop n (x :: l))) as (H1 & H2 & H3 & _); [rewrite length_drop; cbn [length]; lia|].
  rewrite H1, take_drop. split; [done|]. split; [constructor; [rewrite length_take; lia|done]|].
  rewrite length_drop in H3. cbn [length] in H3. split; [lia|done].
Qed.

Lemma text_chunks_spec s :
  concat (text_chunks s) = s /\ Forall (fun c => (length c <= CONTENT_CAPACITY)%nat) (text_chunks s)
  /\ text_chunks s <> [] /\ (length (text_chunks s) <= S (length s))%nat.
Proof.
  unfold text_chunks. destruct s as [|x s].
  - split; [done|]. split; [|split; [done|cbn; lia]]. apply Forall_singleton. cbn. lia.
  - destruct (chunks_of_spec (length (x :: s)) CONTENT_CAPACITY (x :: s)) as (H1 & H2 & H3 & H4); [tlia|lia|].
    split; [done|]. split; [done|]. split; [by apply H4|]. lia.
Qed.

(** ** Chains *)

(** The pages of [m] hold [s] as a chain of [n] pages from [id]. *)
Inductive text_chain (m : gmap Z Block) : Z -> list byte -> nat -> Prop :=
| chain_last id p content : m !! id = Some p -> seg_rep p 0 content -> text_chain m id content 1
| chain_link id p next content s n :
    m !! id = Some p -> seg_rep p next content -> next <> 0 -> text_chain m next s n ->
    text_chain m id (content ++ s) (S n).

Lemma text_chain_weaken m m' id s n : m ⊆ m' -> text_chain m id s n -> text_chain m' id s n.
Proof.
  intros Hm. induction 1; [eapply chain_last|eapply chain_link]; eauto; by eapply lookup_weaken.
Qed.

(** What is already written when a page is linked in front of it. *)
Definition linked (m : gmap Z Block) (next : Z) (s : list byte) (n : nat) : Prop :=
  (next = 0 /\ s = [] /\ n = 0%nat) \/ (next <> 0 /\ text_chain m next s n).

Lemma linked_cons m next s n id p content :
  linked m next s n -> m !! id = None -> id <> 0 -> seg_rep p next content ->
  text_chain (<[id := p]> m) id (content ++ s) (S n).
Proof.
  intros H Hid Hpos Hp. assert (Hl : <[id := p]> m !! id = Some p) by apply lookup_insert_eq.
  destruct H as [(-> & -> & ->)|[Hn Hc]].
  - rewrite app_nil_r. by eapply chain_last.
  - eapply chain_link; [done..|]. eapply text_chain_weaken; [|done]. by apply insert_subseteq.
Qed.

Section round_trip.
Context {V P : Type} {CRC : Crc32} {CRCok : Crc32Ok} {CRCc : Crc32c} {CRCcok : Crc32cOk}.
Context {BS : BlockStore V} {BSok : BlockStoreOk V} {EP : EvictionPolicy P nat} {EPok : EvictionPolicyOk P nat}.
Abbreviation Inner := (Inner V P).
Context (env : nat -> io_env) (Henv : forall n, env n = io_fine).

(** A cache no handle holds a page of. *)
Definition ready (c : Inner) : Prop := at_rest c /\ (0 < length (frames c))%nat.

Lemma ready_pins (c c' : Inner) : ready c -> pins c' = pins c -> ready c'.
Proof.
  intros [Hr Hn] Hp. split; [unfold at_rest; by rewrite Hp|].
  rewrite (pins_frames c c' (fun p => p) 0) by (by rewrite list_alter_id). done.
Qed.

Lemma page_pos (c : Inner) m id p : cache_run env c m -> m !! id = Some p -> 1 <= id.
Proof using Henv CRCcok CRCok BSok EPok.
  intros R Hp. destruct (run_inv env c m Henv R) as [I H]. destruct (H id p Hp) as [Hu _].
  apply (bs_used_pos (block c)); [apply I|done].
Qed.

(** What writing a list of chunks comes back with. *)
Lemma write_chain_spec total l : forall next head s n (c : Inner) m,
  cache_run env c m -> ready c -> Forall (fun x => (length x.2 <= CONTENT_CAPACITY)%nat) l -> is_u64 total -> is_u64 next ->
  linked m next s n -> head = next ->
  exists c' r, write_chain env total l next head c = (c', r) /\
  match r with
  | Ok head' => exists m', m ⊆ m' /\ cache_run env c' m' /\ ready c'
      /\ linked m' head' (concat (reverse l.*2) ++ s) (length l + n)
  | Err e => store_failure (V := V) e /\ exists m', m ⊆ m' /\ cache_run env c' m' /\ ready c'
  | Panic => store_panic (V := V)
  end.
Proof using Henv CRCcok CRCok BSok EPok.
  induction l as [|[i chunk] l IH]; intros next head s n c m R Hr Hl Ht Hn Hlk Hh; cbn [write_chain].
  - exists c, (Ok head). split; [done|]. exists m. subst head. by cbn.
  - apply Forall_cons in Hl as [Hc Hl]. cbn in Hc. set (tot := if (i =? 0)%nat then total else 0).
    destruct (write_segment_rep next tot chunk zeroed length_zeroed Hc Hn) as (b' & Eb & Hb).
    { unfold tot. destruct (i =? 0)%nat; [done|ulia]. }
    assert (Ebody : segment_body next tot chunk zeroed = (b', Ok tt)) by (unfold segment_body; by rewrite Eb). clear Eb.
    destruct (new_page_run env Henv (segment_body next tot chunk) c m R) as (c1 & r1 & E1 & Hr1).
    { rewrite Ebody. apply (sg_length _ _ _ Hb). }
    rewrite Ebody in Hr1. clear Ebody. cbn [fst snd map_ok] in Hr1. destruct (run_inv env c m Henv R) as [I _].
    destruct r1 as [[id u]|e|].
    + destruct Hr1 as (_ & Hp & [(e & ? & _)|(id' & _ & Hid & Hu & [= <- _] & R1)]); [done|].
      rewrite (sr_bind_ok _ _ _ _ _ E1). cbn [fst].
      assert (Hpos : 1 <= id) by (eapply (page_pos c1); [exact R1|apply lookup_insert_eq]).
      assert (Hr1 : ready c1) by (apply (ready_pins c); [done|]; apply Hp, at_rest_no_writer, Hr).
      destruct (IH id id (chunk ++ s) (S n) c1 _ R1 Hr1 Hl Ht Hu) as (c2 & r2 & E2 & Hr2); [|done|].
      { right. split; [lia|]. eapply linked_cons; [exact Hlk|exact Hid|lia|exact Hb]. }
      assert (Hsub : m ⊆ <[id := b']> m) by (by apply insert_subseteq).
      exists c2, r2. split; [exact E2|]. destruct r2 as [head'|e|]; [| |exact Hr2].
      * destruct Hr2 as (m' & Hm & R2 & Hr2 & Hlk'). exists m'. split; [by etrans|]. split; [done|]. split; [done|].
        cbn [fmap list_fmap length snd]. rewrite reverse_cons, concat_app. cbn [concat]. rewrite app_nil_r, <- app_assoc.
        by rewrite Nat.add_succ_r in Hlk'.
      * destruct Hr2 as (He & m' & Hm & R2 & Hr2). split; [done|]. exists m'. split; [by etrans|]. done.
    + destruct Hr1 as (_ & Hp & [(e' & [= <-] & R1 & He)|(id' & _ & _ & _ & ? & _)]); [|done].
      exists c1, (Err e). rewrite (sr_bind_err _ _ _ _ _ E1). split; [done|]. split.
      * destruct He as [[v Hv]|[_ Ha]]; [exists (block c), v; split; [apply I|done]|].
        exfalso. by apply (not_at_rest c); [apply Hr|..|apply Hr].
      * exists m. split; [done|]. split; [done|]. apply (ready_pins c); [done|]. apply Hp, at_rest_no_writer, Hr.
    + exists c1, Panic. split; [unfold mbind at 1, sr_bind at 1; by rewrite E1|].
      destruct Hr1 as [[v Hv]|?]; [exists (block c), v; split; [apply I|done]|done].
Qed.

(** One page read and dropped again. *)
Lemma read_page_spec (c : Inner) m id p next content :
  cache_run env c m -> ready c -> m !! id = Some p -> seg_rep p next content ->
  exists c', read_page env id c = (c', Ok (next, content)) /\ cache_run env c' m /\ ready c'.
Proof using Henv CRCcok CRCok BSok EPok.
  intros R Hr Hp Hs. destruct (run_inv env c m Henv R) as [I H]. destruct (H id p Hp) as [Hu Hv].
  destruct (acquire_read_spec env Henv c I id Hu) as (c1 & r1 & E1 & I1 & _ & Hr1); [inversion Hv; eauto|].
  assert (R1 : cache_run env c1 m) by (eapply (run_read env c m id); eauto).
  destruct r1 as [f|e|]; [| |done].
  - destruct Hr1 as (P1 & fr & Ef & Hpg & Hbuf).
    assert (Hs' : seg_rep (fr_buf fr) next content).
    { apply (seg_rep_eqv p); [done|]. rewrite Hv in Hbuf. by inversion Hbuf. }
    assert (Hrd : pins c1 !! f = Some (1, false)).
    { pose proof (pins_lookup _ _ _ Ef) as Hf. rewrite P1, list_lookup_alter_eq in *. destruct Hr as [Hr _].
      unfold at_rest in Hr. rewrite Forall_lookup in Hr. destruct (pins c !! f) as [x|] eqn:Ex; [|done]. by rewrite (Hr _ _ Ex). }
    assert (Hread : fr_readers fr = 1).
    { rewrite (pins_lookup _ _ _ Ef) in Hrd. unfold frame_pin in Hrd. congruence. }
    destruct (release_read_spec f fr id c1 I1 Ef Hpg ltac:(lia)) as (c2 & E2 & I2 & B2 & P2 & V2).
    exists c2. split; [|split].
    + unfold read_page, cache_read, rp_bytes, rp_drop. rewrite (sr_bind_ok _ _ _ c1 (MkReadPage f id)) by (by rewrite (sr_bind_ok _ _ _ _ _ E1)).
      erewrite sr_bind_ok; [|erewrite sr_bind_ok; [done|]; unfold frame_at; cbn [rp_frame]; by rewrite Ef].
      cbn [rp_frame]. rewrite (sr_bind_ok _ _ _ _ _ E2). unfold sr_lift. by rewrite (read_segment_rep _ _ _ Hs').
    + eapply (run_release_read env c1 m f fr); [done|done|by eexists|lia|done].
    + apply (ready_pins c); [done|]. rewrite P2, P1. apply list_eq. intros j. rewrite !list_lookup_alter.
      case_decide; [subst j|done]. rewrite decide_True by done. destruct (pins c !! f) as [[a w]|]; [|done].
      cbn. unfold unpin_read, pin_read. cbn. apply (f_equal (fun x => Some (x, w))). lia.
  - exfalso. destruct Hr as [Hr Hn]. destruct Hr1 as (_ & [(_ & f & fr & Ef & _ & Hw)|(_ & Ha)]); [|by apply (not_at_rest c)].
    pose proof (at_rest_unpinned _ _ _ Hr Ef) as Hun. unfold unpinned in Hun. by rewrite Hw, andb_false_r in Hun.
Qed.

Lemma read_chain_spec m id s n : text_chain m id s n ->
  forall fuel out (c : Inner), (n <= fuel)%nat -> cache_run env c m -> ready c ->
  exists c', read_chain env fuel id out c = (c', Ok (Some (out ++ s))) /\ cache_run env c' m /\ ready c'.
Proof using Henv CRCcok CRCok BSok EPok.
  induction 1 as [id p content Hp Hs|id p next content s n Hp Hs Hn _ IH]; intros fuel out c Hf R Hr;
    (destruct fuel as [|fuel]; [lia|]); cbn [read_chain].
  - destruct (read_page_spec c m id p 0 content R Hr Hp Hs) as (c1 & E1 & R1 & Hr1). exists c1.
    rewrite (sr_bind_ok _ _ _ _ _ E1). done.
  - destruct (read_page_spec c m id p next content R Hr Hp Hs) as (c1 & E1 & R1 & Hr1).
    destruct (IH fuel (out ++ content) c1 ltac:(lia) R1 Hr1) as (c2 & E2 & R2 & Hr2). exists c2.
    rewrite (sr_bind_ok _ _ _ _ _ E1). cbn [fst snd]. rewrite (proj2 (Z.eqb_neq _ _) Hn), E2, <- app_assoc. done.
Qed.

(** C25: text round-trips.  Writing any valid UTF-8 value, of any length, through
    a cache no handle holds a page of fails only when the store cannot grow; the
    page id it returns then reads back as exactly that value, at once and after
    any later use of the cache that leaves those pages alone.  The read loop
    needs at most one turn per byte, and one. *)
Theorem text_round_trip (c : Inner) m s :
  cache_run env c m -> ready c -> utf8_valid s = true -> is_u64 (Z.of_nat (length s)) ->
  exists c1 r, write_text env s c = (c1, r) /\
  match r with
  | Ok head => exists m1, m ⊆ m1 /\ cache_run env c1 m1 /\ ready c1
      /\ forall c2 m2 fuel, cache_run env c2 m2 -> m1 ⊆ m2 -> ready c2 -> (length s < fuel)%nat ->
           exists c3, read_text env fuel head c2 = (c3, Ok (Some s))
  | Err e => store_failure (V := V) e
  | Panic => store_panic (V := V)
  end.
Proof using Henv CRCcok CRCok BSok EPok.
  intros R Hr Hu Hl. destruct (text_chunks_spec s) as (Hc & Hf & Hne & Hn).
  destruct (write_chain_spec (Z.of_nat (length s)) (reverse (imap pair (text_chunks s))) 0 0 [] 0 c m R Hr)
    as (c1 & r & E & Hr1); [|done|ulia|by left|done|].
  { apply Forall_reverse, Forall_lookup. intros i x. rewrite list_lookup_imap. destruct (text_chunks s !! i) as [ch|] eqn:Ei; [|done].
    intros [= <-]. rewrite Forall_lookup in Hf. by apply (Hf _ _ Ei). }
  exists c1, r. split; [exact E|]. destruct r as [head|e|]; [|apply Hr1|done].
  destruct Hr1 as (m1 & Hm & R1 & Hr1 & Hlk). exists m1. split; [done|]. split; [done|]. split; [done|].
  assert (Hcc : concat (reverse (reverse (imap pair (text_chunks s))).*2) ++ [] = s).
  { rewrite app_nil_r. rewrite <- fmap_reverse, reverse_involutive. rewrite <- Hc at 2. f_equal.
    apply list_eq. intros i. rewrite list_lookup_fmap, list_lookup_imap. by destruct (text_chunks s !! i). }
  rewrite Hcc, length_reverse, length_imap, Nat.add_0_r in Hlk.
  intros c2 m2 fuel R2 Hm2 Hr2 Hfu. destruct Hlk as [(_ & _ & H0)|[_ Hch]].
  { destruct (text_chunks s); [done|discriminate H0]. }
  destruct (read_chain_spec m2 head s _ (text_chain_weaken _ _ _ _ _ Hm2 Hch) fuel [] c2 ltac:(lia) R2 Hr2) as (c3 & E3 & _).
  exists c3. unfold read_text. rewrite (sr_bind_ok _ _ _ _ _ E3). cbn [app]. by rewrite Hu.
Qed.
End round_trip.

(** ** Witness *)

Section witness.
Import Journal.Ieee Castagnoli.
Let fine : nat -> io_env := fun _ => io_fine.

Lemma text_round_trip_witness :
  exists c1 r, write_text fine [xce; xbb] pool1 = (c1, r) /\
  match r with
  | Ok head => exists m1, ∅ ⊆ m1 /\ cache_run fine c1 m1 /\ ready c1
      /\ forall (c2 : Inner MemBlockStore (LruK nat)) m2 fuel, cache_run fine c2 m2 -> m1 ⊆ m2 -> ready c2 -> (2 < fuel)%nat ->
           exists c3, read_text fine fuel head c2 = (c3, Ok (Some [xce; xbb]))
  | Err e => store_failure (V := MemBlockStore) e
  | Panic => store_panic (V := MemBlockStore)
  end.
Proof.
  apply (text_round_trip (V := MemBlockStore) (P := LruK nat) fine ltac:(done) pool1 ∅ [xce; xbb]); [| |reflexivity|cbn; ulia].
  - apply (run_new fine MemBlockStore_new 1 (MkLruK 2 0 ∅) None _ ∅); [apply mem_new_ok | done..].
  - split; [repeat constructor|]. vm_compute. lia.
Defined.
End witness.
