(* ===== verification/Workspace.v ===== *)
(** * Workspaces

    workspace.rs: bounded scratch storage that is appended to and replayed.
    [Workspace] is the source's trait, [WorkspaceOk] its contract: a replay
    yields the acknowledged tuples in order, and [used] never passes
    [capacity].  [MemoryWorkspace] keeps slabs of a private memory pool,
    [FileWorkspace] a heap over a scratch file without a journal. *)

From Stdlib Require Import Strings.Byte ZArith Lia.
From stdpp Require Import prelude list gmap strings.
From S2P Require Import Prelude Codec Journal MemoryPool Page TuplePage BlockStore BlockJournal Policies PageCache PageCacheOk Heap.
Local Open Scope Z_scope.

Record WorkspaceLoc : Type := MkWsLoc { wl_page : Z; wl_slot : Z }.

Class Workspace (W : Type) : Type := {
  ws_append : list byte -> SR W Error WorkspaceLoc;
  ws_capacity : W -> Z;
  ws_used : W -> Z;
  ws_tuples : SR W Error (list (list byte)) }.

Definition ws_remaining {W} `{!Workspace W} (w : W) : Z := Z.max 0 (ws_capacity w - ws_used w).

(** [ws_holds w ts]: [ts] are the acknowledged tuples, in order. *)
Class WorkspaceOk (W : Type) `{!Workspace W} : Type := {
  ws_holds : W -> list (list byte) -> Prop;
  ws_refusal : W -> list byte -> Error -> Prop;
  ws_panics : Prop;
  ws_append_ok w ts t : ws_holds w ts ->
    exists w' r, ws_append t w = (w', r) /\
      match r with
      | Ok _ => ws_holds w' (ts ++ [t])
      | Err e => ws_holds w' ts /\ ws_refusal w t e
      | Panic => ws_panics
      end;
  ws_tuples_ok w ts : ws_holds w ts -> exists w', ws_tuples w = (w', Ok ts) /\ ws_holds w' ts;
  ws_bounded w ts : ws_holds w ts -> ws_used w <= ws_capacity w }.

(** Appending a list of tuples, keeping the acknowledged ones; [None]: a panic. *)
Fixpoint ws_appends {W} `{!Workspace W} (l : list (list byte)) (w : W) (acked : list (list byte)) : option (W * list (list byte)) :=
  match l with
  | [] => Some (w, acked)
  | t :: l' =>
      match ws_append t w with
      | (w', Ok _) => ws_appends l' w' (acked ++ [t])
      | (w', Err _) => ws_appends l' w' acked
      | (_, Panic) => None
      end
  end.

Lemma ws_appends_holds {W} `{!Workspace W, !WorkspaceOk W} l : forall w acked w' acked',
  ws_holds w acked -> ws_appends l w acked = Some (w', acked') -> ws_holds w' acked'.
Proof.
  induction l as [|t l IH]; intros w acked w' acked' H; cbn [ws_appends]; [by intros [= <- <-]|].
  destruct (ws_append_ok w acked t H) as (w1 & r & -> & Hr). destruct r as [x|e|]; [|destruct Hr as [Hr _]|done]; by apply IH.
Qed.

(** The contract as a client sees it, after any run of appends. *)
Definition replays {W} `{!Workspace W, !WorkspaceOk W} (w0 : W) : Prop :=
  forall l w acked, ws_appends l w0 [] = Some (w, acked) ->
    (ws_tuples w).2 = Ok acked /\ ws_used w <= ws_capacity w
    /\ forall t, exists w' r, ws_append t w = (w', r) /\
         match r with
         | Ok _ => (ws_tuples w').2 = Ok (acked ++ [t])
         | Err e => (ws_tuples w').2 = Ok acked /\ ws_refusal w t e
         | Panic => ws_panics
         end.

Lemma holds_replays {W} `{!Workspace W, !WorkspaceOk W} (w0 : W) : ws_holds w0 [] -> replays w0.
Proof.
  intros H0 l w acked E. pose proof (ws_appends_holds l w0 [] w acked H0 E) as H.
  assert (Ht : forall (w : W) ts, ws_holds w ts -> (ws_tuples w).2 = Ok ts).
  { intros w1 ts H1. by destruct (ws_tuples_ok w1 ts H1) as (w2 & -> & _). }
  split; [by apply Ht|]. split; [by eapply ws_bounded|]. intros t.
  destruct (ws_append_ok w acked t H) as (w' & r & E' & Hr). exists w', r. split; [done|].
  destruct r as [x|e|]; [by apply Ht| |done]. destruct Hr as [Hr He]. split; [by apply Ht|done].
Qed.

(** ** In memory *)

Record MemoryWorkspace : Type := MkMW { mw_pool : PoolInner; mw_blocks : list Slab }.

Definition MemoryWorkspace_new (capacity : Z) : res Error MemoryWorkspace :=
  if 0 <? capacity then Ok (MkMW (pool_new capacity) []) else Panic.

(** A fresh slab; the slab of a refused tuple goes back to the pool. *)
Definition mw_append_new (tuple : list byte) : SR MemoryWorkspace Error WorkspaceLoc := fun w =>
  match pool_allocate (Z.of_nat PAGE_SIZE) (mw_pool w) with
  | (p, Err e) => (MkMW p (mw_blocks w), Err (EWorkspaceFull (requested e) (oom_in_use e) (oom_cap e)))
  | (p, Panic) => (MkMW p (mw_blocks w), Panic)
  | (p, Ok slab) =>
      match init_and_insert tuple (slab_bytes slab) with
      | (b, Ok slot) => (MkMW p (mw_blocks w ++ [MkSlab b]), Ok (MkWsLoc (Z.of_nat (length (mw_blocks w))) slot))
      | (b, Err e) => (MkMW (slab_drop (MkSlab b) p) (mw_blocks w), Err e)
      | (b, Panic) => (MkMW (slab_drop (MkSlab b) p) (mw_blocks w), Panic)
      end
  end.

Definition mw_append (tuple : list byte) : SR MemoryWorkspace Error WorkspaceLoc := fun w =>
  match last (mw_blocks w) with
  | Some slab =>
      let i := pred (length (mw_blocks w)) in
      let '(b, r) := on_tuple_page (fun b => tp_insert b tuple) (slab_bytes slab) in
      let w1 := MkMW (mw_pool w) (<[i := MkSlab b]> (mw_blocks w)) in
      match r with
      | Ok (Some slot) => (w1, Ok (MkWsLoc (Z.of_nat i) slot))
      | Ok None => mw_append_new tuple w1
      | Err e => (w1, Err e)
      | Panic => (w1, Panic)
      end
  | None => mw_append_new tuple w
  end.

(** The tuples of one block; a slab that is not a tuple page is skipped. *)
Definition mem_block_tuples (s : Slab) : res Error (list (list byte)) :=
  match tp_open (slab_bytes s) with
  | Ok _ => l ← tp_iter (slab_bytes s); Ok l.*2
  | Err _ => Ok []
  | Panic => Panic
  end.

Definition mw_tuples (w : MemoryWorkspace) : res Error (list (list byte)) :=
  l ← collect_res (map mem_block_tuples (mw_blocks w)); Ok (concat l).

#[global] Instance MemoryWorkspace_ws : Workspace MemoryWorkspace := {|
  ws_append := mw_append;
  ws_capacity w := pool_cap (mw_pool w);
  ws_used w := pool_in_use (mw_pool w);
  ws_tuples w := (w, mw_tuples w) |}.

(** ** In a scratch file *)

Section file.
Context {CRC : Crc32} {CRCc : Crc32c}.
Abbreviation Heap := (Heap DiskBlockStore (LruK nat)).

Record FileWorkspace : Type := MkFW {
  fw_heap : Heap; fw_pages : list Z; fw_max_pages : Z; fw_disk_budget : Z; fw_memory_budget : Z }.

(** There is no journal, so no journal write can fail. *)
Abbreviation scratch := (fun _ : nat => io_fine).

Definition FileWorkspace_new (limit memory_budget disk_budget : Z) : res Error FileWorkspace :=
  let frames := Z.to_nat (Z.max (memory_budget / Z.of_nat PAGE_SIZE) 1) in
  let max_pages := disk_budget / Z.of_nat PAGE_SIZE in
  if max_pages <? 1 then Panic
  else
    match disk_open limit [] with
    | (d, Ok _) =>
        c ← PageCache_new d frames;
        Ok (MkFW (Heap_new c) [] max_pages disk_budget (Z.of_nat frames * Z.of_nat PAGE_SIZE))
    | (_, Err e) => Err e
    | (_, Panic) => Panic
    end.

Definition with_heap (h : Heap) (w : FileWorkspace) : FileWorkspace :=
  MkFW h (fw_pages w) (fw_max_pages w) (fw_disk_budget w) (fw_memory_budget w).
Definition on_fw_heap {A} (op : SR Heap Error A) : SR FileWorkspace Error A := fun w =>
  let '(h, r) := op (fw_heap w) in (with_heap h w, r).

Definition fw_used (w : FileWorkspace) : Z := Z.of_nat (length (fw_pages w)) * Z.of_nat PAGE_SIZE.

Definition fw_append (tuple : list byte) : SR FileWorkspace Error WorkspaceLoc :=
  l ← on_fw_heap (heap_insert scratch tuple);
  w ← sr_get;
  _ ← (if bool_decide (last (fw_pages w) = Some (page_id l)) then mret tt
       else if fw_max_pages w <=? Z.of_nat (length (fw_pages w)) then
         sr_lift (Err (EWorkspaceFull (Z.of_nat PAGE_SIZE) (fw_used w) (fw_disk_budget w)))
       else sr_modify (fun w => MkFW (fw_heap w) (fw_pages w ++ [page_id l]) (fw_max_pages w) (fw_disk_budget w) (fw_memory_budget w)));
  mret (MkWsLoc (page_id l) (slot_id l)).

(** Every live tuple of a pinned page, in slot order. *)
Fixpoint read_slots (p : PageTuples) (slots : list Z) : SR Heap Error (list (list byte)) :=
  match slots with
  | [] => mret []
  | s :: slots' =>
      o ← pt_tuple p s;
      l ← read_slots p slots';
      mret (match o with Some b => b :: l | None => l end)
  end.

(** [heap.page(pid).ok()], its tuples copied out, the pin dropped: a page that
    cannot be pinned is skipped. *)
Definition fw_block (id : Z) : SR Heap Error (list (list byte)) := fun h =>
  match heap_page scratch id h with
  | (h1, Ok p) => (slots ← pt_iter p; l ← read_slots p slots; _ ← pt_drop p; mret l) h1
  | (h1, Err _) => (h1, Ok [])
  | (h1, Panic) => (h1, Panic)
  end.

Fixpoint fw_blocks (ids : list Z) : SR Heap Error (list (list byte)) :=
  match ids with
  | [] => mret []
  | id :: ids' => l ← fw_block id; l' ← fw_blocks ids'; mret (l ++ l')
  end.

Definition fw_tuples : SR FileWorkspace Error (list (list byte)) :=
  w ← sr_get; on_fw_heap (fw_blocks (fw_pages w)).

#[global] Instance FileWorkspace_ws : Workspace FileWorkspace := {|
  ws_append := fw_append;
  ws_capacity := fw_disk_budget;
  ws_used := fw_used;
  ws_tuples := fw_tuples |}.

(** [into_tuples]: the owned cursor, with one page's tuples buffered. *)
Record FileWorkspaceTuples : Type := MkFWT { ft_ws : FileWorkspace; ft_next_page : nat; ft_page : list (list byte) }.

Definition into_tuples (w : FileWorkspace) : FileWorkspaceTuples := MkFWT w 0 [].

(** [FileWorkspaceTuples::next]; [fuel] bounds the pages loaded. *)
Fixpoint fwt_next (fuel : nat) (st : FileWorkspaceTuples) : FileWorkspaceTuples * res Error (option (list byte)) :=
  match ft_page st with
  | t :: rest => (MkFWT (ft_ws st) (ft_next_page st) rest, Ok (Some t))
  | [] =>
      match fw_pages (ft_ws st) !! ft_next_page st, fuel with
      | Some id, S fuel' =>
          match on_fw_heap (fw_block id) (ft_ws st) with
          | (w, Ok buf) => fwt_next fuel' (MkFWT w (S (ft_next_page st)) buf)
          | (w, Err e) => (MkFWT w (S (ft_next_page st)) [], Err e)
          | (w, Panic) => (MkFWT w (S (ft_next_page st)) [], Panic)
          end
      | _, _ => (st, Ok None)
      end
  end.
End file.

(** ** Pages full of live tuples *)

Definition all_live (ts : list tuple_slot) : Prop := Forall (fun t => TuplePage.live t = true) ts.
Definition page_payload (ts : list tuple_slot) : list (list byte) := data <$> ts.
Definition payload (tss : list (list tuple_slot)) : list (list byte) := concat (page_payload <$> tss).

Lemma payload_app tss tss' : payload (tss ++ tss') = payload tss ++ payload tss'.
Proof. unfold payload. by rewrite fmap_app, concat_app. Qed.

Lemma payload_single ts : payload [ts] = page_payload ts.
Proof. unfold payload. cbn. apply app_nil_r. Qed.

Lemma spec_get_all_live ts i t : all_live ts -> ts !! i = Some t -> spec_get ts (Z.of_nat i) = Some (data t).
Proof.
  intros H E. unfold spec_get. rewrite Nat2Z.id, E. unfold all_live in H. rewrite Forall_lookup in H. by rewrite (H _ _ E).
Qed.

Lemma spec_iter_live ts : all_live ts -> (spec_iter ts).*2 = page_payload ts.
Proof.
  intros H. unfold spec_iter.
  assert (Hgen : forall k l, (forall i t, l !! i = Some t -> ts !! (k + i)%nat = Some t) ->
            (omap (M := list) (fun s => option_map (pair s) (spec_get ts s)) (seqZ (Z.of_nat k) (Z.of_nat (length l)))).*2 = data <$> l).
  { intros k l. revert k. induction l as [|t l IH]; intros k Hl; [done|]. cbn [length].
    rewrite seqZ_cons by lia. cbn [omap list_omap]. pose proof (Hl 0%nat t eq_refl) as H0. rewrite Nat.add_0_r in H0.
    rewrite (spec_get_all_live ts k t H H0). cbn [option_map fmap list_fmap snd]. f_equal.
    replace (Z.succ (Z.of_nat k)) with (Z.of_nat (S k)) by lia. replace (Z.pred (Z.of_nat (S (length l)))) with (Z.of_nat (length l)) by lia.
    apply IH. intros i t' Hi. rewrite Nat.add_succ_comm. apply Hl. exact Hi. }
  by apply (Hgen 0%nat ts).
Qed.

Lemma all_live_snoc ts t : all_live ts -> all_live (ts ++ [MkSlot true t]).
Proof. intros H. apply Forall_app. split; [done|]. by apply Forall_singleton. Qed.

(** ** The contract, in memory *)

Record mw_holds (w : MemoryWorkspace) (ts : list (list byte)) : Prop := {
  mh_pages : exists tss, Forall2 (fun s slots => tp_rep (slab_bytes s) slots /\ all_live slots) (mw_blocks w) tss /\ ts = payload tss;
  mh_cap : 0 < p_cap (mw_pool w) /\ p_cap (mw_pool w) + 8192 <= u64_max;
  mh_used : p_in_use (mw_pool w) = Z.of_nat (length (mw_blocks w)) * 8192;
  mh_bound : p_in_use (mw_pool w) <= p_cap (mw_pool w) }.

(** Why an append is refused: no room for another page, or a tuple no page holds. *)
Definition mw_refusal (w : MemoryWorkspace) (t : list byte) (e : Error) : Prop :=
  (e = EWorkspaceFull 8192 (ws_used w) (ws_capacity w) /\ ws_remaining w < 8192)
  \/ (e = ETupleTooLarge (Z.of_nat (length t)) max_tuple /\ max_tuple < Z.of_nat (length t)).

Lemma mw_append_new_ok w ts t :
  mw_holds w ts ->
  exists w' r, mw_append_new t w = (w', r) /\
    match r with
    | Ok _ => mw_holds w' (ts ++ [t])
    | Err e => mw_holds w' ts /\ mw_refusal w t e
    | Panic => False
    end.
Proof.
  intros [(tss & Hp & Hts) Hc Hu Hb]. pose proof BLOCK_SIZE_Z as HB. unfold mw_append_new.
  assert (HP : Z.of_nat PAGE_SIZE = 8192) by (unfold PAGE_SIZE; exact HB). rewrite HP.
  rewrite allocate_alone; [|ulia|unfold isize_max; lia|ulia]. rewrite (proj2 (Z.eqb_neq _ _)) by lia. cbn [negb andb].
  destruct (Z.ltb_spec (p_cap (mw_pool w)) (p_in_use (mw_pool w) + 8192)) as [Hfull|Hroom].
  - eexists _, _. split; [reflexivity|]. split; [split; eauto|]. left. cbn [requested oom_in_use oom_cap]. split; [done|].
    unfold ws_remaining. cbn. unfold pool_cap, pool_in_use. lia.
  - cbn [slab_bytes]. assert (Hz : replicate (Z.to_nat 8192) x00 = zeroed) by (unfold zeroed; f_equal; lia). rewrite Hz. clear Hz.
    destruct (init_body t) as (b & Rb & ->). pose proof (rep_length _ _ Rb) as Hlb.
    destruct (Z.leb_spec (Z.of_nat (length t)) max_tuple) as [Hfit|Hbig].
    + eexists _, _. split; [reflexivity|]. split; cbn [mw_blocks mw_pool p_cap p_in_use]; [|done| |done].
      * exists (tss ++ [[MkSlot true t]]). split; [|by rewrite payload_app, payload_single, Hts].
        apply Forall2_app; [done|]. constructor; [|constructor]. split; [exact Rb|by apply Forall_singleton].
      * rewrite length_app. cbn [length]. lia.
    + eexists _, _. split; [reflexivity|]. split; [|by right].
      assert (Hd : slab_drop (MkSlab b) (MkPool (p_cap (mw_pool w)) (p_in_use (mw_pool w) + 8192)) = mw_pool w).
      { unfold slab_drop, fetch_sub, slab_len. cbn [p_in_use p_cap slab_bytes snd]. rewrite Hlb, HB.
        replace (p_in_use (mw_pool w) + 8192 - 8192) with (p_in_use (mw_pool w)) by lia. rewrite wrap64_id by ulia. by destruct (mw_pool w). }
      rewrite Hd. split; cbn [mw_blocks mw_pool]; eauto.
Qed.

Lemma mw_append_ok w ts t :
  mw_holds w ts ->
  exists w' r, mw_append t w = (w', r) /\
    match r with
    | Ok _ => mw_holds w' (ts ++ [t])
    | Err e => mw_holds w' ts /\ mw_refusal w t e
    | Panic => False
    end.
Proof.
  intros H. unfold mw_append. destruct (last (mw_blocks w)) as [slab|] eqn:El; [|by apply mw_append_new_ok].
  destruct H as [(tss & Hp & Hts) Hc Hu Hb]. apply last_Some in El as [bs Eb].
  rewrite Eb in Hp. apply Forall2_app_inv_l in Hp as (tss1 & tss2 & Hp1 & Hp2 & ->).
  inversion Hp2 as [|? slots ? l [Rs Hlive] Hnil]; subst. inversion Hnil; subst.
  destruct (append_body (slab_bytes slab) slots (slab_bytes slab) t Rs ltac:(reflexivity)) as (b & -> & Rb).
  rewrite Eb, length_app. cbn [length]. rewrite Nat.add_1_r. cbn [pred].
  assert (Hins : forall b', <[length bs := MkSlab b']> (bs ++ [slab]) = bs ++ [MkSlab b']).
  { intros b'. rewrite insert_app_r_alt by lia. by rewrite Nat.sub_diag. }
  rewrite Hins. rewrite Eb in Hu.
  assert (Hp' : forall slots', tp_rep b slots' -> all_live slots' ->
            Forall2 (fun s slots => tp_rep (slab_bytes s) slots /\ all_live slots) (bs ++ [MkSlab b]) (tss1 ++ [slots'])).
  { intros slots' R' L'. apply Forall2_app; [done|]. constructor; [done|constructor]. }
  destruct (spec_fits slots t).
  - eexists _, _. split; [reflexivity|]. split; cbn [mw_blocks mw_pool]; [|done|by rewrite !length_app in *|done].
    exists (tss1 ++ [slots ++ [MkSlot true t]]). split; [apply Hp'; [done|by apply all_live_snoc]|].
    rewrite !payload_app, !payload_single. unfold page_payload. rewrite fmap_app, <- app_assoc. done.
  - apply (mw_append_new_ok (MkMW (mw_pool w) (bs ++ [MkSlab b])) (payload (tss1 ++ [slots])) t).
    split; cbn [mw_blocks mw_pool]; [|done|by rewrite !length_app in *|done]. exists (tss1 ++ [slots]). split; [by apply Hp'|done].
Qed.

Lemma mw_tuples_ok w ts : mw_holds w ts -> mw_tuples w = Ok ts.
Proof.
  intros [(tss & Hp & ->) _ _ _]. unfold mw_tuples.
  assert (E : collect_res (map mem_block_tuples (mw_blocks w)) = Ok (page_payload <$> tss)).
  { induction Hp as [|s slots l tss [Rs Hl] _ IH]; [done|].
    assert (Es : mem_block_tuples s = Ok (page_payload slots)).
    { unfold mem_block_tuples. rewrite (rep_type _ _ Rs), (tp_iter_rep _ _ Rs), bind_Ok, spec_iter_live; done. }
    cbn [map collect_res]. rewrite Es. cbn. cbn in IH. by rewrite IH. }
  by rewrite E.
Qed.

#[global] Instance MemoryWorkspace_ok : WorkspaceOk MemoryWorkspace.
Proof.
  refine {| ws_holds := mw_holds; ws_refusal := mw_refusal; ws_panics := False; ws_append_ok := mw_append_ok |}.
  - intros w ts H. exists w. split; [|done]. cbn. by rewrite (mw_tuples_ok w ts).
  - intros w ts H. apply (mh_bound _ _ H).
Defined.

(** ** The contract, in a file *)

Section file_ok.
Context {CRC : Crc32} {CRCok : Crc32Ok} {CRCc : Crc32c} {CRCcok : Crc32cOk}.
Abbreviation Heap := (Heap DiskBlockStore (LruK nat)).
Abbreviation scratch := (fun _ : nat => io_fine).
Abbreviation hinv := (heap_inv (V := DiskBlockStore) (P := LruK nat) scratch).

(** The pages listed hold the acknowledged tuples; the page being filled is the
    last of them, or a stray one once the workspace is full. *)
Record fw_pages_ok (T : gmap Z (list tuple_slot)) (ids : list Z) (tss : list (list tuple_slot)) : Prop := {
  fp_slots : Forall2 (fun id slots => T !! id = Some slots /\ all_live slots) ids tss;
  fp_nodup : NoDup ids }.

Record fw_holds (w : FileWorkspace) (ts : list (list byte)) : Prop := {
  fh_pages : exists T tss, hinv (fw_heap w) T /\ fw_pages_ok T (fw_pages w) tss /\ ts = payload tss;
  fh_rest : at_rest (h_cache (fw_heap w));
  fh_current id : h_current (fw_heap w) = Some id ->
    last (fw_pages w) = Some id \/ ((id ∉ fw_pages w) /\ fw_max_pages w <= Z.of_nat (length (fw_pages w)));
  fh_bound : Z.of_nat (length (fw_pages w)) <= fw_max_pages w;
  fh_budget : fw_max_pages w * 8192 <= fw_disk_budget w }.

Definition fw_refusal (w : FileWorkspace) (t : list byte) (e : Error) : Prop :=
  (e = EWorkspaceFull 8192 (ws_used w) (ws_capacity w) /\ fw_max_pages w <= Z.of_nat (length (fw_pages w)))
  \/ (e = ETupleTooLarge (Z.of_nat (length t)) max_tuple /\ max_tuple < Z.of_nat (length t))
  \/ store_failure (V := DiskBlockStore) e.

Lemma fw_pages_other T ids tss id slots :
  fw_pages_ok T ids tss -> id ∉ ids -> fw_pages_ok (<[id := slots]> T) ids tss.
Proof.
  intros [Hs Hn] Hid. split; [|done]. revert Hid. clear Hn.
  induction Hs as [|i sl ids tss [Hi Hl] _ IH]; [constructor|]. intros [Hne Hid]%not_elem_of_cons.
  constructor; [|by apply IH]. split; [|done]. by rewrite lookup_insert_ne.
Qed.

Lemma fw_pages_weaken T T' ids tss : T ⊆ T' -> fw_pages_ok T ids tss -> fw_pages_ok T' ids tss.
Proof.
  intros Hsub [Hs Hn]. split; [|done]. eapply Forall2_impl; [exact Hs|]. intros i sl [Hi Hl]. split; [|done].
  by eapply lookup_weaken.
Qed.

Lemma fw_pages_known T ids tss id : fw_pages_ok T ids tss -> id ∈ ids -> is_Some (T !! id).
Proof.
  intros [Hs _] (i & Hi)%list_elem_of_lookup_1. destruct (Forall2_lookup_l _ _ _ _ _ Hs Hi) as (sl & _ & Hsl & _). eauto.
Qed.

(** An append to the last page, and to a page that is new to the list. *)
Lemma fw_pages_extend T ids id tss t slots :
  fw_pages_ok T (ids ++ [id]) tss -> T !! id = Some slots ->
  exists tss', fw_pages_ok (<[id := slots ++ [MkSlot true t]]> T) (ids ++ [id]) tss' /\ payload tss' = payload tss ++ [t].
Proof.
  intros [Hs Hn] Hid. apply Forall2_app_inv_l in Hs as (tss1 & tss2 & H1 & H2 & ->).
  inversion H2 as [|? sl ? l [Hsl Hlive] Hnil]; subst. inversion Hnil; subst. rewrite Hid in Hsl. injection Hsl as <-.
  pose proof Hn as (Hn1 & Hdis & _)%NoDup_app.
  exists (tss1 ++ [slots ++ [MkSlot true t]]). split.
  - split; [|done]. apply Forall2_app.
    + apply (fp_slots _ _ _ (fw_pages_other T ids tss1 id _ (Build_fw_pages_ok _ _ _ H1 Hn1) ltac:(intros Hx; apply (Hdis _ Hx); by left))).
    + constructor; [|constructor]. split; [apply lookup_insert_eq|by apply all_live_snoc].
  - rewrite !payload_app, !payload_single. unfold page_payload. rewrite fmap_app, <- app_assoc. done.
Qed.

Lemma fw_pages_push T ids id tss t :
  fw_pages_ok T ids tss -> id ∉ ids ->
  fw_pages_ok (<[id := [MkSlot true t]]> T) (ids ++ [id]) (tss ++ [[MkSlot true t]]) /\ payload (tss ++ [[MkSlot true t]]) = payload tss ++ [t].
Proof.
  intros H Hid. split; [|by rewrite payload_app, payload_single]. split.
  - apply Forall2_app; [apply (fp_slots _ _ _ (fw_pages_other T ids tss id _ H Hid))|].
    constructor; [|constructor]. split; [apply lookup_insert_eq|by apply Forall_singleton].
  - apply NoDup_app. split; [apply H|]. split; [|apply NoDup_singleton]. by intros x Hx ->%list_elem_of_singleton.
Qed.

(** The tail of [append], after the heap has placed the tuple on page [id]. *)
Definition fw_note (l : TupleLoc) (w : FileWorkspace) : FileWorkspace * res Error WorkspaceLoc :=
  if bool_decide (last (fw_pages w) = Some (page_id l)) then (w, Ok (MkWsLoc (page_id l) (slot_id l)))
  else if fw_max_pages w <=? Z.of_nat (length (fw_pages w)) then
    (w, Err (EWorkspaceFull (Z.of_nat PAGE_SIZE) (fw_used w) (fw_disk_budget w)))
  else (MkFW (fw_heap w) (fw_pages w ++ [page_id l]) (fw_max_pages w) (fw_disk_budget w) (fw_memory_budget w),
        Ok (MkWsLoc (page_id l) (slot_id l))).

Lemma fw_append_eq t w h l :
  heap_insert scratch t (fw_heap w) = (h, Ok l) -> fw_append t w = fw_note l (with_heap h w).
Proof.
  intros E. unfold fw_append. erewrite sr_bind_ok; [|unfold on_fw_heap; by rewrite E]. rewrite sr_bind_get. unfold fw_note.
  case_bool_decide; [done|]. by destruct (_ <=? _).
Qed.

Lemma fw_append_ok w ts t :
  fw_holds w ts ->
  exists w' r, fw_append t w = (w', r) /\
    match r with
    | Ok _ => fw_holds w' (ts ++ [t])
    | Err e => fw_holds w' ts /\ fw_refusal w t e
    | Panic => store_panic (V := DiskBlockStore)
    end.
Proof using CRCok CRCcok.
  intros [(T & tss & Inv & Hp & ->) Hrest Hcur Hb Hbud]. assert (HP : Z.of_nat PAGE_SIZE = 8192) by (unfold PAGE_SIZE; apply BLOCK_SIZE_Z).
  destruct (insert_spec (V := DiskBlockStore) (P := LruK nat) scratch ltac:(done) (fw_heap w) T t Inv) as (h & r & E & Hr).
  destruct r as [l|e|].
  - rewrite (fw_append_eq t w h l E). destruct Hr as (_ & _ & Hpins & Hwhere & Hcur' & slots & Hsl & _ & Inv').
    assert (Hrest' : at_rest (h_cache h)) by (unfold at_rest; by rewrite Hpins by (by apply at_rest_no_writer)).
    unfold fw_note. cbn [with_heap fw_pages fw_max_pages fw_disk_budget fw_memory_budget fw_heap]. case_bool_decide as Hlast.
    + eexists _, _. split; [reflexivity|]. apply last_Some in Hlast as [ids Eids]. rewrite Eids in Hp.
      destruct (fw_pages_known _ _ _ (page_id l) Hp) as [sl Hsl']; [apply elem_of_app; right; by left|].
      rewrite Hsl' in Hsl. cbn in Hsl. subst sl. destruct (fw_pages_extend T ids _ tss t slots Hp Hsl') as (tss' & Hp' & Hpay).
      split; cbn [with_heap fw_heap fw_pages fw_max_pages fw_disk_budget]; try done.
      * exists (<[page_id l := slots ++ [MkSlot true t]]> T), tss'. rewrite Eids. split; [done|]. by split.
      * intros id Hid. rewrite Hcur' in Hid. injection Hid as <-. left. rewrite Eids. by rewrite last_snoc.
    + assert (Hnot : page_id l ∉ fw_pages w).
      { destruct Hwhere as [Hc|Hnone].
        - destruct (Hcur _ Hc) as [Hl|[Hl _]]; [by rewrite Hl in Hlast|done].
        - intros Hin. destruct (fw_pages_known _ _ _ _ Hp Hin) as [? ?]. congruence. }
      destruct (Z.leb_spec (fw_max_pages w) (Z.of_nat (length (fw_pages w)))) as [Hfull|Hroom].
      * eexists _, _. split; [reflexivity|]. split; [|left; rewrite HP; by split].
        split; cbn [with_heap fw_heap fw_pages fw_max_pages fw_disk_budget]; try done.
        -- exists (<[page_id l := slots ++ [MkSlot true t]]> T), tss. split; [done|]. split; [by apply fw_pages_other|done].
        -- intros id Hid. rewrite Hcur' in Hid. injection Hid as <-. by right.
      * eexists _, _. split; [reflexivity|]. assert (Hnew : slots = []).
        { destruct Hwhere as [Hc|Hnone]; [|by rewrite Hnone in Hsl].
          destruct (Hcur _ Hc) as [Hl|[_ Hl]]; [by rewrite Hl in Hlast|lia]. }
        subst slots. rewrite Hnew in Inv'. cbn [app] in Inv'. destruct (fw_pages_push T (fw_pages w) (page_id l) tss t Hp Hnot) as [Hp' Hpay].
        split; cbn [fw_heap fw_pages fw_max_pages fw_disk_budget]; try done.
        -- exists (<[page_id l := [MkSlot true t]]> T), (tss ++ [[MkSlot true t]]). split; [done|]. split; [done|by rewrite Hpay].
        -- intros id Hid. rewrite Hcur' in Hid. injection Hid as <-. left. by rewrite last_snoc.
        -- rewrite length_app. cbn [length]. lia.
  - destruct Hr as (Hf & Hpins & Hcur' & T' & Hsub & _ & Inv'). exists (with_heap h w), (Err e). split.
    { unfold fw_append. erewrite sr_bind_err; [done|]. unfold on_fw_heap. by rewrite E. }
    split.
    + split; cbn [with_heap fw_heap fw_pages fw_max_pages fw_disk_budget]; try done.
      * exists T', tss. split; [done|]. split; [by eapply fw_pages_weaken|done].
      * unfold at_rest. by rewrite Hpins by (by apply at_rest_no_writer).
      * intros id Hid. rewrite Hcur' in Hid. by apply Hcur.
    + destruct Hf as [Hf|[Hf|[Hf _]]]; [by right; left|by right; right|by destruct Hf].
  - exists (with_heap h w), Panic. split; [|exact Hr]. unfold fw_append, mbind, sr_bind, on_fw_heap. by rewrite E.
Qed.

(** Replaying one page, every page, and pulling from the cursor. *)
Lemma read_slots_ok h p ts l :
  shows_page (V := DiskBlockStore) (P := LruK nat) h (pt_page p) ts -> Forall (fun s => is_u16 s) l ->
  read_slots p l h = (h, Ok (omap (M := list) (spec_get ts) l)).
Proof.
  intros Hsh Hl. induction Hl as [|s l Hs Hl IH]; [done|]. cbn [read_slots omap list_omap].
  erewrite sr_bind_ok; [|unfold pt_tuple; by apply (live_tuple_shows (V := DiskBlockStore) (P := LruK nat) h (pt_page p) ts s)].
  rewrite (sr_bind_ok _ _ _ _ _ IH). cbn. by destruct (spec_get ts s).
Qed.

Lemma live_payload ts : all_live ts -> omap (M := list) (spec_get ts) (seqZ 0 (Z.of_nat (length ts))) = page_payload ts.
Proof.
  intros H. rewrite <- (spec_iter_live ts H). unfold spec_iter. induction (seqZ 0 (Z.of_nat (length ts))) as [|s l IH]; [done|].
  cbn. destruct (spec_get ts s); cbn; [by f_equal|exact IH].
Qed.

Lemma fw_block_ok (h : Heap) T id slots :
  hinv h T -> at_rest (h_cache h) -> T !! id = Some slots -> all_live slots ->
  exists h', fw_block id h = (h', Ok (page_payload slots)) /\ hinv h' T /\ at_rest (h_cache h') /\ h_current h' = h_current h.
Proof using CRCok CRCcok.
  intros Inv Hr Hs Hl. pose proof Inv as (_ & _ & _ & _ & Hn).
  destruct (page_spec (V := DiskBlockStore) (P := LruK nat) scratch ltac:(done) h T id slots Inv Hs) as (h1 & r & E & Inv1 & Hr1).
  assert (Hcur : forall (h2 : Heap) x (op : SR _ Error x) rr, on_cache op h = (h2, rr) -> h_current h2 = h_current h).
  { intros h2 x op rr. unfold on_cache. destruct (op (h_cache h)). by intros [= <- _]. }
  unfold fw_block, heap_page. destruct r as [p|e|]; [| |done].
  - pose proof (Hcur _ _ _ _ E) as Hc1. destruct Hr1 as (Hid & Hsh & P1). rewrite (sr_bind_ok _ _ _ _ _ E).
    unfold mret at 1, sr_ret at 1. pose proof Hsh as (fr & Ef & _ & Rb).
    assert (Eit : pt_iter (MkPageTuples p) h1 = (h1, Ok (seqZ 0 (Z.of_nat (length slots))))).
    { unfold pt_iter. destruct h1 as [c1 cur1]. erewrite sr_bind_ok; [|apply on_cache_eq; unfold rp_bytes;
        erewrite sr_bind_ok; [done|]; unfold frame_at; cbn [pt_page]; by rewrite Ef].
      cbn [h_cache h_current]. rewrite (rep_type _ _ Rb). unfold slot_count. rewrite buf_get_u16_ok by (pose proof (rep_length _ _ Rb); plia).
      by rewrite (rep_count _ _ Rb). }
    rewrite (sr_bind_ok _ _ _ _ _ Eit).
    assert (Hu16 : Forall (fun s => is_u16 s) (seqZ 0 (Z.of_nat (length slots)))).
    { apply Forall_forall. intros s Hin%elem_of_seqZ. pose proof (rep_u16 _ _ Rb). ulia. }
    rewrite (sr_bind_ok _ _ _ _ _ (read_slots_ok h1 (MkPageTuples p) slots _ Hsh Hu16)).
    rewrite live_payload by done. set (f := rp_frame p) in *.
    assert (Hpf : pins (h_cache h1) !! f = Some (1, false)).
    { pose proof (pins_lookup _ _ _ Ef) as Hf. rewrite P1, list_lookup_alter_eq in *. unfold at_rest in Hr. rewrite Forall_lookup in Hr.
      destruct (pins (h_cache h) !! f) as [x|] eqn:Ex; [|done]. by rewrite (Hr _ _ Ex). }
    destruct (drop_spec (V := DiskBlockStore) (P := LruK nat) scratch ltac:(done) h1 T f 1 Inv1 Hpf ltac:(lia)) as (h2 & E2 & Inv2 & P2 & _).
    exists h2. split; [|split; [done|split]].
    + unfold pt_drop, rp_drop. cbn [pt_page]. fold f. by rewrite (sr_bind_ok _ _ _ _ _ E2).
    + unfold at_rest. rewrite P2, P1. assert (Hid' : alter unpin_read f (alter pin_read f (pins (h_cache h))) = pins (h_cache h)).
      { apply list_eq. intros i. rewrite !list_lookup_alter. case_decide; [subst i|done]. rewrite decide_True by done.
        destruct (pins (h_cache h) !! f) as [[n w]|]; [|done]. cbn. unfold unpin_read, pin_read. cbn.
        apply (f_equal (fun x => Some (x, w))). lia. }
      by rewrite Hid'.
    + rewrite <- Hc1. revert E2. unfold on_cache. destruct (release_read f (h_cache h1)). by intros [= <- _].
  - exfalso. destruct Hr1 as (_ & [(_ & f & fr & Ef & _ & Hw)|(_ & Ha)]); [|by apply (not_at_rest (h_cache h))].
    pose proof (at_rest_unpinned _ _ _ Hr Ef) as Hun. unfold unpinned in Hun. by rewrite Hw, andb_false_r in Hun.
Qed.

Lemma fw_blocks_ok T ids tss : Forall2 (fun id slots => T !! id = Some slots /\ all_live slots) ids tss ->
  forall h : Heap, hinv h T -> at_rest (h_cache h) ->
  exists h', fw_blocks ids h = (h', Ok (payload tss)) /\ hinv h' T /\ at_rest (h_cache h') /\ h_current h' = h_current h.
Proof using CRCok CRCcok.
  induction 1 as [|id slots ids tss [Hs Hl] _ IH]; intros h Inv Hr; cbn [fw_blocks]; [by exists h|].
  destruct (fw_block_ok h T id slots Inv Hr Hs Hl) as (h1 & E1 & Inv1 & Hr1 & Hc1).
  destruct (IH h1 Inv1 Hr1) as (h2 & E2 & Inv2 & Hr2 & Hc2). exists h2.
  rewrite (sr_bind_ok _ _ _ _ _ E1), (sr_bind_ok _ _ _ _ _ E2). split; [done|]. split; [done|]. split; [done|congruence].
Qed.

Lemma fw_tuples_ok w ts : fw_holds w ts -> exists w', fw_tuples w = (w', Ok ts) /\ fw_holds w' ts.
Proof using CRCok CRCcok.
  intros [(T & tss & Inv & Hp & ->) Hrest Hcur Hb Hbud].
  destruct (fw_blocks_ok T _ _ (fp_slots _ _ _ Hp) (fw_heap w) Inv Hrest) as (h & E & Inv' & Hr' & Hc').
  exists (with_heap h w). split; [unfold fw_tuples; rewrite sr_bind_get; unfold on_fw_heap; by rewrite E|].
  split; cbn [with_heap fw_heap fw_pages fw_max_pages fw_disk_budget]; try done; [by exists T, tss|]. by rewrite Hc'.
Qed.

#[global] Instance FileWorkspace_ok : WorkspaceOk FileWorkspace.
Proof using CRCok CRCcok.
  refine {| ws_holds := fw_holds; ws_refusal := fw_refusal; ws_panics := store_panic (V := DiskBlockStore);
            ws_append_ok := fw_append_ok; ws_tuples_ok := fw_tuples_ok |}.
  intros w ts [_ _ _ Hb Hbud]. cbn. unfold fw_used, PAGE_SIZE. pose proof BLOCK_SIZE_Z. lia.
Defined.

(** The cursor's remaining tuples. *)
Definition fwt_ok (st : FileWorkspaceTuples) (rem : list (list byte)) : Prop :=
  exists T tss, hinv (fw_heap (ft_ws st)) T /\ at_rest (h_cache (fw_heap (ft_ws st)))
    /\ Forall2 (fun id slots => T !! id = Some slots /\ all_live slots) (fw_pages (ft_ws st)) tss
    /\ rem = ft_page st ++ payload (drop (ft_next_page st) tss).

Lemma fwt_next_ok fuel : forall st rem,
  fwt_ok st rem -> (length (fw_pages (ft_ws st)) <= ft_next_page st + fuel)%nat ->
  exists st', fwt_next fuel st = (st', Ok (head rem)) /\ fwt_ok st' (tail rem)
    /\ fw_pages (ft_ws st') = fw_pages (ft_ws st) /\ (ft_next_page st <= ft_next_page st')%nat.
Proof using CRCok CRCcok.
  induction fuel as [|fuel IH]; intros st rem (T & tss & Inv & Hr & Hs & ->) Hf; cbn [fwt_next];
    (destruct (ft_page st) as [|t buf] eqn:Eb; [|exists (MkFWT (ft_ws st) (ft_next_page st) buf); split; [done|]; split; [by exists T, tss|done]]).
  - rewrite lookup_ge_None_2 by lia. rewrite drop_ge by (rewrite <- (Forall2_length _ _ _ Hs); lia). cbn. exists st. split; [done|].
    split; [|done]. exists T, tss. rewrite Eb, drop_ge by (rewrite <- (Forall2_length _ _ _ Hs); lia). done.
  - destruct (fw_pages (ft_ws st) !! ft_next_page st) as [id|] eqn:Ei.
    + destruct (Forall2_lookup_l _ _ _ _ _ Hs Ei) as (slots & Esl & Hid & Hl).
      destruct (fw_block_ok (fw_heap (ft_ws st)) T id slots Inv Hr Hid Hl) as (h & E & Inv' & Hr' & _).
      unfold on_fw_heap. rewrite E.
      destruct (IH (MkFWT (with_heap h (ft_ws st)) (S (ft_next_page st)) (page_payload slots)) (payload (drop (ft_next_page st) tss)))
        as (st' & E' & Hok & Hp & Hn).
      { exists T, tss. cbn [ft_ws ft_page ft_next_page with_heap fw_heap fw_pages]. split; [done|]. split; [done|]. split; [done|].
        rewrite (drop_S _ _ _ Esl). cbn. reflexivity. }
      { cbn [ft_ws ft_next_page with_heap fw_pages]. lia. }
      exists st'. cbn [app]. split; [exact E'|]. split; [done|]. split; [by rewrite Hp|]. cbn in Hn. lia.
    + apply lookup_ge_None in Ei. rewrite drop_ge by (rewrite <- (Forall2_length _ _ _ Hs); lia). cbn. exists st. split; [done|].
      split; [|done]. exists T, tss. rewrite Eb, drop_ge by (rewrite <- (Forall2_length _ _ _ Hs); lia). done.
Qed.

(** The owned cursor starts with every tuple to go. *)
Lemma into_tuples_ok w ts : fw_holds w ts -> fwt_ok (into_tuples w) ts.
Proof. intros [(T & tss & Inv & Hp & ->) Hrest _ _ _]. exists T, tss. split; [done|]. split; [done|]. split; [apply Hp|done]. Qed.

Lemma fw_new_holds limit mb db w : FileWorkspace_new limit mb db = Ok w -> fw_holds w [].
Proof using CRCok CRCcok.
  unfold FileWorkspace_new. destruct (Z.ltb_spec (db / Z.of_nat PAGE_SIZE) 1) as [|Hmax]; [done|].
  destruct (disk_open limit []) as [d [[]|e|]] eqn:Ed; [|done..]. pose proof (disk_open_fresh _ _ Ed) as W.
  unfold PageCache_new, with_policy. change (LruK_new 2) with (Ok (E := unit) (MkLruK 2 0 (∅ : gmap nat (list Z)))). cbn iota.
  set (n := Z.to_nat (Z.max (mb / Z.of_nat PAGE_SIZE) 1)). destruct (build d n _ None) as [c|e|] eqn:Eb; [|done..].
  rewrite bind_Ok. intros E. apply Ok_inj in E. subst w.
  assert (HP : Z.of_nat PAGE_SIZE = 8192) by (unfold PAGE_SIZE; apply BLOCK_SIZE_Z).
  destruct (build_inv (BSok := DiskBlockStore_ok) (EPok := LruK_ok) d n (MkLruK 2 0 ∅) None c W I ltac:(done) ltac:(done) Eb) as (_ & _ & _ & Hl & Hi & _).
  split; cbn [fw_heap fw_pages fw_max_pages fw_disk_budget Heap_new h_cache h_current length]; try done.
  - exists ∅, []. split; [|split; [split; constructor|done]]. exists ∅. cbn [h_cache h_current Heap_new].
    split; [by eapply (run_new scratch d n (MkLruK 2 0 ∅) None c ∅)|]. split; [by intros id ts; rewrite lookup_empty|]. split; [done|].
    rewrite Hl. subst n. lia.
  - apply Forall_lookup. intros f x. unfold pins. rewrite list_lookup_fmap. destruct (frames c !! f) as [fr|] eqn:E; [|done].
    intros [= <-]. apply Hi in E. unfold unpinned in E. apply andb_true_iff in E as [->%Z.eqb_eq Hw]. by destruct (fr_writer fr).
  - lia.
  - rewrite HP. pose proof (Z.mul_div_le db 8192 ltac:(lia)). lia.
Qed.

(** The [n]-th tuple the owned cursor yields, from 0. *)
Fixpoint fwt_nth (fuel n : nat) (st : FileWorkspaceTuples) : res Error (option (list byte)) :=
  match n with
  | O => (fwt_next fuel st).2
  | S n' => fwt_nth fuel n' (fwt_next fuel st).1
  end.

Lemma fwt_nth_ok fuel n : forall st rem,
  fwt_ok st rem -> (length (fw_pages (ft_ws st)) <= ft_next_page st + fuel)%nat -> fwt_nth fuel n st = Ok (rem !! n).
Proof using CRCok CRCcok.
  induction n as [|n IH]; intros st rem H Hf; destruct (fwt_next_ok fuel st rem H Hf) as (st' & E & H' & Ep & En);
    cbn [fwt_nth]; rewrite E; cbn [fst snd].
  - by destruct rem.
  - rewrite (IH st' (tail rem) H' ltac:(rewrite Ep; lia)). by destruct rem.
Qed.

(** C24: workspaces replay what they acknowledged.  In memory or in a scratch
    file, after any run of appends a replay that drops each block before it takes
    the next yields exactly the acknowledged tuples in append order, and [used], the
    bytes of the pages that hold them, is within [capacity]; an append is refused
    only when no further page fits the budget, when no page can hold the tuple,
    or (in a file) when the disk is full, and a refused append leaves the replay
    as it was.  The owned cursor of a file workspace yields the same tuples one
    by one and then ends, [fuel] being at least the number of its pages.  Two things
    are not promised: the scratch file itself may grow past [capacity], since a
    refused append can leave a page in it ([refused_appends_pass_the_budget]), and a
    consumer that holds on to blocks may miss tuples ([held_block_hides_tuples]). *)
Theorem workspaces_replay :
  (forall cap w, cap + 8192 <= u64_max -> MemoryWorkspace_new cap = Ok w -> replays w)
  /\ (forall limit memory_budget disk_budget w, FileWorkspace_new limit memory_budget disk_budget = Ok w ->
        replays w
        /\ forall l w' acked, ws_appends l w [] = Some (w', acked) ->
             forall n fuel, (length (fw_pages w') <= fuel)%nat -> fwt_nth fuel n (into_tuples w') = Ok (acked !! n)).
Proof using CRCok CRCcok.
  split.
  - intros cap w Hc. unfold MemoryWorkspace_new. destruct (Z.ltb_spec 0 cap); [|done]. intros [= <-]. apply holds_replays.
    split; cbn [mw_blocks mw_pool pool_new p_cap p_in_use length]; [|done|lia|lia]. exists []. split; [constructor|done].
  - intros limit mb db w E. pose proof (fw_new_holds _ _ _ _ E) as H0. split; [by apply holds_replays|].
    intros l w' acked Ha n fuel Hf. apply fwt_nth_ok; [|exact Hf]. apply into_tuples_ok.
    by apply (ws_appends_holds (WorkspaceOk0 := FileWorkspace_ok) l w [] w' acked H0 Ha).
Qed.
End file_ok.

(** ** On concrete workspaces *)

Section witness.
Import Journal.Ieee Castagnoli.

(** A workspace of one page in memory, and one of one frame over two pages of disk. *)
Lemma workspaces_replay_witness :
  (MemoryWorkspace_new 8192 = Ok (MkMW (pool_new 8192) []) /\ replays (MkMW (pool_new 8192) []))
  /\ exists w, FileWorkspace_new (2 ^ 40) 8192 16384 = Ok w /\ replays w.
Proof.
  split.
  - split; [reflexivity|]. apply (proj1 workspaces_replay 8192); [vm_compute; discriminate | reflexivity].
  - destruct (FileWorkspace_new (2 ^ 40) 8192 16384) as [w|e|] eqn:E;
      [exists w; split; [reflexivity|]; exact (proj1 (proj2 workspaces_replay _ _ _ _ E)) | exfalso; vm_compute in E; discriminate..].
Defined.

(** One page of disk budget, a tuple that fills most of it, and refused appends
    that each write one more page of the file. *)
Definition big : list byte := replicate (Z.to_nat 5000) x00.
Example refused_appends_pass_the_budget :
  match FileWorkspace_new (2 ^ 40) 8192 8192 with
  | Ok w0 =>
      let '(w1, r1) := fw_append big w0 in
      let '(w2, r2) := fw_append big w1 in
      let '(w3, r3) := fw_append big w2 in
      r1 = Ok (MkWsLoc 1 0) /\ r2 = Err (EWorkspaceFull 8192 8192 8192) /\ r3 = r2 /\ fw_used w3 = 8192
      /\ map (fun w => bs_block_count (block (h_cache (fw_heap w)))) [w1; w2; w3] = [2; 3; 4]
  | _ => False
  end.
Proof. vm_compute. done. Qed.

(** With one frame, a consumer that holds the block of the first page makes a
    replay of the second come out empty, with no error. *)
Example held_block_hides_tuples :
  match FileWorkspace_new (2 ^ 40) 8192 16384 with
  | Ok w0 =>
      let '(w1, _) := fw_append big w0 in
      let '(w2, _) := fw_append big w1 in
      let '(h, _) := heap_page (fun _ => io_fine) 1 (fw_heap w2) in
      fw_pages w2 = [1; 2] /\ (fw_block 2 (fw_heap w2)).2 = Ok [big] /\ (fw_block 2 h).2 = Ok []
  | _ => False
  end.
Proof. vm_compute. done. Qed.
End witness.
