(* ===== verification/Float.v ===== *)
(** * IEEE 754 values

    What the sources use of Rust's [f32] and [f64]: a value is its bit pattern
    ([to_bits]).  [total_cmp] and the widening cast are written on the bits;
    arithmetic goes through the Standard Library's [SpecFloat], the executable
    specification of IEEE 754 (round to nearest, ties to even).  Where Rust
    leaves the bits of a NaN result open, the model has the canonical one. *)

From Stdlib Require Import ZArith Lia SpecFloat.
From stdpp Require Import prelude.
From S2P Require Import Prelude.
Local Open Scope Z_scope.

Record FloatFormat : Type := MkFormat { mant : Z; expo : Z }.
Definition f32 : FloatFormat := MkFormat 23 8.
Definition f64 : FloatFormat := MkFormat 52 11.

Section format.
Context (F : FloatFormat).

Definition sign_bit : Z := 2 ^ (mant F + expo F).
Definition f_neg (b : Z) : bool := sign_bit <=? b.
Definition f_mag (b : Z) : Z := if f_neg b then b - sign_bit else b.
Definition f_exp (b : Z) : Z := f_mag b / 2 ^ mant F.
Definition f_man (b : Z) : Z := f_mag b mod 2 ^ mant F.
Definition f_inf : Z := (2 ^ expo F - 1) * 2 ^ mant F.
Definition f_is_nan (b : Z) : bool := f_inf <? f_mag b.
Definition is_float (b : Z) : Prop := 0 <= b < 2 * sign_bit.
Definition nan_bits : Z := f_inf + 2 ^ (mant F - 1).

(** [total_cmp]: [left ^= (((left >> 63) as u64) >> 1) as i64] on both sides,
    then the signed comparison. *)
Definition total_key (b : Z) : Z := if f_neg b then - 1 - f_mag b else b.
Definition total_cmp (a b : Z) : comparison := total_key a ?= total_key b.

(** The magnitude in units of the smallest subnormal; an infinity is above
    every finite value. *)
Definition magnitude (x : Z) : Z :=
  if x <? 2 ^ mant F then x else (2 ^ mant F + x mod 2 ^ mant F) * 2 ^ (x / 2 ^ mant F - 1).

(** The value, in those units. *)
Definition numeric (b : Z) : Z := if f_neg b then - magnitude (f_mag b) else magnitude (f_mag b).

(** ** [SpecFloat] *)

Definition prec : Z := mant F + 1.
Definition f_emax : Z := 2 ^ (expo F - 1).
Definition bias : Z := f_emax - 1.

Definition to_spec (b : Z) : spec_float :=
  let s := f_neg b in
  if f_exp b =? 2 ^ expo F - 1 then (if f_man b =? 0 then S754_infinity s else S754_nan)
  else if f_exp b =? 0 then (if f_man b =? 0 then S754_zero s else S754_finite s (Z.to_pos (f_man b)) (1 - bias - mant F))
  else S754_finite s (Z.to_pos (2 ^ mant F + f_man b)) (f_exp b - bias - mant F).

Definition of_spec (x : spec_float) : Z :=
  let signed (s : bool) (m : Z) := if s then sign_bit + m else m in
  match x with
  | S754_zero s => signed s 0
  | S754_infinity s => signed s f_inf
  | S754_nan => nan_bits
  | S754_finite s m e =>
      if Zpos m <? 2 ^ mant F then signed s (Zpos m)
      else signed s ((e + bias + mant F) * 2 ^ mant F + (Zpos m - 2 ^ mant F))
  end.

Definition f_add (a b : Z) : Z := of_spec (SFadd prec f_emax (to_spec a) (to_spec b)).
Definition f_sub (a b : Z) : Z := of_spec (SFsub prec f_emax (to_spec a) (to_spec b)).
Definition f_mul (a b : Z) : Z := of_spec (SFmul prec f_emax (to_spec a) (to_spec b)).
Definition f_div (a b : Z) : Z := of_spec (SFdiv prec f_emax (to_spec a) (to_spec b)).
(** [==]: false on NaN, true on the two zeros. *)
Definition f_eqb (a b : Z) : bool := SFeqb (to_spec a) (to_spec b).
(** [-x] and [abs]: the sign bit alone. *)
Definition f_opp (b : Z) : Z := if f_neg b then b - sign_bit else b + sign_bit.
Definition f_abs (b : Z) : Z := f_mag b.
(** [n as f64]. *)
Definition f_of_int (n : Z) : Z := of_spec (binary_normalize prec f_emax n 0 false).
End format.

(** [x as f64] of an [f32]: exact. *)
Definition f32_mag_to_f64 (x : Z) : Z :=
  if f_inf f32 <? x then f_inf f64 + 2 ^ 51 + (x - f_inf f32) mod 2 ^ 22 * 2 ^ 29
  else if x =? f_inf f32 then f_inf f64
  else if x =? 0 then 0
  else if x <? 2 ^ 23 then (874 + Z.log2 x) * 2 ^ 52 + (x - 2 ^ Z.log2 x) * 2 ^ (52 - Z.log2 x)
  else (x / 2 ^ 23 + 896) * 2 ^ 52 + x mod 2 ^ 23 * 2 ^ 29.
Definition f32_to_f64 (b : Z) : Z :=
  if f_neg f32 b then sign_bit f64 + f32_mag_to_f64 (f_mag f32 b) else f32_mag_to_f64 b.

(** [x as f32] of an [f64]: rounded. *)
Definition f64_to_f32 (b : Z) : Z :=
  of_spec f32
    match to_spec f64 b with
    | S754_finite s m e => binary_round (prec f32) (f_emax f32) s m e
    | x => x
    end.

(** ** Rounding to whole values: [ceil], [floor], [round] (ties away from zero) *)

Inductive Rounding : Type := Ceil | Floor | Nearest.

(** The integer [m * 2^e] (signed) rounds to, for [e < 0]. *)
Definition round_int (mode : Rounding) (m e : Z) : Z :=
  let d := 2 ^ (- e) in
  match mode with
  | Floor => m / d
  | Ceil => - ((- m) / d)
  | Nearest => if 0 <=? m then (2 * m + d) / (2 * d) else - ((2 * (- m) + d) / (2 * d))
  end.

(** A result of zero keeps the operand's sign. *)
Definition f64_round (mode : Rounding) (b : Z) : Z :=
  match to_spec f64 b with
  | S754_finite s m e =>
      if 0 <=? e then b
      else
        let n := round_int mode (cond_Zopp s (Zpos m)) e in
        if n =? 0 then (if s then sign_bit f64 else 0) else f_of_int f64 n
  | _ => b
  end.

(** [x as i64] of an [f64]: toward zero, saturating, 0 for NaN. *)
Definition f64_to_i64 (b : Z) : Z :=
  let clamp z := Z.max (- 2 ^ 63) (Z.min (2 ^ 63 - 1) z) in
  match to_spec f64 b with
  | S754_zero _ | S754_nan => 0
  | S754_infinity s => clamp (if s then - 2 ^ 64 else 2 ^ 64)
  | S754_finite s m e =>
      clamp (cond_Zopp s (if 0 <=? e then Zpos m * 2 ^ e else Zpos m / 2 ^ (- e)))
  end.

(** ** Order *)

Section order.
Context (F : FloatFormat) (Hm : 0 < mant F) (He : 0 < expo F).

Lemma pow_mant : 0 < 2 ^ mant F.
Proof using Hm. apply Z.pow_pos_nonneg; lia. Qed.

Lemma magnitude_exp x : 2 ^ mant F <= x -> 1 <= x / 2 ^ mant F.
Proof using Hm. intros. pose proof pow_mant. apply Z.div_le_lower_bound; lia. Qed.

(** The magnitude of a pattern is below the one its next exponent starts at. *)
Lemma magnitude_below x e : 0 <= x < (e + 1) * 2 ^ mant F -> 0 <= e -> magnitude F x < 2 ^ mant F * 2 ^ e.
Proof using Hm.
  intros Hx Hpos. pose proof pow_mant as HM. set (M := 2 ^ mant F) in *. unfold magnitude. fold M.
  destruct (Z.ltb_spec x M) as [Hs|Hs].
  - assert (1 <= 2 ^ e) by (apply Z.pow_le_mono_r with (b := 0) (a := 2) in Hpos; lia). nia.
  - pose proof (magnitude_exp x Hs) as Hq. fold M in Hq. pose proof (Z.mod_pos_bound x M HM).
    assert (Hle : x / M <= e) by (apply Z.lt_succ_r, Z.div_lt_upper_bound; lia).
    pose proof (Z.pow_succ_r 2 (x / M - 1) ltac:(lia)) as H2. replace (Z.succ (x / M - 1)) with (x / M) in H2 by lia.
    assert (2 ^ (x / M) <= 2 ^ e) by (apply Z.pow_le_mono_r; lia).
    assert (0 < 2 ^ (x / M - 1)) by (apply Z.pow_pos_nonneg; lia). nia.
Qed.

Lemma magnitude_above x e : (e + 1) * 2 ^ mant F <= x -> 0 <= e -> 2 ^ mant F * 2 ^ e <= magnitude F x.
Proof using Hm.
  intros Hx Hpos. pose proof pow_mant as HM. set (M := 2 ^ mant F) in *. unfold magnitude. fold M.
  destruct (Z.ltb_spec x M) as [Hs|Hs]; [nia|].
  assert (Hle : e + 1 <= x / M) by (apply Z.div_le_lower_bound; lia).
  assert (2 ^ e <= 2 ^ (x / M - 1)) by (apply Z.pow_le_mono_r; lia). pose proof (Z.mod_pos_bound x M HM).
  assert (0 < 2 ^ e) by (apply Z.pow_pos_nonneg; lia). nia.
Qed.

(** Larger patterns are larger magnitudes. *)
Lemma magnitude_mono x y : 0 <= x < y -> magnitude F x < magnitude F y.
Proof using Hm.
  intros H. pose proof pow_mant as HM. set (M := 2 ^ mant F) in *.
  assert (Hx : x = M * (x / M) + x mod M) by (apply Z.div_mod; lia). pose proof (Z.mod_pos_bound x M HM) as Hxm.
  assert (Hq0 : 0 <= x / M) by (apply Z.div_pos; lia).
  destruct (Z.lt_ge_cases (x / M) (y / M)) as [Hq|Hq].
  - destruct (Z.eq_dec (y / M) 1) as [E1|E1].
    + apply Z.lt_le_trans with (M * 2 ^ 0); [apply magnitude_below; fold M; nia|].
      apply magnitude_above; [fold M|lia]. assert (M * (y / M) <= y) by (apply Z.mul_div_le; lia). nia.
    + apply Z.lt_le_trans with (M * 2 ^ (y / M - 1)); [apply magnitude_below; fold M; nia|].
      apply magnitude_above; [fold M|lia]. assert (M * (y / M) <= y) by (apply Z.mul_div_le; lia). nia.
  - assert (Hy : y = M * (y / M) + y mod M) by (apply Z.div_mod; lia).
    assert (Eq : y / M = x / M) by (pose proof (Z.div_le_mono x y M HM ltac:(lia)); lia).
    unfold magnitude. fold M. destruct (Z.ltb_spec x M) as [Hs|Hs], (Z.ltb_spec y M) as [Ht|Ht]; try lia.
    + assert (1 <= y / M) by (apply Z.div_le_lower_bound; lia). assert (x / M = 0) by (apply Z.div_small; lia). lia.
    + assert (0 < 2 ^ (x / M - 1)) by (apply Z.pow_pos_nonneg; [lia|]; pose proof (magnitude_exp x Hs) as Hq1; fold M in Hq1; lia).
      rewrite Eq. nia.
Qed.

Lemma magnitude_cmp x y : 0 <= x -> 0 <= y -> (magnitude F x ?= magnitude F y) = (x ?= y).
Proof using Hm.
  intros Hx Hy. destruct (Z.compare_spec x y) as [->|H|H]; [apply Z.compare_refl|..].
  - apply Z.compare_lt_iff, magnitude_mono. lia.
  - apply Z.compare_gt_iff, magnitude_mono. lia.
Qed.

Lemma sign_pos : 0 < sign_bit F.
Proof using Hm He. apply Z.pow_pos_nonneg; lia. Qed.

Lemma f_mag_bound b : is_float F b -> 0 <= f_mag F b < sign_bit F.
Proof using Hm He. unfold is_float, f_mag, f_neg. destruct (Z.leb_spec (sign_bit F) b); lia. Qed.

(** Numeric order decides [total_cmp], except between the two zeros. *)
Lemma numeric_total a b :
  is_float F a -> is_float F b -> numeric F a <> numeric F b -> total_cmp F a b = (numeric F a ?= numeric F b).
Proof using Hm He.
  intros Ha Hb Hne. pose proof (f_mag_bound a Ha). pose proof (f_mag_bound b Hb).
  assert (Hz : magnitude F 0 = 0) by (unfold magnitude; pose proof pow_mant; by rewrite (proj2 (Z.ltb_lt _ _))).
  assert (Hn : forall x, 0 <= x -> 0 <= magnitude F x).
  { intros x Hx. destruct (Z.eq_dec x 0) as [->|]; [lia|]. pose proof (magnitude_mono 0 x). lia. }
  pose proof (Hn (f_mag F a) ltac:(lia)). pose proof (Hn (f_mag F b) ltac:(lia)).
  assert (Hord : forall x y, 0 <= x -> 0 <= y -> magnitude F x < magnitude F y -> x < y).
  { intros x y Hx Hy Hlt. apply (proj1 (Z.compare_lt_iff x y)). rewrite <- magnitude_cmp by lia. by apply Z.compare_lt_iff. }
  revert Hne. unfold total_cmp, total_key, numeric. destruct (f_neg F a) eqn:Na, (f_neg F b) eqn:Nb; intros Hne.
  - destruct (Z.compare_spec (- magnitude F (f_mag F a)) (- magnitude F (f_mag F b))) as [E|E|E]; [done|..].
    + apply Z.compare_lt_iff. pose proof (Hord (f_mag F b) (f_mag F a)). lia.
    + apply Z.compare_gt_iff. pose proof (Hord (f_mag F a) (f_mag F b)). lia.
  - assert (Eb : f_mag F b = b) by (unfold f_mag; by rewrite Nb).
    rewrite (proj2 (Z.compare_lt_iff (- _) _)) by lia. apply Z.compare_lt_iff. lia.
  - assert (Ea : f_mag F a = a) by (unfold f_mag; by rewrite Na).
    rewrite (proj2 (Z.compare_gt_iff _ (- _))) by lia. apply Z.compare_gt_iff. lia.
  - assert (Ea : f_mag F a = a) by (unfold f_mag; by rewrite Na). assert (Eb : f_mag F b = b) by (unfold f_mag; by rewrite Nb).
    rewrite <- Ea at 1. rewrite <- Eb at 1. by rewrite magnitude_cmp by lia.
Qed.

Lemma total_key_inj a b : is_float F a -> is_float F b -> total_key F a = total_key F b -> a = b.
Proof using Hm He.
  intros Ha Hb. pose proof (f_mag_bound a Ha). pose proof (f_mag_bound b Hb).
  unfold total_key. destruct (f_neg F a) eqn:Na, (f_neg F b) eqn:Nb; unfold f_mag in *; rewrite ?Na, ?Nb in *; lia.
Qed.
End order.

(** ** Widening is exact *)

Lemma packed_fields e m B : 0 <= m < B -> (e * B + m) mod B = m /\ (e * B + m) / B = e.
Proof.
  intros H. split.
  - rewrite Z.add_comm, Z.mod_add by lia. by apply Z.mod_small.
  - rewrite Z.div_add_l, Z.div_small by lia. lia.
Qed.

Lemma f32_mag_mono x y : 0 <= x < y -> y <= f_inf f32 -> f32_mag_to_f64 x < f32_mag_to_f64 y /\ 0 <= f32_mag_to_f64 x.
Proof.
  assert (HI : f_inf f32 = 2139095040) by reflexivity. assert (HJ : f_inf f64 = 9218868437227405312) by reflexivity.
  (* the widened pattern of a finite value has its magnitude *)
  assert (Hm : forall z, 0 <= z < 2139095040 -> 0 <= f32_mag_to_f64 z < 9218868437227405312
            /\ magnitude f64 (f32_mag_to_f64 z) = magnitude f32 z * 2 ^ 925).
  { intros z Hz. unfold f32_mag_to_f64. rewrite HI, HJ. rewrite (proj2 (Z.ltb_ge _ _)), (proj2 (Z.eqb_neq _ _)) by lia.
    destruct (Z.eqb_spec z 0) as [->|Hz0]; [by vm_compute|]. destruct (Z.ltb_spec z (2 ^ 23)) as [Hs|Hs].
    - assert (Hk : 0 <= Z.log2 z < 23) by (split; [apply Z.log2_nonneg|]; apply Z.log2_lt_pow2; lia).
      pose proof (Z.log2_spec z ltac:(lia)) as Hl. rewrite Z.pow_succ_r in Hl by lia. set (k := Z.log2 z) in *.
      assert (E52 : 2 ^ 52 = 2 ^ k * 2 ^ (52 - k)) by (rewrite <- Z.pow_add_r by lia; f_equal; lia).
      assert (Hp : 0 < 2 ^ (52 - k)) by (apply Z.pow_pos_nonneg; lia). assert (Hpk : 0 < 2 ^ k) by (apply Z.pow_pos_nonneg; lia).
      set (m := (z - 2 ^ k) * 2 ^ (52 - k)) in *. assert (Hmb : 0 <= m < 2 ^ 52) by (unfold m; nia).
      split; [nia|]. unfold magnitude. cbn [mant f64 f32]. rewrite (proj2 (Z.ltb_ge _ _)), (proj2 (Z.ltb_lt z _)) by lia.
      destruct (packed_fields (874 + k) m (2 ^ 52) Hmb) as [-> ->]. replace (874 + k - 1) with (873 + k) by lia.
      assert (Em : 2 ^ 52 + m = z * 2 ^ (52 - k)) by (unfold m; nia). rewrite Em, <- Z.mul_assoc, <- Z.pow_add_r by lia.
      f_equal. f_equal. lia.
    - pose proof (Z.mod_pos_bound z (2 ^ 23) ltac:(lia)) as Hmod. pose proof (Z.div_mod z (2 ^ 23) ltac:(lia)) as Hdm.
      set (q := z / 2 ^ 23) in *. set (r := z mod 2 ^ 23) in *. assert (Hq : 1 <= q < 255) by lia.
      split; [lia|]. unfold magnitude. cbn [mant f64 f32]. rewrite (proj2 (Z.ltb_ge _ _)), (proj2 (Z.ltb_ge z _)) by lia. fold q r.
      destruct (packed_fields (q + 896) (r * 2 ^ 29) (2 ^ 52) ltac:(lia)) as [-> ->].
      replace (q + 896 - 1) with (q - 1 + 896) by lia. rewrite Z.pow_add_r by lia.
      replace (2 ^ 925) with (2 ^ 29 * 2 ^ 896) by reflexivity. replace (2 ^ 52) with (2 ^ 23 * 2 ^ 29) by reflexivity. ring. }
  intros Hxy Hy. destruct (Hm x ltac:(lia)) as [Bx Mx]. split; [|lia].
  destruct (Z.eq_dec y (f_inf f32)) as [->|Hne]; [replace (f32_mag_to_f64 (f_inf f32)) with (f_inf f64) by reflexivity; lia|].
  destruct (Hm y ltac:(lia)) as [By My]. apply (proj1 (Z.compare_lt_iff _ _)).
  rewrite <- (magnitude_cmp f64) by (cbn; lia). rewrite Mx, My. apply Z.compare_lt_iff.
  assert (magnitude f32 x < magnitude f32 y) by (apply magnitude_mono; cbn; lia). apply Z.mul_lt_mono_pos_r; [by vm_compute|done].
Qed.

(** Widening keeps the order of values that are not NaN. *)
Lemma f32_total a b :
  is_float f32 a -> is_float f32 b -> f_is_nan f32 a = false -> f_is_nan f32 b = false ->
  total_cmp f64 (f32_to_f64 a) (f32_to_f64 b) = total_cmp f32 a b /\ (f32_to_f64 a = f32_to_f64 b -> a = b).
Proof.
  intros Ha Hb Na Nb. pose proof (f_mag_bound f32 eq_refl eq_refl a Ha) as Ba. pose proof (f_mag_bound f32 eq_refl eq_refl b Hb) as Bb.
  unfold f_is_nan in Na, Nb. apply Z.ltb_ge in Na, Nb.
  assert (Hw : forall z, 0 <= z <= f_inf f32 -> 0 <= f32_mag_to_f64 z < sign_bit f64).
  { intros z Hz. destruct (Z.eq_dec z (f_inf f32)) as [->|]; [by vm_compute|].
    destruct (f32_mag_mono z (f_inf f32) ltac:(lia) ltac:(lia)) as [H1 H2]. split; [done|].
    eapply Z.lt_trans; [exact H1|]. by vm_compute. }
  pose proof (Hw _ (conj (proj1 Ba) Na)) as Wa. pose proof (Hw _ (conj (proj1 Bb) Nb)) as Wb.
  assert (Hsig : forall z, is_float f32 z -> 0 <= f32_mag_to_f64 (f_mag f32 z) < sign_bit f64 ->
            f_neg f64 (f32_to_f64 z) = f_neg f32 z /\ f_mag f64 (f32_to_f64 z) = f32_mag_to_f64 (f_mag f32 z)).
  { intros z Hz Wz. unfold f32_to_f64, f_mag. destruct (f_neg f32 z) eqn:Nz.
    - assert (E : f_neg f64 (sign_bit f64 + f32_mag_to_f64 (z - sign_bit f32)) = true).
      { unfold f_neg. apply Z.leb_le. unfold f_mag in Wz. rewrite Nz in Wz. lia. }
      rewrite E. split; [done|]. lia.
    - assert (E : f_neg f64 (f32_mag_to_f64 z) = false).
      { unfold f_neg. apply Z.leb_gt. unfold f_mag in Wz. rewrite Nz in Wz. lia. }
      by rewrite E. }
  destruct (Hsig a Ha Wa) as [Sa Ma], (Hsig b Hb Wb) as [Sb Mb].
  assert (Hcmp : (f32_mag_to_f64 (f_mag f32 a) ?= f32_mag_to_f64 (f_mag f32 b)) = (f_mag f32 a ?= f_mag f32 b)).
  { destruct (Z.compare_spec (f_mag f32 a) (f_mag f32 b)) as [->|H|H]; [apply Z.compare_refl|..].
    - apply Z.compare_lt_iff. apply f32_mag_mono; lia.
    - apply Z.compare_gt_iff. apply f32_mag_mono; lia. }
  split.
  - unfold total_cmp, total_key. rewrite Sa, Sb, Ma, Mb.
    assert (Pa : f_neg f32 a = false -> f32_to_f64 a = f32_mag_to_f64 (f_mag f32 a) /\ a = f_mag f32 a).
    { intros E. unfold f32_to_f64, f_mag. by rewrite E. }
    assert (Pb : f_neg f32 b = false -> f32_to_f64 b = f32_mag_to_f64 (f_mag f32 b) /\ b = f_mag f32 b).
    { intros E. unfold f32_to_f64, f_mag. by rewrite E. }
    destruct (f_neg f32 a) eqn:Ea, (f_neg f32 b) eqn:Eb.
    + clear Hsig Hw. destruct (Z.compare_spec (f_mag f32 a) (f_mag f32 b)) as [E|E|E].
      * rewrite E. by rewrite !Z.compare_refl.
      * apply (proj1 (Z.compare_lt_iff _ _)) in Hcmp. transitivity Gt; [|symmetry]; apply Z.compare_gt_iff; lia.
      * apply (proj1 (Z.compare_gt_iff _ _)) in Hcmp. transitivity Lt; [|symmetry]; apply Z.compare_lt_iff; lia.
    + clear Hsig Hw. destruct (Pb eq_refl) as [-> Xb]. transitivity Lt; [|symmetry]; apply Z.compare_lt_iff; lia.
    + clear Hsig Hw. destruct (Pa eq_refl) as [-> Xa]. transitivity Gt; [|symmetry]; apply Z.compare_gt_iff; lia.
    + destruct (Pa eq_refl) as [-> Xa], (Pb eq_refl) as [-> Xb]. rewrite Hcmp. by rewrite <- Xa, <- Xb.
  - intros E. rewrite E in Sa, Ma. rewrite Sa in Sb. rewrite Ma in Mb.
    rewrite Mb, Z.compare_refl in Hcmp. symmetry in Hcmp. apply Z.compare_eq_iff in Hcmp.
    unfold f_mag in Hcmp. rewrite Sb in Hcmp. destruct (f_neg f32 b); lia.
Qed.
