(* ===== verification/Value.v ===== *)
(** * Logical types, values and tuples

    storage/types.rs.  A [String] is its bytes, an [f32] or [f64] its bit
    pattern, a [Uuid] its 16 bytes.  [rust_decimal] and [serde_json] are
    parameters: [RustDecimal] has the operations the codecs call, and
    [RustDecimalOk] what they rely on. *)

From Stdlib Require Import Strings.Byte ZArith Lia.
From stdpp Require Import prelude list strings.
From S2P Require Import Prelude Utf8 Float.
Local Open Scope Z_scope.

(** [rust_decimal::Decimal]: a signed 96-bit [mantissa] over [10 ^ scale]. *)
Class RustDecimal := {
  Decimal : Type;
  d_mantissa : Decimal -> Z;
  d_scale : Decimal -> Z;
  d_normalize : Decimal -> Decimal;
  d_is_zero : Decimal -> bool;
  d_is_sign_negative : Decimal -> bool;
  d_abs : Decimal -> Decimal;
  d_serialize : Decimal -> list byte;
  d_deserialize : list byte -> Decimal;
  d_of_int : Z -> Decimal;
  d_to_f64 : Decimal -> option Z;
  d_cmp : Decimal -> Decimal -> comparison;
}.

(** The number a decimal stands for, in units of [10 ^ -28]. *)
Definition d_value {DEC : RustDecimal} (d : Decimal) : Z := d_mantissa d * 10 ^ (28 - d_scale d).

(** The crate's documented behaviour. *)
Class RustDecimalOk {DEC : RustDecimal} : Prop := {
  d_mantissa_bound d : Z.abs (d_mantissa d) < 2 ^ 96;
  d_scale_bound d : 0 <= d_scale d <= 28;
  d_normalize_value d : d_value (d_normalize d) = d_value d;
  d_normalize_minimal d : d_scale (d_normalize d) = 0 \/ d_mantissa (d_normalize d) mod 10 <> 0;
  d_is_zero_spec d : d_is_zero d = (d_mantissa d =? 0);
  d_is_sign_negative_spec d : d_mantissa d <> 0 -> d_is_sign_negative d = (d_mantissa d <? 0);
  d_abs_mantissa d : d_mantissa (d_abs d) = Z.abs (d_mantissa d);
  d_abs_scale d : d_scale (d_abs d) = d_scale d;
  d_serialize_length d : length (d_serialize d) = 16%nat;
  d_deserialize_serialize d : d_deserialize (d_serialize d) = d;
  d_of_int_spec n : - 2 ^ 63 <= n < 2 ^ 63 -> d_mantissa (d_of_int n) = n /\ d_scale (d_of_int n) = 0;
  d_cmp_spec a b : d_cmp a b = (d_value a ?= d_value b);
}.

(** [serde_json::Value], its serialiser, its parser and its equality. *)
Class SerdeJson := {
  Json : Type;
  json_to_vec : Json -> list byte;
  json_from_slice : list byte -> option Json;
  json_eqb : Json -> Json -> bool;
}.

Inductive LogicalType : Type :=
| TBool | TInt16 | TInt32 | TInt64 | TText | TBytes | TJson | TDate | TTimestamp
| TFloat32 | TFloat64 | TNumeric | TTime | TUuid | TInterval
| TArray (element : LogicalType).

#[global] Instance LogicalType_eq_dec : EqDecision LogicalType.
Proof. solve_decision. Defined.

Record Interval : Type := MkInterval { months : Z; days : Z; micros : Z }.

#[global] Instance Interval_eq_dec : EqDecision Interval.
Proof. solve_decision. Defined.

(** In [i128], which no [i32]/[i64] components overflow. *)
Definition to_micros (i : Interval) : Z :=
  let DAY := 86400000000 in
  months i * 30 * DAY + days i * DAY + micros i.

#[warnings="-register-all"] Inductive Value {DEC : RustDecimal} {JS : SerdeJson} : Type :=
| VNull
| VBool (b : bool)
| VInt16 (n : Z)
| VInt32 (n : Z)
| VInt64 (n : Z)
| VText (s : list byte)
| VBytes (b : list byte)
| VJson (j : Json)
| VDate (n : Z)
| VTimestamp (n : Z)
| VFloat32 (f : Z)
| VFloat64 (f : Z)
| VNumeric (d : Decimal)
| VTime (n : Z)
| VUuid (u : list byte)
| VInterval (i : Interval)
| VArray (items : list Value).

Record Tuple {DEC : RustDecimal} {JS : SerdeJson} : Type := MkTuple { values : list Value }.
Arguments MkTuple {DEC JS} values.

Record Field : Type := MkField { fname : string; fty : LogicalType; nullable : bool; fdefault : option string }.

Definition Field_new (name : string) (ty : LogicalType) : Field := MkField name ty true None.

Section values.
Context {DEC : RustDecimal} {JS : SerdeJson}.

Definition is_null (v : Value) : bool := match v with VNull => true | _ => false end.

(** Signed integers of [w] bits. *)
Definition is_int (w : Z) (n : Z) : Prop := - 2 ^ (w - 1) <= n < 2 ^ (w - 1).

(** What the Rust types say of a value of a column of type [ty], with lengths a
    [u32] prefix can carry: strings are UTF-8, a JSON value survives its own
    text. *)
Fixpoint has_type (ty : LogicalType) (v : Value) : Prop :=
  match ty, v with
  | TBool, VBool _ => True
  | TInt16, VInt16 n => is_int 16 n
  | TInt32, VInt32 n | TDate, VDate n => is_int 32 n
  | TInt64, VInt64 n | TTimestamp, VTimestamp n | TTime, VTime n => is_int 64 n
  | TText, VText s => utf8_valid s = true /\ Z.of_nat (length s) <= u32_max
  | TBytes, VBytes b => Z.of_nat (length b) <= u32_max
  | TJson, VJson j => json_from_slice (json_to_vec j) = Some j /\ Z.of_nat (length (json_to_vec j)) <= u32_max
  | TFloat32, VFloat32 f => is_float f32 f
  | TFloat64, VFloat64 f => is_float f64 f
  | TNumeric, VNumeric _ => True
  | TUuid, VUuid u => length u = 16%nat
  | TInterval, VInterval i => is_int 32 (months i) /\ is_int 32 (days i) /\ is_int 64 (micros i)
  | TArray t, VArray items => Z.of_nat (length items) <= u32_max /\ Forall (has_type t) items
  | _, _ => False
  end.

(** Induction that goes through the elements of an array. *)
Lemma Value_nested_ind (P : Value -> Prop) :
  (forall v, (forall l, v <> VArray l) -> P v) -> (forall l, Forall P l -> P (VArray l)) -> forall v, P v.
Proof.
  intros Hs Ha. fix go 1. intros [| | | | | | | | | | | | | | | |l]; [apply Hs; done..|].
  apply Ha. induction l as [|v l IH]; constructor; [apply go|exact IH].
Qed.
End values.

(** ** Concrete parameters

    A decimal as a mantissa and a scale within the crate's bounds, and JSON
    texts that are their own values. *)

Module PlainDecimal.
Definition dec_ok (x : Z * Z) : Prop := Z.abs x.1 < 2 ^ 96 /\ 0 <= x.2 <= 28.
#[global] Instance dec_ok_dec x : Decision (dec_ok x).
Proof. unfold dec_ok. apply _. Defined.

Lemma zero_ok : dec_ok (0, 0).
Proof. unfold dec_ok. cbn. lia. Qed.

Definition dec : Type := dsig dec_ok.
Definition mk (x : Z * Z) : dec :=
  match decide (dec_ok x) with left H => dexist x H | right _ => dexist (0, 0) zero_ok end.

(** Drop trailing zeros of the fraction. *)
Fixpoint strip (fuel : nat) (x : Z * Z) : Z * Z :=
  match fuel with
  | S fuel' => if (0 <? x.2) && (x.1 mod 10 =? 0) then strip fuel' (x.1 / 10, x.2 - 1) else x
  | O => x
  end.

#[global] Instance plain_decimal : RustDecimal := {|
  Decimal := dec;
  d_mantissa d := (`d).1;
  d_scale d := (`d).2;
  d_normalize d := mk (strip 28 (`d));
  d_is_zero d := (`d).1 =? 0;
  d_is_sign_negative d := (`d).1 <? 0;
  d_abs d := mk (Z.abs (`d).1, (`d).2);
  d_serialize d := be_bytes 4 ((`d).2 + (if (`d).1 <? 0 then 2 ^ 31 else 0)) ++ be_bytes 12 (Z.abs (`d).1);
  d_deserialize b :=
    let f := be_value (take 4 b) in
    let m := be_value (drop 4 b) in
    mk (if 2 ^ 31 <=? f then (- m, f - 2 ^ 31) else (m, f));
  d_of_int n := mk (n, 0);
  d_to_f64 d := Some (f_div f64 (f_of_int f64 (`d).1) (f_of_int f64 (10 ^ (`d).2)));
  d_cmp a b := (`a).1 * 10 ^ (28 - (`a).2) ?= (`b).1 * 10 ^ (28 - (`b).2) |}.

Lemma mk_ok x : dec_ok x -> proj1_sig (mk x) = x.
Proof. intros H. unfold mk. by destruct (decide (dec_ok x)). Qed.

Lemma mk_self (d : dec) : mk (`d) = d.
Proof. apply dsig_eq. apply mk_ok, (proj2_dsig d). Qed.

Lemma strip_spec fuel : forall x, dec_ok x ->
  let y := strip fuel x in
  dec_ok y /\ y.1 * 10 ^ (28 - y.2) = x.1 * 10 ^ (28 - x.2) /\ (x.2 <= Z.of_nat fuel -> y.2 = 0 \/ y.1 mod 10 <> 0).
Proof.
  induction fuel as [|fuel IH]; intros [m s] [Hm Hs]; cbn [strip fst snd] in *.
  - split; [by split|]. split; [done|]. intros. left. cbn in *. lia.
  - destruct (Z.ltb_spec 0 s) as [Hpos|Hz]; cbn [andb]; [|split; [by split|]; split; [done|]; intros; left; cbn in *; lia].
    destruct (Z.eqb_spec (m mod 10) 0) as [Hd|Hd]; [|split; [by split|]; split; [done|]; by right].
    assert (Em : m = 10 * (m / 10)) by (pose proof (Z.div_mod m 10 ltac:(lia)); lia).
    destruct (IH (m / 10, s - 1)) as (Hok & Hv & Hmin); [split; cbn; lia|]. split; [done|]. split; [|cbn in Hmin; intros; apply Hmin; lia].
    rewrite Hv. cbn [fst snd]. replace (28 - (s - 1)) with (Z.succ (28 - s)) by lia. rewrite Z.pow_succ_r by lia. rewrite Em at 2. ring.
Qed.

#[global] Instance plain_decimal_ok : RustDecimalOk (DEC := plain_decimal).
Proof.
  assert (Hd : forall d : dec, dec_ok (`d)) by (intros d; apply (proj2_dsig d)).
  split; unfold d_value; cbn -[strip Z.pow Z.mul].
  - intros d. apply Hd.
  - intros d. apply Hd.
  - intros d. destruct (strip_spec 28 (`d) (Hd d)) as (H1 & H2 & _). rewrite mk_ok by exact H1. exact H2.
  - intros d. destruct (strip_spec 28 (`d) (Hd d)) as (H1 & _ & H3). rewrite mk_ok by exact H1. apply H3. apply (Hd d).
  - done.
  - done.
  - intros d. rewrite mk_ok; [done|]. destruct (Hd d). split; cbn in *; lia.
  - intros d. rewrite mk_ok; [done|]. destruct (Hd d). split; cbn in *; lia.
  - intros d. len.
  - intros d. destruct (Hd d) as [H1 H2]. rewrite take_app_exact, drop_app_exact by len.
    rewrite !be_value_be_bytes_small; [|change (256 ^ Z.of_nat 12) with (2 ^ 96); lia|change (256 ^ Z.of_nat 4) with (2 ^ 32); destruct (_ <? 0); lia].
    transitivity (mk (`d)); [|apply mk_self]. f_equal. destruct (`d) as [m s] eqn:E. cbn [fst snd] in *.
    destruct (Z.ltb_spec m 0); [rewrite (proj2 (Z.leb_le _ _)) by lia|rewrite (proj2 (Z.leb_gt _ _)) by lia]; f_equal; lia.
  - intros n Hn. rewrite mk_ok; [done|]. split; cbn; lia.
  - done.
Qed.
End PlainDecimal.

Module PlainJson.
#[global] Instance plain_json : SerdeJson := {|
  Json := list byte; json_to_vec j := j; json_from_slice := Some; json_eqb a b := bool_decide (a = b) |}.
End PlainJson.
