(* ===== verification/ValueCodec.v ===== *)
(** * The in-row codec

    storage/codec: [ValueCodec] per type, the dispatch on [Value], and
    catalog/schema.rs, which encodes a tuple as a null bitmap followed by the
    values of the other columns.  A decoder takes the unread bytes and returns
    the value with what is left. *)

From Stdlib Require Import Strings.Byte ZArith Lia.
From stdpp Require Import prelude list strings.
From S2P Require Import Prelude Utf8 Float Value.
Local Open Scope Z_scope.

Inductive DecodeError : Type :=
| UnexpectedEof
| InvalidBool (b : Z)
| InvalidUtf8
| InvalidJson
| TrailingBytes.

#[global] Instance DecodeError_eq_dec : EqDecision DecodeError.
Proof. solve_decision. Defined.

Definition decoder (A : Type) : Type := list byte -> res DecodeError (A * list byte).

Definition take (n : nat) : decoder (list byte) := fun buf =>
  if (length buf <? n)%nat then Err UnexpectedEof else Ok (list.take n buf, drop n buf).

(** Little-endian integers: [to_le_bytes], [from_le_bytes]. *)
Definition le_bytes (n : nat) (z : Z) : list byte := reverse (be_bytes n z).
Definition le_value (l : list byte) : Z := be_value (reverse l).

(** [as uN] of a signed integer and back. *)
Definition unsigned (w n : Z) : Z := n mod 2 ^ w.
Definition signed (w z : Z) : Z := if z <? 2 ^ (w - 1) then z else z - 2 ^ w.

(** ** One codec per Rust type *)

Definition bool_encode (b : bool) : list byte := [if b then x01 else x00].
Definition bool_decode : decoder bool := fun buf =>
  '(bytes, rest) ← take 1 buf;
  match bytes with
  | b :: _ =>
      if byteZ b =? 0 then Ok (false, rest)
      else if byteZ b =? 1 then Ok (true, rest)
      else Err (InvalidBool (byteZ b))
  | [] => Panic
  end.

(** [i16], [i32] and [i64] differ in their width [n], in bytes. *)
Definition int_encode (n : nat) (z : Z) : list byte := le_bytes n (unsigned (8 * Z.of_nat n) z).
Definition int_decode (n : nat) : decoder Z := fun buf =>
  '(bytes, rest) ← take n buf; Ok (signed (8 * Z.of_nat n) (le_value bytes), rest).

(** [f32] and [f64]: the bit pattern. *)
Definition float_encode (n : nat) (bits : Z) : list byte := le_bytes n bits.
Definition float_decode (n : nat) : decoder Z := fun buf =>
  '(bytes, rest) ← take n buf; Ok (le_value bytes, rest).

Definition uuid_decode : decoder (list byte) := take 16.

(** [len as u32], then the bytes. *)
Definition bytes_encode (b : list byte) : list byte := le_bytes 4 (wrap32 (Z.of_nat (length b))) ++ b.
Definition bytes_decode : decoder (list byte) := fun buf =>
  '(len_bytes, rest) ← take 4 buf; take (Z.to_nat (le_value len_bytes)) rest.
Definition string_decode : decoder (list byte) := fun buf =>
  '(bytes, rest) ← bytes_decode buf; if utf8_valid bytes then Ok (bytes, rest) else Err InvalidUtf8.

Definition interval_encode (i : Interval) : list byte :=
  int_encode 4 (months i) ++ int_encode 4 (days i) ++ int_encode 8 (micros i).
Definition interval_decode : decoder Interval := fun buf =>
  '(m, rest) ← int_decode 4 buf;
  '(d, rest) ← int_decode 4 rest;
  '(u, rest) ← int_decode 8 rest;
  Ok (MkInterval m d u, rest).

Section codec.
Context {DEC : RustDecimal} {JS : SerdeJson}.

Definition json_decode : decoder Json := fun buf =>
  '(bytes, rest) ← bytes_decode buf;
  match json_from_slice bytes with Some j => Ok (j, rest) | None => Err InvalidJson end.

Definition decimal_decode : decoder Decimal := fun buf =>
  '(bytes, rest) ← take 16 buf; Ok (d_deserialize bytes, rest).

(** [Value::encoded_size]. *)
Fixpoint encoded_size (v : Value) : nat :=
  match v with
  | VNull => 0
  | VBool _ => 1
  | VInt16 _ => 2
  | VInt32 _ | VDate _ | VFloat32 _ => 4
  | VInt64 _ | VTimestamp _ | VTime _ | VFloat64 _ => 8
  | VText b | VBytes b => 4 + length b
  | VJson j => 4 + length (json_to_vec j)
  | VNumeric _ | VUuid _ | VInterval _ => 16
  | VArray items => 4 + (fix go l := match l with [] => O | x :: l' => encoded_size x + go l' end) items
  end%nat.

(** [Value::encode]: the bytes appended; [Null] is [unreachable!]. *)
Fixpoint encode {E} (v : Value) : res E (list byte) :=
  match v with
  | VNull => Panic
  | VBool b => Ok (bool_encode b)
  | VInt16 n => Ok (int_encode 2 n)
  | VInt32 n | VDate n => Ok (int_encode 4 n)
  | VInt64 n | VTimestamp n | VTime n => Ok (int_encode 8 n)
  | VText b | VBytes b => Ok (bytes_encode b)
  | VJson j => Ok (bytes_encode (json_to_vec j))
  | VFloat32 f => Ok (float_encode 4 f)
  | VFloat64 f => Ok (float_encode 8 f)
  | VNumeric d => Ok (d_serialize d)
  | VUuid u => Ok u
  | VInterval i => Ok (interval_encode i)
  | VArray items =>
      l ← (fix go l := match l with [] => Ok [] | x :: l' => a ← encode x; b ← go l'; Ok (a ++ b) end) items;
      Ok (le_bytes 4 (wrap32 (Z.of_nat (length items))) ++ l)
  end.

(** [for _ in 0..count { items.push(Value::decode(elem, buf)?) }]. *)
Fixpoint decode_count (elem : decoder Value) (count : nat) : decoder (list Value) := fun buf =>
  match count with
  | O => Ok ([], buf)
  | S n => '(v, rest) ← elem buf; '(l, rest) ← decode_count elem n rest; Ok (v :: l, rest)
  end.

Definition tagged {A} (tag : A -> Value) (d : decoder A) : decoder Value := fun buf =>
  '(a, rest) ← d buf; Ok (tag a, rest).

(** [Value::decode]. *)
Fixpoint decode (ty : LogicalType) : decoder Value :=
  match ty with
  | TBool => tagged VBool bool_decode
  | TInt16 => tagged VInt16 (int_decode 2)
  | TInt32 => tagged VInt32 (int_decode 4)
  | TInt64 => tagged VInt64 (int_decode 8)
  | TText => tagged VText string_decode
  | TBytes => tagged VBytes bytes_decode
  | TJson => tagged VJson json_decode
  | TDate => tagged VDate (int_decode 4)
  | TTimestamp => tagged VTimestamp (int_decode 8)
  | TFloat32 => tagged VFloat32 (float_decode 4)
  | TFloat64 => tagged VFloat64 (float_decode 8)
  | TNumeric => tagged VNumeric decimal_decode
  | TTime => tagged VTime (int_decode 8)
  | TUuid => tagged VUuid uuid_decode
  | TInterval => tagged VInterval interval_decode
  | TArray elem => fun buf =>
      '(count, rest) ← take 4 buf;
      tagged VArray (decode_count (decode elem) (Z.to_nat (le_value count))) rest
  end.

(** ** Schemas *)

Record Schema : Type := MkSchema { fields : list Field }.

Definition div_ceil8 (n : nat) : nat := (n + 7) / 8.

Definition schema_encoded_size (s : Schema) (t : Tuple) : nat :=
  div_ceil8 (length (fields s)) + list_sum (encoded_size <$> values t).

(** [buf[i / 8] |= 1 << (i % 8)]. *)
Definition set_null {E} (i : nat) (buf : list byte) : res E (list byte) :=
  match buf !! (i / 8)%nat with
  | Some b => Ok (<[(i / 8)%nat := byte_of (Z.lor (byteZ b) (Z.shiftl 1 (Z.of_nat (i mod 8))))]> buf)
  | None => Panic
  end.

Fixpoint encode_columns {E} (i : nat) (vs : list Value) (buf : list byte) : res E (list byte) :=
  match vs with
  | [] => Ok buf
  | v :: vs' =>
      buf ← (if is_null v then set_null i buf else b ← encode v; Ok (buf ++ b));
      encode_columns (S i) vs' buf
  end.

Definition schema_encode {E} (s : Schema) (t : Tuple) : res E (list byte) :=
  if (length (fields s) =? length (values t))%nat
  then encode_columns 0 (values t) (replicate (div_ceil8 (length (fields s))) x00)
  else Panic.

(** [(bitmap[i / 8] >> (i % 8)) & 1 == 1]. *)
Definition null_bit (bitmap : list byte) (i : nat) : res DecodeError bool :=
  match bitmap !! (i / 8)%nat with
  | Some b => Ok (Z.land (Z.shiftr (byteZ b) (Z.of_nat (i mod 8))) 1 =? 1)
  | None => Panic
  end.

Fixpoint decode_columns (bitmap : list byte) (i : nat) (fs : list Field) : decoder (list Value) := fun cursor =>
  match fs with
  | [] => Ok ([], cursor)
  | f :: fs' =>
      null ← null_bit bitmap i;
      '(v, rest) ← (if (null : bool) then Ok (VNull, cursor) else decode (fty f) cursor);
      '(vs, rest) ← decode_columns bitmap (S i) fs' rest;
      Ok (v :: vs, rest)
  end.

Definition schema_decode (s : Schema) (bytes : list byte) : res DecodeError Tuple :=
  let bitmap_bytes := div_ceil8 (length (fields s)) in
  if (length bytes <? bitmap_bytes)%nat then Err UnexpectedEof
  else
    '(vs, cursor) ← decode_columns (list.take bitmap_bytes bytes) 0 (fields s) (drop bitmap_bytes bytes);
    match cursor with [] => Ok (MkTuple vs) | _ => Err TrailingBytes end.
End codec.

(** ** Decoders that read an encoding back

    [decodes d b a]: [d] reads [a] off [b] whatever follows, and runs out of
    input on every proper prefix of [b]. *)

Record decodes {A} (d : decoder A) (b : list byte) (a : A) : Prop := {
  dec_reads rest : d (b ++ rest) = Ok (a, rest);
  dec_cut k : (k < length b)%nat -> d (list.take k b) = Err UnexpectedEof }.

Lemma decodes_take n b : length b = n -> decodes (take n) b b.
Proof.
  intros <-. split.
  - intros rest. unfold take. rewrite length_app, (proj2 (Nat.ltb_ge _ _)) by lia. by rewrite take_app_length, drop_app_length.
  - intros k Hk. unfold take. rewrite length_take. by rewrite (proj2 (Nat.ltb_lt _ _)) by lia.
Qed.

(** Sequencing, and a final step that reads nothing. *)
Lemma decodes_bind {A B} (d : decoder A) (f : A -> decoder B) b1 b2 a x :
  decodes d b1 a -> decodes (f a) b2 x -> decodes (fun buf => '(y, rest) ← d buf; f y rest) (b1 ++ b2) x.
Proof.
  intros [R1 C1] [R2 C2]. split.
  - intros rest. by rewrite <- app_assoc, R1, bind_Ok.
  - intros k Hk. rewrite length_app in Hk. destruct (Nat.lt_ge_cases k (length b1)) as [H|H].
    + by rewrite take_app_le, C1 by lia.
    + rewrite take_app_ge, R1, bind_Ok by lia. apply C2. lia.
Qed.

Lemma decodes_map {A B} (d : decoder A) (f : A -> list byte -> res DecodeError (B * list byte)) b a x :
  decodes d b a -> (forall rest, f a rest = Ok (x, rest)) -> decodes (fun buf => '(y, rest) ← d buf; f y rest) b x.
Proof. intros [R C] H. split; [intros rest; by rewrite R, bind_Ok|]. intros k Hk. by rewrite C. Qed.

Section round_trips.
Context {DEC : RustDecimal} {JS : SerdeJson} {DECok : RustDecimalOk}.

Lemma decodes_tagged {A} (tag : A -> Value) d b a : decodes d b a -> decodes (tagged tag d) b (tag a).
Proof. intros H. by apply (decodes_map d _ b a). Qed.

Lemma length_le_bytes n z : length (le_bytes n z) = n.
Proof. unfold le_bytes. by rewrite length_reverse, length_be_bytes. Qed.

Lemma le_value_le_bytes n z : 0 <= z < 256 ^ Z.of_nat n -> le_value (le_bytes n z) = z.
Proof. intros H. unfold le_value, le_bytes. rewrite reverse_involutive. by apply be_value_be_bytes_small. Qed.

Lemma le_count (z : Z) : 0 <= z <= u32_max -> le_value (le_bytes 4 (wrap32 z)) = z.
Proof.
  intros H. unfold wrap32. rewrite Z.mod_small by ulia. apply le_value_le_bytes.
  change (256 ^ Z.of_nat 4) with (2 ^ 32). ulia.
Qed.

Lemma signed_unsigned w n : 0 < w -> is_int w n -> signed w (unsigned w n) = n.
Proof.
  intros Hw [H1 H2]. assert (E : 2 ^ w = 2 * 2 ^ (w - 1)) by (rewrite <- Z.pow_succ_r by lia; f_equal; lia).
  unfold signed, unsigned. destruct (Z.lt_ge_cases n 0).
  - replace (n mod 2 ^ w) with (n + 2 ^ w); [|symmetry; rewrite <- (Z.mod_add n 1) by lia; rewrite Z.mod_small; lia].
    rewrite (proj2 (Z.ltb_ge _ _)) by lia. lia.
  - rewrite Z.mod_small by lia. by rewrite (proj2 (Z.ltb_lt _ _)) by lia.
Qed.

Lemma decodes_int n z : (0 < n)%nat -> is_int (8 * Z.of_nat n) z -> decodes (int_decode n) (int_encode n z) z.
Proof.
  intros Hn H. unfold int_encode. eapply decodes_map; [apply decodes_take, length_le_bytes|]. intros rest. do 3 f_equal.
  rewrite le_value_le_bytes; [apply signed_unsigned; [lia|done]|]. unfold unsigned.
  replace (256 ^ Z.of_nat n) with (2 ^ (8 * Z.of_nat n)) by (by rewrite Z.pow_mul_r by lia).
  apply Z.mod_pos_bound, Z.pow_pos_nonneg; lia.
Qed.

Lemma decodes_float n f : 0 <= f < 256 ^ Z.of_nat n -> decodes (float_decode n) (float_encode n f) f.
Proof.
  intros H. unfold float_encode. eapply decodes_map; [apply decodes_take, length_le_bytes|]. intros rest. do 3 f_equal. by apply le_value_le_bytes.
Qed.

Lemma decodes_bool b : decodes bool_decode (bool_encode b) b.
Proof. eapply decodes_map; [by apply decodes_take|]. by destruct b. Qed.

Lemma decodes_bytes b : Z.of_nat (length b) <= u32_max -> decodes bytes_decode (bytes_encode b) b.
Proof.
  intros H. eapply (decodes_bind (take 4)); [apply decodes_take, length_le_bytes|]. cbn beta.
  rewrite le_count by lia. rewrite Nat2Z.id. by apply decodes_take.
Qed.

Lemma decodes_interval i :
  is_int 32 (months i) -> is_int 32 (days i) -> is_int 64 (micros i) -> decodes interval_decode (interval_encode i) i.
Proof.
  intros H1 H2 H3. apply (decodes_bind (int_decode 4) _ _ _ (months i)); [by apply decodes_int; [lia|]|].
  apply (decodes_bind (int_decode 4) _ _ _ (days i)); [by apply decodes_int; [lia|]|].
  apply (decodes_map (int_decode 8) _ _ (micros i)); [by apply decodes_int; [lia|]|]. by destruct i.
Qed.

(** The encodings of an array's elements, back to back. *)
Definition encode_items {E} : list Value -> res E (list byte) :=
  fix go l := match l with [] => Ok [] | x :: l' => a ← encode x; b ← go l'; Ok (a ++ b) end.
Definition items_size : list Value -> nat :=
  fix go l := match l with [] => O | x :: l' => encoded_size x + go l' end%nat.

Lemma decodes_count {E} (d : decoder Value) l :
  Forall (fun v => exists b, encode (E := E) v = Ok b /\ length b = encoded_size v /\ decodes d b v) l ->
  exists b, encode_items (E := E) l = Ok b /\ length b = items_size l /\ decodes (decode_count d (length l)) b l.
Proof.
  induction 1 as [|v l (b & E1 & L1 & D1) _ (bs & E2 & L2 & D2)]; [exists []; split; [done|]; split; [done|]; split; [done|]; cbn; lia|].
  exists (b ++ bs). cbn [encode_items items_size length]. fold (@encode_items E). fold items_size. rewrite E1, bind_Ok, E2, bind_Ok.
  split; [done|]. split; [rewrite length_app; lia|]. apply (decodes_bind d _ b bs v); [done|].
  apply (decodes_map (decode_count d (length l)) _ bs l); done.
Qed.

(** Every well-typed value decodes to itself, in [encoded_size] bytes. *)
Lemma value_decodes {E} ty : forall v, has_type ty v ->
  exists b, encode (E := E) v = Ok b /\ length b = encoded_size v /\ decodes (decode ty) b v.
Proof using DECok.
  induction ty; intros v H; destruct v; cbn [has_type] in H; try done; cbn [encode encoded_size decode];
    try (eexists; split; [reflexivity|]; split; [|apply decodes_tagged]).
  all: try (unfold int_encode, float_encode; apply length_le_bytes).
  all: try (apply decodes_int; [lia|exact H]).
  all: try (apply decodes_float; exact H).
  all: try (unfold bytes_encode; rewrite length_app, length_le_bytes; lia).
  - done.
  - apply decodes_bool.
  - destruct H as [Hu Hl]. apply (decodes_map bytes_decode _ _ s); [by apply decodes_bytes|]. intros rest. by rewrite Hu.
  - by apply decodes_bytes.
  - destruct H as [Hj Hl]. apply (decodes_map bytes_decode _ _ (json_to_vec j)); [by apply decodes_bytes|]. intros rest. by rewrite Hj.
  - apply d_serialize_length.
  - apply (decodes_map (take 16) _ _ (d_serialize d)); [apply decodes_take, d_serialize_length|].
    intros rest. by rewrite d_deserialize_serialize.
  - done.
  - by apply decodes_take.
  - by unfold interval_encode, int_encode; rewrite !length_app, !length_le_bytes.
  - destruct H as (? & ? & ?). by apply decodes_interval.
  - destruct H as [Hl Hf]. destruct (decodes_count (E := E) (decode ty) items) as (b & Eb & Lb & Db).
    { eapply Forall_impl; [exact Hf|]. exact IHty. }
    unfold encode_items in Eb. rewrite Eb, bind_Ok. eexists. split; [reflexivity|].
    split; [rewrite length_app, length_le_bytes; unfold items_size in Lb; lia|].
    eapply (decodes_bind (take 4)); [apply decodes_take, length_le_bytes|]. cbn beta. rewrite le_count by lia. rewrite Nat2Z.id.
    by apply decodes_tagged.
Qed.

(** ** Rows *)

Definition column_ok (f : Field) (v : Value) : Prop := is_null v = true \/ has_type (fty f) v.

(** The payload a row's columns append. *)
Fixpoint payload {E} (vs : list Value) : res E (list byte) :=
  match vs with
  | [] => Ok []
  | v :: vs' => b ← (if is_null v then Ok [] else encode v); bs ← payload vs'; Ok (b ++ bs)
  end.

(** Bit [i] of a bitmap. *)
Definition bit (bm : list byte) (i : nat) : bool :=
  match bm !! (i / 8)%nat with Some b => Z.testbit (byteZ b) (Z.of_nat (i mod 8)) | None => false end.

Lemma lor_bit_byte b k : (k < 8)%nat -> 0 <= Z.lor (byteZ b) (Z.shiftl 1 (Z.of_nat k)) < 256.
Proof.
  intros Hk. pose proof (byteZ_range b) as Hb. rewrite Z.shiftl_1_l. split; [apply Z.lor_nonneg; split; [lia|apply Z.pow_nonneg; lia]|].
  change 256 with (2 ^ 8). apply Z.log2_lt_cancel. rewrite Z.log2_lor by (try apply Z.pow_nonneg; lia).
  rewrite (Z.log2_pow2 8), (Z.log2_pow2 (Z.of_nat k)) by lia. apply Z.max_lub_lt; [|lia].
  destruct (Z.eq_dec (byteZ b) 0) as [->|]; [by cbn|]. apply Z.log2_lt_pow2; [lia|]. change (2 ^ 8) with 256. lia.
Qed.

Lemma set_null_ok {E} (bm rest : list byte) i :
  (i / 8 < length bm)%nat ->
  exists bm', set_null (E := E) i (bm ++ rest) = Ok (bm' ++ rest) /\ length bm' = length bm
    /\ forall j, bit bm' j = if decide (j = i) then true else bit bm j.
Proof.
  intros Hi. destruct (lookup_lt_is_Some_2 bm (i / 8) Hi) as [b Eb]. unfold set_null. rewrite lookup_app_l, Eb by lia.
  set (b' := byte_of _). exists (<[(i / 8)%nat := b']> bm). rewrite insert_app_l by lia. split; [done|].
  split; [apply length_insert|]. intros j. unfold bit. pose proof (Nat.mod_upper_bound i 8 ltac:(lia)) as Hm.
  pose proof (Nat.mod_upper_bound j 8 ltac:(lia)) as Hmj.
  assert (Hbit : Z.testbit (byteZ b') (Z.of_nat (j mod 8)) = Z.testbit (byteZ b) (Z.of_nat (j mod 8)) || (i mod 8 =? j mod 8)%nat).
  { unfold b'. rewrite byteZ_byte_of, Z.mod_small by (by apply lor_bit_byte). rewrite Z.lor_spec, Z.shiftl_1_l, Z.pow2_bits_eqb by lia.
    f_equal. destruct (Z.eqb_spec (Z.of_nat (i mod 8)) (Z.of_nat (j mod 8))), (Nat.eqb_spec (i mod 8) (j mod 8)); lia. }
  destruct (decide (i / 8 = j / 8)%nat) as [Ed|Ed].
  - rewrite <- Ed, list_lookup_insert_eq, Eb, Hbit by lia.
    pose proof (Nat.div_mod_eq i 8). pose proof (Nat.div_mod_eq j 8).
    case_decide as Hj; [subst; by rewrite Nat.eqb_refl, orb_true_r|].
    destruct (Nat.eqb_spec (i mod 8) (j mod 8)); [lia|]. by rewrite orb_false_r.
  - rewrite list_lookup_insert_ne by done. rewrite decide_False; [done|]. by intros ->.
Qed.

(** What [encode]'s loop leaves: the null bits set, the payload appended. *)
Lemma encode_columns_ok {E} vs : forall i (bm pl p : list byte),
  (forall j, (i <= j < i + length vs)%nat -> (j / 8 < length bm)%nat) -> (forall j, (i <= j)%nat -> bit bm j = false) ->
  payload (E := E) vs = Ok p ->
  exists bm', encode_columns (E := E) i vs (bm ++ pl) = Ok (bm' ++ pl ++ p) /\ length bm' = length bm
    /\ (forall j, (j < i)%nat -> bit bm' j = bit bm j)
    /\ forall j v, vs !! j = Some v -> bit bm' (i + j) = is_null v.
Proof.
  induction vs as [|v vs IH]; intros i bm pl p Hlen Hz; cbn [payload encode_columns].
  { intros [= <-]. exists bm. rewrite app_nil_r. split; [done|]. split; [done|]. split; [done|]. intros j v. by rewrite lookup_nil. }
  cbn [length] in Hlen. destruct (is_null v) eqn:Hv.
  - rewrite bind_Ok. destruct (payload vs) as [p'| |] eqn:Ep; cbn; [intros [= <-]|done..].
    destruct (set_null_ok (E := E) bm pl i) as (bm1 & -> & L1 & B1); [apply Hlen; lia|]. cbn.
    destruct (IH (S i) bm1 pl p') as (bm' & -> & L & Blow & B); [..|exists bm'].
    { intros j Hj. rewrite L1. apply Hlen. lia. }
    { intros j Hj. rewrite B1. rewrite decide_False by lia. apply Hz. lia. }
    { done. }
    split; [done|]. split; [congruence|]. split.
    + intros j Hj. rewrite Blow, B1 by lia. by rewrite decide_False by lia.
    + intros [|j] w Hw; cbn in Hw.
      * injection Hw as <-. rewrite Nat.add_0_r, Blow, B1, decide_True by lia. done.
      * rewrite <- Nat.add_succ_comm. by apply B.
  - destruct (encode v) as [b| |]; cbn; [|done..]. destruct (payload vs) as [p'| |] eqn:Ep; cbn; [intros [= <-]|done..].
    destruct (IH (S i) bm (pl ++ b) p') as (bm' & E' & L & Blow & B); [..|exists bm'].
    { intros j Hj. apply Hlen. lia. }
    { intros j Hj. apply Hz. lia. }
    { done. }
    rewrite <- (app_assoc bm), E', <- app_assoc. split; [done|]. split; [done|]. split; [intros j Hj; by rewrite Blow by lia|].
    intros [|j] w Hw; cbn in Hw.
    + injection Hw as <-. rewrite Nat.add_0_r, Blow, Hz, Hv by lia. done.
    + rewrite <- Nat.add_succ_comm. by apply B.
Qed.

Lemma null_bit_ok bm i : (i / 8 < length bm)%nat -> null_bit bm i = Ok (bit bm i).
Proof.
  intros Hi. destruct (lookup_lt_is_Some_2 bm (i / 8) Hi) as [b Eb]. unfold null_bit, bit. rewrite Eb. f_equal.
  change 1 with (Z.ones 1) at 1. rewrite Z.land_ones, Z.shiftr_div_pow2 by lia. change (2 ^ 1) with 2.
  rewrite <- Z.testbit_spec' by lia. by destruct (Z.testbit _ _).
Qed.

(** Decoding the columns of a well-typed row, and any cut of its payload. *)
Lemma decode_columns_ok {E} bm fs vs : Forall2 column_ok fs vs -> forall i,
  (forall j v, vs !! j = Some v -> (((i + j) / 8 < length bm)%nat /\ bit bm (i + j) = is_null v)) ->
  exists p, payload (E := E) vs = Ok p /\ length p = list_sum (encoded_size <$> vs) /\ decodes (decode_columns bm i fs) p vs.
Proof using DECok.
  induction 1 as [|f v fs vs Hc Hcs IH]; intros i Hb.
  { exists []. split; [done|]. split; [done|]. split; [done|]. cbn. lia. }
  destruct (IH (S i)) as (p & Ep & Lp & Dp). { intros j w Hj. rewrite Nat.add_succ_comm. by apply Hb. }
  destruct (Hb 0%nat v eq_refl) as [Hi Hbit]. rewrite Nat.add_0_r in Hi, Hbit. cbn [payload]. rewrite Ep.
  assert (Hn : forall cursor, decode_columns bm i (f :: fs) cursor
            = '(w, rest) ← (if is_null v then Ok (VNull, cursor) else decode (fty f) cursor);
              '(ws, rest) ← decode_columns bm (S i) fs rest; Ok (w :: ws, rest)).
  { intros cursor. cbn [decode_columns]. by rewrite null_bit_ok, bind_Ok, Hbit by done. }
  cbn [fmap list_fmap list_sum foldr]. destruct (is_null v) eqn:Hv.
  - exists p. destruct v; try done. rewrite !bind_Ok. split; [done|]. split; [done|]. destruct Dp as [R C]. split.
    + intros rest. by rewrite Hn, bind_Ok, R.
    + intros k Hk. by rewrite Hn, bind_Ok, C.
  - destruct Hc as [|Hty]; [congruence|]. destruct (value_decodes (E := E) _ _ Hty) as (b & Eb & Lb & Db).
    exists (b ++ p). rewrite Eb, bind_Ok, bind_Ok. split; [done|]. split; [rewrite length_app; cbn; unfold list_sum in Lp; lia|].
    assert (D : decodes (fun cursor => '(w, rest) ← decode (fty f) cursor; '(ws, rest) ← decode_columns bm (S i) fs rest; Ok (w :: ws, rest))
                  (b ++ p) (v :: vs)).
    { apply (decodes_bind (decode (fty f)) _ b p v); [done|]. by apply (decodes_map (decode_columns bm (S i) fs) _ p vs). }
    destruct D as [R C]. split; [intros rest|intros k Hk]; rewrite Hn; [apply R|by apply C].
Qed.

(** The bytes of a well-typed row: bitmap and payload. *)
Lemma schema_encode_ok {E} s t :
  Forall2 column_ok (fields s) (values t) ->
  exists bm p, schema_encode (E := E) s t = Ok (bm ++ p) /\ length bm = div_ceil8 (length (fields s))
    /\ length (bm ++ p) = schema_encoded_size s t /\ decodes (decode_columns bm 0 (fields s)) p (values t).
Proof using DECok.
  intros H. pose proof (Forall2_length _ _ _ H) as Hl. set (n := div_ceil8 (length (fields s))).
  assert (Hn : forall j, (j < length (values t))%nat -> (j / 8 < n)%nat).
  { intros j Hj. unfold n, div_ceil8. apply Nat.Div0.div_lt_upper_bound. pose proof (Nat.div_mod_eq (length (fields s) + 7) 8).
    pose proof (Nat.mod_upper_bound (length (fields s) + 7) 8). lia. }
  assert (Hz : forall j, bit (replicate n x00) j = false).
  { intros j. unfold bit. destruct (replicate n x00 !! (j / 8)%nat) as [b|] eqn:Eb; [|done].
    apply lookup_replicate in Eb as [-> _]. apply Z.bits_0. }
  assert (Hp : exists p, payload (E := E) (values t) = Ok p).
  { clear -H DECok. induction H as [|f v fs vs Hc _ [p IH]]; [by exists []|]. cbn [payload]. rewrite IH.
    destruct (is_null v) eqn:Hv; [by exists p|]. destruct Hc as [|Hty]; [congruence|].
    destruct (value_decodes (E := E) _ _ Hty) as (b & -> & _). by exists (b ++ p). }
  destruct Hp as [p Ep]. destruct (encode_columns_ok (E := E) (values t) 0 (replicate n x00) [] p) as (bm & E1 & Lbm & _ & B).
  { intros j Hj. rewrite length_replicate. apply Hn. lia. }
  { intros j _. apply Hz. }
  { done. }
  rewrite app_nil_r, app_nil_l in E1. rewrite length_replicate in Lbm.
  destruct (decode_columns_ok (E := E) bm _ _ H 0) as (p' & Ep' & Lp & D).
  { intros j v Hj. pose proof (lookup_lt_Some _ _ _ Hj). split; [rewrite Lbm; apply Hn; cbn; lia|]. by apply B. }
  rewrite Ep in Ep'. injection Ep' as <-. exists bm, p. unfold schema_encode. rewrite Hl, Nat.eqb_refl. rewrite <- Hl. fold n.
  split; [exact E1|]. split; [done|]. split; [unfold schema_encoded_size; fold n; rewrite length_app; lia|done].
Qed.

Lemma schema_decode_cursor s bm p x rest :
  length bm = div_ceil8 (length (fields s)) -> decodes (decode_columns bm 0 (fields s)) p x ->
  schema_decode s (bm ++ p ++ rest) = match rest with [] => Ok (MkTuple x) | _ => Err TrailingBytes end.
Proof.
  intros Hl [R _]. unfold schema_decode. rewrite length_app, (proj2 (Nat.ltb_ge _ _)) by lia.
  rewrite take_app_exact, drop_app_exact, R by done. by rewrite bind_Ok.
Qed.

(** C33: rows round-trip, and damage to their length is noticed.  Encoding a
    tuple whose columns are null or of their field's type takes exactly
    [encoded_size] bytes and decodes to the tuple; every proper prefix of the
    encoding decodes to [UnexpectedEof], and anything appended to it to
    [TrailingBytes]. *)
Theorem row_round_trip (s : Schema) (t : Tuple) :
  Forall2 column_ok (fields s) (values t) ->
  exists b, schema_encode (E := DecodeError) s t = Ok b /\ length b = schema_encoded_size s t
    /\ schema_decode s b = Ok t
    /\ (forall k, (k < length b)%nat -> schema_decode s (list.take k b) = Err UnexpectedEof)
    /\ (forall x rest, schema_decode s (b ++ x :: rest) = Err TrailingBytes).
Proof using DECok.
  intros H. destruct (schema_encode_ok (E := DecodeError) s t H) as (bm & p & E1 & Lb & L & D). exists (bm ++ p).
  split; [done|]. split; [done|]. split; [|split].
  - rewrite <- (app_nil_r p), (schema_decode_cursor s bm p (values t)) by done. by destruct t.
  - intros k Hk. unfold schema_decode. rewrite length_take. destruct (Nat.ltb_spec (min k (length (bm ++ p))) (div_ceil8 (length (fields s)))) as [|Hge]; [done|].
    rewrite length_app in Hk, Hge. rewrite take_app_ge by lia. rewrite take_app_exact, drop_app_exact by done.
    by rewrite (dec_cut _ _ _ D) by lia.
  - intros x rest. by rewrite <- app_assoc, (schema_decode_cursor s bm p (values t)).
Qed.
End round_trips.

(** ** On a concrete row *)

Section witness.
Import PlainDecimal PlainJson.

Definition demo_schema : Schema := MkSchema
  [Field_new "id" TInt64; Field_new "name" TText; Field_new "note" TText; Field_new "price" TNumeric; Field_new "tags" (TArray TInt16)].
Definition demo_row : Tuple := MkTuple
  [VInt64 (-7); VText [xce; xbb]; VNull; VNumeric (mk (1234, 2)); VArray [VInt16 1; VInt16 (-1)]].

Lemma demo_row_ok : Forall2 column_ok (fields demo_schema) (values demo_row).
Proof.
  repeat (apply Forall2_cons; split); [| | | | |by apply Forall2_nil]; unfold column_ok; [right|right|by left|by right|right]; cbn.
  - unfold is_int. lia.
  - split; [done|ulia].
  - split; [ulia|]. repeat (apply Forall_cons; split); [unfold is_int; lia..|by apply Forall_nil].
Qed.

Lemma row_round_trip_witness :
  exists b, schema_encode (E := DecodeError) demo_schema demo_row = Ok b /\ length b = 39%nat /\ schema_decode demo_schema b = Ok demo_row
    /\ schema_decode demo_schema (list.take 38 b) = Err UnexpectedEof.
Proof.
  destruct (row_round_trip demo_schema demo_row demo_row_ok) as (b & E & L & D & C & _).
  exists b. split; [exact E|]. split; [exact L|]. split; [exact D|]. apply C. rewrite L. vm_compute. lia.
Defined.

(** An array with a null element has no encoding: the code panics. *)
Example null_element_panics :
  schema_encode (E := DecodeError) (MkSchema [Field_new "tags" (TArray TInt16)]) (MkTuple [VArray [VNull]]) = Panic.
Proof. reflexivity. Qed.
End witness.
