(* ===== verification/Compare.v ===== *)
(** * Query errors and the comparison of values

    query/mod.rs's [QueryError], and the comparisons of query/expression:
    [values_eq] for [=], [cmp_values] for the ordered operators, both with
    numeric coercion. *)

From Stdlib Require Import Strings.Byte ZArith Lia.
From stdpp Require Import prelude list strings.
From S2P Require Import Prelude Utf8 Float Value ValueCodec Engine.
Local Open Scope Z_scope.

Inductive ResourceKind : Type := KProject | KDataset | KTable.

Inductive CatalogError : Type :=
| NotFound (kind : ResourceKind) (name : list byte)
| AlreadyExists (kind : ResourceKind) (name : list byte)
| TruncationExhausted (name : list byte).

(** Texts are kept as their literal part. *)
Inductive QueryError : Type :=
| QCatalog (e : CatalogError)
| QStorage (e : StorageError)
| QDecode (e : ValueCodec.DecodeError)
| QSerde
| QParse
| QUnsupported (what : string)
| QType (what : string)
| QInternal (what : string).

Section compare.
Context {DEC : RustDecimal} {JS : SerdeJson}.

Definition as_i64 (v : Value) : option Z :=
  match v with VInt16 n | VInt32 n | VInt64 n => Some n | _ => None end.

Definition as_decimal (v : Value) : option Decimal :=
  match v with
  | VInt16 n | VInt32 n | VInt64 n => Some (d_of_int n)
  | VNumeric d => Some d
  | _ => None
  end.

Definition as_f64 (v : Value) : option Z :=
  match v with
  | VInt16 n | VInt32 n | VInt64 n => Some (f_of_int f64 n)
  | VFloat32 f => Some (f32_to_f64 f)
  | VFloat64 f => Some f
  | VNumeric d => d_to_f64 d
  | _ => None
  end.

Definition cmp_is_eq (c : comparison) : bool := match c with Eq => true | _ => false end.

(** [a == b] of two decimals. *)
Definition d_eqb (a b : Decimal) : bool := cmp_is_eq (d_cmp a b).

(** The derived [PartialEq] of [Value]. *)
Fixpoint value_eqb (a b : Value) : bool :=
  match a, b with
  | VNull, VNull => true
  | VBool x, VBool y => Bool.eqb x y
  | VInt16 x, VInt16 y | VInt32 x, VInt32 y | VInt64 x, VInt64 y
  | VDate x, VDate y | VTimestamp x, VTimestamp y | VTime x, VTime y => x =? y
  | VText x, VText y | VBytes x, VBytes y | VUuid x, VUuid y => bool_decide (x = y)
  | VJson x, VJson y => json_eqb x y
  | VFloat32 x, VFloat32 y => f_eqb f32 x y
  | VFloat64 x, VFloat64 y => f_eqb f64 x y
  | VNumeric x, VNumeric y => d_eqb x y
  | VInterval x, VInterval y => bool_decide (x = y)
  | VArray x, VArray y =>
      (fix go x y := match x, y with [], [] => true | a :: x', b :: y' => value_eqb a b && go x' y' | _, _ => false end) x y
  | _, _ => false
  end.

Fixpoint values_eq (l r : Value) : bool :=
  match as_i64 l, as_i64 r with
  | Some a, Some b => a =? b
  | _, _ =>
      match as_decimal l, as_decimal r with
      | Some a, Some b => d_eqb a b
      | _, _ =>
          match as_f64 l, as_f64 r with
          | Some a, Some b => cmp_is_eq (total_cmp f64 a b)
          | _, _ =>
              match l, r with
              | VInterval a, VInterval b => to_micros a =? to_micros b
              | VArray a, VArray b =>
                  (length a =? length b)%nat
                  && (fix go a b := match a, b with x :: a', y :: b' => values_eq x y && go a' b' | _, _ => true end) a b
              | _, _ => value_eqb l r
              end
          end
      end
  end.

Definition bool_cmp (a b : bool) : comparison := Z.b2z a ?= Z.b2z b.

Fixpoint cmp_values (l r : Value) : res QueryError comparison :=
  match as_i64 l, as_i64 r with
  | Some a, Some b => Ok (a ?= b)
  | _, _ =>
      match as_decimal l, as_decimal r with
      | Some a, Some b => Ok (d_cmp a b)
      | _, _ =>
          match as_f64 l, as_f64 r with
          | Some a, Some b => Ok (total_cmp f64 a b)
          | _, _ =>
              match l, r with
              | VBool a, VBool b => Ok (bool_cmp a b)
              | VText a, VText b => Ok (bytes_cmp a b)
              | VDate a, VDate b | VTimestamp a, VTimestamp b | VTime a, VTime b => Ok (a ?= b)
              | VUuid a, VUuid b => Ok (bytes_cmp a b)
              | VInterval a, VInterval b => Ok (to_micros a ?= to_micros b)
              | VArray a, VArray b =>
                  (fix go a b :=
                     match a, b with
                     | x :: a', y :: b' => c ← cmp_values x y; match c with Eq => go a' b' | _ => Ok c end
                     | _, _ => Ok (length a ?= length b)%nat
                     end) a b
              | _, _ => Err (QType "cannot compare")
              end
          end
      end
  end.

End compare.
