(* ===== verification/KeyCodec.v ===== *)
(** * The storage-key codec

    [KeyCodec] of storage/codec: an encoding of values whose byte order is the
    order of the values.  Signed integers flip the sign bit, floats apply the
    IEEE total-order transform, decimals are a sign tag, an exponent and
    base-100 digits. *)

From Stdlib Require Import Strings.Byte ZArith Lia.
From stdpp Require Import prelude list strings.
From S2P Require Import Prelude Utf8 Float Value ValueCodec Compare.
Local Open Scope Z_scope.

Inductive KeyEncodeError : Type := NullKey.

(** [((self as uN) ^ (1 << (N - 1))).to_be_bytes()], [n] bytes. *)
Definition int_key (n : nat) (z : Z) : list byte :=
  let w := 8 * Z.of_nat n in be_bytes n (Z.lxor (unsigned w z) (Z.shiftl 1 (w - 1))).

(** [let mask = (bits >> (N - 1)).wrapping_neg() | (1 << (N - 1))]. *)
Definition float_key (n : nat) (bits : Z) : list byte :=
  let w := 8 * Z.of_nat n in
  let mask := Z.lor ((- Z.shiftr bits (w - 1)) mod 2 ^ w) (Z.shiftl 1 (w - 1)) in
  be_bytes n (Z.lxor bits mask).

Definition interval_key (i : Interval) : list byte :=
  be_bytes 16 (Z.lxor (unsigned 128 (to_micros i)) (Z.shiftl 1 127)).

(** ** Decimals *)

Definition DEC_NEG : byte := x03.
Definition DEC_ZERO : byte := x04.
Definition DEC_POS : byte := x05.

(** The decimal digits of a positive integer, as [to_string] prints them. *)
Fixpoint digits_go (fuel : nat) (n : Z) (acc : list Z) : list Z :=
  match fuel with
  | O => acc
  | S fuel' => if n <? 10 then n :: acc else digits_go fuel' (n / 10) (n mod 10 :: acc)
  end.
Definition dec_digits (n : Z) : list Z := digits_go (S (Z.to_nat (Z.log2 n))) n [].

(** Digits in pairs, an odd tail padded with a zero: [cent + 1]. *)
Fixpoint cents (ds : list Z) : list Z :=
  match ds with
  | a :: b :: ds' => a * 10 + b + 1 :: cents ds'
  | [a] => [a * 10 + 1]
  | [] => []
  end.

(** [!b] on a byte. *)
Definition byte_not (b : byte) : byte := byte_of (Z.lxor (byteZ b) 255).

Section keys.
Context {DEC : RustDecimal} {JS : SerdeJson}.

Definition decimal_payload (a : Decimal) : list byte :=
  let digits := dec_digits (d_mantissa a) in
  let exponent := Z.of_nat (length digits) - d_scale a in
  byte_of (Z.lxor (exponent mod 256) 128) :: (byte_of <$> cents digits) ++ [x00].

Definition decimal_key (d : Decimal) : list byte :=
  let d := d_normalize d in
  if d_is_zero d then [DEC_ZERO]
  else
    let payload := decimal_payload (d_abs d) in
    if d_is_sign_negative d then DEC_NEG :: (byte_not <$> payload) else DEC_POS :: payload.

(** [Value::encode_key]. *)
Fixpoint encode_key (v : Value) : res KeyEncodeError (list byte) :=
  match v with
  | VNull => Err NullKey
  | VBool b => Ok [if b then x01 else x00]
  | VInt16 n => Ok (int_key 2 n)
  | VInt32 n | VDate n => Ok (int_key 4 n)
  | VInt64 n | VTimestamp n | VTime n => Ok (int_key 8 n)
  | VText b | VBytes b | VUuid b => Ok b
  | VJson j => Ok (json_to_vec j)
  | VFloat32 f => Ok (float_key 4 f)
  | VFloat64 f => Ok (float_key 8 f)
  | VNumeric d => Ok (decimal_key d)
  | VInterval i => Ok (interval_key i)
  | VArray items =>
      (fix go l := match l with [] => Ok [] | x :: l' => a ← encode_key x; b ← go l'; Ok (a ++ b) end) items
  end.
End keys.

(** ** Byte order of fixed-width keys *)

Lemma bytes_cmp_app a b x y : length a = length b ->
  bytes_cmp (a ++ x) (b ++ y) = match bytes_cmp a b with Eq => bytes_cmp x y | c => c end.
Proof.
  revert b. induction a as [|p a IH]; intros [|q b] H; cbn in *; try done.
  destruct (byteZ p ?= byteZ q); [|done..]. apply IH. lia.
Qed.

Lemma bytes_cmp_be n a b :
  0 <= a < 256 ^ Z.of_nat n -> 0 <= b < 256 ^ Z.of_nat n -> bytes_cmp (be_bytes n a) (be_bytes n b) = (a ?= b).
Proof.
  revert a b. induction n as [|n IH]; intros a b Ha Hb.
  { change (256 ^ Z.of_nat 0) with 1 in *. by replace a with b by lia; rewrite Z.compare_refl. }
  rewrite Nat2Z.inj_succ, Z.pow_succ_r in Ha, Hb by lia. pose proof (pow256_pos n) as HP. set (P := 256 ^ Z.of_nat n) in *.
  unfold be_bytes; fold be_bytes. cbn [bytes_cmp]. fold P. rewrite !byteZ_byte_of.
  assert (Qa : 0 <= a / P < 256) by (split; [apply Z.div_pos; lia|apply Z.div_lt_upper_bound; lia]).
  assert (Qb : 0 <= b / P < 256) by (split; [apply Z.div_pos; lia|apply Z.div_lt_upper_bound; lia]).
  rewrite !Z.mod_small by lia. pose proof (Z.div_mod a P ltac:(lia)) as Da. pose proof (Z.div_mod b P ltac:(lia)) as Db.
  pose proof (Z.mod_pos_bound a P HP) as Ma. pose proof (Z.mod_pos_bound b P HP) as Mb.
  rewrite <- (be_bytes_mod n a n), <- (be_bytes_mod n b n) by lia. fold P. rewrite IH by done.
  destruct (Z.compare_spec (a / P) (b / P)) as [E|E|E]; symmetry.
  - destruct (Z.compare_spec (a mod P) (b mod P)) as [E'|E'|E']; [apply Z.compare_eq_iff|apply Z.compare_lt_iff|apply Z.compare_gt_iff]; nia.
  - apply Z.compare_lt_iff. nia.
  - apply Z.compare_gt_iff. nia.
Qed.

(** Flipping the top bit, and flipping every bit. *)
Lemma lxor_top w x : 0 < w -> 0 <= x < 2 ^ w -> Z.lxor x (2 ^ (w - 1)) = if x <? 2 ^ (w - 1) then x + 2 ^ (w - 1) else x - 2 ^ (w - 1).
Proof.
  intros Hw Hx. assert (E : 2 ^ w = 2 * 2 ^ (w - 1)) by (rewrite <- Z.pow_succ_r by lia; f_equal; lia).
  assert (Hlow : forall y, 0 <= y < 2 ^ (w - 1) -> Z.lxor y (2 ^ (w - 1)) = y + 2 ^ (w - 1)).
  { intros y Hy. rewrite <- Z.add_nocarry_lxor; [done|]. apply Z.bits_inj'. intros k Hk. rewrite Z.land_spec, Z.bits_0, Z.pow2_bits_eqb by lia.
    destruct (Z.eqb_spec (w - 1) k) as [<-|]; [|by rewrite andb_false_r]. rewrite andb_true_r.
    destruct (Z.eq_dec y 0) as [->|]; [apply Z.bits_0|]. apply Z.bits_above_log2; [lia|]. apply Z.log2_lt_pow2; lia. }
  destruct (Z.ltb_spec x (2 ^ (w - 1))); [apply Hlow; lia|].
  replace x with (Z.lxor (x - 2 ^ (w - 1)) (2 ^ (w - 1))) at 1 by (rewrite Hlow by lia; lia).
  by rewrite Z.lxor_assoc, Z.lxor_nilpotent, Z.lxor_0_r.
Qed.

Lemma lxor_ones w x : 0 <= w -> 0 <= x < 2 ^ w -> Z.lxor x (2 ^ w - 1) = 2 ^ w - 1 - x.
Proof.
  intros Hw Hx. replace (2 ^ w - 1) with (Z.ones w) by (rewrite Z.ones_equiv; lia).
  assert (Hsum : Z.lxor x (Z.ones w) + x = Z.ones w); [|lia].
  assert (Hx' : Z.land x (Z.ones w) = x) by (rewrite Z.land_ones, Z.mod_small; lia).
  rewrite Z.add_nocarry_lxor.
  - by rewrite Z.lxor_comm, <- Z.lxor_assoc, Z.lxor_nilpotent, Z.lxor_0_l.
  - apply Z.bits_inj'. intros k Hk. rewrite Z.land_spec, Z.lxor_spec, Z.bits_0. rewrite <- Hx' at 2. rewrite Z.land_spec.
    by destruct (Z.testbit x k), (Z.testbit (Z.ones w) k).
Qed.

(** A signed integer's key is the integer moved up by half the range. *)
Lemma sign_flip w n : 0 < w -> is_int w n -> Z.lxor (unsigned w n) (Z.shiftl 1 (w - 1)) = n + 2 ^ (w - 1).
Proof.
  intros Hw [H1 H2]. assert (E : 2 ^ w = 2 * 2 ^ (w - 1)) by (rewrite <- Z.pow_succ_r by lia; f_equal; lia).
  rewrite Z.shiftl_1_l. unfold unsigned. rewrite lxor_top by (try apply Z.mod_pos_bound; lia). destruct (Z.lt_ge_cases n 0).
  - replace (n mod 2 ^ w) with (n + 2 ^ w); [|symmetry; rewrite <- (Z.mod_add n 1) by lia; rewrite Z.mod_small; lia].
    rewrite (proj2 (Z.ltb_ge _ _)) by lia. lia.
  - rewrite Z.mod_small by lia. by rewrite (proj2 (Z.ltb_lt _ _)) by lia.
Qed.

Lemma pow256_bits n : 256 ^ Z.of_nat n = 2 ^ (8 * Z.of_nat n).
Proof. rewrite Z.pow_mul_r by lia. done. Qed.

(** Keys that are an order-preserving map into [[0, 2^w)], big-endian. *)
Lemma shifted_key_cmp n (f : Z -> Z) (g : Z -> Z) a b :
  (forall x y, (f x ?= f y) = (g x ?= g y)) -> 0 <= f a < 2 ^ (8 * Z.of_nat n) -> 0 <= f b < 2 ^ (8 * Z.of_nat n) ->
  bytes_cmp (be_bytes n (f a)) (be_bytes n (f b)) = (g a ?= g b).
Proof. intros Hfg Ha Hb. rewrite bytes_cmp_be by (by rewrite pow256_bits). apply Hfg. Qed.

Lemma compare_add_r x y c : (x + c ?= y + c) = (x ?= y).
Proof. rewrite !(Z.add_comm _ c). apply Z.add_compare_mono_l. Qed.

Lemma int_key_cmp n a b :
  (0 < n)%nat -> is_int (8 * Z.of_nat n) a -> is_int (8 * Z.of_nat n) b -> bytes_cmp (int_key n a) (int_key n b) = (a ?= b).
Proof.
  intros Hn Ha Hb. unfold int_key. cbn zeta. rewrite !sign_flip by (done || lia). set (w := 8 * Z.of_nat n) in *.
  assert (E : 2 ^ w = 2 * 2 ^ (w - 1)) by (rewrite <- Z.pow_succ_r by lia; f_equal; lia).
  unfold is_int in Ha, Hb. apply (shifted_key_cmp n (fun x => x + 2 ^ (w - 1)) (fun x => x)); fold w; [intros; apply compare_add_r|lia..].
Qed.

Lemma to_micros_bound i : is_int 32 (months i) -> is_int 32 (days i) -> is_int 64 (micros i) -> is_int 128 (to_micros i).
Proof. unfold is_int, to_micros. cbn zeta. lia. Qed.

Lemma interval_key_cmp a b :
  is_int 128 (to_micros a) -> is_int 128 (to_micros b) -> bytes_cmp (interval_key a) (interval_key b) = (to_micros a ?= to_micros b).
Proof. intros Ha Hb. exact (int_key_cmp 16 (to_micros a) (to_micros b) ltac:(lia) Ha Hb). Qed.

(** The float transform is [total_key] moved up by half the range. *)
Lemma float_key_total (F : FloatFormat) n b :
  8 * Z.of_nat n = mant F + expo F + 1 -> 0 < mant F -> 0 < expo F -> is_float F b ->
  float_key n b = be_bytes n (total_key F b + sign_bit F).
Proof.
  intros Hw Hm He Hb. unfold float_key. cbn zeta. set (w := 8 * Z.of_nat n) in *. rewrite Z.shiftl_1_l.
  assert (Es : sign_bit F = 2 ^ (w - 1)) by (unfold sign_bit; f_equal; lia).
  assert (E : 2 ^ w = 2 * 2 ^ (w - 1)) by (rewrite <- Z.pow_succ_r by lia; f_equal; lia).
  unfold is_float in Hb. rewrite Es in Hb. rewrite Z.shiftr_div_pow2 by lia. f_equal. unfold total_key, f_mag, f_neg. rewrite Es.
  assert (HP : 0 < 2 ^ (w - 1)) by (apply Z.pow_pos_nonneg; lia).
  destruct (Z.leb_spec (2 ^ (w - 1)) b) as [Hneg|Hpos].
  - replace (b / 2 ^ (w - 1)) with 1 by (apply (Z.div_unique b (2 ^ (w - 1)) 1 (b - 2 ^ (w - 1))); lia).
    change (- (1)) with (-1). replace ((-1) mod 2 ^ w) with (2 ^ w - 1) by (symmetry; rewrite <- (Z.mod_add (-1) 1) by lia; rewrite Z.mod_small; lia).
    replace (Z.lor (2 ^ w - 1) (2 ^ (w - 1))) with (2 ^ w - 1); [rewrite lxor_ones; lia|].
    symmetry. replace (2 ^ w - 1) with (Z.ones w) by (rewrite Z.ones_equiv; lia). apply Z.bits_inj'. intros k Hk.
    rewrite Z.lor_spec, Z.pow2_bits_eqb by lia. destruct (Z.eqb_spec (w - 1) k) as [<-|]; [|apply orb_false_r].
    rewrite Z.ones_spec_low by lia. done.
  - replace (b / 2 ^ (w - 1)) with 0 by (symmetry; apply Z.div_small; lia). change (- 0) with 0. rewrite Z.mod_0_l, Z.lor_0_l by lia.
    rewrite lxor_top by lia. by rewrite (proj2 (Z.ltb_lt _ _)) by lia.
Qed.

Lemma float_key_cmp (F : FloatFormat) n a b :
  8 * Z.of_nat n = mant F + expo F + 1 -> 0 < mant F -> 0 < expo F -> is_float F a -> is_float F b ->
  bytes_cmp (float_key n a) (float_key n b) = total_cmp F a b.
Proof.
  intros Hw Hm He Ha Hb. rewrite !(float_key_total F) by done. unfold total_cmp.
  assert (E : 2 ^ (8 * Z.of_nat n) = 2 * sign_bit F).
  { unfold sign_bit. rewrite <- Z.pow_succ_r by lia. f_equal. lia. }
  assert (Hb0 : forall x, is_float F x -> 0 <= total_key F x + sign_bit F < 2 ^ (8 * Z.of_nat n)).
  { intros x Hx. pose proof (f_mag_bound F Hm He x Hx) as B. unfold total_key, f_mag in *. destruct (f_neg F x) eqn:Nx; [lia|].
    unfold is_float in Hx. unfold f_neg in Nx. apply Z.leb_gt in Nx. lia. }
  apply (shifted_key_cmp n (fun x => total_key F x + sign_bit F) (total_key F)); [intros; apply compare_add_r|by apply Hb0..].
Qed.

(** ** Byte order of decimal keys *)

Definition dval (ds : list Z) : Z := foldl (fun a d => a * 10 + d) 0 ds.
Definition digit (d : Z) : Prop := 0 <= d < 10.

Lemma foldl_dval acc ds : foldl (fun a d => a * 10 + d) acc ds = acc * 10 ^ Z.of_nat (length ds) + dval ds.
Proof.
  unfold dval. revert acc. induction ds as [|d ds IH]; intros acc; cbn [foldl length].
  - change (10 ^ Z.of_nat 0) with 1. lia.
  - rewrite IH, (IH (0 * 10 + d)), Nat2Z.inj_succ, Z.pow_succ_r by lia. ring.
Qed.

Lemma dval_cons d ds : dval (d :: ds) = d * 10 ^ Z.of_nat (length ds) + dval ds.
Proof. unfold dval at 1. cbn [foldl]. rewrite foldl_dval. ring. Qed.

Lemma pow10_pos n : 0 < 10 ^ Z.of_nat n.
Proof. apply Z.pow_pos_nonneg; lia. Qed.

Lemma dval_bound ds : Forall digit ds -> 0 <= dval ds < 10 ^ Z.of_nat (length ds).
Proof.
  induction 1 as [|d ds Hd _ IH]; [split; [done|reflexivity]|]. rewrite dval_cons. cbn [length]. rewrite Nat2Z.inj_succ, Z.pow_succ_r by lia.
  unfold digit in Hd. nia.
Qed.

Lemma digits_go_spec fuel : forall n acc, 1 <= n < 2 ^ Z.of_nat fuel ->
  exists ds, digits_go fuel n acc = ds ++ acc /\ Forall digit ds /\ dval ds = n /\ (1 <= length ds)%nat
    /\ 10 ^ (Z.of_nat (length ds) - 1) <= n.
Proof.
  induction fuel as [|fuel IH]; intros n acc Hn; [change (2 ^ Z.of_nat 0) with 1 in Hn; lia|]. cbn [digits_go].
  destruct (Z.ltb_spec n 10) as [Hs|Hs].
  - exists [n]. split; [done|]. split; [repeat constructor; lia|]. split; [unfold dval; cbn; lia|]. split; [done|]. cbn. lia.
  - rewrite Nat2Z.inj_succ, Z.pow_succ_r in Hn by lia. pose proof (Z.div_mod n 10 ltac:(lia)) as Dn. pose proof (Z.mod_pos_bound n 10 ltac:(lia)) as Mn.
    destruct (IH (n / 10) (n mod 10 :: acc)) as (ds & E & Hd & Hv & Hl & Hp); [lia|].
    exists (ds ++ [n mod 10]). rewrite E, <- app_assoc. split; [done|]. split; [apply Forall_app; split; [done|]; repeat constructor; lia|].
    split; [unfold dval; rewrite foldl_app; fold (dval ds); rewrite Hv; cbn; lia|]. rewrite length_app. cbn [length]. split; [lia|].
    replace (Z.of_nat (length ds + 1) - 1) with (Z.succ (Z.of_nat (length ds) - 1)) by lia. rewrite Z.pow_succ_r by lia. lia.
Qed.

Lemma dec_digits_spec n : 1 <= n ->
  Forall digit (dec_digits n) /\ dval (dec_digits n) = n /\ (1 <= length (dec_digits n))%nat
  /\ 10 ^ (Z.of_nat (length (dec_digits n)) - 1) <= n < 10 ^ Z.of_nat (length (dec_digits n)).
Proof.
  intros Hn. unfold dec_digits. destruct (digits_go_spec (S (Z.to_nat (Z.log2 n))) n []) as (ds & E & Hd & Hv & Hl & Hp).
  - split; [done|]. rewrite Nat2Z.inj_succ, Z2Nat.id by apply Z.log2_nonneg. apply Z.log2_spec. lia.
  - rewrite E, app_nil_r. split; [done|]. split; [done|]. split; [done|]. split; [done|]. rewrite <- Hv at 1. by apply dval_bound.
Qed.

(** Cents as a base-100 fraction with [n] places. *)
Fixpoint cfrac (n : nat) (l : list Z) : Z :=
  match n, l with
  | S n', c :: l' => (c - 1) * 100 ^ Z.of_nat n' + cfrac n' l'
  | _, _ => 0
  end.

Definition cent (c : Z) : Prop := 1 <= c <= 100.

Lemma cfrac_bound n : forall l, Forall cent l -> 0 <= cfrac n l < 100 ^ Z.of_nat n.
Proof.
  induction n as [|n IH]; intros l Hl; [cbn; lia|]. rewrite Nat2Z.inj_succ, Z.pow_succ_r by lia.
  assert (HP : 0 < 100 ^ Z.of_nat n) by (apply Z.pow_pos_nonneg; lia). destruct Hl as [|c l Hc Hl]; cbn [cfrac]; [lia|].
  specialize (IH l Hl). unfold cent in Hc. nia.
Qed.

Lemma cents_ind (P : list Z -> Prop) : P [] -> (forall a, P [a]) -> (forall a b l, P l -> P (a :: b :: l)) -> forall l, P l.
Proof. intros H0 H1 H2. fix go 1. intros [|a [|b l]]; [done|apply H1|apply H2, go]. Qed.

Lemma cents_cent ds : Forall digit ds -> Forall cent (cents ds).
Proof.
  induction ds as [|a|a b ds IH] using cents_ind; intros H; cbn [cents]; [constructor|..].
  - inversion H as [|? ? Ha]; subst. unfold digit in Ha. repeat constructor; lia.
  - inversion H as [|? ? Ha Hr]; subst. inversion Hr as [|? ? Hb Hd]; subst. unfold digit in Ha, Hb. constructor; [unfold cent; lia|by apply IH].
Qed.

Lemma length_cents ds : (2 * length (cents ds) <= length ds + 1)%nat.
Proof. induction ds as [|a|a b ds IH] using cents_ind; cbn in *; lia. Qed.

Lemma cfrac_cents ds : forall n, (length (cents ds) <= n)%nat -> cfrac n (cents ds) * 10 ^ Z.of_nat (length ds) = dval ds * 100 ^ Z.of_nat n.
Proof.
  induction ds as [|a|a b ds IH] using cents_ind; intros n Hn.
  - cbn [cents]. destruct n; cbn [cfrac]; unfold dval; cbn [foldl]; lia.
  - cbn [cents length] in *. destruct n as [|n]; [lia|]. cbn [cfrac]. rewrite (Nat2Z.inj_succ n), Z.pow_succ_r by lia.
    replace (cfrac n []) with 0 by (by destruct n). change (10 ^ Z.of_nat 1) with 10. unfold dval. cbn [foldl]. ring.
  - cbn [cents length] in *. destruct n as [|n]; [lia|]. cbn [cfrac]. specialize (IH n ltac:(lia)).
    rewrite !dval_cons. cbn [length]. rewrite !Nat2Z.inj_succ, !Z.pow_succ_r by lia. nia.
Qed.

(** Terminated cents compare as their fractions do, up to trailing zeros. *)
Definition terminated (l : list Z) : list byte := (byte_of <$> l) ++ [x00].

Lemma terminated_cmp a b : Forall cent a -> Forall cent b ->
  (bytes_cmp (terminated a) (terminated b) = Eq -> a = b)
  /\ (bytes_cmp (terminated a) (terminated b) = Gt -> forall n, (length a <= n)%nat -> (length b <= n)%nat -> cfrac n b <= cfrac n a)
  /\ bytes_cmp (byte_not <$> terminated a) (byte_not <$> terminated b) = bytes_cmp (terminated b) (terminated a).
Proof.
  assert (Hz : forall c, cent c -> byteZ (byte_of c) = c) by (intros c [? ?]; rewrite byteZ_byte_of, Z.mod_small; lia).
  assert (Hnot : forall x, byteZ (byte_not x) = 255 - byteZ x).
  { intros x. pose proof (byteZ_range x). unfold byte_not. rewrite (lxor_ones 8) by (cbn; lia). rewrite byteZ_byte_of, Z.mod_small by (cbn; lia). done. }
  assert (H0 : byteZ x00 = 0) by reflexivity.
  intros Ha. revert b. induction Ha as [|x a Hx Ha IH]; intros b Hb; destruct Hb as [|y b Hy Hb]; unfold terminated; cbn [fmap list_fmap app bytes_cmp];
    rewrite ?Hnot, ?Hz, ?H0 by done; unfold cent in *.
  - split; [done|]. split; done.
  - rewrite (proj2 (Z.compare_lt_iff 0 y)) by lia. split; [done|]. split; [done|].
    rewrite (proj2 (Z.compare_gt_iff (255 - 0) (255 - y))), (proj2 (Z.compare_gt_iff y 0)) by lia. done.
  - rewrite (proj2 (Z.compare_gt_iff x 0)) by lia. split; [done|]. split.
    + intros _ n Hn _. replace (cfrac n []) with 0 by (by destruct n). apply cfrac_bound. by constructor.
    + rewrite (proj2 (Z.compare_lt_iff (255 - x) (255 - 0))), (proj2 (Z.compare_lt_iff 0 x)) by lia. done.
  - destruct (IH b Hb) as (I1 & I2 & I3). unfold terminated in I1, I2, I3.
    assert (Hflip : (255 - x ?= 255 - y) = (y ?= x)).
    { destruct (Z.compare_spec y x); [apply Z.compare_eq_iff|apply Z.compare_lt_iff|apply Z.compare_gt_iff]; lia. }
    rewrite Hflip, (Z.compare_antisym x y). destruct (Z.compare_spec x y) as [->|Hlt|Hgt]; cbn [CompOpp].
    + split; [intros E; f_equal; by apply I1|]. split; [|exact I3]. intros E [|n] Hn Hm; [cbn in *; lia|]. cbn [cfrac length] in *.
      specialize (I2 E n ltac:(lia) ltac:(lia)). lia.
    + split; [done|]. split; done.
    + split; [done|]. split; [|done]. intros _ [|n] Hn Hm; [cbn in *; lia|]. cbn [cfrac].
      pose proof (cfrac_bound n a Ha). pose proof (cfrac_bound n b Hb). nia.
Qed.

Section decimal_order.
Context {DEC : RustDecimal} {DECok : RustDecimalOk}.

(** A positive decimal with no trailing zeros in its fraction. *)
Record plain (d : Decimal) : Prop := {
  plain_pos : 1 <= d_mantissa d;
  plain_min : d_scale d = 0 \/ d_mantissa d mod 10 <> 0 }.

Definition d_exponent (d : Decimal) : Z := Z.of_nat (length (dec_digits (d_mantissa d))) - d_scale d.

Lemma exponent_bounds d : plain d ->
  (1 <= length (dec_digits (d_mantissa d)) <= 29)%nat /\ - 27 <= d_exponent d <= 29
  /\ 10 ^ (d_exponent d + 27) <= d_value d < 10 ^ (d_exponent d + 28).
Proof using DECok.
  intros [Hp _]. destruct (dec_digits_spec (d_mantissa d) Hp) as (_ & _ & Hl & Hlo & Hhi). pose proof (d_scale_bound d) as Hs.
  pose proof (d_mantissa_bound d) as Hm. set (k := length (dec_digits (d_mantissa d))) in *. unfold d_exponent, d_value. fold k.
  assert (Hk : (k <= 29)%nat).
  { apply Nat.nlt_ge. intros Hgt. assert (10 ^ 29 <= 10 ^ (Z.of_nat k - 1)) by (apply Z.pow_le_mono_r; lia). lia. }
  assert (HQ : 0 < 10 ^ (28 - d_scale d)) by (apply Z.pow_pos_nonneg; lia).
  split; [lia|]. split; [lia|]. replace (Z.of_nat k - d_scale d + 27) with ((Z.of_nat k - 1) + (28 - d_scale d)) by lia.
  replace (Z.of_nat k - d_scale d + 28) with (Z.of_nat k + (28 - d_scale d)) by lia. rewrite !Z.pow_add_r by lia. nia.
Qed.

(** Such a decimal is determined by its value. *)
Lemma plain_unique a b : plain a -> plain b -> d_value a = d_value b -> d_mantissa a = d_mantissa b /\ d_scale a = d_scale b.
Proof using DECok.
  assert (Hlt : forall x y, plain x -> plain y -> d_value x = d_value y -> d_scale x < d_scale y -> False).
  { intros x y [Hx _] [_ Hy] E Hs. unfold d_value in E. pose proof (d_scale_bound x). pose proof (d_scale_bound y).
    replace (28 - d_scale x) with ((d_scale y - d_scale x - 1) + 1 + (28 - d_scale y)) in E by lia.
    rewrite !Z.pow_add_r in E by lia. change (10 ^ 1) with 10 in E.
    assert (HP : 0 < 10 ^ (28 - d_scale y)) by (apply Z.pow_pos_nonneg; lia).
    assert (E' : d_mantissa y = d_mantissa x * 10 ^ (d_scale y - d_scale x - 1) * 10) by nia.
    destruct Hy as [?|Hy]; [lia|]. apply Hy. rewrite E'. apply Z.mod_mul. lia. }
  intros Ha Hb E. assert (Es : d_scale a = d_scale b).
  { destruct (Z.lt_trichotomy (d_scale a) (d_scale b)) as [H|[H|H]]; [exfalso; by apply (Hlt a b)|done|exfalso; by apply (Hlt b a)]. }
  split; [|done]. unfold d_value in E. rewrite Es in E. pose proof (d_scale_bound b).
  assert (HP : 0 < 10 ^ (28 - d_scale b)) by (apply Z.pow_pos_nonneg; lia). nia.
Qed.

Lemma exp_byte e : - 128 <= e < 128 -> byteZ (byte_of (Z.lxor (e mod 256) 128)) = e + 128.
Proof.
  intros H. pose proof (sign_flip 8 e ltac:(lia) ltac:(unfold is_int; lia)) as Hf. unfold unsigned in Hf.
  change (Z.shiftl 1 (8 - 1)) with 128 in Hf. change (2 ^ 8) with 256 in Hf. change (2 ^ (8 - 1)) with 128 in Hf.
  rewrite Hf, byteZ_byte_of, Z.mod_small; lia.
Qed.

Lemma payload_eq d : decimal_payload d = byte_of (Z.lxor (d_exponent d mod 256) 128) :: terminated (cents (dec_digits (d_mantissa d))).
Proof. reflexivity. Qed.

Lemma byte_not_Z x : byteZ (byte_not x) = 255 - byteZ x.
Proof.
  pose proof (byteZ_range x). unfold byte_not. rewrite (lxor_ones 8) by (cbn; lia). rewrite byteZ_byte_of, Z.mod_small by (cbn; lia). done.
Qed.

(** Payloads compare as the values; complemented, the other way round. *)
Lemma payload_cmp a b : plain a -> plain b ->
  bytes_cmp (decimal_payload a) (decimal_payload b) = (d_value a ?= d_value b)
  /\ bytes_cmp (byte_not <$> decimal_payload a) (byte_not <$> decimal_payload b) = (d_value b ?= d_value a).
Proof using DECok.
  intros Ha Hb. destruct (exponent_bounds a Ha) as (Ka & Xa & Va). destruct (exponent_bounds b Hb) as (Kb & Xb & Vb).
  destruct (dec_digits_spec _ (plain_pos a Ha)) as (Da & Na & _). destruct (dec_digits_spec _ (plain_pos b Hb)) as (Db & Nb & _).
  pose proof (terminated_cmp _ _ (cents_cent _ Da) (cents_cent _ Db)) as (T1 & T2 & T3).
  pose proof (terminated_cmp _ _ (cents_cent _ Db) (cents_cent _ Da)) as (_ & S2 & _).
  rewrite !payload_eq. cbn [bytes_cmp fmap list_fmap]. rewrite !byte_not_Z, !exp_byte by lia.
  assert (Hflip : (255 - (d_exponent a + 128) ?= 255 - (d_exponent b + 128)) = (d_exponent b ?= d_exponent a)).
  { destruct (Z.compare_spec (d_exponent b) (d_exponent a)); [apply Z.compare_eq_iff|apply Z.compare_lt_iff|apply Z.compare_gt_iff]; lia. }
  rewrite Hflip, compare_add_r, (Z.compare_antisym (d_exponent a) (d_exponent b)).
  destruct (Z.compare_spec (d_exponent a) (d_exponent b)) as [Ee|Elt|Egt]; cbn [CompOpp].
  - (* the same exponent: compare the fractions, 15 cents each *)
    assert (Hfr : forall d, plain d -> (1 <= length (dec_digits (d_mantissa d)) <= 29)%nat ->
              (length (cents (dec_digits (d_mantissa d))) <= 15)%nat
              /\ cfrac 15 (cents (dec_digits (d_mantissa d))) * 10 ^ (d_exponent d + 28) = d_value d * 100 ^ 15).
    { intros d Hd Hk. pose proof (length_cents (dec_digits (d_mantissa d))) as Hc. split; [lia|].
      pose proof (cfrac_cents (dec_digits (d_mantissa d)) 15 ltac:(lia)) as Hf. destruct (dec_digits_spec _ (plain_pos d Hd)) as (_ & Hv & _).
      rewrite Hv in Hf. unfold d_exponent, d_value. pose proof (d_scale_bound d).
      replace (Z.of_nat (length (dec_digits (d_mantissa d))) - d_scale d + 28) with (Z.of_nat (length (dec_digits (d_mantissa d))) + (28 - d_scale d)) by lia.
      rewrite Z.pow_add_r by lia. rewrite Z.mul_assoc, Hf. change (Z.of_nat 15) with 15. ring. }
    destruct (Hfr a Ha Ka) as [La Fa], (Hfr b Hb Kb) as [Lb Fb]. rewrite <- Ee in Fb. clear Hfr.
    assert (HP : 0 < 10 ^ (d_exponent a + 28)) by (apply Z.pow_pos_nonneg; lia). assert (HC : 0 < 100 ^ 15) by (by vm_compute).
    assert (Hiff : bytes_cmp (terminated (cents (dec_digits (d_mantissa a)))) (terminated (cents (dec_digits (d_mantissa b)))) = (d_value a ?= d_value b)).
    { destruct (Z.compare_spec (d_value a) (d_value b)) as [E|E|E].
      - destruct (plain_unique a b Ha Hb E) as [-> _]. by apply bytes_cmp_eq.
      - destruct (bytes_cmp _ _) eqn:Ec; [|done|].
        + rewrite (T1 eq_refl) in Fa. nia.
        + specialize (T2 eq_refl 15%nat La Lb). nia.
      - destruct (bytes_cmp _ _) eqn:Ec; [| |done].
        + rewrite (T1 eq_refl) in Fa. nia.
        + apply (cmp_gt_lt bytes_cmp) in Ec. specialize (S2 Ec 15%nat Lb La). nia. }
    split; [exact Hiff|]. rewrite T3, (cmp_sym bytes_cmp (terminated (cents (dec_digits (d_mantissa a))))), Hiff. symmetry. apply Z.compare_antisym.
  - assert (10 ^ (d_exponent a + 28) <= 10 ^ (d_exponent b + 27)) by (apply Z.pow_le_mono_r; lia).
    split; symmetry; [apply Z.compare_lt_iff|apply Z.compare_gt_iff]; lia.
  - assert (10 ^ (d_exponent b + 28) <= 10 ^ (d_exponent a + 27)) by (apply Z.pow_le_mono_r; lia).
    split; symmetry; [apply Z.compare_gt_iff|apply Z.compare_lt_iff]; lia.
Qed.

(** The three buckets a decimal can be in, by its normal form. *)
Lemma decimal_key_cases d :
  (decimal_key d = [DEC_ZERO] /\ d_value d = 0)
  \/ (exists p, plain p /\ decimal_key d = DEC_POS :: decimal_payload p /\ d_value d = d_value p /\ 0 < d_value d)
  \/ (exists p, plain p /\ decimal_key d = DEC_NEG :: (byte_not <$> decimal_payload p) /\ d_value d = - d_value p /\ d_value d < 0).
Proof using DECok.
  unfold decimal_key. cbn zeta. pose proof (d_normalize_value d) as Hv. pose proof (d_normalize_minimal d) as Hmin.
  set (n := d_normalize d) in *. rewrite d_is_zero_spec. pose proof (d_scale_bound n) as Hs.
  assert (HP : 0 < 10 ^ (28 - d_scale n)) by (apply Z.pow_pos_nonneg; lia). rewrite <- Hv. unfold d_value.
  destruct (Z.eqb_spec (d_mantissa n) 0) as [E|E]; [left; split; [done|]; rewrite E; lia|]. right.
  rewrite d_is_sign_negative_spec by done.
  assert (Hplain : plain (d_abs n)).
  { split; rewrite d_abs_mantissa; [lia|]. rewrite d_abs_scale. destruct Hmin as [|Hmin]; [by left|right].
    intros H. apply Hmin. destruct (Z.abs_eq_or_opp (d_mantissa n)) as [Ea|Ea]; rewrite Ea in H; [done|].
    apply Z.mod_divide in H; [|lia]. apply Z.mod_divide; [lia|]. exact (proj1 (Z.divide_opp_r _ _) H). }
  destruct (Z.ltb_spec (d_mantissa n) 0) as [Hneg|Hpos]; [right|left]; exists (d_abs n); rewrite d_abs_mantissa, d_abs_scale;
    (split; [done|]; split; [done|]; split; nia).
Qed.

Lemma decimal_key_cmp a b : bytes_cmp (decimal_key a) (decimal_key b) = d_cmp a b.
Proof using DECok.
  rewrite d_cmp_spec.
  destruct (decimal_key_cases a) as [(-> & Va)|[(p & Hp & -> & Va & Sa)|(p & Hp & -> & Va & Sa)]],
           (decimal_key_cases b) as [(-> & Vb)|[(q & Hq & -> & Vb & Sb)|(q & Hq & -> & Vb & Sb)]]; cbn [bytes_cmp].
  - by rewrite Va, Vb.
  - symmetry. apply Z.compare_lt_iff. lia.
  - symmetry. apply Z.compare_gt_iff. lia.
  - symmetry. apply Z.compare_gt_iff. lia.
  - rewrite Z.compare_refl, Va, Vb. exact (proj1 (payload_cmp p q Hp Hq)).
  - symmetry. apply Z.compare_gt_iff. lia.
  - symmetry. apply Z.compare_lt_iff. lia.
  - symmetry. apply Z.compare_lt_iff. lia.
  - rewrite Z.compare_refl. rewrite (proj2 (payload_cmp p q Hp Hq)), Va, Vb. symmetry. apply Z.compare_opp.
Qed.
End decimal_order.

(** ** Keys order as the values do *)

(** The width of the keys of a type, where it is fixed. *)
Definition key_width (ty : LogicalType) : option nat :=
  match ty with
  | TBool => Some 1%nat
  | TInt16 => Some 2%nat
  | TInt32 | TDate | TFloat32 => Some 4%nat
  | TInt64 | TTimestamp | TTime | TFloat64 => Some 8%nat
  | TUuid | TInterval => Some 16%nat
  | TText | TBytes | TJson | TNumeric | TArray _ => None
  end.

(** The types [cmp_values] orders; arrays need elements of one key width. *)
Definition orderable (ty : LogicalType) : bool :=
  match ty with
  | TBytes | TJson => false
  | TArray t => bool_decide (is_Some (key_width t))
  | _ => true
  end.

Section order.
Context {DEC : RustDecimal} {JS : SerdeJson} {DECok : RustDecimalOk}.

(** Well-typed; an [f32] is not a NaN, whose bits a cast to [f64] may change. *)
Fixpoint comparable (ty : LogicalType) (v : Value) : Prop :=
  has_type ty v /\
  match ty, v with
  | TFloat32, VFloat32 f => f_is_nan f32 f = false
  | TArray t, VArray items => Forall (comparable t) items
  | _, _ => True
  end.

Lemma comparable_type ty v : comparable ty v -> has_type ty v.
Proof. destruct ty; by intros [H _]. Qed.

Lemma Zeqb_cmp a b : (a =? b) = cmp_is_eq (a ?= b).
Proof. destruct (Z.eqb_spec a b) as [->|H]; [by rewrite Z.compare_refl|]. destruct (Z.compare_spec a b); done. Qed.

Lemma bytes_eq_cmp (a b : list byte) : bool_decide (a = b) = cmp_is_eq (bytes_cmp a b).
Proof.
  case_bool_decide as H; [subst; by rewrite (cmp_refl bytes_cmp)|]. destruct (bytes_cmp a b) eqn:E; [|done..].
  by apply bytes_cmp_eq in E.
Qed.

(** One pair of keys that decides the comparison of two values. *)
Definition keyed (ty : LogicalType) (v w : Value) : Prop :=
  exists kv kw, encode_key v = Ok kv /\ encode_key w = Ok kw
    /\ cmp_values v w = Ok (bytes_cmp kv kw) /\ values_eq v w = cmp_is_eq (bytes_cmp kv kw)
    /\ forall n, key_width ty = Some n -> length kv = n /\ length kw = n.

(** Two keys of fixed width, or none. *)
Lemma keyed_intro ty v w kv kw c :
  encode_key v = Ok kv -> encode_key w = Ok kw -> bytes_cmp kv kw = c -> cmp_values v w = Ok c -> values_eq v w = cmp_is_eq c ->
  (forall n, key_width ty = Some n -> length kv = n /\ length kw = n) -> keyed ty v w.
Proof. intros Ev Ew <- Hc He Hw. by exists kv, kw. Qed.

Ltac key_case tac :=
  eapply keyed_intro; [reflexivity|reflexivity|tac|reflexivity| |];
  [try reflexivity; apply Zeqb_cmp || apply bytes_eq_cmp | intros ? [= <-]; split; apply length_be_bytes].

Lemma scalar_keyed ty v w :
  orderable ty = true -> (forall t, ty <> TArray t) -> comparable ty v -> comparable ty w -> keyed ty v w.
Proof using DECok.
  intros Ho Hna Hv Hw. pose proof (comparable_type _ _ Hv) as Tv. pose proof (comparable_type _ _ Hw) as Tw.
  destruct ty; try done; try (by destruct (Hna ty)); destruct v, w; try done; cbn [has_type] in Tv, Tw.
  - eapply keyed_intro; [reflexivity..| | |]; [by destruct b, b0..|by intros ? [= <-]].
  - key_case ltac:(apply (int_key_cmp 2); [lia|done|done]).
  - key_case ltac:(apply (int_key_cmp 4); [lia|done|done]).
  - key_case ltac:(apply (int_key_cmp 8); [lia|done|done]).
  - eapply keyed_intro; [reflexivity..| |done]. apply bytes_eq_cmp.
  - key_case ltac:(apply (int_key_cmp 4); [lia|done|done]).
  - key_case ltac:(apply (int_key_cmp 8); [lia|done|done]).
  - destruct Hv as [_ Nv], Hw as [_ Nw]. destruct (f32_total f f0 Tv Tw Nv Nw) as [Ec _].
    eapply keyed_intro; [reflexivity|reflexivity|by apply (float_key_cmp f32)| | |intros ? [= <-]; split; apply length_be_bytes].
    + cbn. by rewrite Ec.
    + cbn. by rewrite Ec.
  - eapply keyed_intro; [reflexivity|reflexivity|by apply (float_key_cmp f64)|reflexivity|reflexivity|intros ? [= <-]; split; apply length_be_bytes].
  - eapply keyed_intro; [reflexivity|reflexivity|apply decimal_key_cmp|reflexivity|reflexivity|done].
  - key_case ltac:(apply (int_key_cmp 8); [lia|done|done]).
  - eapply keyed_intro; [reflexivity..| |by intros ? [= <-]]. apply bytes_eq_cmp.
  - destruct Tv as (? & ? & ?), Tw as (? & ? & ?). key_case ltac:(apply interval_key_cmp; by apply to_micros_bound).
Qed.

(** The loops of [encode_key], [cmp_values] and [values_eq] over elements. *)
Definition keys_of : list Value -> res KeyEncodeError (list byte) :=
  fix go l := match l with [] => Ok [] | x :: l' => a ← encode_key x; b ← go l'; Ok (a ++ b) end.
Definition cmp_items : list Value -> list Value -> res QueryError comparison :=
  fix go a b :=
    match a, b with
    | x :: a', y :: b' => c ← cmp_values x y; match c with Eq => go a' b' | _ => Ok c end
    | _, _ => Ok (length a ?= length b)%nat
    end.
Definition eq_items : list Value -> list Value -> bool :=
  fix go a b := match a, b with x :: a', y :: b' => values_eq x y && go a' b' | _, _ => true end.

Lemma keys_of_length t n l : key_width t = Some n -> Forall (comparable t) l ->
  orderable t = true -> (forall t', t <> TArray t') ->
  exists k, keys_of l = Ok k /\ length k = (n * length l)%nat.
Proof using DECok.
  intros Hn Hl Ho Hna. induction Hl as [|v l Hv _ (k & IH & Lk)]; [exists []; cbn; split; [done|lia]|].
  destruct (scalar_keyed t v v Ho Hna Hv Hv) as (kv & kw & Ev & _ & _ & _ & Hw). destruct (Hw n Hn) as [Lv _].
  exists (kv ++ k). cbn [keys_of]. fold keys_of. rewrite Ev, bind_Ok, IH, bind_Ok. split; [done|]. rewrite length_app, Lk, Lv. cbn. lia.
Qed.

Lemma items_keyed t n a b : key_width t = Some n -> (0 < n)%nat -> orderable t = true -> (forall t', t <> TArray t') ->
  Forall (comparable t) a -> Forall (comparable t) b ->
  exists ka kb, keys_of a = Ok ka /\ keys_of b = Ok kb /\ cmp_items a b = Ok (bytes_cmp ka kb)
    /\ (length a =? length b)%nat && eq_items a b = cmp_is_eq (bytes_cmp ka kb).
Proof using DECok.
  intros Hn Hpos Ho Hna Ha. revert b. induction Ha as [|x a Hx Ha IH]; intros b Hb; destruct Hb as [|y b Hy Hb].
  - by exists [], [].
  - destruct (keys_of_length t n (y :: b) Hn ltac:(by constructor) Ho Hna) as (kb & Eb & Lb). exists [], kb.
    split; [done|]. split; [done|]. destruct kb as [|z kb]; [cbn in Lb; lia|]. done.
  - destruct (keys_of_length t n (x :: a) Hn ltac:(by constructor) Ho Hna) as (ka & Ea & La). exists ka, [].
    split; [done|]. split; [done|]. destruct ka as [|z ka]; [cbn in La; lia|]. done.
  - destruct (IH b Hb) as (ka & kb & Ea & Eb & Ec & Ee). destruct (scalar_keyed t x y Ho Hna Hx Hy) as (kx & ky & Ex & Ey & Cxy & Exy & Hw).
    destruct (Hw n Hn) as [Lx Ly]. exists (kx ++ ka), (ky ++ kb). cbn [keys_of cmp_items eq_items length].
    fold keys_of cmp_items eq_items. rewrite Ex, Ey, !bind_Ok, Ea, Eb, !bind_Ok, Cxy, bind_Ok, Exy, bytes_cmp_app by congruence.
    split; [done|]. split; [done|]. cbn [Nat.eqb]. destruct (bytes_cmp kx ky); cbn [cmp_is_eq]; [|by rewrite andb_false_r..]. by rewrite andb_true_l.
Qed.

(** Keys decide the comparison of two values of one orderable type. *)
Lemma values_keyed ty v w : orderable ty = true -> comparable ty v -> comparable ty w -> keyed ty v w.
Proof using DECok.
  intros Ho Hv Hw. assert (Hk : (exists t, ty = TArray t) \/ forall t, ty <> TArray t) by (destruct ty; eauto).
  destruct Hk as [[t ->]|Hna]; [|by apply scalar_keyed].
  destruct Hv as [Tv Cv], Hw as [Tw Cw]. destruct v, w; try done. cbn [orderable] in Ho. apply bool_decide_eq_true in Ho as [n Hn].
  assert (Hs : (0 < n)%nat /\ orderable t = true /\ forall t', t <> TArray t').
  { destruct t; cbn in Hn; try done; injection Hn as <-; (split; [lia|]; split; done). }
  destruct Hs as (Hpos & Hot & Hnt). destruct (items_keyed t n items items0 Hn Hpos Hot Hnt Cv Cw) as (ka & kb & Ea & Eb & Ec & Ee).
  exists ka, kb. done.
Qed.

(** C34: the storage-key encoding preserves order.  For two non-null values of
    one type (booleans, integers, floats, decimals, text, dates and times,
    uuids, intervals, and arrays of elements with fixed-width keys), both have
    a key, the byte order of the keys is the result of [cmp_values], and the
    keys are equal exactly when [values_eq] holds; an [f32] is not a NaN. *)
Theorem key_order_preserving (ty : LogicalType) (v w : Value) :
  orderable ty = true -> comparable ty v -> comparable ty w ->
  exists kv kw, encode_key v = Ok kv /\ encode_key w = Ok kw
    /\ cmp_values v w = Ok (bytes_cmp kv kw) /\ (values_eq v w = true <-> kv = kw).
Proof using DECok.
  intros Ho Hv Hw. destruct (values_keyed ty v w Ho Hv Hw) as (kv & kw & Ev & Ew & Ec & Ee & _).
  exists kv, kw. rewrite Ee, <- bytes_eq_cmp, bool_decide_eq_true. done.
Qed.
End order.

Section witness.
Import PlainDecimal PlainJson.

(** -0.5 and 0.25. *)
Lemma key_order_preserving_witness :
  exists kv kw, encode_key (VNumeric (mk (-50, 2))) = Ok kv /\ encode_key (VNumeric (mk (25, 2))) = Ok kw
    /\ cmp_values (VNumeric (mk (-50, 2))) (VNumeric (mk (25, 2))) = Ok (bytes_cmp kv kw)
    /\ (values_eq (VNumeric (mk (-50, 2))) (VNumeric (mk (25, 2))) = true <-> kv = kw).
Proof. apply (key_order_preserving TNumeric); [reflexivity|by split..]. Defined.

(** Arrays of text: two arrays that differ have one key. *)
Example text_array_keys_collide :
  let a := VArray [VText [x61]; VText [x62]] in
  let b := VArray [VText [x61; x62]] in
  encode_key a = encode_key b /\ values_eq a b = false /\ cmp_values a b = Ok Lt.
Proof. by vm_compute. Qed.

(** An [INT] and a [BIGINT] that are equal have different keys. *)
Example integer_widths_have_different_keys :
  values_eq (VInt32 7) (VInt64 7) = true /\ encode_key (VInt32 7) <> encode_key (VInt64 7).
Proof. by vm_compute. Qed.
End witness.
