(* ===== verification/RustText.v ===== *)
(** * The text side of Rust's standard library

    What query/expression and storage/temporal.rs use of [str], of the
    integers' [FromStr] and [Display], and of [char].  The float formatter and
    parser and Unicode's case tables are parameters ([StdText]) with what their
    documentation states ([StdTextOk]). *)

From Stdlib Require Import Strings.Byte Strings.String ZArith Lia.
From stdpp Require Import prelude list.
From S2P Require Import Prelude Utf8 Float Value KeyCodec.
Local Open Scope Z_scope.

(** A string literal's bytes. *)
Definition str (s : string) : list byte := list_byte_of_string s.

(** [char::is_whitespace]: Unicode's [White_Space]. *)
Definition is_whitespace (c : Z) : bool :=
  ((9 <=? c) && (c <=? 13)) || (c =? 32) || (c =? 133) || (c =? 160) || (c =? 5760)
  || ((8192 <=? c) && (c <=? 8202)) || (c =? 8232) || (c =? 8233) || (c =? 8239) || (c =? 8287) || (c =? 12288).

Fixpoint drop_while {A} (f : A -> bool) (l : list A) : list A :=
  match l with [] => [] | x :: l' => if f x then drop_while f l' else l end.

Definition drop_while_end {A} (f : A -> bool) (l : list A) : list A := reverse (drop_while f (reverse l)).

(** [str::trim]. *)
Definition trim (s : list byte) : list byte :=
  from_chars (drop_while_end is_whitespace (drop_while is_whitespace (chars s))).

(** ** Integers *)

Definition digit_byte (d : Z) : byte := byte_of (48 + d).

Definition nat_text (n : Z) : list byte :=
  if n =? 0 then [digit_byte 0] else digit_byte <$> dec_digits n.

(** [n.to_string()]. *)
Definition int_text (n : Z) : list byte := (if n <? 0 then [x2d] else []) ++ nat_text (Z.abs n).

(** ["{n:02}"]: zeros after the sign, up to two characters in all. *)
Definition int_text2 (n : Z) : list byte :=
  let t := nat_text (Z.abs n) in
  if n <? 0 then x2d :: t else replicate (2 - length t) (digit_byte 0) ++ t.

Definition digit_of (b : byte) : option Z :=
  if (48 <=? byteZ b) && (byteZ b <=? 57) then Some (byteZ b - 48) else None.

Fixpoint digits_value (acc : Z) (l : list byte) : option Z :=
  match l with
  | [] => Some acc
  | b :: l' => d ← digit_of b; digits_value (acc * 10 + d) l'
  end.

(** [s.parse::<i64>()]: an optional sign, at least one digit, in range. *)
Definition parse_i64 (s : list byte) : option Z :=
  let '(neg, ds) := match s with
                    | x2d :: ds => (true, ds)
                    | x2b :: ds => (false, ds)
                    | _ => (false, s)
                    end in
  match ds with
  | [] => None
  | _ => n ← digits_value 0 ds;
         let n := if (neg : bool) then - n else n in
         if bool_decide (- 2 ^ 63 <= n < 2 ^ 63) then Some n else None
  end.

(** ** Floats and case *)

Class StdText := {
  f32_to_string : Z -> list byte;
  f64_to_string : Z -> list byte;
  f64_parse : list byte -> option Z;
  to_uppercase : list byte -> list byte;
  to_lowercase : list byte -> list byte;
}.

(** A [String] is UTF-8 and a parsed [f64] has 64 bits. *)
Class StdTextOk {ST : StdText} : Prop := {
  f32_to_string_utf8 f : utf8_valid (f32_to_string f) = true;
  f64_to_string_utf8 f : utf8_valid (f64_to_string f) = true;
  f64_parse_float s f : f64_parse s = Some f -> is_float f64 f;
  to_uppercase_utf8 s : utf8_valid s = true -> utf8_valid (to_uppercase s) = true;
  to_lowercase_utf8 s : utf8_valid s = true -> utf8_valid (to_lowercase s) = true;
}.

(** ** Lemmas *)

Lemma ascii_valid l : Forall (fun b => byteZ b < 128) l -> utf8_valid l = true.
Proof.
  induction 1 as [|b l Hb _ IH]; [done|]. cbn. pose proof (byteZ_range b).
  assert (in_range 0 127 b = true) as -> by (apply in_range_spec; lia). done.
Qed.

Lemma Forall_drop_while {A} (P : A -> Prop) f l : Forall P l -> Forall P (drop_while f l).
Proof. induction 1 as [|x l Hx Hl IH]; cbn; [constructor|]. destruct (f x); [done|by constructor]. Qed.

Lemma Forall_drop_while_end {A} (P : A -> Prop) f l : Forall P l -> Forall P (drop_while_end f l).
Proof. intros H. apply Forall_reverse, Forall_drop_while, Forall_reverse, H. Qed.

Lemma from_chars_valid cs : Forall (fun c => is_char c = true) cs -> utf8_valid (from_chars cs) = true.
Proof. intros H. apply (chars_from_chars cs H). Qed.

Lemma chars_are_chars s : utf8_valid s = true -> Forall (fun c => is_char c = true) (chars s).
Proof. intros H. apply (from_chars_chars s H). Qed.

Lemma trim_valid s : utf8_valid s = true -> utf8_valid (trim s) = true.
Proof. intros H. apply from_chars_valid, Forall_drop_while_end, Forall_drop_while, chars_are_chars, H. Qed.

Lemma digit_byteZ d : digit d -> byteZ (digit_byte d) = 48 + d.
Proof. unfold digit. intros H. apply byteZ_of. lia. Qed.

Lemma nat_digits n : 0 <= n -> exists ds, nat_text n = digit_byte <$> ds /\ ds <> [] /\ Forall digit ds /\ dval ds = n.
Proof.
  intros H. unfold nat_text. case (Z.eqb_spec n 0) as [->|Hn].
  - exists [0]. repeat split; [done|by constructor; [unfold digit; lia|constructor]].
  - destruct (dec_digits_spec n) as (Hd & Hv & Hl); [lia|]. exists (dec_digits n). repeat split; [|done|done].
    intros E. rewrite E in Hv. cbn in Hv. lia.
Qed.

Lemma digits_text_ascii ds : Forall digit ds -> Forall (fun b => byteZ b < 128) (digit_byte <$> ds).
Proof. intros H. apply Forall_fmap. eapply Forall_impl; [exact H|]. intros d Hd. cbn. rewrite digit_byteZ by done. unfold digit in Hd. lia. Qed.

Lemma nat_text_ascii n : 0 <= n -> Forall (fun b => byteZ b < 128) (nat_text n).
Proof. intros H. destruct (nat_digits n H) as (ds & -> & _ & Hd & _). by apply digits_text_ascii. Qed.

Lemma int_text_ascii n : Forall (fun b => byteZ b < 128) (int_text n).
Proof.
  apply Forall_app. split; [|apply nat_text_ascii; lia].
  destruct (n <? 0); [|constructor]. constructor; [by vm_compute|constructor].
Qed.

Lemma digits_value_text ds acc : Forall digit ds ->
  digits_value acc (digit_byte <$> ds) = Some (acc * 10 ^ Z.of_nat (length ds) + dval ds).
Proof.
  intros H. rewrite <- foldl_dval. revert acc. induction H as [|d ds Hd _ IH]; intros acc; [done|].
  cbn. unfold digit_of. rewrite digit_byteZ by done. unfold digit in Hd.
  replace ((48 <=? 48 + d) && (48 + d <=? 57)) with true by (symmetry; apply andb_true_intro; split; apply Z.leb_le; lia).
  cbn. replace (48 + d - 48) with d by lia. apply IH.
Qed.

Lemma digit_byte_ne d : digit d -> digit_byte d <> x2d /\ digit_byte d <> x2b.
Proof.
  intros H. pose proof (digit_byteZ d H) as Hb. unfold digit in H.
  split; intros E; rewrite E in Hb; [change (byteZ x2d) with 45 in Hb|change (byteZ x2b) with 43 in Hb]; lia.
Qed.

(** The text of an [i64] parses back to it. *)
Lemma parse_int_text n : is_int 64 n -> parse_i64 (int_text n) = Some n.
Proof.
  intros Hn. destruct (nat_digits (Z.abs n)) as (ds & Ht & Hne & Hd & Hv); [lia|].
  unfold int_text. rewrite Ht.
  assert (parse_i64 ((if n <? 0 then [x2d] else []) ++ (digit_byte <$> ds))
          = n0 ← digits_value 0 (digit_byte <$> ds); let n0 := if n <? 0 then - n0 else n0 in
            if bool_decide (- 2 ^ 63 <= n0 < 2 ^ 63) then Some n0 else None) as ->.
  { destruct ds as [|d ds]; [done|]. destruct (n <? 0); [done|]. cbn [app fmap list_fmap].
    apply Forall_cons in Hd as [Hd _]. pose proof (digit_byte_ne d Hd) as [H1 H2].
    unfold parse_i64. destruct (digit_byte d); try done. }
  rewrite digits_value_text by done. cbn. rewrite Hv, Z.mul_0_l, Z.add_0_l. replace (if n <? 0 then - Z.abs n else Z.abs n) with n by (destruct (Z.ltb_spec n 0); lia).
  rewrite bool_decide_true; [done|]. exact Hn.
Qed.
