(* ===== verification/Temporal.v ===== *)
(** * Dates, times and intervals as text

    storage/temporal.rs.  [chrono]'s calendar and [pg_interval]'s formats are
    parameters ([Calendar]): a [NaiveDate] is abstract (with its first and last
    day counted from the epoch), an instant its
    microseconds since the epoch, a [NaiveTime] its seconds since midnight and
    its nanoseconds.  [CalendarOk] states the ranges their documentation gives. *)

From Stdlib Require Import Strings.Byte Strings.String ZArith Lia.
From stdpp Require Import prelude list.
From S2P Require Import Prelude Utf8 Float Value ValueCodec RustText.
Local Open Scope Z_scope.

Class Calendar := {
  NaiveDate : Type;
  min_day : Z;
  max_day : Z;
  date_from_str : list byte -> option NaiveDate;
  date_since_epoch : NaiveDate -> Z;
  epoch_add_days : Z -> option NaiveDate;
  date_format : NaiveDate -> list byte;
  parse_from_rfc3339 : list byte -> option Z;
  datetime_parse_from_str : list byte -> string -> option Z;
  naive_datetime_parse_from_str : list byte -> string -> option Z;
  from_timestamp_micros : Z -> option (list byte);
  naive_time_parse_from_str : list byte -> string -> option (Z * Z);
  from_postgres : list byte -> option Interval;
  from_sql : list byte -> option Interval;
  from_iso : list byte -> option Interval;
  to_postgres : Interval -> list byte;
}.

Definition MICROS_PER_DAY : Z := 86400000000.

Definition interval_ok (i : Interval) : Prop := is_int 32 (months i) /\ is_int 32 (days i) /\ is_int 64 (micros i).

(** Dates run from [NaiveDate::MIN] to [NaiveDate::MAX], well inside an [i32]; instants over
    the same days; times of day stay below a leap second past midnight. *)
Class CalendarOk {CAL : Calendar} : Prop := {
  day_range : - 100000000 <= min_day /\ max_day <= 100000000;
  date_range d : min_day <= date_since_epoch d <= max_day;
  epoch_add_range n : min_day <= n <= max_day -> exists d, epoch_add_days n = Some d;
  date_format_utf8 d : utf8_valid (date_format d) = true;
  rfc3339_range s t : parse_from_rfc3339 s = Some t -> min_day <= t / MICROS_PER_DAY <= max_day;
  datetime_range s f t : datetime_parse_from_str s f = Some t -> min_day <= t / MICROS_PER_DAY <= max_day;
  naive_datetime_range s f t : naive_datetime_parse_from_str s f = Some t -> min_day <= t / MICROS_PER_DAY <= max_day;
  instant_range t : min_day <= t / MICROS_PER_DAY <= max_day -> exists s, from_timestamp_micros t = Some s;
  instant_utf8 t s : from_timestamp_micros t = Some s -> utf8_valid s = true;
  time_range s f h n : naive_time_parse_from_str s f = Some (h, n) -> 0 <= h < 86400 /\ 0 <= n < 2000000000;
  postgres_range s i : from_postgres s = Some i -> interval_ok i;
  sql_range s i : from_sql s = Some i -> interval_ok i;
  iso_range s i : from_iso s = Some i -> interval_ok i;
  to_postgres_utf8 i : utf8_valid (to_postgres i) = true;
}.

Section temporal.
Context {CAL : Calendar}.

(** [z as i32]. *)
Definition as_i32 (z : Z) : Z := signed 32 (unsigned 32 z).

Definition parse_date (s : list byte) : option Z :=
  d ← date_from_str s; Some (as_i32 (date_since_epoch d)).

(** [epoch() + Duration::days(days)] panics outside the calendar. *)
Definition format_date {E} (days : Z) : res E (list byte) :=
  match epoch_add_days days with Some d => Ok (date_format d) | None => Panic end.

(** The first format that parses. *)
Fixpoint first_format (parse : list byte -> string -> option Z) (s : list byte) (fmts : list string) : option Z :=
  match fmts with
  | [] => None
  | f :: fmts' => match parse s f with Some t => Some t | None => first_format parse s fmts' end
  end.

Definition offset_formats : list string :=
  ["%Y-%m-%d %H:%M:%S%.f%#z"; "%Y-%m-%dT%H:%M:%S%.f%#z"; "%Y-%m-%d %H:%M:%S%#z"; "%Y-%m-%dT%H:%M:%S%#z"]%string.
Definition civil_formats : list string :=
  ["%Y-%m-%d %H:%M:%S%.f"; "%Y-%m-%dT%H:%M:%S%.f"; "%Y-%m-%d %H:%M:%S"; "%Y-%m-%dT%H:%M:%S"]%string.

Definition parse_timestamptz (s : list byte) : option Z :=
  let s := trim s in
  match parse_from_rfc3339 s with
  | Some t => Some t
  | None =>
      match first_format datetime_parse_from_str s offset_formats with
      | Some t => Some t
      | None => first_format naive_datetime_parse_from_str s civil_formats
      end
  end.

Definition format_timestamptz {E} (micros : Z) : res E (list byte) :=
  match from_timestamp_micros micros with Some s => Ok s | None => Panic end.

Definition parse_time (s : list byte) : option Z :=
  let s := trim s in
  '(secs, nanos) ← match naive_time_parse_from_str s "%H:%M:%S%.f" with
                   | Some t => Some t
                   | None => naive_time_parse_from_str s "%H:%M:%S"
                   end;
  Some (secs * 1000000 + nanos / 1000).

Definition format_time (micros : Z) : list byte :=
  let secs := micros / 1000000 in
  int_text2 (Z.quot secs 3600) ++ str ":" ++ int_text2 (Z.rem (Z.quot secs 60) 60) ++ str ":" ++ int_text2 (Z.rem secs 60).

Definition parse_interval (s : list byte) : option Interval :=
  let s := trim s in
  match from_postgres s with
  | Some i => Some i
  | None => match from_sql s with Some i => Some i | None => from_iso s end
  end.

Definition format_interval (i : Interval) : list byte := to_postgres i.

(** ** Ranges *)

Definition day_ok (d : Z) : Prop := min_day <= d <= max_day.
Definition instant_ok (t : Z) : Prop := day_ok (t / MICROS_PER_DAY).

Context {CALOK : CalendarOk}.

Lemma as_i32_id z : is_int 32 z -> as_i32 z = z.
Proof. intros H. by apply signed_unsigned. Qed.

Lemma day_int d : day_ok d -> is_int 32 d.
Proof. pose proof day_range as R. unfold day_ok, is_int. lia. Qed.

Lemma instant_int t : instant_ok t -> is_int 64 t.
Proof. pose proof day_range as R. unfold instant_ok, day_ok, is_int, MICROS_PER_DAY. intros H. pose proof (Z.div_mod t 86400000000 ltac:(lia)). pose proof (Z.mod_pos_bound t 86400000000 ltac:(lia)). lia. Qed.

Lemma parse_date_ok s d : parse_date s = Some d -> day_ok d.
Proof.
  unfold parse_date. destruct (date_from_str s) as [x|]; [|done]. cbn. intros [= <-].
  pose proof (date_range x) as R. rewrite as_i32_id; [done|by apply day_int].
Qed.

Lemma format_date_ok {E} d : day_ok d -> exists t, format_date (E := E) d = Ok t /\ utf8_valid t = true.
Proof. intros H. destruct (epoch_add_range d H) as [x Hx]. unfold format_date. rewrite Hx. exists (date_format x). split; [done|apply date_format_utf8]. Qed.

Lemma first_format_ok parse s fmts t :
  (forall f x, parse s f = Some x -> instant_ok x) -> first_format parse s fmts = Some t -> instant_ok t.
Proof. intros Hp. induction fmts as [|f fmts IH]; [done|]. cbn. destruct (parse s f) eqn:E; [intros [= <-]; by eapply Hp|apply IH]. Qed.

Lemma parse_timestamptz_ok s t : parse_timestamptz s = Some t -> instant_ok t.
Proof.
  unfold parse_timestamptz. destruct (parse_from_rfc3339 (trim s)) eqn:E1; [intros [= <-]; by eapply rfc3339_range|].
  destruct (first_format datetime_parse_from_str _ _) eqn:E2.
  - intros [= <-]. eapply first_format_ok; [|exact E2]. intros f x. apply datetime_range.
  - apply first_format_ok. intros f x. apply naive_datetime_range.
Qed.

Lemma format_timestamptz_ok {E} t : instant_ok t -> exists s, format_timestamptz (E := E) t = Ok s /\ utf8_valid s = true.
Proof. intros H. destruct (instant_range t H) as [s Hs]. unfold format_timestamptz. rewrite Hs. exists s. split; [done|by eapply instant_utf8]. Qed.

Lemma parse_time_ok s t : parse_time s = Some t -> 0 <= t < 86401 * 1000000.
Proof.
  unfold parse_time. assert (forall p, match naive_time_parse_from_str (trim s) "%H:%M:%S%.f" with
    | Some t => Some t | None => naive_time_parse_from_str (trim s) "%H:%M:%S" end = Some p -> 0 <= p.1 < 86400 /\ 0 <= p.2 < 2000000000) as Hr.
  { intros [h n]. destruct (naive_time_parse_from_str (trim s) "%H:%M:%S%.f") as [[h' n']|] eqn:E1; [intros [= -> ->]; by eapply time_range|apply time_range]. }
  destruct (match _ with Some t => Some t | None => _ end) as [[h n]|]; [|done]. destruct (Hr _ eq_refl) as [H1 H2]. cbn in *.
  intros [= <-]. pose proof (Z.div_lt_upper_bound n 1000 2000000 ltac:(lia) ltac:(lia)). pose proof (Z.div_pos n 1000 ltac:(lia) ltac:(lia)). lia.
Qed.

Lemma parse_interval_ok s i : parse_interval s = Some i -> interval_ok i.
Proof.
  unfold parse_interval. destruct (from_postgres _) eqn:E1; [intros [= <-]; by eapply postgres_range|].
  destruct (from_sql _) eqn:E2; [intros [= <-]; by eapply sql_range|apply iso_range].
Qed.

Lemma int_text2_ascii n : Forall (fun b => byteZ b < 128) (int_text2 n).
Proof.
  unfold int_text2. pose proof (nat_text_ascii (Z.abs n) ltac:(lia)) as H.
  destruct (n <? 0); [by constructor|]. apply Forall_app. split; [|done]. apply Forall_replicate. by vm_compute.
Qed.

Lemma format_time_utf8 t : utf8_valid (format_time t) = true.
Proof.
  apply ascii_valid. assert (Forall (fun b => byteZ b < 128) (str ":")) as Hc by (repeat constructor).
  unfold format_time. repeat apply Forall_app_2; first [exact Hc|apply int_text2_ascii].
Qed.
End temporal.
