(* ===== verification/FloatRange.v ===== *)
(** * Float operations stay in their format

    [Float] computes on [SpecFloat] values; here every operation's result is a
    bit pattern of the format: the significand the rounding leaves has at most
    [prec] digits and the exponent is in range. *)

From Stdlib Require Import ZArith Lia Floats.SpecFloat.
From stdpp Require Import prelude.
From S2P Require Import Prelude Float.
Local Open Scope Z_scope.

Lemma digits2_bound q : Zpos q < 2 ^ Zpos (digits2_pos q).
Proof.
  induction q as [q IH|q IH|]; [| |done]; cbn [digits2_pos]; rewrite Pos2Z.inj_succ, Z.pow_succ_r by lia; lia.
Qed.

Lemma iter_pos_iter {A} (f : A -> A) p x : SpecFloat.iter_pos f p x = Pos.iter f x p.
Proof. revert x. induction p as [p IH|p IH|]; intros x; cbn; rewrite ?IH; try done. by rewrite <- !Pos.iter_swap. Qed.

Lemma shr_1_div mrs : 0 <= shr_m mrs -> shr_m (shr_1 mrs) = shr_m mrs / 2 /\ 0 <= shr_m (shr_1 mrs).
Proof.
  destruct mrs as [m r s]. cbn. intros H. rewrite <- Z.div2_div. destruct m as [|[p|p|]|p]; cbn; try lia.
Qed.

Lemma shr_iter p mrs : 0 <= shr_m mrs -> shr_m (SpecFloat.iter_pos shr_1 p mrs) = shr_m mrs / 2 ^ Zpos p /\ 0 <= shr_m (SpecFloat.iter_pos shr_1 p mrs).
Proof.
  rewrite iter_pos_iter. induction p as [|p IH] using Pos.peano_ind; intros H.
  - apply shr_1_div, H.
  - rewrite Pos.iter_succ. destruct (IH H) as [E H']. destruct (shr_1_div _ H') as [E2 H2]. split; [|done].
    rewrite E2, E, Z.div_div by lia. f_equal. rewrite Pos2Z.inj_succ, Z.pow_succ_r by lia. lia.
Qed.

(** A shift never makes a non-positive significand positive. *)
Lemma shr_1_nonpos mrs : shr_m mrs <= 0 -> shr_m (shr_1 mrs) <= 0.
Proof. destruct mrs as [m r s]. cbn. destruct m as [|[p|p|]|[p|p|]]; cbn; lia. Qed.

Lemma shr_iter_nonpos p mrs : shr_m mrs <= 0 -> shr_m (SpecFloat.iter_pos shr_1 p mrs) <= 0.
Proof.
  rewrite iter_pos_iter. induction p as [|p IH] using Pos.peano_ind; intros H; [by apply shr_1_nonpos|].
  rewrite Pos.iter_succ. by apply shr_1_nonpos, IH.
Qed.

Section range.
Context (prec emax : Z).
Hypothesis prec_pos : 0 < prec.

(** The finite values of the format. *)
Definition fits (x : spec_float) : Prop :=
  match x with
  | S754_finite _ m e => Zpos m < 2 ^ prec /\ emin prec emax <= e <= emax - prec
  | _ => True
  end.

Lemma shr_record_m m l : shr_m (shr_record_of_loc m l) = m.
Proof. by destruct l as [|[]]. Qed.

Lemma shr_fexp_fits m e l mrs e' p :
  shr_fexp prec emax m e l = (mrs, e') -> shr_m mrs = Zpos p -> Zpos p < 2 ^ prec /\ emin prec emax <= e'.
Proof.
  unfold shr_fexp, fexp. set (n := Z.max (Zdigits2 m + e - prec) (emin prec emax) - e).
  intros E Hp. destruct m as [|q|q].
  - exfalso. destruct n; cbn in E; injection E as <- <-; try (rewrite shr_record_m in Hp; done).
    pose proof (shr_iter_nonpos p0 (shr_record_of_loc 0 l)) as H. rewrite shr_record_m in H. specialize (H ltac:(lia)). lia.
  - pose proof (digits2_bound q) as Hd. cbn [Zdigits2] in n.
    destruct n as [|k|k] eqn:En; cbn in E; injection E as <- <-.
    + rewrite shr_record_m in Hp. injection Hp as <-. split; [|lia].
      eapply Z.lt_le_trans; [exact Hd|]. apply Z.pow_le_mono_r; lia.
    + destruct (shr_iter k (shr_record_of_loc (Zpos q) l)) as [Hs _]; [by rewrite shr_record_m|].
      rewrite shr_record_m, Hp in Hs. split; [|lia]. rewrite Hs.
      apply Z.div_lt_upper_bound; [lia|]. rewrite <- Z.pow_add_r by lia.
      eapply Z.lt_le_trans; [exact Hd|]. apply Z.pow_le_mono_r; lia.
    + rewrite shr_record_m in Hp. injection Hp as <-. split; [|lia].
      eapply Z.lt_le_trans; [exact Hd|]. apply Z.pow_le_mono_r; lia.
  - exfalso. destruct n; cbn in E; injection E as <- <-; try (rewrite shr_record_m in Hp; done).
    pose proof (shr_iter_nonpos p0 (shr_record_of_loc (Zneg q) l)) as H. rewrite shr_record_m in H. specialize (H ltac:(lia)). lia.
Qed.

Lemma round_aux_fits s m e l : fits (binary_round_aux prec emax s m e l).
Proof.
  unfold binary_round_aux. destruct (shr_fexp prec emax m e l) as [mrs e'].
  destruct (shr_fexp prec emax (round_nearest_even _ _) e' loc_Exact) as [mrs'' e''] eqn:E.
  destruct (shr_m mrs'') as [|p|p] eqn:Ep; [done| |done]. destruct (Z.leb_spec e'' (emax - prec)); [|done].
  destruct (shr_fexp_fits _ _ _ _ _ _ E Ep). cbn. lia.
Qed.

Lemma round_fits s m e : fits (binary_round prec emax s m e).
Proof. unfold binary_round. destruct (shl_align _ _ _). apply round_aux_fits. Qed.

Lemma normalize_fits m e s : fits (binary_normalize prec emax m e s).
Proof. destruct m; [done|apply round_fits|apply round_fits]. Qed.

Lemma SFadd_fits x y : fits x -> fits y -> fits (SFadd prec emax x y).
Proof. destruct x as [[]|[]| |? ? ?], y as [[]|[]| |? ? ?]; try done; intros _ _; apply normalize_fits. Qed.

Lemma SFsub_fits x y : fits x -> fits y -> fits (SFsub prec emax x y).
Proof. destruct x as [[]|[]| |? ? ?], y as [[]|[]| |? ? ?]; try done; intros _ _; apply normalize_fits. Qed.

Lemma SFmul_fits x y : fits (SFmul prec emax x y).
Proof. destruct x, y; try done. apply round_aux_fits. Qed.

Lemma SFdiv_fits x y : fits (SFdiv prec emax x y).
Proof. destruct x, y; try done. unfold SFdiv. destruct (SFdiv_core_binary _ _ _ _ _ _) as [[? ?] ?]. apply round_aux_fits. Qed.
End range.

Section bits.
Context (F : FloatFormat).
Hypothesis mant_pos : 0 < mant F.
Hypothesis expo_pos : 1 < expo F.

Definition float_fits : spec_float -> Prop := fits (prec F) (f_emax F).

Lemma expo_split : 2 ^ expo F = 2 * f_emax F /\ 2 <= f_emax F.
Proof.
  unfold f_emax. replace (expo F) with (Z.succ (expo F - 1)) at 1 by lia. rewrite Z.pow_succ_r by lia. split; [done|].
  change 2 with (2 ^ 1) at 1. apply Z.pow_le_mono_r; lia.
Qed.

Lemma sign_bit_split : sign_bit F = 2 ^ mant F * 2 ^ expo F.
Proof. unfold sign_bit. apply Z.pow_add_r; lia. Qed.

Lemma of_spec_float x : float_fits x -> is_float F (of_spec F x).
Proof.
  destruct expo_split as [HE HM]. pose proof sign_bit_split as HS. pose proof (Z.pow_pos_nonneg 2 (mant F) ltac:(lia) ltac:(lia)) as HB.
  assert (2 ^ mant F = 2 * 2 ^ (mant F - 1)) as HB2 by (rewrite <- Z.pow_succ_r by lia; f_equal; lia).
  unfold float_fits, is_float. destruct x as [s|s| |s m e]; cbn.
  - intros _. destruct s; nia.
  - intros _. unfold f_inf. destruct s; nia.
  - intros _. unfold nan_bits, f_inf. nia.
  - unfold prec, emin, bias. rewrite Z.pow_add_r, Z.pow_1_r by lia. intros [Hm He].
    destruct (Z.ltb_spec (Zpos m) (2 ^ mant F)); destruct s; nia.
Qed.

Lemma to_spec_fits b : is_float F b -> float_fits (to_spec F b).
Proof.
  destruct expo_split as [HE HM]. pose proof sign_bit_split as HS. pose proof (Z.pow_pos_nonneg 2 (mant F) ltac:(lia) ltac:(lia)) as HB.
  intros Hb. pose proof (f_mag_bound F ltac:(lia) ltac:(lia) b Hb) as Hmag.
  pose proof (Z.mod_pos_bound (f_mag F b) (2 ^ mant F) HB) as Hman.
  pose proof (Z.div_pos (f_mag F b) (2 ^ mant F) ltac:(lia) HB) as He0.
  pose proof (Z.div_lt_upper_bound (f_mag F b) (2 ^ mant F) (2 ^ expo F) HB ltac:(lia)) as He1.
  unfold float_fits, to_spec. fold (f_man F b) in Hman. fold (f_exp F b) in He0, He1.
  destruct (Z.eqb_spec (f_exp F b) (2 ^ expo F - 1)); [by destruct (f_man F b =? 0)|].
  destruct (Z.eqb_spec (f_exp F b) 0); [destruct (Z.eqb_spec (f_man F b) 0); [done|]|];
    unfold fits, prec, emin, bias; rewrite Z2Pos.id by lia; rewrite Z.pow_add_r, Z.pow_1_r by lia; lia.
Qed.

Lemma f_prec_pos : 0 < prec F.
Proof. unfold prec. lia. Qed.

Lemma f_add_float a b : is_float F a -> is_float F b -> is_float F (f_add F a b).
Proof. intros Ha Hb. apply of_spec_float, SFadd_fits; [apply f_prec_pos|by apply to_spec_fits..]. Qed.

Lemma f_sub_float a b : is_float F a -> is_float F b -> is_float F (f_sub F a b).
Proof. intros Ha Hb. apply of_spec_float, SFsub_fits; [apply f_prec_pos|by apply to_spec_fits..]. Qed.

Lemma f_mul_float a b : is_float F (f_mul F a b).
Proof. apply of_spec_float, SFmul_fits, f_prec_pos. Qed.

Lemma f_div_float a b : is_float F (f_div F a b).
Proof. apply of_spec_float, SFdiv_fits, f_prec_pos. Qed.

Lemma f_of_int_float n : is_float F (f_of_int F n).
Proof. apply of_spec_float, normalize_fits, f_prec_pos. Qed.

Lemma f_opp_float b : is_float F b -> is_float F (f_opp F b).
Proof. unfold is_float, f_opp, f_neg. destruct (Z.leb_spec (sign_bit F) b); lia. Qed.

Lemma f_abs_float b : is_float F b -> is_float F (f_abs F b).
Proof. intros H. pose proof (f_mag_bound F ltac:(lia) ltac:(lia) b H). unfold is_float, f_abs. lia. Qed.
End bits.

Lemma f64_round_float mode b : is_float f64 b -> is_float f64 (f64_round mode b).
Proof.
  intros H. unfold f64_round. destruct (to_spec f64 b) as [s|s| |s m e]; try done.
  destruct (0 <=? e); [done|]. destruct (_ =? 0); [|by apply f_of_int_float].
  destruct s; unfold is_float, sign_bit; cbn; lia.
Qed.

Lemma f64_to_f32_float b : is_float f64 b -> is_float f32 (f64_to_f32 b).
Proof.
  intros H. apply of_spec_float; [done|done|]. pose proof (to_spec_fits f64 ltac:(done) ltac:(done) b H) as Hf.
  destruct (to_spec f64 b); try done. by apply round_fits.
Qed.

Lemma f64_to_i64_int b : - 2 ^ 63 <= f64_to_i64 b < 2 ^ 63.
Proof. unfold f64_to_i64. destruct (to_spec f64 b); lia. Qed.

Lemma f32_mag_float x : 0 <= x < 2 ^ 31 -> 0 <= f32_mag_to_f64 x < 2 ^ 63.
Proof.
  intros Hx. assert (f_inf f32 = 2139095040 /\ f_inf f64 = 9218868437227405312) as [E1 E2] by done.
  destruct (Z.ltb_spec (f_inf f32) x) as [H|H].
  - unfold f32_mag_to_f64. rewrite (proj2 (Z.ltb_lt _ _) H), E2. pose proof (Z.mod_pos_bound (x - f_inf f32) (2 ^ 22) ltac:(lia)). lia.
  - destruct (Z.eqb_spec x (f_inf f32)) as [->|Hn]; [by vm_compute|].
    destruct (f32_mag_mono x (f_inf f32)) as [H1 H2]; [lia..|]. change (f32_mag_to_f64 (f_inf f32)) with (f_inf f64) in H1. lia.
Qed.

Lemma f32_to_f64_float b : is_float f32 b -> is_float f64 (f32_to_f64 b).
Proof.
  intros H. pose proof (f_mag_bound f32 ltac:(done) ltac:(done) b H) as Hb. unfold f_mag in Hb. unfold f32_to_f64, f_mag.
  change (sign_bit f32) with (2 ^ 31) in *. unfold is_float. change (sign_bit f64) with (2 ^ 63).
  destruct (f_neg f32 b); pose proof (f32_mag_float _ Hb); lia.
Qed.
