(* ===== verification/Expression.v ===== *)
(** * Scalar expressions

    query/expression: the expression tree ([mod.rs]), its evaluator with SQL's
    three-valued logic, arithmetic with numeric coercion, the scalar functions
    and [LIKE] ([function.rs]), and [CAST] ([cast.rs]).

    [eval_call]'s arguments are the results of its argument expressions, used in
    the source's order: a result that is not used is an expression that is not
    evaluated.  [args[i]] past the end panics.  Error texts keep their literal
    part. *)

From Stdlib Require Import Strings.Byte Strings.String ZArith Lia.
From stdpp Require Import prelude list.
From S2P Require Import Prelude Utf8 Float Value ValueCodec Compare RustText Temporal.
Local Open Scope Z_scope.

(** Arithmetic, rounding and text of [rust_decimal]; [uuid]'s text; [Display] of
    a JSON value. *)
Class ExprCrates {DEC : RustDecimal} {JS : SerdeJson} := {
  d_zero : Decimal;
  d_checked_add : Decimal -> Decimal -> option Decimal;
  d_checked_sub : Decimal -> Decimal -> option Decimal;
  d_checked_mul : Decimal -> Decimal -> option Decimal;
  d_checked_div : Decimal -> Decimal -> option Decimal;
  d_checked_rem : Decimal -> Decimal -> option Decimal;
  d_neg : Decimal -> Decimal;
  d_round : Rounding -> Decimal -> Decimal;
  d_to_i64 : Decimal -> option Z;
  d_from_f32_retain : Z -> option Decimal;
  d_from_f64_retain : Z -> option Decimal;
  d_parse : list byte -> option Decimal;
  d_to_string : Decimal -> list byte;
  uuid_parse_str : list byte -> option (list byte);
  uuid_to_string : list byte -> list byte;
  json_to_string : Json -> list byte;
}.

Inductive BinaryOperator : Type :=
| OpEq | OpNotEq | OpLt | OpLtEq | OpGt | OpGtEq
| OpAnd | OpOr
| OpAdd | OpSub | OpMul | OpDiv | OpMod
| OpConcat.

Inductive ScalarFunc : Type :=
| Abs | Greatest | Least | FCeil | FFloor | FRound | Coalesce | Length | Repeat | Upper | Lower
| Nullif | Concat | Substr | TrimBoth | TrimLeading | TrimTrailing.

#[warnings="-register-all"] Inductive Expr {DEC : RustDecimal} {JS : SerdeJson} : Type :=
| EColumn (index : nat)
| ELiteral (value : Value)
| EBinary (op : BinaryOperator) (lhs rhs : Expr)
| ENot (input : Expr)
| ECall (func : ScalarFunc) (args : list Expr)
| EIsNull (expr : Expr) (negated : bool)
| ELike (expr pattern : Expr) (negated : bool)
| ENeg (input : Expr)
| ECase (branches : list (Expr * Expr)) (else_result : option Expr)
| ECast (input : Expr) (target : LogicalType)
| EArray (elements : list Expr).

#[export] Instance res_fmap {E} : FMap (res E) := fun A B f m => map_ok f m.

Section eval.
Context {DEC : RustDecimal} {JS : SerdeJson} {ST : StdText} {CAL : Calendar} {XC : ExprCrates}.

Definition vres : Type := res QueryError Value.
Definition type_error {A} (what : string) : res QueryError A := Err (QType what).

Definition ok_or {A} (what : string) (o : option A) : res QueryError A :=
  match o with Some a => Ok a | None => type_error what end.

(** ** Integers of a width: [checked_neg] and the like *)

Definition int_ok (w n : Z) : bool := (- 2 ^ (w - 1) <=? n) && (n <? 2 ^ (w - 1)).
Definition checked (w n : Z) : option Z := if int_ok w n then Some n else None.

Definition eval_neg (v : Value) : vres :=
  let overflow {A} (o : option A) := ok_or "negation out of range" o in
  match v with
  | VNull => Ok VNull
  | VInt16 n => VInt16 <$> overflow (checked 16 (- n))
  | VInt32 n => VInt32 <$> overflow (checked 32 (- n))
  | VInt64 n => VInt64 <$> overflow (checked 64 (- n))
  | VFloat32 f => Ok (VFloat32 (f_opp f32 f))
  | VFloat64 f => Ok (VFloat64 (f_opp f64 f))
  | VNumeric d => Ok (VNumeric (d_neg d))
  | _ => type_error "cannot negate"
  end.

(** ** Arithmetic *)

Definition int_arith (op : BinaryOperator) (a b : Z) : vres :=
  let result (o : option Z) := VInt64 <$> ok_or "integer overflow" o in
  match op with
  | OpAdd => result (checked 64 (a + b))
  | OpSub => result (checked 64 (a - b))
  | OpMul => result (checked 64 (a * b))
  | OpDiv => if b =? 0 then type_error "division by zero" else result (checked 64 (Z.quot a b))
  | OpMod =>
      if b =? 0 then type_error "division by zero"
      else result (if (a =? - 2 ^ 63) && (b =? - 1) then None else Some (Z.rem a b))
  | _ => Panic
  end.

Definition float_arith (op : BinaryOperator) (a b : Z) : vres :=
  match op with
  | OpAdd => Ok (VFloat64 (f_add f64 a b))
  | OpSub => Ok (VFloat64 (f_sub f64 a b))
  | OpMul => Ok (VFloat64 (f_mul f64 a b))
  | OpDiv => if f_eqb f64 b 0 then type_error "division by zero" else Ok (VFloat64 (f_div f64 a b))
  | OpMod => type_error "modulo is undefined for floating point"
  | _ => Panic
  end.

Definition decimal_arith (op : BinaryOperator) (a b : Decimal) : vres :=
  let result (o : option Decimal) := VNumeric <$> ok_or "numeric overflow" o in
  match op with
  | OpAdd => result (d_checked_add a b)
  | OpSub => result (d_checked_sub a b)
  | OpMul => result (d_checked_mul a b)
  | OpDiv => if d_eqb b d_zero then type_error "division by zero" else result (d_checked_div a b)
  | OpMod => if d_eqb b d_zero then type_error "division by zero" else result (d_checked_rem a b)
  | _ => Panic
  end.

Definition is_float_value (v : Value) : bool := match v with VFloat32 _ | VFloat64 _ => true | _ => false end.

Definition eval_arithmetic (op : BinaryOperator) (l r : Value) : vres :=
  match as_i64 l, as_i64 r with
  | Some a, Some b => int_arith op a b
  | _, _ =>
      let decimals :=
        match as_decimal l, as_decimal r with
        | Some a, Some b => decimal_arith op a b
        | _, _ => type_error "cannot apply arithmetic"
        end in
      if is_float_value l || is_float_value r then
        match as_f64 l, as_f64 r with
        | Some a, Some b => float_arith op a b
        | _, _ => decimals
        end
      else decimals
  end.

(** ** Text of a value *)

Fixpoint join (sep : list byte) (parts : list (list byte)) : list byte :=
  match parts with [] => [] | [p] => p | p :: ps => p ++ sep ++ join sep ps end.

Fixpoint concat_str (v : Value) : res QueryError (list byte) :=
  match v with
  | VNull => Ok []
  | VBool b => Ok (str (if b then "t" else "f"))
  | VInt16 n | VInt32 n | VInt64 n => Ok (int_text n)
  | VFloat32 f => Ok (f32_to_string f)
  | VFloat64 f => Ok (f64_to_string f)
  | VNumeric d => Ok (d_to_string d)
  | VText s => Ok s
  | VDate d => format_date d
  | VTimestamp t => format_timestamptz t
  | VTime t => Ok (format_time t)
  | VUuid u => Ok (uuid_to_string u)
  | VInterval i => Ok (format_interval i)
  | VArray items =>
      parts ← (fix go l := match l with [] => Ok [] | x :: l' => p ← concat_str x; ps ← go l'; Ok (p :: ps) end) items;
      Ok (str "{" ++ join (str ",") parts ++ str "}")
  | VBytes _ | VJson _ => type_error "cannot concatenate"
  end.

(** ** Binary operators *)

Definition is_lt (c : comparison) : bool := match c with Lt => true | _ => false end.
Definition is_gt (c : comparison) : bool := match c with Gt => true | _ => false end.

Definition is_bool (b : bool) (v : Value) : bool := match v with VBool x => Bool.eqb x b | _ => false end.

(** The early returns of [AND] and [OR]. *)
Definition short_circuit (op : BinaryOperator) (l r : Value) : option bool :=
  match op with
  | OpAnd => if is_bool false l || is_bool false r then Some false else None
  | OpOr => if is_bool true l || is_bool true r then Some true else None
  | _ => None
  end.

(** [match (lhs, rhs) { (Bool(a), Bool(b)) => .., _ => Internal }]. *)
Definition eval_bools (what : string) (f : bool -> bool -> bool) (l r : Value) : vres :=
  match l, r with
  | VBool a, VBool b => Ok (VBool (f a b))
  | _, _ => Err (QInternal what)
  end.

Definition eval_binary (op : BinaryOperator) (l r : Value) : vres :=
  match short_circuit op l r with
  | Some b => Ok (VBool b)
  | None =>
      if is_null l || is_null r then Ok VNull
      else
        match op with
        | OpEq => Ok (VBool (values_eq l r))
        | OpNotEq => Ok (VBool (negb (values_eq l r)))
        | OpLt => c ← cmp_values l r; Ok (VBool (is_lt c))
        | OpLtEq => c ← cmp_values l r; Ok (VBool (negb (is_gt c)))
        | OpGt => c ← cmp_values l r; Ok (VBool (is_gt c))
        | OpGtEq => c ← cmp_values l r; Ok (VBool (negb (is_lt c)))
        | OpAnd => eval_bools "AND expects Bool" andb l r
        | OpOr => eval_bools "OR expects Bool" orb l r
        | OpAdd | OpSub | OpMul | OpDiv | OpMod => eval_arithmetic op l r
        | OpConcat => a ← concat_str l; b ← concat_str r; Ok (VText (a ++ b))
        end
  end.

(** ** [LIKE] *)

Definition PERCENT : Z := 37.
Definition UNDERSCORE : Z := 95.

(** The [while] loop over the text: [None] when the fuel runs out. *)
Fixpoint like_loop (fuel : nat) (t p : list Z) (ti pi : nat) (star_pi : option nat) (star_ti : nat) : option (bool + nat) :=
  match fuel with
  | O => None
  | S fuel =>
      match t !! ti with
      | None => Some (inr pi)
      | Some c =>
          match p !! pi with
          | Some q =>
              if (q =? UNDERSCORE) || (q =? c) then like_loop fuel t p (S ti) (S pi) star_pi star_ti
              else if q =? PERCENT then like_loop fuel t p ti (S pi) (Some pi) ti
              else match star_pi with
                   | Some sp => like_loop fuel t p (S star_ti) (S sp) star_pi (S star_ti)
                   | None => Some (inl false)
                   end
          | None =>
              match star_pi with
              | Some sp => like_loop fuel t p (S star_ti) (S sp) star_pi (S star_ti)
              | None => Some (inl false)
              end
          end
      end
  end.

(** The [while] loop over the pattern's trailing [%]s, then [pi == p.len()]. *)
Definition like_tail (p : list Z) (pi : nat) : bool := forallb (fun q => q =? PERCENT) (drop pi p).

Definition like_fuel (t p : list Z) : nat := S (length t * S (length p) + length p).

Definition like_match (text pattern : list byte) : bool :=
  let t := chars text in
  let p := chars pattern in
  match like_loop (like_fuel t p) t p 0 0 None 0 with
  | Some (inl b) => b
  | Some (inr pi) => like_tail p pi
  | None => false
  end.

Definition eval_like (value pattern : Value) (negated : bool) : vres :=
  match value, pattern with
  | VNull, _ | _, VNull => Ok VNull
  | VText s, VText p => Ok (VBool (xorb (like_match s p) negated))
  | _, _ => type_error "LIKE expects text operands"
  end.

(** ** Scalar functions *)

Definition eval_abs (v : Value) : vres :=
  let overflow {A} (o : option A) := ok_or "ABS argument out of range" o in
  match v with
  | VNull => Ok VNull
  | VInt16 n => VInt16 <$> overflow (checked 16 (Z.abs n))
  | VInt32 n => VInt32 <$> overflow (checked 32 (Z.abs n))
  | VInt64 n => VInt64 <$> overflow (checked 64 (Z.abs n))
  | VFloat32 f => Ok (VFloat32 (f_abs f32 f))
  | VFloat64 f => Ok (VFloat64 (f_abs f64 f))
  | VNumeric d => Ok (VNumeric (d_abs d))
  | _ => type_error "ABS of non-numeric value"
  end.

Definition eval_round (v : Value) (mode : Rounding) : vres :=
  match v with
  | VNull => Ok VNull
  | VInt16 _ | VInt32 _ | VInt64 _ => Ok v
  | VFloat32 f => Ok (VFloat32 (f64_to_f32 (f64_round mode (f32_to_f64 f))))
  | VFloat64 f => Ok (VFloat64 (f64_round mode f))
  | VNumeric d => Ok (VNumeric (d_round mode d))
  | _ => type_error "rounding a non-numeric value"
  end.

Definition eval_nullif (a b : Value) : vres := Ok (if values_eq a b then VNull else a).

Fixpoint eval_coalesce (args : list vres) : vres :=
  match args with
  | [] => Ok VNull
  | a :: args' => v ← a; if is_null v then eval_coalesce args' else Ok v
  end.

(** [count() as i64]. *)
Definition as_i64_cast (n : nat) : Z := signed 64 (unsigned 64 (Z.of_nat n)).

Definition eval_length (v : Value) : vres :=
  match v with
  | VNull => Ok VNull
  | VText s => Ok (VInt64 (as_i64_cast (length (chars s))))
  | _ => type_error "LENGTH of non-text value"
  end.

(** [str::repeat] panics when the result cannot be a [Vec]. *)
Definition str_repeat {E} (s : list byte) (n : Z) : res E (list byte) :=
  if Z.of_nat (length s) * n <=? 2 ^ 63 - 1 then Ok (mjoin (replicate (Z.to_nat n) s)) else Panic.

Definition eval_repeat (s n : Value) : vres :=
  if is_null s || is_null n then Ok VNull
  else
    match s with
    | VText text =>
        count ← ok_or "REPEAT count must be an integer" (as_i64 n);
        VText <$> str_repeat text (Z.max count 0)
    | _ => type_error "REPEAT expects a text first argument"
    end.

Definition eval_case (v : Value) (upper : bool) : vres :=
  match v with
  | VNull => Ok VNull
  | VText s => Ok (VText (if upper then to_uppercase s else to_lowercase s))
  | _ => type_error "case folding a non-text value"
  end.

Fixpoint eval_concat_go (args : list vres) (out : list byte) : vres :=
  match args with
  | [] => Ok (VText out)
  | a :: args' =>
      v ← a;
      match v with
      | VNull => eval_concat_go args' out
      | _ => t ← concat_str v; eval_concat_go args' (out ++ t)
      end
  end.
Definition eval_concat (args : list vres) : vres := eval_concat_go args [].

(** [i64::saturating_add]. *)
Definition saturating_add (a b : Z) : Z := Z.max (- 2 ^ 63) (Z.min (2 ^ 63 - 1) (a + b)).

Definition eval_substr (s from len : Value) : vres :=
  if is_null s || is_null from || is_null len then Ok VNull
  else
    match s with
    | VText text =>
        start ← ok_or "SUBSTRING start must be an integer" (as_i64 from);
        length_ ← ok_or "SUBSTRING length must be an integer" (as_i64 len);
        let cs := chars text in
        let n := Z.of_nat (length cs) in
        let from_idx := Z.max start 1 in
        let to_idx := Z.min (saturating_add start length_) (n + 1) in
        if to_idx <=? from_idx then Ok (VText [])
        else Ok (VText (from_chars (slice (Z.to_nat (from_idx - 1)) (Z.to_nat (to_idx - from_idx)) cs)))
    | _ => type_error "SUBSTRING expects a text value"
    end.

(** [while start < end && set.contains(&cs[start])]: the end of the leading run. *)
Fixpoint trim_start (set cs : list Z) (start : nat) : nat :=
  match cs with
  | c :: cs' => if bool_decide (c ∈ set) then trim_start set cs' (S start) else start
  | [] => start
  end.

(** [while end > start && set.contains(&cs[end - 1])], counting down. *)
Fixpoint trim_end (set cs : list Z) (start end_ : nat) : nat :=
  match end_ with
  | O => O
  | S e =>
      if (start <? end_)%nat && match cs !! e with Some c => bool_decide (c ∈ set) | None => false end
      then trim_end set cs start e else end_
  end.

Definition eval_trim (s set : Value) (leading trailing : bool) : vres :=
  if is_null s || is_null set then Ok VNull
  else
    match s, set with
    | VText text, VText set =>
        let set := chars set in
        let cs := chars text in
        let start := if leading then trim_start set cs 0 else O in
        let end_ := if trailing then trim_end set cs start (length cs) else length cs in
        Ok (VText (from_chars (slice start (end_ - start) cs)))
    | _, _ => type_error "TRIM expects text values"
    end.

Fixpoint eval_extreme_go (greatest : bool) (best : option Value) (args : list vres) : vres :=
  match args with
  | [] => Ok (default VNull best)
  | a :: args' =>
      v ← a;
      if is_null v then eval_extreme_go greatest best args'
      else
        match best with
        | None => eval_extreme_go greatest (Some v) args'
        | Some cur =>
            ord ← cmp_values cur v;
            let take_new := if greatest then is_lt ord else is_gt ord in
            eval_extreme_go greatest (Some (if (take_new : bool) then v else cur)) args'
        end
  end.
Definition eval_extreme (args : list vres) (greatest : bool) : vres := eval_extreme_go greatest None args.

Definition arg (args : list vres) (i : nat) : vres := default Panic (args !! i).

Definition eval_call (func : ScalarFunc) (args : list vres) : vres :=
  match func with
  | Abs => a ← arg args 0; eval_abs a
  | Greatest => eval_extreme args true
  | Least => eval_extreme args false
  | FCeil => a ← arg args 0; eval_round a Ceil
  | FFloor => a ← arg args 0; eval_round a Floor
  | FRound => a ← arg args 0; eval_round a Nearest
  | Coalesce => eval_coalesce args
  | Length => a ← arg args 0; eval_length a
  | Repeat => a ← arg args 0; b ← arg args 1; eval_repeat a b
  | Upper => a ← arg args 0; eval_case a true
  | Lower => a ← arg args 0; eval_case a false
  | Nullif => a ← arg args 0; b ← arg args 1; eval_nullif a b
  | Concat => eval_concat args
  | Substr => a ← arg args 0; b ← arg args 1; c ← arg args 2; eval_substr a b c
  | TrimBoth => a ← arg args 0; b ← arg args 1; eval_trim a b true true
  | TrimLeading => a ← arg args 0; b ← arg args 1; eval_trim a b true false
  | TrimTrailing => a ← arg args 0; b ← arg args 1; eval_trim a b false true
  end.

(** ** [CAST] *)

Definition cast_to_i64 (v : Value) : res QueryError Z :=
  match v with
  | VInt16 n | VInt32 n | VInt64 n => Ok n
  | VBool b => Ok (Z.b2z b)
  | VFloat32 f => Ok (f64_to_i64 (f64_round Nearest (f32_to_f64 f)))
  | VFloat64 f => Ok (f64_to_i64 (f64_round Nearest f))
  | VNumeric d => ok_or "cannot cast to integer" (d_to_i64 (d_round Nearest d))
  | VText s => ok_or "cannot cast to integer" (parse_i64 (trim s))
  | _ => type_error "cannot cast to integer"
  end.

Definition fit_int_cast (w n : Z) : res QueryError Z := ok_or "out of range for target integer" (checked w n).

Definition cast_to_f64 (v : Value) : res QueryError Z :=
  match v with
  | VInt16 n | VInt32 n | VInt64 n => Ok (f_of_int f64 n)
  | VFloat32 f => Ok (f32_to_f64 f)
  | VFloat64 f => Ok f
  | VNumeric d => ok_or "cannot cast to float" (d_to_f64 d)
  | VText s => ok_or "cannot cast to float" (f64_parse (trim s))
  | _ => type_error "cannot cast to float"
  end.

Definition cast_to_numeric (v : Value) : vres :=
  VNumeric <$>
    match v with
    | VInt16 n | VInt32 n | VInt64 n => Ok (d_of_int n)
    | VNumeric d => Ok d
    | VFloat32 f => ok_or "cannot cast to numeric" (d_from_f32_retain f)
    | VFloat64 f => ok_or "cannot cast to numeric" (d_from_f64_retain f)
    | VText s => ok_or "cannot cast to numeric" (d_parse (trim s))
    | _ => type_error "cannot cast to numeric"
    end.

Definition cast_to_bool (v : Value) : vres :=
  match v with
  | VBool b => Ok (VBool b)
  | VInt16 n | VInt32 n | VInt64 n => Ok (VBool (negb (n =? 0)))
  | VText s =>
      let w := to_lowercase (trim s) in
      if bool_decide (w ∈ (str <$> ["true"; "t"; "yes"; "y"; "on"; "1"]%string)) then Ok (VBool true)
      else if bool_decide (w ∈ (str <$> ["false"; "f"; "no"; "n"; "off"; "0"]%string)) then Ok (VBool false)
      else type_error "cannot cast to boolean"
  | _ => type_error "cannot cast to boolean"
  end.

(** ["{byte:02x}"]. *)
Definition hex_digit (n : Z) : byte := byte_of (if n <? 10 then 48 + n else 87 + n).
Definition hex_byte (b : byte) : list byte := [hex_digit (byteZ b / 16); hex_digit (byteZ b mod 16)].

Definition cast_to_text (v : Value) : res QueryError (list byte) :=
  match v with
  | VBytes b => Ok (str "\x" ++ flat_map hex_byte b)
  | VJson j => Ok (json_to_string j)
  | _ => concat_str v
  end.

Definition cast_to_bytes (v : Value) : vres :=
  match v with
  | VBytes b => Ok (VBytes b)
  | VText s => Ok (VBytes s)
  | _ => type_error "cannot cast to bytes"
  end.

Definition cast_to_date (v : Value) : vres :=
  match v with
  | VDate d => Ok (VDate d)
  | VText s => VDate <$> ok_or "invalid DATE literal" (parse_date (trim s))
  | VTimestamp t => Ok (VDate (as_i32 (t / MICROS_PER_DAY)))
  | _ => type_error "cannot cast to date"
  end.

(** [*d as i64 * MICROS_PER_DAY]: an overflow panics in a debug build. *)
Definition cast_to_timestamp (v : Value) : vres :=
  match v with
  | VTimestamp t => Ok (VTimestamp t)
  | VText s => VTimestamp <$> ok_or "invalid TIMESTAMP literal" (parse_timestamptz (trim s))
  | VDate d => if int_ok 64 (d * MICROS_PER_DAY) then Ok (VTimestamp (d * MICROS_PER_DAY)) else Panic
  | _ => type_error "cannot cast to timestamp"
  end.

Definition cast_to_time (v : Value) : vres :=
  match v with
  | VTime t => Ok (VTime t)
  | VText s => VTime <$> ok_or "invalid TIME literal" (parse_time (trim s))
  | _ => type_error "cannot cast to time"
  end.

Definition cast_to_uuid (v : Value) : vres :=
  match v with
  | VUuid u => Ok (VUuid u)
  | VText s => VUuid <$> ok_or "cannot cast to uuid" (uuid_parse_str (trim s))
  | _ => type_error "cannot cast to uuid"
  end.

Definition cast_to_interval (v : Value) : vres :=
  match v with
  | VInterval i => Ok (VInterval i)
  | VText s => VInterval <$> ok_or "invalid INTERVAL literal" (parse_interval (trim s))
  | _ => type_error "cannot cast to interval"
  end.

Definition cast_to_json (v : Value) : vres :=
  match v with
  | VJson j => Ok (VJson j)
  | VText s => VJson <$> ok_or "cannot cast to json" (json_from_slice s)
  | _ => type_error "cannot cast to json"
  end.

Definition eval_cast (v : Value) (target : LogicalType) : vres :=
  if is_null v then Ok VNull
  else
    match target with
    | TBool => cast_to_bool v
    | TInt16 => n ← cast_to_i64 v; VInt16 <$> fit_int_cast 16 n
    | TInt32 => n ← cast_to_i64 v; VInt32 <$> fit_int_cast 32 n
    | TInt64 => n ← cast_to_i64 v; Ok (VInt64 n)
    | TFloat32 => f ← cast_to_f64 v; Ok (VFloat32 (f64_to_f32 f))
    | TFloat64 => f ← cast_to_f64 v; Ok (VFloat64 f)
    | TNumeric => cast_to_numeric v
    | TText => t ← cast_to_text v; Ok (VText t)
    | TBytes => cast_to_bytes v
    | TDate => cast_to_date v
    | TTimestamp => cast_to_timestamp v
    | TTime => cast_to_time v
    | TUuid => cast_to_uuid v
    | TInterval => cast_to_interval v
    | TJson => cast_to_json v
    | TArray _ => match v with VArray _ => Ok v | _ => type_error "cannot cast to array" end
    end.

(** ** [Expr::eval] *)

Definition eval_not (v : Value) : vres :=
  match v with
  | VNull => Ok VNull
  | VBool b => Ok (VBool (negb b))
  | _ => Err (QInternal "NOT expects Bool")
  end.

Definition is_true (v : Value) : bool := match v with VBool true => true | _ => false end.

Fixpoint eval (e : Expr) (t : Tuple) : vres :=
  match e with
  | EColumn i => match values t !! i with Some v => Ok v | None => Err (QInternal "column index out of bounds") end
  | ELiteral v => Ok v
  | ENot e => v ← eval e t; eval_not v
  | EBinary op l r => a ← eval l t; b ← eval r t; eval_binary op a b
  | ECall func args => eval_call func ((fix go l := match l with [] => [] | x :: l' => eval x t :: go l' end) args)
  | EIsNull e negated => v ← eval e t; Ok (VBool (xorb (is_null v) negated))
  | ELike e p negated => a ← eval e t; b ← eval p t; eval_like a b negated
  | ENeg e => v ← eval e t; eval_neg v
  | ECase branches else_result =>
      (fix go l :=
         match l with
         | [] => match else_result with Some e => eval e t | None => Ok VNull end
         | (cond, result) :: l' => c ← eval cond t; if is_true c then eval result t else go l'
         end) branches
  | ECast e target => v ← eval e t; eval_cast v target
  | EArray elements =>
      items ← (fix go l := match l with [] => Ok [] | x :: l' => v ← eval x t; vs ← go l'; Ok (v :: vs) end) elements;
      Ok (VArray items)
  end.
End eval.
