(* ===== verification/ExprLike.v ===== *)
(** * [LIKE] against its meaning

    [like_spec] is the declarative reading of a pattern: [%] any run, [_] one
    character, anything else itself.  The two-pointer scan of [function.rs] with
    its single backtracking point always ends, and computes it for texts
    without a [%]; a [%] in the text is taken for the pattern's. *)

From Stdlib Require Import Strings.Byte Strings.String ZArith Lia.
From stdpp Require Import prelude list.
From S2P Require Import Prelude Utf8 RustText Expression.
Local Open Scope nat_scope.

(** Some split of the text lets [%] take a prefix and [m] match the rest. *)
Fixpoint some_suffix (m : list Z -> bool) (t : list Z) : bool :=
  m t || match t with [] => false | _ :: t' => some_suffix m t' end.

Fixpoint like_spec (p t : list Z) : bool :=
  match p with
  | [] => match t with [] => true | _ => false end
  | q :: p' =>
      if Z.eqb q PERCENT then some_suffix (like_spec p') t
      else match t with
           | [] => false
           | c :: t' => (Z.eqb q UNDERSCORE || Z.eqb q c) && like_spec p' t'
           end
  end.

Section like.
Context (t p : list Z).
Hypothesis no_percent : PERCENT ∉ t.

Definition M (pi ti : nat) : bool := like_spec (drop pi p) (drop ti t).

Lemma some_suffix_true (m : list Z -> bool) (l : list Z) : some_suffix m l = true <-> exists k, k <= length l /\ m (drop k l) = true.
Proof.
  induction l as [|c l IH]; cbn; rewrite orb_true_iff.
  - split; [intros [H|]; [by exists 0|done]|]. intros (k & Hk & H). left. assert (k = 0) as -> by lia. done.
  - rewrite IH. split.
    + intros [H|(k & Hk & H)]; [by exists 0; split; [lia|]|exists (S k); split; [lia|done]].
    + intros (k & Hk & H). destruct k as [|k]; [by left|right; exists k; split; [lia|done]].
Qed.

Lemma M_star pi ti : p !! pi = Some PERCENT -> M pi ti = true <-> exists k, ti <= k <= max ti (length t) /\ M (S pi) k = true.
Proof.
  intros Hp. unfold M. rewrite (drop_S _ _ _ Hp). cbn. rewrite some_suffix_true, length_drop. split.
  - intros (k & Hk & H). exists (ti + k). rewrite drop_drop in H. split; [lia|done].
  - intros (k & Hk & H). exists (k - ti). rewrite drop_drop. replace (ti + (k - ti)) with k by lia. split; [lia|done].
Qed.

Lemma M_char pi ti q c : p !! pi = Some q -> q <> PERCENT -> t !! ti = Some c ->
  M pi ti = (Z.eqb q UNDERSCORE || Z.eqb q c) && M (S pi) (S ti).
Proof.
  intros Hp Hq Ht. unfold M. rewrite (drop_S _ _ _ Hp), (drop_S _ _ _ Ht). cbn.
  destruct (Z.eqb_spec q PERCENT); done.
Qed.

Lemma M_past_text pi ti q : p !! pi = Some q -> q <> PERCENT -> length t <= ti -> M pi ti = false.
Proof.
  intros Hp Hq Ht. unfold M. rewrite (drop_S _ _ _ Hp), (drop_ge t) by done. cbn.
  destruct (Z.eqb_spec q PERCENT); done.
Qed.

Lemma M_past_pattern pi ti c : p !! pi = None -> t !! ti = Some c -> M pi ti = false.
Proof. intros Hp Ht. unfold M. rewrite (drop_ge p) by by apply lookup_ge_None. by rewrite (drop_S _ _ _ Ht). Qed.

(** A run of the pattern without [%] consumes as many characters. *)
Lemma M_run n : forall pi k, (forall j, pi <= j < pi + n -> exists q, p !! j = Some q /\ q <> PERCENT) ->
  M pi k = true -> M (pi + n) (k + n) = true /\ (0 < n -> k + n <= length t).
Proof.
  induction n as [|n IH]; intros pi k Hr HM; [by rewrite !Nat.add_0_r; split; [|lia]|].
  destruct (Hr pi) as (q & Hq & Hne); [lia|]. destruct (t !! k) as [c|] eqn:Hk.
  - rewrite (M_char _ _ _ _ Hq Hne Hk) in HM. apply andb_true_iff in HM as [_ HM].
    destruct (IH (S pi) (S k)) as [H1 H2]; [intros j Hj; apply Hr; lia|done|].
    replace (pi + S n) with (S pi + n) by lia. replace (k + S n) with (S k + n) by lia. split; [done|].
    apply lookup_lt_Some in Hk. destruct n; [lia|]. intros _. apply H2. lia.
  - rewrite (M_past_text _ _ _ Hq Hne) in HM; [done|by apply lookup_ge_None].
Qed.

(** What the loop knows: the answer is a match from here, or from a later start
    behind the last [%]; and the pattern since that [%] has none. *)
Record inv (ti pi : nat) (star : option nat) (sti : nat) : Prop := {
  inv_ti : ti <= length t;
  inv_pi : pi <= length p;
  inv_sti : sti <= ti;
  inv_answer : M 0 0 = true <->
    M pi ti = true \/ exists sp k, star = Some sp /\ sti < k <= length t /\ M (S sp) k = true;
  inv_run : forall sp, star = Some sp -> S sp <= pi /\ pi - S sp = ti - sti
    /\ forall j, S sp <= j < pi -> exists q, p !! j = Some q /\ q <> PERCENT;
}.

Lemma inv_init : inv 0 0 None 0.
Proof. split; [lia..| |done]. split; [by left|]. intros [?|(sp & k & ? & _)]; done. Qed.

Lemma inv_step_char ti pi star sti q c : inv ti pi star sti -> t !! ti = Some c -> p !! pi = Some q ->
  (Z.eqb q UNDERSCORE || Z.eqb q c) = true -> inv (S ti) (S pi) star sti.
Proof.
  intros [H1 H2 H3 H4 H5] Ht Hp Hc. pose proof (lookup_lt_Some _ _ _ Ht). pose proof (lookup_lt_Some _ _ _ Hp).
  assert (q <> PERCENT) as Hq.
  { intros ->. change (Z.eqb PERCENT UNDERSCORE) with false in Hc. apply Z.eqb_eq in Hc. subst c. apply no_percent, list_elem_of_lookup. eauto. }
  split; [lia..| |].
  - rewrite H4, (M_char _ _ _ _ Hp Hq Ht), Hc. done.
  - intros sp Hsp. destruct (H5 sp Hsp) as (A & B & C). split; [lia|]. split; [lia|].
    intros j Hj. destruct (decide (j = pi)) as [->|]; [eauto|apply C; lia].
Qed.

Lemma inv_step_star ti pi star sti : inv ti pi star sti -> ti < length t -> p !! pi = Some PERCENT ->
  inv ti (S pi) (Some pi) ti.
Proof.
  intros [H1 H2 H3 H4 H5] Ht Hp. pose proof (lookup_lt_Some _ _ _ Hp).
  split; [lia..| |].
  - rewrite H4. split.
    + intros [HM|(sp & k & Hsp & Hk & HM)].
      * apply (M_star _ _ Hp) in HM as (k & Hk & HM). destruct (decide (k = ti)) as [->|]; [by left|right].
        exists pi, k. split; [done|]. split; [lia|done].
      * destruct (H5 sp Hsp) as (A & B & C).
        destruct (M_run (pi - S sp) (S sp) k) as [HM' Hle]; [intros j Hj; apply C; lia|done|].
        replace (S sp + (pi - S sp)) with pi in HM' by lia.
        apply (M_star _ _ Hp) in HM' as (k' & Hk' & HM'). right. exists pi, k'. split; [done|]. split; [lia|done].
    + intros HR. left. apply (M_star _ _ Hp). destruct HR as [HM|(sp & k & [= <-] & Hk & HM)]; [exists ti|exists k]; (split; [lia|done]).
  - intros sp [= <-]. split; [lia|]. split; [lia|]. intros j Hj. lia.
Qed.

Lemma inv_step_back ti pi sp sti : inv ti pi (Some sp) sti -> ti < length t -> M pi ti = false ->
  inv (S sti) (S sp) (Some sp) (S sti).
Proof.
  intros [H1 H2 H3 H4 H5] Ht HM. destruct (H5 sp eq_refl) as (A & B & C). split; [lia..| |].
  - rewrite H4, HM. split.
    + intros [?|(sp' & k & [= <-] & Hk & Hm)]; [done|]. destruct (decide (k = S sti)) as [->|]; [by left|right].
      exists sp, k. split; [done|]. split; [lia|done].
    + intros [Hm|(sp' & k & [= <-] & Hk & Hm)]; right; [exists sp, (S sti)|exists sp, k]; (split; [done|]; split; [lia|done]).
  - intros sp' [= <-]. split; [lia|]. split; [lia|]. intros j Hj. lia.
Qed.

Lemma like_tail_spec pi : M pi (length t) = like_tail p pi.
Proof.
  unfold M, like_tail. rewrite (drop_ge t) by done. induction (drop pi p) as [|q l IH]; [done|]. cbn [like_spec forallb].
  destruct (Z.eqb q PERCENT); [|done]. cbn. by rewrite orb_false_r.
Qed.

Lemma inv_done pi star sti : inv (length t) pi star sti -> M 0 0 = like_tail p pi.
Proof.
  intros [H1 H2 H3 H4 H5]. rewrite <- like_tail_spec. apply eq_bool_prop_intro. rewrite !Is_true_true, H4.
  split; [|by left]. intros [?|(sp & k & Hsp & Hk & HM)]; [done|]. destruct (H5 sp Hsp) as (A & B & C).
  destruct (M_run (pi - S sp) (S sp) k) as [_ Hle]; [intros j Hj; apply C; lia|done|].
  destruct (decide (pi = S sp)); [lia|specialize (Hle ltac:(lia)); lia].
Qed.

Definition loop_result (r : option (bool + nat)) : Prop :=
  match r with
  | Some (inl b) => M 0 0 = b
  | Some (inr pi) => M 0 0 = like_tail p pi
  | None => False
  end.

Lemma like_loop_correct fuel : forall ti pi star sti, inv ti pi star sti ->
  (length t - sti) * S (length p) + (length p - pi) < fuel ->
  loop_result (like_loop fuel t p ti pi star sti).
Proof.
  induction fuel as [|fuel IH]; intros ti pi star sti Hi Hf; [by apply Nat.nlt_0_r in Hf|]. cbn [like_loop].
  destruct (t !! ti) as [c|] eqn:Ht.
  2:{ apply lookup_ge_None in Ht. pose proof (inv_ti _ _ _ _ Hi). assert (ti = length t) as -> by lia. by eapply inv_done. }
  pose proof (lookup_lt_Some _ _ _ Ht) as Hlt. pose proof (inv_sti _ _ _ _ Hi) as Hst.
  assert (M pi ti = false -> loop_result match star with
    | Some sp => like_loop fuel t p (S sti) (S sp) star (S sti) | None => Some (inl false) end) as Hback.
  { intros HM. destruct star as [sp|].
    - apply IH; [by eapply inv_step_back|]. destruct (inv_run _ _ _ _ Hi sp eq_refl). pose proof (inv_pi _ _ _ _ Hi). nia.
    - apply not_true_is_false. intros H. apply (inv_answer _ _ _ _ Hi) in H as [H|(sp & k & ? & _)]; [congruence|done]. }
  destruct (p !! pi) as [q|] eqn:Hp; [|by apply Hback, (M_past_pattern _ _ c)].
  pose proof (lookup_lt_Some _ _ _ Hp) as Hpl.
  destruct (Z.eqb q UNDERSCORE || Z.eqb q c) eqn:Hc; [apply IH; [by eapply inv_step_char|lia]|].
  destruct (Z.eqb_spec q PERCENT) as [->|Hq].
  - apply IH; [by eapply inv_step_star|nia].
  - apply Hback. by rewrite (M_char _ _ _ _ Hp Hq Ht), Hc.
Qed.
End like.

(** The loop ends within its fuel on every text: [like_match] is never the
    default it has for an exhausted loop. *)
Lemma like_loop_ends (t p : list Z) fuel : forall ti pi star sti,
  sti <= ti <= length t -> pi <= length p -> (forall sp, star = Some sp -> S sp <= pi) ->
  (length t - sti) * S (length p) + (length p - pi) < fuel -> like_loop fuel t p ti pi star sti <> None.
Proof.
  induction fuel as [|fuel IH]; intros ti pi star sti Hi Hpi Hst Hf; [by apply Nat.nlt_0_r in Hf|]. cbn [like_loop].
  destruct (t !! ti) as [c|] eqn:Ht; [|done]. pose proof (lookup_lt_Some _ _ _ Ht).
  assert (match star with Some sp => like_loop fuel t p (S sti) (S sp) star (S sti) | None => Some (inl false) end <> None) as Hback.
  { destruct star as [sp|]; [|done]. pose proof (Hst sp eq_refl). apply IH; [lia..| |nia]. intros sp' [= <-]. lia. }
  destruct (p !! pi) as [q|] eqn:Hp; [|done]. pose proof (lookup_lt_Some _ _ _ Hp).
  destruct (_ || _); [apply IH; [lia..| |lia]; intros sp Hsp; specialize (Hst sp Hsp); lia|].
  destruct (Z.eqb q PERCENT); [|done]. apply IH; [lia..| |nia]. intros sp [= <-]. lia.
Qed.

(** C29: the scan of [LIKE] terminates within its fuel on every text and pattern,
    and on a text without a [%] it decides exactly the declarative reading of
    the pattern. *)
Theorem like_match_correct (text pattern : list byte) :
  PERCENT ∉ chars text ->
  like_match text pattern = like_spec (chars pattern) (chars text)
  /\ (forall t p, like_loop (like_fuel t p) t p 0 0 None 0 <> None).
Proof.
  intros Hn. split.
  - unfold like_match. set (t := chars text) in *. set (p := chars pattern).
    pose proof (like_loop_correct t p Hn (like_fuel t p) 0 0 None 0 (inv_init t p)) as H.
    unfold like_fuel in H at 1. specialize (H ltac:(lia)).
    destruct (like_loop _ _ _ _ _ _ _) as [[b|pi]|]; cbn in H; [done|done|done].
  - intros t p. apply like_loop_ends; [lia..|done|unfold like_fuel; lia].
Qed.

Lemma like_match_correct_witness :
  (PERCENT ∉ chars (str "mississippi")) /\ like_match (str "mississippi") (str "m%is_ip%") = true.
Proof.
  assert (PERCENT ∉ chars (str "mississippi")) as H by (eapply bool_decide_unpack; vm_compute; exact I).
  split; [exact H|]. rewrite (proj1 (like_match_correct _ (str "m%is_ip%") H)). reflexivity.
Defined.

(** A [%] of the text is matched as a literal before the pattern's [%] is
    tried as a wildcard: ['%a' LIKE '%'] is false, although [%] matches every
    text. *)
Theorem percent_text_not_matched :
  like_match (str "%a") (str "%") = false /\ like_spec (chars (str "%")) (chars (str "%a")) = true.
Proof. by vm_compute. Qed.
