(* ===== verification/ExprTyping.v ===== *)
(** * Type soundness of the evaluator

    A typing judgement for query/expression's trees and the theorem that a typed
    expression evaluates to a value of its type, to [NULL], or to a user-facing
    type error: never to [QueryError::Internal], and never to a panic unless it
    calls [REPEAT].  Values of a type keep the representation of their Rust type:
    integers in their width, text in UTF-8, floats in their format, dates and
    instants inside the calendar. *)

From Stdlib Require Import Strings.Byte Strings.String ZArith Lia.
From stdpp Require Import prelude list.
From S2P Require Import Prelude Utf8 Float FloatRange Value ValueCodec Compare RustText Temporal Expression.
Local Open Scope Z_scope.

(** What the crates' documentation says of their results. *)
Class ExprCratesOk {DEC : RustDecimal} {JS : SerdeJson} {XC : ExprCrates} : Prop := {
  d_to_i64_range d n : d_to_i64 d = Some n -> is_int 64 n;
  d_to_f64_float d f : d_to_f64 d = Some f -> is_float f64 f;
  d_to_string_utf8 d : utf8_valid (d_to_string d) = true;
  uuid_parse_length s u : uuid_parse_str s = Some u -> length u = 16%nat;
  uuid_to_string_utf8 u : utf8_valid (uuid_to_string u) = true;
  json_to_string_utf8 j : utf8_valid (json_to_string j) = true;
}.

Section typing.
Context {DEC : RustDecimal} {JS : SerdeJson} {ST : StdText} {CAL : Calendar} {XC : ExprCrates}.

(** The values of a type; elements of an array may be [NULL]. *)
Fixpoint rep (ty : LogicalType) (v : Value) : Prop :=
  match ty, v with
  | TBool, VBool _ => True
  | TInt16, VInt16 n => is_int 16 n
  | TInt32, VInt32 n => is_int 32 n
  | TInt64, VInt64 n | TTime, VTime n => is_int 64 n
  | TDate, VDate n => day_ok n
  | TTimestamp, VTimestamp n => instant_ok n
  | TText, VText s => utf8_valid s = true
  | TBytes, VBytes _ | TJson, VJson _ | TNumeric, VNumeric _ => True
  | TFloat32, VFloat32 f => is_float f32 f
  | TFloat64, VFloat64 f => is_float f64 f
  | TUuid, VUuid u => length u = 16%nat
  | TInterval, VInterval i => interval_ok i
  | TArray t, VArray items => Forall (fun x => x = VNull \/ rep t x) items
  | _, _ => False
  end.

Definition value_ok (ty : LogicalType) (v : Value) : Prop := v = VNull \/ rep ty v.

Definition row_ok (Γ : list LogicalType) (t : Tuple) : Prop := Forall2 value_ok Γ (values t).

(** ** The judgement *)

Definition is_logic (op : BinaryOperator) : bool := match op with OpAnd | OpOr => true | _ => false end.
Definition is_comparison (op : BinaryOperator) : bool :=
  match op with OpEq | OpNotEq | OpLt | OpLtEq | OpGt | OpGtEq => true | _ => false end.
Definition is_arith (op : BinaryOperator) : bool :=
  match op with OpAdd | OpSub | OpMul | OpDiv | OpMod => true | _ => false end.

Definition int_type (ty : LogicalType) : bool := match ty with TInt16 | TInt32 | TInt64 => true | _ => false end.
Definition float_type (ty : LogicalType) : bool := match ty with TFloat32 | TFloat64 => true | _ => false end.

Definition arith_type (a b : LogicalType) : LogicalType :=
  if int_type a && int_type b then TInt64 else if float_type a || float_type b then TFloat64 else TNumeric.

Definition same_type (tys : list LogicalType) : option LogicalType :=
  match tys with
  | [] => None
  | ty :: tys' => if forallb (fun t => bool_decide (t = ty)) tys' then Some ty else None
  end.

(** A call's type from its arguments'; [repeat] says whether [REPEAT] is allowed. *)
Definition call_type (repeat : bool) (f : ScalarFunc) (tys : list LogicalType) : option LogicalType :=
  match f, tys with
  | (Abs | FCeil | FFloor | FRound), [a] => Some a
  | (Greatest | Least | Coalesce), _ => same_type tys
  | Length, [_] => Some TInt64
  | Repeat, [_; _] => if repeat then Some TText else None
  | (Upper | Lower), [_] => Some TText
  | Nullif, [a; _] => Some a
  | Concat, _ => Some TText
  | Substr, [_; _; _] => Some TText
  | (TrimBoth | TrimLeading | TrimTrailing), [_; _] => Some TText
  | _, _ => None
  end.

(** A cast to an array type passes any array through, so only the array's own
    type is a target. *)
Definition cast_ok (from target : LogicalType) : Prop :=
  match target with TArray _ => from = target | _ => True end.

#[warnings="-register-all"] Inductive typed (Γ : list LogicalType) (repeat : bool) : Expr -> LogicalType -> Prop :=
| T_column i ty : Γ !! i = Some ty -> typed Γ repeat (EColumn i) ty
| T_literal v ty : value_ok ty v -> typed Γ repeat (ELiteral v) ty
| T_not e : typed Γ repeat e TBool -> typed Γ repeat (ENot e) TBool
| T_logic op l r : is_logic op = true -> typed Γ repeat l TBool -> typed Γ repeat r TBool -> typed Γ repeat (EBinary op l r) TBool
| T_comparison op l r a b : is_comparison op = true -> typed Γ repeat l a -> typed Γ repeat r b -> typed Γ repeat (EBinary op l r) TBool
| T_arith op l r a b : is_arith op = true -> typed Γ repeat l a -> typed Γ repeat r b -> typed Γ repeat (EBinary op l r) (arith_type a b)
| T_concat l r a b : typed Γ repeat l a -> typed Γ repeat r b -> typed Γ repeat (EBinary OpConcat l r) TText
| T_call f args tys ty : Forall2 (typed Γ repeat) args tys -> call_type repeat f tys = Some ty -> typed Γ repeat (ECall f args) ty
| T_is_null e a negated : typed Γ repeat e a -> typed Γ repeat (EIsNull e negated) TBool
| T_like e p a b negated : typed Γ repeat e a -> typed Γ repeat p b -> typed Γ repeat (ELike e p negated) TBool
| T_neg e ty : typed Γ repeat e ty -> typed Γ repeat (ENeg e) ty
| T_case branches els ty :
    Forall (fun br => (exists c, typed Γ repeat br.1 c) /\ typed Γ repeat br.2 ty) branches ->
    (forall e, els = Some e -> typed Γ repeat e ty) -> typed Γ repeat (ECase branches els) ty
| T_cast e a target : typed Γ repeat e a -> cast_ok a target -> typed Γ repeat (ECast e target) target
| T_array es ty : Forall (fun e => typed Γ repeat e ty) es -> typed Γ repeat (EArray es) (TArray ty).

(** Induction over the trees with their argument lists. *)
Lemma Expr_nested_ind (P : Expr -> Prop) :
  (forall i, P (EColumn i)) -> (forall v, P (ELiteral v)) ->
  (forall op l r, P l -> P r -> P (EBinary op l r)) -> (forall e, P e -> P (ENot e)) ->
  (forall f args, Forall P args -> P (ECall f args)) -> (forall e n, P e -> P (EIsNull e n)) ->
  (forall e p n, P e -> P p -> P (ELike e p n)) -> (forall e, P e -> P (ENeg e)) ->
  (forall bs els, Forall (fun br => P br.1 /\ P br.2) bs -> (forall e, els = Some e -> P e) -> P (ECase bs els)) ->
  (forall e ty, P e -> P (ECast e ty)) -> (forall es, Forall P es -> P (EArray es)) -> forall e, P e.
Proof.
  intros Hc Hl Hb Hn Hf Hi Hk Hg Hs Ht Ha. fix IH 1. intros [].
  - apply Hc.
  - apply Hl.
  - apply Hb; apply IH.
  - apply Hn, IH.
  - apply Hf. induction args as [|x l IHl]; constructor; [apply IH|exact IHl].
  - apply Hi, IH.
  - apply Hk; apply IH.
  - apply Hg, IH.
  - apply Hs; [|intros e He; destruct else_result as [e'|]; [injection He as <-; apply IH|discriminate]].
    induction branches as [|[c r] l IHl]; constructor; [split; apply IH|exact IHl].
  - apply Ht, IH.
  - apply Ha. induction elements as [|x l IHl]; constructor; [apply IH|exact IHl].
Qed.

(** ** Safe results *)

(** A good value, a type error, or a panic where [p] allows one. *)
Definition safe {A} (p : bool) (P : A -> Prop) (r : res QueryError A) : Prop :=
  match r with
  | Ok a => P a
  | Err (QType _) => True
  | Err _ => False
  | Panic => p = true
  end.

Lemma safe_bind {A B} p (P : A -> Prop) (Q : B -> Prop) (m : res QueryError A) (f : A -> res QueryError B) :
  safe p P m -> (forall a, P a -> safe p Q (f a)) -> safe p Q (m ≫= f).
Proof. destruct m as [a|e|]; cbn; [intros Ha Hf; by apply Hf|by destruct e|done]. Qed.

Lemma safe_map {A B} p (P : A -> Prop) (Q : B -> Prop) (g : A -> B) m :
  safe p P m -> (forall a, P a -> Q (g a)) -> safe p Q (g <$> m).
Proof. destruct m as [a|e|]; cbn; [intros Ha Hg; by apply Hg|by destruct e|done]. Qed.

Lemma safe_ok_or {A} p (P : A -> Prop) what (o : option A) : (forall a, o = Some a -> P a) -> safe p P (ok_or what o).
Proof. destruct o; cbn; auto. Qed.

Lemma safe_weaken {A} p (P Q : A -> Prop) m : safe p P m -> (forall a, P a -> Q a) -> safe p Q m.
Proof. destruct m; cbn; auto. Qed.

Definition outcome (p : bool) (ty : LogicalType) (r : vres) : Prop := safe p (value_ok ty) r.

Lemma value_null ty : value_ok ty VNull.
Proof. by left. Qed.

Lemma value_rep ty v : rep ty v -> value_ok ty v.
Proof. by right. Qed.

Lemma rep_array_ok t items : value_ok (TArray t) (VArray items) <-> Forall (value_ok t) items.
Proof. split; [by intros [|]|by right]. Qed.

Lemma checked_is_int w n m : checked w n = Some m -> is_int w m.
Proof.
  unfold checked, int_ok. destruct (Z.leb_spec (- 2 ^ (w - 1)) n); destruct (Z.ltb_spec n (2 ^ (w - 1))); cbn; try done.
  intros [= <-]. unfold is_int. lia.
Qed.

(** The case split of a lemma about one value: [NULL], or a value of a type. *)
Ltac by_type ty v :=
  let H := fresh "Hr" in
  unfold outcome; intros [->|H]; [cbn; try done; try (by left)|]; destruct ty, v; try done; cbn in H |- *; try done.

Context {STOK : StdTextOk} {CALOK : CalendarOk} {XCOK : ExprCratesOk}.

Lemma safe_checked p w n what (g : Z -> Value) ty :
  (forall m, is_int w m -> rep ty (g m)) -> safe p (value_ok ty) (g <$> ok_or what (checked w n)).
Proof.
  intros Hg. apply (safe_map p (is_int w)); [|intros m Hm; by right; apply Hg].
  apply safe_ok_or. intros m. apply checked_is_int.
Qed.

Lemma eval_neg_safe p ty v : value_ok ty v -> outcome p ty (eval_neg v).
Proof.
  by_type ty v; try (by apply safe_checked); right; try done;
    by apply f_opp_float.
Qed.

Lemma eval_abs_safe p ty v : value_ok ty v -> outcome p ty (eval_abs v).
Proof.
  by_type ty v; try (by apply safe_checked); right; try done;
    by apply f_abs_float.
Qed.

Lemma eval_round_safe p ty v mode : value_ok ty v -> outcome p ty (eval_round v mode).
Proof.
  by_type ty v; right; try done; [|by apply f64_round_float].
  by apply f64_to_f32_float, f64_round_float, f32_to_f64_float.
Qed.

(** ** Text *)

Lemma join_valid sep parts :
  utf8_valid sep = true -> Forall (fun s => utf8_valid s = true) parts -> utf8_valid (join sep parts) = true.
Proof.
  intros Hs. induction 1 as [|x l Hx Hl IH]; [done|]. cbn. destruct l; [done|].
  apply utf8_valid_app; [done|]. by apply utf8_valid_app.
Qed.

Definition concat_items : list Value -> res QueryError (list (list byte)) :=
  fix go l := match l with [] => Ok [] | x :: l' => p ← concat_str x; ps ← go l'; Ok (p :: ps) end.

Lemma concat_str_safe p v : forall ty, value_ok ty v -> safe p (fun s => utf8_valid s = true) (concat_str v).
Proof.
  induction v as [v Hv|items IH] using Value_nested_ind; intros ty.
  - by_type ty v; try (by apply ascii_valid, int_text_ascii); try (by destruct b).
    + destruct (format_date_ok (E := QueryError) _ Hr) as (s & -> & Hs). done.
    + destruct (format_timestamptz_ok (E := QueryError) _ Hr) as (s & -> & Hs). done.
    + apply f32_to_string_utf8.
    + apply f64_to_string_utf8.
    + apply d_to_string_utf8.
    + apply format_time_utf8.
    + apply uuid_to_string_utf8.
    + apply to_postgres_utf8.
    + by destruct (Hv items).
  - intros [?|Hr]; [done|]. destruct ty; try done. cbn in Hr. change (concat_str (VArray items)) with
      (parts ← concat_items items; @Ok QueryError _ (str "{" ++ join (str ",") parts ++ str "}")).
    apply (safe_bind p (Forall (fun s => utf8_valid s = true))).
    + clear -IH Hr STOK CALOK XCOK. induction IH as [|x l Hx _ IHl]; [constructor|]. apply Forall_cons in Hr as [Hx' Hl]. cbn [concat_items].
      eapply safe_bind; [by eapply Hx|]. intros s Hs. eapply safe_bind; [by apply IHl|]. intros l' Hl'. by constructor.
    + intros parts Hp. apply (utf8_valid_app (str "{")); [done|]. apply utf8_valid_app; [by apply join_valid|done].
Qed.

Lemma hex_ascii l : Forall (fun b => byteZ b < 128) (flat_map hex_byte l).
Proof.
  induction l as [|b l IH]; [constructor|]. cbn. pose proof (byteZ_range b).
  pose proof (Z.div_lt_upper_bound (byteZ b) 16 16 ltac:(lia) ltac:(lia)). pose proof (Z.div_pos (byteZ b) 16 ltac:(lia) ltac:(lia)).
  pose proof (Z.mod_pos_bound (byteZ b) 16 ltac:(lia)).
  assert (forall n, 0 <= n < 16 -> byteZ (hex_digit n) < 128) as Hh.
  { intros n Hn. unfold hex_digit. rewrite byteZ_of by (destruct (n <? 10); lia). destruct (n <? 10); lia. }
  constructor; [by apply Hh|]. constructor; [by apply Hh|done].
Qed.

Lemma cast_to_text_safe p ty v : value_ok ty v -> safe p (fun s => utf8_valid s = true) (cast_to_text v).
Proof.
  intros Hv. destruct v as [| | | | | |b|j| | | | | | | | |]; try exact (concat_str_safe p _ ty Hv).
  - apply (utf8_valid_app (str "\x")); [done|]. apply ascii_valid, hex_ascii.
  - apply json_to_string_utf8.
Qed.

(** ** Binary operators *)

Lemma as_i64_type ty v : rep ty v -> match as_i64 v with Some n => int_type ty = true /\ is_int 64 n | None => int_type ty = false end.
Proof. destruct ty, v; try done; cbn; unfold is_int; intros H; (split; [done|lia]). Qed.

Lemma as_f64_type ty v f : rep ty v -> as_f64 v = Some f -> is_float f64 f.
Proof.
  destruct ty, v; try done; cbn; intros Hr; try (intros [= <-]; by apply f_of_int_float).
  - intros [= <-]. by apply f32_to_f64_float.
  - by intros [= <-].
  - apply d_to_f64_float.
Qed.

Lemma is_float_type ty v : rep ty v -> is_float_value v = float_type ty.
Proof. by destruct ty, v. Qed.

Lemma int_arith_safe p op a b : is_arith op = true -> is_int 64 a -> is_int 64 b -> outcome p TInt64 (int_arith op a b).
Proof.
  intros Ho Ha Hb. destruct op; try done; cbn [int_arith]; try (by apply safe_checked); destruct (Z.eqb_spec b 0); try done; try (by apply safe_checked).
  apply (safe_map p (is_int 64)); [|intros m Hm; by right]. apply safe_ok_or. intros m.
  destruct (_ && _); [done|]. intros [= <-]. pose proof (Z.rem_bound_abs a b ltac:(done)). unfold is_int in *. lia.
Qed.

Lemma float_arith_safe p op a b : is_arith op = true -> is_float f64 a -> is_float f64 b -> outcome p TFloat64 (float_arith op a b).
Proof.
  intros Ho Ha Hb. destruct op; try done; cbn [float_arith]; try (destruct (f_eqb f64 b 0); [done|]); try done; right.
  - by apply f_add_float.
  - by apply f_sub_float.
  - by apply f_mul_float.
  - by apply f_div_float.
Qed.

Lemma decimal_arith_safe p op a b : is_arith op = true -> outcome p TNumeric (decimal_arith op a b).
Proof.
  intros Ho. assert (forall o, safe p (value_ok TNumeric) (VNumeric <$> ok_or "numeric overflow" o)) as H.
  { intros o. apply (safe_map p (fun _ => True)); [by apply safe_ok_or|intros; by right]. }
  destruct op; try done; cbn [decimal_arith]; try (destruct (d_eqb b d_zero); [done|]); apply H.
Qed.

Lemma as_decimal_type ty v d : rep ty v -> as_decimal v = Some d -> float_type ty = false.
Proof. by destruct ty, v. Qed.

Lemma eval_arithmetic_safe p op a b l r :
  is_arith op = true -> rep a l -> rep b r -> outcome p (arith_type a b) (eval_arithmetic op l r).
Proof.
  intros Ho Hl Hr. unfold eval_arithmetic, arith_type.
  pose proof (as_i64_type _ _ Hl) as Il. pose proof (as_i64_type _ _ Hr) as Ir.
  rewrite (is_float_type _ _ Hl), (is_float_type _ _ Hr).
  assert (int_type a && int_type b = false -> outcome p (if float_type a || float_type b then TFloat64 else TNumeric)
    match as_decimal l, as_decimal r with Some x, Some y => decimal_arith op x y | _, _ => type_error "cannot apply arithmetic" end) as Hd.
  { intros _. destruct (as_decimal l) as [x|] eqn:El; [|done]. destruct (as_decimal r) as [y|] eqn:Er; [|done].
    rewrite (as_decimal_type _ _ _ Hl El), (as_decimal_type _ _ _ Hr Er). by apply decimal_arith_safe. }
  assert (int_type a && int_type b = false -> outcome p (if float_type a || float_type b then TFloat64 else TNumeric)
    (if float_type a || float_type b then match as_f64 l, as_f64 r with Some x, Some y => float_arith op x y | _, _ =>
       match as_decimal l, as_decimal r with Some x, Some y => decimal_arith op x y | _, _ => type_error "cannot apply arithmetic" end end
     else match as_decimal l, as_decimal r with Some x, Some y => decimal_arith op x y | _, _ => type_error "cannot apply arithmetic" end)) as Hf.
  { intros Hi. specialize (Hd Hi). destruct (float_type a || float_type b); [|done].
    destruct (as_f64 l) as [x|] eqn:El; [|done]. destruct (as_f64 r) as [y|] eqn:Er; [|done].
    apply float_arith_safe; [done|exact (as_f64_type _ _ _ Hl El)|exact (as_f64_type _ _ _ Hr Er)]. }
  destruct (as_i64 l) as [x|], (as_i64 r) as [y|].
  - destruct Il as [-> Hx], Ir as [-> Hy]. by apply int_arith_safe.
  - destruct Il as [Il Hx]. rewrite Il, Ir in *. by apply Hf.
  - destruct Ir as [Ir Hy]. rewrite Il, Ir in *. by apply Hf.
  - rewrite Il, Ir in *. by apply Hf.
Qed.

Lemma cmp_values_safe p l : forall r, safe p (fun _ => True) (cmp_values l r).
Proof.
  assert (forall (A : Type) (r : res QueryError A), match r with Err (QType _) | Ok _ => True | _ => False end -> safe p (fun _ => True) r) as Hs.
  { intros A [|[]|]; done. }
  induction l as [v Hv|items IH] using Value_nested_ind; intros r.
  - apply Hs. destruct v as [| | | | | | | | | | | | | | | |items]; [..|by destruct (Hv items)];
      destruct r; cbn; repeat (destruct (d_to_f64 _); cbn); done.
  - destruct r as [| | | | | | | | | | | | | | | |other]; try done. cbn. revert other.
    induction IH as [|x l Hx _ IHl]; intros [|y other]; try done.
    apply (safe_bind p (fun _ => True)); [apply Hx|]. intros [] _; try done.
Qed.

Lemma eval_binary_safe p op a b ty l r :
  (is_logic op = true /\ a = TBool /\ b = TBool /\ ty = TBool)
  \/ (is_comparison op = true /\ ty = TBool) \/ (is_arith op = true /\ ty = arith_type a b) \/ (op = OpConcat /\ ty = TText) ->
  value_ok a l -> value_ok b r -> outcome p ty (eval_binary op l r).
Proof.
  intros Hty Hl Hr. unfold eval_binary. destruct (short_circuit op l r) as [x|] eqn:Es.
  { right. destruct Hty as [(_ & _ & _ & ->)|[(Ho & ->)|[(Ho & _)|(-> & _)]]]; [done|done|by destruct op|done]. }
  destruct (is_null l || is_null r) eqn:En; [by left|].
  destruct Hl as [->|Hl]; [done|]. destruct Hr as [->|Hr]; [by rewrite orb_true_r in En|].
  destruct Hty as [(Ho & -> & -> & ->)|[(Ho & ->)|[(Ho & ->)|(-> & ->)]]].
  - destruct op; try done; destruct l; try done; destruct r; try done; by right.
  - assert (forall g : comparison -> bool, outcome p TBool (c ← cmp_values l r; Ok (VBool (g c)))) as Hc.
    { intros g. eapply safe_bind; [apply cmp_values_safe|]. intros c _. by right. }
    destruct op; try done; try apply Hc; by right.
  - destruct op; try done; by apply eval_arithmetic_safe.
  - eapply safe_bind; [by eapply concat_str_safe, value_rep|]. intros s Hs.
    eapply safe_bind; [by eapply concat_str_safe, value_rep|]. intros s' Hs'. right. by apply utf8_valid_app.
Qed.

(** ** Functions *)

Lemma eval_like_safe p v w negated : outcome p TBool (eval_like v w negated).
Proof. destruct v, w; try done; try (by left); by right. Qed.

Lemma signed_range n : is_int 64 (as_i64_cast n).
Proof.
  unfold as_i64_cast, signed, unsigned, is_int. pose proof (Z.mod_pos_bound (Z.of_nat n) (2 ^ 64) ltac:(lia)).
  destruct (Z.ltb_spec (Z.of_nat n mod 2 ^ 64) (2 ^ (64 - 1))); lia.
Qed.

Lemma eval_length_safe p v : outcome p TInt64 (eval_length v).
Proof. destruct v; try done; [by left|]. right. apply signed_range. Qed.

Lemma mjoin_valid n s : utf8_valid s = true -> utf8_valid (mjoin (replicate n s)) = true.
Proof. intros Hs. induction n as [|n IH]; [done|]. cbn. by apply utf8_valid_app. Qed.

(** [REPEAT] is the one function that can panic. *)
Lemma eval_repeat_safe a v w : value_ok a v -> outcome true TText (eval_repeat v w).
Proof.
  intros Hv. unfold eval_repeat. destruct (is_null v || is_null w); [by left|]. destruct v as [| | | | |s| | | | | | | | | | |]; try done.
  eapply safe_bind; [apply (safe_ok_or _ (fun _ => True)); done|]. intros n _.
  apply (safe_map true (fun s => utf8_valid s = true)); [|intros; by right].
  unfold str_repeat. destruct (_ <=? _); [|done]. destruct Hv as [?|Hv]; [done|]. destruct a; try done. by apply mjoin_valid.
Qed.

Lemma eval_case_safe p a v upper : value_ok a v -> outcome p TText (eval_case v upper).
Proof.
  intros Hv. destruct v as [| | | | |s| | | | | | | | | | |]; try done; [by left|]. destruct Hv as [?|Hv]; [done|]. destruct a; try done.
  right. destruct upper; [by apply to_uppercase_utf8|by apply to_lowercase_utf8].
Qed.

Lemma slice_chars_valid s off n : utf8_valid s = true -> utf8_valid (from_chars (slice off n (chars s))) = true.
Proof. intros H. apply from_chars_valid, Forall_take, Forall_drop, chars_are_chars, H. Qed.

Lemma eval_substr_safe p a v from len : value_ok a v -> outcome p TText (eval_substr v from len).
Proof.
  intros Hv. unfold eval_substr. destruct (_ || _); [by left|]. destruct v as [| | | | |s| | | | | | | | | | |]; try done.
  destruct Hv as [?|Hv]; [done|]. destruct a; try done.
  eapply safe_bind; [apply (safe_ok_or _ (fun _ => True)); done|]. intros st _.
  eapply safe_bind; [apply (safe_ok_or _ (fun _ => True)); done|]. intros ln _. cbn zeta.
  destruct (_ <=? _); right; [done|by apply slice_chars_valid].
Qed.

Lemma eval_trim_safe p a v w leading trailing : value_ok a v -> outcome p TText (eval_trim v w leading trailing).
Proof.
  intros Hv. unfold eval_trim. destruct (_ || _); [by left|]. destruct v as [| | | | |s| | | | | | | | | | |]; try done.
  destruct Hv as [?|Hv]; [done|]. destruct a; try done. destruct w; try done. right. by apply slice_chars_valid.
Qed.

Lemma eval_coalesce_safe p ty args : Forall (outcome p ty) args -> outcome p ty (eval_coalesce args).
Proof.
  induction 1 as [|r l Hr _ IH]; [by left|]. cbn. eapply safe_bind; [exact Hr|]. intros v Hv. by destruct (is_null v).
Qed.

Lemma eval_extreme_safe p ty greatest args : Forall (outcome p ty) args -> forall best,
  (forall v, best = Some v -> value_ok ty v) -> outcome p ty (eval_extreme_go greatest best args).
Proof.
  induction 1 as [|r l Hr _ IH]; intros best Hb; cbn.
  - destruct best as [v|]; [by apply Hb|by left].
  - eapply safe_bind; [exact Hr|]. intros v Hv. destruct (is_null v); [by apply IH|].
    destruct best as [cur|]; [|apply IH; by intros w [= <-]]. eapply safe_bind; [apply cmp_values_safe|]. intros c _.
    apply IH. intros w [= <-]. destruct greatest; [destruct (is_lt c)|destruct (is_gt c)]; auto.
Qed.

Lemma eval_concat_safe p tys args : Forall2 (fun r ty => outcome p ty r) args tys -> forall out,
  utf8_valid out = true -> outcome p TText (eval_concat_go args out).
Proof.
  induction 1 as [|r ty l tys Hr _ IH]; intros out Ho; cbn; [by right|].
  eapply safe_bind; [exact Hr|]. intros v Hv. pose proof (concat_str_safe p v ty Hv) as Hs.
  destruct v; try (by apply IH); (eapply safe_bind; [exact Hs|]; intros ? ?; apply IH; by apply utf8_valid_app).
Qed.

Lemma same_type_all ty tys : same_type tys = Some ty -> Forall (eq ty) tys.
Proof.
  destruct tys as [|t tys]; [done|]. cbn. destruct (forallb _ tys) eqn:E; [|done]. intros [= <-]. constructor; [done|].
  apply Forall_forall. intros x Hx. rewrite forallb_forall in E. symmetry. apply (bool_decide_eq_true_1 _ (E x (proj1 (list_elem_of_In _ _) Hx))).
Qed.

Lemma same_outcome p ty tys args : same_type tys = Some ty -> Forall2 (fun r ty => outcome p ty r) args tys -> Forall (outcome p ty) args.
Proof.
  intros Hs H. apply same_type_all in Hs. induction H as [|r t l tys Hr _ IH]; [constructor|].
  apply Forall_cons in Hs as [-> Hs]. constructor; [done|by apply IH].
Qed.

Lemma eval_call_safe p f tys ty args : call_type p f tys = Some ty ->
  Forall2 (fun r ty => outcome p ty r) args tys -> outcome p ty (eval_call f args).
Proof.
  intros Hc Ha. destruct f; cbn in Hc;
    try (apply eval_extreme_safe; [by eapply same_outcome|done]);
    try (apply eval_coalesce_safe; by eapply same_outcome);
    try (injection Hc as <-; by eapply eval_concat_safe);
    (destruct tys as [|a [|b [|c [|d tys]]]]; try done; try (destruct p; [|done]); injection Hc as <-;
     repeat match goal with
     | H : Forall2 _ _ (_ :: _) |- _ => apply Forall2_cons_inv_r in H as (? & ? & ? & ? & ->)
     | H : Forall2 _ _ [] |- _ => apply Forall2_nil_inv_r in H as ->
     end; cbn [eval_call arg lookup list_lookup default from_option];
     repeat (eapply safe_bind; [eassumption|intros ? ?])).
  - by apply eval_abs_safe.
  - by apply eval_round_safe.
  - by apply eval_round_safe.
  - by apply eval_round_safe.
  - apply eval_length_safe.
  - by eapply eval_repeat_safe.
  - by eapply eval_case_safe.
  - by eapply eval_case_safe.
  - unfold eval_nullif. cbn. destruct (values_eq _ _); [by left|done].
  - by eapply eval_substr_safe.
  - by eapply eval_trim_safe.
  - by eapply eval_trim_safe.
  - by eapply eval_trim_safe.
Qed.

(** ** Casts *)

Lemma parse_i64_int s n : parse_i64 s = Some n -> is_int 64 n.
Proof.
  unfold parse_i64. destruct (match s with x2d :: ds => _ | _ => _ end) as [neg ds]. destruct ds; [done|].
  destruct (digits_value 0 _); [|done]. cbn. case_bool_decide; [|done]. by intros [= <-].
Qed.

Lemma cast_to_i64_safe p ty v : rep ty v -> safe p (is_int 64) (cast_to_i64 v).
Proof.
  destruct ty, v; try done; cbn; intros Hr; try (unfold is_int in *; lia).
  - by destruct b.
  - apply safe_ok_or. intros n. apply parse_i64_int.
  - apply f64_to_i64_int.
  - apply f64_to_i64_int.
  - apply safe_ok_or. intros n. apply d_to_i64_range.
Qed.

Lemma cast_to_f64_safe p ty v : rep ty v -> safe p (is_float f64) (cast_to_f64 v).
Proof.
  destruct ty, v; try done; cbn; intros Hr; try (by apply f_of_int_float).
  - apply safe_ok_or. intros f. apply f64_parse_float.
  - by apply f32_to_f64_float.
  - apply safe_ok_or. intros f. apply d_to_f64_float.
Qed.

(** A parsed literal of a type. *)
Lemma safe_parsed {A} p ty what (g : A -> Value) (o : option A) :
  (forall a, o = Some a -> rep ty (g a)) -> safe p (value_ok ty) (g <$> ok_or what o).
Proof. intros H. destruct o as [a|]; [right; by apply H|done]. Qed.

Lemma cast_temporal_safe p from v : rep from v ->
  outcome p TDate (cast_to_date v) /\ outcome p TTimestamp (cast_to_timestamp v)
  /\ outcome p TTime (cast_to_time v) /\ outcome p TInterval (cast_to_interval v).
Proof.
  intros Hr. pose proof day_range as R. split; [|split; [|split]]; destruct from, v; try done; cbn in Hr |- *; try (by right).
  - apply safe_parsed. intros d. apply parse_date_ok.
  - right. cbn. rewrite as_i32_id; [done|]. by apply day_int.
  - apply safe_parsed. intros t. apply parse_timestamptz_ok.
  - unfold day_ok in Hr. unfold int_ok. rewrite (proj2 (Z.leb_le _ _)), (proj2 (Z.ltb_lt _ _)) by (unfold MICROS_PER_DAY; lia).
    right. cbn. unfold instant_ok. rewrite Z.div_mul by done. done.
  - apply safe_parsed. intros t Ht. apply parse_time_ok in Ht. cbn. unfold is_int. lia.
  - apply safe_parsed. intros i. apply parse_interval_ok.
Qed.

Lemma cast_to_bool_safe p v : outcome p TBool (cast_to_bool v).
Proof. destruct v; try done; try (by right). cbn. repeat case_bool_decide; try done; by right. Qed.

Lemma eval_cast_safe p from v target : cast_ok from target -> value_ok from v -> outcome p target (eval_cast v target).
Proof.
  intros Hc [->|Hr]; [by left|]. unfold eval_cast. destruct (is_null v); [by left|].
  destruct (cast_temporal_safe p from v Hr) as (Hd & Ht & Hm & Hi).
  destruct target; try done.
  - apply cast_to_bool_safe.
  - eapply safe_bind; [by eapply cast_to_i64_safe|]. intros n _. by apply safe_checked.
  - eapply safe_bind; [by eapply cast_to_i64_safe|]. intros n _. by apply safe_checked.
  - eapply safe_bind; [by eapply cast_to_i64_safe|]. intros n Hn. by right.
  - eapply safe_bind; [by eapply cast_to_text_safe, value_rep|]. intros s Hs. by right.
  - destruct from, v; try done; by right.
  - destruct from, v; try done; [|by right]. by apply safe_parsed.
  - eapply safe_bind; [by eapply cast_to_f64_safe|]. intros f Hf. right. by apply f64_to_f32_float.
  - eapply safe_bind; [by eapply cast_to_f64_safe|]. intros f Hf. by right.
  - apply (safe_map p (fun _ => True)); [|intros; by right]. destruct from, v; try done; by apply safe_ok_or.
  - destruct from, v; try done; [|by right]. apply safe_parsed. intros u. apply uuid_parse_length.
  - cbn in Hc. subst from. destruct v; try done. by right.
Qed.

(** ** Soundness *)

Definition eval_all (t : Tuple) : list Expr -> list vres :=
  fix go l := match l with [] => [] | x :: l' => eval x t :: go l' end.

Lemma typed_eval Γ p t e : row_ok Γ t -> forall ty, typed Γ p e ty -> outcome p ty (eval e t).
Proof.
  intros Hrow. induction e as [i|v|op l r IHl IHr|e IH|f args IH|e n IH|e q n IHe IHq|e IH|bs els IHb IHe|e target IH|es IH]
    using Expr_nested_ind; intros ty Ht; inversion Ht; subst; cbn [eval].
  - destruct (Forall2_lookup_l _ _ _ _ _ Hrow H0) as (v & Hv & Hok). rewrite Hv. exact Hok.
  - done.
  - eapply safe_bind; [by apply IHl|]. intros a Ha. eapply safe_bind; [by apply IHr|]. intros b Hb.
    apply (eval_binary_safe p op TBool TBool); [by left|done|done].
  - eapply safe_bind; [by apply IHl|]. intros x Hx. eapply safe_bind; [by apply IHr|]. intros y Hy.
    eapply eval_binary_safe; [by right; left|exact Hx|exact Hy].
  - eapply safe_bind; [by apply IHl|]. intros x Hx. eapply safe_bind; [by apply IHr|]. intros y Hy.
    eapply eval_binary_safe; [by right; right; left|exact Hx|exact Hy].
  - eapply safe_bind; [by apply IHl|]. intros x Hx. eapply safe_bind; [by apply IHr|]. intros y Hy.
    eapply eval_binary_safe; [by right; right; right|exact Hx|exact Hy].
  - eapply safe_bind; [by apply IH|]. intros v [->|Hv]; [by left|]. destruct v; try done. by right.
  - eapply eval_call_safe; [eassumption|]. change (Forall2 (fun r ty => outcome p ty r) (eval_all t args) tys).
    clear -IH H1. induction H1 as [|x ty' l tys Hx _ IHl]; [constructor|]. apply Forall_cons in IH as [Hx' Hl].
    constructor; [by apply Hx'|by apply IHl].
  - eapply safe_bind; [by eapply IH|]. intros v Hv. by right.
  - eapply safe_bind; [by eapply IHe|]. intros v Hv. eapply safe_bind; [by eapply IHq|]. intros w Hw. apply eval_like_safe.
  - eapply safe_bind; [by apply IH|]. intros v Hv. by apply eval_neg_safe.
  - induction IHb as [|[c r] l [Hc Hr] _ IHl].
    + destruct els as [e|]; [apply IHe; [done|auto]|by left].
    + apply Forall_cons in H1 as [[[a Ha] Hr'] Hl]. cbn in *. eapply safe_bind; [by eapply Hc|]. intros v Hv.
      destruct (is_true v); [by apply Hr|]. apply IHl; [constructor; done|done].
  - eapply safe_bind; [by apply IH|]. intros v Hv. by eapply eval_cast_safe.
  - apply (safe_bind p (Forall (value_ok ty0))); [|intros l Hl; by right].
    clear -IH H0. induction IH as [|x l Hx _ IHl]; [constructor|]. apply Forall_cons in H0 as [Hx' Hl].
    eapply safe_bind; [by apply Hx|]. intros v Hv. eapply safe_bind; [by apply IHl|]. intros vs Hvs. by constructor.
Qed.

(** C28: type soundness.  On a row that fits its column types, a typed expression
    evaluates to [NULL] or a value of its type, in the representation of its Rust
    type (integers in width, UTF-8 text, floats of their format), or fails with
    the user-facing [Type] error; it never fails with [Internal], and it panics
    only if it calls [REPEAT]. *)
Theorem well_typed_eval (Γ : list LogicalType) (repeat : bool) (e : Expr) (ty : LogicalType) (t : Tuple) :
  typed Γ repeat e ty -> row_ok Γ t ->
  match eval e t with
  | Ok v => v = VNull \/ rep ty v
  | Err (QType _) => True
  | Err _ => False
  | Panic => repeat = true
  end.
Proof. intros He Ht. exact (typed_eval Γ repeat t e Ht ty He). Qed.
End typing.

#[export] Hint Resolve value_null value_rep : strata.

(** ** Instances for the witnesses *)

Module PlainCrates.
(** ASCII case, floats as the decimal text of their bits. *)
Definition ascii_case (from shift : Z) (b : byte) : byte :=
  if (from <=? byteZ b) && (byteZ b <=? from + 25) then byte_of (byteZ b + shift) else b.

#[export] Instance plain_text : StdText := {|
  f32_to_string := fun f => int_text f;
  f64_to_string := fun f => int_text f;
  f64_parse := fun s => n ← parse_i64 s; if 0 <=? n then Some n else None;
  to_uppercase := fun s => if utf8_valid (ascii_case 97 (-32) <$> s) then ascii_case 97 (-32) <$> s else s;
  to_lowercase := fun s => if utf8_valid (ascii_case 65 32 <$> s) then ascii_case 65 32 <$> s else s;
|}.

#[export] Instance plain_text_ok : StdTextOk (ST := plain_text).
Proof.
  split; cbn.
  - intros f. apply ascii_valid, int_text_ascii.
  - intros f. apply ascii_valid, int_text_ascii.
  - intros s f. destruct (parse_i64 s) as [n|] eqn:E; [|done]. cbn. apply parse_i64_int in E. destruct (Z.leb_spec 0 n); [|done].
    intros [= <-]. unfold is_int in E. unfold is_float, sign_bit. cbn. lia.
  - intros s Hs. by destruct (utf8_valid (ascii_case 97 (-32) <$> s)) eqn:E.
  - intros s Hs. by destruct (utf8_valid (ascii_case 65 32 <$> s)) eqn:E.
Qed.

(** Days as numbers in [chrono]'s range. *)
#[export] Instance plain_calendar : Calendar := {|
  NaiveDate := Z;
  min_day := -96465292;
  max_day := 95026236;
  date_from_str := parse_i64;
  date_since_epoch := fun d => Z.max (-96465292) (Z.min 95026236 d);
  epoch_add_days := fun n => if (-96465292 <=? n) && (n <=? 95026236) then Some n else None;
  date_format := int_text;
  parse_from_rfc3339 := fun _ => None;
  datetime_parse_from_str := fun _ _ => None;
  naive_datetime_parse_from_str := fun _ _ => None;
  from_timestamp_micros := fun t => if (-96465292 <=? t / MICROS_PER_DAY) && (t / MICROS_PER_DAY <=? 95026236) then Some (int_text t) else None;
  naive_time_parse_from_str := fun _ _ => None;
  from_postgres := fun _ => None;
  from_sql := fun _ => None;
  from_iso := fun _ => None;
  to_postgres := fun i => int_text (to_micros i);
|}.

#[export] Instance plain_calendar_ok : CalendarOk (CAL := plain_calendar).
Proof.
  split; cbn; try done; try lia.
  - intros n Hn. exists n. by rewrite (proj2 (Z.leb_le _ _)), (proj2 (Z.leb_le _ _)) by lia.
  - intros d. apply ascii_valid, int_text_ascii.
  - intros t Ht. exists (int_text t). by rewrite (proj2 (Z.leb_le _ _)), (proj2 (Z.leb_le _ _)) by lia.
  - intros t s. destruct (_ && _); [|done]. intros [= <-]. apply ascii_valid, int_text_ascii.
  - intros i. apply ascii_valid, int_text_ascii.
Qed.

Import PlainDecimal PlainJson.

(** Exact sums and products where the scales agree. *)
#[export] Instance plain_crates : ExprCrates := {|
  d_zero := PlainDecimal.mk (0, 0);
  d_checked_add := fun a b => if d_scale a =? d_scale b then Some (PlainDecimal.mk (d_mantissa a + d_mantissa b, d_scale a)) else None;
  d_checked_sub := fun a b => if d_scale a =? d_scale b then Some (PlainDecimal.mk (d_mantissa a - d_mantissa b, d_scale a)) else None;
  d_checked_mul := fun a b => Some (PlainDecimal.mk (d_mantissa a * d_mantissa b, d_scale a + d_scale b));
  d_checked_div := fun _ _ => None;
  d_checked_rem := fun _ _ => None;
  d_neg := fun a => PlainDecimal.mk (- d_mantissa a, d_scale a);
  d_round := fun _ a => a;
  d_to_i64 := fun a => if d_scale a =? 0 then checked 64 (d_mantissa a) else None;
  d_from_f32_retain := fun _ => None;
  d_from_f64_retain := fun _ => None;
  d_parse := fun s => n ← parse_i64 s; Some (PlainDecimal.mk (n, 0));
  d_to_string := fun a => int_text (d_mantissa a);
  uuid_parse_str := fun s => if (length s =? 16)%nat then Some s else None;
  uuid_to_string := fun u => flat_map hex_byte u;
  json_to_string := fun _ => str "null";
|}.

#[export] Instance plain_crates_ok : ExprCratesOk (XC := plain_crates).
Proof.
  split; cbn; try done.
  - intros d n. destruct (_ =? 0); [apply checked_is_int|done].
  - intros d f Hf. injection Hf as <-. by apply f_div_float.
  - intros d. apply ascii_valid, int_text_ascii.
  - intros s u. destruct (Nat.eqb_spec (length s) 16); [by intros [= <-]|done].
  - intros u. apply ascii_valid, hex_ascii.
Qed.
End PlainCrates.

Section witness.
Import PlainDecimal PlainJson PlainCrates.

(** [CASE WHEN n > 5 AND s LIKE 'a%' THEN UPPER(s) || n END]. *)
Definition demo_expr : Expr :=
  ECase [(EBinary OpAnd (EBinary OpGt (EColumn 0) (ELiteral (VInt64 5)))
                        (ELike (EColumn 1) (ELiteral (VText (str "a%"))) false),
          EBinary OpConcat (ECall Upper [EColumn 1]) (EColumn 0))] None.

Definition demo_tuple : Tuple := MkTuple [VInt32 7; VText (str "abc")].

Lemma demo_typed : typed [TInt32; TText] false demo_expr TText.
Proof.
  apply T_case; [|done]. constructor; [|constructor]. split.
  - exists TBool. apply T_logic; [done| |].
    + eapply T_comparison; [done|by apply T_column|]. apply (T_literal _ _ _ TInt64). right. cbn. unfold is_int. lia.
    + eapply T_like; [by apply T_column|]. apply (T_literal _ _ _ TText). by right.
  - eapply T_concat; [|by apply T_column]. eapply T_call; [repeat constructor; by apply T_column|done].
Qed.

Lemma well_typed_eval_witness :
  eval demo_expr demo_tuple = Ok (VText (str "ABC7"))
  /\ match eval demo_expr demo_tuple with
     | Ok v => v = VNull \/ rep TText v
     | Err (QType _) => True
     | Err _ => False
     | Panic => false = true
     end.
Proof.
  split; [reflexivity|]. apply (well_typed_eval [TInt32; TText] false demo_expr TText demo_tuple demo_typed).
  constructor; [right; cbn; unfold is_int; lia|]. constructor; [right; reflexivity|constructor].
Defined.

(** An operand of the wrong type of a logical operator is reported as
    [Internal], which the binder does not prevent: [NOT 5]. *)
Example not_of_number_is_internal (t : Tuple) :
  eval (ENot (ELiteral (VInt64 5))) t = Err (QInternal "NOT expects Bool").
Proof. done. Qed.

(** A cast to an array type keeps the elements' types:
    [CAST(ARRAY[1] AS TEXT[])] holds an integer. *)
Example array_cast_keeps_elements (t : Tuple) :
  eval (ECast (EArray [ELiteral (VInt64 1)]) (TArray TText)) t = Ok (VArray [VInt64 1]).
Proof. done. Qed.

(** [REPEAT('ab', 9223372036854775807)] panics. *)
Example repeat_panics (t : Tuple) :
  eval (ECall Repeat [ELiteral (VText (str "ab")); ELiteral (VInt64 9223372036854775807)]) t = Panic.
Proof. done. Qed.
End witness.
