(* ===== verification/Binder.v ===== *)
(** * Binding: scopes, lowered expressions and inserted rows

    query/planner/binder: name resolution ([scope.rs], [mod.rs]), the function
    registry and the lowering of [BETWEEN], [IN], [SUBSTRING], [TRIM] and [CASE]
    ([expr.rs]), and [INSERT]'s rows ([dml.rs]).  The parser's tree is
    [sqlparser]'s; a sub-expression enters here as the result of binding it, an
    object name as its parts (an identifier's text where the part is one), so
    what is modelled is what the binder makes of them. *)

From Stdlib Require Import Strings.Byte Strings.String ZArith Lia.
From stdpp Require Import prelude list strings.
From S2P Require Import Prelude Utf8 Float FloatRange Value ValueCodec Compare RustText Temporal Expression ExprTyping.
Local Open Scope Z_scope.

(** ** Names *)

Definition ObjectName : Type := list (option string).

Definition DEFAULT_PROJECT_NAME : string := "strata".
Definition DEFAULT_DATASET_NAME : string := "public".

Definition unsupported {A} (what : string) : res QueryError A := Err (QUnsupported what).

Definition name_idents (name : ObjectName) : res QueryError (list string) :=
  match mapM id name with Some l => Ok l | None => unsupported "non-identifier in name" end.

Definition qualify_table_name (name : ObjectName) : res QueryError (string * string * string) :=
  parts ← name_idents name;
  match parts with
  | [t] => Ok (DEFAULT_PROJECT_NAME, DEFAULT_DATASET_NAME, t)
  | [d; t] => Ok (DEFAULT_PROJECT_NAME, d, t)
  | [p; d; t] => Ok (p, d, t)
  | _ => unsupported "table name has too many parts"
  end.

Definition dataset_name (name : ObjectName) : res QueryError (string * string) :=
  parts ← name_idents name;
  match parts with
  | [d] => Ok (DEFAULT_PROJECT_NAME, d)
  | [p; d] => Ok (p, d)
  | _ => unsupported "CREATE SCHEMA needs [project.]dataset"
  end.

(** ** Scopes *)

Record ScopeColumn : Type := MkScopeColumn { relation : option string; sc_field : Field }.
Record Scope : Type := MkScope { columns : list ScopeColumn }.

Definition scope_empty : Scope := MkScope [].
Definition for_relation (rel : option string) (s : Schema) : Scope := MkScope (MkScopeColumn rel <$> fields s).
Definition scope_concat (l r : Scope) : Scope := MkScope (columns l ++ columns r).
Definition scope_len (s : Scope) : nat := length (columns s).
Definition scope_schema (s : Scope) : Schema := MkSchema (sc_field <$> columns s).

(** [name_matches && relation_matches]. *)
Definition column_matches (rel : option string) (name : string) (c : ScopeColumn) : bool :=
  String.eqb (fname (sc_field c)) name
  && match rel with Some r => bool_decide (relation c = Some r) | None => true end.

Fixpoint resolve_go (rel : option string) (name : string) (i : nat) (found : option nat) (cs : list ScopeColumn) : res QueryError nat :=
  match cs with
  | [] => match found with Some i => Ok i | None => Err (QInternal "unknown column") end
  | c :: cs' =>
      if column_matches rel name c then
        match found with
        | Some _ => Err (QInternal "ambiguous column")
        | None => resolve_go rel name (S i) (Some i) cs'
        end
      else resolve_go rel name (S i) found cs'
  end.

Definition resolve (s : Scope) (rel : option string) (name : string) : res QueryError nat :=
  resolve_go rel name 0 None (columns s).

(** The positions a reference matches. *)
Definition matches (s : Scope) (rel : option string) (name : string) : list nat :=
  (imap pair (columns s)) ≫= (fun p => if column_matches rel name p.2 then [p.1] else []).

Lemma resolve_go_spec rel name cs : forall i found,
  resolve_go rel name i found cs =
  match option_list found ++ (imap (fun k c => (i + k, c)%nat) cs ≫= (fun p => if column_matches rel name p.2 then [p.1] else [])) with
  | [] => Err (QInternal "unknown column")
  | [k] => Ok k
  | _ => Err (QInternal "ambiguous column")
  end.
Proof.
  induction cs as [|c cs IH]; intros i found; cbn [resolve_go imap].
  - rewrite app_nil_r. by destruct found.
  - replace (imap ((fun k (c : ScopeColumn) => ((i + k)%nat, c)) ∘ S) cs) with (imap (fun k c => ((S i + k)%nat, c)) cs)
      by (apply imap_ext; intros; cbn; f_equal; lia).
    cbn [mbind list_bind]. rewrite Nat.add_0_r. cbn [fst snd]. destruct (column_matches rel name c) eqn:E.
    + destruct found as [f|]; [done|]. rewrite IH. done.
    + rewrite IH. done.
Qed.

(** Name resolution.  A reference resolves to position [i] exactly when the
    column at [i] is the only one of the scope with that name (and relation, when
    qualified); no match is an unknown column and two or more are ambiguous.  The
    column found is the one of the scope's schema at that position. *)
Theorem resolve_unique (s : Scope) (rel : option string) (name : string) :
  resolve s rel name = match matches s rel name with
                       | [] => Err (QInternal "unknown column")
                       | [i] => Ok i
                       | _ => Err (QInternal "ambiguous column")
                       end
  /\ forall i, i ∈ matches s rel name <->
       exists f r, fields (scope_schema s) !! i = Some f /\ columns s !! i = Some (MkScopeColumn r f) /\ fname f = name
         /\ match rel with Some q => r = Some q | None => True end.
Proof.
  split.
  - unfold resolve, matches. rewrite resolve_go_spec. cbn [option_list app].
    replace (imap (fun k c => ((0 + k)%nat, c)) (columns s)) with (imap pair (columns s)) by (by apply imap_ext). done.
  - intros i. unfold matches, scope_schema. cbn [fields]. rewrite list_elem_of_bind. split.
    + intros ([k c] & Hk & Hc). cbn [fst snd] in Hk. destruct (column_matches rel name c) eqn:E; [|by apply elem_of_nil in Hk].
      apply list_elem_of_singleton in Hk as ->. apply elem_of_lookup_imap in Hc as (k' & c' & [= <- <-] & Hc).
      destruct c as [r f]. exists f, r. rewrite list_lookup_fmap, Hc. cbn in *. unfold column_matches in E. apply andb_true_iff in E as [E1 E2].
      apply String.eqb_eq in E1. split; [done|]. split; [done|]. split; [done|]. destruct rel; [by apply bool_decide_eq_true_1 in E2|done].
    + intros (f & r & _ & Hc & Hn & Hr). exists (i, MkScopeColumn r f). split.
      * cbn [fst snd]. unfold column_matches. cbn. rewrite Hn, String.eqb_refl. destruct rel as [q|]; [rewrite bool_decide_true by done|]; by apply list_elem_of_singleton.
      * apply elem_of_lookup_imap. eauto.
Qed.

(** ** Functions and lowered expressions *)

Inductive Arity : Type := Exact (n : nat) | AtLeast (n : nat) | AnyArity.

Definition accepts (a : Arity) (argc : nat) : bool :=
  match a with
  | Exact n => argc =? n
  | AtLeast n => n <=? argc
  | AnyArity => true
  end%nat.

(** The registry's rows: [None] for a name it does not hold. *)
Definition scalar_func (name : string) : option (ScalarFunc * Arity) :=
  let row (names : list string) := bool_decide (name ∈ names) in
  if row ["ABS"] then Some (Abs, Exact 1)
  else if row ["ROUND"] then Some (FRound, Exact 1)
  else if row ["COALESCE"] then Some (Coalesce, AtLeast 1)
  else if row ["NULLIF"] then Some (Nullif, Exact 2)
  else if row ["GREATEST"] then Some (Greatest, AtLeast 1)
  else if row ["LEAST"] then Some (Least, AtLeast 1)
  else if row ["CONCAT"] then Some (Concat, AnyArity)
  else if row ["LENGTH"; "CHAR_LENGTH"; "CHARACTER_LENGTH"] then Some (Length, Exact 1)
  else if row ["REPEAT"] then Some (Repeat, Exact 2)
  else if row ["UPPER"; "UCASE"] then Some (Upper, Exact 1)
  else if row ["LOWER"; "LCASE"] then Some (Lower, Exact 1)
  else None.

Definition resolve_scalar_func (name : string) (argc : nat) : res QueryError ScalarFunc :=
  match scalar_func name with
  | Some (f, arity) => if accepts arity argc then Ok f else Err (QType "wrong number of arguments")
  | None =>
      if bool_decide (name ∈ ["MAX"; "MIN"]%string) then
        if (2 <=? argc)%nat then Ok (if String.eqb name "MAX" then Greatest else Least) else unsupported "aggregate"
      else unsupported "function"
  end.

(** A call the registry accepts has a type, so it never reads past its
    arguments (the fixed-arity arms of [eval_call] index without a check). *)
Lemma resolved_call_typed (name : string) (f : ScalarFunc) (tys : list LogicalType) :
  resolve_scalar_func name (length tys) = Ok f ->
  match f with Greatest | Least | Coalesce => same_type tys <> None | _ => True end ->
  exists ty, call_type true f tys = Some ty.
Proof.
  intros H Hs. assert (match f with Abs | FRound | Length | Upper | Lower => length tys = 1%nat | Nullif | Repeat => length tys = 2%nat
    | Greatest | Least | Coalesce | Concat => True | _ => False end) as Ha.
  { unfold resolve_scalar_func in H. destruct (scalar_func name) as [[f' a]|] eqn:E.
    - destruct (accepts a (length tys)) eqn:Ea; [|done]. injection H as <-. revert E. unfold scalar_func.
      repeat (destruct (bool_decide (name ∈ _)); [intros [= <- <-]; unfold accepts in Ea; first [done|by apply Nat.eqb_eq in Ea]|]). done.
    - case_bool_decide; [|done]. destruct (2 <=? length tys)%nat; [|done]. destruct (String.eqb name "MAX"); by injection H as <-. }
  destruct f; try done; cbn; try (destruct (same_type tys); [eauto|done]); try (by eexists);
    destruct tys as [|a [|b [|c tys]]]; try done; by eexists.
Qed.

Section lowering.
Context {DEC : RustDecimal} {JS : SerdeJson} {ST : StdText} {CAL : Calendar} {XC : ExprCrates}.

(** The result of binding a sub-expression. *)
Definition bound : Type := res QueryError Expr.

Definition negate_if (negated : bool) (e : Expr) : Expr := if negated then ENot e else e.

Definition bind_between (expr low high : bound) (negated : bool) : bound :=
  value ← expr;
  low ← low;
  let ge := EBinary OpGtEq value low in
  high ← high;
  let le := EBinary OpLtEq value high in
  Ok (negate_if negated (EBinary OpAnd ge le)).

Fixpoint in_chain (value : Expr) (acc : option Expr) (list_ : list bound) : res QueryError (option Expr) :=
  match list_ with
  | [] => Ok acc
  | item :: list_ =>
      item ← item;
      let eq := EBinary OpEq value item in
      in_chain value (Some (match acc with None => eq | Some prev => EBinary OpOr prev eq end)) list_
  end.

Definition bind_in_list (expr : bound) (list_ : list bound) (negated : bool) : bound :=
  value ← expr;
  acc ← in_chain value None list_;
  Ok (negate_if negated (default (ELiteral (VBool false)) acc)).

Definition bind_substring (expr : bound) (from for_ : option bound) : bound :=
  s ← expr;
  start ← default (Ok (ELiteral (VInt64 1))) from;
  len ← default (Ok (ELiteral (VInt64 (2 ^ 63 - 1)))) for_;
  Ok (ECall Substr [s; start; len]).

Inductive TrimWhereField : Type := TrimWhereBoth | TrimWhereLeading | TrimWhereTrailing.

Definition bind_trim (expr : bound) (trim_where : option TrimWhereField) (trim_what : option bound) (trim_characters : bool) : bound :=
  if trim_characters then unsupported "TRIM(value, characters)"
  else
    let func := match trim_where with
                | None | Some TrimWhereBoth => TrimBoth
                | Some TrimWhereLeading => TrimLeading
                | Some TrimWhereTrailing => TrimTrailing
                end in
    s ← expr;
    chars ← default (Ok (ELiteral (VText (str " ")))) trim_what;
    Ok (ECall func [s; chars]).

Fixpoint case_branches (operand : option Expr) (conditions : list (bound * bound)) : res QueryError (list (Expr * Expr)) :=
  match conditions with
  | [] => Ok []
  | (condition, result) :: conditions =>
      cond ← condition;
      let cond := match operand with Some op => EBinary OpEq op cond | None => cond end in
      result ← result;
      branches ← case_branches operand conditions;
      Ok ((cond, result) :: branches)
  end.

Definition opt_bound (b : option bound) : res QueryError (option Expr) :=
  match b with Some b => Some <$> b | None => Ok None end.

Definition bind_case (operand : option bound) (conditions : list (bound * bound)) (else_result : option bound) : bound :=
  operand ← opt_bound operand;
  branches ← case_branches operand conditions;
  else_result ← opt_bound else_result;
  Ok (ECase branches else_result).

(** [bind_value] on a number's text, a string, a boolean or [NULL]. *)
Definition bind_number (s : list byte) : res QueryError Value :=
  match parse_i64 s with
  | Some n => Ok (VInt64 n)
  | None => match f64_parse s with Some f => Ok (VFloat64 f) | None => Err (QInternal "bad numeric literal") end
  end.

Definition resolve_column (scopes : list Scope) (rel : option string) (name : string) : bound :=
  match last scopes with
  | Some s => i ← resolve s rel name; Ok (EColumn i)
  | None => Err (QInternal "no scope for column ref")
  end.

(** ** [IN] and its three-valued meaning *)

Definition in_spec (v : Value) (vs : list Value) : Value :=
  if existsb (fun w => negb (is_null v) && negb (is_null w) && values_eq v w) vs then VBool true
  else if existsb (fun w => is_null v || is_null w) vs then VNull
  else VBool false.

Definition not3 (v : Value) : Value := match v with VBool b => VBool (negb b) | v => v end.

Lemma eq3 v w : eval_binary OpEq v w = Ok (if is_null v || is_null w then VNull else VBool (values_eq v w)).
Proof. unfold eval_binary. cbn. by destruct (is_null v || is_null w). Qed.

Lemma eval_eq e x t v w : eval e t = Ok v -> eval x t = Ok w ->
  eval (EBinary OpEq e x) t = Ok (if is_null v || is_null w then VNull else VBool (values_eq v w)).
Proof. intros Hv Hw. cbn [eval]. rewrite Hv, Hw. bind_ok. apply eq3. Qed.

(** [OR] of three-valued results. *)
Definition or3 (a b : Value) : Value :=
  if is_bool true a || is_bool true b then VBool true else if is_null a || is_null b then VNull else VBool false.

Definition truth (v : Value) : Prop := v = VNull \/ exists b, v = VBool b.

Lemma eval_or a b t x y : eval a t = Ok x -> eval b t = Ok y -> truth x -> truth y -> eval (EBinary OpOr a b) t = Ok (or3 x y).
Proof.
  intros Hx Hy Tx Ty. cbn [eval]. rewrite Hx, Hy. bind_ok. destruct Tx as [->|[[] ->]], Ty as [->|[[] ->]]; done.
Qed.

Lemma or3_in v w acc (vs : list Value) :
  or3 (or3 acc (if is_null v || is_null w then VNull else VBool (values_eq v w))) (in_spec v vs) = or3 acc (in_spec v (w :: vs)).
Proof.
  unfold in_spec. cbn [existsb]. set (B := existsb (fun w => negb (is_null v) && negb (is_null w) && values_eq v w) vs).
  set (N := existsb (fun w => is_null v || is_null w) vs).
  destruct acc as [|[]| | | | | | | | | | | | | | |], (is_null v), (is_null w), (values_eq v w), B, N; reflexivity.
Qed.

Lemma in_truth v vs : truth (in_spec v vs).
Proof. unfold in_spec. destruct (existsb _ vs); [right; eauto|]. destruct (existsb _ vs); [by left|right; eauto]. Qed.

Lemma or3_truth a b : truth (or3 a b).
Proof. unfold or3. destruct (_ || _); [right; eauto|]. destruct (_ || _); [by left|right; eauto]. Qed.

Lemma eq_truth v w : truth (if is_null v || is_null w then VNull else VBool (values_eq v w)).
Proof. destruct (_ || _); [by left|right; eauto]. Qed.

Lemma in_chain_eval value t v : eval value t = Ok v -> forall items vs, Forall2 (fun e w => eval e t = Ok w) items vs ->
  forall acc x, eval acc t = Ok x -> truth x ->
  exists e, in_chain value (Some acc) (Ok <$> items) = Ok (Some e) /\ eval e t = Ok (or3 x (in_spec v vs)).
Proof.
  intros Hv items vs H. induction H as [|item w items vs Hw _ IH]; intros acc x Hx Tx.
  - exists acc. split; [done|]. rewrite Hx. f_equal. unfold or3. cbn. destruct Tx as [->|[[] ->]]; done.
  - cbn [fmap list_fmap in_chain]. bind_ok. pose proof (eval_eq _ _ _ _ _ Hv Hw) as He.
    destruct (IH (EBinary OpOr acc (EBinary OpEq value item)) (or3 x (if is_null v || is_null w then VNull else VBool (values_eq v w)))) as (e & E1 & E2).
    + apply eval_or; [done|done|done|apply eq_truth].
    + apply or3_truth.
    + exists e. split; [done|]. rewrite E2. f_equal. apply or3_in.
Qed.

(** C30: [IN] means what SQL says of it.  On a row where the tested expression and
    the listed ones evaluate, the lowered [x IN (..)] is true if some listed value
    equals [x], else [NULL] if [x] or a listed value is [NULL], else false; the
    empty list is false; [NOT IN] is its three-valued negation. *)
Theorem in_list_three_valued (value : Expr) (items : list Expr) (negated : bool) (t : Tuple) (v : Value) (vs : list Value) :
  eval value t = Ok v -> Forall2 (fun e w => eval e t = Ok w) items vs ->
  exists e, bind_in_list (Ok value) (Ok <$> items) negated = Ok e
    /\ eval e t = Ok (if negated then not3 (in_spec v vs) else in_spec v vs).
Proof.
  intros Hv H.
  assert (exists e, in_chain value None (Ok <$> items) = Ok e /\ eval (default (ELiteral (VBool false)) e) t = Ok (in_spec v vs)) as (e & E1 & E2).
  { destruct H as [|item w items vs Hw H]; [by exists None|]. cbn [fmap list_fmap in_chain]. bind_ok.
    pose proof (eval_eq _ _ _ _ _ Hv Hw) as He.
    destruct (in_chain_eval value t v Hv items vs H _ _ He (eq_truth v w)) as (e & E1 & E2). exists (Some e). split; [done|].
    change (default (ELiteral (VBool false)) (Some e)) with e. rewrite E2. f_equal. pose proof (or3_in v w (VBool false) vs) as Ho.
    transitivity (or3 (VBool false) (in_spec v (w :: vs))).
    - rewrite <- Ho. unfold or3 at 1 2. destruct (is_null v), (is_null w), (values_eq v w); done.
    - destruct (in_truth v (w :: vs)) as [->|[[] ->]]; done. }
  unfold bind_in_list. bind_ok. rewrite E1. bind_ok. set (e0 := default (ELiteral (VBool false)) e) in *. clearbody e0.
  exists (negate_if negated e0). split; [done|].
  destruct negated; [|done]. cbn [negate_if eval]. rewrite E2. bind_ok. destruct (in_truth v vs) as [->|[b ->]]; done.
Qed.
End lowering.

(** ** [INSERT] *)

(** The JSON of a stored default, and a decimal as an [f32]. *)
Class BinderCrates {DEC : RustDecimal} {JS : SerdeJson} := {
  expr_from_json : string -> option Expr;
  d_to_f32 : Decimal -> option Z;
}.
Class BinderCratesOk {DEC : RustDecimal} {JS : SerdeJson} {BC : BinderCrates} : Prop := {
  d_to_f32_float d f : d_to_f32 d = Some f -> is_float f32 f;
}.

Section insert.
Context {DEC : RustDecimal} {JS : SerdeJson} {ST : StdText} {CAL : Calendar} {XC : ExprCrates} {BC : BinderCrates}.

Fixpoint target_columns (fs : list Field) (indices : list nat) (cols : list ObjectName) : res QueryError (list nat) :=
  match cols with
  | [] => Ok indices
  | col :: cols' =>
      name ← match col with
             | [Some n] => Ok n
             | [None] => unsupported "non-identifier column in INSERT"
             | _ => unsupported "qualified column in INSERT"
             end;
      idx ← match list_find (fun f => fname f = name) fs with
            | Some (i, _) => Ok i
            | None => Err (QType "column does not exist")
            end;
      if bool_decide (idx ∈ indices) then Err (QType "column specified more than once")
      else target_columns fs (indices ++ [idx]) cols'
  end.

Definition resolve_target_columns (cols : list ObjectName) (fs : list Field) : res QueryError (option (list nat)) :=
  match cols with
  | [] => Ok None
  | _ => Some <$> target_columns fs [] cols
  end.

Definition fit_int (n : Z) (ty : LogicalType) : vres :=
  match ty with
  | TInt64 => Ok (VInt64 n)
  | TInt32 => VInt32 <$> ok_or "out of range for column" (checked 32 n)
  | TInt16 => VInt16 <$> ok_or "out of range for column" (checked 16 n)
  | _ => Panic
  end.

Definition no_coercion : vres := Err (QType "cannot insert into column").

(** [coerce_value]: the guards are the column's type. *)
Fixpoint coerce_value (v : Value) (ty : LogicalType) (nullable : bool) : vres :=
  match v with
  | VNull => if nullable then Ok VNull else Err (QType "NULL into NOT NULL column")
  | VArray items =>
      match ty with
      | TArray elem =>
          l ← (fix go l := match l with
                           | [] => Ok []
                           | x :: l' =>
                               y ← (if is_null x then Err (QType "NULL array elements aren't supported") else coerce_value x elem false);
                               ys ← go l';
                               Ok (y :: ys)
                           end) items;
          Ok (VArray l)
      | _ => no_coercion
      end
  | VInt16 n | VInt32 n | VInt64 n =>
      match ty with
      | TInt16 | TInt32 | TInt64 => fit_int n ty
      | TFloat32 => Ok (VFloat32 (f64_to_f32 (f_of_int f64 n)))
      | TFloat64 => Ok (VFloat64 (f_of_int f64 n))
      | TNumeric => Ok (VNumeric (d_of_int n))
      | _ => no_coercion
      end
  | VFloat64 f =>
      match ty with
      | TFloat64 => Ok v
      | TFloat32 => Ok (VFloat32 (f64_to_f32 f))
      | _ => no_coercion
      end
  | VFloat32 f =>
      match ty with
      | TFloat32 => Ok v
      | TFloat64 => Ok (VFloat64 (f32_to_f64 f))
      | _ => no_coercion
      end
  | VNumeric d =>
      match ty with
      | TNumeric => Ok v
      | TFloat64 => VFloat64 <$> ok_or "NUMERIC out of range for DOUBLE" (d_to_f64 d)
      | TFloat32 => VFloat32 <$> ok_or "NUMERIC out of range for REAL" (d_to_f32 d)
      | _ => no_coercion
      end
  | VBool _ => match ty with TBool => Ok v | _ => no_coercion end
  | VDate _ => match ty with TDate => Ok v | _ => no_coercion end
  | VTimestamp _ => match ty with TTimestamp => Ok v | _ => no_coercion end
  | VTime _ => match ty with TTime => Ok v | _ => no_coercion end
  | VUuid _ => match ty with TUuid => Ok v | _ => no_coercion end
  | VInterval _ => match ty with TInterval => Ok v | _ => no_coercion end
  | VText _ => match ty with TText => Ok v | _ => no_coercion end
  | VBytes _ => match ty with TBytes => Ok v | _ => no_coercion end
  | VJson _ => match ty with TJson => Ok v | _ => no_coercion end
  end.

Definition resolve_default (f : Field) : vres :=
  match fdefault f with
  | Some json =>
      match expr_from_json json with
      | Some e => v ← eval e (MkTuple []); coerce_value v (fty f) (nullable f)
      | None => Err (QInternal "deserialize DEFAULT expression")
      end
  | None => if nullable f then Ok VNull else Err (QType "missing value for column")
  end.

Definition const_eval (b : bound) : vres := e ← b; eval e (MkTuple []).

(** [slots[field_idx] = Some(expr)] for each value of the row. *)
Fixpoint fill_slots (targets : option (list nat)) (pos : nat) (exprs : list bound) (slots : list (option bound)) : res QueryError (list (option bound)) :=
  match exprs with
  | [] => Ok slots
  | e :: exprs' =>
      idx ← match targets with
            | Some cols => match cols !! pos with Some i => Ok i | None => Panic end
            | None => Ok pos
            end;
      if (idx <? length slots)%nat then fill_slots targets (S pos) exprs' (<[idx := Some e]> slots) else Panic
  end.

Fixpoint row_values (fs : list Field) (slots : list (option bound)) : res QueryError (list Value) :=
  match fs, slots with
  | f :: fs', slot :: slots' =>
      v ← match slot with
          | Some e => v ← const_eval e; coerce_value v (fty f) (nullable f)
          | None => resolve_default f
          end;
      vs ← row_values fs' slots';
      Ok (v :: vs)
  | _, _ => Ok []
  end.

Definition bind_row (s : Schema) (targets : option (list nat)) (exprs : list bound) : res QueryError Tuple :=
  let expected := match targets with Some cols => length cols | None => length (fields s) end in
  if (expected <? length exprs)%nat then Err (QType "INSERT has too many values")
  else
    slots ← fill_slots targets 0 exprs (replicate (length (fields s)) None);
    vs ← row_values (fields s) slots;
    Ok (MkTuple vs).

(** [bind_insert] once the table is resolved: the rows of the [Values] node. *)
Definition bind_insert (s : Schema) (cols : list ObjectName) (rows : list (list bound)) : res QueryError (list Tuple) :=
  targets ← resolve_target_columns cols (fields s);
  collect_res (bind_row s targets <$> rows).

(** ** Inserted rows fit their table *)

(** A value with its Rust type's representation and lengths a [u32] can carry. *)
Fixpoint storable (v : Value) : Prop :=
  match v with
  | VNull | VBool _ | VNumeric _ => True
  | VInt16 n => is_int 16 n
  | VInt32 n | VDate n => is_int 32 n
  | VInt64 n | VTimestamp n | VTime n => is_int 64 n
  | VText s => utf8_valid s = true /\ Z.of_nat (length s) <= u32_max
  | VBytes b => Z.of_nat (length b) <= u32_max
  | VJson j => json_from_slice (json_to_vec j) = Some j /\ Z.of_nat (length (json_to_vec j)) <= u32_max
  | VFloat32 f => is_float f32 f
  | VFloat64 f => is_float f64 f
  | VUuid u => length u = 16%nat
  | VInterval i => interval_ok i
  | VArray items => Z.of_nat (length items) <= u32_max /\ (fix go l := match l with [] => True | x :: l' => storable x /\ go l' end) items
  end.

(** The column accepts the value: its type, or [NULL] where the column allows it. *)
Definition fits_column (f : Field) (v : Value) : Prop :=
  (v = VNull /\ nullable f = true) \/ has_type (fty f) v.

Context {DECok : RustDecimalOk} {XCok : ExprCratesOk} {BCok : BinderCratesOk}.

Lemma map_Ok_inv {A B} (g : A -> B) (m : res QueryError A) b : g <$> m = Ok b -> exists a, m = Ok a /\ b = g a.
Proof. destruct m; cbn; [intros [= <-]; eauto|done|done]. Qed.

Lemma ok_or_inv {A} what (o : option A) a : ok_or what o = Ok a -> o = Some a.
Proof. destruct o; cbn; [by intros [= ->]|done]. Qed.

Lemma fit_int_type n ty w : is_int 64 n -> fit_int n ty = Ok w -> has_type ty w.
Proof.
  intros Hn. destruct ty; try done; cbn.
  - intros H. apply map_Ok_inv in H as (m & H & ->). apply ok_or_inv, checked_is_int in H. exact H.
  - intros H. apply map_Ok_inv in H as (m & H & ->). apply ok_or_inv, checked_is_int in H. exact H.
  - by intros [= <-].
Qed.

Definition coerce_items (elem : LogicalType) : list Value -> res QueryError (list Value) :=
  fix go l := match l with
              | [] => Ok []
              | x :: l' =>
                  y ← (if is_null x then Err (QType "NULL array elements aren't supported") else coerce_value x elem false);
                  ys ← go l';
                  Ok (y :: ys)
              end.

Definition storable_items : list Value -> Prop :=
  fix go l := match l with [] => True | x :: l' => storable x /\ go l' end.

Lemma coerce_int_type n ty nl v w : (v = VInt16 n \/ v = VInt32 n \/ v = VInt64 n) -> is_int 64 n -> coerce_value v ty nl = Ok w -> has_type ty w.
Proof.
  intros Hv Hn. assert (coerce_value v ty nl = coerce_value (VInt64 n) ty nl) as -> by (by destruct Hv as [->|[->| ->]]).
  destruct ty; try done; cbn [coerce_value].
  - by apply fit_int_type.
  - by apply fit_int_type.
  - by apply fit_int_type.
  - intros [= <-]. by apply f64_to_f32_float, f_of_int_float.
  - intros [= <-]. by apply f_of_int_float.
  - by intros [= <-].
Qed.

Lemma coerce_fits v : forall ty nl w, storable v -> coerce_value v ty nl = Ok w -> (w = VNull /\ nl = true) \/ has_type ty w.
Proof.
  induction v as [v Hv|items IH] using Value_nested_ind; intros ty nl w Hs.
  - destruct v as [| |n|n|n| | | | | |f|f|d| | | |items]; [..|by destruct (Hv items)].
    + cbn. destruct nl; [|done]. intros [= <-]. by left.
    + destruct ty; try done. intros [= <-]. by right.
    + intros H. right. eapply coerce_int_type; [by left| |exact H]. cbn in Hs. unfold is_int in *. lia.
    + intros H. right. eapply coerce_int_type; [by right; left| |exact H]. cbn in Hs. unfold is_int in *. lia.
    + intros H. right. eapply coerce_int_type; [by right; right| |exact H]. done.
    + destruct ty; try done. intros [= <-]. by right.
    + destruct ty; try done. intros [= <-]. by right.
    + destruct ty; try done. intros [= <-]. by right.
    + destruct ty; try done. intros [= <-]. by right.
    + destruct ty; try done. intros [= <-]. by right.
    + destruct ty; try done; intros [= <-]; right; [done|]. by apply f32_to_f64_float.
    + destruct ty; try done; intros [= <-]; right; [|done]. by apply f64_to_f32_float.
    + destruct ty; try done; cbn; intros H; right.
      * apply map_Ok_inv in H as (f & H & ->). apply ok_or_inv in H. by eapply d_to_f32_float.
      * apply map_Ok_inv in H as (f & H & ->). apply ok_or_inv in H. by eapply d_to_f64_float.
      * by injection H as <-.
    + destruct ty; try done. intros [= <-]. by right.
    + destruct ty; try done. intros [= <-]. by right.
    + destruct ty; try done. intros [= <-]. by right.
  - destruct ty as [| | | | | | | | | | | | | | |elem]; try done. change (coerce_value (VArray items) (TArray elem) nl) with (l ← coerce_items elem items; @Ok QueryError _ (VArray l)).
    destruct Hs as [Hlen Hs]. intros H. destruct (coerce_items elem items) as [l| |] eqn:E; [|done..]. injection H as <-. right. cbn.
    assert (length l = length items /\ Forall (has_type elem) l) as [Hl HF]; [|by rewrite Hl].
    clear Hlen. revert l E. induction IH as [|x items Hx _ IHl]; intros l; [by intros [= <-]|]. destruct Hs as [Hsx Hs]. cbn [coerce_items].
    destruct (is_null x) eqn:En; [done|]. destruct (coerce_value x elem false) as [y| |] eqn:Ex; [|done..]. bind_ok.
    destruct (coerce_items elem items) as [ys| |] eqn:Ey; [|done..]. bind_ok. intros [= <-].
    destruct (IHl Hs ys eq_refl) as [Hl HF]. destruct (Hx elem false y Hsx Ex) as [[_ ?]|Hy]; [done|]. split; [cbn; by rewrite Hl|by constructor].
Qed.

(** The column the value at position [k] of a row is for. *)
Definition target (targets : option (list nat)) (k : nat) : option nat :=
  match targets with Some cols => cols !! k | None => Some k end.

Definition targets_ok (targets : option (list nat)) : Prop := match targets with Some cols => NoDup cols | None => True end.

Lemma target_inj targets k k' i : targets_ok targets -> target targets k = Some i -> target targets k' = Some i -> k = k'.
Proof. destruct targets as [cols|]; cbn; [intros H H1 H2; by eapply NoDup_lookup|congruence]. Qed.

Lemma target_columns_nodup fs cols : forall indices l, NoDup indices -> target_columns fs indices cols = Ok l -> NoDup l.
Proof.
  induction cols as [|col cols IH]; intros indices l Hn; cbn; [by intros [= <-]|].
  destruct (match col with [Some n] => _ | [None] => _ | _ => _ end) as [name| |]; [|done..]. cbn.
  destruct (match list_find _ fs with Some (i, _) => _ | None => _ end) as [idx| |]; [|done..]. cbn.
  case_bool_decide as Hin; [done|]. apply IH. apply NoDup_app. split; [done|]. split; [|apply NoDup_singleton].
  intros x Hx Hx'. apply list_elem_of_singleton in Hx' as ->. done.
Qed.

Lemma fill_slots_spec targets exprs : targets_ok targets -> forall pos slots slots', fill_slots targets pos exprs slots = Ok slots' ->
  length slots' = length slots
  /\ (forall k e i, exprs !! k = Some e -> target targets (pos + k)%nat = Some i -> slots' !! i = Some (Some e))
  /\ (forall i, (forall k e, exprs !! k = Some e -> target targets (pos + k)%nat <> Some i) -> slots' !! i = slots !! i)
  /\ (forall i b, slots' !! i = Some (Some b) -> slots !! i = Some (Some b) \/ exists k, exprs !! k = Some b /\ target targets (pos + k)%nat = Some i).
Proof.
  intros Ht. induction exprs as [|e exprs IH]; intros pos slots slots'; cbn [fill_slots].
  { intros [= <-]. split; [done|]. split; [intros k e i H; done|]. split; [done|]. by left. }
  assert ((match targets with Some cols => match cols !! pos with Some i => Ok i | None => Panic end | None => Ok pos end : res QueryError nat)
    = match target targets pos with Some i => Ok i | None => Panic end) as -> by (by destruct targets).
  destruct (target targets pos) as [idx|] eqn:Et; [|done]. bind_ok. destruct (Nat.ltb_spec idx (length slots)) as [Hlt|]; [|done].
  intros H. destruct (IH _ _ _ H) as (Hl & Hin & Hout & Hfrom). rewrite length_insert in Hl. split; [done|]. split; [|split].
  - intros [|k] e' i He Hi; cbn in He.
    + injection He as <-. rewrite Nat.add_0_r, Et in Hi. injection Hi as <-. rewrite Hout; [by rewrite list_lookup_insert_eq|].
      intros k e' _ Hk. pose proof (target_inj _ _ _ _ Ht Et Hk). lia.
    + eapply Hin; [exact He|]. by replace (S pos + k)%nat with (pos + S k)%nat by lia.
  - intros i Hi. rewrite Hout.
    + rewrite list_lookup_insert_ne; [done|]. intros ->. apply (Hi 0%nat e); [done|]. by rewrite Nat.add_0_r.
    + intros k e' He Hk. apply (Hi (S k) e' He). by replace (pos + S k)%nat with (S pos + k)%nat by lia.
  - intros i b Hb. destruct (Hfrom i b Hb) as [Hs|(k & Hk & Hti)].
    + destruct (decide (i = idx)) as [->|Hne].
      * rewrite list_lookup_insert_eq in Hs by done. injection Hs as <-. right. exists 0%nat. by rewrite Nat.add_0_r.
      * rewrite list_lookup_insert_ne in Hs by done. by left.
    + right. exists (S k). split; [done|]. by replace (pos + S k)%nat with (S pos + k)%nat by lia.
Qed.

(** The constants of the statement and of the defaults are storable. *)
Definition constants_storable (s : Schema) (rows : list (list bound)) : Prop :=
  (forall row b v, row ∈ rows -> b ∈ row -> const_eval b = Ok v -> storable v)
  /\ (forall f json e v, f ∈ fields s -> fdefault f = Some json -> expr_from_json json = Some e -> eval e (MkTuple []) = Ok v -> storable v).

(** What the slot of a column yields. *)
Definition slot_value (f : Field) (slot : option bound) : vres :=
  match slot with
  | Some e => v ← const_eval e; coerce_value v (fty f) (nullable f)
  | None => resolve_default f
  end.

Lemma row_values_spec fs : forall slots vs, length slots = length fs -> row_values fs slots = Ok vs ->
  length vs = length fs /\ forall i f slot v, fs !! i = Some f -> slots !! i = Some slot -> vs !! i = Some v -> slot_value f slot = Ok v.
Proof.
  induction fs as [|f fs IH]; intros [|slot slots] vs Hl; try done; cbn [row_values]; [by intros [= <-]|].
  change (match slot with Some e => _ | None => _ end) with (slot_value f slot).
  destruct (slot_value f slot) as [v| |] eqn:E; [|done..]. bind_ok. destruct (row_values fs slots) as [vs'| |] eqn:E'; [|done..]. bind_ok.
  intros [= <-]. cbn in Hl. destruct (IH slots vs' ltac:(lia) E') as [H1 H2]. split; [cbn; lia|].
  intros [|i] f' slot' v'; cbn; [by intros [= <-] [= <-] [= <-]|apply H2].
Qed.

Lemma slot_value_fits f slot v : (forall b w, slot = Some b -> const_eval b = Ok w -> storable w) ->
  (forall json e w, fdefault f = Some json -> expr_from_json json = Some e -> eval e (MkTuple []) = Ok w -> storable w) ->
  slot_value f slot = Ok v -> fits_column f v.
Proof.
  intros Hs Hd. unfold slot_value, resolve_default, fits_column. destruct slot as [b|].
  - destruct (const_eval b) as [w| |] eqn:E; [|done..]. apply coerce_fits. by eapply Hs.
  - destruct (fdefault f) as [json|].
    + destruct (expr_from_json json) as [e|] eqn:Ee; [|done]. destruct (eval e _) as [w| |] eqn:E; [|done..]. apply coerce_fits. by eapply Hd.
    + destruct (nullable f); [|done]. intros [= <-]. by left.
Qed.

Definition row_inserted (s : Schema) (targets : option (list nat)) (exprs : list bound) (t : Tuple) : Prop :=
  Forall2 fits_column (fields s) (values t)
  /\ (forall k e i v, exprs !! k = Some e -> target targets k = Some i -> values t !! i = Some v ->
       exists f w, fields s !! i = Some f /\ const_eval e = Ok w /\ coerce_value w (fty f) (nullable f) = Ok v)
  /\ (forall i f v, fields s !! i = Some f -> values t !! i = Some v ->
       (forall k e, exprs !! k = Some e -> target targets k <> Some i) -> resolve_default f = Ok v).

Lemma bind_row_ok s targets exprs t : targets_ok targets ->
  (forall b v, b ∈ exprs -> const_eval b = Ok v -> storable v) ->
  (forall f json e v, f ∈ fields s -> fdefault f = Some json -> expr_from_json json = Some e -> eval e (MkTuple []) = Ok v -> storable v) ->
  bind_row s targets exprs = Ok t -> row_inserted s targets exprs t.
Proof.
  intros Ht He Hd. unfold bind_row. destruct (_ <? _)%nat; [done|].
  destruct (fill_slots targets 0 exprs _) as [slots| |] eqn:Ef; [|done..]. bind_ok.
  destruct (row_values (fields s) slots) as [vs| |] eqn:Er; [|done..]. bind_ok. intros [= <-].
  destruct (fill_slots_spec targets exprs Ht _ _ _ Ef) as (Hl & Hin & Hout & Hfrom). rewrite length_replicate in Hl.
  destruct (row_values_spec _ _ _ Hl Er) as [Hlv Hv].
  assert (forall i v, vs !! i = Some v -> exists f slot, fields s !! i = Some f /\ slots !! i = Some slot /\ slot_value f slot = Ok v) as Hat.
  { intros i v Hi. pose proof (lookup_lt_Some _ _ _ Hi) as Hlt. destruct (lookup_lt_is_Some_2 (fields s) i) as [f Hf]; [lia|].
    destruct (lookup_lt_is_Some_2 slots i) as [slot Hs]; [lia|]. exists f, slot. eauto. }
  split; [|split].
  - apply Forall2_same_length_lookup_2; [by cbn|]. intros i f v Hf Hi. cbn in Hi. destruct (Hat i v Hi) as (f' & slot & Hf' & Hs & Hsv).
    rewrite Hf in Hf'. injection Hf' as <-. eapply slot_value_fits; [| |exact Hsv].
    + intros b w ->. destruct (Hfrom i b Hs) as [H0|(k & Hk & _)]; [by rewrite lookup_replicate in H0; destruct H0|].
      apply He. by eapply list_elem_of_lookup_2.
    + intros json e w. apply Hd. by eapply list_elem_of_lookup_2.
  - intros k e i v Hk Hti Hi. destruct (Hat i v Hi) as (f & slot & Hf & Hs & Hsv). exists f.
    pose proof (Hin k e i Hk Hti) as Hse. rewrite Hs in Hse. injection Hse as ->. cbn in Hsv.
    destruct (const_eval e) as [w| |]; [|done..]. exists w. eauto.
  - intros i f v Hf Hi Hno. destruct (Hat i v Hi) as (f' & slot & Hf' & Hs & Hsv). rewrite Hf in Hf'. injection Hf' as <-.
    rewrite (Hout i Hno), lookup_replicate in Hs. destruct Hs as [-> _]. exact Hsv.
Qed.

(** C31: [INSERT] builds rows its table can hold.  When every constant of the
    statement and of the defaults is storable, each bound row has one value per
    column; the value listed for a column is its constant coerced to the column's
    type, a column not listed has its default or [NULL]; every value has its
    column's type, or is [NULL] in a nullable column; and the row's encoding
    exists and decodes to it. *)
Theorem inserted_rows_fit (s : Schema) (cols : list ObjectName) (rows : list (list bound)) (ts : list Tuple) :
  constants_storable s rows -> bind_insert s cols rows = Ok ts ->
  exists targets, resolve_target_columns cols (fields s) = Ok targets
    /\ Forall2 (row_inserted s targets) rows ts
    /\ Forall (fun t => exists b, schema_encode (E := QueryError) s t = Ok b /\ schema_decode s b = Ok t) ts.
Proof.
  intros [Hc Hd]. unfold bind_insert. destruct (resolve_target_columns cols (fields s)) as [targets| |] eqn:Et; [|done..]. bind_ok.
  intros H. exists targets. split; [done|].
  assert (targets_ok targets) as Ht.
  { unfold resolve_target_columns in Et. destruct cols as [|col cols']; [by injection Et as <-|].
    apply map_Ok_inv in Et as (l & El & ->). by eapply target_columns_nodup; [constructor|exact El]. }
  assert (Forall2 (row_inserted s targets) rows ts) as HF.
  { revert ts H. induction rows as [|row rows IH]; intros ts H; [injection H as <-; constructor|]. cbn in H.
    destruct (bind_row s targets row) as [t| |] eqn:Er; [|done..]. cbn in H.
    destruct (collect_res (bind_row s targets <$> rows)) as [ts'| |] eqn:Ec; [|done..]. injection H as <-. constructor.
    - eapply bind_row_ok; [done| |exact Hd|exact Er]. intros b v Hb. eapply Hc; [by left|done].
    - apply IH; [|done]. intros row' b v Hr. apply Hc. by right. }
  split; [done|]. clear H. induction HF as [|row t rows' ts' Hr _ IH]; constructor.
  - destruct Hr as [Hfit _]. destruct (schema_encode_ok (E := QueryError) s t) as (bm & p & E1 & Lb & _ & D).
    { eapply Forall2_impl; [exact Hfit|]. intros f v [[-> _]|Hv]; [by left|by right]. }
    exists (bm ++ p). split; [done|]. rewrite <- (app_nil_r p), (schema_decode_cursor s bm p (values t)) by done. by destruct t.
  - apply IH. intros row' b v Hr'. apply Hc. by right.
Qed.
End insert.

Section witness.
Import PlainDecimal PlainJson PlainCrates.

#[local] Instance plain_binder : BinderCrates := {|
  expr_from_json := fun s => if String.eqb s "seven" then Some (ELiteral (VInt64 7)) else None;
  d_to_f32 := fun _ => None |}.
#[local] Instance plain_binder_ok : BinderCratesOk (BC := plain_binder).
Proof. split. done. Qed.

(** [5 NOT IN (1, NULL)] is [NULL]. *)
Lemma in_list_three_valued_witness :
  exists e, bind_in_list (Ok (EColumn 0)) (Ok <$> [ELiteral (VInt64 1); ELiteral VNull]) true = Ok e
    /\ eval e (MkTuple [VInt32 5]) = Ok VNull.
Proof.
  destruct (in_list_three_valued (EColumn 0) [ELiteral (VInt64 1); ELiteral VNull] true (MkTuple [VInt32 5]) (VInt32 5) [VInt64 1; VNull])
    as (e & E1 & E2); [reflexivity|repeat constructor|]. exists e. split; [exact E1|]. rewrite E2. reflexivity.
Defined.

(** [INSERT INTO t (b, a) VALUES ('x', 1)] into [t (a SMALLINT, b TEXT NOT NULL, c BIGINT DEFAULT 7)]. *)
Definition demo_table : Schema := MkSchema
  [Field_new "a" TInt16; MkField "b" TText false None; MkField "c" TInt64 true (Some "seven")].
Definition demo_values : list (list bound) := [[Ok (ELiteral (VText (str "x"))); Ok (ELiteral (VInt64 1))]].

Lemma inserted_rows_fit_witness :
  bind_insert demo_table [[Some "b"]; [Some "a"]] demo_values = Ok [MkTuple [VInt16 1; VText (str "x"); VInt64 7]]
  /\ exists targets, resolve_target_columns [[Some "b"]; [Some "a"]] (fields demo_table) = Ok targets
    /\ Forall2 (row_inserted demo_table targets) demo_values [MkTuple [VInt16 1; VText (str "x"); VInt64 7]]
    /\ Forall (fun t => exists b, schema_encode (E := QueryError) demo_table t = Ok b /\ schema_decode demo_table b = Ok t)
         [MkTuple [VInt16 1; VText (str "x"); VInt64 7]].
Proof.
  split; [reflexivity|]. apply (inserted_rows_fit demo_table [[Some "b"]; [Some "a"]] demo_values); [|reflexivity]. split.
  - intros row b v Hr Hb Hv. apply list_elem_of_singleton in Hr as ->. apply elem_of_cons in Hb as [->|Hb].
    + injection Hv as <-. split; [reflexivity|vm_compute; discriminate].
    + apply list_elem_of_singleton in Hb as ->. injection Hv as <-. cbn. unfold is_int. lia.
  - intros f json e v Hf Hj He Hv. assert (json = "seven") as ->.
    { cbn in Hf. repeat (apply elem_of_cons in Hf as [->|Hf]; [cbn in Hj; congruence|]). by apply elem_of_nil in Hf. }
    injection He as <-. injection Hv as <-. cbn. unfold is_int. lia.
Defined.

(** [NULL] into the key column of a table is only found when the key is encoded. *)
Example null_key_is_bound : bind_insert (MkSchema [Field_new "id" TInt64]) [] [[Ok (ELiteral VNull)]] = Ok [MkTuple [VNull]].
Proof. reflexivity. Qed.
End witness.
