(* ===== verification/EngineRest.v ===== *)
(** * The engine between calls

    What a client of crates/strata-store that holds no view sees: an engine
    [idle] with history [h] is a map from keys to the bytes of their last
    acknowledged put.  Reads copy the bytes out of the pinned view and drop it,
    so they leave the engine idle and cannot run out of frames. *)

From Stdlib Require Import Strings.Byte ZArith Lia Sorted.
From stdpp Require Import prelude list gmap.
From S2P Require Import Prelude LsmKey Iterator Lsm LsmReads LsmDurable Page TuplePage BlockStore PageCache PageCacheOk Heap Engine Journal Policies SstHeader Memtable Journaled.
Local Open Scope Z_scope.

Section ops.
Context {CRC : Crc32} {CRCc : Crc32c} {FB : FastBloom} {M : Type} {MS : MemStore M}.

(** [engine.get(key)?] and the view's bytes, copied before it is dropped. *)
Definition engine_read (env : engine_env) (k : list byte) : SR (StorageEngine (M := M)) StorageError (option (list byte)) :=
  o ← engine_get env k;
  match o with
  | None => mret None
  | Some v => b ← on_heap (tr_bytes v); _ ← on_heap (tr_drop v); mret b
  end.
End ops.

Section idle.
Context {CRC : Crc32} {CRCok : Crc32Ok} {CRCc : Crc32c} {CRCcok : Crc32cOk} {FB : FastBloom} {FBok : FastBloomOk}.
Context {M : Type} {MS : MemStore M} {MSok : MemStoreOk M} (cfg : LsmConfig) (m0 : M) (Hu : usable cfg m0).
Abbreviation StorageEngine := (StorageEngine (M := M)).

Record idle (e : StorageEngine) (h : history) : Prop := {
  idle_run : erun cfg m0 e h;
  idle_rest : at_rest (h_cache (heap e));
  idle_frames : (2 <= length (pins (h_cache (heap e))))%nat;
}.

Lemma idle_open lim e : engine_with cfg lim m0 empty_dir = Ok e -> idle e [].
Proof using CRCok CRCcok.
  intros E. pose proof (er_open cfg m0 lim e E) as R. unfold engine_with in E.
  destruct (with_memtable cfg m0 (ed_index empty_dir)) as [t|x|]; [|done..]. cbn [map_err] in E. rewrite bind_Ok in E.
  cbn [ed_db ed_journal empty_dir] in E.
  destruct (heap_open lim HEAP_FRAMES [] None) as [d [hp|x|]] eqn:Eh; [|done..]. cbn [snd map_err] in E.
  rewrite bind_Ok in E. apply Ok_inj in E as <-.
  destruct (heap_open_fresh (fun _ => io_fine) lim HEAP_FRAMES d hp ltac:(done) Eh) as (_ & Hr & Hl).
  split; cbn [heap]; [done|done|]. unfold pins. rewrite length_fmap, Hl. unfold HEAP_FRAMES. lia.
Qed.

Lemma idle_put e h k v e' : idle e h -> key_fits e k -> engine_put engine_fine k v e = (e', Ok tt) -> idle e' (h ++ [(k, Some v)]).
Proof using Hu CRCok CRCcok FBok MSok.
  intros [R Hr Hl] Hk E. pose proof (er_put cfg m0 _ _ _ _ _ R Hk E) as R'.
  destruct (erun_inv cfg m0 Hu e h R) as (hi & m & T & [_ Hheap _ _ _]).
  destruct (insert_spec (V := DiskBlockStore) (P := LruK nat) (fun _ => io_fine) ltac:(done) (heap e) T v Hheap) as (hp & r & Ei & Hir).
  unfold engine_put in E. destruct r as [l|x|].
  - destruct Hir as (_ & _ & Hrest & _). erewrite sr_bind_ok in E; [|apply on_heap_ok; exact Ei].
    apply index_write in E as (t & _ & ->). split; cbn [heap]; [done| |]; [unfold at_rest|]; rewrite Hrest by (by apply at_rest_no_writer); [exact Hr|exact Hl].
  - erewrite sr_bind_err in E; [|unfold on_heap; cbn [ee_heap engine_fine]; rewrite Ei; reflexivity]. done.
  - unfold mbind, sr_bind, on_heap in E. cbn [ee_heap engine_fine] in E. rewrite Ei in E. done.
Qed.

Lemma idle_delete e h k e' : idle e h -> key_fits e k -> engine_delete engine_fine k e = (e', Ok tt) -> idle e' (h ++ [(k, None)]).
Proof.
  intros [R Hr Hl] Hk E. pose proof (er_delete cfg m0 _ _ _ _ R Hk E) as R'. apply index_write in E as (t & _ & ->). by split.
Qed.

Lemma idle_flush e h e' : idle e h -> flush_fits (index e) -> engine_flush engine_fine e = (e', Ok tt) -> idle e' h.
Proof using Hu CRCok CRCcok FBok MSok.
  intros [R Hr Hl] Hf E. pose proof (er_flush cfg m0 _ _ _ R Hf E) as R'.
  destruct (erun_inv cfg m0 Hu e h R) as (hi & m & T & [_ Hheap _ _ _]).
  destruct (heap_flush_spec (V := DiskBlockStore) (P := LruK nat) (fun _ => io_fine) ltac:(done) (heap e) T Hheap) as (hp & E1 & _ & P').
  unfold engine_flush in E. erewrite sr_bind_ok in E; [|apply on_heap_ok; exact E1]. apply index_write in E as (t & _ & ->).
  split; cbn [heap]; [done| |]; [unfold at_rest|]; rewrite P'; [exact Hr|exact Hl].
Qed.

(** An idle pool has a frame to spare. *)
Lemma idle_not_pinned e h : idle e h -> ~ all_pinned (h_cache (heap e)).
Proof.
  intros [_ Hr Hl] Ha. destruct (PageCache.frames (h_cache (heap e))) as [|fr l] eqn:E.
  - unfold pins in Hl. rewrite E in Hl. cbn in Hl. lia.
  - unfold at_rest, pins in Hr. rewrite E in Hr. apply Forall_cons in Hr as [Hf _]. specialize (Ha 0%nat fr). rewrite E in Ha. specialize (Ha eq_refl).
    unfold unpinned in Ha. injection Hf as H1 H2. rewrite H1, H2 in Ha. done.
Qed.

Lemma tr_bytes_frame (v : TupleRef) (hp hp' : Heap DiskBlockStore (LruK nat)) b :
  tr_bytes v hp = (hp', Ok b) -> is_Some (pins (h_cache hp) !! rp_frame (tr_page v)).
Proof.
  unfold tr_bytes, mbind, sr_bind, on_cache, rp_bytes. destruct (PageCache.frames (h_cache hp) !! rp_frame (tr_page v)) as [fr|] eqn:E.
  - intros _. unfold pins. rewrite list_lookup_fmap, E. by eexists.
  - unfold frame_at, mbind, sr_bind, sr_get, sr_lift. rewrite E. done.
Qed.

(** Taking a view and dropping it restores the pins. *)
Lemma pin_then_unpin f (P0 : list (Z * bool)) : alter unpin_read f (alter pin_read f P0) = P0.
Proof.
  apply list_eq. intros i. rewrite !list_lookup_alter. case_decide; [subst i|done]. rewrite decide_True by done.
  destruct (P0 !! f) as [[n w]|]; [|done]. cbn. unfold unpin_read, pin_read. cbn. apply (f_equal (fun x => Some (x, w))). lia.
Qed.

(** A read of an idle engine always answers. *)
Lemma idle_read e h k : idle e h -> exists e', engine_read engine_fine k e = (e', Ok (LsmReads.spec_get h k)) /\ idle e' h.
Proof using Hu CRCok CRCcok FBok MSok.
  intros I. pose proof I as [R Hr Hl]. destruct (erun_inv cfg m0 Hu e h R) as (hi & m & T & Ie).
  destruct (engine_get_spec cfg m0 Hu e h hi m T k Ie) as (e1 & r & E & Ie1 & Hres).
  pose proof (er_get cfg m0 e h k e1 r R E) as R1. unfold engine_read.
  destruct r as [[v|]|x|]; [| | |done].
  - destruct Hres as (b & Hb & Htb & Hp). rewrite (sr_bind_ok _ _ _ _ _ E). cbv beta iota. rewrite (sr_bind_ok _ _ _ _ _ Htb). cbv beta iota.
    assert (Hf : pins (h_cache (heap e1)) !! rp_frame (tr_page v) = Some (1, false)).
    { unfold on_heap in Htb. destruct (tr_bytes v (heap e1)) as [hp' r'] eqn:Eb. assert (exists o, r' = Ok o) as [o ->] by (destruct r'; [by eexists|done..]).
      destruct (tr_bytes_frame _ _ _ _ Eb) as [p Hpf]. rewrite Hp in Hpf |- *. rewrite list_lookup_alter_eq in *.
      destruct (pins (h_cache (heap e)) !! rp_frame (tr_page v)) as [q|] eqn:Eq; [|done]. unfold at_rest in Hr. rewrite Forall_lookup in Hr.
      rewrite (Hr _ _ Eq). done. }
    destruct (drop_spec (V := DiskBlockStore) (P := LruK nat) (fun _ => io_fine) ltac:(done) (heap e1) T _ 1 (ei_heap _ _ _ _ _ _ _ Ie1) Hf ltac:(lia))
      as (hp2 & E2 & _ & P2 & _).
    assert (Ed : on_heap (tr_drop v) e1 = (MkEngine (index e1) hp2, Ok tt)) by (by apply on_heap_ok).
    rewrite (sr_bind_ok _ _ _ _ _ Ed). eexists. split; [by rewrite Hb|].
    rewrite Hp, pin_then_unpin in P2. split; cbn [heap].
    + eapply (er_drop cfg m0 e1 h _ 1); [done|exact Hf|lia|exact Ed].
    + unfold at_rest. by rewrite P2.
    + by rewrite P2.
  - destruct Hres as [Hn Hh]. exists e1. rewrite (sr_bind_ok _ _ _ _ _ E). cbv beta iota. rewrite Hn. split; [done|].
    split; [done| |]; by rewrite Hh.
  - exfalso. destruct Hres as [_ Ha]. by eapply idle_not_pinned.
Qed.

(** A full scan of an idle engine: the live pairs in the bounds, in order. *)
Lemma idle_scan e h lo hi : idle e h -> valid_range lo hi = true ->
  exists rows,
    (forall fuel, (scan_fuel (index e) <= fuel)%nat ->
       exists e', scan_collect_rows engine_fine fuel lo hi (lseq (index e)) e = (e', Ok (row_result <$> rows)) /\ idle e' h /\ lseq (index e') = lseq (index e))
    /\ StronglySorted (fun a b => bytes_cmp a.1 b.1 = Lt) rows
    /\ forall k v, (k, v) ∈ rows <-> in_bounds k lo hi = true /\ LsmReads.spec_get h k = Some v.
Proof using Hu CRCok CRCcok FBok MSok.
  intros [R Hr Hl] Hv. destruct (erun_inv cfg m0 Hu e h R) as (hi' & m & T & I).
  destruct (lrun_ok cfg m0 _ _ Hu (ei_index _ _ _ _ _ _ _ I)) as [(tabs & ids & V & _) _].
  pose proof (Forall2_length _ _ _ (ei_points _ _ _ _ _ _ _ I)) as Hlen.
  assert (0 <= lseq (index e)) as Hq by (rewrite (v_seq _ _ _ _ V); lia).
  destruct (scan_snapshot cfg m0 Hu e h hi' m T lo hi (lseq (index e)) I Hr Hl Hv Hq) as (rows & E & Hs & Hm).
  exists rows. split; [|split; [done|]].
  - intros fuel Hf. destruct (E fuel Hf) as (e' & E' & _ & P' & Hls). exists e'. split; [done|]. split; [|done].
    split; [by eapply (er_scan cfg m0 e h)|unfold at_rest; by rewrite P'|by rewrite P'].
  - intros k v. rewrite Hm, (v_seq _ _ _ _ V), Nat2Z.id, Hlen, firstn_all. done.
Qed.
End idle.
