(* ===== verification/RowTable.v ===== *)
(** * Tables of rows

    storage/row.rs (row keys), catalog/ids.rs, catalog/tables.rs, catalog/index.rs
    (table descriptors) and storage/table_api.rs: reads, scans and writes of rows
    over the storage engine.  An id is its 16 bytes.  [TableReader] and
    [TableWriter] hold the engine and the table's ids and schema: here the engine
    is the state and a [Table] the argument. *)

From Stdlib Require Import Strings.Byte Strings.String ZArith Lia Sorted.
From stdpp Require Import prelude list.
From S2P Require Import Prelude Utf8 LsmKey Journal SstHeader Memtable Journaled Iterator Lsm LsmReads LsmDurable Page Heap PageCache PageCacheOk Engine EngineRest Value ValueCodec Compare KeyCodec.
Local Open Scope Z_scope.

(** ** Ids and row keys *)

Module TruncationId.
Definition INITIAL : Z := 0.
Definition to_be_bytes (t : Z) : list byte := be_bytes 8 t.
Definition from_be_bytes (b : list byte) : Z := be_value b.
(** [checked_add(1)]. *)
Definition next (t : Z) : option Z := if t =? u64_max then None else Some (t + 1).
End TruncationId.

Definition ID_BYTES : nat := 16.
Definition TRUNC_BYTES : nat := 8.
Definition PREFIX_BYTES : nat := ID_BYTES * 3 + TRUNC_BYTES.

Record RowKey : Type := MkRowKey
  { project_id : list byte; dataset_id : list byte; table_id : list byte; truncation_id : Z; user_key : list byte }.

(** [EncodingError::Invalid]. *)
Inductive EncodingError : Type := EncInvalid.

Definition table_prefix (project dataset table : list byte) (trunc : Z) : list byte :=
  project ++ dataset ++ table ++ TruncationId.to_be_bytes trunc.

Definition rowkey_encode (k : RowKey) : list byte :=
  project_id k ++ dataset_id k ++ table_id k ++ TruncationId.to_be_bytes (truncation_id k) ++ user_key k.

Definition rowkey_decode (bytes : list byte) : res EncodingError RowKey :=
  if (length bytes <? PREFIX_BYTES)%nat then Err EncInvalid
  else Ok (MkRowKey (slice 0 16 bytes) (slice 16 16 bytes) (slice 32 16 bytes)
                    (TruncationId.from_be_bytes (slice 48 8 bytes)) (drop PREFIX_BYTES bytes)).

(** ** Table descriptors *)

Record Index : Type := MkIndex { idx_name : string; idx_columns : list nat }.

Record Table : Type := MkTable
  { t_project : list byte; t_dataset : list byte; t_id : list byte; t_trunc : Z; t_name : string; t_schema : Schema;
    clustered_key : list nat; indexes : list Index }.

Definition Table_new (project dataset id : list byte) (trunc : Z) (name : string) (schema : Schema) : Table :=
  MkTable project dataset id trunc name schema (if (length (fields schema) =? 0)%nat then [] else [0%nat]) [].

Definition with_indexes (idxs : list Index) (t : Table) : Table :=
  MkTable (t_project t) (t_dataset t) (t_id t) (t_trunc t) (t_name t) (t_schema t) (clustered_key t) idxs.

(** [key.starts_with(columns)]. *)
Definition starts_with (key columns : list nat) : bool := bool_decide (list.take (length columns) key = columns).

Definition clustered_on (t : Table) (columns : list nat) : bool :=
  negb (length columns =? 0)%nat && starts_with (clustered_key t) columns.

Definition index_on (t : Table) (columns : list nat) : option Index :=
  if (length columns =? 0)%nat then None
  else List.find (fun i => starts_with (idx_columns i) columns) (indexes t).

(** ** The table API *)

Definition MAX_TEXT_SIZE : nat := 80 * 100.

Section values.
Context {DEC : RustDecimal} {JS : SerdeJson}.

Definition check_value_size (v : Value) : res QueryError unit :=
  match (match v with
         | VText s => Some (length s)
         | VBytes b => Some (length b)
         | VArray _ => Some (encoded_size v)
         | _ => None
         end) with
  | None => Ok tt
  | Some len => if (MAX_TEXT_SIZE <? len)%nat then Err (QUnsupported "value exceeds the limit") else Ok tt
  end.

(** [impl From<KeyEncodeError> for QueryError]. *)
Definition query_of_key (e : KeyEncodeError) : QueryError := match e with NullKey => QInternal "primary key cannot be null" end.

Record ScanOptions : Type := MkScanOptions
  { so_range : bound (list byte) * bound (list byte); so_predicate : option (Tuple -> bool) }.

Definition ScanOptions_new : ScanOptions := MkScanOptions (Unbounded, Unbounded) None.
Definition so_with_range (lo hi : bound (list byte)) (o : ScanOptions) : ScanOptions := MkScanOptions (lo, hi) (so_predicate o).
Definition so_with_predicate (p : Tuple -> bool) (o : ScanOptions) : ScanOptions := MkScanOptions (so_range o) (Some p).

(** [for i in (0..out.len()).rev()]: bump the last byte below [0xff], cut there. *)
Fixpoint next_after_go (i : nat) (out : list byte) : option (list byte) :=
  match i with
  | O => None
  | S i =>
      match out !! i with
      | Some b => if byteZ b <? 255 then Some (list.take (S i) (<[i := byte_of (byteZ b + 1)]> out)) else next_after_go i out
      | None => None
      end
  end.
Definition next_after_prefix (prefix : list byte) : option (list byte) := next_after_go (length prefix) prefix.

Definition end_of_prefix (prefix : list byte) : bound (list byte) :=
  match next_after_prefix prefix with Some k => Excluded k | None => Unbounded end.

Definition so_with_prefix (prefix : list byte) (o : ScanOptions) : ScanOptions :=
  match prefix with
  | [] => o
  | _ => so_with_range (Included prefix) (end_of_prefix prefix) o
  end.

(** The bounds of a scan: the table's prefix before each side, the table's own
    limits where a side is open. *)
Definition scan_bounds (prefix : list byte) (lo hi : bound (list byte)) : bound (list byte) * bound (list byte) :=
  (match lo with Included k => Included (prefix ++ k) | Excluded k => Excluded (prefix ++ k) | Unbounded => Included prefix end,
   match hi with Included k => Included (prefix ++ k) | Excluded k => Excluded (prefix ++ k) | Unbounded => end_of_prefix prefix end).
End values.

Section api.
Context {DEC : RustDecimal} {JS : SerdeJson}.
Context {CRC : Crc32} {CRCc : Crc32c} {FB : FastBloom} {M : Type} {MS : MemStore M}.
Abbreviation StorageEngine := (StorageEngine (M := M)).
Context (env : engine_env).

(** An operation on the engine, its error as a query's. *)
Abbreviation QM A := (SR StorageEngine QueryError A).
Definition on_engine {A} (op : SR StorageEngine StorageError A) : QM A := fun e =>
  let '(e', r) := op e in (e', map_err QStorage r).

Definition prefix_of (t : Table) : list byte := table_prefix (t_project t) (t_dataset t) (t_id t) (t_trunc t).

Definition row_key (t : Table) (k : list byte) : list byte :=
  rowkey_encode (MkRowKey (t_project t) (t_dataset t) (t_id t) (t_trunc t) k).

(** [TableReader::get]. *)
Definition table_get (t : Table) (key : Value) : QM (option Tuple) :=
  k ← sr_lift (map_err query_of_key (encode_key key));
  o ← on_engine (engine_read env (row_key t k));
  match o with
  | None => mret None
  | Some bytes => row ← sr_lift (map_err QDecode (schema_decode (t_schema t) bytes)); mret (Some row)
  end.

(** [TableReader::scan] and [TableScan]. *)
Record TableScan : Type := MkTableScan { ts_inner : Scan; ts_schema : Schema }.

Definition table_scan (fuel : nat) (t : Table) (o : ScanOptions) : QM TableScan :=
  let b := scan_bounds (prefix_of t) (so_range o).1 (so_range o).2 in
  s ← on_engine (engine_scan fuel b.1 b.2);
  mret (MkTableScan s (t_schema t)).

(** The row of a tuple view. *)
Definition decode_row (s : Schema) (b : res StorageError (list byte * option (list byte))) : res QueryError Tuple :=
  match b with
  | Ok (_, Some bytes) => map_err QDecode (schema_decode s bytes)
  | Ok (_, None) => Err (QInternal "scanned a deleted tuple")
  | Err x => Err (QStorage x)
  | Panic => Panic
  end.

(** [TableScan::next]. *)
Definition table_scan_next (fuel : nat) (s : TableScan) (e : StorageEngine) : option (res QueryError Tuple) * TableScan * StorageEngine :=
  match scan_step env fuel (ts_inner s) e with
  | (None, s', e1) => (None, MkTableScan s' (ts_schema s), e1)
  | (Some (Ok row), s', e1) =>
      let '(e2, b) := row_bytes row e1 in
      (Some (decode_row (ts_schema s) (map_ok (pair (sr_key row)) b)), MkTableScan s' (ts_schema s), e2)
  | (Some (Err x), s', e1) => (Some (Err (QStorage x)), MkTableScan s' (ts_schema s), e1)
  | (Some Panic, s', e1) => (Some Panic, MkTableScan s' (ts_schema s), e1)
  end.

(** A scan drained by its caller. *)
Fixpoint table_scan_rows (fuel n : nat) (s : TableScan) (e : StorageEngine) : list (res QueryError Tuple) :=
  match n with
  | O => []
  | S n' =>
      match table_scan_next fuel s e with
      | (None, _, _) => []
      | (Some r, s', e') => r :: table_scan_rows fuel n' s' e'
      end
  end.

(** A scan collected and dropped in one call: as many turns as the index can need. *)
Definition table_collect (t : Table) (o : ScanOptions) : QM (list (res QueryError Tuple)) := fun e =>
  let b := scan_bounds (prefix_of t) (so_range o).1 (so_range o).2 in
  let '(e', r) := scan_collect_rows env (scan_fuel (index e)) b.1 b.2 (lseq (index e)) e in
  (e', map_err QStorage (map_ok (map (decode_row (t_schema t))) r)).

Fixpoint check_sizes (vs : list Value) : res QueryError unit :=
  match vs with
  | [] => Ok tt
  | v :: vs' => _ ← check_value_size v; check_sizes vs'
  end.

(** [TableWriter::put]. *)
Definition table_put (t : Table) (row : Tuple) : QM unit :=
  match values row with
  | [] => sr_lift (Err (QInternal "cannot insert empty tuple"))
  | v0 :: _ =>
      _ ← sr_lift (check_sizes (values row));
      k ← sr_lift (map_err query_of_key (encode_key v0));
      bytes ← sr_lift (schema_encode (t_schema t) row);
      on_engine (engine_put env (row_key t k) bytes)
  end.

(** [TableWriter::delete]. *)
Definition table_delete (t : Table) (key : Value) : QM unit :=
  k ← sr_lift (map_err query_of_key (encode_key key));
  on_engine (engine_delete env (row_key t k)).
End api.
