(* ===== verification/RowTableOk.v ===== *)
(** * Tables as maps of rows

    The table API over an engine between calls: after any run of puts, deletes,
    reads and flushes on any number of tables, a lookup returns the row last put
    under the key in that incarnation of the table, and a scan all its rows in
    key order; tables and incarnations never see each other's rows. *)

From Stdlib Require Import Strings.Byte Strings.String ZArith Lia Sorted.
From stdpp Require Import prelude list.
From S2P Require Import Prelude Utf8 LsmKey Journal SstHeader Memtable Journaled Iterator Lsm LsmReads LsmDurable Page Heap PageCache PageCacheOk Engine EngineRest Value ValueCodec Compare KeyCodec RowTable.
Local Open Scope Z_scope.

(** ** Keys under a prefix *)

Lemma bytes_cmp_prefix p a b : bytes_cmp (p ++ a) (p ++ b) = bytes_cmp a b.
Proof. induction p as [|x p IH]; [done|]. cbn. by rewrite Z.compare_refl. Qed.

Lemma bytes_leb_prefix p a b : bytes_leb (p ++ a) (p ++ b) = bytes_leb a b.
Proof. unfold bytes_leb. by rewrite bytes_cmp_prefix. Qed.

Lemma bytes_ltb_prefix p a b : bytes_ltb (p ++ a) (p ++ b) = bytes_ltb a b.
Proof. unfold bytes_ltb. by rewrite bytes_cmp_prefix. Qed.

Lemma next_after_go_app i p q : (i <= length q)%nat ->
  next_after_go (length p + i) (p ++ q) =
  match next_after_go i q with Some r => Some (p ++ r) | None => next_after_go (length p) (p ++ q) end.
Proof.
  induction i as [|i IH]; intros Hi; [by rewrite Nat.add_0_r|]. rewrite Nat.add_succ_r. cbn [next_after_go].
  rewrite lookup_app_r by lia. replace (length p + i - length p)%nat with i by lia.
  destruct (q !! i) as [b|] eqn:Eb; [|apply lookup_ge_None in Eb; lia].
  destruct (byteZ b <? 255); [|apply IH; lia]. rewrite insert_app_r. rewrite take_app. f_equal.
  rewrite take_ge by lia. f_equal. f_equal. lia.
Qed.

Lemma next_after_go_take i p q : (i <= length p)%nat -> next_after_go i (p ++ q) = next_after_go i p.
Proof.
  induction i as [|i IH]; intros Hi; [done|]. cbn [next_after_go]. rewrite lookup_app_l by lia.
  destruct (p !! i) as [b|]; [|done]. destruct (byteZ b <? 255); [|apply IH; lia]. rewrite insert_app_l by lia.
  rewrite take_app_le by (rewrite length_insert; lia). done.
Qed.

Lemma next_after_cons b p :
  next_after_prefix (b :: p) = match next_after_prefix p with
                               | Some q => Some (b :: q)
                               | None => if byteZ b <? 255 then Some [byte_of (byteZ b + 1)] else None
                               end.
Proof.
  unfold next_after_prefix. etransitivity; [exact (next_after_go_app (length p) [b] p (le_n _))|].
  destruct (next_after_go (length p) p); [done|]. rewrite next_after_go_take by (cbn; lia). cbn. by destruct (byteZ b <? 255).
Qed.

(** [next_after_prefix] bounds exactly the keys with the prefix. *)
Lemma in_prefix_bounds p k : in_bounds k (Included p) (end_of_prefix p) = true <-> exists u, k = p ++ u.
Proof.
  unfold in_bounds, end_of_prefix, bytes_leb, bytes_ltb. rewrite andb_true_iff. revert k. induction p as [|b p IH]; intros k.
  - split; [intros _; by exists k|]. intros [u ->]. by destruct u.
  - rewrite next_after_cons. pose proof (byteZ_range b). destruct k as [|c k].
    { split; [by intros [? _]|by intros [u ?]]. }
    pose proof (byteZ_range c). specialize (IH k). cbn [bytes_cmp].
    assert ((exists u, c :: k = (b :: p) ++ u) <-> b = c /\ exists u, k = p ++ u) as ->.
    { split; [intros [u [= -> ->]]; eauto|intros [-> [u ->]]; by exists u]. }
    destruct (Z.compare_spec (byteZ b) (byteZ c)) as [E|E|E].
    + assert (b = c) as -> by (by apply (inj byteZ)). transitivity (exists u, k = p ++ u); [|by split; [|intros [_ ?]]]. rewrite <- IH. clear IH.
      destruct (next_after_prefix p) as [q|]; cbn [bytes_cmp]; [rewrite Z.compare_refl; tauto|].
      destruct (Z.ltb_spec (byteZ c) 255) as [Hl|]; [|tauto]. cbn [bytes_cmp]. rewrite byteZ_byte_of, Z.mod_small by lia.
      rewrite (proj2 (Z.compare_lt_iff _ _)) by lia. tauto.
    + split; [|intros [-> _]; lia]. intros [_ H1]. exfalso. destruct (next_after_prefix p) as [q|]; cbn [bytes_cmp] in H1.
      * destruct (Z.compare_spec (byteZ c) (byteZ b)); [lia|lia|done].
      * destruct (Z.ltb_spec (byteZ b) 255); [|lia]. cbn [bytes_cmp] in H1. rewrite byteZ_byte_of, Z.mod_small in H1 by lia.
        destruct (Z.compare_spec (byteZ c) (byteZ b + 1)); [|lia|done]. by destruct k.
    + split; [by intros [? _]|intros [-> _]; lia].
Qed.

(** A key between two keys of a prefix has the prefix. *)
Lemma between_prefix p x b : bytes_leb p x = true -> bytes_leb x (p ++ b) = true -> exists u, x = p ++ u.
Proof.
  unfold bytes_leb. revert x. induction p as [|c p IH]; intros x; [by exists x|]. destruct x as [|d x]; [done|]. cbn [bytes_cmp app].
  destruct (Z.compare_spec (byteZ c) (byteZ d)) as [E|E|E]; [| |done].
  - assert (c = d) as -> by (by apply (inj byteZ)). rewrite Z.compare_refl. intros H1 H2. destruct (IH x H1 H2) as [u ->]. by exists u.
  - intros _. rewrite (proj2 (Z.compare_gt_iff _ _)) by lia. done.
Qed.

Lemma leb_app_l p k : bytes_leb p (p ++ k) = true.
Proof. rewrite <- (app_nil_r p) at 1. rewrite bytes_leb_prefix. by destruct k. Qed.

Lemma leb_trans a b c : bytes_leb a b = true -> bytes_leb b c = true -> bytes_leb a c = true.
Proof. rewrite !bytes_leb_le. intros H1 H2. by etransitivity. Qed.

Lemma ltb_leb a b : bytes_ltb a b = true -> bytes_leb a b = true.
Proof. unfold bytes_ltb, bytes_leb. by destruct (bytes_cmp a b). Qed.

(** The bounds a scan gives the engine select the keys of the table whose user
    part is in the caller's bounds. *)
Lemma in_scan_bounds p lo hi x :
  in_bounds x (scan_bounds p lo hi).1 (scan_bounds p lo hi).2 = true <-> exists u, x = p ++ u /\ in_bounds u lo hi = true.
Proof.
  assert (forall u, in_bounds (p ++ u) (scan_bounds p lo hi).1 (scan_bounds p lo hi).2 = in_bounds u lo hi) as Hin.
  { intros u. pose proof (proj2 (in_prefix_bounds p (p ++ u)) (ex_intro _ u eq_refl)) as Hu.
    unfold in_bounds in *. cbn in Hu. apply andb_true_iff in Hu as [_ Hu].
    unfold scan_bounds. cbn [fst snd]. f_equal.
    - destruct lo; [apply bytes_leb_prefix|apply bytes_ltb_prefix|apply leb_app_l].
    - destruct hi; [apply bytes_leb_prefix|apply bytes_ltb_prefix|exact Hu]. }
  split; [|intros (u & -> & Hu); by rewrite Hin].
  intros H. assert (exists u, x = p ++ u) as [u ->]; [|exists u; by rewrite Hin in H].
  unfold in_bounds in H. apply andb_true_iff in H as [Hl Hh].
  assert (bytes_leb p x = true) as Hp.
  { destruct lo as [a|a|]; cbn in Hl; [|apply ltb_leb in Hl|done]; (eapply leb_trans; [apply (leb_app_l p a)|done]). }
  destruct hi as [b|b|]; cbn in Hh.
  - by eapply between_prefix.
  - eapply between_prefix; [done|by apply ltb_leb].
  - apply in_prefix_bounds. unfold in_bounds. cbn. by rewrite Hp.
Qed.

Lemma scan_bounds_valid p lo hi : valid_range lo hi = true -> valid_range (scan_bounds p lo hi).1 (scan_bounds p lo hi).2 = true.
Proof.
  assert (forall u, match end_of_prefix p with Included b => True | Excluded n => bytes_ltb (p ++ u) n = true | Unbounded => True end) as He.
  { intros u. pose proof (proj2 (in_prefix_bounds p (p ++ u)) (ex_intro _ u eq_refl)) as Hu. unfold in_bounds in Hu.
    apply andb_true_iff in Hu as [_ Hu]. by destruct (end_of_prefix p). }
  assert (match end_of_prefix p with Included _ => False | _ => True end) as Hni by (unfold end_of_prefix; by destruct (next_after_prefix p)).
  destruct lo as [a|a|], hi as [b|b|]; cbn; rewrite ?bytes_leb_prefix, ?bytes_ltb_prefix; try done; intros _; try apply leb_app_l.
  - specialize (He a). destruct (end_of_prefix p); [done|by apply ltb_leb|done].
  - specialize (He a). by destruct (end_of_prefix p).
  - specialize (He []). rewrite app_nil_r in He. destruct (end_of_prefix p); [done|by apply ltb_leb|done].
Qed.

(** ** Row keys *)

Definition table_wf (t : Table) : Prop :=
  length (t_project t) = 16%nat /\ length (t_dataset t) = 16%nat /\ length (t_id t) = 16%nat /\ is_u64 (t_trunc t).

(** The ids that make an incarnation of a table. *)
Definition incarnation (t : Table) : list byte * list byte * list byte * Z := (t_project t, t_dataset t, t_id t, t_trunc t).

Lemma row_key_split t k : row_key t k = prefix_of t ++ k.
Proof. unfold row_key, rowkey_encode, prefix_of, table_prefix. cbn. by rewrite <- !app_assoc. Qed.

Lemma prefix_length t : table_wf t -> length (prefix_of t) = PREFIX_BYTES.
Proof. intros (H1 & H2 & H3 & _). unfold prefix_of, table_prefix. rewrite !length_app, H1, H2, H3. unfold TruncationId.to_be_bytes. by rewrite length_be_bytes. Qed.

Lemma prefix_inj t t' : table_wf t -> table_wf t' -> prefix_of t = prefix_of t' -> incarnation t = incarnation t'.
Proof.
  intros (A1 & A2 & A3 & A4) (B1 & B2 & B3 & B4) E. unfold prefix_of, table_prefix in E.
  apply app_inj_1 in E as [E1 E]; [|congruence]. apply app_inj_1 in E as [E2 E]; [|congruence]. apply app_inj_1 in E as [E3 E]; [|congruence].
  unfold incarnation. rewrite E1, E2, E3. f_equal. rewrite <- (be_u64 _ A4), <- (be_u64 _ B4). unfold TruncationId.to_be_bytes in E. by rewrite E.
Qed.

Lemma row_key_inj t t' k k' : table_wf t -> table_wf t' -> row_key t k = row_key t' k' <-> incarnation t = incarnation t' /\ k = k'.
Proof.
  intros H H'. rewrite !row_key_split. split.
  - intros E. apply app_inj_1 in E as [E ->]; [|by rewrite !prefix_length]. split; [by apply prefix_inj|done].
  - intros [E ->]. f_equal. unfold incarnation in E. injection E as E1 E2 E3 E4. unfold prefix_of. by rewrite E1, E2, E3, E4.
Qed.

(** A row key decodes to itself, and incarnations of a table sort by age. *)
Lemma rowkey_round_trip t k : table_wf t ->
  rowkey_decode (row_key t k) = Ok (MkRowKey (t_project t) (t_dataset t) (t_id t) (t_trunc t) k).
Proof.
  intros H. pose proof (prefix_length t H) as Hl. destruct H as (A1 & A2 & A3 & A4). unfold rowkey_decode.
  rewrite row_key_split, length_app, Hl, (proj2 (Nat.ltb_ge _ _)) by lia. rewrite drop_app_exact by done.
  unfold prefix_of, table_prefix, slice, TruncationId.to_be_bytes, TruncationId.from_be_bytes. do 2 f_equal.
  - by rewrite <- !app_assoc, drop_0, take_app_exact.
  - by rewrite <- !app_assoc, drop_app_exact, take_app_exact.
  - rewrite <- !app_assoc, (app_assoc (t_project t)), drop_app_exact, take_app_exact by (rewrite ?length_app; lia). done.
  - rewrite <- !app_assoc, (app_assoc (t_dataset t)), (app_assoc (t_project t)), drop_app_exact by (rewrite !length_app; lia).
    rewrite take_app_exact by (by rewrite length_be_bytes). by apply be_u64.
Qed.

(** ** Runs of the table API *)

Section runs.
Context {DEC : RustDecimal} {DECok : RustDecimalOk} {JS : SerdeJson}.
Context {CRC : Crc32} {CRCok : Crc32Ok} {CRCc : Crc32c} {CRCcok : Crc32cOk} {FB : FastBloom} {FBok : FastBloomOk}.
Context {M : Type} {MS : MemStore M} {MSok : MemStoreOk M} (cfg : LsmConfig) (m0 : M) (Hu : usable cfg m0).
Abbreviation StorageEngine := (StorageEngine (M := M)).

Inductive table_op : Type := TPut (t : Table) (row : Tuple) | TDelete (t : Table) (key : Value).

Definition op_table (op : table_op) : Table := match op with TPut t _ | TDelete t _ => t end.
Definition op_key_value (op : table_op) : Value := match op with TPut _ row => default VNull (head (values row)) | TDelete _ key => key end.

(** The encoded key and row of an acknowledged operation. *)
Definition key_bytes (v : Value) : list byte := match encode_key v with Ok k => k | _ => [] end.
Definition row_encoding (t : Table) (row : Tuple) : list byte :=
  match schema_encode (E := QueryError) (t_schema t) row with Ok b => b | _ => [] end.

Definition op_change (op : table_op) : change :=
  (row_key (op_table op) (key_bytes (op_key_value op)),
   match op with TPut t row => Some (row_encoding t row) | TDelete _ _ => None end).

Definition row_fits (t : Table) (row : Tuple) : Prop := Forall2 column_ok (fields (t_schema t)) (values row).

Inductive trun : StorageEngine -> list table_op -> Prop :=
| tr_open lim e : engine_with cfg lim m0 empty_dir = Ok e -> trun e []
| tr_put e ops t row e' :
    trun e ops -> table_wf t -> row_fits t row -> key_fits e (op_change (TPut t row)).1 ->
    table_put engine_fine t row e = (e', Ok tt) -> trun e' (ops ++ [TPut t row])
| tr_put_refused e ops t row e' x :
    trun e ops -> table_put engine_fine t row e = (e', Err x) -> (forall s, x <> QStorage s) -> trun e' ops
| tr_delete e ops t key e' :
    trun e ops -> table_wf t -> key_fits e (op_change (TDelete t key)).1 ->
    table_delete engine_fine t key e = (e', Ok tt) -> trun e' (ops ++ [TDelete t key])
| tr_get e ops t key e' r : trun e ops -> table_get engine_fine t key e = (e', r) -> trun e' ops
| tr_scan e ops t o e' r :
    trun e ops -> valid_range (so_range o).1 (so_range o).2 = true -> table_collect engine_fine t o e = (e', r) -> trun e' ops
| tr_flush e ops e' : trun e ops -> flush_fits (index e) -> engine_flush engine_fine e = (e', Ok tt) -> trun e' ops.

Definition op_ok (op : table_op) : Prop :=
  table_wf (op_table op) /\ match op with TPut t row => row_fits t row | TDelete _ _ => True end.

Lemma on_engine_inv {A} (op : SR StorageEngine StorageError A) e e' r :
  on_engine op e = (e', r) -> exists r', op e = (e', r') /\ r = map_err QStorage r'.
Proof. unfold on_engine. destruct (op e) as [e1 r1]. intros [= <- <-]. eauto. Qed.

(** Encoding has no error to return: it succeeds or panics. *)
Lemma encode_total {E} v : match encode (E := E) v with Err _ => False | _ => True end.
Proof.
  induction v as [v Hv|items IH] using Value_nested_ind; [destruct v; try done; by destruct (Hv items)|].
  change (encode (E := E) (VArray items)) with (l ← encode_items (E := E) items; Ok (le_bytes 4 (wrap32 (Z.of_nat (length items))) ++ l) : res E (list byte)).
  assert (match encode_items (E := E) items with Err _ => False | _ => True end) as Hi; [|by destruct (encode_items items)].
  induction IH as [|x l Hx _ IHl]; [done|]. change (encode_items (E := E) (x :: l)) with (a ← encode (E := E) x; b ← encode_items l; Ok (a ++ b) : res E (list byte)).
  destruct (encode x); [|done|done]. bind_ok. by destruct (encode_items l).
Qed.

(** What a put does before it reaches the engine. *)
Lemma table_put_cases t row e :
  (exists x, table_put engine_fine t row e = (e, x) /\ x <> Ok tt /\ forall s, x <> Err (QStorage s))
  \/ (encode_key (default VNull (head (values row))) = Ok (key_bytes (default VNull (head (values row))))
      /\ schema_encode (E := QueryError) (t_schema t) row = Ok (row_encoding t row)
      /\ table_put engine_fine t row e = on_engine (engine_put engine_fine (op_change (TPut t row)).1 (row_encoding t row)) e).
Proof.
  unfold table_put, op_change, key_bytes, row_encoding. destruct row as [[|v0 vs]]; cbn [values head op_table op_key_value fst].
  { left. eexists. split; [reflexivity|]. done. }
  change (default VNull (Some v0)) with v0.
  unfold mbind, sr_bind, sr_lift. assert (match check_sizes (v0 :: vs) with Ok _ => True | Err (QUnsupported _) => True | _ => False end) as Hc.
  { induction (v0 :: vs) as [|v l IH]; [done|]. cbn. unfold check_value_size. destruct (match v with VText _ => _ | _ => _ end) as [len|]; [|done].
    destruct (_ <? _)%nat; [done|]. exact IH. }
  destruct (check_sizes (v0 :: vs)) as [[]|x|]; [| |done].
  2:{ left. eexists. split; [reflexivity|]. split; [done|]. by destruct x. }
  destruct (encode_key v0) as [k|x|]; cbn [map_err].
  2:{ left. eexists. split; [reflexivity|]. split; [done|]. by destruct x. }
  2:{ left. eexists. split; [reflexivity|]. done. }
  assert (match schema_encode (E := QueryError) (t_schema t) {| values := v0 :: vs |} with Err _ => False | _ => True end) as Hs.
  { unfold schema_encode. destruct (_ =? _)%nat; [|done]. generalize 0%nat, (replicate (div_ceil8 (length (fields (t_schema t)))) x00).
    cbn [values]. induction (v0 :: vs) as [|v l IH]; intros i b; [done|]. cbn [encode_columns].
    assert (match (if is_null v then set_null (E := QueryError) i b else bb ← encode (E := QueryError) v; Ok (b ++ bb)) with Err _ => False | _ => True end) as H1.
    { destruct (is_null v); [unfold set_null; by destruct (b !! _)|].
      pose proof (encode_total (E := QueryError) v). by destruct (encode v). }
    destruct (if is_null v then _ else _) as [b'| |]; [apply IH|done|done]. }
  destruct (schema_encode (E := QueryError) (t_schema t) {| values := v0 :: vs |}) as [b|x|]; [|done|].
  2:{ left. eexists. split; [reflexivity|]. done. }
  right. done.
Qed.

Lemma table_delete_cases t key e :
  (exists x, table_delete engine_fine t key e = (e, x) /\ x <> Ok tt)
  \/ table_delete engine_fine t key e = on_engine (engine_delete engine_fine (op_change (TDelete t key)).1) e.
Proof.
  unfold table_delete, op_change, key_bytes, mbind, sr_bind, sr_lift. cbn [op_table op_key_value fst].
  destruct (encode_key key) as [k|x|]; cbn [map_err]; [by right|left; eexists; split; [reflexivity|done]..].
Qed.

Lemma table_get_key t key k e : encode_key key = Ok k ->
  table_get engine_fine t key e =
  (o ← on_engine (engine_read engine_fine (row_key t k));
   match o with
   | None => mret None
   | Some bytes => row ← sr_lift (map_err QDecode (schema_decode (t_schema t) bytes)); mret (Some row)
   end) e.
Proof. intros Hk. unfold table_get. rewrite Hk. done. Qed.

Lemma table_get_no_key t key e : (forall k, encode_key key <> Ok k) -> (table_get engine_fine t key e).1 = e.
Proof. intros Hk. unfold table_get, mbind, sr_bind, sr_lift. destruct (encode_key key) as [k|x|]; [by destruct (Hk k)|done|done]. Qed.

(** An idle engine with the history of the operations. *)
Definition holds (e : StorageEngine) (ops : list table_op) : Prop := idle cfg m0 e (op_change <$> ops) /\ Forall op_ok ops.

Lemma holds_put e ops t row e' : holds e ops -> table_wf t -> row_fits t row -> key_fits e (op_change (TPut t row)).1 ->
  table_put engine_fine t row e = (e', Ok tt) -> holds e' (ops ++ [TPut t row]).
Proof using Hu CRCok CRCcok FBok MSok.
  intros [I F] Hw Hf Hk E. unfold holds. rewrite fmap_app. split; [|apply Forall_app; split; [done|by constructor; [split|constructor]]].
  destruct (table_put_cases t row e) as [(x & E' & Hx & _)|(Ek & Es & E')]; rewrite E' in E; [injection E as _ E; congruence|].
  apply on_engine_inv in E as ([[]| |] & E & Hr); [|done..]. by eapply idle_put.
Qed.

Lemma holds_delete e ops t key e' : holds e ops -> table_wf t -> key_fits e (op_change (TDelete t key)).1 ->
  table_delete engine_fine t key e = (e', Ok tt) -> holds e' (ops ++ [TDelete t key]).
Proof.
  intros [I F] Hw Hk E. unfold holds. rewrite fmap_app. split; [|apply Forall_app; split; [done|by constructor; [split|constructor]]].
  destruct (table_delete_cases t key e) as [(x & E' & Hx)|E']; rewrite E' in E; [injection E as _ E; congruence|].
  apply on_engine_inv in E as ([[]| |] & E & Hr); [|done..]. by eapply idle_delete.
Qed.

(** The engine of a run holds its operations. *)
Lemma trun_holds e ops : trun e ops -> holds e ops.
Proof using Hu CRCok CRCcok FBok MSok.
  induction 1 as [lim e E|e ops t row e' _ H Hw Hf Hk E|e ops t row e' x _ [I F] E Hx|e ops t key e' _ H Hw Hk E|e ops t key e' r _ [I F] E
    |e ops t o e' r _ [I F] Hv E|e ops e' _ [I F] Hf E].
  - split; [by eapply idle_open|constructor].
  - by eapply holds_put.
  - split; [|done]. destruct (table_put_cases t row e) as [(y & E' & _)|(Ek & Es & E')]; rewrite E' in E; [by injection E as <- _|].
    apply on_engine_inv in E as (r' & E & Hr). destruct r' as [?|s|]; cbn in Hr; [done| |done]. injection Hr as ->. by destruct (Hx s).
  - by eapply holds_delete.
  - split; [|done]. destruct (encode_key key) as [k|x|] eqn:Hk.
    2,3: pose proof (table_get_no_key t key e ltac:(by rewrite Hk)) as E'; rewrite E in E'; cbn in E'; by subst e'.
    rewrite (table_get_key t key k e Hk) in E.
    destruct (idle_read cfg m0 Hu e _ (row_key t k) I) as (e1 & E1 & I1).
    erewrite sr_bind_ok in E; [|unfold on_engine; rewrite E1; reflexivity].
    destruct (spec_get _ _) as [b|]; [|by injection E as <- _].
    unfold mbind, sr_bind, sr_lift in E. destruct (map_err QDecode _) in E; by injection E as <- _.
  - split; [|done]. unfold table_collect in E. set (b := scan_bounds _ _ _) in E.
    destruct (idle_scan cfg m0 Hu e _ b.1 b.2 I (scan_bounds_valid _ _ _ Hv)) as (rows & Es & _).
    destruct (Es _ (le_n _)) as (e1 & E1 & I1 & _). rewrite E1 in E. by injection E as <- _.
  - split; [|done]. by eapply idle_flush.
Qed.

(** ** What the operations say of a row *)

Definition addresses (t : Table) (k : list byte) (op : table_op) : bool :=
  bool_decide (incarnation (op_table op) = incarnation t) && bool_decide (key_bytes (op_key_value op) = k).

(** The row of the last operation on the key in this incarnation. *)
Definition row_at (ops : list table_op) (t : Table) (k : list byte) : option Tuple :=
  match List.find (addresses t k) (reverse ops) with
  | Some (TPut _ row) => Some row
  | _ => None
  end.

(** The operations on an incarnation use one schema. *)
Definition schemas_agree (ops : list table_op) (t : Table) : Prop :=
  forall op, op ∈ ops -> incarnation (op_table op) = incarnation t -> t_schema (op_table op) = t_schema t.

Lemma row_key_addresses t k op : table_wf t -> op_ok op -> bool_decide ((op_change op).1 = row_key t k) = addresses t k op.
Proof.
  intros Ht [Ho _]. unfold addresses, op_change. cbn [fst]. rewrite <- bool_decide_and.
  apply bool_decide_ext. by apply row_key_inj.
Qed.

(** The history's bytes at a row's key are the encoding of the row. *)
Lemma spec_get_row ops t k : table_wf t -> Forall op_ok ops -> schemas_agree ops t ->
  spec_get (op_change <$> ops) (row_key t k) = row_encoding t <$> row_at ops t k
  /\ forall row, row_at ops t k = Some row -> row_fits t row.
Proof.
  intros Ht HF Hs. unfold spec_get, row_at. rewrite <- fmap_reverse.
  assert (Forall op_ok (reverse ops)) as HF' by (by apply Forall_reverse).
  assert (forall op, op ∈ reverse ops -> incarnation (op_table op) = incarnation t -> t_schema (op_table op) = t_schema t) as Hs'.
  { intros op Hop. apply Hs. by apply elem_of_reverse. }
  clear Hs HF. induction HF' as [|op l Ho _ IH]; [done|]. cbn [fmap list_fmap List.find]. rewrite row_key_addresses by done.
  destruct (addresses t k op) eqn:Ea; [|apply IH; intros op' Hop'; apply Hs'; by right].
  unfold addresses in Ea. apply andb_true_iff in Ea as [Ei%bool_decide_eq_true_1 _].
  pose proof (Hs' op ltac:(by left) Ei) as Hsch. destruct Ho as [_ Hfit]. destruct op as [t' row|t' key]; cbn in *; [|done].
  unfold row_encoding, row_fits in *. rewrite Hsch in *. split; [done|]. by intros row' [= <-].
Qed.

Lemma row_decodes t row : row_fits t row -> schema_decode (t_schema t) (row_encoding t row) = Ok row.
Proof using DECok.
  intros H. destruct (schema_encode_ok (E := QueryError) (t_schema t) row H) as (bm & p & E1 & Lb & _ & D).
  unfold row_encoding. rewrite E1, <- (app_nil_r p), (schema_decode_cursor _ bm p (values row)) by done. by destruct row.
Qed.

(** A lookup of an engine that holds the operations always answers. *)
Lemma holds_get e ops t key k : holds e ops -> table_wf t -> schemas_agree ops t -> encode_key key = Ok k ->
  exists e', table_get engine_fine t key e = (e', Ok (row_at ops t k)) /\ holds e' ops.
Proof using Hu CRCok CRCcok FBok MSok DECok.
  intros [I HF] Ht Hs Hk. destruct (spec_get_row ops t k Ht HF Hs) as [Hg Hfit].
  destruct (idle_read cfg m0 Hu e _ (row_key t k) I) as (e1 & E1 & I1). exists e1. split; [|done].
  rewrite (table_get_key t key k e Hk). erewrite sr_bind_ok; [|unfold on_engine; rewrite E1; reflexivity]. rewrite Hg.
  destruct (row_at ops t k) as [row|] eqn:Er; [|done]. cbn [fmap option_fmap option_map].
  rewrite (row_decodes t row (Hfit row eq_refl)). done.
Qed.

(** C4: a table is a map of rows.  After any run of puts, deletes, lookups and
    flushes over any tables, a lookup of a key answers, with the row of the last
    put under that key in that incarnation of the table (or nothing after a
    delete, or when there was none), decoded to the tuple that was put; rows of
    other tables, or of other incarnations of this one, are never seen. *)
Theorem table_refines_rows (e : StorageEngine) (ops : list table_op) (t : Table) (key : Value) (k : list byte) :
  trun e ops -> table_wf t -> schemas_agree ops t -> encode_key key = Ok k ->
  exists e', table_get engine_fine t key e = (e', Ok (row_at ops t k)) /\ trun e' ops.
Proof using Hu CRCok CRCcok FBok MSok DECok.
  intros R Ht Hs Hk. destruct (holds_get e ops t key k (trun_holds e ops R) Ht Hs Hk) as (e' & E & _).
  exists e'. split; [done|]. by eapply tr_get.
Qed.

(** ** Scans *)

Lemma table_scan_rows_map fuel n : forall sch s (e : StorageEngine),
  table_scan_rows engine_fine fuel n (MkTableScan s sch) e = decode_row sch <$> (scan_rows engine_fine fuel n s e).1.1.
Proof.
  induction n as [|n IH]; intros sch s e; [done|]. cbn [table_scan_rows scan_rows]. unfold table_scan_next. cbn [ts_inner ts_schema].
  destruct (scan_step engine_fine fuel s e) as [[[[row|x|]|] s'] e1]; [| | |done].
  - destruct (row_bytes row e1) as [e2 b]. rewrite IH. by destruct (scan_rows engine_fine fuel n s' e2) as [[l cur] e3].
  - rewrite IH. by destruct (scan_rows engine_fine fuel n s' e1) as [[l cur] e3].
  - rewrite IH. by destruct (scan_rows engine_fine fuel n s' e1) as [[l cur] e3].
Qed.

(** A drained scan of a table, from the drained scan of the engine. *)
Lemma table_scan_drained fuel t o (e e' : StorageEngine) l :
  let b := scan_bounds (prefix_of t) (so_range o).1 (so_range o).2 in
  scan_collect_rows engine_fine fuel b.1 b.2 (lseq (index e)) e = (e', Ok l) ->
  exists s e1, table_scan fuel t o e = (e1, Ok s) /\ table_scan_rows engine_fine fuel fuel s e1 = decode_row (t_schema t) <$> l.
Proof.
  cbv zeta. unfold table_scan, scan_collect_rows, engine_scan. set (b := scan_bounds (prefix_of t) (so_range o).1 (so_range o).2).
  destruct (engine_scan_at fuel b.1 b.2 (lseq (index e)) e) as [e1 [s|x|]] eqn:E; [|done..]. intros H.
  exists (MkTableScan s (t_schema t)), e1. split.
  - erewrite sr_bind_ok; [reflexivity|]. unfold on_engine. rewrite sr_bind_get, E. done.
  - rewrite table_scan_rows_map. destruct (scan_rows engine_fine fuel fuel s e1) as [[l' cur] e2]. cbn [fst].
    destruct cur as [p|]; [|by injection H as _ ->]. destruct (on_heap (pt_drop p) e2) as [e3 [[]|x|]]; [|done..]. by injection H as _ ->.
Qed.

(** A row of the engine's scan as the table's. *)
Definition table_row (t : Table) (row : KVPair) : list byte * Tuple :=
  (drop PREFIX_BYTES row.1, match schema_decode (t_schema t) row.2 with Ok r => r | _ => MkTuple [] end).

(** The engine's scan of a table, decoded. *)
Lemma holds_scan e ops t o : holds e ops -> table_wf t -> schemas_agree ops t -> valid_range (so_range o).1 (so_range o).2 = true ->
  let b := scan_bounds (prefix_of t) (so_range o).1 (so_range o).2 in
  exists rows,
    (forall fuel, (scan_fuel (index e) <= fuel)%nat -> exists e' l, scan_collect_rows engine_fine fuel b.1 b.2 (lseq (index e)) e = (e', Ok l)
        /\ decode_row (t_schema t) <$> l = Ok <$> rows.*2 /\ holds e' ops)
    /\ StronglySorted (fun a b => bytes_cmp a.1 b.1 = Lt) rows
    /\ forall k row, (k, row) ∈ rows <-> in_bounds k (so_range o).1 (so_range o).2 = true /\ row_at ops t k = Some row.
Proof using Hu CRCok CRCcok FBok MSok DECok.
  intros [I HF] Ht Hs Hv b.
  destruct (idle_scan cfg m0 Hu e _ b.1 b.2 I (scan_bounds_valid _ _ _ Hv)) as (rows & E & Hsort & Hm).
  assert (forall rk v, (rk, v) ∈ rows <-> exists k row, rk = prefix_of t ++ k /\ v = row_encoding t row
            /\ in_bounds k (so_range o).1 (so_range o).2 = true /\ row_at ops t k = Some row) as Hm'.
  { intros rk v. rewrite Hm. unfold b. rewrite in_scan_bounds. split.
    - intros [(k & -> & Hin) Hg]. rewrite <- row_key_split in Hg. destruct (spec_get_row ops t k Ht HF Hs) as [Hg' _]. rewrite Hg' in Hg.
      destruct (row_at ops t k) as [row|] eqn:Er; [|done]. injection Hg as <-. exists k, row. done.
    - intros (k & row & -> & -> & Hin & Hr). split; [by exists k|]. rewrite <- row_key_split.
      destruct (spec_get_row ops t k Ht HF Hs) as [-> _]. by rewrite Hr. }
  assert (forall k row, row_at ops t k = Some row -> table_row t (prefix_of t ++ k, row_encoding t row) = (k, row)) as Htr.
  { intros k row Hr. unfold table_row. cbn [fst snd]. rewrite drop_app_exact by (by rewrite prefix_length).
    by rewrite row_decodes by (by eapply spec_get_row). }
  exists (table_row t <$> rows). split; [|split].
  - intros fuel Hf. destruct (E fuel Hf) as (e' & E' & I' & _). exists e', (row_result <$> rows). split; [done|]. split; [|done].
    rewrite <- !list_fmap_compose. apply list_fmap_ext. intros i [rk v] Hi. cbn.
    apply list_elem_of_lookup_2, Hm' in Hi as (k & row & -> & -> & _ & Hr). rewrite (row_decodes t row) by (by eapply spec_get_row). done.
  - assert (forall x, x ∈ rows -> exists k, x.1 = prefix_of t ++ k /\ (table_row t x).1 = k) as Hk.
    { intros [rk v] Hx. apply Hm' in Hx as (k & row & -> & -> & _ & Hr). exists k. by rewrite Htr. }
    clear - Hsort Hk. induction Hsort as [|x l _ IH Hall]; [constructor|]. cbn. constructor; [apply IH; intros; apply Hk; by right|].
    apply Forall_fmap. apply Forall_forall. intros y Hy. change (bytes_cmp (table_row t x).1 (table_row t y).1 = Lt). rewrite Forall_forall in Hall. specialize (Hall y Hy).
    destruct (Hk x ltac:(by left)) as (kx & Ex & ->), (Hk y ltac:(by right)) as (ky & Ey & ->).
    by rewrite Ex, Ey, bytes_cmp_prefix in Hall.
  - intros k row. rewrite list_elem_of_fmap. split.
    + intros ([rk v] & Heq & Hx). apply Hm' in Hx as (k' & row' & -> & -> & Hin & Hr). rewrite Htr in Heq by done. by injection Heq as -> ->.
    + intros [Hin Hr]. exists (prefix_of t ++ k, row_encoding t row). split; [by rewrite Htr|]. apply Hm'. eauto 10.
Qed.

(** C5: a scan of a table yields exactly its rows.  Drained, it gives without an
    error, in strictly ascending order of the encoded keys, the rows the table
    holds under keys in the bounds: each key's last put in this incarnation and
    nothing of any other; every fuel of at least [scan_fuel] gives this result.
    The options' predicate takes no part in it. *)
Theorem table_scan_exact (e : StorageEngine) (ops : list table_op) (t : Table) (o : ScanOptions) :
  trun e ops -> table_wf t -> schemas_agree ops t -> valid_range (so_range o).1 (so_range o).2 = true ->
  exists rows,
    (forall fuel, (scan_fuel (index e) <= fuel)%nat -> exists s e1, table_scan fuel t o e = (e1, Ok s)
        /\ table_scan_rows engine_fine fuel fuel s e1 = Ok <$> rows.*2)
    /\ StronglySorted (fun a b => bytes_cmp a.1 b.1 = Lt) rows
    /\ forall k row, (k, row) ∈ rows <-> in_bounds k (so_range o).1 (so_range o).2 = true /\ row_at ops t k = Some row.
Proof using Hu CRCok CRCcok FBok MSok DECok.
  intros R Ht Hs Hv. destruct (holds_scan e ops t o (trun_holds e ops R) Ht Hs Hv) as (rows & E & Hsort & Hm).
  exists rows. split; [|done]. intros fuel Hf. destruct (E fuel Hf) as (e' & l & E' & Hl & _).
  destruct (table_scan_drained fuel t o e e' _ E') as (s & e1 & Es & Er). exists s, e1. by rewrite Er.
Qed.
End runs.

(** ** On a concrete table *)

Section witnesses.
Import Journal.Ieee SstHeader.TinyBloom Page.Castagnoli PlainDecimal PlainJson.

Definition w_id (b : byte) : list byte := replicate 16 b.
Definition w_table : Table :=
  Table_new (w_id x01) (w_id x02) (w_id x03) 0 "t" (MkSchema [Field_new "id" TInt64; Field_new "name" TText]).
Definition w_row : Tuple := MkTuple [VInt64 7; VText [x61; x62]].
Definition w_rows : StorageEngine (M := BTreeMemtable.t) := (table_put engine_fine w_table w_row w_engine).1.

Lemma w_rows_put : table_put engine_fine w_table w_row w_engine = (w_rows, Ok tt).
Proof.
  assert (E : match (table_put engine_fine w_table w_row w_engine).2 with Ok _ => true | _ => false end = true) by (vm_compute; reflexivity).
  unfold w_rows. destruct (table_put engine_fine w_table w_row w_engine) as [e [[]| |]]; done.
Qed.

Lemma w_table_wf : table_wf w_table.
Proof. repeat split; by vm_compute. Qed.

Lemma w_rows_run : trun w_config w_mem w_rows [TPut w_table w_row].
Proof.
  apply (tr_put w_config w_mem w_engine [] w_table w_row w_rows).
  - by apply (tr_open w_config w_mem (2 ^ 40)), w_engine_open.
  - exact w_table_wf.
  - constructor; [right; cbn; unfold is_int; lia|]. constructor; [right; by vm_compute|constructor].
  - split; by vm_compute.
  - exact w_rows_put.
Qed.

Lemma w_schemas : schemas_agree [TPut w_table w_row] w_table.
Proof. intros op Hop _. by apply list_elem_of_singleton in Hop as ->. Qed.

Lemma table_refines_rows_witness :
  exists e', table_get engine_fine w_table (VInt64 7) w_rows = (e', Ok (Some w_row)) /\ trun w_config w_mem e' [TPut w_table w_row].
Proof.
  exact (table_refines_rows w_config w_mem w_usable w_rows [TPut w_table w_row] w_table (VInt64 7) (key_bytes (VInt64 7))
           w_rows_run w_table_wf w_schemas eq_refl).
Defined.

Lemma table_scan_exact_witness :
  exists rows,
    (forall fuel, (scan_fuel (index w_rows) <= fuel)%nat -> exists s e1, table_scan fuel w_table ScanOptions_new w_rows = (e1, Ok s)
        /\ table_scan_rows engine_fine fuel fuel s e1 = Ok <$> rows.*2)
    /\ StronglySorted (fun a b => bytes_cmp a.1 b.1 = Lt) rows
    /\ forall k row, (k, row) ∈ rows <-> in_bounds k Unbounded Unbounded = true /\ row_at [TPut w_table w_row] w_table k = Some row.
Proof.
  exact (table_scan_exact w_config w_mem w_usable w_rows [TPut w_table w_row] w_table ScanOptions_new w_rows_run w_table_wf w_schemas eq_refl).
Defined.
End witnesses.
