(* ===== verification/RowStore.v ===== *)
(** * The row store

    What the catalog and the executor need of storage/table_api.rs, as an
    interface: [RowStore] has the four calls of [TableReader] and [TableWriter],
    [RowStoreOk] says that they are those of a history of row operations.  The
    storage engine is an instance of both. *)

From Stdlib Require Import Strings.Byte Strings.String ZArith Lia Sorted.
From stdpp Require Import prelude list.
From S2P Require Import Prelude LsmKey Journal SstHeader Memtable Journaled Iterator Lsm LsmReads LsmDurable Page Heap PageCache PageCacheOk Engine EngineRest Value ValueCodec Compare KeyCodec RowTable RowTableOk.
Local Open Scope Z_scope.

Class RowStore {DEC : RustDecimal} {JS : SerdeJson} (S : Type) : Type := {
  rs_get : Table -> Value -> SR S QueryError (option Tuple);
  rs_scan : Table -> ScanOptions -> SR S QueryError (list (res QueryError Tuple));
  rs_put : Table -> Tuple -> SR S QueryError unit;
  rs_delete : Table -> Value -> SR S QueryError unit;
}.

(** The operation's key fits the index and there is a sequence number for it. *)
Definition op_fits {DEC : RustDecimal} {JS : SerdeJson} (ops : list table_op) (op : table_op) : Prop :=
  Z.of_nat (length (op_change op).1) + 27 <= u32_max /\ is_u64 (Z.of_nat (length ops) + 1).

(** Reads always answer, from the operations acknowledged so far, whose rows fit
    their tables. *)
Class RowStoreOk {DEC : RustDecimal} {JS : SerdeJson} (S : Type) {RS : RowStore S} : Type := {
  rs_holds : S -> list table_op -> Prop;
  rs_get_ok s ops t key k :
    rs_holds s ops -> table_wf t -> schemas_agree ops t -> encode_key key = Ok k ->
    exists s', rs_get t key s = (s', Ok (row_at ops t k)) /\ rs_holds s' ops;
  rs_scan_ok s ops t o :
    rs_holds s ops -> table_wf t -> schemas_agree ops t -> valid_range (so_range o).1 (so_range o).2 = true ->
    exists s' rows, rs_scan t o s = (s', Ok (Ok <$> rows.*2)) /\ rs_holds s' ops
      /\ StronglySorted (fun a b => bytes_cmp a.1 b.1 = Lt) rows
      /\ forall k row, (k, row) ∈ rows <-> in_bounds k (so_range o).1 (so_range o).2 = true /\ row_at ops t k = Some row;
  rs_put_ok s ops t row s' :
    rs_holds s ops -> table_wf t -> row_fits t row -> op_fits ops (TPut t row) ->
    rs_put t row s = (s', Ok tt) -> rs_holds s' (ops ++ [TPut t row]);
  rs_delete_ok s ops t key s' :
    rs_holds s ops -> table_wf t -> op_fits ops (TDelete t key) ->
    rs_delete t key s = (s', Ok tt) -> rs_holds s' (ops ++ [TDelete t key]);
  rs_ops_ok s ops : rs_holds s ops -> Forall op_ok ops;
}.

Section engine.
Context {DEC : RustDecimal} {JS : SerdeJson} {CRC : Crc32} {CRCc : Crc32c} {FB : FastBloom} {M : Type} {MS : MemStore M}.

Definition engine_rows (env : engine_env) : RowStore (StorageEngine (M := M)) := {|
  rs_get := table_get env; rs_scan := table_collect env; rs_put := table_put env; rs_delete := table_delete env |}.

Context {DECok : RustDecimalOk} {CRCok : Crc32Ok} {CRCcok : Crc32cOk} {FBok : FastBloomOk} {MSok : MemStoreOk M}.
Context (cfg : LsmConfig) (m0 : M) (Hu : usable cfg m0).

Lemma holds_key_fits e ops op : holds cfg m0 e ops -> op_fits ops op -> key_fits e (op_change op).1.
Proof using Hu CRCok CRCcok FBok MSok.
  intros [[R _ _] _] [Hk Hs]. split; [done|]. destruct (erun_inv cfg m0 Hu _ _ R) as (hi & m & T & I).
  destruct (lrun_ok cfg m0 _ _ Hu (ei_index _ _ _ _ _ _ _ I)) as [(tabs & ids & V & _) _].
  rewrite (v_seq _ _ _ _ V), (Forall2_length _ _ _ (ei_points _ _ _ _ _ _ _ I)), length_fmap. done.
Qed.

#[refine] Definition engine_rows_ok : RowStoreOk (RS := engine_rows engine_fine) (StorageEngine (M := M)) :=
  {| rs_holds := holds cfg m0 |}.
Proof using Hu DECok CRCok CRCcok FBok MSok.
  - intros. by eapply holds_get.
  - intros e ops t o H Ht Hs Hv. destruct (holds_scan cfg m0 Hu e ops t o H Ht Hs Hv) as (rows & E & Hsort & Hm).
    destruct (E _ (le_n _)) as (e' & l & E' & Hl & H'). exists e', rows. split; [|done]. cbn. unfold table_collect. rewrite E'.
    cbn [map_ok map_err]. by rewrite <- Hl.
  - intros e ops t row e' H Ht Hf Ho E. eapply holds_put; [done..| |done]. by eapply holds_key_fits.
  - intros e ops t key e' H Ht Ho E. eapply holds_delete; [done..| |done]. by eapply holds_key_fits.
  - intros e ops [_ H]. exact H.
Defined.
End engine.

(** ** What the last operation says *)

Section rows.
Context {DEC : RustDecimal} {JS : SerdeJson}.
Implicit Types (ops : list table_op) (t : Table) (k : list byte).

Lemma row_at_snoc ops op t k :
  row_at (ops ++ [op]) t k = if addresses t k op then match op with TPut _ row => Some row | TDelete _ _ => None end else row_at ops t k.
Proof. unfold row_at. rewrite reverse_snoc. cbn [List.find]. by destruct (addresses t k op). Qed.

(** An operation elsewhere. *)
Lemma row_at_other ops op t k : incarnation (op_table op) <> incarnation t -> row_at (ops ++ [op]) t k = row_at ops t k.
Proof. intros H. rewrite row_at_snoc. unfold addresses. by rewrite bool_decide_false. Qed.

Lemma schemas_agree_snoc ops op t :
  schemas_agree ops t -> (incarnation (op_table op) = incarnation t -> t_schema (op_table op) = t_schema t) -> schemas_agree (ops ++ [op]) t.
Proof. intros H Ho op' [Hop|Hop%list_elem_of_singleton]%elem_of_app; [by apply H|]. by subst. Qed.

(** The rows with a prefix. *)
Definition prefix_scan (p : list byte) : ScanOptions := so_with_prefix p ScanOptions_new.

Lemma prefix_scan_valid p : valid_range (so_range (prefix_scan p)).1 (so_range (prefix_scan p)).2 = true.
Proof. destruct p as [|b p]; [done|]. exact (scan_bounds_valid (b :: p) Unbounded Unbounded eq_refl). Qed.

Lemma in_prefix_scan p k : in_bounds k (so_range (prefix_scan p)).1 (so_range (prefix_scan p)).2 = true <-> exists u, k = p ++ u.
Proof. destruct p as [|b p]; [|apply in_prefix_bounds]. cbn. split; [by exists k|done]. Qed.
End rows.
