(* ===== verification/SystemCatalog.v ===== *)
(** * System relations

    catalog/system.rs: the virtual [information_schema] and [pg_catalog]
    relations, generated from catalog metadata.  The catalog's listings are a
    [CatalogReader]: what [CatalogReader::list_*] return. *)

From Stdlib Require Import Strings.Byte Strings.String ZArith Lia.
From stdpp Require Import prelude list strings.
From S2P Require Import Prelude Utf8 Float Value ValueCodec Compare RustText RowTable.
Local Open Scope Z_scope.

(** ** Types as Postgres numbers them *)

Record PgType : Type := MkPgType
  { pg_oid : Z; pg_name : string; pg_display : string; pg_len : Z; pg_category : string; pg_elem : Z }.

Definition array_oid (elem_oid : Z) : Z :=
  match elem_oid with
  | 16 => 1000 | 17 => 1001 | 20 => 1016 | 21 => 1005 | 23 => 1007 | 25 => 1009 | 700 => 1021 | 701 => 1022
  | 1082 => 1182 | 1083 => 1183 | 1184 => 1185 | 1700 => 1231 | 2950 => 2951
  | _ => 2277
  end.

Fixpoint pg_type (ty : LogicalType) : PgType :=
  let base oid name display len category := MkPgType oid name display len category 0 in
  match ty with
  | TBool => base 16 "bool" "boolean" 1 "B"
  | TBytes => base 17 "bytea" "bytea" (-1) "U"
  | TInt64 => base 20 "int8" "bigint" 8 "N"
  | TInt16 => base 21 "int2" "smallint" 2 "N"
  | TInt32 => base 23 "int4" "integer" 4 "N"
  | TText => base 25 "text" "text" (-1) "S"
  | TJson => base 114 "json" "json" (-1) "U"
  | TFloat32 => base 700 "float4" "real" 4 "N"
  | TFloat64 => base 701 "float8" "double precision" 8 "N"
  | TDate => base 1082 "date" "date" 4 "D"
  | TTime => base 1083 "time" "time without time zone" 8 "D"
  | TTimestamp => base 1184 "timestamptz" "timestamp with time zone" 8 "D"
  | TInterval => base 1186 "interval" "interval" 16 "T"
  | TNumeric => base 1700 "numeric" "numeric" (-1) "N"
  | TUuid => base 2950 "uuid" "uuid" 16 "U"
  | TArray elem => let inner := pg_type elem in MkPgType (array_oid (pg_oid inner)) "array" "ARRAY" (-1) "A" (pg_oid inner)
  end%string.

Definition BASE_TYPES : list LogicalType :=
  [TBool; TBytes; TInt64; TInt16; TInt32; TText; TJson; TFloat32; TFloat64; TDate; TTime; TTimestamp; TInterval; TNumeric; TUuid].

(** [(uuid.as_u128() as u64 & 0x7fff_ffff) as i64]. *)
Definition oid_of (uuid : list byte) : Z := Z.land (be_value uuid mod 2 ^ 64) 2147483647.

(** ** Metadata *)

Record ProjectMeta : Type := MkProjectMeta { pm_id : list byte; pm_name : string }.
Record DatasetMeta : Type := MkDatasetMeta { dm_id : list byte; dm_name : string }.
Record TableMeta : Type := MkTableMeta
  { tm_id : list byte; tm_truncation_id : Z; tm_name : string; tm_indexes : list Index }.
Record ColumnMeta : Type := MkColumnMeta
  { cm_table_id : list byte; cm_position : Z; cm_name : string; cm_ty : LogicalType; cm_nullable : bool; cm_default : option string }.

(** The [f32]s are their bits. *)
Record ColumnStats : Type := MkColumnStats
  { schemaname : string; tablename : string; attname : string; null_frac : Z; avg_width : Z; n_distinct : Z;
    most_common_vals : string; most_common_freqs : string; histogram_bounds : string; correlation : Z }.

Record CatalogReader : Type := MkCatalogReader
  { list_projects : res QueryError (list ProjectMeta);
    list_datasets : list byte -> res QueryError (list DatasetMeta);
    list_tables : list byte -> list byte -> res QueryError (list TableMeta);
    list_columns : list byte -> res QueryError (list ColumnMeta);
    list_column_stats : res QueryError (list ColumnStats) }.

Definition SYSTEM_PROJECT_ID : list byte := replicate 6 xff ++ replicate 10 x00.

(** ** Relations *)

Inductive SystemRelation : Type :=
| InfoSchemata | InfoTables | InfoColumns | Database | Namespace | RelClass | Attribute | RelType | Stats.

Definition system_resolve (dataset : option string) (table : string) : option SystemRelation :=
  let in_info := bool_decide (dataset = Some "information_schema"%string) in
  let pg_ok := bool_decide (dataset = None) || bool_decide (dataset = Some "pg_catalog"%string) in
  let named l := bool_decide (table ∈ l) in
  if named ["schemata"%string] && in_info then Some InfoSchemata
  else if named ["tables"%string] && in_info then Some InfoTables
  else if named ["columns"%string] && in_info then Some InfoColumns
  else if named ["pg_database"%string; "st_database"%string] && pg_ok then Some Database
  else if named ["pg_namespace"%string; "st_namespace"%string] && pg_ok then Some Namespace
  else if named ["pg_class"%string; "st_class"%string] && pg_ok then Some RelClass
  else if named ["pg_attribute"%string; "st_attribute"%string] && pg_ok then Some Attribute
  else if named ["pg_type"%string; "st_type"%string] && pg_ok then Some RelType
  else if named ["pg_stats"%string; "st_stats"%string] && pg_ok then Some Stats
  else None.

Definition system_schema (r : SystemRelation) : Schema :=
  let f name ty := Field_new name ty in
  MkSchema match r with
  | InfoSchemata => [f "catalog_name" TText; f "schema_name" TText; f "schema_owner" TText]
  | InfoTables => [f "table_catalog" TText; f "table_schema" TText; f "table_name" TText; f "table_type" TText]
  | InfoColumns =>
      [f "table_catalog" TText; f "table_schema" TText; f "table_name" TText; f "column_name" TText; f "ordinal_position" TInt32;
       f "column_default" TText; f "is_nullable" TText; f "data_type" TText; f "udt_name" TText]
  | Database => [f "oid" TInt64; f "datname" TText]
  | Namespace => [f "oid" TInt64; f "nspname" TText; f "nspowner" TText]
  | RelClass =>
      [f "oid" TInt64; f "relname" TText; f "relnamespace" TInt64; f "relkind" TText; f "relnatts" TInt32; f "relhasindex" TBool;
       f "reltuples" TInt64]
  | Attribute =>
      [f "attrelid" TInt64; f "attname" TText; f "atttypid" TInt64; f "attnum" TInt32; f "attnotnull" TBool; f "atthasdef" TBool;
       f "attisdropped" TBool]
  | RelType =>
      [f "oid" TInt64; f "typname" TText; f "typlen" TInt32; f "typtype" TText; f "typcategory" TText; f "typelem" TInt64]
  | Stats =>
      [f "schemaname" TText; f "tablename" TText; f "attname" TText; f "null_frac" TFloat32; f "avg_width" TInt32;
       f "n_distinct" TFloat32; f "most_common_vals" TText; f "most_common_freqs" TText; f "histogram_bounds" TText;
       f "correlation" TFloat32]
  end%string.

Section rows.
Context {DEC : RustDecimal} {JS : SerdeJson}.

Definition text (s : string) : Value := VText (str s).

(** [x as i32]. *)
Definition as_i32 (z : Z) : Z := signed 32 (unsigned 32 z).

Definition stats_row (s : ColumnStats) : Tuple :=
  MkTuple [text (schemaname s); text (tablename s); text (attname s); VFloat32 (null_frac s); VInt32 (avg_width s);
           VFloat32 (n_distinct s); text (most_common_vals s); text (most_common_freqs s); text (histogram_bounds s);
           VFloat32 (correlation s)].

Definition type_rows : list Tuple :=
  map (fun ty => let pg := pg_type ty in
         MkTuple [VInt64 (pg_oid pg); text (pg_name pg); VInt32 (as_i32 (pg_len pg)); text "b"; text (pg_category pg);
                  VInt64 (pg_elem pg)]) BASE_TYPES.

(** [for x in l? { rows.extend(f(x)?) }]. *)
Definition each {A} (l : res QueryError (list A)) (f : A -> res QueryError (list Tuple)) : res QueryError (list Tuple) :=
  xs ← l; rows ← collect_res (map f xs); Ok (List.concat rows).

Context (cat : CatalogReader).

Definition user_projects : res QueryError (list ProjectMeta) :=
  ps ← list_projects cat; Ok (filter (fun p => pm_id p <> SYSTEM_PROJECT_ID) ps).

Definition namespaces (f : ProjectMeta -> DatasetMeta -> Tuple) : res QueryError (list Tuple) :=
  each user_projects (fun p => each (list_datasets cat (pm_id p)) (fun d => Ok [f p d])).

Definition tables (f : ProjectMeta -> DatasetMeta -> TableMeta -> Tuple) : res QueryError (list Tuple) :=
  each user_projects (fun p => each (list_datasets cat (pm_id p)) (fun d =>
    each (list_tables cat (pm_id p) (dm_id d)) (fun t => Ok [f p d t]))).

Definition columns (f : ProjectMeta -> DatasetMeta -> TableMeta -> ColumnMeta -> Tuple) : res QueryError (list Tuple) :=
  each user_projects (fun p => each (list_datasets cat (pm_id p)) (fun d =>
    each (list_tables cat (pm_id p) (dm_id d)) (fun t => each (list_columns cat (tm_id t)) (fun c => Ok [f p d t c])))).

(** [(c.position + 1) as i32], the addition in [u32]. *)
Definition ordinal (c : ColumnMeta) : Z := as_i32 (wrap32 (cm_position c + 1)).

Definition class_row (d : DatasetMeta) (t : TableMeta) (natts : nat) : Tuple :=
  MkTuple [VInt64 (oid_of (tm_id t)); text (tm_name t); VInt64 (oid_of (dm_id d)); text "r"; VInt32 (as_i32 (Z.of_nat natts));
           VBool (negb (length (tm_indexes t) =? 0)%nat); VInt64 (-1)].

Definition info_column_row (p : ProjectMeta) (d : DatasetMeta) (t : TableMeta) (c : ColumnMeta) : Tuple :=
  let pg := pg_type (cm_ty c) in
  MkTuple [text (pm_name p); text (dm_name d); text (tm_name t); text (cm_name c); VInt32 (ordinal c); VNull;
           text (if cm_nullable c then "YES" else "NO"); text (pg_display pg); text (pg_name pg)].

Definition attribute_row (t : TableMeta) (c : ColumnMeta) : Tuple :=
  MkTuple [VInt64 (oid_of (tm_id t)); text (cm_name c); VInt64 (pg_oid (pg_type (cm_ty c))); VInt32 (ordinal c);
           VBool (negb (cm_nullable c)); VBool (bool_decide (is_Some (cm_default c))); VBool false].

Definition system_rows (r : SystemRelation) : res QueryError (list Tuple) :=
  match r with
  | RelType => Ok type_rows
  | Stats => ss ← list_column_stats cat; Ok (map stats_row ss)
  | InfoSchemata => namespaces (fun p d => MkTuple [text (pm_name p); text (dm_name d); text "strata"])
  | Database => each user_projects (fun p => Ok [MkTuple [VInt64 (oid_of (pm_id p)); text (pm_name p)]])
  | Namespace => namespaces (fun _ d => MkTuple [VInt64 (oid_of (dm_id d)); text (dm_name d); text "strata"])
  | InfoTables => tables (fun p d t => MkTuple [text (pm_name p); text (dm_name d); text (tm_name t); text "BASE TABLE"])
  | RelClass =>
      each user_projects (fun p => each (list_datasets cat (pm_id p)) (fun d =>
        each (list_tables cat (pm_id p) (dm_id d)) (fun t => cs ← list_columns cat (tm_id t); Ok [class_row d t (length cs)])))
  | InfoColumns => columns info_column_row
  | Attribute => columns (fun _ _ t c => attribute_row t c)
  end.
End rows.

(** ** The rows fit the relations' schemas *)

Section fit.
Context {DEC : RustDecimal} {JS : SerdeJson}.

Definition name_ok (s : string) : Prop := utf8_valid (str s) = true /\ Z.of_nat (length (str s)) <= u32_max.

Definition stats_ok (s : ColumnStats) : Prop :=
  (name_ok (schemaname s) /\ name_ok (tablename s) /\ name_ok (attname s))
  /\ (name_ok (most_common_vals s) /\ name_ok (most_common_freqs s) /\ name_ok (histogram_bounds s))
  /\ (is_float f32 (null_frac s) /\ is_float f32 (n_distinct s) /\ is_float f32 (correlation s)) /\ is_int 32 (avg_width s).

(** Every list the reader returns holds well-formed metadata. *)
Definition lists {A} (P : A -> Prop) (l : res QueryError (list A)) : Prop := forall xs, l = Ok xs -> Forall P xs.
Record catalog_ok (cat : CatalogReader) : Prop := {
  co_projects : lists (fun p => name_ok (pm_name p)) (list_projects cat);
  co_datasets p : lists (fun d => name_ok (dm_name d)) (list_datasets cat p);
  co_tables p d : lists (fun t => name_ok (tm_name t)) (list_tables cat p d);
  co_columns t : lists (fun c => name_ok (cm_name c)) (list_columns cat t);
  co_stats : lists stats_ok (list_column_stats cat) }.

Definition fits (s : Schema) (t : Tuple) : Prop := Forall2 column_ok (fields s) (values t).

Lemma text_ok s : name_ok s -> has_type TText (text s).
Proof. done. Qed.

Lemma signed_bound w n : 0 < w -> is_int w (signed w (unsigned w n)).
Proof.
  intros Hw. unfold is_int, signed, unsigned. assert (2 ^ w = 2 * 2 ^ (w - 1)) as E by (rewrite <- Z.pow_succ_r by lia; f_equal; lia).
  pose proof (Z.mod_pos_bound n (2 ^ w) ltac:(lia)). destruct (Z.ltb_spec (n mod 2 ^ w) (2 ^ (w - 1))); lia.
Qed.

Lemma as_i32_ok z : has_type TInt32 (VInt32 (as_i32 z)).
Proof. by apply signed_bound. Qed.

Lemma ordinal_ok c : has_type TInt32 (VInt32 (ordinal c)).
Proof. by apply signed_bound. Qed.

Lemma oid_ok u : has_type TInt64 (VInt64 (oid_of u)).
Proof.
  cbn [has_type]. unfold is_int, oid_of. change 2147483647 with (Z.ones 31). rewrite Z.land_ones by lia.
  pose proof (Z.mod_pos_bound (be_value u mod 2 ^ 64) (2 ^ 31) ltac:(lia)). lia.
Qed.

(** The numbers and names of the type table, arrays of arrays included. *)
Definition pg_type_ok (p : PgType) : Prop :=
  (0 <= pg_oid p < 2 ^ 31 /\ 0 <= pg_elem p < 2 ^ 31) /\ name_ok (pg_name p) /\ name_ok (pg_display p) /\ name_ok (pg_category p).

Lemma pg_types_ok ty : pg_type_ok (pg_type ty).
Proof.
  assert (N : forall s, (utf8_valid (str s) && (Z.of_nat (length (str s)) <=? u32_max)) = true -> name_ok s)
    by (intros s [? ?%Z.leb_le]%andb_true_iff; by split).
  induction ty as [| | | | | | | | | | | | | | |t [[Ho _] _]]; unfold pg_type_ok; cbn [pg_type pg_oid pg_elem pg_name pg_display pg_category];
    (split; [|repeat split; apply N; reflexivity]); try lia.
  split; [|done]. unfold array_oid. repeat case_match; lia.
Qed.

Lemma int64_ok z : 0 <= z < 2 ^ 31 -> has_type TInt64 (VInt64 z).
Proof. intros H. change (is_int 64 z). unfold is_int. lia. Qed.

Lemma each_ok {A} (P : A -> Prop) (Q : Tuple -> Prop) l f :
  lists P l -> (forall x, P x -> lists Q (f x)) -> lists Q (each l f).
Proof.
  intros Hl Hf rows. unfold each. destruct l as [xs|e|]; [|done..]. rewrite bind_Ok. specialize (Hl xs eq_refl).
  revert rows. induction Hl as [|x xs Hx _ IH]; intros rows; [by intros [= <-]|]. cbn [map collect_res].
  destruct (f x) as [r|e|] eqn:Ef; [|done..]. rewrite bind_Ok.
  destruct (collect_res (map f xs)) as [rs|e|]; [|done..]. rewrite !bind_Ok. intros [= <-].
  apply Forall_app. split; [by apply (Hf x Hx)|by apply IH].
Qed.
#[local] Hint Resolve text_ok as_i32_ok ordinal_ok oid_ok : core.

Lemma one_row_ok (Q : Tuple -> Prop) t : Q t -> lists Q (Ok [t]).
Proof. intros H xs [= <-]. by constructor. Qed.

(** A row, column by column. *)
Ltac row_ok :=
  unfold fits; cbn [fields values system_schema Field_new fty];
  repeat (apply Forall2_cons_2; [first [by left | right; solve [auto | done] | right] |]); try apply Forall2_nil_2.

Section reader.
Context (cat : CatalogReader) (Hc : catalog_ok cat).

Lemma user_projects_ok : lists (fun p => name_ok (pm_name p)) (user_projects cat).
Proof.
  intros xs. unfold user_projects. destruct (list_projects cat) as [ps|e|] eqn:E; [|done..]. rewrite bind_Ok. intros [= <-].
  apply Forall_forall. intros p Hp. apply list_elem_of_filter in Hp as [_ Hp]. pose proof (co_projects _ Hc ps E) as F.
  rewrite Forall_forall in F. by apply F.
Qed.

Lemma namespaces_ok Q f : (forall p d, name_ok (pm_name p) -> name_ok (dm_name d) -> Q (f p d)) -> lists Q (namespaces cat f).
Proof.
  intros Hf. apply (each_ok _ _ _ _ user_projects_ok). intros p Hp. apply (each_ok _ _ _ _ (co_datasets _ Hc _)).
  intros d Hd. by apply one_row_ok, Hf.
Qed.

Lemma tables_ok Q f : (forall p d t, name_ok (pm_name p) -> name_ok (dm_name d) -> name_ok (tm_name t) -> Q (f p d t)) ->
  lists Q (tables cat f).
Proof.
  intros Hf. apply (each_ok _ _ _ _ user_projects_ok). intros p Hp. apply (each_ok _ _ _ _ (co_datasets _ Hc _)).
  intros d Hd. apply (each_ok _ _ _ _ (co_tables _ Hc _ _)). intros t Ht. by apply one_row_ok, Hf.
Qed.

Lemma columns_ok Q f :
  (forall p d t c, name_ok (pm_name p) -> name_ok (dm_name d) -> name_ok (tm_name t) -> name_ok (cm_name c) -> Q (f p d t c)) ->
  lists Q (columns cat f).
Proof.
  intros Hf. apply (each_ok _ _ _ _ user_projects_ok). intros p Hp. apply (each_ok _ _ _ _ (co_datasets _ Hc _)).
  intros d Hd. apply (each_ok _ _ _ _ (co_tables _ Hc _ _)). intros t Ht. apply (each_ok _ _ _ _ (co_columns _ Hc _)).
  intros c Hcol. by apply one_row_ok, Hf.
Qed.
End reader.

(** Every row a system relation generates has the columns and types of the
    relation's schema: the shape the planner binds against is the shape
    execution produces. *)
Lemma system_rows_fit (cat : CatalogReader) (r : SystemRelation) :
  catalog_ok cat -> lists (fits (system_schema r)) (system_rows cat r).
Proof.
  intros Hc. assert (Hs : forall s, (utf8_valid (str s) && (Z.of_nat (length (str s)) <=? u32_max)) = true -> has_type TText (text s))
    by (intros s [? ?%Z.leb_le]%andb_true_iff; by split).
  destruct r; cbn [system_rows].
  - apply namespaces_ok; [done|]. intros p d Hp Hd. row_ok.
  - apply tables_ok; [done|]. intros p d t Hp Hd Ht. row_ok.
  - apply columns_ok; [done|]. intros p d t c Hp Hd Ht Hcol. destruct (pg_types_ok (cm_ty c)) as (_ & Hn & Hdis & _).
    row_ok. destruct (cm_nullable c); by apply Hs.
  - apply (each_ok _ _ _ _ (user_projects_ok cat Hc)). intros p Hp. apply one_row_ok. row_ok.
  - apply namespaces_ok; [done|]. intros p d Hp Hd. row_ok.
  - apply (each_ok _ _ _ _ (user_projects_ok cat Hc)). intros p Hp. apply (each_ok _ _ _ _ (co_datasets _ Hc _)).
    intros d Hd. apply (each_ok _ _ _ _ (co_tables _ Hc _ _)). intros t Ht. destruct (list_columns cat (tm_id t)) as [cs|e|]; [|done..].
    rewrite bind_Ok. apply one_row_ok. row_ok.
  - apply columns_ok; [done|]. intros p d t c Hp Hd Ht Hcol. destruct (pg_types_ok (cm_ty c)) as ((Ho & _) & _).
    row_ok. by apply int64_ok.
  - intros rows [= <-]. apply Forall_map, Forall_forall. intros ty _. destruct (pg_types_ok ty) as ((Ho & He) & Hn & _ & Hcat).
    cbv zeta. row_ok; by apply int64_ok.
  - intros rows. destruct (list_column_stats cat) as [ss|e|] eqn:E; [|done..]. rewrite bind_Ok. intros [= <-].
    apply Forall_map. eapply Forall_impl; [exact (co_stats _ Hc ss E)|].
    intros s ((? & ? & ?) & (? & ? & ?) & (? & ? & ?) & ?). row_ok.
Qed.
End fit.
