(* ===== verification/Catalog.v ===== *)
(** * The catalog

    catalog/mod.rs, catalog/consts.rs and the handles of catalog/db.rs,
    project.rs and dataset.rs: projects, datasets and tables as rows of reserved
    system tables, read and written through a [RowStore].  [serde]'s derived
    conversions between metadata and JSON are a parameter ([Serde]).  New ids
    (UUID v7 from the clock) are arguments.  The engine behind the [RefCell] of
    [TableApi] is the state. *)

From Stdlib Require Import Strings.Byte Strings.String ZArith Lia.
From stdpp Require Import prelude list gmap strings.
From S2P Require Import Prelude Value ValueCodec Compare RustText RowTable RowTableOk RowStore SystemCatalog.
Local Open Scope Z_scope.

(** [serde_json::to_value] and [serde_json::from_value] at a type. *)
Class Serde {JS : SerdeJson} (A : Type) : Type := { to_value : A -> option Json; from_value : Json -> option A }.

(** ** Reserved ids *)

(** [uuid!("ffffffff-ffff-0000-0000-0000000000nn")]. *)
Definition reserved_id (n : Z) : list byte := replicate 6 xff ++ replicate 9 x00 ++ [byte_of n].

Definition CATALOG_DATASET_ID : list byte := reserved_id 0.
Definition PROJECTS_TABLE_ID : list byte := reserved_id 1.
Definition DATASETS_TABLE_ID : list byte := reserved_id 2.
Definition TABLES_TABLE_ID : list byte := reserved_id 3.
Definition STATS_TABLE_ID : list byte := reserved_id 5.
Definition COLUMNS_TABLE_ID : list byte := reserved_id 6.
Definition DEFAULT_PROJECT_NAME : string := "strata".
Definition DEFAULT_DATASET_NAME : string := "public".

Definition system_table_schema : Schema := MkSchema [Field_new "pk" TBytes; Field_new "meta" TJson].

(** ** System tables *)

Definition system_table (table_id : list byte) (name : string) : Table :=
  Table_new SYSTEM_PROJECT_ID CATALOG_DATASET_ID table_id TruncationId.INITIAL name system_table_schema.

Definition projects_meta_table : Table := system_table PROJECTS_TABLE_ID "_projects".
Definition datasets_meta_table : Table := system_table DATASETS_TABLE_ID "_datasets".
Definition tables_meta_table : Table := system_table TABLES_TABLE_ID "_tables".
Definition stats_meta_table : Table := system_table STATS_TABLE_ID "_stats".
Definition columns_meta_table : Table := system_table COLUMNS_TABLE_ID "_columns".

(** ** Keys *)

Definition dataset_key (project_id : list byte) (name : string) : list byte := project_id ++ str name.
Definition dataset_scope (project_id dataset_id : list byte) : list byte := project_id ++ dataset_id.
Definition table_key (project_id dataset_id : list byte) (name : string) (truncation_id : Z) : list byte :=
  dataset_scope project_id dataset_id ++ str name ++ TruncationId.to_be_bytes truncation_id.
Definition column_key (table_id : list byte) (position : Z) : list byte := table_id ++ be_bytes 4 position.
Definition stats_key (s : ColumnStats) : list byte :=
  flat_map (fun part => str part ++ [x00]) [schemaname s; tablename s; attname s].

(** ** Errors *)

Definition already_exists (kind : ResourceKind) (name : string) : QueryError := QCatalog (AlreadyExists kind (str name)).
Definition not_found (kind : ResourceKind) (name : string) : QueryError := QCatalog (NotFound kind (str name)).
Definition truncation_exhausted (name : string) : QueryError := QCatalog (TruncationExhausted (str name)).

(** [Iterator::max_by_key]: the last of the largest. *)
Definition max_by_key {A} (f : A -> Z) (l : list A) : option A :=
  fold_left (fun best x => match best with Some b => if f b <=? f x then Some x else Some b | None => Some x end) l None.

(** A [HashMap] from name to the newest incarnation; the order of its values is
    [gmap]'s. *)
Definition live_step (live : gmap string TableMeta) (meta : TableMeta) : gmap string TableMeta :=
  match live !! tm_name meta with
  | Some existing => if tm_truncation_id existing <? tm_truncation_id meta then <[tm_name meta := meta]> live else live
  | None => <[tm_name meta := meta]> live
  end.
Definition live_incarnations (metas : list TableMeta) : list TableMeta := (map_to_list (fold_left live_step metas ∅)).*2.

Section ops.
Context {DEC : RustDecimal} {JS : SerdeJson} {S : Type} {RS : RowStore S}.
Context {SP : Serde ProjectMeta} {SD : Serde DatasetMeta} {ST : Serde TableMeta} {SC : Serde ColumnMeta} {SS : Serde ColumnStats}.
Abbreviation CM A := (SR S QueryError A).

(** ** Rows of metadata *)

Definition meta_to_tuple {A} `{!Serde A} (user_key : list byte) (meta : A) : res QueryError Tuple :=
  match to_value meta with
  | Some j => Ok (MkTuple [VBytes user_key; VJson j])
  | None => Err QSerde
  end.

Definition tuple_to_meta {A} `{!Serde A} (t : Tuple) : res QueryError A :=
  match values t !! 1%nat with
  | Some (VJson j) => match from_value j with Some m => Ok m | None => Err QSerde end
  | _ => Err QSerde
  end.

Definition write_meta {A} `{!Serde A} (t : Table) (user_key : list byte) (meta : A) : CM unit :=
  row ← sr_lift (meta_to_tuple user_key meta); rs_put t row.

Definition remove_meta (t : Table) (user_key : list byte) : CM unit := rs_delete t (VBytes user_key).

Definition lookup_meta {A} `{!Serde A} (t : Table) (user_key : list byte) : CM (option A) :=
  o ← rs_get t (VBytes user_key);
  match o with
  | None => mret None
  | Some row => m ← sr_lift (tuple_to_meta row); mret (Some m)
  end.

Definition list_metas {A} `{!Serde A} (t : Table) (prefix : list byte) : CM (list A) :=
  rows ← rs_scan t (prefix_scan prefix);
  sr_lift (collect_res (map (fun r => row ← r; tuple_to_meta row) rows)).

(** ** Columns *)

Definition column_meta (table_id : list byte) (i : nat) (f : Field) : ColumnMeta :=
  MkColumnMeta table_id (wrap32 (Z.of_nat i)) (fname f) (fty f) (nullable f) (fdefault f).

Definition write_columns (table_id : list byte) (schema : Schema) : CM unit :=
  sr_for (imap pair (fields schema)) (fun '(i, f) =>
    write_meta columns_meta_table (column_key table_id (wrap32 (Z.of_nat i))) (column_meta table_id i f)).

Definition list_columns (table_id : list byte) : CM (list ColumnMeta) := list_metas columns_meta_table table_id.

Definition column_field (c : ColumnMeta) : Field := MkField (cm_name c) (cm_ty c) (cm_nullable c) (cm_default c).

Definition assemble_schema (table_id : list byte) : CM Schema :=
  columns ← list_columns table_id; mret (MkSchema (map column_field columns)).

Definition clear_columns (table_id : list byte) : CM unit :=
  existing ← list_columns table_id;
  sr_for existing (fun col => remove_meta columns_meta_table (column_key table_id (cm_position col))).

(** ** Reads *)

Definition get_project (name : string) : CM (option ProjectMeta) := lookup_meta projects_meta_table (str name).

Definition get_dataset (project_id : list byte) (name : string) : CM (option DatasetMeta) :=
  lookup_meta datasets_meta_table (dataset_key project_id name).

Definition table_incarnations (project_id dataset_id : list byte) (name : string) : CM (list TableMeta) :=
  metas ← list_metas tables_meta_table (dataset_scope project_id dataset_id);
  mret (filter (fun m => tm_name m = name) metas).

Definition get_table (project_id dataset_id : list byte) (name : string) : CM (option TableMeta) :=
  ms ← table_incarnations project_id dataset_id name; mret (max_by_key tm_truncation_id ms).

(** [ok_or_else(|| not_found(..))]. *)
Definition found {A} (kind : ResourceKind) (name : string) (o : option A) : res QueryError A :=
  match o with Some a => Ok a | None => Err (not_found kind name) end.

Definition resolve_table (project dataset table : string) : CM Table :=
  o ← get_project project; p ← sr_lift (found KProject project o);
  o ← get_dataset (pm_id p) dataset; d ← sr_lift (found KDataset dataset o);
  o ← get_table (pm_id p) (dm_id d) table; t ← sr_lift (found KTable table o);
  schema ← assemble_schema (tm_id t);
  mret (with_indexes (tm_indexes t) (Table_new (pm_id p) (dm_id d) (tm_id t) (tm_truncation_id t) (tm_name t) schema)).

Definition list_projects : CM (list ProjectMeta) := list_metas projects_meta_table [].
Definition list_datasets (project_id : list byte) : CM (list DatasetMeta) := list_metas datasets_meta_table project_id.
Definition list_tables (project_id dataset_id : list byte) : CM (list TableMeta) :=
  metas ← list_metas tables_meta_table (dataset_scope project_id dataset_id); mret (live_incarnations metas).
Definition list_column_stats : CM (list ColumnStats) := list_metas stats_meta_table [].

(** [QueryContext::catalog]: the listings the system relations read. *)
Definition catalog (s : S) : CatalogReader :=
  MkCatalogReader (list_projects s).2 (fun p => (list_datasets p s).2) (fun p d => (list_tables p d s).2)
    (fun t => (list_columns t s).2) (list_column_stats s).2.

(** ** Writes *)

Definition put_table_meta (project_id dataset_id : list byte) (meta : TableMeta) : CM unit :=
  write_meta tables_meta_table (table_key project_id dataset_id (tm_name meta) (tm_truncation_id meta)) meta.

Definition create_project (id : list byte) (name : string) : CM ProjectMeta :=
  o ← get_project name;
  match o with
  | Some _ => sr_lift (Err (already_exists KProject name))
  | None => let meta := MkProjectMeta id name in _ ← write_meta projects_meta_table (str name) meta; mret meta
  end.

Definition drop_project (name : string) : CM unit :=
  o ← get_project name;
  match o with
  | None => sr_lift (Err (not_found KProject name))
  | Some _ => remove_meta projects_meta_table (str name)
  end.

Definition create_dataset (id project_id : list byte) (name : string) : CM DatasetMeta :=
  o ← get_dataset project_id name;
  match o with
  | Some _ => sr_lift (Err (already_exists KDataset name))
  | None =>
      let meta := MkDatasetMeta id name in
      _ ← write_meta datasets_meta_table (dataset_key project_id name) meta; mret meta
  end.

Definition drop_dataset (project_id : list byte) (name : string) : CM unit :=
  o ← get_dataset project_id name;
  match o with
  | None => sr_lift (Err (not_found KDataset name))
  | Some _ => remove_meta datasets_meta_table (dataset_key project_id name)
  end.

Definition create_table (id project_id dataset_id : list byte) (name : string) (schema : Schema) : CM TableMeta :=
  o ← get_table project_id dataset_id name;
  match o with
  | Some _ => sr_lift (Err (already_exists KTable name))
  | None =>
      _ ← write_columns id schema;
      let meta := MkTableMeta id TruncationId.INITIAL name [] in
      _ ← put_table_meta project_id dataset_id meta; mret meta
  end.

(** The id and truncation id of the incarnation [replace_table] writes. *)
Definition next_incarnation (id : list byte) (name : string) (current : option TableMeta) : res QueryError (Z * list byte) :=
  match current with
  | Some c => match TruncationId.next (tm_truncation_id c) with
              | Some n => Ok (n, tm_id c)
              | None => Err (truncation_exhausted name)
              end
  | None => Ok (TruncationId.INITIAL, id)
  end.

Definition replace_table (id project_id dataset_id : list byte) (name : string) (schema : Schema) : CM TableMeta :=
  o ← get_table project_id dataset_id name;
  '(truncation_id, id) ← sr_lift (next_incarnation id name o);
  _ ← clear_columns id;
  _ ← write_columns id schema;
  let meta := MkTableMeta id truncation_id name [] in
  _ ← put_table_meta project_id dataset_id meta; mret meta.

Definition drop_table (project_id dataset_id : list byte) (name : string) : CM unit :=
  incarnations ← table_incarnations project_id dataset_id name;
  match incarnations with
  | [] => sr_lift (Err (not_found KTable name))
  | _ => sr_for incarnations (fun meta =>
           remove_meta tables_meta_table (table_key project_id dataset_id name (tm_truncation_id meta)))
  end.

Definition put_column_stats (s : ColumnStats) : CM unit := write_meta stats_meta_table (stats_key s) s.

(** ** Handles *)

Record Project : Type := MkProject { proj_id : list byte; proj_name : string }.
Record Dataset : Type := MkDataset { ds_project_id : list byte; ds_id : list byte; ds_name : string }.

Definition ensure_default_namespace (project_id dataset_id : list byte) : CM unit :=
  o ← get_project DEFAULT_PROJECT_NAME;
  project ← match o with Some meta => mret meta | None => create_project project_id DEFAULT_PROJECT_NAME end;
  o ← get_dataset (pm_id project) DEFAULT_DATASET_NAME;
  match o with
  | None => _ ← create_dataset dataset_id (pm_id project) DEFAULT_DATASET_NAME; mret tt
  | Some _ => mret tt
  end.

Definition db_create_project (id : list byte) (name : string) : CM Project :=
  meta ← create_project id name; mret (MkProject (pm_id meta) (pm_name meta)).

Definition db_project (name : string) : CM Project :=
  o ← get_project name; meta ← sr_lift (found KProject name o); mret (MkProject (pm_id meta) (pm_name meta)).

Definition db_list_projects : CM (list string) := metas ← list_projects; mret (map pm_name metas).

Definition project_create_dataset (id : list byte) (p : Project) (name : string) : CM Dataset :=
  meta ← create_dataset id (proj_id p) name; mret (MkDataset (proj_id p) (dm_id meta) (dm_name meta)).

Definition project_dataset (p : Project) (name : string) : CM Dataset :=
  o ← get_dataset (proj_id p) name; meta ← sr_lift (found KDataset name o); mret (MkDataset (proj_id p) (dm_id meta) (dm_name meta)).

Definition project_list_datasets (p : Project) : CM (list string) := metas ← list_datasets (proj_id p); mret (map dm_name metas).

Definition dataset_create_table (id : list byte) (d : Dataset) (name : string) (schema : Schema) : CM Table :=
  meta ← create_table id (ds_project_id d) (ds_id d) name schema;
  mret (Table_new (ds_project_id d) (ds_id d) (tm_id meta) (tm_truncation_id meta) (tm_name meta) schema).

Definition dataset_table (d : Dataset) (name : string) : CM Table :=
  o ← get_table (ds_project_id d) (ds_id d) name; meta ← sr_lift (found KTable name o);
  schema ← assemble_schema (tm_id meta);
  mret (Table_new (ds_project_id d) (ds_id d) (tm_id meta) (tm_truncation_id meta) (tm_name meta) schema).

Definition dataset_list_tables (d : Dataset) : CM (list string) :=
  metas ← list_tables (ds_project_id d) (ds_id d); mret (map tm_name metas).
End ops.
