(* ===== verification/CatalogOk.v ===== *)
(** * The catalog as a namespace

    A system table is a finite map of metadata; the catalog's tables together
    are a [namespace]: projects, datasets and tables by name, with the schema and
    the live incarnation of each table.  Every operation of the catalog acts on
    it as its name says, and [resolve_table] reads it. *)

From Stdlib Require Import Strings.Byte Strings.String ZArith Lia Sorted.
From stdpp Require Import prelude list gmap strings.
From S2P Require Import Prelude LsmKey Value ValueCodec Compare KeyCodec RustText RowTable RowTableOk RowStore SystemCatalog Catalog.
Local Open Scope Z_scope.

(** ** A system table is a map of metadata *)

Section metas.
Context {DEC : RustDecimal} {JS : SerdeJson} {S : Type} {RS : RowStore S} {RSok : RowStoreOk S}.
Context {A : Type} {SA : Serde A}.
Implicit Types (ops : list table_op) (t : Table) (k : list byte) (M : gmap (list byte) A) (m : A).

Definition meta_row k m (row : Tuple) : Prop := exists j, row = MkTuple [VBytes k; VJson j] /\ from_value j = Some m.

(** The rows of [t] are those of the map. *)
Definition rows_are ops t M : Prop :=
  schemas_agree ops t /\ forall k, option_Forall2 (fun row m => meta_row k m row) (row_at ops t k) (M !! k).

(** The metadata survives its JSON. *)
Definition storable m : Prop := exists j, to_value m = Some j /\ from_value j = Some m /\ has_type TJson (VJson j).

Definition is_system t : Prop := exists id name, t = system_table id name /\ length id = 16%nat.

Lemma system_wf t : is_system t -> table_wf t.
Proof. intros (id & name & -> & H). repeat split; [by vm_compute..|exact H|by vm_compute|by vm_compute]. Qed.

Lemma tuple_to_meta_row k m row : meta_row k m row -> tuple_to_meta row = Ok m.
Proof. intros (j & -> & Hj). unfold tuple_to_meta. cbn. by rewrite Hj. Qed.

Lemma lookup_meta_ok s ops t M k : rs_holds s ops -> is_system t -> rows_are ops t M ->
  exists s', lookup_meta t k s = (s', Ok (M !! k)) /\ rs_holds s' ops.
Proof using RSok.
  intros H Ht [Hs Hr]. destruct (rs_get_ok s ops t (VBytes k) k H (system_wf t Ht) Hs eq_refl) as (s' & E & H'). exists s'. split; [|done].
  unfold lookup_meta. rewrite (sr_bind_ok _ _ _ _ _ E). specialize (Hr k). destruct Hr as [row m Hm|]; [|done].
  by rewrite (tuple_to_meta_row k m row Hm).
Qed.

Lemma list_metas_ok s ops t M p : rs_holds s ops -> is_system t -> rows_are ops t M ->
  exists s' l, list_metas t p s = (s', Ok l.*2) /\ rs_holds s' ops /\ StronglySorted (fun a b => bytes_cmp a.1 b.1 = Lt) l
    /\ forall k m, (k, m) ∈ l <-> (exists u, k = p ++ u) /\ M !! k = Some m.
Proof using RSok.
  intros H Ht [Hs Hr]. destruct (rs_scan_ok s ops t (prefix_scan p) H (system_wf t Ht) Hs (prefix_scan_valid p)) as (s' & rows & E & H' & Hsort & Hm).
  assert (forall k row, (k, row) ∈ rows <-> (exists u, k = p ++ u) /\ row_at ops t k = Some row) as Hm' by (intros; by rewrite Hm, in_prefix_scan). clear Hm.
  assert (exists l, Forall2 (fun x y => x.1 = y.1 /\ meta_row y.1 y.2 x.2) rows l) as [l Hl].
  { assert (forall x, x ∈ rows -> exists y : list byte * A, x.1 = y.1 /\ meta_row y.1 y.2 x.2) as Hx.
    { intros [k row] [_ Hk]%Hm'. specialize (Hr k). rewrite Hk in Hr. inversion Hr as [? m Hmr|]; subst. by exists (k, m). }
    clear - Hx. induction rows as [|x rows IH]; [by exists []|]. destruct (Hx x ltac:(by left)) as [y Hy].
    destruct IH as [l Hl]; [intros; apply Hx; by right|]. exists (y :: l). by constructor. }
  exists s', l. split; [|split; [done|split]].
  - unfold list_metas. rewrite (sr_bind_ok _ _ _ _ _ E). unfold sr_lift. f_equal. clear - Hl.
    induction Hl as [|[k row] [k' m] rows l [Hk Hm] _ IH]; [done|]. cbn in *. subst k'. rewrite (tuple_to_meta_row k m row Hm), bind_Ok, IH. done.
  - clear - Hl Hsort. induction Hl as [|x y rows l [Hk _] Hrest IH]; [constructor|]. apply StronglySorted_inv in Hsort as [Hs Ha].
    constructor; [by apply IH|]. rewrite <- Hk. clear - Hrest Ha. induction Hrest as [|x' y' rows l [Hk' _] _ IH]; [constructor|].
    apply Forall_cons in Ha as [Ha Has]. constructor; [by rewrite <- Hk'|by apply IH].
  - intros k m. split.
    + intros (i & Hi)%list_elem_of_lookup_1. destruct (Forall2_lookup_r _ _ _ _ _ Hl Hi) as ([k' row] & Hrow & Hk & Hmr). cbn in *. subst k'.
      apply list_elem_of_lookup_2, Hm' in Hrow as [Hp Hat]. split; [done|]. specialize (Hr k). rewrite Hat in Hr. inversion Hr as [? m' Hmr' E1 E2|]; subst.
      destruct Hmr as (j & -> & Hj), Hmr' as (j' & [= <-] & Hj'). congruence.
    + intros [Hp Hk]. specialize (Hr k). rewrite Hk in Hr. inversion Hr as [row ? Hmr E1 E2|]; subst.
      assert ((k, row) ∈ rows) as Hin by (by apply Hm'). apply list_elem_of_lookup_1 in Hin as (i & Hi).
      destruct (Forall2_lookup_l _ _ _ _ _ Hl Hi) as ([k' m'] & Hy & Hk' & Hmr'). cbn in *. subst k'.
      destruct Hmr as (j & -> & Hj), Hmr' as (j' & [= <-] & Hj'). assert (m' = m) as -> by congruence. by eapply list_elem_of_lookup_2.
Qed.

Lemma rows_are_other ops op t M : rows_are ops t M -> incarnation (op_table op) <> incarnation t -> rows_are (ops ++ [op]) t M.
Proof.
  intros [Hs Hr] Hne. split; [by apply schemas_agree_snoc|]. intros k. by rewrite row_at_other.
Qed.

Lemma write_meta_ok s ops t M k m s' : rs_holds s ops -> is_system t -> rows_are ops t M -> storable m ->
  Z.of_nat (length k) + 83 <= u32_max -> is_u64 (Z.of_nat (length ops) + 1) -> write_meta t k m s = (s', Ok tt) ->
  exists op, op_table op = t /\ rs_holds s' (ops ++ [op]) /\ rows_are (ops ++ [op]) t (<[k := m]> M).
Proof using RSok.
  intros H Ht [Hs Hr] (j & Ej & Hj & Htj) Hlen Hw E. unfold write_meta, meta_to_tuple in E. rewrite Ej in E.
  set (row := MkTuple [VBytes k; VJson j]) in E. exists (TPut t row). split; [done|].
  assert (length (row_key t k) = (56 + length k)%nat) as Hl.
  { rewrite row_key_split, length_app, prefix_length by (by apply system_wf). done. }
  split; [|split].
  - eapply rs_put_ok; [done|by apply system_wf| |split; [|done]|exact E].
    + destruct Ht as (id & name & -> & _). constructor; [right; cbn; clear - Hlen; unfold u32_max in *; lia|]. constructor; [by right|constructor].
    + change (op_change (TPut t row)).1 with (row_key t k). rewrite Hl. lia.
  - by apply schemas_agree_snoc.
  - intros k'. rewrite row_at_snoc. unfold addresses. rewrite (bool_decide_true (incarnation _ = _)) by done. cbn [andb].
    change (key_bytes (op_key_value (TPut t row))) with k. destruct (decide (k = k')) as [<-|Hne].
    + rewrite bool_decide_true, lookup_insert_eq by done. constructor. by exists j.
    + rewrite bool_decide_false, lookup_insert_ne by done. apply Hr.
Qed.

Lemma remove_meta_ok s ops t M k s' : rs_holds s ops -> is_system t -> rows_are ops t M ->
  Z.of_nat (length k) + 83 <= u32_max -> is_u64 (Z.of_nat (length ops) + 1) -> remove_meta t k s = (s', Ok tt) ->
  exists op, op_table op = t /\ rs_holds s' (ops ++ [op]) /\ rows_are (ops ++ [op]) t (delete k M).
Proof using RSok.
  intros H Ht [Hs Hr] Hlen Hw E. exists (TDelete t (VBytes k)). split; [done|].
  assert (length (row_key t k) = (56 + length k)%nat) as Hl.
  { rewrite row_key_split, length_app, prefix_length by (by apply system_wf). done. }
  split; [|split].
  - eapply rs_delete_ok; [done|by apply system_wf|split; [|done]|exact E].
    change (op_change (TDelete t (VBytes k))).1 with (row_key t k). rewrite Hl. lia.
  - by apply schemas_agree_snoc.
  - intros k'. rewrite row_at_snoc. unfold addresses. rewrite (bool_decide_true (incarnation _ = _)) by done. cbn [andb].
    change (key_bytes (op_key_value (TDelete t (VBytes k)))) with k. destruct (decide (k = k')) as [<-|Hne].
    + rewrite bool_decide_true, lookup_delete_eq by done. constructor.
    + rewrite bool_decide_false, lookup_delete_ne by done. apply Hr.
Qed.
End metas.

(** ** Namespaces *)

(** Projects and datasets by name; tables by name, with their id and live
    incarnation; every table id ever used, with its columns and the newest
    incarnation of it. *)
Record namespace : Type := MkNs
  { ns_projects : gmap string (list byte);
    ns_datasets : gmap (list byte * string) (list byte);
    ns_tables : gmap (list byte * list byte * string) (list byte * Z);
    ns_shapes : gmap (list byte) (Schema * Z) }.

Record ns_wf (N : namespace) : Prop := {
  wf_projects name id : ns_projects N !! name = Some id -> length id = 16%nat /\ id <> SYSTEM_PROJECT_ID;
  wf_datasets pid name id : ns_datasets N !! (pid, name) = Some id -> length pid = 16%nat /\ length id = 16%nat;
  wf_tables pid did name id last : ns_tables N !! (pid, did, name) = Some (id, last) ->
    length pid = 16%nat /\ length did = 16%nat /\ exists sch, ns_shapes N !! id = Some (sch, last);
  wf_ids x y id lx ly : ns_tables N !! x = Some (id, lx) -> ns_tables N !! y = Some (id, ly) -> x = y;
  wf_shapes id sch last : ns_shapes N !! id = Some (sch, last) ->
    length id = 16%nat /\ Z.of_nat (length (fields sch)) <= u32_max /\ is_u64 last;
}.

Record metas : Type := MkMetas
  { m_projects : gmap (list byte) ProjectMeta; m_datasets : gmap (list byte) DatasetMeta;
    m_tables : gmap (list byte) TableMeta; m_columns : gmap (list byte) ColumnMeta }.

Definition column_row (tid : list byte) (i : nat) (f : Field) : list byte * ColumnMeta :=
  (column_key tid (wrap32 (Z.of_nat i)), column_meta tid i f).

(** The metadata of a namespace: every incarnation of a table up to the live one. *)
Record names (M : metas) (N : namespace) : Prop := {
  nm_projects k m : m_projects M !! k = Some m <-> exists name id, ns_projects N !! name = Some id /\ k = str name /\ m = MkProjectMeta id name;
  nm_datasets k m : m_datasets M !! k = Some m <->
    exists pid name id, ns_datasets N !! (pid, name) = Some id /\ k = dataset_key pid name /\ m = MkDatasetMeta id name;
  nm_tables k m : m_tables M !! k = Some m <->
    exists pid did name id last tr, ns_tables N !! (pid, did, name) = Some (id, last) /\ 0 <= tr <= last
      /\ k = table_key pid did name tr /\ m = MkTableMeta id tr name [];
  nm_columns k m : m_columns M !! k = Some m <->
    exists tid sch last i f, ns_shapes N !! tid = Some (sch, last) /\ fields sch !! i = Some f /\ (k, m) = column_row tid i f;
}.

(** ** Keys are injective *)

#[global] Instance str_inj : Inj (=) (=) str.
Proof. intros a b E. rewrite <- (string_of_list_byte_of_string a), <- (string_of_list_byte_of_string b). unfold str in E. by rewrite E. Qed.

Lemma dataset_key_inj pid pid' name name' : length pid = 16%nat -> length pid' = 16%nat ->
  dataset_key pid name = dataset_key pid' name' -> pid = pid' /\ name = name'.
Proof. intros H H' E. apply app_inj_1 in E as [-> E]; [|congruence]. by apply (inj str) in E. Qed.

Lemma scope_inj pid did pid' did' u u' : length pid = 16%nat -> length pid' = 16%nat -> length did = 16%nat -> length did' = 16%nat ->
  dataset_scope pid did ++ u = dataset_scope pid' did' ++ u' -> pid = pid' /\ did = did' /\ u = u'.
Proof.
  intros H1 H1' H2 H2' E. unfold dataset_scope in E. rewrite <- !app_assoc in E. apply app_inj_1 in E as [-> E]; [|congruence].
  by apply app_inj_1 in E as [-> ->]; [|congruence].
Qed.

Lemma trunc_inj a b : is_u64 a -> is_u64 b -> TruncationId.to_be_bytes a = TruncationId.to_be_bytes b -> a = b.
Proof. intros Ha Hb E. rewrite <- (be_u64 a Ha), <- (be_u64 b Hb). unfold TruncationId.to_be_bytes in E. by rewrite E. Qed.

Lemma name_trunc_inj name name' a b : is_u64 a -> is_u64 b ->
  str name ++ TruncationId.to_be_bytes a = str name' ++ TruncationId.to_be_bytes b -> name = name' /\ a = b.
Proof.
  intros Ha Hb E. apply app_inj_2 in E as [E%(inj str) E']; [|unfold TruncationId.to_be_bytes; by rewrite !length_be_bytes].
  split; [done|]. by apply trunc_inj.
Qed.

Lemma wrap32_small_nat i n : Z.of_nat n <= u32_max -> (i < n)%nat -> wrap32 (Z.of_nat i) = Z.of_nat i /\ is_u32 (Z.of_nat i).
Proof. intros Hn Hi. unfold wrap32, is_u32, u32_max in *. rewrite Z.mod_small by lia. lia. Qed.

(** ** Stored metadata *)

Definition all_tables : list Table := [projects_meta_table; datasets_meta_table; tables_meta_table; columns_meta_table].

Section catalog.
Context {DEC : RustDecimal} {JS : SerdeJson} {S : Type} {RS : RowStore S} {RSok : RowStoreOk S}.
Context {SP : Serde ProjectMeta} {SD : Serde DatasetMeta} {ST : Serde TableMeta} {SC : Serde ColumnMeta}.
Implicit Types (ops : list table_op) (M : metas) (N : namespace) (s : S) (w : nat).

(** Rows are written to system tables and to incarnations that exist. *)
Definition known_op (U : gmap (list byte) (Schema * Z)) (op : table_op) : Prop :=
  t_project (op_table op) = SYSTEM_PROJECT_ID \/ exists sch last, U !! t_id (op_table op) = Some (sch, last) /\ t_trunc (op_table op) <= last.

(** A store after [w] writes that holds the metadata [M]. *)
Definition stored s w M (U : gmap (list byte) (Schema * Z)) : Prop :=
  exists ops, rs_holds s ops /\ length ops = w /\ Forall (known_op U) ops
    /\ rows_are ops projects_meta_table (m_projects M) /\ rows_are ops datasets_meta_table (m_datasets M)
    /\ rows_are ops tables_meta_table (m_tables M) /\ rows_are ops columns_meta_table (m_columns M).

Lemma system_tables_are : is_system projects_meta_table /\ is_system datasets_meta_table /\ is_system tables_meta_table /\ is_system columns_meta_table.
Proof. repeat split; by eexists _, _. Qed.

Lemma rows_are_kept {A} `{!Serde A} ops (op : table_op) (t t' : Table) (X : gmap (list byte) A) :
  op_table op = t -> bool_decide (t_id t = t_id t') = false -> rows_are ops t' X -> rows_are (ops ++ [op]) t' X.
Proof. intros <- Hne%bool_decide_eq_false H. apply rows_are_other; [done|]. unfold incarnation. congruence. Qed.

(** Key and sequence number of one more write fit. *)
Definition fits_write (k : list byte) w : Prop := Z.of_nat (length k) + 83 <= u32_max /\ is_u64 (Z.of_nat w + 1).

Lemma stored_after s ops op M U t : rs_holds s (ops ++ [op]) -> Forall (known_op U) ops -> op_table op = t -> is_system t ->
  rows_are (ops ++ [op]) projects_meta_table (m_projects M) -> rows_are (ops ++ [op]) datasets_meta_table (m_datasets M) ->
  rows_are (ops ++ [op]) tables_meta_table (m_tables M) -> rows_are (ops ++ [op]) columns_meta_table (m_columns M) ->
  stored s (length ops + 1) M U.
Proof.
  intros Hh HF Hop (id & name & -> & _) HP HD HT HC. exists (ops ++ [op]). rewrite length_app. split; [done|]. split; [done|].
  split; [|done]. apply Forall_app. split; [done|]. constructor; [|constructor]. left. by rewrite Hop.
Qed.

Definition set_projects X M : metas := MkMetas X (m_datasets M) (m_tables M) (m_columns M).
Definition set_datasets X M : metas := MkMetas (m_projects M) X (m_tables M) (m_columns M).
Definition set_tables X M : metas := MkMetas (m_projects M) (m_datasets M) X (m_columns M).
Definition set_columns X M : metas := MkMetas (m_projects M) (m_datasets M) (m_tables M) X.

Ltac system_step op Hh HF Hop :=
  eapply (stored_after _ _ op); [exact Hh|exact HF|exact Hop|by eexists _, _; split; [reflexivity|]|..]; cbn [m_projects m_datasets m_tables m_columns set_projects set_datasets set_tables set_columns];
  first [assumption | eapply rows_are_kept; [exact Hop|reflexivity|assumption]].

Ltac system_write A t Hh HF Hm Hk Hw E Hrow :=
  destruct (write_meta_ok (A := A) _ _ t _ _ _ _ Hh ltac:(by eexists _, _) Hrow Hm Hk Hw E) as (op & Hop & Hh' & Hrow'); clear Hrow;
  system_step op Hh' HF Hop.

Ltac system_remove A t Hh HF Hk Hw E Hrow :=
  destruct (remove_meta_ok (A := A) _ _ t _ _ _ Hh ltac:(by eexists _, _) Hrow Hk Hw E) as (op & Hop & Hh' & Hrow'); clear Hrow;
  system_step op Hh' HF Hop.

Lemma write_project s w M U k (m : ProjectMeta) s' : stored s w M U -> storable m -> fits_write k w ->
  write_meta projects_meta_table k m s = (s', Ok tt) -> stored s' (w + 1) (set_projects (<[k := m]> (m_projects M)) M) U.
Proof using RSok. intros (ops & Hh & <- & HF & HP & HD & HT & HC) Hm [Hk Hw] E. system_write ProjectMeta projects_meta_table Hh HF Hm Hk Hw E HP. Qed.

Lemma write_dataset s w M U k (m : DatasetMeta) s' : stored s w M U -> storable m -> fits_write k w ->
  write_meta datasets_meta_table k m s = (s', Ok tt) -> stored s' (w + 1) (set_datasets (<[k := m]> (m_datasets M)) M) U.
Proof using RSok. intros (ops & Hh & <- & HF & HP & HD & HT & HC) Hm [Hk Hw] E. system_write DatasetMeta datasets_meta_table Hh HF Hm Hk Hw E HD. Qed.

Lemma write_table s w M U k (m : TableMeta) s' : stored s w M U -> storable m -> fits_write k w ->
  write_meta tables_meta_table k m s = (s', Ok tt) -> stored s' (w + 1) (set_tables (<[k := m]> (m_tables M)) M) U.
Proof using RSok. intros (ops & Hh & <- & HF & HP & HD & HT & HC) Hm [Hk Hw] E. system_write TableMeta tables_meta_table Hh HF Hm Hk Hw E HT. Qed.

Lemma write_column s w M U k (m : ColumnMeta) s' : stored s w M U -> storable m -> fits_write k w ->
  write_meta columns_meta_table k m s = (s', Ok tt) -> stored s' (w + 1) (set_columns (<[k := m]> (m_columns M)) M) U.
Proof using RSok. intros (ops & Hh & <- & HF & HP & HD & HT & HC) Hm [Hk Hw] E. system_write ColumnMeta columns_meta_table Hh HF Hm Hk Hw E HC. Qed.

Lemma remove_project s w M U k s' : stored s w M U -> fits_write k w ->
  remove_meta projects_meta_table k s = (s', Ok tt) -> stored s' (w + 1) (set_projects (delete k (m_projects M)) M) U.
Proof using RSok. intros (ops & Hh & <- & HF & HP & HD & HT & HC) [Hk Hw] E. system_remove ProjectMeta projects_meta_table Hh HF Hk Hw E HP. Qed.

Lemma remove_dataset s w M U k s' : stored s w M U -> fits_write k w ->
  remove_meta datasets_meta_table k s = (s', Ok tt) -> stored s' (w + 1) (set_datasets (delete k (m_datasets M)) M) U.
Proof using RSok. intros (ops & Hh & <- & HF & HP & HD & HT & HC) [Hk Hw] E. system_remove DatasetMeta datasets_meta_table Hh HF Hk Hw E HD. Qed.

Lemma remove_table s w M U k s' : stored s w M U -> fits_write k w ->
  remove_meta tables_meta_table k s = (s', Ok tt) -> stored s' (w + 1) (set_tables (delete k (m_tables M)) M) U.
Proof using RSok. intros (ops & Hh & <- & HF & HP & HD & HT & HC) [Hk Hw] E. system_remove TableMeta tables_meta_table Hh HF Hk Hw E HT. Qed.

Lemma remove_column s w M U k s' : stored s w M U -> fits_write k w ->
  remove_meta columns_meta_table k s = (s', Ok tt) -> stored s' (w + 1) (set_columns (delete k (m_columns M)) M) U.
Proof using RSok. intros (ops & Hh & <- & HF & HP & HD & HT & HC) [Hk Hw] E. system_remove ColumnMeta columns_meta_table Hh HF Hk Hw E HC. Qed.
(** Reads leave the metadata as it is. *)
Lemma read_project s w M U k : stored s w M U -> exists s', lookup_meta projects_meta_table k s = (s', Ok (m_projects M !! k)) /\ stored s' w M U.
Proof using RSok.
  intros (ops & Hh & Hl & HF & HP & HR). destruct (lookup_meta_ok (A := ProjectMeta) s ops projects_meta_table _ k Hh ltac:(by eexists _, _) HP) as (s1 & E & H1).
  exists s1. split; [done|]. by exists ops.
Qed.

Lemma read_dataset s w M U k : stored s w M U -> exists s', lookup_meta datasets_meta_table k s = (s', Ok (m_datasets M !! k)) /\ stored s' w M U.
Proof using RSok.
  intros (ops & Hh & Hl & HF & HP & HD & HR). destruct (lookup_meta_ok (A := DatasetMeta) s ops datasets_meta_table _ k Hh ltac:(by eexists _, _) HD) as (s1 & E & H1).
  exists s1. split; [done|]. by exists ops.
Qed.

(** A listing: the map's entries with the prefix, in the order of their keys. *)
Definition listing {A} (X : gmap (list byte) A) (p : list byte) (l : list (list byte * A)) : Prop :=
  StronglySorted (fun a b => bytes_cmp a.1 b.1 = Lt) l /\ forall k m, (k, m) ∈ l <-> (exists u, k = p ++ u) /\ X !! k = Some m.

Lemma read_tables s w M U p : stored s w M U -> exists s' l, list_metas tables_meta_table p s = (s', Ok l.*2) /\ stored s' w M U /\ listing (m_tables M) p l.
Proof using RSok.
  intros (ops & Hh & Hl & HF & HP & HD & HT & HC).
  destruct (list_metas_ok (A := TableMeta) s ops tables_meta_table _ p Hh ltac:(by eexists _, _) HT) as (s1 & l & E & H1 & Hs & Hm).
  exists s1, l. split; [done|]. split; [by exists ops|done].
Qed.

Lemma read_columns s w M U p : stored s w M U -> exists s' l, list_metas columns_meta_table p s = (s', Ok l.*2) /\ stored s' w M U /\ listing (m_columns M) p l.
Proof using RSok.
  intros (ops & Hh & Hl & HF & HP & HD & HT & HC).
  destruct (list_metas_ok (A := ColumnMeta) s ops columns_meta_table _ p Hh ltac:(by eexists _, _) HC) as (s1 & l & E & H1 & Hs & Hm).
  exists s1, l. split; [done|]. split; [by exists ops|done].
Qed.

(** ** Reading names *)

Lemma project_named M N name : names M N -> m_projects M !! str name = (fun id => MkProjectMeta id name) <$> ns_projects N !! name.
Proof.
  intros H. apply option_eq. intros m. rewrite (nm_projects _ _ H), fmap_Some. split.
  - intros (name' & id & E & ->%(inj str) & ->). by exists id.
  - intros (id & E & ->). by exists name, id.
Qed.

Lemma dataset_named M N pid name : names M N -> ns_wf N -> length pid = 16%nat ->
  m_datasets M !! dataset_key pid name = (fun id => MkDatasetMeta id name) <$> ns_datasets N !! (pid, name).
Proof.
  intros H W Hp. apply option_eq. intros m. rewrite (nm_datasets _ _ H), fmap_Some. split.
  - intros (pid' & name' & id & E & Hk & ->). destruct (wf_datasets _ W _ _ _ E). apply dataset_key_inj in Hk as [-> ->]; [|done..]. by exists id.
  - intros (id & E & ->). by exists pid, name, id.
Qed.

Lemma sorted_lookup {A} (R : A -> A -> Prop) (l : list A) :
  (forall i j x y, (i < j)%nat -> l !! i = Some x -> l !! j = Some y -> R x y) -> StronglySorted R l.
Proof.
  induction l as [|a l IH]; intros H; constructor; [apply IH; intros i j x y Hij; apply (H (Datatypes.S i) (Datatypes.S j)); lia|].
  apply Forall_lookup. intros i x Hx. apply (H 0%nat (Datatypes.S i)); [lia|done..].
Qed.

Lemma column_keys_sorted tid fs : Z.of_nat (length fs) <= u32_max ->
  StronglySorted (fun a b => bytes_cmp a.1 b.1 = Lt) (imap (column_row tid) fs).
Proof.
  intros Hn. apply sorted_lookup. intros i j x y Hij. rewrite !list_lookup_imap, !fmap_Some. intros (f & Hi & ->) (g & Hj & ->).
  apply lookup_lt_Some in Hi, Hj. destruct (wrap32_small_nat i _ Hn Hi) as [Ei Bi], (wrap32_small_nat j _ Hn Hj) as [Ej Bj].
  cbn. unfold column_key. rewrite Ei, Ej, bytes_cmp_prefix. unfold is_u32, u32_max in *. rewrite bytes_cmp_be by (cbn; lia). apply Z.compare_lt_iff. lia.
Qed.

(** The columns of an id. *)
Definition columns_of N (tid : list byte) : list Field := match ns_shapes N !! tid with Some (sch, _) => fields sch | None => [] end.

Lemma columns_listed M N tid l : names M N -> ns_wf N -> length tid = 16%nat -> listing (m_columns M) tid l -> l = imap (column_row tid) (columns_of N tid).
Proof.
  intros H W Ht [Hs Hm]. assert (Z.of_nat (length (columns_of N tid)) <= u32_max) as Hn.
  { unfold columns_of. destruct (ns_shapes N !! tid) as [[sch last]|] eqn:E; [|cbn; unfold u32_max; lia]. by apply (wf_shapes _ W) in E as (_ & ? & _). }
  apply (sorted_pairs_unique _ _ Hs); [by apply column_keys_sorted|]. intros [k m]. rewrite Hm, (nm_columns _ _ H), elem_of_lookup_imap. split.
  - intros [[u Hu] (tid' & sch & last & i & f & E & Hf & Hk)]. pose proof (wf_shapes _ W _ _ _ E) as (Hl & _).
    assert (tid' = tid) as ->. { unfold column_row, column_key in Hk. injection Hk as -> _. by apply app_inj_1 in Hu as [-> _]; [|congruence]. }
    exists i, f. split; [by rewrite Hk|]. unfold columns_of. by rewrite E.
  - intros (i & f & Hk & Hf). unfold columns_of in Hf. destruct (ns_shapes N !! tid) as [[sch last]|] eqn:E; [|done].
    split; [|by exists tid, sch, last, i, f]. injection Hk as -> _. by eexists.
Qed.

(** The incarnations of a name. *)
Lemma incarnations_listed M N pid did name l : names M N -> ns_wf N -> length pid = 16%nat -> length did = 16%nat ->
  listing (m_tables M) (dataset_scope pid did) l ->
  forall m, m ∈ filter (fun m => tm_name m = name) l.*2 <->
    exists id last tr, ns_tables N !! (pid, did, name) = Some (id, last) /\ 0 <= tr <= last /\ m = MkTableMeta id tr name [].
Proof.
  intros H W Hp Hd [_ Hm] m. rewrite list_elem_of_filter, list_elem_of_fmap. split.
  - intros (Hn & [k m'] & -> & Hin). apply Hm in Hin as [[u Hu] Hin]. apply (nm_tables _ _ H) in Hin as (pid' & did' & name' & id & last & tr & E & Htr & Hk & Em).
    cbn in *. subst m'. cbn in Hn. subst name'.
    destruct (wf_tables _ W _ _ _ _ _ E) as (Hp' & Hd' & _). rewrite Hk in Hu. unfold table_key in Hu. apply scope_inj in Hu as (-> & -> & _); [|done..].
    by exists id, last, tr.
  - intros (id & last & tr & E & Htr & ->). split; [done|]. exists (table_key pid did name tr, MkTableMeta id tr name []). split; [done|].
    apply Hm. split; [by eexists|]. apply (nm_tables _ _ H). by exists pid, did, name, id, last, tr.
Qed.

Lemma max_by_key_spec {A} (f : A -> Z) (l : list A) : match max_by_key f l with
  | Some x => x ∈ l /\ forall y, y ∈ l -> f y <= f x
  | None => l = []
  end.
Proof.
  unfold max_by_key. induction l as [|x l IH] using rev_ind; [done|]. rewrite fold_left_app. cbn. destruct (fold_left _ l None) as [b|].
  - destruct IH as [Hb Hm]. destruct (Z.leb_spec (f b) (f x)); (split; [apply elem_of_app; (by left) || (right; by left)|]);
      intros y [Hy|Hy%list_elem_of_singleton]%elem_of_app; [specialize (Hm y Hy)|subst y|specialize (Hm y Hy)|subst y]; lia.
  - subst l. split; [by left|]. intros y Hy%list_elem_of_singleton. subst. lia.
Qed.

Lemma live_incarnation M N pid did name l : names M N -> ns_wf N -> length pid = 16%nat -> length did = 16%nat ->
  listing (m_tables M) (dataset_scope pid did) l ->
  max_by_key tm_truncation_id (filter (fun m => tm_name m = name) l.*2)
  = (fun '(id, last) => MkTableMeta id last name []) <$> ns_tables N !! (pid, did, name).
Proof.
  intros H W Hp Hd Hl. pose proof (incarnations_listed M N pid did name l H W Hp Hd Hl) as Hm.
  pose proof (max_by_key_spec tm_truncation_id (filter (fun m => tm_name m = name) l.*2)) as Hx. destruct (max_by_key _ _) as [m|].
  - destruct Hx as [Hin Hmax]. apply Hm in Hin as (id & last & tr & E & Htr & ->). rewrite E. cbn. do 2 f_equal.
    specialize (Hmax (MkTableMeta id last name [])). cbn in Hmax. cut (last <= tr); [lia|]. apply Hmax, Hm. exists id, last, last. split; [done|]. split; [lia|done].
  - destruct (ns_tables N !! (pid, did, name)) as [[id last]|] eqn:E; [|done]. exfalso.
    destruct (wf_tables _ W _ _ _ _ _ E) as (_ & _ & sch & Es). destruct (wf_shapes _ W _ _ _ Es) as (_ & _ & Hu).
    apply (not_elem_of_nil (MkTableMeta id last name [])). rewrite <- Hx. apply Hm. exists id, last, last. unfold is_u64 in Hu. split; [done|]. split; [lia|done].
Qed.

(** ** The store and its namespace *)

Definition models s w N : Prop := exists M, stored s w M (ns_shapes N) /\ names M N /\ ns_wf N.

Lemma get_project_ok s w N name : models s w N ->
  exists s', get_project name s = (s', Ok ((fun id => MkProjectMeta id name) <$> ns_projects N !! name)) /\ models s' w N.
Proof using RSok.
  intros (M & H & Hn & W). destruct (read_project s w M _ (str name) H) as (s' & E & H'). exists s'. unfold get_project.
  rewrite E, (project_named M N) by done. split; [done|]. by exists M.
Qed.

Lemma get_dataset_ok s w N pid name : models s w N -> length pid = 16%nat ->
  exists s', get_dataset pid name s = (s', Ok ((fun id => MkDatasetMeta id name) <$> ns_datasets N !! (pid, name))) /\ models s' w N.
Proof using RSok.
  intros (M & H & Hn & W) Hp. destruct (read_dataset s w M _ (dataset_key pid name) H) as (s' & E & H'). exists s'. unfold get_dataset.
  rewrite E, (dataset_named M N) by done. split; [done|]. by exists M.
Qed.

Lemma get_table_ok s w N pid did name : models s w N -> length pid = 16%nat -> length did = 16%nat ->
  exists s', get_table pid did name s = (s', Ok ((fun '(id, last) => MkTableMeta id last name []) <$> ns_tables N !! (pid, did, name))) /\ models s' w N.
Proof using RSok.
  intros (M & H & Hn & W) Hp Hd. destruct (read_tables s w M _ (dataset_scope pid did) H) as (s' & l & E & H' & Hl). exists s'.
  unfold get_table, table_incarnations. rewrite (sr_bind_ok _ _ _ _ _ (sr_bind_ok _ _ _ _ _ E)). split; [|by exists M].
  unfold mret, sr_ret. by rewrite (live_incarnation M N pid did name l).
Qed.

Lemma list_columns_ok s w N tid : models s w N -> length tid = 16%nat ->
  exists s', list_columns tid s = (s', Ok (imap (column_meta tid) (columns_of N tid))) /\ models s' w N.
Proof using RSok.
  intros (M & H & Hn & W) Ht. destruct (read_columns s w M _ tid H) as (s' & l & E & H' & Hl). exists s'. unfold list_columns. rewrite E.
  split; [|by exists M]. rewrite (columns_listed M N tid l) by done. by rewrite fmap_imap.
Qed.

Lemma assemble_schema_ok s w N tid : models s w N -> length tid = 16%nat ->
  exists s', assemble_schema tid s = (s', Ok (MkSchema (columns_of N tid))) /\ models s' w N.
Proof using RSok.
  intros H Ht. destruct (list_columns_ok s w N tid H Ht) as (s' & E & H'). exists s'. split; [|done]. unfold assemble_schema.
  rewrite (sr_bind_ok _ _ _ _ _ E). unfold mret, sr_ret. do 3 f_equal. change (map column_field) with (fmap (M := list) column_field).
  rewrite fmap_imap. etransitivity; [|apply list_fmap_id]. etransitivity; [|apply (imap_const id)]. apply imap_ext. intros i [] _. done.
Qed.
(** ** Projects and datasets *)

Definition add_project name id N : namespace := MkNs (<[name := id]> (ns_projects N)) (ns_datasets N) (ns_tables N) (ns_shapes N).
Definition del_project name N : namespace := MkNs (delete name (ns_projects N)) (ns_datasets N) (ns_tables N) (ns_shapes N).
Definition add_dataset pid name id N : namespace := MkNs (ns_projects N) (<[(pid, name) := id]> (ns_datasets N)) (ns_tables N) (ns_shapes N).
Definition del_dataset pid name N : namespace := MkNs (ns_projects N) (delete (pid, name) (ns_datasets N)) (ns_tables N) (ns_shapes N).

Lemma create_project_ok s w N id name s' m : models s w N -> length id = 16%nat -> id <> SYSTEM_PROJECT_ID ->
  storable (MkProjectMeta id name) -> fits_write (str name) w -> create_project id name s = (s', Ok m) ->
  ns_projects N !! name = None /\ m = MkProjectMeta id name /\ models s' (w + 1) (add_project name id N).
Proof using RSok.
  intros H Hi Hsys Hm Hf E. destruct (get_project_ok s w N name H) as (s1 & E1 & (M & H1 & Hn & W)). unfold create_project in E.
  rewrite (sr_bind_ok _ _ _ _ _ E1) in E. destruct (ns_projects N !! name) eqn:En; [done|]. cbn in E. split; [done|].
  apply sr_bind_inv in E as (s2 & [] & E2 & [= <- <-]). split; [done|]. exists (set_projects (<[str name := MkProjectMeta id name]> (m_projects M)) M).
  split; [by eapply write_project|]. split; [split; [|apply Hn..]|split; [|apply W..]]; cbn.
  - intros k m. rewrite lookup_insert_Some, (nm_projects _ _ Hn). setoid_rewrite lookup_insert_Some. split.
    + intros [[<- <-]|(Hne & name' & id' & E & -> & ->)]; [by exists name, id; auto|]. exists name', id'. split; [right; split; [congruence|done]|done].
    + intros (name' & id' & [[<- <-]|[Hne E]] & -> & ->); [by left|right]. split; [intros ?%(inj str); congruence|]. by exists name', id'.
  - intros name' id' [[<- <-]|[_ E]]%lookup_insert_Some; [done|]. by apply (wf_projects _ W) in E.
Qed.
Lemma create_project_taken s w N id name id' : models s w N -> ns_projects N !! name = Some id' ->
  exists s', create_project id name s = (s', Err (already_exists KProject name)) /\ models s' w N.
Proof using RSok.
  intros H Hn. destruct (get_project_ok s w N name H) as (s1 & E1 & H1). exists s1. split; [|done]. unfold create_project.
  by rewrite (sr_bind_ok _ _ _ _ _ E1), Hn.
Qed.

Lemma drop_project_ok s w N name s' : models s w N -> fits_write (str name) w -> drop_project name s = (s', Ok tt) ->
  is_Some (ns_projects N !! name) /\ models s' (w + 1) (del_project name N).
Proof using RSok.
  intros H Hf E. destruct (get_project_ok s w N name H) as (s1 & E1 & (M & H1 & Hn & W)). unfold drop_project in E.
  rewrite (sr_bind_ok _ _ _ _ _ E1) in E. destruct (ns_projects N !! name) as [id|] eqn:En; [|done]. split; [done|].
  exists (set_projects (delete (str name) (m_projects M)) M). split; [by eapply remove_project|].
  split; [split; [|apply Hn..]|split; [|apply W..]]; cbn.
  - intros k m. rewrite lookup_delete_Some, (nm_projects _ _ Hn). setoid_rewrite lookup_delete_Some. split.
    + intros (Hne & name' & id' & E' & -> & ->). exists name', id'. split; [split; [congruence|done]|done].
    + intros (name' & id' & [Hne E'] & -> & ->). split; [intros ?%(inj str); congruence|]. by exists name', id'.
  - intros name' id' [_ E']%lookup_delete_Some. by apply (wf_projects _ W) in E'.
Qed.

Lemma create_dataset_ok s w N id pid name s' m : models s w N -> length id = 16%nat -> length pid = 16%nat ->
  storable (MkDatasetMeta id name) -> fits_write (dataset_key pid name) w -> create_dataset id pid name s = (s', Ok m) ->
  ns_datasets N !! (pid, name) = None /\ m = MkDatasetMeta id name /\ models s' (w + 1) (add_dataset pid name id N).
Proof using RSok.
  intros H Hi Hp Hm Hf E. destruct (get_dataset_ok s w N pid name H Hp) as (s1 & E1 & (M & H1 & Hn & W)). unfold create_dataset in E.
  rewrite (sr_bind_ok _ _ _ _ _ E1) in E. destruct (ns_datasets N !! (pid, name)) eqn:En; [done|]. cbn in E. split; [done|].
  apply sr_bind_inv in E as (s2 & [] & E2 & [= <- <-]). split; [done|]. exists (set_datasets (<[dataset_key pid name := MkDatasetMeta id name]> (m_datasets M)) M).
  split; [by eapply write_dataset|]. split; [split; [apply Hn| |apply Hn..]|split; [apply W| |apply W..]]; cbn.
  - intros k m. rewrite lookup_insert_Some, (nm_datasets _ _ Hn). setoid_rewrite lookup_insert_Some. split.
    + intros [[<- <-]|(Hne & pid' & name' & id' & E & -> & ->)]; [by exists pid, name, id; auto|].
      exists pid', name', id'. split; [right; split; [congruence|done]|done].
    + intros (pid' & name' & id' & [[[= <- <-] <-]|[Hne E]] & -> & ->); [by left|right]. split; [|by exists pid', name', id'].
      intros [-> ->]%dataset_key_inj; [done|done|]. by apply (wf_datasets _ W) in E as [? _].
  - intros pid' name' id' [[[= <- <-] <-]|[_ E]]%lookup_insert_Some; [done|]. by apply (wf_datasets _ W) in E.
Qed.

Lemma create_dataset_taken s w N id pid name id' : models s w N -> length pid = 16%nat -> ns_datasets N !! (pid, name) = Some id' ->
  exists s', create_dataset id pid name s = (s', Err (already_exists KDataset name)) /\ models s' w N.
Proof using RSok.
  intros H Hp Hn. destruct (get_dataset_ok s w N pid name H Hp) as (s1 & E1 & H1). exists s1. split; [|done]. unfold create_dataset.
  by rewrite (sr_bind_ok _ _ _ _ _ E1), Hn.
Qed.

Lemma drop_dataset_ok s w N pid name s' : models s w N -> length pid = 16%nat -> fits_write (dataset_key pid name) w ->
  drop_dataset pid name s = (s', Ok tt) -> is_Some (ns_datasets N !! (pid, name)) /\ models s' (w + 1) (del_dataset pid name N).
Proof using RSok.
  intros H Hp Hf E. destruct (get_dataset_ok s w N pid name H Hp) as (s1 & E1 & (M & H1 & Hn & W)). unfold drop_dataset in E.
  rewrite (sr_bind_ok _ _ _ _ _ E1) in E. destruct (ns_datasets N !! (pid, name)) as [id|] eqn:En; [|done]. split; [done|].
  exists (set_datasets (delete (dataset_key pid name) (m_datasets M)) M). split; [by eapply remove_dataset|].
  split; [split; [apply Hn| |apply Hn..]|split; [apply W| |apply W..]]; cbn.
  - intros k m. rewrite lookup_delete_Some, (nm_datasets _ _ Hn). setoid_rewrite lookup_delete_Some. split.
    + intros (Hne & pid' & name' & id' & E' & -> & ->). exists pid', name', id'. split; [split; [congruence|done]|done].
    + intros (pid' & name' & id' & [Hne E'] & -> & ->). split; [|by exists pid', name', id'].
      intros [-> ->]%dataset_key_inj; [done|done|]. by apply (wf_datasets _ W) in E' as [? _].
  - intros pid' name' id' [_ E']%lookup_delete_Some. by apply (wf_datasets _ W) in E'.
Qed.

(** ** Columns *)

(** The rows of a loop over the columns. *)
Definition put_columns (tid : list byte) (l : list (nat * Field)) (C : gmap (list byte) ColumnMeta) : gmap (list byte) ColumnMeta :=
  foldl (fun C '(i, f) => <[(column_row tid i f).1 := (column_row tid i f).2]> C) C l.
Definition cut_columns (tid : list byte) (l : list ColumnMeta) (C : gmap (list byte) ColumnMeta) : gmap (list byte) ColumnMeta :=
  foldl (fun C c => delete (column_key tid (cm_position c)) C) C l.

Lemma column_key_fits (tid : list byte) pos w n : length tid = 16%nat -> is_u64 (Z.of_nat w + Z.of_nat n) -> (0 < n)%nat -> fits_write (column_key tid pos) w.
Proof. intros Ht Hw Hn. unfold fits_write, column_key. rewrite length_app, length_be_bytes, Ht. unfold is_u64, u32_max in *. lia. Qed.

Lemma write_columns_ok (tid : list byte) (l : list (nat * Field)) : forall s w M U s', stored s w M U -> length tid = 16%nat ->
  Forall (fun '(i, f) => storable (column_meta tid i f)) l -> is_u64 (Z.of_nat w + Z.of_nat (length l)) ->
  sr_for l (fun '(i, f) => write_meta columns_meta_table (column_key tid (wrap32 (Z.of_nat i))) (column_meta tid i f)) s = (s', Ok tt) ->
  stored s' (w + length l) (set_columns (put_columns tid l (m_columns M)) M) U.
Proof using RSok.
  induction l as [|[i f] l IH]; intros s w M U s' H Ht Hs Hw E; cbn [sr_for] in E.
  - injection E as <-. cbn. rewrite Nat.add_0_r. by destruct M.
  - apply Forall_cons in Hs as [Hf Hs]. apply sr_bind_inv in E as (s1 & [] & E1 & E). cbn [length] in *.
    apply (write_column s w M U) in E1; [|done|done|eapply column_key_fits; [done|exact Hw|lia]].
    apply (IH _ _ _ _ _ E1 Ht Hs) in E; [|replace (Z.of_nat (w + 1) + Z.of_nat (length l)) with (Z.of_nat w + Z.of_nat (Datatypes.S (length l))) by lia; done].
    by rewrite <- Nat.add_assoc in E.
Qed.

Lemma clear_columns_loop (tid : list byte) (l : list ColumnMeta) : forall s w M U s', stored s w M U -> length tid = 16%nat -> is_u64 (Z.of_nat w + Z.of_nat (length l)) ->
  sr_for l (fun col => remove_meta columns_meta_table (column_key tid (cm_position col))) s = (s', Ok tt) ->
  stored s' (w + length l) (set_columns (cut_columns tid l (m_columns M)) M) U.
Proof using RSok.
  induction l as [|c l IH]; intros s w M U s' H Ht Hw E; cbn [sr_for] in E.
  - injection E as <-. cbn. rewrite Nat.add_0_r. by destruct M.
  - apply sr_bind_inv in E as (s1 & [] & E1 & E). cbn [length] in *.
    apply (remove_column s w M U) in E1; [|done|eapply column_key_fits; [done|exact Hw|lia]].
    apply (IH _ _ _ _ _ E1 Ht) in E; [|replace (Z.of_nat (w + 1) + Z.of_nat (length l)) with (Z.of_nat w + Z.of_nat (Datatypes.S (length l))) by lia; done].
    by rewrite <- Nat.add_assoc in E.
Qed.
Lemma put_columns_lookup tid l C k m : NoDup ((fun x : nat * Field => (column_row tid x.1 x.2).1) <$> l) ->
  put_columns tid l C !! k = Some m <->
  (exists i f, (i, f) ∈ l /\ (k, m) = column_row tid i f) \/ ((forall i f, (i, f) ∈ l -> k <> (column_row tid i f).1) /\ C !! k = Some m).
Proof.
  induction l as [|[i f] l IH] using rev_ind; intros Hd.
  - cbn. split; [intros H; right; split; [|done]; by intros i f ?%not_elem_of_nil|]. by intros [(i & f & ?%not_elem_of_nil & _)|[_ ?]].
  - rewrite fmap_app in Hd. apply NoDup_app in Hd as (Hd & Hx & _). specialize (IH Hd). unfold put_columns. rewrite foldl_snoc. fold (put_columns tid l C).
    rewrite lookup_insert_Some, IH. setoid_rewrite elem_of_app. setoid_rewrite list_elem_of_singleton.
    assert (forall i' f', (i', f') ∈ l -> (column_row tid i' f').1 <> (column_row tid i f).1) as Hne.
    { intros i' f' Hin E. apply (Hx (column_row tid i' f').1); [by apply (list_elem_of_fmap_2 (fun x => (column_row tid x.1 x.2).1) l (i', f'))|]. rewrite E. by left. }
    split.
    + intros [[<- <-]|[Hk [(i' & f' & Hin & E)|[Hn E]]]]; [left; exists i, f; split; [by right|by destruct (column_row tid i f)]|left; exists i', f'; split; [by left|done]|].
      right. split; [|done]. intros i' f' [Hin|[= -> ->]]; [by apply Hn|congruence].
    + intros [(i' & f' & [Hin|[= -> ->]] & E)|[Hn E]].
      * right. split; [specialize (Hne i' f' Hin); rewrite <- E in Hne; cbn [fst] in Hne; congruence|left; by exists i', f'].
      * left. by rewrite <- E.
      * right. split; [intros E'; by destruct (Hn i f (or_intror eq_refl))|]. right. split; [intros i' f' Hin; apply Hn; by left|done].
Qed.

Lemma cut_columns_lookup tid l C k m : cut_columns tid l C !! k = Some m <-> (forall c, c ∈ l -> k <> column_key tid (cm_position c)) /\ C !! k = Some m.
Proof.
  induction l as [|c l IH] using rev_ind; [split; [intros H; split; [by intros c ?%not_elem_of_nil|done]|by intros [_ ?]]|].
  unfold cut_columns. rewrite foldl_snoc. fold (cut_columns tid l C). rewrite lookup_delete_Some, IH. setoid_rewrite elem_of_app. setoid_rewrite list_elem_of_singleton.
  split; [intros (Hk & Hn & E); split; [intros c' [Hc| ->]; [by apply Hn|congruence]|done]|].
  intros [Hn E]. split; [intros E'; by destruct (Hn c (or_intror eq_refl))|]. split; [intros c' Hc; apply Hn; by left|done].
Qed.

(** The column rows of the other ids. *)
Definition without N (tid : list byte) (C : gmap (list byte) ColumnMeta) : Prop := forall k m, C !! k = Some m <->
  exists tid' sch last i f, ns_shapes N !! tid' = Some (sch, last) /\ fields sch !! i = Some f /\ (k, m) = column_row tid' i f /\ tid' <> tid.

Lemma fresh_without M N tid : names M N -> ns_shapes N !! tid = None -> without N tid (m_columns M).
Proof.
  intros H Hf k m. rewrite (nm_columns _ _ H). split.
  - intros (tid' & sch & last & i & f & E & Hi & Hk). exists tid', sch, last, i, f. split; [done|]. split; [done|]. split; [done|]. congruence.
  - intros (tid' & sch & last & i & f & E & Hi & Hk & _). by exists tid', sch, last, i, f.
Qed.

Lemma clear_columns_ok s w M N tid s' : stored s w M (ns_shapes N) -> names M N -> ns_wf N -> length tid = 16%nat ->
  is_u64 (Z.of_nat w + Z.of_nat (length (columns_of N tid))) -> clear_columns tid s = (s', Ok tt) ->
  exists C, stored s' (w + length (columns_of N tid)) (set_columns C M) (ns_shapes N) /\ without N tid C.
Proof using RSok.
  intros H Hn W Ht Hw E. unfold clear_columns in E. destruct (read_columns s w M _ tid H) as (s1 & l & E1 & H1 & Hl).
  rewrite (columns_listed M N tid l) in E1 by done. rewrite fmap_imap in E1. rewrite (sr_bind_ok _ _ _ _ _ E1) in E. clear l Hl.
  set (l := imap (fun i f => (column_row tid i f).2) (columns_of N tid)) in E.
  assert (length l = length (columns_of N tid)) as Hl by apply length_imap. rewrite <- Hl in Hw.
  apply (clear_columns_loop tid l _ _ _ _ _ H1 Ht Hw) in E. rewrite Hl in E. eexists. split; [exact E|].
  intros k m. rewrite cut_columns_lookup, (nm_columns _ _ Hn). split.
  - intros [Hc (tid' & sch & last & i & f & Es & Hi & Hk)]. exists tid', sch, last, i, f. split; [done|]. split; [done|]. split; [done|]. intros ->.
    apply (Hc (column_meta tid i f)); [|by injection Hk as ->]. unfold l. apply elem_of_lookup_imap. exists i, f. split; [done|]. unfold columns_of. by rewrite Es.
  - intros (tid' & sch & last & i & f & Es & Hi & Hk & Hne). split; [|by exists tid', sch, last, i, f].
    intros c (j & g & -> & _)%elem_of_lookup_imap E'. injection Hk as Hk _. cbn in E'. rewrite Hk in E'. unfold column_key in E'.
    apply app_inj_1 in E' as [E' _]; [done|]. apply (wf_shapes _ W) in Es as (-> & _). done.
Qed.

(** ** Incarnations *)

Definition put_incarnation pid did name id tr sch N : namespace :=
  MkNs (ns_projects N) (ns_datasets N) (<[(pid, did, name) := (id, tr)]> (ns_tables N)) (<[id := (sch, tr)]> (ns_shapes N)).

(** A namespace whose rows were all written to incarnations of [U]. *)
Definition models_from U s w N : Prop := exists M, stored s w M U /\ names M N /\ ns_wf N.

(** [tr] and [id] are those of the incarnation after the live one, or new. *)
Definition next_of N pid did name id tr : Prop :=
  match ns_tables N !! (pid, did, name) with
  | Some (id0, last) => id = id0 /\ tr = last + 1
  | None => ns_shapes N !! id = None /\ tr = 0
  end.

Lemma stored_mono s w M U U' : (forall id sch last, U !! id = Some (sch, last) -> exists sch' last', U' !! id = Some (sch', last') /\ last <= last') ->
  stored s w M U -> stored s w M U'.
Proof.
  intros HU (ops & Hh & Hl & HF & HR). exists ops. split; [done|]. split; [done|]. split; [|done]. eapply Forall_impl; [exact HF|].
  intros op [?|(sch & last & E & Ht)]; [by left|right]. destruct (HU _ _ _ E) as (sch' & last' & E' & Hle). exists sch', last'. split; [done|lia].
Qed.

Lemma next_shape N pid did name id tr : ns_wf N -> next_of N pid did name id tr ->
  forall sch last, ns_shapes N !! id = Some (sch, last) -> last <= tr.
Proof.
  intros W Hx sch last E. unfold next_of in Hx. destruct (ns_tables N !! _) as [[id0 last0]|] eqn:Et; [|by destruct Hx as [? _]; congruence].
  destruct Hx as [-> ->]. destruct (wf_tables _ W _ _ _ _ _ Et) as (_ & _ & sch0 & E0). assert (last = last0) by congruence. lia.
Qed.
Lemma next_wf N pid did name id tr sch : ns_wf N -> next_of N pid did name id tr -> length pid = 16%nat -> length did = 16%nat ->
  length id = 16%nat -> Z.of_nat (length (fields sch)) <= u32_max -> is_u64 tr -> ns_wf (put_incarnation pid did name id tr sch N).
Proof.
  intros W Hx Hp Hd Hi Hs Htr.
  assert (forall x lx, ns_tables N !! x = Some (id, lx) -> x = (pid, did, name)) as Hid.
  { intros [[p d] n] lx E. unfold next_of in Hx. destruct (ns_tables N !! (pid, did, name)) as [[id0 last]|] eqn:Et.
    - destruct Hx as [-> _]. by eapply (wf_ids _ W).
    - destruct (wf_tables _ W _ _ _ _ _ E) as (_ & _ & sch' & E'). destruct Hx. congruence. }
  split; cbn; [apply W|apply W| | |].
  - intros p d n i l [[[= <- <- <-] [= <- <-]]|[Hne E]]%lookup_insert_Some; [split; [done|]; split; [done|]; exists sch; apply lookup_insert_eq|].
    destruct (wf_tables _ W _ _ _ _ _ E) as (H1 & H2 & sch' & E'). split; [done|]. split; [done|]. exists sch'. rewrite lookup_insert_ne; [done|].
    intros ->. by apply Hid in E.
  - intros x y i lx ly Ex Ey. apply lookup_insert_Some in Ex as [[<- Ei]|[Hx' Ex]]; apply lookup_insert_Some in Ey as [[<- Ei']|[Hy' Ey]];
      try injection Ei as <- <-; try injection Ei' as <- <-.
    + done.
    + by apply Hid in Ey as ->.
    + by apply Hid in Ex as ->.
    + by eapply (wf_ids _ W).
  - intros i sc l [[<- [= <- <-]]|[Hne E]]%lookup_insert_Some; [done|]. by apply (wf_shapes _ W) in E.
Qed.

Lemma column_rows_nodup tid fs : length tid = 16%nat -> Z.of_nat (length fs) <= u32_max ->
  NoDup ((fun x : nat * Field => (column_row tid x.1 x.2).1) <$> imap pair fs).
Proof.
  intros Ht Hn. rewrite fmap_imap. apply NoDup_alt. intros i j k. rewrite !list_lookup_imap, !fmap_Some. intros (f & Hi & ->) (g & Hj & E). cbn in E.
  apply lookup_lt_Some in Hi, Hj. destruct (wrap32_small_nat i _ Hn Hi) as [Ei Bi], (wrap32_small_nat j _ Hn Hj) as [Ej Bj].
  unfold column_key in E. rewrite Ei, Ej in E. apply (inj (app tid)) in E. apply (f_equal be_value) in E. rewrite !be_u32 in E by done. lia.
Qed.

Lemma next_columns N pid did name id tr sch C : ns_wf N -> without N id C -> length id = 16%nat -> Z.of_nat (length (fields sch)) <= u32_max ->
  forall k m, put_columns id (imap pair (fields sch)) C !! k = Some m <->
  exists tid sc last i f, ns_shapes (put_incarnation pid did name id tr sch N) !! tid = Some (sc, last) /\ fields sc !! i = Some f /\ (k, m) = column_row tid i f.
Proof.
  intros W Hc Hi Hn k m. rewrite put_columns_lookup, (Hc k m) by (by apply column_rows_nodup). cbn. setoid_rewrite elem_of_lookup_imap. split.
  - intros [(i & f & (j & g & [= -> ->] & Hj) & Hk)|[_ (tid & sc & last & i & f & E & Hf & Hk & Hne)]].
    + exists id, sch, tr, j, g. by rewrite lookup_insert_eq.
    + exists tid, sc, last, i, f. by rewrite lookup_insert_ne.
  - intros (tid & sc & last & i & f & [[<- [= <- <-]]|[Hne E]]%lookup_insert_Some & Hf & Hk).
    + left. exists i, f. split; [by exists i, f|done].
    + right. split; [|by exists tid, sc, last, i, f; auto]. intros i' f' _ E'. injection Hk as Hk _. rewrite Hk in E'. cbn in E'. unfold column_key in E'.
      apply app_inj_1 in E' as [? _]; [congruence|]. apply (wf_shapes _ W) in E as (-> & _). done.
Qed.

Lemma next_tables M N pid did name id tr sch : names M N -> ns_wf N -> next_of N pid did name id tr -> length pid = 16%nat -> length did = 16%nat ->
  is_u64 tr -> forall k m, <[table_key pid did name tr := MkTableMeta id tr name []]> (m_tables M) !! k = Some m <->
  exists p d n i last t, ns_tables (put_incarnation pid did name id tr sch N) !! (p, d, n) = Some (i, last) /\ 0 <= t <= last
    /\ k = table_key p d n t /\ m = MkTableMeta i t n [].
Proof.
  intros H W Hx Hp Hd Htr k m. unfold next_of in Hx. rewrite lookup_insert_Some, (nm_tables _ _ H). cbn. unfold is_u64 in Htr. split.
  - intros [[<- <-]|(Hne & p & d & n & i & last & t & E & Ht & Hk & Hm)]; [exists pid, did, name, id, tr, tr; rewrite lookup_insert_eq; repeat split; lia|].
    destruct (decide ((pid, did, name) = (p, d, n))) as [[= <- <- <-]|Hne'].
    + rewrite E in Hx. destruct Hx as [-> ->]. exists pid, did, name, i, (last + 1), t. rewrite lookup_insert_eq. repeat split; [lia..|done|done].
    + exists p, d, n, i, last, t. by rewrite lookup_insert_ne.
  - intros (p & d & n & i & last & t & [[[= <- <- <-] [= <- <-]]|[Hne E]]%lookup_insert_Some & Ht & -> & ->).
    + destruct (decide (t = tr)) as [->|Hne]; [by left|right]. split.
      * intros E. unfold table_key in E. apply (inj (app _)) in E. apply name_trunc_inj in E as [_ ?]; [congruence|unfold is_u64; lia..].
      * destruct (ns_tables N !! (pid, did, name)) as [[id0 last0]|] eqn:E; [|lia]. destruct Hx as [-> ->]. exists pid, did, name, id0, last0, t.
        split; [done|]. split; [lia|done].
    + right. split; [|by exists p, d, n, i, last, t]. intros E'. destruct (wf_tables _ W _ _ _ _ _ E) as (Hp' & Hd' & sc & Es).
      destruct (wf_shapes _ W _ _ _ Es) as (_ & _ & Hu). unfold table_key in E'. apply scope_inj in E' as (-> & -> & E'); [|done..].
      apply name_trunc_inj in E' as [-> _]; [done|unfold is_u64 in *; lia..].
Qed.

(** Writing an incarnation: its columns, then its row. *)
Lemma incarnation_written s w M N C pid did name id tr sch s1 s2 :
  stored s w (set_columns C M) (ns_shapes N) -> names M N -> ns_wf N -> without N id C -> next_of N pid did name id tr ->
  length pid = 16%nat -> length did = 16%nat -> length id = 16%nat -> Z.of_nat (length (fields sch)) <= u32_max -> is_u64 tr ->
  Forall (fun '(i, f) => storable (column_meta id i f)) (imap pair (fields sch)) -> storable (MkTableMeta id tr name []) ->
  Z.of_nat (length (str name)) + 123 <= u32_max -> is_u64 (Z.of_nat w + Z.of_nat (length (fields sch)) + 1) ->
  write_columns id sch s = (s1, Ok tt) -> put_table_meta pid did (MkTableMeta id tr name []) s1 = (s2, Ok tt) ->
  models_from (ns_shapes N) s2 (w + length (fields sch) + 1) (put_incarnation pid did name id tr sch N).
Proof using RSok.
  intros H Hn W Hc Hx Hp Hd Hi Hs Htr Hcols Hm Hname Hw E1 E2.
  apply (write_columns_ok id _ _ _ _ _ _ H Hi Hcols) in E1; [|rewrite length_imap; unfold is_u64 in *; lia]. rewrite length_imap in E1. cbn [m_columns set_columns] in E1.
  apply (write_table _ _ _ _ _ _ _ E1 Hm) in E2.
  2:{ split; [|unfold is_u64 in *; lia]. cbn. unfold table_key, dataset_scope, TruncationId.to_be_bytes. rewrite !length_app, length_be_bytes, Hp, Hd. unfold u32_max in *. lia. }
  eexists. split; [exact E2|]. split; [|by apply next_wf].
  split; [apply Hn|apply Hn|exact (next_tables M N pid did name id tr sch Hn W Hx Hp Hd Htr)|exact (next_columns N pid did name id tr sch C W Hc Hi Hs)].
Qed.

Lemma next_models s w N pid did name id tr sch : ns_wf N -> next_of N pid did name id tr ->
  models_from (ns_shapes N) s w (put_incarnation pid did name id tr sch N) -> models s w (put_incarnation pid did name id tr sch N).
Proof.
  intros W Hx (M & H & HR). exists M. split; [|done]. eapply stored_mono; [|exact H]. cbn. intros id' sc last E. destruct (decide (id = id')) as [<-|Hne].
  - exists sch, tr. rewrite lookup_insert_eq. split; [done|]. by eapply next_shape.
  - exists sc, last. rewrite lookup_insert_ne by done. done.
Qed.
(** ** Tables *)

Lemma create_table_ok s w N id pid did name sch s' m : models s w N -> length pid = 16%nat -> length did = 16%nat -> length id = 16%nat ->
  ns_shapes N !! id = None -> Z.of_nat (length (fields sch)) <= u32_max ->
  Forall (fun '(i, f) => storable (column_meta id i f)) (imap pair (fields sch)) -> storable (MkTableMeta id 0 name []) ->
  Z.of_nat (length (str name)) + 123 <= u32_max -> is_u64 (Z.of_nat w + Z.of_nat (length (fields sch)) + 1) ->
  create_table id pid did name sch s = (s', Ok m) ->
  ns_tables N !! (pid, did, name) = None /\ m = MkTableMeta id 0 name []
  /\ models_from (ns_shapes N) s' (w + length (fields sch) + 1) (put_incarnation pid did name id 0 sch N).
Proof using RSok.
  intros H Hp Hd Hi Hf Hs Hcols Hm Hname Hw E. destruct (get_table_ok s w N pid did name H Hp Hd) as (s1 & E1 & (M & H1 & Hn & W)). unfold create_table in E.
  rewrite (sr_bind_ok _ _ _ _ _ E1) in E. destruct (ns_tables N !! (pid, did, name)) as [[id0 l0]|] eqn:En; [done|]. cbn in E. split; [done|].
  apply sr_bind_inv in E as (s2 & [] & E2 & E). apply sr_bind_inv in E as (s3 & [] & E3 & [= <- <-]). split; [done|].
  eapply (incarnation_written s1 w M N (m_columns M)); [by destruct M|done|done|by apply fresh_without|by unfold next_of; rewrite En|done..].
Qed.

Lemma create_table_taken s w N id pid did name sch x : models s w N -> length pid = 16%nat -> length did = 16%nat ->
  ns_tables N !! (pid, did, name) = Some x -> exists s', create_table id pid did name sch s = (s', Err (already_exists KTable name)) /\ models s' w N.
Proof using RSok.
  intros H Hp Hd Hx. destruct (get_table_ok s w N pid did name H Hp Hd) as (s1 & E1 & H1). exists s1. split; [|done]. unfold create_table.
  rewrite (sr_bind_ok _ _ _ _ _ E1), Hx. by destruct x.
Qed.

Lemma replace_table_ok s w N id id' tr pid did name sch s' m : models s w N -> length pid = 16%nat -> length did = 16%nat -> length id' = 16%nat ->
  next_of N pid did name id' tr -> (ns_tables N !! (pid, did, name) = None -> id' = id) -> Z.of_nat (length (fields sch)) <= u32_max ->
  Forall (fun '(i, f) => storable (column_meta id' i f)) (imap pair (fields sch)) -> storable (MkTableMeta id' tr name []) ->
  Z.of_nat (length (str name)) + 123 <= u32_max ->
  is_u64 (Z.of_nat (w + length (columns_of N id')) + Z.of_nat (length (fields sch)) + 1) ->
  replace_table id pid did name sch s = (s', Ok m) ->
  m = MkTableMeta id' tr name [] /\ models_from (ns_shapes N) s' (w + length (columns_of N id') + length (fields sch) + 1) (put_incarnation pid did name id' tr sch N).
Proof using RSok.
  intros H Hp Hd Hi Hx Hid Hs Hcols Hm Hname Hw E. destruct (get_table_ok s w N pid did name H Hp Hd) as (s1 & E1 & (M & H1 & Hn & W)). unfold replace_table in E.
  rewrite (sr_bind_ok _ _ _ _ _ E1) in E. apply sr_bind_inv in E as (s2 & [tr0 id0] & E2 & E).
  assert (s2 = s1 /\ tr0 = tr /\ id0 = id' /\ is_u64 tr) as (-> & -> & -> & Htr).
  { unfold next_of in Hx. unfold sr_lift in E2. injection E2 as <- E2. split; [done|].
    destruct (ns_tables N !! (pid, did, name)) as [[i0 l0]|] eqn:En; cbn in E2.
    - destruct (wf_tables _ W _ _ _ _ _ En) as (_ & _ & sc & Es). destruct (wf_shapes _ W _ _ _ Es) as (_ & _ & Hu). destruct Hx as [-> ->].
      unfold TruncationId.next in E2. destruct (Z.eqb_spec l0 u64_max); [done|]. injection E2 as <- <-. repeat split; unfold is_u64 in *; lia.
    - destruct Hx as [_ ->]. injection E2 as <- <-. rewrite Hid by done. done. }
  apply sr_bind_inv in E as (s2 & [] & E3 & E). apply sr_bind_inv in E as (s3 & [] & E4 & E). apply sr_bind_inv in E as (s4 & [] & E5 & [= <- <-]). split; [done|].
  destruct (clear_columns_ok s1 w M N id' s2 H1 Hn W Hi) as (C & H2 & Hc); [unfold is_u64 in *; lia|done|].
  by eapply (incarnation_written s2 _ M N C).
Qed.

Lemma sorted_filter {A} (R : A -> A -> Prop) (P : A -> Prop) `{!forall x, Decision (P x)} (l : list A) : StronglySorted R l -> StronglySorted R (filter P l).
Proof.
  induction 1 as [|x l _ IH Ha]; [constructor|]. rewrite filter_cons. destruct (decide (P x)); [|done]. constructor; [done|].
  rewrite Forall_forall in Ha |- *. intros y [_ Hy]%list_elem_of_filter. by apply Ha.
Qed.

Lemma filter_values {A} (P : A -> Prop) `{!forall x, Decision (P x)} (l : list (list byte * A)) : filter P l.*2 = (filter (fun x => P x.2) l).*2.
Proof. induction l as [|[k x] l IH]; [done|]. change (((k, x) :: l).*2) with (x :: l.*2). rewrite !filter_cons. cbn [snd].
  destruct (decide (P x)); rewrite IH; done. Qed.

Definition incarnation_row pid did name id (tr : Z) : list byte * TableMeta := (table_key pid did name tr, MkTableMeta id tr name []).

Lemma all_incarnations M N pid did name id last l : names M N -> ns_wf N -> length pid = 16%nat -> length did = 16%nat ->
  ns_tables N !! (pid, did, name) = Some (id, last) -> listing (m_tables M) (dataset_scope pid did) l ->
  filter (fun m => tm_name m = name) l.*2 = (fun tr => MkTableMeta id tr name []) <$> seqZ 0 (last + 1).
Proof.
  intros H W Hp Hd Et Hl. pose proof (incarnations_listed M N pid did name l H W Hp Hd Hl) as Hm. destruct Hl as [Hs Hl].
  destruct (wf_tables _ W _ _ _ _ _ Et) as (_ & _ & sc & Es). destruct (wf_shapes _ W _ _ _ Es) as (_ & _ & Hu). unfold is_u64 in Hu.
  rewrite filter_values in *. enough (filter (fun x => tm_name x.2 = name) l = incarnation_row pid did name id <$> seqZ 0 (last + 1)) as ->.
  { rewrite <- list_fmap_compose. done. }
  apply sorted_pairs_unique; [by apply sorted_filter| |].
  - apply sorted_lookup. intros i j x y Hij. rewrite !list_lookup_fmap, !fmap_Some. intros (a & Ha & ->) (b & Hb & ->).
    apply lookup_seqZ in Ha as [-> Ha], Hb as [-> Hb]. cbn. unfold table_key. rewrite !bytes_cmp_prefix. unfold TruncationId.to_be_bytes.
    rewrite bytes_cmp_be by (unfold u64_max in *; cbn; lia). apply Z.compare_lt_iff. lia.
  - intros [k m]. rewrite list_elem_of_filter, Hl, (nm_tables _ _ H), list_elem_of_fmap. setoid_rewrite elem_of_seqZ. cbn. split.
    + intros (Hn & [u Hk] & p & d & n & i & la & t & E & Ht & Hk' & ->). cbn in Hn. subst n. destruct (wf_tables _ W _ _ _ _ _ E) as (Hp' & Hd' & _).
      rewrite Hk' in Hk. unfold table_key in Hk. apply scope_inj in Hk as (-> & -> & _); [|done..]. rewrite Et in E. injection E as <- <-.
      exists t. unfold incarnation_row. rewrite Hk'. split; [done|lia].
    + intros (t & [= -> ->] & Ht). split; [done|]. split; [by eexists|]. exists pid, did, name, id, last, t. split; [done|]. split; [lia|done].
Qed.

Definition del_table pid did name N : namespace := MkNs (ns_projects N) (ns_datasets N) (delete (pid, did, name) (ns_tables N)) (ns_shapes N).

Definition cut_tables (ks : list (list byte)) (T : gmap (list byte) TableMeta) : gmap (list byte) TableMeta := foldl (fun T k => delete k T) T ks.

Lemma cut_tables_lookup ks T k m : cut_tables ks T !! k = Some m <-> (k ∉ ks) /\ T !! k = Some m.
Proof.
  unfold cut_tables. revert T. induction ks as [|k' ks IH]; intros T; cbn; [split; [intros H; split; [by apply not_elem_of_nil|done]|by intros [_ ?]]|].
  rewrite IH, lookup_delete_Some, not_elem_of_cons. split; [intros (H1 & H2 & H3)|intros ((H2 & H1) & H3)]; repeat split; congruence.
Qed.

Lemma drop_loop pid did name (l : list TableMeta) : forall s w M U s', stored s w M U -> length pid = 16%nat -> length did = 16%nat ->
  Z.of_nat (length (str name)) + 123 <= u32_max -> is_u64 (Z.of_nat w + Z.of_nat (length l)) ->
  sr_for l (fun meta => remove_meta tables_meta_table (table_key pid did name (tm_truncation_id meta))) s = (s', Ok tt) ->
  stored s' (w + length l) (set_tables (cut_tables ((fun m => table_key pid did name (tm_truncation_id m)) <$> l) (m_tables M)) M) U.
Proof using RSok.
  induction l as [|c l IH]; intros s w M U s' H Hp Hd Hn Hw E; cbn [sr_for] in E.
  - injection E as <-. cbn. rewrite Nat.add_0_r. by destruct M.
  - apply sr_bind_inv in E as (s1 & [] & E1 & E). cbn [length] in *. apply (remove_table s w M U) in E1; [|done|].
    + apply (IH _ _ _ _ _ E1 Hp Hd Hn) in E; [|unfold is_u64 in *; lia]. by rewrite <- Nat.add_assoc in E.
    + split; [|unfold is_u64 in *; lia]. unfold table_key, dataset_scope, TruncationId.to_be_bytes. rewrite !length_app, length_be_bytes, Hp, Hd. unfold u32_max in *. lia.
Qed.

Lemma drop_table_ok s w N pid did name id last s' : models s w N -> length pid = 16%nat -> length did = 16%nat ->
  ns_tables N !! (pid, did, name) = Some (id, last) -> Z.of_nat (length (str name)) + 123 <= u32_max -> is_u64 (Z.of_nat w + last + 1) ->
  drop_table pid did name s = (s', Ok tt) -> models s' (w + Z.to_nat (last + 1)) (del_table pid did name N).
Proof using RSok.
  intros (M & H & Hn & W) Hp Hd Et Hname Hw E. destruct (wf_tables _ W _ _ _ _ _ Et) as (_ & _ & sc & Es). destruct (wf_shapes _ W _ _ _ Es) as (_ & _ & Hu).
  destruct (read_tables s w M _ (dataset_scope pid did) H) as (s1 & l & E1 & H1 & Hl). unfold drop_table, table_incarnations in E.
  rewrite (sr_bind_ok _ _ _ _ _ (sr_bind_ok _ _ _ _ _ E1)) in E. rewrite (all_incarnations M N pid did name id last l) in E by done. clear l E1 Hl.
  set (l := (fun tr => MkTableMeta id tr name []) <$> seqZ 0 (last + 1)) in E.
  assert (length l = Z.to_nat (last + 1)) as Hlen by (unfold l; by rewrite length_fmap, length_seqZ).
  unfold mret, sr_ret in E. destruct l as [|m0 l0] eqn:El; [done|]. rewrite <- El in *. clear m0 l0 El. unfold is_u64 in Hu.
  apply (drop_loop pid did name l _ _ _ _ _ H1 Hp Hd Hname) in E; [|rewrite Hlen; unfold is_u64 in *; lia]. rewrite Hlen in E.
  eexists. split; [exact E|]. split; [split; [apply Hn|apply Hn| |apply Hn]|split; [apply W|apply W| | |apply W]]; cbn.
  - intros k m. rewrite cut_tables_lookup, (nm_tables _ _ Hn). unfold l. rewrite <- list_fmap_compose, list_elem_of_fmap. setoid_rewrite elem_of_seqZ. cbn.
    setoid_rewrite lookup_delete_Some. split.
    + intros [Hk (p & d & n & i & la & t & E' & Ht & -> & ->)]. exists p, d, n, i, la, t. split; [split; [|done]|done]. intros [= <- <- <-].
      rewrite Et in E'. injection E' as <- <-. apply Hk. exists t. split; [done|lia].
    + intros (p & d & n & i & la & t & [Hne E'] & Ht & -> & ->). split; [|by exists p, d, n, i, la, t]. intros (t' & Hk & Ht').
      destruct (wf_tables _ W _ _ _ _ _ E') as (Hp' & Hd' & sc' & Es'). destruct (wf_shapes _ W _ _ _ Es') as (_ & _ & Hu').
      unfold table_key in Hk. apply scope_inj in Hk as (-> & -> & Hk); [|done..]. apply name_trunc_inj in Hk as [-> _]; [done|unfold is_u64 in *; lia..].
  - intros p d n i la [_ E']%lookup_delete_Some. by apply (wf_tables _ W) in E'.
  - intros x y i lx ly [_ Ex]%lookup_delete_Some [_ Ey]%lookup_delete_Some. by eapply (wf_ids _ W).
Qed.

Lemma drop_table_missing s w N pid did name : models s w N -> length pid = 16%nat -> length did = 16%nat -> ns_tables N !! (pid, did, name) = None ->
  exists s', drop_table pid did name s = (s', Err (not_found KTable name)) /\ models s' w N.
Proof using RSok.
  intros (M & H & Hn & W) Hp Hd Et. destruct (read_tables s w M _ (dataset_scope pid did) H) as (s1 & l & E1 & H1 & Hl). exists s1. split; [|by exists M].
  unfold drop_table, table_incarnations. rewrite (sr_bind_ok _ _ _ _ _ (sr_bind_ok _ _ _ _ _ E1)).
  destruct (filter _ l.*2) as [|m l'] eqn:El; [done|]. exfalso. assert (m ∈ filter (fun m => tm_name m = name) l.*2) as Hin by (rewrite El; by left).
  apply (incarnations_listed M N pid did name l Hn W Hp Hd Hl) in Hin as (? & ? & ? & ? & _). congruence.
Qed.
End catalog.
