(* ===== verification/CatalogRuns.v ===== *)
(** * Runs of the catalog

    Any sequence of catalog operations and row writes from an empty store keeps
    the store a namespace: names resolve to what was created last, a replaced
    table starts empty under its old id, and what lies between the two writes of
    a replacement. *)

From Stdlib Require Import Strings.Byte Strings.String ZArith Lia Sorted.
From stdpp Require Import prelude list gmap strings.
From S2P Require Import Prelude LsmKey Journal SstHeader Memtable Journaled Lsm LsmDurable Page Engine EngineRest Value ValueCodec Compare KeyCodec RustText RowTable RowTableOk RowStore SystemCatalog Catalog CatalogOk.
Local Open Scope Z_scope.

Section runs.
Context {DEC : RustDecimal} {JS : SerdeJson} {S : Type} {RS : RowStore S} {RSok : RowStoreOk S}.
Context {SP : Serde ProjectMeta} {SD : Serde DatasetMeta} {ST : Serde TableMeta} {SC : Serde ColumnMeta}.
Implicit Types (N : namespace) (s : S) (w : nat).

Definition ns_empty : namespace := MkNs ∅ ∅ ∅ ∅.

(** The table a three-part name denotes, or the first missing segment. *)
Definition spec_resolve N (project dataset table : string) : res QueryError Table :=
  match ns_projects N !! project with
  | None => Err (not_found KProject project)
  | Some pid =>
      match ns_datasets N !! (pid, dataset) with
      | None => Err (not_found KDataset dataset)
      | Some did =>
          match ns_tables N !! (pid, did, table) with
          | None => Err (not_found KTable table)
          | Some (id, last) => Ok (Table_new pid did id last table (MkSchema (columns_of N id)))
          end
      end
  end.

Lemma resolve_ok s w N p d t : models s w N -> exists s', resolve_table p d t s = (s', spec_resolve N p d t) /\ models s' w N.
Proof using RSok.
  intros H. unfold resolve_table, spec_resolve. destruct (get_project_ok s w N p H) as (s1 & E1 & H1). pose proof H1 as (_ & _ & _ & W).
  rewrite (sr_bind_ok _ _ _ _ _ E1). destruct (ns_projects N !! p) as [pid|] eqn:Ep; [|by exists s1]. destruct (wf_projects _ W _ _ Ep) as [Hp _].
  cbn [fmap option_fmap option_map found]. rewrite (sr_bind_ok _ _ s1 s1 (MkProjectMeta pid p) eq_refl). cbn [pm_id].
  destruct (get_dataset_ok s1 w N pid d H1 Hp) as (s2 & E2 & H2). rewrite (sr_bind_ok _ _ _ _ _ E2).
  destruct (ns_datasets N !! (pid, d)) as [did|] eqn:Ed; [|by exists s2]. destruct (wf_datasets _ W _ _ _ Ed) as [_ Hd].
  cbn [fmap option_fmap option_map found]. rewrite (sr_bind_ok _ _ s2 s2 (MkDatasetMeta did d) eq_refl). cbn [dm_id].
  destruct (get_table_ok s2 w N pid did t H2 Hp Hd) as (s3 & E3 & H3). rewrite (sr_bind_ok _ _ _ _ _ E3).
  destruct (ns_tables N !! (pid, did, t)) as [[id last]|] eqn:Et; [|by exists s3]. destruct (wf_tables _ W _ _ _ _ _ Et) as (_ & _ & sch & Es).
  destruct (wf_shapes _ W _ _ _ Es) as (Hi & _). cbn [fmap option_fmap option_map found].
  rewrite (sr_bind_ok _ _ s3 s3 (MkTableMeta id last t []) eq_refl). cbn [tm_id tm_indexes tm_truncation_id tm_name].
  destruct (assemble_schema_ok s3 w N id H3 Hi) as (s4 & E4 & H4). rewrite (sr_bind_ok _ _ _ _ _ E4). by exists s4.
Qed.

(** ** Rows of user tables *)

(** A table of the namespace, or an older incarnation of one. *)
Definition user_table N (t : Table) : Prop :=
  table_wf t /\ t_project t <> SYSTEM_PROJECT_ID /\ exists sch last, ns_shapes N !! t_id t = Some (sch, last) /\ t_trunc t <= last.

Lemma user_op s s' ops w N (op : table_op) M : rs_holds s' (ops ++ [op]) -> user_table N (op_table op) -> length ops = w ->
  Forall (known_op (ns_shapes N)) ops -> rows_are ops projects_meta_table (m_projects M) -> rows_are ops datasets_meta_table (m_datasets M) ->
  rows_are ops tables_meta_table (m_tables M) -> rows_are ops columns_meta_table (m_columns M) -> stored s' (w + 1) M (ns_shapes N).
Proof.
  intros Hh (Ht & Hsys & Hk) <- HF HP HD HT HC. exists (ops ++ [op]). split; [done|]. split; [by rewrite length_app|].
  split; [apply Forall_app; split; [done|]; constructor; [by right|constructor]|].
  assert (forall id name, incarnation (op_table op) <> incarnation (system_table id name)) as Hne.
  { intros id name E. apply Hsys. exact (f_equal (fun x => x.1.1.1) E). }
  split; [|split; [|split]]; (apply rows_are_other; [assumption|apply Hne]).
Qed.

Lemma user_put s w N t row s' : models s w N -> user_table N t -> row_fits t row -> Z.of_nat (length (op_change (TPut t row)).1) + 27 <= u32_max ->
  is_u64 (Z.of_nat w + 1) -> rs_put t row s = (s', Ok tt) -> models s' (w + 1) N.
Proof using RSok.
  intros (M & (ops & Hh & Hl & HF & HP & HD & HT & HC) & Hn & W) Hu Hf Hk Hw E. exists M. split; [|done].
  apply (user_op s s' ops w N (TPut t row) M); try done. eapply rs_put_ok; [done|apply Hu|done| |done]. by rewrite <- Hl in Hw.
Qed.

Lemma user_delete s w N t key s' : models s w N -> user_table N t -> Z.of_nat (length (op_change (TDelete t key)).1) + 27 <= u32_max ->
  is_u64 (Z.of_nat w + 1) -> rs_delete t key s = (s', Ok tt) -> models s' (w + 1) N.
Proof using RSok.
  intros (M & (ops & Hh & Hl & HF & HP & HD & HT & HC) & Hn & W) Hu Hk Hw E. exists M. split; [|done].
  apply (user_op s s' ops w N (TDelete t key) M); try done. eapply rs_delete_ok; [done|apply Hu| |done]. by rewrite <- Hl in Hw.
Qed.

(** An incarnation above every one written to is empty. *)
Lemma unwritten_empty U s w N t key k : models_from U s w N -> table_wf t -> t_project t <> SYSTEM_PROJECT_ID ->
  (forall sch last, U !! t_id t = Some (sch, last) -> last < t_trunc t) -> encode_key key = Ok k ->
  exists s', rs_get t key s = (s', Ok None).
Proof using RSok.
  intros (M & (ops & Hh & Hl & HF & _) & _) Ht Hsys Hlast Hk.
  assert (forall op, op ∈ ops -> incarnation (op_table op) <> incarnation t) as Hne.
  { intros op Hop E. rewrite Forall_forall in HF. unfold incarnation in E. injection E as E1 E2 E3 E4. destruct (HF op Hop) as [Hs|(sch & last & Eu & Hle)]; [congruence|].
    rewrite E3 in Eu. specialize (Hlast _ _ Eu). lia. }
  destruct (rs_get_ok s ops t key k Hh Ht) as (s' & E & _); [|done|].
  { intros op Hop E. by destruct (Hne op Hop). }
  exists s'. rewrite E. do 2 f_equal. unfold row_at. destruct (List.find _ _) as [op|] eqn:Ef; [|done]. exfalso.
  apply List.find_some in Ef as [Hin Ha]. apply list_elem_of_In in Hin. rewrite elem_of_reverse in Hin. unfold addresses in Ha. apply andb_true_iff in Ha as [Ha%bool_decide_eq_true_1 _].
  exact (Hne op Hin Ha).
Qed.

(** ** Listings and the default namespace *)

Lemma live_step_spec (metas : list TableMeta) name : match fold_left live_step metas ∅ !! name with
  | Some m => m ∈ metas /\ tm_name m = name /\ forall m', m' ∈ metas -> tm_name m' = name -> tm_truncation_id m' <= tm_truncation_id m
  | None => forall m', m' ∈ metas -> tm_name m' <> name
  end.
Proof.
  induction metas as [|x l IH] using rev_ind; [cbn; rewrite lookup_empty; by intros m' ?%not_elem_of_nil|]. rewrite fold_left_app. cbn. unfold live_step at 1.
  set (F := fold_left live_step l ∅) in *. assert (forall m', m' ∈ l ++ [x] <-> m' ∈ l \/ m' = x) as Hel by (intros m'; by rewrite elem_of_app, list_elem_of_singleton).
  destruct (decide (tm_name x = name)) as [<-|Hne].
  - destruct (F !! tm_name x) as [e|] eqn:Ee.
    + destruct IH as (Hin & Hn & Hmax). destruct (Z.ltb_spec (tm_truncation_id e) (tm_truncation_id x)).
      * rewrite lookup_insert_eq. setoid_rewrite Hel. split; [by right|]. split; [done|]. intros m' [Hm| ->] Hm'; [specialize (Hmax m' Hm Hm'); lia|lia].
      * rewrite Ee. setoid_rewrite Hel. split; [by left|]. split; [done|]. intros m' [Hm| ->] Hm'; [by apply Hmax|lia].
    + rewrite lookup_insert_eq. setoid_rewrite Hel. split; [by right|]. split; [done|]. intros m' [Hm| ->] Hm'; [by destruct (IH m' Hm)|lia].
  - assert ((match F !! tm_name x with Some e => if tm_truncation_id e <? tm_truncation_id x then <[tm_name x := x]> F else F
             | None => <[tm_name x := x]> F end) !! name = F !! name) as ->.
    { destruct (F !! tm_name x) as [e|]; [destruct (_ <? _)|]; rewrite ?lookup_insert_ne by done; done. }
    destruct (F !! name) as [m|].
    + destruct IH as (Hin & Hn & Hmax). setoid_rewrite Hel. split; [by left|]. split; [done|]. intros m' [Hm| ->] Hm'; [by apply Hmax|done].
    + intros m' [Hm| ->]%Hel; [by apply IH|done].
Qed.

(** [list_tables]: one row per live table, at its newest incarnation. *)
Lemma list_tables_ok s w N pid did : models s w N -> length pid = 16%nat -> length did = 16%nat ->
  exists s' l, list_tables pid did s = (s', Ok l) /\ models s' w N /\ NoDup l
    /\ forall m, m ∈ l <-> exists name id last, ns_tables N !! (pid, did, name) = Some (id, last) /\ m = MkTableMeta id last name [].
Proof using RSok.
  intros (M & H & Hn & W) Hp Hd. destruct (read_tables s w M _ (dataset_scope pid did) H) as (s1 & l & E1 & H1 & Hl). exists s1, (live_incarnations l.*2).
  unfold list_tables. rewrite (sr_bind_ok _ _ _ _ _ E1). split; [done|]. split; [by exists M|].
  assert (forall name m, fold_left live_step l.*2 ∅ !! name = Some m <->
            exists id last, ns_tables N !! (pid, did, name) = Some (id, last) /\ m = MkTableMeta id last name []) as Hlive.
  { intros name m. pose proof (live_step_spec l.*2 name) as Hs. pose proof (incarnations_listed M N pid did name l Hn W Hp Hd Hl) as Hi.
    assert (forall m, m ∈ l.*2 /\ tm_name m = name <-> exists id last tr, ns_tables N !! (pid, did, name) = Some (id, last) /\ 0 <= tr <= last
              /\ m = MkTableMeta id tr name []) as Hi' by (intros m'; rewrite <- Hi, list_elem_of_filter; tauto). clear Hi.
    assert (forall id last, ns_tables N !! (pid, did, name) = Some (id, last) -> 0 <= last) as Hpos.
    { intros id last E. destruct (wf_tables _ W _ _ _ _ _ E) as (_ & _ & sc & Es). apply (wf_shapes _ W) in Es as (_ & _ & Hu). unfold is_u64 in Hu. lia. }
    destruct (fold_left live_step l.*2 ∅ !! name) as [m0|].
    - destruct Hs as (Hin & Hnm & Hmax). destruct (proj1 (Hi' m0) (conj Hin Hnm)) as (id & last & tr & E & Htr & ->). specialize (Hpos _ _ E).
      destruct (proj2 (Hi' (MkTableMeta id last name []))) as [Hin' Hnm']; [exists id, last, last; split; [done|]; split; [lia|done]|].
      specialize (Hmax _ Hin' Hnm'). cbn in Hmax. assert (tr = last) as -> by lia. split; [intros [= <-]; by exists id, last|].
      intros (id' & last' & E' & ->). rewrite E in E'. by injection E' as <- <-.
    - split; [done|]. intros (id & last & E & ->). specialize (Hpos _ _ E).
      destruct (proj2 (Hi' (MkTableMeta id last name []))) as [Hin' Hnm']; [exists id, last, last; split; [done|]; split; [lia|done]|]. by destruct (Hs _ Hin'). }
  unfold live_incarnations. split.
  - apply (NoDup_fmap_2_strong (snd : string * TableMeta -> TableMeta)); [|apply NoDup_map_to_list].
    intros [n1 m1] [n2 m2] (i1 & l1 & _ & ->)%elem_of_map_to_list%Hlive (i2 & l2 & _ & ->)%elem_of_map_to_list%Hlive [= -> -> ->]. done.
  - intros m. rewrite list_elem_of_fmap. split.
    + intros ([name m'] & -> & (id & last & E & Em)%elem_of_map_to_list%Hlive). by exists name, id, last.
    + intros (name & id & last & E & ->). exists (name, MkTableMeta id last name []). split; [done|]. apply elem_of_map_to_list, Hlive. by exists id, last.
Qed.

(** What opening a database adds. *)
Definition seed_default (pid did : list byte) N : namespace :=
  let '(p, N1) := match ns_projects N !! DEFAULT_PROJECT_NAME with Some p => (p, N) | None => (pid, add_project DEFAULT_PROJECT_NAME pid N) end in
  match ns_datasets N1 !! (p, DEFAULT_DATASET_NAME) with Some _ => N1 | None => add_dataset p DEFAULT_DATASET_NAME did N1 end.

(** The default project and dataset exist after an open, and those that existed
    are kept as they were. *)
Lemma default_namespace_ok s w N pid did s' : models s w N -> length pid = 16%nat -> length did = 16%nat -> pid <> SYSTEM_PROJECT_ID ->
  storable (MkProjectMeta pid DEFAULT_PROJECT_NAME) -> storable (MkDatasetMeta did DEFAULT_DATASET_NAME) -> is_u64 (Z.of_nat w + 2) ->
  ensure_default_namespace pid did s = (s', Ok tt) -> exists w', models s' w' (seed_default pid did N).
Proof using RSok.
  intros H Hp Hd Hsys Sp Sd Hw E. unfold ensure_default_namespace in E. destruct (get_project_ok s w N DEFAULT_PROJECT_NAME H) as (s1 & E1 & H1).
  rewrite (sr_bind_ok _ _ _ _ _ E1) in E. apply sr_bind_inv in E as (s2 & pm & E2 & E).
  assert (exists p N1 w1, pm = MkProjectMeta p DEFAULT_PROJECT_NAME /\ length p = 16%nat /\ models s2 w1 N1 /\ (w1 <= w + 1)%nat
            /\ match ns_projects N !! DEFAULT_PROJECT_NAME with Some p => (p, N) | None => (pid, add_project DEFAULT_PROJECT_NAME pid N) end = (p, N1))
    as (p & N1 & w1 & -> & Hpl & H2 & Hw1 & Es).
  { destruct (ns_projects N !! DEFAULT_PROJECT_NAME) as [p|] eqn:Ep; cbn in E2.
    - injection E2 as <- <-. exists p, N, w. pose proof H1 as (_ & _ & _ & W). apply (wf_projects _ W) in Ep as [Hl _]. repeat split; (done || lia).
    - exists pid, (add_project DEFAULT_PROJECT_NAME pid N), (w + 1)%nat.
      destruct (create_project_ok s1 w N pid DEFAULT_PROJECT_NAME s2 pm H1 Hp Hsys Sp) as (_ & -> & H2); [|done|repeat split; (done || lia)].
      split; [by vm_compute|]. unfold is_u64 in *. lia. }
  unfold seed_default. rewrite Es. cbn [pm_id] in E. destruct (get_dataset_ok s2 w1 N1 p DEFAULT_DATASET_NAME H2 Hpl) as (s3 & E3 & H3).
  rewrite (sr_bind_ok _ _ _ _ _ E3) in E. destruct (ns_datasets N1 !! (p, DEFAULT_DATASET_NAME)) as [d|] eqn:Edd; cbn in E.
  - injection E as <-. by exists w1.
  - apply sr_bind_inv in E as (s4 & dm & E4 & [= <-]). exists (w1 + 1)%nat. eapply create_dataset_ok; [exact H3|done|done|exact Sd| |exact E4].
    split; [|unfold is_u64 in *; lia]. unfold dataset_key. rewrite length_app, Hpl. by vm_compute.
Qed.

(** ** Runs *)

(** What [CREATE TABLE] asks of the sizes, the conversions and the counters. *)
Record creatable w N (pid did : list byte) (name : string) (id : list byte) (tr : Z) (sch : Schema) : Prop := {
  cr_project : length pid = 16%nat;
  cr_dataset : length did = 16%nat;
  cr_id : length id = 16%nat;
  cr_columns : Z.of_nat (length (fields sch)) <= u32_max;
  cr_column_metas : Forall (fun '(i, f) => storable (column_meta id i f)) (imap pair (fields sch));
  cr_meta : storable (MkTableMeta id tr name []);
  cr_name : Z.of_nat (length (str name)) + 123 <= u32_max;
  cr_writes : is_u64 (Z.of_nat (w + length (columns_of N id)) + Z.of_nat (length (fields sch)) + 1);
}.

Inductive crun : S -> nat -> namespace -> Prop :=
| c_new s : rs_holds s [] -> crun s 0 ns_empty
| c_create_project s w N id name s' m :
    crun s w N -> length id = 16%nat -> id <> SYSTEM_PROJECT_ID -> storable (MkProjectMeta id name) -> fits_write (str name) w ->
    create_project id name s = (s', Ok m) -> crun s' (w + 1) (add_project name id N)
| c_drop_project s w N name s' :
    crun s w N -> fits_write (str name) w -> drop_project name s = (s', Ok tt) -> crun s' (w + 1) (del_project name N)
| c_create_dataset s w N id pid name s' m :
    crun s w N -> length id = 16%nat -> length pid = 16%nat -> storable (MkDatasetMeta id name) -> fits_write (dataset_key pid name) w ->
    create_dataset id pid name s = (s', Ok m) -> crun s' (w + 1) (add_dataset pid name id N)
| c_drop_dataset s w N pid name s' :
    crun s w N -> length pid = 16%nat -> fits_write (dataset_key pid name) w ->
    drop_dataset pid name s = (s', Ok tt) -> crun s' (w + 1) (del_dataset pid name N)
| c_create_table s w N id pid did name sch s' m :
    crun s w N -> creatable w N pid did name id 0 sch -> ns_shapes N !! id = None ->
    create_table id pid did name sch s = (s', Ok m) -> crun s' (w + length (fields sch) + 1) (put_incarnation pid did name id 0 sch N)
| c_replace_table s w N id id' tr pid did name sch s' m :
    crun s w N -> creatable w N pid did name id' tr sch -> next_of N pid did name id' tr -> (ns_tables N !! (pid, did, name) = None -> id' = id) ->
    replace_table id pid did name sch s = (s', Ok m) ->
    crun s' (w + length (columns_of N id') + length (fields sch) + 1) (put_incarnation pid did name id' tr sch N)
| c_drop_table s w N pid did name id last s' :
    crun s w N -> length pid = 16%nat -> length did = 16%nat -> ns_tables N !! (pid, did, name) = Some (id, last) ->
    Z.of_nat (length (str name)) + 123 <= u32_max -> is_u64 (Z.of_nat w + last + 1) ->
    drop_table pid did name s = (s', Ok tt) -> crun s' (w + Z.to_nat (last + 1)) (del_table pid did name N)
| c_resolve s w N p d t s' r : crun s w N -> resolve_table p d t s = (s', r) -> crun s' w N
| c_put s w N t row s' :
    crun s w N -> user_table N t -> row_fits t row -> Z.of_nat (length (op_change (TPut t row)).1) + 27 <= u32_max -> is_u64 (Z.of_nat w + 1) ->
    rs_put t row s = (s', Ok tt) -> crun s' (w + 1) N
| c_delete s w N t key s' :
    crun s w N -> user_table N t -> Z.of_nat (length (op_change (TDelete t key)).1) + 27 <= u32_max -> is_u64 (Z.of_nat w + 1) ->
    rs_delete t key s = (s', Ok tt) -> crun s' (w + 1) N.

Lemma fresh_columns N id : ns_shapes N !! id = None -> columns_of N id = [].
Proof. intros E. unfold columns_of. by rewrite E. Qed.

(** A table id that is not in use names no table. *)
Lemma fresh_next N pid did name id : ns_wf N -> ns_shapes N !! id = None -> ns_tables N !! (pid, did, name) = None -> next_of N pid did name id 0.
Proof. intros W Hf Hn. unfold next_of. by rewrite Hn. Qed.

Lemma empty_models s : rs_holds s [] -> models s 0 ns_empty.
Proof.
  intros H. exists (MkMetas ∅ ∅ ∅ ∅). split; [|split].
  - exists []. split; [done|]. split; [done|]. split; [constructor|].
    repeat split; try (by intros op ?%not_elem_of_nil); intros k; cbn; rewrite lookup_empty; constructor.
  - split; intros k m; cbn; rewrite lookup_empty; (split; [done|]); intros H'; decompose [ex and] H'; by rewrite lookup_empty in *.
  - split; cbn; intros *; rewrite lookup_empty; done.
Qed.

Lemma crun_models s w N : crun s w N -> models s w N.
Proof using RSok.
  induction 1 as [s H|s w N id name s' m _ IH|s w N name s' _ IH|s w N id pid name s' m _ IH|s w N pid name s' _ IH
    |s w N id pid did name sch s' m _ IH Hc Hf E|s w N id id' tr pid did name sch s' m _ IH Hc Hx Hid E|s w N pid did name id last s' _ IH
    |s w N p d t s' r _ IH E|s w N t row s' _ IH|s w N t key s' _ IH].
  - by apply empty_models.
  - by eapply create_project_ok.
  - by eapply drop_project_ok.
  - by eapply create_dataset_ok.
  - by eapply drop_dataset_ok.
  - destruct Hc as [Hp Hd Hi Hs Hcols Hm Hn Hw]. rewrite (fresh_columns N id Hf), Nat.add_0_r in Hw. pose proof IH as (_ & _ & _ & W).
    destruct (create_table_ok s w N id pid did name sch s' m IH Hp Hd Hi Hf Hs Hcols Hm Hn Hw E) as (Hnone & _ & H'). apply next_models; [done| |done]. by apply fresh_next.
  - destruct Hc as [Hp Hd Hi Hs Hcols Hm Hn Hw]. pose proof IH as (_ & _ & _ & W). apply next_models; [done..|]. by eapply replace_table_ok.
  - by eapply drop_table_ok.
  - destruct (resolve_ok s w N p d t IH) as (s1 & E1 & H1). rewrite E in E1. by injection E1 as -> _.
  - by eapply user_put.
  - by eapply user_delete.
Qed.

(** C11: the catalog is a namespace.  After any run of creations, replacements and
    drops of projects, datasets and tables, of row writes and of resolutions, a
    three-part name resolves to the table last created or replaced under it: its
    ids, its live incarnation and exactly the columns it was given, in order; a
    name whose project, dataset or table is missing gives [NotFound] for the
    first missing segment.  It always answers. *)
Theorem catalog_resolves s w N p d t :
  crun s w N -> exists s', resolve_table p d t s = (s', spec_resolve N p d t) /\ crun s' w N.
Proof using RSok.
  intros R. destruct (resolve_ok s w N p d t (crun_models s w N R)) as (s' & E & _). exists s'. split; [done|]. by eapply c_resolve.
Qed.

(** C12: a replaced table starts empty.  When [CREATE OR REPLACE TABLE] succeeds,
    the name resolves to the same table id (or to the new one, if there was no
    table), at the incarnation after the live one, with exactly the new columns,
    and no key has a row in it: rows written to older incarnations are never
    seen through it. *)
Theorem replace_starts_empty s w N p d id id' tr pid did name sch s' m key k :
  crun s w N -> creatable w N pid did name id' tr sch -> ns_projects N !! p = Some pid -> ns_datasets N !! (pid, d) = Some did ->
  next_of N pid did name id' tr -> (ns_tables N !! (pid, did, name) = None -> id' = id) ->
  replace_table id pid did name sch s = (s', Ok m) -> encode_key key = Ok k ->
  let t := Table_new pid did id' tr name sch in
  (exists s2, resolve_table p d name s' = (s2, Ok t)) /\ (exists s2, rs_get t key s' = (s2, Ok None)).
Proof using RSok.
  intros R [Hp Hd Hi Hs Hcols Hm Hn Hw] Ep Ed Hx Hid E Hk t. pose proof (crun_models s w N R) as H. pose proof H as (M0 & _ & _ & W).
  destruct (replace_table_ok s w N id id' tr pid did name sch s' m H Hp Hd Hi Hx Hid Hs Hcols Hm Hn Hw E) as [_ HF]. split.
  - destruct (resolve_ok s' _ _ p d name (next_models _ _ _ _ _ _ _ _ _ W Hx HF)) as (s2 & E2 & _). exists s2. rewrite E2. unfold spec_resolve, columns_of. cbn.
    rewrite Ep, Ed, !lookup_insert_eq. by destruct sch.
  - destruct HF as (M & HS & Hnm & W'). assert (is_u64 tr) as Htr.
    { apply (wf_shapes _ W' id' sch tr). cbn. apply lookup_insert_eq. }
    apply (unwritten_empty (ns_shapes N) s' (w + length (columns_of N id') + length (fields sch) + 1) (put_incarnation pid did name id' tr sch N) t key k); [by exists M|done|by apply (wf_projects _ W) in Ep as []| |done].
    intros sc last El. cbn in El |- *. unfold next_of in Hx. destruct (ns_tables N !! (pid, did, name)) as [[i0 l0]|] eqn:Et; [|by destruct Hx; congruence].
    destruct Hx as [-> ->]. destruct (wf_tables _ W _ _ _ _ _ Et) as (_ & _ & sc0 & E0). assert (last = l0) by congruence. lia.
Qed.

(** A replacement is not one write.  [replace_table] rewrites the columns
    under the table's id before it writes the row of the new incarnation: if it
    stops in between (a failed write, a crash), the name resolves to the old
    incarnation, whose rows are still there, with the new columns. *)
Theorem replace_half_done s w N p d pid did name id last sch s1 s2 :
  crun s w N -> creatable w N pid did name id last sch -> ns_projects N !! p = Some pid -> ns_datasets N !! (pid, d) = Some did ->
  ns_tables N !! (pid, did, name) = Some (id, last) ->
  clear_columns id s = (s1, Ok tt) -> write_columns id sch s1 = (s2, Ok tt) ->
  exists s3, resolve_table p d name s2 = (s3, Ok (Table_new pid did id last name sch)).
Proof using RSok.
  intros R [Hp Hd Hi Hs Hcols Hm Hn Hw] Ep Ed Et E1 E2. destruct (crun_models s w N R) as (M & H & Hnm & W).
  destruct (wf_tables _ W _ _ _ _ _ Et) as (_ & _ & sc & Es). destruct (wf_shapes _ W _ _ _ Es) as (_ & _ & Hl).
  destruct (clear_columns_ok s w M N id s1 H Hnm W Hi) as (C & H1 & Hc); [unfold is_u64 in *; lia|done|].
  apply (write_columns_ok id _ _ _ _ _ _ H1 Hi Hcols) in E2; [|rewrite length_imap; unfold is_u64 in *; lia]. cbn [m_columns set_columns] in E2.
  set (N' := MkNs (ns_projects N) (ns_datasets N) (ns_tables N) (<[id := (sch, last)]> (ns_shapes N))).
  destruct (resolve_ok s2 (w + length (columns_of N id) + length (imap pair (fields sch))) N' p d name) as (s3 & E3 & _).
  - eexists. split; [eapply stored_mono; [|exact E2]|split].
    + cbn. intros i sc' l E. destruct (decide (id = i)) as [<-|Hne]; [exists sch, last; rewrite lookup_insert_eq; split; [done|]; assert (l = last) by congruence; lia|].
      exists sc', l. rewrite lookup_insert_ne by done. done.
    + split; [apply Hnm..|]. exact (next_columns N pid did name id last sch C W Hc Hi Hs).
    + split; cbn; [apply W..| |apply W|].
      * intros a b n i l E. destruct (wf_tables _ W _ _ _ _ _ E) as (H2 & H3 & sc' & E'). split; [done|]. split; [done|].
        destruct (decide (id = i)) as [<-|Hne]; [|exists sc'; by rewrite lookup_insert_ne]. exists sch. rewrite lookup_insert_eq. by assert (l = last) as -> by congruence.
      * intros i sc' l [[<- [= <- <-]]|[_ E]]%lookup_insert_Some; [done|]. by apply (wf_shapes _ W) in E.
  - exists s3. rewrite E3. unfold spec_resolve, columns_of. cbn. rewrite Ep, Ed, Et, lookup_insert_eq. by destruct sch.
Qed.
End runs.

(** ** On a concrete store *)

Module TextSerde.
Import PlainJson.
(** Field by field, the name last; enough for tables without indexes and for
    columns of two types without defaults. *)
#[global] Instance project_serde : Serde ProjectMeta :=
  {| to_value m := Some (pm_id m ++ str (pm_name m));
     from_value j := Some (MkProjectMeta (list.take 16 j) (string_of_list_byte (drop 16 j))) |}.
#[global] Instance dataset_serde : Serde DatasetMeta :=
  {| to_value m := Some (dm_id m ++ str (dm_name m));
     from_value j := Some (MkDatasetMeta (list.take 16 j) (string_of_list_byte (drop 16 j))) |}.
#[global] Instance table_serde : Serde TableMeta :=
  {| to_value m := Some (tm_id m ++ be_bytes 8 (tm_truncation_id m) ++ str (tm_name m));
     from_value j := Some (MkTableMeta (list.take 16 j) (be_value (slice 16 8 j)) (string_of_list_byte (drop 24 j)) []) |}.
#[global] Instance column_serde : Serde ColumnMeta :=
  {| to_value m := Some (cm_table_id m ++ be_bytes 4 (cm_position m) ++ [byte_of (if bool_decide (cm_ty m = TInt64) then 0 else 1)]
                           ++ [byte_of (if cm_nullable m then 1 else 0)] ++ str (cm_name m));
     from_value j := Some (MkColumnMeta (list.take 16 j) (be_value (slice 16 4 j)) (string_of_list_byte (drop 22 j))
                             (if be_value (slice 20 1 j) =? 0 then TInt64 else TText) (be_value (slice 21 1 j) =? 1) None) |}.
End TextSerde.

Section witnesses.
Import Journal.Ieee SstHeader.TinyBloom Page.Castagnoli PlainDecimal PlainJson TextSerde.
#[local] Instance w_store : RowStore (StorageEngine (M := BTreeMemtable.t)) := engine_rows engine_fine.

(** A new database. *)
Definition c_mem : BTreeMemtable.t := BTreeMemtable.new.
Definition c_engine : StorageEngine (M := BTreeMemtable.t) := match engine_with w_config (2 ^ 40) c_mem empty_dir with Ok e => e | _ => w_engine end.

Lemma c_usable : usable w_config c_mem.
Proof. split; [cbn; lia|]. split; [apply w_usable|done]. Qed.
#[local] Instance w_store_ok : RowStoreOk (StorageEngine (M := BTreeMemtable.t)) := engine_rows_ok w_config c_mem c_usable.

Lemma c_engine_holds : rs_holds c_engine [].
Proof.
  apply (trun_holds w_config c_mem c_usable), (tr_open w_config c_mem (2 ^ 40)).
  assert (E : match engine_with w_config (2 ^ 40) c_mem empty_dir with Ok _ => true | _ => false end = true) by (vm_compute; reflexivity).
  unfold c_engine. by destruct (engine_with w_config (2 ^ 40) c_mem empty_dir).
Qed.

Definition w_schema : Schema := MkSchema [Field_new "id" TInt64; Field_new "name" TText].
Definition w_schema2 : Schema := MkSchema [Field_new "key" TInt64].
Definition w_pid : list byte := w_id x01.
Definition w_did : list byte := w_id x02.
Definition w_tid : list byte := w_id x03.

(** A project, a dataset, a table, a row in it, and the table replaced. *)
Definition w_c1 := create_project w_pid "p" c_engine.
Definition w_c2 := create_dataset w_did w_pid "d" w_c1.1.
Definition w_c3 := create_table w_tid w_pid w_did "t" w_schema w_c2.1.
Definition w_c4 := rs_put (Table_new w_pid w_did w_tid 0 "t" w_schema) w_row w_c3.1.
Definition w_c5 := replace_table w_tid w_pid w_did "t" w_schema2 w_c4.1.
Definition w_c6 := clear_columns w_tid w_c4.1.
Definition w_c7 := write_columns w_tid w_schema2 w_c6.1.

Strategy expand [w_c1 w_c2 w_c3 w_c4 w_c5 w_c6 w_c7].

Definition succeeds {S E A} (r : S * res E A) : bool := match r.2 with Ok _ => true | _ => false end.

Lemma succeeds_ok {S E A} (r : S * res E A) : succeeds r = true -> exists a, r = (r.1, Ok a).
Proof. destruct r as [s [a|x|]]; [|done..]. intros _. by exists a. Qed.

Lemma w_succeed : succeeds w_c1 = true /\ succeeds w_c2 = true /\ succeeds w_c3 = true /\ succeeds w_c4 = true /\ succeeds w_c5 = true
  /\ succeeds w_c6 = true /\ succeeds w_c7 = true.
Proof. repeat split; vm_compute; reflexivity. Qed.

Definition w_ns2 : namespace := add_dataset w_pid "d" w_did (add_project "p" w_pid ns_empty).
Definition w_ns : namespace := put_incarnation w_pid w_did "t" w_tid 0 w_schema w_ns2.

Ltac store := eexists; split; [reflexivity|]; split; [by vm_compute|]; split; [reflexivity|by vm_compute].

Lemma w_creatable w N tr sch : sch = w_schema \/ sch = w_schema2 -> tr = 0 \/ tr = 1 -> (w + length (columns_of N w_tid) <= 100)%nat ->
  creatable w N w_pid w_did "t" w_tid tr sch.
Proof.
  intros Hs Ht Hw. split; [done|done|done|destruct Hs; subst; by vm_compute| |destruct Ht; subst; store|by vm_compute|].
  - destruct Hs; subst; repeat constructor; store.
  - assert (length (fields sch) <= 2)%nat by (destruct Hs; subst; cbn; lia). unfold is_u64, u64_max. lia.
Qed.

Lemma w_fits k w : (length k <= 100)%nat -> (w <= 100)%nat -> fits_write k w.
Proof. intros. unfold fits_write, is_u64, u32_max, u64_max. lia. Qed.

Lemma w_user_row : user_table w_ns (Table_new w_pid w_did w_tid 0 "t" w_schema) /\ row_fits (Table_new w_pid w_did w_tid 0 "t" w_schema) w_row.
Proof.
  split.
  - split; [by repeat split; vm_compute|]. split; [done|]. by exists w_schema, 0.
  - constructor; [right; cbn; unfold is_int; lia|]. constructor; [right; by vm_compute|constructor].
Qed.

Lemma w_row_fits : Z.of_nat (length (op_change (TPut (Table_new w_pid w_did w_tid 0 "t" w_schema) w_row)).1) + 27 <= u32_max.
Proof. by vm_compute. Qed.

Lemma w_names : w_pid <> SYSTEM_PROJECT_ID /\ storable (MkProjectMeta w_pid "p") /\ storable (MkDatasetMeta w_did "d")
  /\ fits_write (str "p") 0 /\ fits_write (dataset_key w_pid "d") 1.
Proof. split; [done|]. split; [store|]. split; [store|]. split; apply w_fits; cbn; lia. Qed.

Lemma w_run : crun w_c4.1 6 w_ns.
Proof.
  destruct w_names as (H1 & H2 & H3 & H4 & H5), w_user_row as [H6 H7]. pose proof w_row_fits as H8.
  pose proof (w_creatable 2 w_ns2 0 w_schema (or_introl eq_refl) (or_introl eq_refl) ltac:(vm_compute; lia)) as H9.
  assert (is_u64 (Z.of_nat 5 + 1)) as H10 by (unfold is_u64, u64_max; lia).
  destruct w_succeed as (S1 & S2 & S3 & S4 & _). apply succeeds_ok in S1 as [m1 S1], S2 as [m2 S2], S3 as [m3 S3], S4 as [[] S4].
  unfold w_c1 at 1 in S1. unfold w_c2 at 1 in S2. unfold w_c3 at 1 in S3. unfold w_c4 at 1 in S4.
  pose proof (c_create_project c_engine 0 ns_empty w_pid "p" _ m1 (c_new _ c_engine_holds) eq_refl H1 H2 H4 S1) as R1.
  pose proof (c_create_dataset _ 1 _ w_did w_pid "d" _ m2 R1 eq_refl eq_refl H3 H5 S2) as R2.
  pose proof (c_create_table _ 2 w_ns2 w_tid w_pid w_did "t" w_schema _ m3 R2 H9 eq_refl S3) as R3.
  exact (c_put _ 5 w_ns _ w_row _ R3 H6 H7 H8 H10 S4).
Qed.

Lemma w_lookups : ns_projects w_ns !! "p"%string = Some w_pid /\ ns_datasets w_ns !! (w_pid, "d"%string) = Some w_did
  /\ ns_tables w_ns !! (w_pid, w_did, "t"%string) = Some (w_tid, 0).
Proof. repeat split; vm_compute; reflexivity. Qed.

Lemma w_next : next_of w_ns w_pid w_did "t" w_tid 1.
Proof. unfold next_of. rewrite (proj2 (proj2 w_lookups)). done. Qed.

Lemma w_replaceable tr : tr = 0 \/ tr = 1 -> creatable 6 w_ns w_pid w_did "t" w_tid tr w_schema2.
Proof. intros Ht. apply w_creatable; [by right|done|vm_compute; lia]. Qed.

Lemma catalog_resolves_witness :
  exists s', resolve_table "p" "d" "t" w_c4.1 = (s', Ok (Table_new w_pid w_did w_tid 0 "t" w_schema)) /\ crun s' 6 w_ns.
Proof. exact (catalog_resolves w_c4.1 6 w_ns "p" "d" "t" w_run). Defined.

Lemma replace_starts_empty_witness :
  (exists s2, resolve_table "p" "d" "t" w_c5.1 = (s2, Ok (Table_new w_pid w_did w_tid 1 "t" w_schema2)))
  /\ (exists s2, rs_get (Table_new w_pid w_did w_tid 1 "t" w_schema2) (VInt64 7) w_c5.1 = (s2, Ok None)).
Proof.
  destruct (succeeds_ok w_c5 (proj1 (proj2 (proj2 (proj2 (proj2 w_succeed)))))) as [m E]. unfold w_c5 at 1 in E.
  exact (replace_starts_empty w_c4.1 6 w_ns "p" "d" w_tid w_tid 1 w_pid w_did "t" w_schema2 w_c5.1 m (VInt64 7) (key_bytes (VInt64 7)) w_run
           (w_replaceable 1 (or_intror eq_refl)) (proj1 w_lookups) (proj1 (proj2 w_lookups)) w_next (fun _ => eq_refl) E eq_refl).
Defined.

Lemma replace_half_done_witness :
  exists s3, resolve_table "p" "d" "t" w_c7.1 = (s3, Ok (Table_new w_pid w_did w_tid 0 "t" w_schema2)).
Proof.
  destruct (succeeds_ok w_c6 (proj1 (proj2 (proj2 (proj2 (proj2 (proj2 w_succeed))))))) as [[] E6].
  destruct (succeeds_ok w_c7 (proj2 (proj2 (proj2 (proj2 (proj2 (proj2 w_succeed))))))) as [[] E7]. unfold w_c6 at 1 in E6. unfold w_c7 at 1 in E7.
  exact (replace_half_done w_c4.1 6 w_ns "p" "d" w_pid w_did "t" w_tid 0 w_schema2 w_c6.1 w_c7.1 w_run
           (w_replaceable 0 (or_introl eq_refl)) (proj1 w_lookups) (proj1 (proj2 w_lookups)) (proj2 (proj2 w_lookups)) E6 E7).
Defined.
End witnesses.
