(* ===== verification/Plan.v ===== *)
(** * Plans

    query/logical_plan.rs, query/physical_plan.rs, query/config.rs,
    planner/lower.rs (logical to physical, join algorithms chosen), and what the
    operators of query/volcano share: the rows of volcano/join/mod.rs and the
    pipelined operators of volcano/scalar.rs.

    A [RowStream] is the list of results its [next] yields, in order; an operator
    that stops early takes a prefix of it. *)

From Stdlib Require Import Strings.Byte Strings.String ZArith Lia.
From stdpp Require Import prelude list strings.
From S2P Require Import Prelude Utf8 Float Value ValueCodec Compare KeyCodec RustText Temporal Expression RowTable SystemCatalog.
Local Open Scope Z_scope.

Section plans.
Context {DEC : RustDecimal} {JS : SerdeJson}.

Record SortKey : Type := MkSortKey { sk_expr : Expr; sk_ascending : bool; sk_nulls_first : bool }.

Inductive JoinType : Type := JInner | JLeft | JRight | JFull.
Inductive JoinStrategy : Type := NestedLoop | BlockNestedLoop | SortMerge | GraceHash.

Inductive LogicalNode : Type :=
| LScan (table : Table)
| LSystemScan (relation : SystemRelation)
| LFilter (input : LogicalNode) (predicate : Expr)
| LProject (input : LogicalNode) (expressions : list Expr)
| LLimit (input : LogicalNode) (count : nat)
| LOffset (input : LogicalNode) (count : nat)
| LJoin (left right : LogicalNode) (on : option Expr) (join_type : JoinType) (left_schema right_schema : Schema)
| LSort (input : LogicalNode) (keys : list SortKey) (input_schema : Schema)
| LValues (rows : list Tuple)
| LInsert (table : Table) (input : LogicalNode)
| LDelete (table : Table) (input : LogicalNode)
| LCreateTable (project_id dataset_id : list byte) (name : string) (schema : Schema) (or_replace : bool)
| LCreateDataset (project_id : list byte) (name : string) (if_not_exists : bool).

Inductive PlanNode : Type :=
| PSeqScan (table : Table)
| PSystemScan (relation : SystemRelation)
| PFilter (input : PlanNode) (predicate : Expr)
| PProject (input : PlanNode) (expressions : list Expr)
| PLimit (input : PlanNode) (count : nat)
| POffset (input : PlanNode) (count : nat)
| PSort (input : PlanNode) (keys : list SortKey) (input_schema : Schema)
| PJoin (left right : PlanNode) (on : option Expr) (join_type : JoinType) (left_schema right_schema : Schema) (strategy : JoinStrategy)
| PValues (rows : list Tuple)
| PInsert (table : Table) (input : PlanNode)
| PDelete (table : Table) (input : PlanNode)
| PCreateTable (project_id dataset_id : list byte) (name : string) (schema : Schema) (or_replace : bool)
| PCreateDataset (project_id : list byte) (name : string) (if_not_exists : bool).

(** ** Lowering *)

Definition equi_join_keys (on : option Expr) (left_arity : nat) : option (nat * nat) :=
  match on with
  | Some (EBinary OpEq (EColumn a) (EColumn b)) =>
      if ((a <? left_arity) && (left_arity <=? b))%nat then Some (a, b - left_arity)%nat
      else if ((b <? left_arity) && (left_arity <=? a))%nat then Some (b, a - left_arity)%nat
      else None
  | _ => None
  end.

Definition sort_on (input : PlanNode) (column : nat) (input_schema : Schema) : PlanNode :=
  PSort input [MkSortKey (EColumn column) true false] input_schema.

Definition lower_join (left_p right_p : PlanNode) (on : option Expr) (join_type : JoinType) (left_schema right_schema : Schema) : PlanNode :=
  let fallback := PJoin left_p right_p on join_type left_schema right_schema BlockNestedLoop in
  match join_type, equi_join_keys on (length (fields left_schema)) with
  | JInner, Some (left_key, right_key) =>
      PJoin (sort_on left_p left_key left_schema) (sort_on right_p right_key right_schema) on join_type left_schema right_schema SortMerge
  | _, _ => fallback
  end.

Fixpoint lower (n : LogicalNode) : PlanNode :=
  match n with
  | LScan t => PSeqScan t
  | LSystemScan r => PSystemScan r
  | LFilter i p => PFilter (lower i) p
  | LProject i es => PProject (lower i) es
  | LLimit i c => PLimit (lower i) c
  | LOffset i c => POffset (lower i) c
  | LSort i ks s => PSort (lower i) ks s
  | LJoin l r on jt ls rs => lower_join (lower l) (lower r) on jt ls rs
  | LValues rows => PValues rows
  | LInsert t i => PInsert t (lower i)
  | LDelete t i => PDelete t (lower i)
  | LCreateTable p d n s o => PCreateTable p d n s o
  | LCreateDataset p n e => PCreateDataset p n e
  end.

(** ** Rows of a join *)

Definition concat_rows (left right : Tuple) : Tuple := MkTuple (values left ++ values right).
Definition pad_right (left : Tuple) (right_width : nat) : Tuple := MkTuple (values left ++ replicate right_width VNull).
Definition pad_left (left_width : nat) (right : Tuple) : Tuple := MkTuple (replicate left_width VNull ++ values right).

Fixpoint output_arity (n : PlanNode) : nat :=
  match n with
  | PSeqScan t => length (fields (t_schema t))
  | PSystemScan r => length (fields (system_schema r))
  | PFilter i _ | PLimit i _ | POffset i _ | PSort i _ _ => output_arity i
  | PProject _ es => length es
  | PValues rows => match rows with t :: _ => length (values t) | [] => O end
  | PJoin l r _ _ _ _ _ => (output_arity l + output_arity r)%nat
  | PInsert _ _ | PDelete _ _ | PCreateTable _ _ _ _ _ | PCreateDataset _ _ _ => O
  end.

Definition equi_keys (on : option Expr) (left_arity : nat) : res QueryError (nat * nat) :=
  match on with
  | Some (EBinary OpEq lhs rhs) =>
      match lhs, rhs with
      | EColumn a, EColumn b =>
          if ((a <? left_arity) && (left_arity <=? b))%nat then Ok (a, b - left_arity)%nat
          else if ((b <? left_arity) && (left_arity <=? a))%nat then Ok (b, a - left_arity)%nat
          else Err (QInternal "equi-join key must reference both sides")
      | _, _ => Err (QInternal "equi-join key must be `column = column`")
      end
  | _ => Err (QInternal "equi-join requires an equi-join predicate")
  end.

Definition keeps_left (jt : JoinType) : bool := match jt with JLeft | JFull => true | _ => false end.
Definition keeps_right (jt : JoinType) : bool := match jt with JRight | JFull => true | _ => false end.
End plans.

(** Join scratch sizing. *)
Record JoinConfig : Type := MkJoinConfig
  { partition_memory : Z; partition_disk : Z; build_budget : Z; hash_partitions : nat }.

Definition from_system_memory (total_bytes : Z) : JoinConfig :=
  MkJoinConfig (4 * 1024 * 1024) (2 ^ 32) (total_bytes / 4 / 4) 32.

Definition default_join_config : JoinConfig := from_system_memory (8 * 1024 * 1024 * 1024).

(** [total_memory] is what [sysinfo] reports. *)
Definition from_system (total_memory : Z) : JoinConfig :=
  if 0 <? total_memory then from_system_memory total_memory else default_join_config.

(** ** Pipelined operators *)

Section scalar.
Context {DEC : RustDecimal} {JS : SerdeJson} {ST : StdText} {CAL : Calendar} {XC : ExprCrates}.

Abbreviation RowResult := (res QueryError Tuple).
Abbreviation RowStream := (list (res QueryError Tuple)).

(** [Filter::next] on each row pulled: a row that is not kept yields nothing. *)
Definition filter_row (predicate : Expr) (row : RowResult) : RowStream :=
  match row with
  | Ok t =>
      match eval predicate t with
      | Ok (VBool true) => [Ok t]
      | Ok _ => []
      | Err e => [Err e]
      | Panic => [Panic]
      end
  | Err e => [Err e]
  | Panic => [Panic]
  end.
Definition filter_stream (input : RowStream) (predicate : Expr) : RowStream := input ≫= filter_row predicate.

Definition project_row (expressions : list Expr) (row : RowResult) : RowResult :=
  t ← row; vs ← collect_res (map (fun e => eval e t) expressions); Ok (MkTuple vs).
Definition project_stream (input : RowStream) (expressions : list Expr) : RowStream := map (project_row expressions) input.

(** An error counts against the limit. *)
Fixpoint limit_stream (input : RowStream) (remaining : nat) : RowStream :=
  match remaining, input with
  | S n, row :: input' => row :: limit_stream input' n
  | _, _ => []
  end.

(** An error hit while skipping is yielded, and not counted. *)
Fixpoint offset_stream (input : RowStream) (remaining : nat) : RowStream :=
  match remaining, input with
  | O, _ => input
  | _, [] => []
  | S n, Ok _ :: input' => offset_stream input' n
  | S n, row :: input' => row :: offset_stream input' (S n)
  end.
End scalar.
