(* ===== verification/Spill.v ===== *)
(** * Spilled rows

    What the pipeline breakers share: rows encoded by a schema, appended to a
    scratch [Workspace] and read back.  [spills] is the outcome of a
    computation whose only failures are a workspace that refuses a tuple, or
    panics, for the reasons its contract ([WorkspaceOk]) names. *)

From Stdlib Require Import Strings.Byte Strings.String ZArith Lia.
From stdpp Require Import prelude list.
From S2P Require Import Prelude BlockStore Page TuplePage Workspace Value ValueCodec Compare SystemCatalog.
Local Open Scope Z_scope.

(** What a computation comes to, with the errors it may return and whether it may panic. *)
Definition outcome (bad : QueryError -> Prop) (halts : Prop) {A} (r : res QueryError A) (P : A -> Prop) : Prop :=
  match r with
  | Ok a => P a
  | Err e => bad e
  | Panic => halts
  end.

Lemma outcome_bind bad halts {A B} (m : res QueryError A) (f : A -> res QueryError B) (P : A -> Prop) (Q : B -> Prop) :
  outcome bad halts m P -> (forall a, P a -> outcome bad halts (f a) Q) -> outcome bad halts (m ≫= f) Q.
Proof. destruct m as [a|e|]; cbn; auto. Qed.

Lemma outcome_impl bad bad' (halts halts' : Prop) {A} (r : res QueryError A) (P Q : A -> Prop) :
  outcome bad halts r P -> (forall e, bad e -> bad' e) -> (halts -> halts') -> (forall a, P a -> Q a) -> outcome bad' halts' r Q.
Proof. destruct r as [a|e|]; cbn; auto. Qed.

Section spill.
Context {W : Type} {WS : Workspace W}.

(** [ws.append(bytes).map_err(|e| QueryError::Internal(..))?]. *)
Definition ws_spill (what : string) (bytes : list byte) (w : W) : res QueryError W :=
  match ws_append bytes w with
  | (w', Ok _) => Ok w'
  | (_, Err _) => Err (QInternal what)
  | (_, Panic) => Panic
  end.

(** [ws.tuples()], drained; the iterator itself cannot fail. *)
Definition ws_read (w : W) : res QueryError (list (list byte)) :=
  map_err (fun _ => QInternal "workspace") (ws_tuples w).2.

Context {WOK : WorkspaceOk W}.

(** A refused append of some workspace in use. *)
Definition refused (e : QueryError) : Prop :=
  exists what w ts t x, e = QInternal what /\ ws_holds (W := W) w ts /\ ws_refusal w t x.

Definition spills {A} (r : res QueryError A) (P : A -> Prop) : Prop := outcome refused (ws_panics (W := W)) r P.

Lemma spills_ok {A} (a : A) (P : A -> Prop) : P a -> spills (Ok a) P.
Proof. done. Qed.

Lemma spills_bind {A B} (m : res QueryError A) (f : A -> res QueryError B) (P : A -> Prop) (Q : B -> Prop) :
  spills m P -> (forall a, P a -> spills (f a) Q) -> spills (m ≫= f) Q.
Proof. apply outcome_bind. Qed.

Lemma spills_impl {A} (r : res QueryError A) (P Q : A -> Prop) : spills r P -> (forall a, P a -> Q a) -> spills r Q.
Proof. intros H HPQ. by eapply outcome_impl. Qed.

Lemma ws_spill_ok what bytes w ts : ws_holds w ts -> spills (ws_spill what bytes w) (fun w' => ws_holds w' (ts ++ [bytes])).
Proof.
  intros H. unfold ws_spill. destruct (ws_append_ok w ts bytes H) as (w' & r & -> & Hr).
  destruct r as [l|e|]; cbn; [done| |done]. destruct Hr as [_ Hr]. by exists what, w, ts, bytes, e.
Qed.

Lemma ws_read_ok w ts : ws_holds w ts -> ws_read w = Ok ts.
Proof. intros H. unfold ws_read. by destruct (ws_tuples_ok w ts H) as (w' & -> & _). Qed.
End spill.
Arguments refused W {WS WOK} e.
Arguments spills W {WS WOK A} r P.

(** ** Rows and their bytes *)

Section rows.
Context {DEC : RustDecimal} {JS : SerdeJson}.

(** The bytes of a row that fits its schema. *)
Definition enc (s : Schema) (t : Tuple) : list byte :=
  match schema_encode (E := QueryError) s t with Ok b => b | _ => [] end.

Context {DECok : RustDecimalOk}.

Lemma enc_ok s t : fits s t -> schema_encode (E := QueryError) s t = Ok (enc s t) /\ schema_decode s (enc s t) = Ok t.
Proof using DECok.
  intros H. unfold enc. destruct (schema_encode_ok (E := QueryError) s t H) as (bm & p & E & Lb & _ & D). rewrite E. split; [done|].
  rewrite <- (app_nil_r p), (schema_decode_cursor s bm p (values t)) by done. by destruct t.
Qed.
End rows.
