(* ===== verification/Sort.v ===== *)
(** * External merge sort

    query/volcano/sort.rs: runs of at most [SORT_RUN_TUPLES] rows, each sorted
    and spilled to a scratch workspace, then merged through a min-heap keyed by
    normalized key bytes and run index.

    A run's cursor is the list of tuples it has still to yield.  The
    [BinaryHeap] is the list of its items from least to greatest: items of
    different runs never compare equal. *)

From Stdlib Require Import Strings.Byte Strings.String ZArith Lia Sorted Permutation.
From stdpp Require Import prelude list.
From S2P Require Import Prelude BlockStore BlockJournal Journal Page TuplePage Workspace Value ValueCodec Compare KeyCodec RustText Temporal Expression SystemCatalog Plan Spill.
Local Open Scope Z_scope.

(** [Vec<u8>] by [Vec<u8>], then by length. *)
Fixpoint key_cmp (a b : list (list byte)) : comparison :=
  match a, b with
  | [], [] => Eq
  | [], _ :: _ => Lt
  | _ :: _, [] => Gt
  | x :: a', y :: b' => match bytes_cmp x y with Eq => key_cmp a' b' | c => c end
  end.

(** [sort_by], which is stable. *)
Section sort_by.
Context {A : Type} (cmp : A -> A -> comparison).

Fixpoint insert_by (x : A) (l : list A) : list A :=
  match l with
  | [] => [x]
  | y :: l' => match cmp x y with Gt => y :: insert_by x l' | _ => x :: l end
  end.
Definition sort_by (l : list A) : list A := foldr insert_by [] l.
End sort_by.

Definition SORT_RUN_TUPLES : nat := Z.to_nat 4096.
Definition SORT_RUN_MEMORY : Z := 8 * 1024 * 1024.
Definition SORT_RUN_DISK : Z := 2 ^ 30.

Section sort.
Context {DEC : RustDecimal} {JS : SerdeJson} {ST : StdText} {CAL : Calendar} {XC : ExprCrates}.

Definition sort_part (key : SortKey) (value : Value) : res QueryError (list byte) :=
  if is_null value then Ok [if sk_nulls_first key then x00 else x01]
  else
    bytes ← map_err (fun _ => QType "cannot ORDER BY this value") (encode_key value);
    Ok ((if sk_nulls_first key then x01 else x00) :: (if sk_ascending key then bytes else byte_not <$> bytes)).

Fixpoint sort_key_bytes (t : Tuple) (keys : list SortKey) : res QueryError (list (list byte)) :=
  match keys with
  | [] => Ok []
  | key :: keys' =>
      value ← eval (sk_expr key) t;
      part ← sort_part key value;
      parts ← sort_key_bytes t keys';
      Ok (part :: parts)
  end.

Record MergeItem : Type := MkMergeItem { mi_key : list (list byte); mi_run : nat; mi_tuple : Tuple }.

Definition merge_cmp (a b : MergeItem) : comparison :=
  match key_cmp (mi_key a) (mi_key b) with Eq => (mi_run a ?= mi_run b)%nat | c => c end.

Context {W : Type} {WS : Workspace W}.
Context (run_tuples : nat) (new_run : res Error W) (keys : list SortKey) (schema : Schema).

(** Spill rows to a run. *)
Fixpoint spill_rows (rows : list Tuple) (run : W) : res QueryError W :=
  match rows with
  | [] => Ok run
  | t :: rows' => bytes ← schema_encode schema t; run ← ws_spill "sort run" bytes run; spill_rows rows' run
  end.

Definition flush_run (batch : list (list (list byte) * Tuple)) : res QueryError W :=
  let sorted := sort_by (fun a b => key_cmp a.1 b.1) batch in
  run ← map_err (fun _ => QInternal "sort spill") new_run;
  spill_rows sorted.*2 run.

Fixpoint generate_runs (input : list (res QueryError Tuple)) (batch : list (list (list byte) * Tuple)) (runs : list W) : res QueryError (list W) :=
  match input with
  | [] => if (length batch =? 0)%nat then Ok runs else run ← flush_run batch; Ok (runs ++ [run])
  | row :: input' =>
      t ← row;
      key ← sort_key_bytes t keys;
      let batch := batch ++ [(key, t)] in
      if (run_tuples <=? length batch)%nat then run ← flush_run batch; generate_runs input' [] (runs ++ [run])
      else generate_runs input' batch runs
  end.

Definition next_item (cursor : list (list byte)) (run_idx : nat) : res QueryError (option MergeItem * list (list byte)) :=
  match cursor with
  | [] => Ok (None, [])
  | bytes :: rest =>
      t ← map_err QDecode (schema_decode schema bytes);
      key ← sort_key_bytes t keys;
      Ok (Some (MkMergeItem key run_idx t), rest)
  end.

Definition push (o : option MergeItem) (heap : list MergeItem) : list MergeItem :=
  match o with Some item => insert_by merge_cmp item heap | None => heap end.

Fixpoint first_items (cursors : list (list (list byte))) (run_idx : nat) (heap : list MergeItem) : res QueryError (list MergeItem * list (list (list byte))) :=
  match cursors with
  | [] => Ok (heap, [])
  | c :: cursors' =>
      '(item, c) ← next_item c run_idx;
      '(heap, cs) ← first_items cursors' (S run_idx) (push item heap);
      Ok (heap, c :: cs)
  end.

(** [while let Some(item) = heap.pop()]; each turn takes one of [fuel] tuples.
    [cursors[run_idx]] past the end panics. *)
Fixpoint merge_runs (fuel : nat) (heap : list MergeItem) (cursors : list (list (list byte))) (out : list Tuple) : res QueryError (list Tuple) :=
  match fuel, heap with
  | S fuel', item :: heap' =>
      match cursors !! mi_run item with
      | None => Panic
      | Some c =>
          '(next, c) ← next_item c (mi_run item);
          merge_runs fuel' (push next heap') (<[mi_run item := c]> cursors) (out ++ [mi_tuple item])
      end
  | _, _ => Ok out
  end.

Definition sort_with (input : list (res QueryError Tuple)) : res QueryError (list (res QueryError Tuple)) :=
  runs ← generate_runs input [] [];
  cursors ← collect_res (map ws_read runs);
  let fuel := length (List.concat cursors) in
  '(heap, cursors) ← first_items cursors 0 [];
  out ← merge_runs fuel heap cursors [];
  Ok (map Ok out).
End sort.

(** [sort]: every run in a scratch file; [limit] is the space its disk has. *)
Definition sort {DEC : RustDecimal} {JS : SerdeJson} {ST : StdText} {CAL : Calendar} {XC : ExprCrates} {CRC : Crc32} {CRCc : Crc32c}
    (limit : Z) (input : list (res QueryError Tuple)) (keys : list SortKey) (input_schema : Schema) : res QueryError (list (res QueryError Tuple)) :=
  sort_with SORT_RUN_TUPLES (FileWorkspace_new limit SORT_RUN_MEMORY SORT_RUN_DISK) keys input_schema input.
