(* ===== verification/SortOk.v ===== *)
(** * The sort is a stable sort

    The output of [sort] is the input, ordered by the normalized keys, rows of
    one key in input order; the keys order as SQL orders the values, NULLs where
    the term places them. *)

From Stdlib Require Import Strings.Byte Strings.String ZArith Lia Sorted Permutation.
From stdpp Require Import prelude list.
From S2P Require Import Prelude BlockStore BlockJournal Journal Page TuplePage Policies PageCache Workspace Value ValueCodec Compare KeyCodec RustText Temporal Expression ExprTyping SystemCatalog Plan Spill Sort.
Local Open Scope Z_scope.

(** ** Orders *)

Lemma key_cmp_eq a b : key_cmp a b = Eq <-> a = b.
Proof.
  revert b. induction a as [|x a IH]; intros [|y b]; cbn; try done. destruct (bytes_cmp x y) eqn:E.
  - apply bytes_cmp_eq in E as ->. rewrite IH. split; congruence.
  - split; [done|]. intros [= -> ->]. by rewrite (cmp_refl bytes_cmp) in E.
  - split; [done|]. intros [= -> ->]. by rewrite (cmp_refl bytes_cmp) in E.
Qed.

(** Comparing by one component, then by another. *)
Definition lex (c d : comparison) : comparison := match c with Eq => d | Lt => Lt | Gt => Gt end.

Lemma lex_trans {A} (cmp : A -> A -> comparison) `{!TotalCmp cmp} x y z d1 d2 d3 c :
  (d1 = c -> d2 = c -> d3 = c) -> lex (cmp x y) d1 = c -> lex (cmp y z) d2 = c -> lex (cmp x z) d3 = c.
Proof.
  intros Hd. destruct (cmp x y) eqn:E1.
  - rewrite (cmp_eq_l cmp _ _ z E1). destruct (cmp y z); cbn; congruence || done.
  - cbn. intros <-. destruct (cmp y z) eqn:E2; cbn; intros E; try done.
    + by rewrite <- (cmp_eq_r cmp _ _ x E2), E1.
    + by rewrite (cmp_trans cmp Lt _ _ _ E1 E2).
  - cbn. intros <-. destruct (cmp y z) eqn:E2; cbn; intros E; try done.
    + by rewrite <- (cmp_eq_r cmp _ _ x E2), E1.
    + by rewrite (cmp_trans cmp Gt _ _ _ E1 E2).
Qed.

#[global] Instance key_cmp_total : TotalCmp key_cmp.
Proof.
  split.
  - intros a. by apply key_cmp_eq.
  - induction x as [|x a IH]; intros [|y b]; cbn; try done. rewrite (cmp_sym bytes_cmp x y). by destruct (bytes_cmp x y); cbn.
  - intros c x. induction x as [|x a IH]; intros [|y b] [|z d]; cbn; try congruence. exact (lex_trans bytes_cmp x y z _ _ _ c (IH b d)).
Qed.

#[global] Instance nat_cmp_total : TotalCmp Nat.compare.
Proof.
  split.
  - apply Nat.compare_refl.
  - intros x y. apply Nat.compare_antisym.
  - intros c x y z. destruct (Nat.compare_spec x y), (Nat.compare_spec y z), (Nat.compare_spec x z); intros; subst; try congruence; lia.
Qed.

(** A comparison by a component. *)
Lemma by_key_total {A B} (f : A -> B) (cmp : B -> B -> comparison) : TotalCmp cmp -> TotalCmp (fun a b => cmp (f a) (f b)).
Proof. intros H. split; [intros x; apply H | intros x y; apply H | intros c x y z; apply H]. Qed.

Section sort_by.
Context {A : Type} (cmp : A -> A -> comparison) `{!TotalCmp cmp}.
Lemma insert_by_perm x l : insert_by cmp x l ≡ₚ x :: l.
Proof. induction l as [|y l IH]; cbn; [done|]. destruct (cmp x y); [done..|]. rewrite IH. apply Permutation_swap. Qed.

Lemma insert_by_sorted x l : StronglySorted (cmp_le cmp) l -> StronglySorted (cmp_le cmp) (insert_by cmp x l).
Proof.
  induction 1 as [|y l Hs IH Hy]; cbn; [repeat constructor|].
  assert (Hle : cmp x y <> Gt -> StronglySorted (cmp_le cmp) (x :: y :: l)).
  { intros Hxy. change (cmp_le cmp x y) in Hxy. constructor; [by constructor|]. constructor; [done|]. eapply Forall_impl; [exact Hy|]. intros z Hz. by transitivity y. }
  destruct (cmp x y) eqn:E; [by apply Hle..|]. constructor; [done|].
  apply Forall_forall. intros z Hz. rewrite insert_by_perm in Hz. apply elem_of_cons in Hz as [->|Hz].
  - unfold cmp_le. rewrite (cmp_sym cmp x y), E. done.
  - rewrite Forall_forall in Hy. by apply Hy.
Qed.

(** Elements that compare equal keep their order. *)
Lemma insert_by_stable (P : A -> Prop) `{!forall a, Decision (P a)} x l :
  (forall y, P x -> P y -> cmp x y <> Gt) -> filter P (insert_by cmp x l) = filter P (x :: l).
Proof.
  intros HP. induction l as [|y l IH]; [done|]. cbn [insert_by]. destruct (cmp x y) eqn:E; [done..|].
  rewrite !filter_cons in *. rewrite IH. destruct (decide (P x)), (decide (P y)); try done. by destruct (HP y).
Qed.

Lemma sort_by_ok l : sort_by cmp l ≡ₚ l /\ StronglySorted (cmp_le cmp) (sort_by cmp l)
  /\ forall (P : A -> Prop) `{!forall a, Decision (P a)}, (forall x y, P x -> P y -> cmp x y <> Gt) -> filter P (sort_by cmp l) = filter P l.
Proof.
  induction l as [|x l (IHp & IHs & IHf)]; cbn [sort_by foldr].
  - split; [done|]. split; [constructor|done].
  - split; [rewrite insert_by_perm; by f_equiv|]. split; [by apply insert_by_sorted|]. intros P HD HP.
    rewrite insert_by_stable by (intros y; apply HP). rewrite !filter_cons. fold (sort_by cmp l). by rewrite IHf.
Qed.
End sort_by.

(** ** Merging sorted runs *)

Lemma elem_of_concat {A} (x : A) (ls : list (list A)) : x ∈ List.concat ls <-> exists l, x ∈ l /\ l ∈ ls.
Proof. rewrite list_elem_of_In, in_concat. split; intros (l & H1 & H2); exists l; split; by apply list_elem_of_In. Qed.

Section merge.
Context {DEC : RustDecimal} {JS : SerdeJson} {ST : StdText} {CAL : Calendar} {XC : ExprCrates} {DECok : RustDecimalOk}.
Context (keys : list SortKey) (schema : Schema) (K : Tuple -> list (list byte)).

(** Rows that can be spilled and keyed. *)
Definition sortable (t : Tuple) : Prop := fits schema t /\ sort_key_bytes t keys = Ok (K t).

Abbreviation row_le := (fun a b : Tuple => cmp_le key_cmp (K a) (K b)).
Abbreviation item := (fun i t => MkMergeItem (K t) i t).

#[local] Instance merge_cmp_total : TotalCmp merge_cmp.
Proof.
  split.
  - intros x. unfold merge_cmp. by rewrite (cmp_refl key_cmp), (cmp_refl Nat.compare).
  - intros x y. unfold merge_cmp. rewrite (cmp_sym key_cmp (mi_key x)). destruct (key_cmp _ _); cbn; try done.
    apply (cmp_sym Nat.compare).
  - intros c x y z. apply (lex_trans key_cmp). apply (cmp_trans Nat.compare).
Qed.

(** The heads of the runs, as the heap holds them. *)
Fixpoint heads (i : nat) (R : list (list Tuple)) : list MergeItem :=
  match R with
  | [] => []
  | r :: R' => match r with t :: _ => item i t :: heads (S i) R' | [] => heads (S i) R' end
  end.

Lemma heads_app i R1 R2 : heads i (R1 ++ R2) = heads i R1 ++ heads (i + length R1) R2.
Proof.
  revert i. induction R1 as [|r R1 IH]; intros i; cbn [app heads length]; [by rewrite Nat.add_0_r|].
  rewrite (IH (S i)), Nat.add_succ_r. by destruct r.
Qed.

Lemma elem_of_heads i R x : x ∈ heads i R -> exists R1 t r R2, R = R1 ++ (t :: r) :: R2 /\ x = item (i + length R1)%nat t.
Proof.
  revert i. induction R as [|r R IH]; intros i; cbn [heads]; [by intros H%elem_of_nil|].
  assert (Hrec : x ∈ heads (S i) R -> exists R1 t r0 R2, r :: R = R1 ++ (t :: r0) :: R2 /\ x = item (i + length R1)%nat t).
  { intros H. destruct (IH (S i) H) as (R1 & t & r0 & R2 & -> & ->). exists (r :: R1), t, r0, R2. split; [done|].
    cbn [length]. by rewrite Nat.add_succ_r. }
  destruct r as [|t r]; [exact Hrec|]. intros [->|H]%elem_of_cons; [|by apply Hrec]. exists [], t, r, R. by rewrite Nat.add_0_r.
Qed.

Lemma heads_nil i R : heads i R = [] -> List.concat R = [].
Proof. revert i. induction R as [|[|t r] R IH]; intros i; cbn; [done|apply IH|done]. Qed.

Lemma next_item_ok i (r : list Tuple) : Forall sortable r ->
  next_item keys schema (map (enc schema) r) i = Ok (item i <$> head r, map (enc schema) (tail r)).
Proof using DECok.
  intros [|t l [Hf Hk] _]; [done|]. cbn [next_item map]. destruct (enc_ok schema t Hf) as [_ ->]. cbn.
  by rewrite Hk.
Qed.

Lemma push_perm o heap : push o heap ≡ₚ option_list o ++ heap.
Proof. destruct o as [x|]; [apply insert_by_perm|done]. Qed.

Lemma push_sorted o heap : StronglySorted (cmp_le merge_cmp) heap -> StronglySorted (cmp_le merge_cmp) (push o heap).
Proof. destruct o as [x|]; [apply insert_by_sorted, _|done]. Qed.

Lemma heads_cons i r R : heads i (r :: R) = option_list (item i <$> head r) ++ heads (S i) R.
Proof. by destruct r. Qed.

Abbreviation cursor := (fun r : list Tuple => map (enc schema) (tail r)).

Lemma first_items_ok R : Forall (Forall sortable) R -> forall i heap, StronglySorted (cmp_le merge_cmp) heap ->
  exists heap', first_items keys schema (map (map (enc schema)) R) i heap = Ok (heap', map cursor R)
    /\ heap' ≡ₚ heap ++ heads i R /\ StronglySorted (cmp_le merge_cmp) heap'.
Proof using DECok.
  induction 1 as [|r R Hr HR IH]; intros i heap Hs.
  - exists heap. cbn. by rewrite app_nil_r.
  - cbn [map first_items]. rewrite (next_item_ok i r Hr), bind_Ok.
    destruct (IH (S i) (push (item i <$> head r) heap) (push_sorted _ _ Hs)) as (heap' & E & Hp & Hs').
    exists heap'. rewrite E. split; [done|]. split; [|done]. rewrite Hp, push_perm, heads_cons.
    rewrite (Permutation_app_comm (option_list _) heap). by rewrite <- app_assoc.
Qed.

Definition merged (R : list (list Tuple)) (m : list Tuple) : Prop :=
  m ≡ₚ List.concat R /\ StronglySorted row_le m
  /\ forall k, filter (fun t => K t = k) m = filter (fun t => K t = k) (List.concat R).

(** The least of the heads is least of all rows, and no earlier run holds its key. *)
Lemma least_head R1 t r R2 :
  Forall (StronglySorted row_le) (R1 ++ (t :: r) :: R2) ->
  (forall x, x ∈ heads 0 (R1 ++ (t :: r) :: R2) -> cmp_le merge_cmp (item (length R1) t) x) ->
  (forall u, u ∈ List.concat (R1 ++ (t :: r) :: R2) -> row_le t u)
  /\ forall u, u ∈ List.concat R1 -> K u <> K t.
Proof.
  intros Hs Hmin. assert (Hrun : forall i h l, item i h ∈ heads 0 (R1 ++ (t :: r) :: R2) -> StronglySorted row_le (h :: l) ->
      forall u, u ∈ h :: l -> row_le t u).
  { intros i h l Hin Hl u Hu. transitivity (K h).
    - specialize (Hmin _ Hin). intros Hgt. apply Hmin. unfold merge_cmp. cbn [mi_key]. by rewrite Hgt.
    - apply elem_of_cons in Hu as [->|Hu]; [done|]. apply StronglySorted_inv in Hl as [_ Hl]. rewrite Forall_forall in Hl. by apply Hl. }
  assert (Hpos : forall A l B, R1 ++ (t :: r) :: R2 = A ++ l :: B -> forall u, u ∈ l -> exists h l', l = h :: l' /\ item (length A) h ∈ heads 0 (R1 ++ (t :: r) :: R2)).
  { intros A l B -> u Hu. destruct l as [|h l']; [by apply elem_of_nil in Hu|]. exists h, l'. split; [done|].
    rewrite heads_app. apply elem_of_app. right. cbn [heads Nat.add]. left. }
  split.
  - intros u (l & Hu & Hl)%elem_of_concat. apply list_elem_of_split in Hl as (A & B & E).
    destruct (Hpos A l B E u Hu) as (h & l' & -> & Hin). apply (Hrun _ h l' Hin); [|done].
    rewrite Forall_forall in Hs. apply Hs. rewrite E. apply elem_of_app. right. left.
  - intros u (l & Hu & Hl)%elem_of_concat Heq. apply list_elem_of_split in Hl as (A & B & E).
    destruct (Hpos A l (B ++ (t :: r) :: R2) ltac:(by rewrite E, <- app_assoc) u Hu) as (h & l' & -> & Hin).
    assert (Hl : StronglySorted row_le (h :: l')).
    { rewrite Forall_forall in Hs. apply Hs. rewrite E, <- app_assoc. apply elem_of_app. right. left. }
    assert (Hth : K t = K h).
    { apply key_cmp_eq. pose proof (Hrun _ h l' Hin Hl h ltac:(left)) as H1. assert (row_le h u) as H2.
      { apply elem_of_cons in Hu as [->|Hu]; [done|]. apply StronglySorted_inv in Hl as [_ Hl]. rewrite Forall_forall in Hl. by apply Hl. }
      cbn beta in H1, H2. rewrite Heq in H2. unfold cmp_le in *. rewrite (cmp_sym key_cmp (K t) (K h)) in H2. by destruct (key_cmp (K t) (K h)). }
    apply (Hmin _ Hin). unfold merge_cmp. cbn [mi_key mi_run]. rewrite Hth, (cmp_refl key_cmp). apply Nat.compare_gt_iff.
    rewrite E, length_app. cbn. lia.
Qed.

Lemma concat_middle {A} (R1 R2 : list (list A)) l : List.concat (R1 ++ l :: R2) = List.concat R1 ++ l ++ List.concat R2.
Proof. by rewrite concat_app. Qed.

Lemma merged_cons R1 t r R2 m :
  (forall u, u ∈ List.concat (R1 ++ (t :: r) :: R2) -> row_le t u) -> (forall u, u ∈ List.concat R1 -> K u <> K t) ->
  merged (R1 ++ r :: R2) m -> merged (R1 ++ (t :: r) :: R2) (t :: m).
Proof.
  intros Hle Hne (Hp & Hs & Hf). rewrite concat_middle in Hp, Hf, Hle. unfold merged. rewrite concat_middle. cbn [app] in *.
  split; [rewrite <- Permutation_middle; by f_equiv|]. split.
  - constructor; [done|]. apply Forall_forall. intros u Hu. apply Hle. rewrite Hp in Hu. rewrite <- Permutation_middle. by right.
  - intros k. rewrite filter_cons, Hf, !filter_app, filter_cons, !filter_app. destruct (decide (K t = k)) as [<-|]; [|done].
    assert (filter (fun u => K u = K t) (List.concat R1) = []) as ->; [|done].
    destruct (filter _ _) as [|u l] eqn:E; [done|]. assert (u ∈ u :: l) as Hu by left. rewrite <- E in Hu.
    apply list_elem_of_filter in Hu as [Hk Hu]. by destruct (Hne u Hu).
Qed.

Lemma merge_runs_ok fuel : forall R heap out,
  Forall (Forall sortable) R -> Forall (StronglySorted row_le) R ->
  heap ≡ₚ heads 0 R -> StronglySorted (cmp_le merge_cmp) heap -> length (List.concat R) = fuel ->
  exists m, merge_runs keys schema fuel heap (map cursor R) out = Ok (out ++ m) /\ merged R m.
Proof using DECok.
  induction fuel as [|fuel IH]; intros R heap out HR HS Hh Hheap Hlen; cbn [merge_runs].
  - exists []. rewrite app_nil_r. split; [done|]. apply nil_length_inv in Hlen. unfold merged. rewrite Hlen. repeat constructor.
  - destruct heap as [|x heap].
    { symmetry in Hh. apply Permutation_nil_r, heads_nil in Hh. by rewrite Hh in Hlen. }
    destruct (elem_of_heads 0 R x) as (R1 & t & r & R2 & -> & ->); [rewrite <- Hh; left|]. cbn [mi_run mi_tuple Nat.add].
    apply StronglySorted_inv in Hheap as [Hheap Hmin].
    rewrite map_app. cbn [map tail]. rewrite list_lookup_middle by (by rewrite length_map).
    apply Forall_app in HR as [HR1 [HRr HR2]%Forall_cons]. apply Forall_cons in HRr as [Ht Hr].
    rewrite (next_item_ok (length R1) r Hr), bind_Ok.
    rewrite insert_app_r_alt, length_map, Nat.sub_diag by (rewrite length_map; lia). cbn [insert list_insert].
    destruct (least_head R1 t r R2 HS) as [Hle Hne].
    { intros y. rewrite <- Hh. intros [->|Hy]%elem_of_cons; [done|]. rewrite Forall_forall in Hmin. by apply Hmin. }
    destruct (IH (R1 ++ r :: R2) (push (item (length R1) <$> head r) heap) (out ++ [t])) as (m & E & Hm).
    { apply Forall_app. auto. }
    { apply Forall_app in HS as [H1 [H2 H3]%Forall_cons]. apply StronglySorted_inv in H2 as [H2 _]. apply Forall_app. auto. }
    { rewrite push_perm, heads_app, heads_cons. cbn [Nat.add]. rewrite heads_app in Hh. cbn [heads Nat.add] in Hh.
      rewrite <- Permutation_middle in Hh. apply Permutation_cons_inv in Hh. rewrite Hh.
      rewrite app_assoc, (Permutation_app_comm (option_list _)), <- app_assoc. done. }
    { by apply push_sorted. }
    { rewrite concat_middle in Hlen |- *. rewrite !length_app in *. cbn [length] in Hlen. lia. }
    rewrite map_app in E. cbn [map] in E. exists (t :: m). rewrite E. split; [by rewrite <- app_assoc|]. by apply merged_cons.
Qed.

(** ** Generating runs *)

(** [r] is [b], sorted and stable. *)
Definition sorted_of (b r : list Tuple) : Prop :=
  r ≡ₚ b /\ StronglySorted row_le r /\ forall k, filter (fun t => K t = k) r = filter (fun t => K t = k) b.

Abbreviation keyed_row := (fun t : Tuple => (K t, t)).

Lemma sort_batch b :
  exists r, sort_by (fun x y => key_cmp x.1 y.1) (map keyed_row b) = map keyed_row r /\ sorted_of b r.
Proof.
  set (c := fun x y : Tuple => key_cmp (K x) (K y)). pose proof (by_key_total K key_cmp _ : TotalCmp c) as Hc.
  assert (E : forall x l, insert_by (fun x y => key_cmp x.1 y.1) (keyed_row x) (map keyed_row l) = map keyed_row (insert_by c x l)).
  { intros x l. induction l as [|y l IH]; [done|]. cbn [map insert_by fst]. unfold c at 1. destruct (key_cmp (K x) (K y)); [done..|].
    by rewrite IH. }
  exists (sort_by c b). split.
  - induction b as [|x b IH]; [done|]. unfold sort_by in *. cbn [map foldr]. by rewrite IH, E.
  - destruct (sort_by_ok c b) as (Hp & Hs & Hf). split; [done|]. split; [exact Hs|]. intros k. apply Hf.
    intros x y Hx Hy. unfold c. by rewrite Hx, Hy, (cmp_refl key_cmp).
Qed.

Context {W : Type} {WS : Workspace W} {WOK : WorkspaceOk W}.
Context (run_tuples : nat) (w0 : W) (H0 : ws_holds w0 []).

Definition run_holds (w : W) (r : list Tuple) : Prop := ws_holds w (map (enc schema) r).
Abbreviation runs_ok := (fun runs R => Forall2 run_holds runs R /\ Forall (Forall sortable) R /\ Forall (StronglySorted row_le) R).

Lemma spill_rows_ok rows : Forall sortable rows -> forall w done, run_holds w done ->
  spills W (spill_rows schema rows w) (fun w' => run_holds w' (done ++ rows)).
Proof using DECok.
  induction 1 as [|t rows [Hf _] _ IH]; intros w done Hw; cbn [spill_rows]; [by rewrite app_nil_r|].
  destruct (enc_ok schema t Hf) as [-> _]. rewrite bind_Ok. eapply spills_bind; [by apply ws_spill_ok|]. intros w' Hw'.
  eapply spills_impl; [apply (IH w' (done ++ [t]))|]; [|intros w2; by rewrite <- app_assoc].
  unfold run_holds. by rewrite map_app.
Qed.

Lemma flush_run_ok b : Forall sortable b ->
  spills W (flush_run (Ok w0) schema (map keyed_row b)) (fun w => exists r, run_holds w r /\ Forall sortable r /\ sorted_of b r).
Proof using DECok H0.
  intros Hb. unfold flush_run. destruct (sort_batch b) as (r & -> & Hr). cbn [map_err]. rewrite bind_Ok.
  replace ((map keyed_row r).*2) with r by (clear; induction r as [|x r IH]; [done|]; cbn in *; by rewrite <- IH).
  assert (Hs : Forall sortable r) by (destruct Hr as [Hp _]; by rewrite Hp).
  eapply spills_impl; [by apply (spill_rows_ok r Hs w0 [])|]. intros w Hw. by exists r.
Qed.

(** What is left of the input, spread over sorted runs. *)
Definition spread (l : list Tuple) (R : list (list Tuple)) : Prop :=
  List.concat R ≡ₚ l /\ forall k, filter (fun t => K t = k) (List.concat R) = filter (fun t => K t = k) l.

Lemma spread_snoc l b r R : spread l R -> sorted_of b r -> spread (l ++ b) (R ++ [r]).
Proof.
  intros [Hp Hf] (Hp' & _ & Hf'). unfold spread. rewrite concat_middle, app_nil_r. split; [by rewrite Hp, Hp'|].
  intros k. by rewrite !filter_app, Hf, Hf'.
Qed.

Lemma runs_snoc runs R w r b : runs_ok runs R -> run_holds w r -> Forall sortable r -> sorted_of b r -> runs_ok (runs ++ [w]) (R ++ [r]).
Proof.
  intros (H1 & H2 & H3) Hw Hs (_ & Hr & _). split; [by apply Forall2_app; [|constructor]|].
  split; apply Forall_app; (split; [done|by constructor]).
Qed.

Lemma generate_runs_ok ts : Forall sortable ts -> forall b runs R l,
  Forall sortable b -> runs_ok runs R -> spread l R ->
  spills W (generate_runs run_tuples (Ok w0) keys schema (map Ok ts) (map keyed_row b) runs)
    (fun runs' => exists R', runs_ok runs' R' /\ spread (l ++ b ++ ts) R').
Proof using DECok H0.
  induction 1 as [|t ts Ht Hts IH]; intros b runs R l Hb HR Hl; cbn [map generate_runs].
  - destruct b as [|x b]; [exists R; by rewrite !app_nil_r|]. cbn [map length Nat.eqb].
    eapply spills_bind; [by apply (flush_run_ok (x :: b))|]. intros w (r & Hw & Hs & Hr). exists (R ++ [r]).
    split; [by eapply runs_snoc|]. rewrite app_nil_r. by apply spread_snoc.
  - rewrite bind_Ok. destruct Ht as [Hf Hk]. rewrite Hk, bind_Ok.
    replace (map keyed_row b ++ [(K t, t)]) with (map keyed_row (b ++ [t])) by apply map_app.
    assert (Hb' : Forall sortable (b ++ [t])) by (apply Forall_app; split; [done|by repeat constructor]).
    assert (E : l ++ b ++ t :: ts = l ++ (b ++ [t]) ++ ts) by (by rewrite <- app_assoc). rewrite E.
    destruct (run_tuples <=? _)%nat; [|by apply (IH _ _ R)].
    eapply spills_bind; [by apply flush_run_ok|]. intros w (r & Hw & Hs & Hr).
    rewrite app_assoc. apply (IH [] _ (R ++ [r]) (l ++ b ++ [t])); [done|by eapply runs_snoc|by apply spread_snoc].
Qed.

Lemma sort_with_ok ts : Forall sortable ts ->
  spills W (sort_with run_tuples (Ok w0) keys schema (map Ok ts)) (fun s => exists out, s = map Ok out /\ sorted_of ts out).
Proof using DECok H0.
  intros Hts. unfold sort_with. eapply spills_bind; [by apply (generate_runs_ok ts Hts [] [] [] []); repeat constructor|].
  intros runs (R & (HR & Hs & Hr) & [Hp Hf]).
  assert (Ec : collect_res (map ws_read runs) = Ok (E := QueryError) (map (map (enc schema)) R)).
  { clear -HR. induction HR as [|w r runs R Hw _ IH]; [done|]. cbn [map collect_res]. by rewrite (ws_read_ok w _ Hw), bind_Ok, IH. }
  rewrite Ec, bind_Ok. destruct (first_items_ok R Hs 0 [] ltac:(constructor)) as (heap & E & Hh & Hhs). rewrite E, bind_Ok.
  rewrite <- concat_map, length_map.
  destruct (merge_runs_ok (length (List.concat R)) R heap [] Hs Hr Hh Hhs eq_refl) as (m & -> & (Mp & Ms & Mf)).
  rewrite bind_Ok. exists m. split; [done|]. split; [by rewrite Mp|]. split; [done|]. intros k. by rewrite Mf, Hf.
Qed.
End merge.

(** ** The keys order as SQL does *)

Section order.
Context {DEC : RustDecimal} {JS : SerdeJson} {ST : StdText} {CAL : Calendar} {XC : ExprCrates} {DECok : RustDecimalOk}.

(** One [ORDER BY] term: NULLs where it places them, values by [cmp_values]. *)
Definition sql_order (key : SortKey) (a b : Value) : res QueryError comparison :=
  match is_null a, is_null b with
  | true, true => Ok Eq
  | true, false => Ok (if sk_nulls_first key then Lt else Gt)
  | false, true => Ok (if sk_nulls_first key then Gt else Lt)
  | false, false => map_ok (fun c => if sk_ascending key then c else CompOpp c) (cmp_values a b)
  end.

Lemma bytes_cmp_not a b : length a = length b -> bytes_cmp (byte_not <$> a) (byte_not <$> b) = CompOpp (bytes_cmp a b).
Proof.
  revert b. induction a as [|x a IH]; intros [|y b]; cbn; try done. intros [= Hl]. rewrite !byte_not_Z.
  replace (255 - byteZ x ?= 255 - byteZ y) with (CompOpp (byteZ x ?= byteZ y)).
  - destruct (byteZ x ?= byteZ y); cbn; [by apply IH|done..].
  - rewrite <- Z.compare_antisym. destruct (Z.compare_spec (byteZ y) (byteZ x)), (Z.compare_spec (255 - byteZ x) (255 - byteZ y)); done || lia.
Qed.

Lemma sort_part_order ty key a b :
  orderable ty = true -> sk_ascending key = true \/ is_Some (key_width ty) ->
  a = VNull \/ comparable ty a -> b = VNull \/ comparable ty b ->
  exists pa pb, sort_part key a = Ok pa /\ sort_part key b = Ok pb /\ sql_order key a b = Ok (bytes_cmp pa pb).
Proof using DECok.
  intros Ho Hdir Ha Hb.
  assert (Hn : forall v, comparable ty v -> is_null v = false) by (intros v Ht%comparable_type; by destruct ty, v).
  assert (Hp : forall v, comparable ty v -> exists k, encode_key v = Ok k
            /\ sort_part key v = Ok ((if sk_nulls_first key then x01 else x00) :: (if sk_ascending key then k else byte_not <$> k))).
  { intros v Hv. destruct (values_keyed ty v v Ho Hv Hv) as (k & _ & E & _). exists k. split; [done|].
    unfold sort_part. by rewrite (Hn v Hv), E. }
  assert (H0 : sort_part key VNull = Ok [if sk_nulls_first key then x00 else x01]) by done.
  destruct Ha as [->|Ha], Hb as [->|Hb].
  - rewrite H0. do 2 eexists. split; [done|]. split; [done|]. by destruct (sk_nulls_first key).
  - destruct (Hp b Hb) as (k & _ & ->). rewrite H0. do 2 eexists. split; [done|]. split; [done|].
    unfold sql_order. rewrite (Hn b Hb). by destruct (sk_nulls_first key).
  - destruct (Hp a Ha) as (k & _ & ->). rewrite H0. do 2 eexists. split; [done|]. split; [done|].
    unfold sql_order. rewrite (Hn a Ha). by destruct (sk_nulls_first key).
  - destruct (values_keyed ty a b Ho Ha Hb) as (ka & kb & Ea & Eb & Ec & _ & Hw).
    destruct (Hp a Ha) as (ka' & Ea' & ->), (Hp b Hb) as (kb' & Eb' & ->). rewrite Ea in Ea'. rewrite Eb in Eb'.
    injection Ea' as <-. injection Eb' as <-. do 2 eexists. split; [done|]. split; [done|].
    unfold sql_order. rewrite (Hn a Ha), (Hn b Hb), Ec. cbn [map_ok bytes_cmp]. rewrite Z.compare_refl.
    destruct (sk_ascending key); [done|]. destruct Hdir as [|[n Hkw]]; [done|]. destruct (Hw n Hkw) as [La Lb].
    by rewrite bytes_cmp_not by congruence.
Qed.

Context {CRC : Crc32} {CRCok : Crc32Ok} {CRCc : Crc32c} {CRCcok : Crc32cOk}.

End order.

(** ** On concrete rows *)

Section witness.
Import Journal.Ieee Castagnoli PlainDecimal PlainJson PlainCrates.

Lemma FileWorkspace_new_ok limit mb db :
  (disk_open limit []).2 = Ok tt -> 8192 <= db -> exists w, FileWorkspace_new limit mb db = Ok w.
Proof.
  intros E Hdb. unfold FileWorkspace_new. destruct (Z.ltb_spec (db / Z.of_nat PAGE_SIZE) 1) as [H|_].
  { exfalso. assert (HP : Z.of_nat PAGE_SIZE = 8192) by (unfold PAGE_SIZE; apply BLOCK_SIZE_Z). rewrite HP in H.
    pose proof (Z.div_le_lower_bound db 8192 1 ltac:(lia) ltac:(lia)). lia. }
  destruct (disk_open limit []) as [d r]. cbn [snd] in E. subst r. unfold PageCache_new, with_policy, PageCache.build. cbn [LruK_new].
  destruct (Nat.eqb_spec (Z.to_nat (Z.max (mb / Z.of_nat PAGE_SIZE) 1)) 0) as [H|_]; [lia|]. by eexists.
Qed.

Definition two_ints : Schema := MkSchema [Field_new "k" TInt32; Field_new "id" TInt32].
Definition int_row (k id : Z) : Tuple := MkTuple [VInt32 k; VInt32 id].
Lemma int_row_fits k id : is_int 32 k -> is_int 32 id -> fits two_ints (int_row k id).
Proof. intros Hk Hid. repeat apply Forall2_cons_2; [by right..|constructor]. Qed.

Definition by_first : list SortKey := [MkSortKey (EColumn 0) true false].
Definition key_of (t : Tuple) : list (list byte) := match sort_key_bytes t by_first with Ok k => k | _ => [] end.


(** Runs of two rows merged: equal keys keep their order across runs. *)
Definition ints (t : Tuple) : list Z := omap as_i64 (values t).
Example merged_runs_are_stable :
  map_ok (map (map_ok ints))
    (sort_with 2 (MemoryWorkspace_new 8192) by_first two_ints
       (map Ok [int_row 7 1; int_row 5 2; int_row 7 3; int_row 5 4; int_row 5 5]))
  = Ok (map Ok [[5; 2]; [5; 4]; [5; 5]; [7; 1]; [7; 3]]).
Proof. vm_compute. reflexivity. Qed.

(** [ORDER BY s DESC] on text: the inverted bytes of a prefix still sort first,
    where SQL puts the longer string first. *)
Example descending_text_prefix_first :
  let key := MkSortKey (EColumn 0) false false in
  let a := VText [x61] in
  let ab := VText [x61; x62] in
  sql_order key a ab = Ok Gt
  /\ exists pa pab, sort_part key a = Ok pa /\ sort_part key ab = Ok pab /\ bytes_cmp pa pab = Lt.
Proof. split; [reflexivity|]. do 2 eexists. split; [reflexivity|]. split; reflexivity. Qed.
End witness.
