(* ===== verification/Joins.v ===== *)
(** * Joins

    query/volcano/join: the nested-loop joins (nested_loop.rs) and the
    sort-merge join (merge.rs).  An operator's inputs are the results of
    building them; [join_spec] is what a join means, independent of the
    algorithm.  A vector of match flags is paired with the rows it flags. *)

From Stdlib Require Import Strings.Byte Strings.String ZArith Lia Sorted Permutation.
From stdpp Require Import prelude list.
From S2P Require Import Prelude BlockStore Page TuplePage MemoryPool Workspace Value ValueCodec Compare KeyCodec RustText Temporal Expression SystemCatalog Plan Spill.
Local Open Scope Z_scope.

Section joins.
Context {DEC : RustDecimal} {JS : SerdeJson} {ST : StdText} {CAL : Calendar} {XC : ExprCrates}.
Abbreviation RowStream := (list (res QueryError Tuple)).

(** [match &on { None => true, Some(pred) => matches!(pred.eval(..)?, Bool(true)) }]. *)
Definition on_matches (on : option Expr) (combined : Tuple) : res QueryError bool :=
  match on with None => Ok true | Some pred => v ← eval pred combined; Ok (is_true v) end.

(** ** Tuple at a time *)

(** One left row against every right row: whether it matched, the right flags,
    the output. *)
Fixpoint nested_inner (on : option Expr) (l : Tuple) (rights : list (Tuple * bool)) : res QueryError (bool * list (Tuple * bool) * list Tuple) :=
  match rights with
  | [] => Ok (false, [], [])
  | (r, flag) :: rights' =>
      let combined := concat_rows l r in
      matched ← on_matches on combined;
      '(l_matched, rest, out) ← nested_inner on l rights';
      Ok (matched || l_matched, (r, matched || flag) :: rest, if (matched : bool) then combined :: out else out)
  end.

Fixpoint nested_outer (on : option Expr) (join_type : JoinType) (right_width : nat) (lefts : list Tuple) (rights : list (Tuple * bool)) : res QueryError (list (Tuple * bool) * list Tuple) :=
  match lefts with
  | [] => Ok (rights, [])
  | l :: lefts' =>
      '(l_matched, rights, out) ← nested_inner on l rights;
      '(rights, out') ← nested_outer on join_type right_width lefts' rights;
      Ok (rights, out ++ (if negb l_matched && keeps_left join_type then [pad_right l right_width] else []) ++ out')
  end.

Definition unmatched (rights : list (Tuple * bool)) : list Tuple := (filter (fun p => p.2 = false) rights).*1.

Definition nested_loop_join (left_width right_width : nat) (left right : res QueryError RowStream) (on : option Expr) (join_type : JoinType) : res QueryError RowStream :=
  left ← left; left_rows ← collect_res left;
  right ← right; right_rows ← collect_res right;
  '(rights, out) ← nested_outer on join_type right_width left_rows (map (fun r => (r, false)) right_rows);
  Ok (map Ok (out ++ (if keeps_right join_type then map (pad_left left_width) (unmatched rights) else []))).

(** ** Block at a time *)

Section block.
Context {W : Type} {WS : Workspace W} (block_tuples : nat) (new_inner : res Error W) (right_schema : Schema).

(** The inner side, encoded into a workspace. *)
Fixpoint fill_inner (right : RowStream) (inner : W) : res QueryError W :=
  match right with
  | [] => Ok inner
  | row :: right' =>
      t ← row;
      bytes ← schema_encode right_schema t;
      inner ← ws_spill "join workspace" bytes inner;
      fill_inner right' inner
  end.

(** Up to [n] more outer rows, and the rest of the outer. *)
Fixpoint fill_block (n : nat) (outer : RowStream) : res QueryError (list Tuple * RowStream) :=
  match n, outer with
  | S n', row :: outer' => t ← row; '(block, rest) ← fill_block n' outer'; Ok (t :: block, rest)
  | _, _ => Ok ([], outer)
  end.

(** One inner row against the block. *)
Fixpoint block_scan (on : option Expr) (inner_tuple : Tuple) (block : list (Tuple * bool)) : res QueryError (bool * list (Tuple * bool) * list Tuple) :=
  match block with
  | [] => Ok (false, [], [])
  | (l, flag) :: block' =>
      let combined := concat_rows l inner_tuple in
      matched ← on_matches on combined;
      '(k_matched, rest, out) ← block_scan on inner_tuple block';
      Ok (matched || k_matched, (l, matched || flag) :: rest, if (matched : bool) then combined :: out else out)
  end.

(** The whole inner against the block; the inner's tuples carry their flags. *)
Fixpoint inner_scan (on : option Expr) (inner : list (list byte * bool)) (block : list (Tuple * bool)) : res QueryError (list (list byte * bool) * list (Tuple * bool) * list Tuple) :=
  match inner with
  | [] => Ok ([], block, [])
  | (bytes, flag) :: inner' =>
      inner_tuple ← map_err QDecode (schema_decode right_schema bytes);
      '(matched, block, out) ← block_scan on inner_tuple block;
      '(rest, block, out') ← inner_scan on inner' block;
      Ok ((bytes, (matched || flag : bool)) :: rest, block, out ++ out')
  end.

(** The outer, block by block; every block takes at least one of [fuel] rows. *)
Fixpoint block_loop (fuel : nat) (on : option Expr) (join_type : JoinType) (right_width : nat) (outer : RowStream) (inner : list (list byte * bool)) : res QueryError (list (list byte * bool) * list Tuple) :=
  '(block, outer) ← fill_block block_tuples outer;
  match block, fuel with
  | [], _ | _, O => Ok (inner, [])
  | _, S fuel' =>
      '(inner, block, out) ← inner_scan on inner (map (fun l => (l, false)) block);
      '(inner, out') ← block_loop fuel' on join_type right_width outer inner;
      Ok (inner, out ++ (if keeps_left join_type then map (fun l => pad_right l right_width) (unmatched block) else []) ++ out')
  end.

Fixpoint unmatched_inner (inner : list (list byte * bool)) : res QueryError (list Tuple) :=
  match inner with
  | [] => Ok []
  | (bytes, flag) :: inner' =>
      if (flag : bool) then unmatched_inner inner'
      else t ← map_err QDecode (schema_decode right_schema bytes); rest ← unmatched_inner inner'; Ok (t :: rest)
  end.

Definition block_nested_loop_with (left_width right_width : nat) (left right : res QueryError RowStream) (on : option Expr) (join_type : JoinType) : res QueryError RowStream :=
  inner ← map_err (fun _ => QInternal "join workspace") new_inner;
  right ← right;
  inner ← fill_inner right inner;
  outer ← left;
  tuples ← ws_read inner;
  '(tuples, out) ← block_loop (length outer) on join_type right_width outer (map (fun b => (b, false)) tuples);
  tail ← (if keeps_right join_type then rows ← unmatched_inner tuples; Ok (map (pad_left left_width) rows) else Ok []);
  Ok (map Ok (out ++ tail)).
End block.

Definition OUTER_BLOCK_TUPLES : nat := Z.to_nat 1024.
Definition INNER_WORKSPACE_BUDGET : Z := 256 * 1024 * 1024.

Definition block_nested_loop_join (left_width right_width : nat) (left right : res QueryError RowStream) (on : option Expr) (join_type : JoinType) (right_schema : Schema) : res QueryError RowStream :=
  block_nested_loop_with OUTER_BLOCK_TUPLES (MemoryWorkspace_new INNER_WORKSPACE_BUDGET) right_schema left_width right_width left right on join_type.

(** ** Sort-merge *)

(** [row.values[key]]: an index past the end panics. *)
Definition value_at (t : Tuple) (key : nat) : res QueryError Value :=
  match values t !! key with Some v => Ok v | None => Panic end.

(** [while i < rows.len() && cmp_values(&rows[i].values[key], k)? == Equal]. *)
Fixpoint take_group (key : nat) (k : Value) (rows : list Tuple) : res QueryError (list Tuple * list Tuple) :=
  match rows with
  | [] => Ok ([], [])
  | t :: rows' =>
      v ← value_at t key;
      c ← cmp_values v k;
      if cmp_is_eq c then '(g, rest) ← take_group key k rows'; Ok (t :: g, rest) else Ok ([], rows)
  end.

Definition product (ls rs : list Tuple) : list Tuple := ls ≫= fun l => map (concat_rows l) rs.

(** The rows from [i] and from [j] on; every turn takes at least one of [fuel] rows. *)
Fixpoint merge_join (fuel : nat) (left_key right_key : nat) (ls rs : list Tuple) : res QueryError (list Tuple) :=
  match fuel, ls, rs with
  | S fuel', l :: ls', r :: rs' =>
      lk ← value_at l left_key;
      rk ← value_at r right_key;
      if is_null lk then merge_join fuel' left_key right_key ls' rs
      else if is_null rk then merge_join fuel' left_key right_key ls rs'
      else
        c ← cmp_values lk rk;
        match c with
        | Lt => merge_join fuel' left_key right_key ls' rs
        | Gt => merge_join fuel' left_key right_key ls rs'
        | Eq =>
            '(gl, ls) ← take_group left_key lk ls;
            '(gr, rs) ← take_group right_key rk rs;
            out ← merge_join fuel' left_key right_key ls rs;
            Ok (product gl gr ++ out)
        end
  | _, _, _ => Ok []
  end.

(** [is_sorted_by], the debug check of the inputs' order. *)
Definition sorted_pair (key : nat) (a b : Tuple) : res QueryError bool :=
  va ← value_at a key;
  vb ← value_at b key;
  Ok (if is_null va then is_null vb
      else if is_null vb then true
      else match cmp_values va vb with Ok Gt => false | _ => true end).
Fixpoint is_sorted_by (rows : list Tuple) (key : nat) : res QueryError bool :=
  match rows with
  | a :: (b :: _) as rows' =>
      ok ← sorted_pair key a b;
      if (ok : bool) then is_sorted_by rows' key else Ok false
  | _ => Ok true
  end.

(** [debug_assert!]. *)
Definition debug_assert (b : bool) : res QueryError unit := if b then Ok tt else Panic.

Definition sort_merge_join (left_arity : nat) (left right : res QueryError RowStream) (on : option Expr) (join_type : JoinType) : res QueryError RowStream :=
  _ ← debug_assert (match join_type with JInner => true | _ => false end);
  '(left_key, right_key) ← equi_keys on left_arity;
  left ← left; left_rows ← collect_res left;
  right ← right; right_rows ← collect_res right;
  left_sorted ← is_sorted_by left_rows left_key; _ ← debug_assert left_sorted;
  right_sorted ← is_sorted_by right_rows right_key; _ ← debug_assert right_sorted;
  out ← merge_join (length left_rows + length right_rows) left_key right_key left_rows right_rows;
  Ok (map Ok out).

(** ** What a join means *)

Section spec.
Context (m : Tuple -> Tuple -> bool) (join_type : JoinType) (left_width right_width : nat).

Definition match_of (l r : Tuple) : list Tuple := if m l r then [concat_rows l r] else [].
Definition left_pad (rights : list Tuple) (l : Tuple) : list Tuple :=
  if keeps_left join_type && negb (existsb (m l) rights) then [pad_right l right_width] else [].
Definition right_pad (lefts : list Tuple) (r : Tuple) : list Tuple :=
  if keeps_right join_type && negb (existsb (fun l => m l r) lefts) then [pad_left left_width r] else [].

(** Every left row with its matches or its padding, then the padded right rows. *)
Definition join_spec (lefts rights : list Tuple) : list Tuple :=
  (lefts ≫= fun l => (rights ≫= match_of l) ++ left_pad rights l) ++ (rights ≫= right_pad lefts).
End spec.
End joins.
