(* ===== verification/JoinsOk.v ===== *)
(** * The join algorithms agree

    The nested-loop join is [join_spec], the block nested loop yields the same
    rows in another order, and sorting both inputs and merging them does too, on
    keys of one type with no NULL. *)

From Stdlib Require Import Strings.Byte Strings.String ZArith Lia Sorted Permutation.
From stdpp Require Import prelude list sorting.
From S2P Require Import Prelude BlockStore BlockJournal Journal Page TuplePage MemoryPool Workspace Value ValueCodec Compare KeyCodec RustText Temporal Expression ExprTyping SystemCatalog Plan Spill Sort SortOk Joins.
Local Open Scope Z_scope.

(** ** Bags of rows *)

Lemma bind_nil_all {A B} (f : A -> list B) l : (forall x, x ∈ l -> f x = []) -> l ≫= f = [].
Proof.
  induction l as [|x l IH]; intros H; [done|]. cbn. rewrite (H x) by left. apply IH. intros y Hy. apply H. by right.
Qed.

Lemma bind_ext_in {A B} (f g : A -> list B) l : (forall x, x ∈ l -> f x = g x) -> l ≫= f = l ≫= g.
Proof.
  induction l as [|x l IH]; intros H; [done|]. cbn. rewrite (H x) by left. f_equal. apply IH. intros y Hy. apply H. by right.
Qed.

Lemma bind_app_perm {A B} (f g : A -> list B) l : l ≫= (fun x => f x ++ g x) ≡ₚ (l ≫= f) ++ (l ≫= g).
Proof. induction l as [|x l IH]; [done|]. cbn in *. rewrite IH. solve_Permutation. Qed.

Lemma bind_perm_in {A B} (f g : A -> list B) l : (forall x, x ∈ l -> f x ≡ₚ g x) -> l ≫= f ≡ₚ l ≫= g.
Proof.
  induction l as [|x l IH]; intros H; [done|]. cbn. rewrite (H x) by left. f_equiv. apply IH. intros y Hy. apply H. by right.
Qed.

(** Pairs in either nesting. *)
Lemma bind_swap {A B C} (f : A -> B -> list C) l k : l ≫= (fun a => k ≫= f a) ≡ₚ k ≫= (fun b => l ≫= (fun a => f a b)).
Proof.
  induction l as [|a l IH]; [by rewrite (bind_nil_all (fun b => [] ≫= (fun a => f a b)) k)|]. rewrite bind_cons, IH, <- bind_app_perm. apply bind_perm_in. intros b _. by rewrite bind_cons.
Qed.

Lemma existsb_perm {A} (f : A -> bool) l k : l ≡ₚ k -> existsb f l = existsb f k.
Proof. induction 1; cbn; [done|by f_equal| |congruence]. destruct (f x), (f y); done. Qed.

Section algebra.
Context {DEC : RustDecimal} {JS : SerdeJson} (jt : JoinType) (lw rw : nat).

Lemma join_spec_ext m m' L R : (forall l r, l ∈ L -> r ∈ R -> m l r = m' l r) ->
  join_spec m jt lw rw L R = join_spec m' jt lw rw L R.
Proof.
  intros H. assert (Hex : forall l, l ∈ L -> existsb (m l) R = existsb (m' l) R).
  { intros l Hl. clear -H Hl. induction R as [|r R' IH]; [done|]. cbn. rewrite (H l r Hl) by left. f_equal.
    apply IH. intros l' r' Hl' Hr'. apply H; [done|by right]. }
  assert (Hex' : forall r, r ∈ R -> existsb (fun l => m l r) L = existsb (fun l => m' l r) L).
  { intros r Hr. clear -H Hr. induction L as [|l L' IH]; [done|]. cbn. rewrite (H l r) by (done || left). f_equal.
    apply IH. intros l' r' Hl' Hr'. apply H; [by right|done]. }
  unfold join_spec. f_equal.
  - apply bind_ext_in. intros l Hl. unfold left_pad. rewrite (Hex l Hl). f_equal. apply bind_ext_in. intros r Hr. unfold match_of. by rewrite H.
  - apply bind_ext_in. intros r Hr. unfold right_pad. by rewrite (Hex' r Hr).
Qed.

Context (m : Tuple -> Tuple -> bool).
Abbreviation spec := (join_spec m jt lw rw).

(** The three parts of a join. *)
Lemma join_spec_parts L R : spec L R ≡ₚ (L ≫= fun l => R ≫= match_of m l) ++ (L ≫= left_pad m jt rw R) ++ (R ≫= right_pad m jt lw L).
Proof. unfold join_spec. rewrite bind_app_perm. by rewrite <- app_assoc. Qed.

Lemma join_spec_perm L L' R R' : L ≡ₚ L' -> R ≡ₚ R' -> spec L R ≡ₚ spec L' R'.
Proof.
  intros HL HR. rewrite !join_spec_parts. f_equiv; [|f_equiv].
  - rewrite HL. apply bind_perm_in. intros l _. by rewrite HR.
  - rewrite HL. apply bind_perm_in. intros l _. unfold left_pad. by rewrite (existsb_perm _ _ _ HR).
  - rewrite HR. apply bind_perm_in. intros r _. unfold right_pad. by rewrite (existsb_perm _ _ _ HL).
Qed.

Lemma existsb_none {A} (f : A -> bool) l : (forall x, x ∈ l -> f x = false) -> existsb f l = false.
Proof. induction l as [|x l IH]; intros H; [done|]. cbn. rewrite (H x) by left. apply IH. intros y Hy. apply H. by right. Qed.

(** Two parts that never match each other join apart. *)
Lemma join_spec_split L1 L2 R1 R2 :
  (forall l r, l ∈ L1 -> r ∈ R2 -> m l r = false) -> (forall l r, l ∈ L2 -> r ∈ R1 -> m l r = false) ->
  spec (L1 ++ L2) (R1 ++ R2) ≡ₚ spec L1 R1 ++ spec L2 R2.
Proof.
  intros H12 H21. rewrite !join_spec_parts, !bind_app.
  assert (E1 : L1 ≫= (fun l => (R1 ++ R2) ≫= match_of m l) = L1 ≫= (fun l => R1 ≫= match_of m l)).
  { apply bind_ext_in. intros l Hl. rewrite bind_app, (bind_nil_all _ R2), app_nil_r; [done|]. intros r Hr. unfold match_of. by rewrite H12. }
  assert (E2 : L2 ≫= (fun l => (R1 ++ R2) ≫= match_of m l) = L2 ≫= (fun l => R2 ≫= match_of m l)).
  { apply bind_ext_in. intros l Hl. rewrite bind_app, (bind_nil_all _ R1); [done|]. intros r Hr. unfold match_of. by rewrite H21. }
  assert (E3 : L1 ≫= left_pad m jt rw (R1 ++ R2) = L1 ≫= left_pad m jt rw R1).
  { apply bind_ext_in. intros l Hl. unfold left_pad. rewrite existsb_app, (existsb_none _ R2), orb_false_r; [done|]. intros r Hr. by apply H12. }
  assert (E4 : L2 ≫= left_pad m jt rw (R1 ++ R2) = L2 ≫= left_pad m jt rw R2).
  { apply bind_ext_in. intros l Hl. unfold left_pad. rewrite existsb_app, (existsb_none _ R1); [done|]. intros r Hr. by apply H21. }
  assert (E5 : R1 ≫= right_pad m jt lw (L1 ++ L2) = R1 ≫= right_pad m jt lw L1).
  { apply bind_ext_in. intros r Hr. unfold right_pad. rewrite existsb_app, (existsb_none _ L2), orb_false_r; [done|]. intros l Hl. by apply H21. }
  assert (E6 : R2 ≫= right_pad m jt lw (L1 ++ L2) = R2 ≫= right_pad m jt lw L2).
  { apply bind_ext_in. intros r Hr. unfold right_pad. rewrite existsb_app, (existsb_none _ L1); [done|]. intros l Hl. by apply H12. }
  rewrite E1, E2, E3, E4, E5, E6. solve_Permutation.
Qed.
End algebra.

(** ** Nested loops *)

Section nested.
Context {DEC : RustDecimal} {JS : SerdeJson} {ST : StdText} {CAL : Calendar} {XC : ExprCrates}.
Context (on : option Expr) (jt : JoinType) (lw rw : nat) (m : Tuple -> Tuple -> bool).

Lemma collect_rows (l : list Tuple) : collect_res (E := QueryError) (map Ok l) = Ok l.
Proof. exact (collect_res_Ok l). Qed.

(** The predicate decides every pair. *)
Definition decides (L R : list Tuple) : Prop := forall l r, l ∈ L -> r ∈ R -> on_matches on (concat_rows l r) = Ok (m l r).

(** Rows with a flag that depends on the row. *)
Definition flagged {A} (F : A -> bool) (l : list A) : list (A * bool) := map (fun x => (x, F x)) l.

Lemma flagged_ext {A} (F G : A -> bool) l : (forall x, F x = G x) -> flagged F l = flagged G l.
Proof. intros H. apply map_ext. intros x. by rewrite H. Qed.

Lemma nested_inner_ok l R F : decides [l] R ->
  nested_inner on l (flagged F R) = Ok (existsb (m l) R, flagged (fun r => m l r || F r) R, R ≫= match_of m l).
Proof.
  induction R as [|r R IH]; intros H; [done|]. cbn [flagged map nested_inner]. rewrite (H l r) by left. rewrite bind_Ok.
  fold (flagged F R). rewrite IH by (intros l' r' Hl Hr; apply H; [done|by right]). rewrite bind_Ok, bind_cons.
  assert (match_of m l r = if m l r then [concat_rows l r] else []) as -> by done. cbn [existsb]. by destruct (m l r).
Qed.

Lemma decides_cons l L R : decides (l :: L) R -> decides [l] R /\ decides L R.
Proof. intros H. split; intros l' r Hl Hr; (apply H; [|done]); [|by right]. apply list_elem_of_singleton in Hl as ->. left. Qed.

Lemma nested_outer_ok L : forall R F, decides L R ->
  nested_outer on jt rw L (flagged F R) = Ok (flagged (fun r => existsb (fun l => m l r) L || F r) R,
    L ≫= fun l => (R ≫= match_of m l) ++ left_pad m jt rw R l).
Proof.
  induction L as [|l L IH]; intros R F H; cbn [nested_outer]; [done|].
  apply decides_cons in H as [Hl H]. rewrite nested_inner_ok by done. rewrite bind_Ok, IH by done. rewrite bind_Ok, bind_cons. f_equal. f_equal.
  - apply flagged_ext. intros r. cbn. destruct (m l r), (existsb _ L), (F r); done.
  - rewrite <- app_assoc. f_equal. f_equal. unfold left_pad. by rewrite andb_comm.
Qed.

Lemma unmatched_flagged (F : Tuple -> bool) R : unmatched (flagged F R) = filter (fun r => F r = false) R.
Proof. unfold unmatched. induction R as [|r R IH]; [done|]. cbn [flagged map]. rewrite !filter_cons. cbn [snd]. fold (flagged F R). by case_decide; cbn; rewrite <- IH. Qed.

Lemma filter_bind {A B} (F : A -> bool) (g : A -> B) l : map g (filter (fun x => F x = false) l) = l ≫= fun x => if negb (F x) then [g x] else [].
Proof. induction l as [|x l IH]; [done|]. rewrite filter_cons, bind_cons, <- IH. by destruct (F x). Qed.

Lemma right_tail_ok L R :
  (if keeps_right jt then map (pad_left lw) (unmatched (flagged (fun r => existsb (fun l => m l r) L || false) R)) else [])
  = R ≫= right_pad m jt lw L.
Proof.
  rewrite unmatched_flagged, filter_bind. unfold right_pad. destruct (keeps_right jt); cbn [andb]; [|by rewrite bind_nil_all].
  apply bind_ext_in. intros r _. by rewrite orb_false_r.
Qed.

Lemma nested_loop_ok L R : decides L R ->
  nested_loop_join lw rw (Ok (map Ok L)) (Ok (map Ok R)) on jt = Ok (map Ok (join_spec m jt lw rw L R)).
Proof.
  intros H. unfold nested_loop_join. rewrite bind_Ok, collect_rows, bind_Ok, bind_Ok, collect_rows, bind_Ok. fold (flagged (fun _ => false) R). rewrite nested_outer_ok by done. rewrite bind_Ok.
  rewrite right_tail_ok. done.
Qed.

(** ** Block nested loops *)

Section block.
Context {DECok : RustDecimalOk} (schema : Schema) (R : list Tuple) (HR : Forall (fits schema) R).

(** The inner's tuples with their flags. *)
Abbreviation inner := (fun F : Tuple -> bool => map (fun r => (enc schema r, F r)) R).

Lemma inner_ext F G : (forall r, F r = G r) -> inner F = inner G.
Proof. intros H. apply map_ext. intros r. by rewrite H. Qed.

Lemma block_scan_ok r B F : decides B [r] ->
  block_scan on r (flagged F B) = Ok (existsb (fun l => m l r) B, flagged (fun l => m l r || F l) B, B ≫= fun l => match_of m l r).
Proof.
  induction B as [|l B IH]; intros H; [done|]. apply decides_cons in H as [Hl H]. cbn [flagged map block_scan].
  rewrite (Hl l r) by left. rewrite bind_Ok. fold (flagged F B). rewrite IH by done. rewrite bind_Ok, bind_cons.
  assert (match_of m l r = if m l r then [concat_rows l r] else []) as -> by done. cbn [existsb]. by destruct (m l r).
Qed.

Lemma decides_swap L r R' : decides L (r :: R') -> decides L [r] /\ decides L R'.
Proof. intros H. split; intros l r' Hl Hr; (apply H; [done|]); [|by right]. apply list_elem_of_singleton in Hr as ->. left. Qed.

Lemma inner_scan_ok R' B F : Forall (fits schema) R' -> forall G, decides B R' ->
  inner_scan schema on (map (fun r => (enc schema r, F r)) R') (flagged G B)
  = Ok (map (fun r => (enc schema r, existsb (fun l => m l r) B || F r)) R',
        flagged (fun l => existsb (m l) R' || G l) B, R' ≫= fun r => B ≫= fun l => match_of m l r).
Proof using DECok.
  induction 1 as [|r R' Hr HR' IH]; intros G H; [done|]. apply decides_swap in H as [H1 H]. cbn [map inner_scan].
  destruct (enc_ok schema r Hr) as [_ ->]. cbn [map_err]. rewrite bind_Ok, block_scan_ok by done. rewrite bind_Ok, IH by done.
  rewrite bind_Ok, bind_cons. f_equal. f_equal. f_equal. apply flagged_ext. intros l. cbn. destruct (m l r), (existsb _ R'), (G l); done.
Qed.

Lemma fill_block_ok n L : fill_block n (map Ok L) = Ok (list.take n L, map Ok (drop n L)).
Proof. revert n. induction L as [|l L IH]; intros [|n]; try done. cbn [map fill_block]. by rewrite bind_Ok, IH. Qed.

Context (block_tuples : nat) (Hblock : (0 < block_tuples)%nat).

Lemma block_out B :
  (R ≫= fun r => B ≫= fun l => match_of m l r)
  ++ (if keeps_left jt then map (fun l => pad_right l rw) (unmatched (flagged (fun l => existsb (m l) R || false) B)) else [])
  ≡ₚ B ≫= fun l => (R ≫= match_of m l) ++ left_pad m jt rw R l.
Proof.
  rewrite bind_app_perm, (bind_swap (match_of m)). f_equiv. rewrite unmatched_flagged, filter_bind. unfold left_pad.
  destruct (keeps_left jt); cbn [andb]; [|by rewrite bind_nil_all]. apply bind_perm_in. intros l _. by rewrite orb_false_r.
Qed.

Lemma block_loop_ok fuel : forall L F, (length L <= fuel)%nat -> decides L R ->
  exists out, block_loop block_tuples schema fuel on jt rw (map Ok L) (inner F)
      = Ok (inner (fun r => existsb (fun l => m l r) L || F r), out)
    /\ out ≡ₚ L ≫= fun l => (R ≫= match_of m l) ++ left_pad m jt rw R l.
Proof using DECok HR Hblock.
  induction fuel as [|fuel IH]; intros L F Hf H.
  - destruct L; [|cbn in Hf; lia]. exists []. by destruct block_tuples.
  - cbn [block_loop]. rewrite fill_block_ok, bind_Ok. destruct L as [|l L]; [exists []; by destruct block_tuples|].
    destruct block_tuples as [|n]; [lia|]. set (B := list.take (S n) (l :: L)). set (L' := drop (S n) (l :: L)).
    assert (EL : l :: L = B ++ L') by (symmetry; apply take_drop). assert (exists x B', B = x :: B') as (x & B' & EB) by (by eexists _, _). clearbody B L'.
    assert (HL : decides B R /\ decides L' R).
    { split; intros l' r Hl' Hr; apply H; try done; rewrite EL; apply elem_of_app; auto. }
    rewrite EB. fold (flagged (fun _ : Tuple => false) (x :: B')). rewrite <- EB. rewrite inner_scan_ok by apply HL || done. rewrite bind_Ok.
    destruct (IH L' (fun r => existsb (fun l => m l r) B || F r)) as (out & E & Hout).
    { apply (f_equal length) in EL. rewrite EB in EL. rewrite length_app in EL. cbn in EL, Hf. lia. }
    { apply HL. }
    rewrite E, bind_Ok, EL. eexists. split.
    + f_equal. f_equal. apply inner_ext. intros r. rewrite existsb_app. destruct (existsb _ B), (existsb _ L'), (F r); done.
    + rewrite app_assoc, block_out, Hout, bind_app. done.
Qed.

Lemma unmatched_inner_ok F R' : Forall (fits schema) R' ->
  unmatched_inner schema (map (fun r => (enc schema r, F r)) R') = Ok (filter (fun r => F r = false) R').
Proof using DECok.
  induction 1 as [|r R' Hr HR' IH]; [done|]. cbn [map unmatched_inner]. rewrite IH, filter_cons. destruct (enc_ok schema r Hr) as [_ ->].
  by destruct (F r).
Qed.

Context {W : Type} {WS : Workspace W} {WOK : WorkspaceOk W} (w0 : W) (H0 : ws_holds w0 []).

Lemma fill_inner_ok rows : Forall (fits schema) rows -> forall w done, ws_holds w (map (enc schema) done) ->
  spills W (fill_inner schema (map Ok rows) w) (fun w' => ws_holds w' (map (enc schema) (done ++ rows))).
Proof using DECok.
  induction 1 as [|t rows Ht _ IH]; intros w done Hw; cbn [map fill_inner]; [by rewrite app_nil_r|].
  rewrite bind_Ok. destruct (enc_ok schema t Ht) as [-> _]. rewrite bind_Ok. eapply spills_bind; [by apply ws_spill_ok|].
  intros w' Hw'. eapply spills_impl; [apply (IH w' (done ++ [t])); by rewrite map_app|]. intros w2. by rewrite <- app_assoc.
Qed.

Lemma block_nested_loop_ok L : decides L R ->
  spills W (block_nested_loop_with block_tuples (Ok w0) schema lw rw (Ok (map Ok L)) (Ok (map Ok R)) on jt)
    (fun s => exists out, s = map Ok out /\ out ≡ₚ join_spec m jt lw rw L R).
Proof using DECok HR Hblock H0.
  intros H. unfold block_nested_loop_with. cbn [map_err]. rewrite !bind_Ok. eapply spills_bind; [by apply (fill_inner_ok R HR w0 [])|].
  intros w Hw. rewrite bind_Ok, (ws_read_ok w _ Hw), bind_Ok. cbn [app].
  rewrite map_map. destruct (block_loop_ok (length (map (Ok (E := QueryError)) L)) L (fun _ => false)) as (out & E & Hout); [by rewrite length_map|done|].
  rewrite E, bind_Ok. rewrite unmatched_inner_ok by done. rewrite bind_Ok.
  assert (Hp : forall tail : list Tuple, tail = R ≫= right_pad m jt lw L -> out ++ tail ≡ₚ join_spec m jt lw rw L R)
    by (intros tail ->; unfold join_spec; by rewrite Hout).
  rewrite <- unmatched_flagged. pose proof (right_tail_ok L R) as Ht.
  destruct (keeps_right jt); rewrite bind_Ok; cbn [spills]; eexists; (split; [reflexivity|by apply Hp]).
Qed.
End block.
End nested.

(** ** Sort-merge *)

Section merge.
Context {DEC : RustDecimal} {JS : SerdeJson} {ST : StdText} {CAL : Calendar} {XC : ExprCrates} {DECok : RustDecimalOk}.
Context (ty : LogicalType) (Hty : orderable ty = true).

(** The column holds a value of the type, with this key. *)
Definition has_key (key : nat) (t : Tuple) (k : list byte) : Prop :=
  exists v, values t !! key = Some v /\ comparable ty v /\ encode_key v = Ok k.

Lemma comparable_not_null v : comparable ty v -> is_null v = false.
Proof. clear Hty. intros Hc%comparable_type. by destruct ty, v. Qed.

Lemma has_key_cmp v w kv kw : comparable ty v -> comparable ty w -> encode_key v = Ok kv -> encode_key w = Ok kw ->
  cmp_values v w = Ok (bytes_cmp kv kw) /\ values_eq v w = bool_decide (kv = kw).
Proof using Hty DECok.
  intros Hv Hw Ev Ew. destruct (values_keyed ty v w Hty Hv Hw) as (kv' & kw' & Ev' & Ew' & Ec & Ee & _).
  rewrite Ev in Ev'. rewrite Ew in Ew'. injection Ev' as <-. injection Ew' as <-. by rewrite bytes_eq_cmp.
Qed.

Abbreviation sorted_on kf := (StronglySorted (fun x y : Tuple => bytes_le (kf x) (kf y))).

(** Rows sorted by their keys pass the debug check. *)
Lemma sorted_by_keys key kf rows : (forall t, t ∈ rows -> has_key key t (kf t)) -> sorted_on kf rows -> is_sorted_by rows key = Ok true.
Proof using Hty DECok.
  induction rows as [|a [|b rows] IH]; intros Hk Hs; [done..|]. apply StronglySorted_inv in Hs as [Hs [Hab _]%Forall_cons].
  change (is_sorted_by (a :: b :: rows) key) with (ok ← sorted_pair key a b; if (ok : bool) then is_sorted_by (b :: rows) key else Ok false).
  destruct (Hk a) as (va & Ea & Ca & Ka); [by left|]. destruct (Hk b) as (vb & Eb & Cb & Kb); [right; by left|].
  unfold sorted_pair, value_at. rewrite Ea, Eb, !bind_Ok. rewrite (comparable_not_null _ Ca), (comparable_not_null _ Cb).
  destruct (has_key_cmp va vb _ _ Ca Cb Ka Kb) as [-> _]. destruct (bytes_cmp (kf a) (kf b)) eqn:Ec; [..|by destruct Hab].
  all: cbn [mbind res_bind]; apply IH; [intros t Ht; apply Hk; by right|exact Hs].
Qed.

(** The rows equal to the key, then rows above it. *)
Lemma take_group_ok key kf v kv rows :
  comparable ty v -> encode_key v = Ok kv -> (forall t, t ∈ rows -> has_key key t (kf t)) ->
  sorted_on kf rows -> Forall (fun t => bytes_le kv (kf t)) rows ->
  exists g rest, take_group key v rows = Ok (g, rest) /\ rows = g ++ rest
    /\ Forall (fun t => kf t = kv) g /\ Forall (fun t => bytes_cmp kv (kf t) = Lt) rest.
Proof using Hty DECok.
  intros Cv Ev. induction rows as [|t rows IH]; intros Hk Hs Hle; [by exists [], []|]. cbn [take_group].
  destruct (Hk t ltac:(left)) as (w & Ew & Cw & Kw). unfold value_at. rewrite Ew, bind_Ok.
  destruct (has_key_cmp w v _ _ Cw Cv Kw Ev) as [-> _]. rewrite bind_Ok. apply StronglySorted_inv in Hs as [Hs Ht]. apply Forall_cons in Hle as [Hle1 Hle].
  destruct (bytes_cmp (kf t) kv) eqn:Ec; cbn [cmp_is_eq].
  - destruct IH as (g & rest & -> & -> & Hg & Hr); [intros u Hu; apply Hk; by right|done..|]. exists (t :: g), rest. rewrite bind_Ok.
    split; [done|]. split; [done|]. split; [|done]. constructor; [by apply bytes_cmp_eq|done].
  - exfalso. apply Hle1. by rewrite (cmp_sym bytes_cmp (kf t) kv), Ec.
  - assert (Hlt : bytes_cmp kv (kf t) = Lt) by (by rewrite (cmp_sym bytes_cmp (kf t) kv), Ec).
    exists [], (t :: rows). split; [done|]. split; [done|]. split; [constructor|]. constructor; [done|].
    eapply Forall_impl; [exact Ht|]. intros u Hu. by apply (cmp_lt_le_trans bytes_cmp kv (kf t)).
Qed.

Context (lkey rkey : nat) (kl kr : Tuple -> list byte).
Definition same_key (l r : Tuple) : bool := bool_decide (kl l = kr r).
Abbreviation pairs L R := (L ≫= fun l => R ≫= match_of same_key l).

Lemma no_match l R : Forall (fun r => kl l <> kr r) R -> R ≫= match_of same_key l = [].
Proof.
  intros H. apply bind_nil_all. intros r Hr. rewrite Forall_forall in H. unfold match_of, same_key. by rewrite bool_decide_eq_false_2 by auto.
Qed.

Lemma lt_ne a b : bytes_cmp a b = Lt -> a <> b.
Proof. intros H ->. by rewrite (cmp_refl bytes_cmp) in H. Qed.

Lemma pairs_groups gl L gr R k :
  Forall (fun l => kl l = k) gl -> Forall (fun l => bytes_cmp k (kl l) = Lt) L ->
  Forall (fun r => kr r = k) gr -> Forall (fun r => bytes_cmp k (kr r) = Lt) R ->
  pairs (gl ++ L) (gr ++ R) = product gl gr ++ pairs L R.
Proof.
  intros Hgl HL Hgr HR. rewrite bind_app. f_equal.
  - apply bind_ext_in. intros l Hl. rewrite Forall_forall in Hgl. rewrite bind_app, (no_match l R), app_nil_r.
    + clear -Hgr Hgl Hl. induction Hgr as [|r gr Hr _ IH]; [done|]. rewrite bind_cons, IH. unfold match_of, same_key.
      by rewrite bool_decide_eq_true_2 by (rewrite Hr; auto).
    + eapply Forall_impl; [exact HR|]. intros r Hr. rewrite (Hgl l Hl). by apply lt_ne.
  - apply bind_ext_in. intros l Hl. rewrite Forall_forall in HL. rewrite bind_app, (no_match l gr); [done|].
    eapply Forall_impl; [exact Hgr|]. intros r Hr Heq. apply (lt_ne k (kl l)); [auto|congruence].
Qed.

Lemma merge_join_ok fuel : forall L R, (length L + length R <= fuel)%nat ->
  (forall l, l ∈ L -> has_key lkey l (kl l)) -> (forall r, r ∈ R -> has_key rkey r (kr r)) ->
  sorted_on kl L -> sorted_on kr R ->
  merge_join fuel lkey rkey L R = Ok (pairs L R).
Proof using Hty DECok.
  induction fuel as [|fuel IH]; intros L R Hf HL HR SL SR; (destruct L as [|l L]; [done|]); [cbn in Hf; lia|].
  destruct R as [|r R]; [by rewrite bind_nil_all|]. cbn [merge_join].
  destruct (HL l ltac:(left)) as (lv & El & Cl & Kl), (HR r ltac:(left)) as (rv & Er & Cr & Kr).
  unfold value_at. rewrite El, Er, !bind_Ok, (comparable_not_null lv Cl), (comparable_not_null rv Cr).
  destruct (has_key_cmp lv rv _ _ Cl Cr Kl Kr) as [-> _]. rewrite bind_Ok.
  pose proof (StronglySorted_inv SL) as [SL' Fl]. pose proof (StronglySorted_inv SR) as [SR' Fr].
  assert (HL' : forall l', l' ∈ L -> has_key lkey l' (kl l')) by (intros l' Hl'; apply HL; by right).
  assert (HR' : forall r', r' ∈ R -> has_key rkey r' (kr r')) by (intros r' Hr'; apply HR; by right).
  cbn [length] in Hf. destruct (bytes_cmp (kl l) (kr r)) eqn:Ec.
  - apply bytes_cmp_eq in Ec.
    destruct (take_group_ok lkey kl lv (kl l) (l :: L)) as (gl & L1 & -> & EL & Gl & G1); [done..|by constructor|].
    destruct (take_group_ok rkey kr rv (kr r) (r :: R)) as (gr & R1 & -> & ER & Gr & G2); [done..|by constructor|].
    rewrite !bind_Ok. rewrite EL in SL, HL. rewrite ER in SR, HR. rewrite IH.
    + rewrite bind_Ok. f_equal. rewrite EL, ER. symmetry. apply (pairs_groups gl L1 gr R1 (kl l)); by rewrite ?Ec in *.
    + assert (gl <> []) by (intros ->; cbn [app] in EL; rewrite <- EL in G1; apply Forall_cons in G1 as [G1 _]; by apply lt_ne in G1).
      apply (f_equal length) in EL, ER. rewrite length_app in EL, ER. cbn in EL, ER. destruct gl; [done|]. cbn in EL. lia.
    + intros l' Hl'. apply HL, elem_of_app. by right.
    + intros r' Hr'. apply HR, elem_of_app. by right.
    + by apply StronglySorted_app_1_r in SL.
    + by apply StronglySorted_app_1_r in SR.
  - rewrite IH; [|cbn; lia|done..]. rewrite bind_cons, no_match; [done|]. constructor; [by apply lt_ne|].
    eapply Forall_impl; [exact Fr|]. intros r' Hr'. by apply lt_ne, (cmp_lt_le_trans bytes_cmp _ (kr r)).
  - rewrite IH; [|cbn; lia|done..]. f_equal. apply bind_ext_in. intros l' Hl'. rewrite bind_cons.
    assert (match_of same_key l' r = []) as ->; [|done]. unfold match_of, same_key. rewrite bool_decide_eq_false_2; [done|].
    apply (cmp_gt_lt bytes_cmp) in Ec. apply not_eq_sym, lt_ne. apply elem_of_cons in Hl' as [->|Hl']; [done|].
    rewrite Forall_forall in Fl. by apply (cmp_lt_le_trans bytes_cmp _ (kl l)), Fl.
Qed.
End merge.

(** ** The plans *)

Section plans.
Context {DEC : RustDecimal} {JS : SerdeJson} {ST : StdText} {CAL : Calendar} {XC : ExprCrates} {DECok : RustDecimalOk}.

(** The workspace a block nested loop starts with. *)
Definition inner_workspace : MemoryWorkspace := MkMW (pool_new INNER_WORKSPACE_BUDGET) [].

Lemma inner_workspace_new : MemoryWorkspace_new INNER_WORKSPACE_BUDGET = Ok inner_workspace.
Proof. reflexivity. Qed.

Lemma inner_workspace_empty : ws_holds inner_workspace [].
Proof. split; cbn [inner_workspace mw_blocks mw_pool pool_new p_cap p_in_use length]; [exists []; split; [constructor|done]|done..]. Qed.

(** The nested-loop joins compute the join.  When the predicate evaluates on
    every pair of rows, the tuple-at-a-time join yields exactly [join_spec]: each
    left row with its matches, or padded if the join keeps it, then the unmatched
    right rows padded if the join keeps them.  The block nested loop, which spills
    the inner side to a memory workspace and scans it once per block of outer
    rows, yields the same rows up to order, or the refusal of a workspace that is
    full (or of a row no page can hold). *)
Theorem nested_loops_join (on : option Expr) (jt : JoinType) (lw rw : nat) (m : Tuple -> Tuple -> bool) (schema : Schema) (L R : list Tuple) :
  Forall (fits schema) R -> decides on m L R ->
  nested_loop_join lw rw (Ok (map Ok L)) (Ok (map Ok R)) on jt = Ok (map Ok (join_spec m jt lw rw L R))
  /\ spills MemoryWorkspace (block_nested_loop_join lw rw (Ok (map Ok L)) (Ok (map Ok R)) on jt schema)
       (fun s => exists out, s = map Ok out /\ out ≡ₚ join_spec m jt lw rw L R).
Proof using DECok.
  intros HR Hm. split; [by apply nested_loop_ok|]. unfold block_nested_loop_join. rewrite inner_workspace_new.
  apply block_nested_loop_ok; [done|done|unfold OUTER_BLOCK_TUPLES; lia|exact inner_workspace_empty|done].
Qed.

Context {CRC : Crc32} {CRCok : Crc32Ok} {CRCc : Crc32c} {CRCcok : Crc32cOk}.

Lemma asc_key_bytes ty key t k : orderable ty = true -> has_key ty key t k ->
  sort_key_bytes t [MkSortKey (EColumn key) true false] = Ok [x00 :: k].
Proof using DECok.
  intros Ho (v & Ev & Cv & Kv). cbn [sort_key_bytes sk_expr eval]. rewrite Ev, bind_Ok. unfold sort_part.
  rewrite (comparable_not_null ty v Cv). cbn [sk_nulls_first sk_ascending]. by rewrite Kv.
Qed.

Lemma sorted_impl {A} (P Q : A -> A -> Prop) l : (forall x y, P x y -> Q x y) -> StronglySorted P l -> StronglySorted Q l.
Proof. intros H. induction 1 as [|x l _ IH Hx]; constructor; [done|]. eapply Forall_impl; [exact Hx|]. auto. Qed.

(** A [Sort] enforcer on a key column sorts by the key. *)
Lemma enforcer_sorts ty limit w0 key kf schema ts :
  orderable ty = true -> FileWorkspace_new limit SORT_RUN_MEMORY SORT_RUN_DISK = Ok w0 -> Forall (fits schema) ts ->
  (forall t, t ∈ ts -> has_key ty key t (kf t)) ->
  spills FileWorkspace (sort limit (map Ok ts) [MkSortKey (EColumn key) true false] schema)
    (fun s => exists out, s = map Ok out /\ out ≡ₚ ts /\ StronglySorted (fun x y => bytes_le (kf x) (kf y)) out).
Proof using DECok CRCok CRCcok.
  intros Ho E Hf Hk. unfold sort. rewrite E. eapply spills_impl.
  - apply (sort_with_ok (WOK := FileWorkspace_ok) _ schema (fun t => [x00 :: kf t]) SORT_RUN_TUPLES w0 (fw_new_holds _ _ _ _ E)).
    apply Forall_forall. intros t Ht. rewrite Forall_forall in Hf. split; [by apply Hf|]. by apply (asc_key_bytes ty), Hk.
  - intros s (out & -> & Hp & Hs & _). exists out. split; [done|]. split; [done|]. revert Hs. apply sorted_impl. intros x y. unfold cmp_le. cbn. by destruct (bytes_cmp (kf x) (kf y)).
Qed.

Lemma equi_keys_of on la lk rk : equi_join_keys on la = Some (lk, rk) -> equi_keys on la = Ok (lk, rk).
Proof. unfold equi_join_keys, equi_keys. destruct on as [[| |op e1 e2| | | | | | | |]|]; try done. destruct op; try done. destruct e1; try done. destruct e2; try done. by repeat case_match; intros [= -> ->]. Qed.

(** An equality of columns evaluates on the two columns, in either order. *)
Lemma equi_eval on la lk rk l r lv rv :
  equi_join_keys on la = Some (lk, rk) -> length (values l) = la -> values l !! lk = Some lv -> values r !! rk = Some rv ->
  on_matches on (concat_rows l r) = map_ok is_true (eval_binary OpEq lv rv)
  \/ on_matches on (concat_rows l r) = map_ok is_true (eval_binary OpEq rv lv).
Proof.
  intros Ek Hl El Er. destruct on as [[| |op e1 e2| | | | | | | |]|]; try done. destruct op; try done.
  destruct e1 as [a| | | | | | | | | |]; try done. destruct e2 as [b| | | | | | | | | |]; try done.
  unfold equi_join_keys in Ek. cbn [on_matches eval concat_rows values].
  destruct (Nat.ltb_spec a la), (Nat.leb_spec la b); cbn [andb] in Ek;
    try (destruct (Nat.ltb_spec b la), (Nat.leb_spec la a); cbn [andb] in Ek; try lia; try done); injection Ek as <- <-.
  - left. rewrite (lookup_app_l _ _ a), El, (lookup_app_r _ _ b), Hl, Er, !bind_Ok by lia. by destruct (eval_binary OpEq lv rv).
  - right. rewrite (lookup_app_r _ _ a), Hl, Er, (lookup_app_l _ _ b), El, !bind_Ok by lia. by destruct (eval_binary OpEq rv lv).
Qed.

Lemma eval_eq_key ty v w kv kw : orderable ty = true -> comparable ty v -> comparable ty w -> encode_key v = Ok kv -> encode_key w = Ok kw ->
  map_ok is_true (eval_binary OpEq v w) = Ok (bool_decide (kv = kw)).
Proof using DECok.
  intros Ho Cv Cw Kv Kw. destruct (has_key_cmp ty Ho v w _ _ Cv Cw Kv Kw) as [_ E]. unfold eval_binary. cbn [short_circuit].
  rewrite (comparable_not_null _ _ Cv), (comparable_not_null _ _ Cw), E. cbn. by destruct (bool_decide (kv = kw)).
Qed.

(** An equality of key columns compares the keys. *)
Lemma equi_decides ty on la lk rk kl kr l r :
  orderable ty = true -> equi_join_keys on la = Some (lk, rk) -> length (values l) = la ->
  has_key ty lk l (kl l) -> has_key ty rk r (kr r) -> on_matches on (concat_rows l r) = Ok (same_key kl kr l r).
Proof using DECok.
  intros Ho Ek Hl (lv & El & Cl & Kl) (rv & Er & Cr & Kr). unfold same_key.
  destruct (equi_eval _ _ _ _ _ _ _ _ Ek Hl El Er) as [->| ->]; rewrite (eval_eq_key ty _ _ _ _ Ho) by done; [done|].
  f_equal. by apply bool_decide_ext.
Qed.

Lemma join_spec_inner m lw rw L R : join_spec m JInner lw rw L R ≡ₚ L ≫= fun l => R ≫= match_of m l.
Proof. rewrite join_spec_parts, (bind_nil_all (left_pad m JInner rw R)), (bind_nil_all (right_pad m JInner lw L)), app_nil_r; done. Qed.

(** Merging two inputs that come sorted by their keys. *)
Lemma merge_rows_ok bad halts ty on la lk rk rw (kl kr : Tuple -> list byte) (L R : list Tuple) (ls rs : res QueryError (list (res QueryError Tuple))) :
  orderable ty = true -> equi_join_keys on la = Some (lk, rk) ->
  (forall l, l ∈ L -> has_key ty lk l (kl l)) -> (forall r, r ∈ R -> has_key ty rk r (kr r)) ->
  outcome bad halts ls (fun s => exists out, s = map Ok out /\ out ≡ₚ L /\ StronglySorted (fun x y => bytes_le (kl x) (kl y)) out) ->
  outcome bad halts rs (fun s => exists out, s = map Ok out /\ out ≡ₚ R /\ StronglySorted (fun x y => bytes_le (kr x) (kr y)) out) ->
  outcome bad halts (sort_merge_join la ls rs on JInner) (fun s => exists out, s = map Ok out /\ out ≡ₚ join_spec (same_key kl kr) JInner la rw L R).
Proof using DECok.
  intros Ho Ek KL KR HL HR. unfold sort_merge_join. cbn [debug_assert]. rewrite bind_Ok, (equi_keys_of _ _ _ _ Ek), bind_Ok.
  eapply outcome_bind; [exact HL|]. intros s (L' & -> & PL & SL). rewrite collect_rows, bind_Ok.
  eapply outcome_bind; [exact HR|]. intros s (R' & -> & PR & SR). rewrite collect_rows, bind_Ok.
  assert (forall l, l ∈ L' -> has_key ty lk l (kl l)) as KL' by (intros l Hl; apply KL; by rewrite <- PL).
  assert (forall r, r ∈ R' -> has_key ty rk r (kr r)) as KR' by (intros r Hr; apply KR; by rewrite <- PR).
  rewrite (sorted_by_keys ty Ho lk kl L' KL' SL), (sorted_by_keys ty Ho rk kr R' KR' SR). cbn [debug_assert]. rewrite !bind_Ok.
  rewrite (merge_join_ok ty Ho lk rk kl kr); [|done|exact KL'|exact KR'|exact SL|exact SR].
  rewrite bind_Ok. eexists. split; [done|]. rewrite <- join_spec_inner. apply join_spec_perm; [exact PL|exact PR].
Qed.

(** The plan lowering picks for an inner equi-join computes the join.  For
    [left JOIN right ON a = b] on columns of one orderable type, every key a value
    of that type and none NULL, sorting each input on its key through scratch
    files and merging them yields the rows of the nested-loop join, up to order;
    the only other outcome is a scratch file's refusal. *)
Theorem merge_join_plan (ty : LogicalType) (limit : Z) (w0 : FileWorkspace) (on : option Expr) (lk rk rw : nat) (ls rs : Schema)
    (kl kr : Tuple -> list byte) (L R : list Tuple) :
  orderable ty = true -> FileWorkspace_new limit SORT_RUN_MEMORY SORT_RUN_DISK = Ok w0 ->
  equi_join_keys on (length (fields ls)) = Some (lk, rk) -> Forall (fits ls) L -> Forall (fits rs) R ->
  (forall l, l ∈ L -> has_key ty lk l (kl l)) -> (forall r, r ∈ R -> has_key ty rk r (kr r)) ->
  exists nl, nested_loop_join (length (fields ls)) rw (Ok (map Ok L)) (Ok (map Ok R)) on JInner = Ok (map Ok nl)
    /\ spills FileWorkspace
         (sort_merge_join (length (fields ls)) (sort limit (map Ok L) [MkSortKey (EColumn lk) true false] ls)
            (sort limit (map Ok R) [MkSortKey (EColumn rk) true false] rs) on JInner)
         (fun s => exists out, s = map Ok out /\ out ≡ₚ nl).
Proof using DECok CRCok CRCcok.
  intros Ho E Ek HL HR KL KR. eexists. split.
  - apply (nested_loop_ok on JInner _ rw (same_key kl kr)). intros l r Hl Hr. eapply (equi_decides ty); eauto.
    rewrite Forall_forall in HL. symmetry. by apply (Forall2_length _ _ _ (HL l Hl)).
  - eapply (merge_rows_ok _ _ ty); [done|done|done|done|by eapply (enforcer_sorts ty)..].
Qed.
End plans.

(** ** On concrete rows *)

Section witness.
Import Journal.Ieee Castagnoli PlainDecimal PlainJson PlainCrates.

Definition on_first : option Expr := Some (EBinary OpEq (EColumn 0) (EColumn 2)).
Definition first_key (t : Tuple) : list byte := match values t with v :: _ => match encode_key v with Ok k => k | _ => [] end | [] => [] end.
Definition some_rows : list Tuple := [int_row 7 1; int_row (-3) 2; int_row 7 3].

Lemma some_rows_fit : Forall (fits two_ints) some_rows.
Proof. repeat (apply Forall_cons; split); try apply Forall_nil_2; apply int_row_fits; unfold is_int; lia. Qed.

Lemma some_rows_keys t : t ∈ some_rows -> has_key TInt32 0 t (first_key t).
Proof.
  intros Ht. assert (exists k id, t = int_row k id /\ is_int 32 k) as (k & id & -> & Hk).
  { unfold some_rows in Ht. rewrite !elem_of_cons in Ht. destruct Ht as [->|[->|[->|H]]]; [..|by apply elem_of_nil in H]; do 2 eexists; (split; [done|unfold is_int; lia]). }
  exists (VInt32 k). split; [done|]. split; [done|reflexivity].
Qed.

(** [left JOIN right ON left.k = right.k], one left key NULL.  The nested loop
    yields the match; the merge, past the last matching group, compares the NULL
    and fails, although NULL keys are to be skipped. *)
Example null_key_after_match_fails :
  let L := [int_row 7 1; MkTuple [VNull; VInt32 2]] in
  let R := [int_row 7 3] in
  map_ok (map (map_ok ints)) (nested_loop_join 2 2 (Ok (map Ok L)) (Ok (map Ok R)) on_first JInner) = Ok [Ok [7; 1; 7; 3]]
  /\ is_sorted_by L 0 = Ok true
  /\ map_ok (map (map_ok ints)) (sort_merge_join 2 (Ok (map Ok L)) (Ok (map Ok R)) on_first JInner) = Err (QType "cannot compare").
Proof. vm_compute. auto. Qed.

(** The same keys with no match to end in: the NULL is skipped. *)
Example null_key_alone_is_skipped :
  let L := [int_row 6 1; MkTuple [VNull; VInt32 2]] in
  map_ok (map (map_ok ints)) (sort_merge_join 2 (Ok (map Ok L)) (Ok (map Ok [int_row 7 3])) on_first JInner) = Ok [].
Proof. vm_compute. reflexivity. Qed.

(** [BYTEA] keys: equal for the nested loop, an error for the merge. *)
Example bytea_join_fails :
  let t := MkTuple [VBytes [x01]; VInt32 1] in
  map_ok length (nested_loop_join 2 2 (Ok [Ok t]) (Ok [Ok t]) on_first JInner) = Ok 1%nat
  /\ map_ok length (sort_merge_join 2 (Ok [Ok t]) (Ok [Ok t]) on_first JInner) = Err (QType "cannot compare").
Proof. vm_compute. auto. Qed.
End witness.
