(* ===== verification/GraceHash.v ===== *)
(** * Grace hash join

    query/volcano/join/grace.rs: both inputs hash-partitioned to scratch files,
    then each pair of buckets built and probed, an over-budget pair being
    repartitioned with another seed first.

    [GraceHashStream::next] is its loop, one turn at a time ([turn_of]); a pop of
    the worklist that ends in a repartition is a turn of its own, since the loop
    comes back to the same place.  The hash table is a finite map: the order of
    its values is no part of the claim made of it.  xxh3 is a parameter. *)

From Stdlib Require Import Strings.Byte Strings.String ZArith Lia.
From stdpp Require Import prelude list gmap.
From S2P Require Import Prelude BlockStore BlockJournal Journal Page TuplePage Workspace Value ValueCodec Compare KeyCodec RustText Temporal Expression SystemCatalog Plan Spill Joins.
Local Open Scope Z_scope.

Class Xxh3 := { xxh3_64_with_seed : list byte -> Z -> Z }.

Definition MAX_REPARTITION_LEVELS : nat := 2.
Definition BUCKET_SEED : Z := 0xdeadbeefcafebabe.

(** [hash % hash_partitions]: a remainder by zero panics. *)
Definition bucket {H : Xxh3} (key : list byte) (level hash_partitions : nat) : res QueryError nat :=
  let seed := Z.lxor BUCKET_SEED (wrap64 (wrap64 (Z.of_nat level) * 0x9e3779b97f4a7c15)) in
  if (hash_partitions =? 0)%nat then Panic
  else Ok (Z.to_nat (xxh3_64_with_seed key seed mod Z.of_nat hash_partitions)).

Record BuildEntry {DEC : RustDecimal} {JS : SerdeJson} : Type := MkBuildEntry { be_row : Tuple; be_matched : bool }.
Arguments MkBuildEntry {DEC JS} be_row be_matched.

(** Join-key bytes to the build rows carrying that key. *)
Abbreviation HashTable := (gmap (list byte) (list BuildEntry)).

Section grace.
Context {DEC : RustDecimal} {JS : SerdeJson} {H : Xxh3}.
Abbreviation RowStream := (list (res QueryError Tuple)).

Definition key_bytes (v : Value) : res QueryError (option (list byte)) :=
  if is_null v then Ok None
  else k ← map_err (fun _ => QType "cannot hash this join key") (encode_key v); Ok (Some k).

(** [key_bytes(&tuple.values[key])?.expect("null keys never partition")]. *)
Definition row_key_bytes (t : Tuple) (key : nat) : res QueryError (list byte) :=
  v ← value_at t key;
  o ← key_bytes v;
  match o with Some k => Ok k | None => Panic end.

Record HashJoinParams : Type := MkHashJoinParams
  { hj_join_type : JoinType; hj_left_key : nat; hj_right_key : nat; hj_left_width : nat; hj_right_width : nat;
    hj_left_schema : Schema; hj_right_schema : Schema; hj_config : JoinConfig }.

Definition build_of (p : HashJoinParams) (build_is_left : bool) : Schema * nat :=
  if build_is_left then (hj_left_schema p, hj_left_key p) else (hj_right_schema p, hj_right_key p).
Definition probe_of (p : HashJoinParams) (build_is_left : bool) : Schema * nat :=
  if build_is_left then (hj_right_schema p, hj_right_key p) else (hj_left_schema p, hj_left_key p).

(** ** The hash table *)

(** [table.entry(k).or_default().push(entry)]. *)
Definition table_push (k : list byte) (e : BuildEntry) (table : HashTable) : HashTable :=
  <[k := default [] (table !! k) ++ [e]]> table.

(** The tuples of a bucket into the table; [None] once they pass the budget. *)
Fixpoint build_rows (schema : Schema) (key : nat) (cap : option Z) (tuples : list (list byte)) (used : Z) (table : HashTable) : res QueryError (option HashTable) :=
  match tuples with
  | [] => Ok (Some table)
  | bytes :: tuples' =>
      let used := used + Z.of_nat (length bytes) in
      if (match cap with Some budget => budget <? used | None => false end) then Ok None
      else
        t ← map_err QDecode (schema_decode schema bytes);
        k ← row_key_bytes t key;
        build_rows schema key cap tuples' used (table_push k (MkBuildEntry t false) table)
  end.

Record Probe : Type := MkProbe
  { pb_table : HashTable; pb_build_is_left : bool; pb_cursor : list (list byte); pb_pending : list Tuple; pb_unmatched : option (list Tuple) }.

Definition Probe_new (table : HashTable) (build_is_left : bool) (cursor : list (list byte)) : Probe :=
  MkProbe table build_is_left cursor [] None.

(** An unmatched probe row, kept by the outer side it belongs to. *)
Definition probe_pad (p : HashJoinParams) (build_is_left : bool) (probe : Tuple) : list Tuple :=
  if build_is_left then (if keeps_right (hj_join_type p) then [pad_left (hj_left_width p) probe] else [])
  else (if keeps_left (hj_join_type p) then [pad_right probe (hj_right_width p)] else []).

(** [probe_one]: the probe's output rows become pending. *)
Definition probe_one (p : HashJoinParams) (st : Probe) (bytes : list byte) : res QueryError Probe :=
  let bil := pb_build_is_left st in
  let '(schema, key) := probe_of p bil in
  probe ← map_err QDecode (schema_decode schema bytes);
  k ← row_key_bytes probe key;
  let entries := default [] (pb_table st !! k) in
  let out := map (fun e => if bil then concat_rows (be_row e) probe else concat_rows probe (be_row e)) entries in
  let table := match pb_table st !! k with
               | Some es => <[k := map (fun e => MkBuildEntry (be_row e) true) es]> (pb_table st)
               | None => pb_table st
               end in
  Ok (MkProbe table bil (pb_cursor st) (if (length out =? 0)%nat then probe_pad p bil probe else out) (pb_unmatched st)).

(** [unmatched_build_tail]: the table is taken when the build side is kept. *)
Definition unmatched_build_tail (p : HashJoinParams) (st : Probe) : list Tuple * HashTable :=
  let bil := pb_build_is_left st in
  let keeps_unmatched := if bil then keeps_left (hj_join_type p) else keeps_right (hj_join_type p) in
  if negb keeps_unmatched then ([], pb_table st)
  else
    let entries := List.concat (map_to_list (pb_table st)).*2 in
    (map (fun e => if bil then pad_right (be_row e) (hj_right_width p) else pad_left (hj_left_width p) (be_row e))
       (filter (fun e => be_matched e = false) entries), ∅).

(** ** Partitioning *)

Section buckets.
Context {W : Type} {WS : Workspace W} (new_bucket : res Error W).

Definition new_buckets (config : JoinConfig) : res QueryError (list W) :=
  collect_res (replicate (hash_partitions config) (map_err (fun _ => QInternal "hash join bucket") new_bucket)).

(** [spill(&mut parts[i], bytes)?]. *)
Definition spill (parts : list W) (i : nat) (bytes : list byte) : res QueryError (list W) :=
  match parts !! i with
  | None => Panic
  | Some part => part ← ws_spill "hash join spill" bytes part; Ok (<[i := part]> parts)
  end.

Fixpoint partition_input (rows : RowStream) (key : nat) (schema : Schema) (hash_partitions : nat) (parts : list W) (nulls : list Tuple) : res QueryError (list W * list Tuple) :=
  match rows with
  | [] => Ok (parts, nulls)
  | row :: rows' =>
      t ← row;
      v ← value_at t key;
      o ← key_bytes v;
      match o with
      | None => partition_input rows' key schema hash_partitions parts (nulls ++ [t])
      | Some k =>
          i ← bucket k 0 hash_partitions;
          bytes ← schema_encode schema t;
          parts ← spill parts i bytes;
          partition_input rows' key schema hash_partitions parts nulls
      end
  end.

Fixpoint respill (tuples : list (list byte)) (key : nat) (schema : Schema) (level hash_partitions : nat) (parts : list W) : res QueryError (list W) :=
  match tuples with
  | [] => Ok parts
  | bytes :: tuples' =>
      t ← map_err QDecode (schema_decode schema bytes);
      k ← row_key_bytes t key;
      i ← bucket k level hash_partitions;
      parts ← spill parts i bytes;
      respill tuples' key schema level hash_partitions parts
  end.

Definition repartition (src : W) (key : nat) (schema : Schema) (level : nat) (config : JoinConfig) : res QueryError (list W) :=
  parts ← new_buckets config;
  tuples ← ws_read src;
  respill tuples key schema level (hash_partitions config) parts.

(** ** The stream *)

Record GraceHashStream : Type := MkGrace
  { gh_worklist : list (W * W * nat); gh_current : option Probe; gh_left_nulls : list Tuple; gh_right_nulls : list Tuple; gh_failed : bool }.

Definition with_current (c : option Probe) (st : GraceHashStream) : GraceHashStream :=
  MkGrace (gh_worklist st) c (gh_left_nulls st) (gh_right_nulls st) (gh_failed st).
Definition with_worklist (wl : list (W * W * nat)) (st : GraceHashStream) : GraceHashStream :=
  MkGrace wl (gh_current st) (gh_left_nulls st) (gh_right_nulls st) (gh_failed st).
Definition with_nulls (ls rs : list Tuple) (st : GraceHashStream) : GraceHashStream :=
  MkGrace (gh_worklist st) (gh_current st) ls rs (gh_failed st).
Definition fail (st : GraceHashStream) : GraceHashStream :=
  MkGrace (gh_worklist st) (gh_current st) (gh_left_nulls st) (gh_right_nulls st) true.

Context (p : HashJoinParams).

(** One popped pair: the smaller side is built; too large for the budget, both
    sides are repartitioned and the pairs pushed one level deeper. *)
Definition build_pair (left_ws right_ws : W) (level : nat) (st : GraceHashStream) : res QueryError GraceHashStream :=
  let build_is_left := ws_used left_ws <=? ws_used right_ws in
  let '(build_ws, probe_ws) := if build_is_left then (left_ws, right_ws) else (right_ws, left_ws) in
  let '(build_schema, build_key) := build_of p build_is_left in
  let cap := if (level <? MAX_REPARTITION_LEVELS)%nat then Some (build_budget (hj_config p)) else None in
  tuples ← ws_read build_ws;
  o ← build_rows build_schema build_key cap tuples 0 ∅;
  match o with
  | Some table => cursor ← ws_read probe_ws; Ok (with_current (Some (Probe_new table build_is_left cursor)) st)
  | None =>
      let '(probe_schema, probe_key) := probe_of p build_is_left in
      build_sub ← repartition build_ws build_key build_schema (S level) (hj_config p);
      probe_sub ← repartition probe_ws probe_key probe_schema (S level) (hj_config p);
      let pairs := zip_with (fun b q => if build_is_left then (b, q, S level) else (q, b, S level)) build_sub probe_sub in
      Ok (with_worklist (gh_worklist st ++ pairs) st)
  end.

Inductive turn : Type :=
| Yield (r : res QueryError Tuple) (st : GraceHashStream)
| Continue (st : GraceHashStream)
| Exhausted.

Definition or_fail (r : res QueryError GraceHashStream) (st : GraceHashStream) : turn :=
  match r with
  | Ok st' => Continue st'
  | Err e => Yield (Err e) (fail st)
  | Panic => Yield Panic (fail st)
  end.

Definition probe_turn (pb : Probe) (st : GraceHashStream) : turn :=
  let upd pending cursor unmatched table := with_current (Some (MkProbe table (pb_build_is_left pb) cursor pending unmatched)) st in
  match pb_pending pb with
  | t :: pending => Yield (Ok t) (upd pending (pb_cursor pb) (pb_unmatched pb) (pb_table pb))
  | [] =>
      match pb_unmatched pb with
      | Some (t :: tail) => Yield (Ok t) (upd [] (pb_cursor pb) (Some tail) (pb_table pb))
      | Some [] => Continue (with_current None st)
      | None =>
          match pb_cursor pb with
          | bytes :: cursor =>
              or_fail (pb' ← probe_one p (MkProbe (pb_table pb) (pb_build_is_left pb) cursor [] None) bytes; Ok (with_current (Some pb') st)) st
          | [] => let '(tail, table) := unmatched_build_tail p pb in Continue (upd [] [] (Some tail) table)
          end
      end
  end.

Definition null_turn (st : GraceHashStream) : turn :=
  match keeps_left (hj_join_type p), gh_left_nulls st with
  | true, t :: ls => Yield (Ok (pad_right t (hj_right_width p))) (with_nulls ls (gh_right_nulls st) st)
  | _, _ =>
      match keeps_right (hj_join_type p), gh_right_nulls st with
      | true, t :: rs => Yield (Ok (pad_left (hj_left_width p) t)) (with_nulls (gh_left_nulls st) rs st)
      | _, _ => Exhausted
      end
  end.

Definition turn_of (st : GraceHashStream) : turn :=
  if gh_failed st then Exhausted
  else
    match gh_current st with
    | Some pb => probe_turn pb st
    | None =>
        match vec_pop (gh_worklist st) with
        | Some ((left_ws, right_ws, level), wl) => or_fail (build_pair left_ws right_ws level (with_worklist wl st)) (with_worklist wl st)
        | None => null_turn st
        end
    end.

(** The rows a caller that drains the stream sees in [fuel] turns. *)
Fixpoint grace_rows (fuel : nat) (st : GraceHashStream) : RowStream :=
  match fuel with
  | O => []
  | S fuel' =>
      match turn_of st with
      | Yield r st' => r :: grace_rows fuel' st'
      | Continue st' => grace_rows fuel' st'
      | Exhausted => []
      end
  end.
End buckets.

(** Phase 1: both inputs partitioned, NULL keys set aside. *)
Definition grace_open {W} {WS : Workspace W} (new_bucket : res Error W) (left_width right_width : nat) (left right : res QueryError RowStream) (on : option Expr) (join_type : JoinType) (left_schema right_schema : Schema) (config : JoinConfig) : res QueryError (HashJoinParams * GraceHashStream) :=
  '(left_key, right_key) ← equi_keys on left_width;
  let p := MkHashJoinParams join_type left_key right_key left_width right_width left_schema right_schema config in
  left_parts ← new_buckets new_bucket config;
  right_parts ← new_buckets new_bucket config;
  left ← left;
  '(left_parts, left_nulls) ← partition_input left left_key left_schema (hash_partitions config) left_parts [];
  right ← right;
  '(right_parts, right_nulls) ← partition_input right right_key right_schema (hash_partitions config) right_parts [];
  Ok (p, MkGrace (zip_with (fun l r => (l, r, O)) left_parts right_parts) None left_nulls right_nulls false).

Definition grace_hash_with {W} {WS : Workspace W} (new_bucket : res Error W) (fuel left_width right_width : nat) (left right : res QueryError RowStream) (on : option Expr) (join_type : JoinType) (left_schema right_schema : Schema) (config : JoinConfig) : res QueryError RowStream :=
  '(p, st) ← grace_open new_bucket left_width right_width left right on join_type left_schema right_schema config;
  Ok (grace_rows new_bucket p fuel st).
End grace.

(** [grace_hash_join]: every bucket in a scratch file. *)
Definition grace_hash_join {DEC : RustDecimal} {JS : SerdeJson} {H : Xxh3} {CRC : Crc32} {CRCc : Crc32c} (limit : Z) (fuel left_width right_width : nat) (left right : res QueryError (list (res QueryError Tuple))) (on : option Expr) (join_type : JoinType) (left_schema right_schema : Schema) (config : JoinConfig) : res QueryError (list (res QueryError Tuple)) :=
  grace_hash_with (FileWorkspace_new limit (partition_memory config) (partition_disk config)) fuel left_width right_width left right on join_type left_schema right_schema config.
