(* ===== verification/GraceHashOk.v ===== *)
(** * The grace hash join computes the join

    Whatever the hash, the budget and the sides chosen, the drained stream holds
    the rows of [join_spec]: buckets never match across, a pair's probe and its
    tail are the join of the pair, and a repartition only splits it further. *)

From Stdlib Require Import Strings.Byte Strings.String ZArith Lia Permutation.
From stdpp Require Import prelude list gmap.
From S2P Require Import Prelude BlockStore BlockJournal Journal Page TuplePage Workspace Value ValueCodec Compare KeyCodec RustText Temporal Expression ExprTyping SystemCatalog Plan Spill Sort SortOk Joins JoinsOk GraceHash.
Local Open Scope Z_scope.

(** ** The table *)

Section table.
Context {DEC : RustDecimal} {JS : SerdeJson} (key : Tuple -> list byte).

(** The rows of [B] by key, flagged by key. *)
Definition table_ok (G : list byte -> bool) (B : list Tuple) (tbl : HashTable) : Prop :=
  forall k, tbl !! k = match filter (fun b => key b = k) B with [] => None | l => Some (map (fun b => MkBuildEntry b (G k)) l) end.

Lemma table_empty G : table_ok G [] ∅.
Proof. intros k. apply lookup_empty. Qed.

Lemma table_push_ok B tbl b : table_ok (fun _ => false) B tbl -> table_ok (fun _ => false) (B ++ [b]) (table_push (key b) (MkBuildEntry b false) tbl).
Proof.
  intros Ht k. unfold table_push. rewrite filter_app. destruct (decide (key b = k)) as [<-|Hk].
  - rewrite lookup_insert_eq, Ht, filter_cons_True by done. cbn [filter list_filter].
    destruct (filter (fun b0 => key b0 = key b) B) as [|x l]; [done|]. cbn [default app map]. by rewrite map_app.
  - rewrite lookup_insert_ne, Ht, filter_cons_False by done. by rewrite app_nil_r.
Qed.

(** What a probe with a key finds. *)
Lemma table_entries G B tbl k : table_ok G B tbl ->
  default [] (tbl !! k) = map (fun b => MkBuildEntry b (G k)) (filter (fun b => key b = k) B).
Proof. intros Ht. rewrite Ht. by destruct (filter _ B). Qed.

Lemma table_probed G B tbl k : table_ok G B tbl ->
  table_ok (fun k' => bool_decide (k' = k) || G k') B
    (match tbl !! k with Some es => <[k := map (fun e => MkBuildEntry (be_row e) true) es]> tbl | None => tbl end).
Proof.
  intros Ht k'. pose proof (Ht k) as Hk. destruct (decide (k' = k)) as [->|Hne].
  - rewrite bool_decide_eq_true_2 by done. rewrite Hk. destruct (filter _ B) as [|x l]; [by rewrite Hk|].
    rewrite lookup_insert_eq. cbn [orb]. by rewrite map_map.
  - rewrite bool_decide_eq_false_2 by done. rewrite <- Ht. destruct (tbl !! k); [by rewrite lookup_insert_ne|done].
Qed.

Abbreviation all_entries tbl := (List.concat (map_to_list (tbl : HashTable)).*2).

Lemma entries_insert tbl k es : all_entries (<[k := es]> tbl) ≡ₚ es ++ all_entries (delete k tbl).
Proof.
  rewrite <- insert_delete_eq. rewrite (map_to_list_insert (delete k tbl) k es) by apply lookup_delete_eq. done.
Qed.

Lemma entries_split tbl k : all_entries tbl ≡ₚ default [] (tbl !! k) ++ all_entries (delete k tbl).
Proof.
  destruct (tbl !! k) as [es|] eqn:E; [|by rewrite delete_id]. rewrite <- (insert_id tbl k es E) at 1. apply entries_insert.
Qed.

(** All entries: every row of [B] once. *)
Lemma table_rows G B tbl : table_ok G B tbl -> all_entries tbl ≡ₚ map (fun b => MkBuildEntry b (G (key b))) B.
Proof.
  remember (length B) as n eqn:En. revert B En tbl. induction (lt_wf n) as [n _ IH]. intros B -> tbl Ht.
  destruct B as [|b B].
  - assert (tbl = ∅) as -> by (apply map_eq; intros k; by rewrite Ht). done.
  - rewrite (entries_split tbl (key b)), (table_entries G _ tbl _ Ht).
    rewrite (IH (length (filter (fun x => key x <> key b) (b :: B))) ltac:(rewrite filter_cons_False by auto; pose proof (length_filter (fun x => key x <> key b) B); cbn; lia)
      (filter (fun x => key x <> key b) (b :: B)) eq_refl).
    + rewrite <- (map_ext_in (fun x => MkBuildEntry x (G (key x)))); [|intros x Hx%list_elem_of_In%list_elem_of_filter; f_equal; f_equal; by destruct Hx].
      rewrite <- map_app. apply Permutation_map, filter_app_complement.
    + intros k. destruct (decide (k = key b)) as [->|Hk].
      * rewrite lookup_delete_eq. destruct (filter _ (filter _ _)) as [|x l] eqn:E; [done|]. exfalso.
        assert (x ∈ x :: l) as Hx by left. rewrite <- E in Hx. apply list_elem_of_filter in Hx as [? [? _]%list_elem_of_filter]. done.
      * rewrite lookup_delete_ne, Ht, list_filter_filter by done. erewrite list_filter_iff; [reflexivity|]. intros x. cbn beta. intuition congruence.
Qed.
End table.

(** ** Turns *)

Section turns.
Context {DEC : RustDecimal} {JS : SerdeJson} {H : Xxh3} {W : Type} {WS : Workspace W} {WOK : WorkspaceOk W}.
Context (new_bucket : res Error W) (p : HashJoinParams).
Abbreviation run := (grace_rows new_bucket p).
Abbreviation turn_of := (turn_of new_bucket p).

(** From [st] to [st'], the rows [ys] come out. *)
Definition reaches (st : GraceHashStream) (ys : list Tuple) (st' : GraceHashStream) : Prop :=
  exists n, forall fuel, run (n + fuel) st = map Ok ys ++ run fuel st'.

(** The stream ends in a refusal. *)
Definition stops (st : GraceHashStream) : Prop :=
  exists n ys r, spills W r (fun _ : Tuple => False) /\ forall fuel, run (n + fuel) st = map Ok ys ++ [r].

Definition goes (st : GraceHashStream) (Q : list Tuple -> Prop) (st' : GraceHashStream) : Prop :=
  (exists ys, Q ys /\ reaches st ys st') \/ stops st.

Lemma reaches_refl st : reaches st [] st.
Proof. by exists O. Qed.

Lemma reaches_trans st1 st2 st3 ys zs : reaches st1 ys st2 -> reaches st2 zs st3 -> reaches st1 (ys ++ zs) st3.
Proof.
  intros [n Hn] [k Hk]. exists (n + k)%nat. intros fuel. rewrite <- Nat.add_assoc, Hn, Hk, map_app, app_assoc. done.
Qed.

Lemma reaches_continue st st' : turn_of st = Continue st' -> reaches st [] st'.
Proof. intros E. exists 1%nat. intros fuel. cbn [Nat.add grace_rows]. by rewrite E. Qed.

Lemma reaches_yield st t st' : turn_of st = Yield (Ok t) st' -> reaches st [t] st'.
Proof. intros E. exists 1%nat. intros fuel. cbn [Nat.add grace_rows]. by rewrite E. Qed.

Lemma stops_after st ys st' : reaches st ys st' -> stops st' -> stops st.
Proof.
  intros [n Hn] (k & zs & r & Hr & Hk). exists (n + k)%nat, (ys ++ zs), r. split; [done|].
  intros fuel. rewrite <- Nat.add_assoc, Hn, Hk, map_app, app_assoc. done.
Qed.

Lemma goes_reaches st ys st' (Q : list Tuple -> Prop) : reaches st ys st' -> Q ys -> goes st Q st'.
Proof. intros Hr HQ. left. by exists ys. Qed.

Lemma goes_trans st1 st2 st3 (P Q : list Tuple -> Prop) :
  goes st1 P st2 -> (forall ys, P ys -> goes st2 (fun zs => Q (ys ++ zs)) st3) -> goes st1 Q st3.
Proof.
  intros [(ys & HP & Hr)|Hs] Hk; [|by right]. destruct (Hk ys HP) as [(zs & HQ & Hr')|Hs].
  - left. exists (ys ++ zs). split; [done|]. by eapply reaches_trans.
  - right. by eapply stops_after.
Qed.

Lemma goes_impl st st' (P Q : list Tuple -> Prop) : goes st P st' -> (forall ys, P ys -> Q ys) -> goes st Q st'.
Proof. intros [(ys & HP & Hr)|Hs] HQ; [left; exists ys; auto|by right]. Qed.

(** A turn that runs a fallible computation. *)
Lemma goes_spills st (r : res QueryError GraceHashStream) st0 (P : GraceHashStream -> Prop) Q st' :
  turn_of st = or_fail r st0 -> spills W r P -> (forall st1, P st1 -> goes st1 Q st') -> goes st Q st'.
Proof.
  intros E Hr Hk. assert (Hbad : forall x, spills W x (fun _ : Tuple => False) -> turn_of st = Yield x (fail st0) -> goes st Q st').
  { intros x Hx Ex. right. exists 2%nat, [], x. split; [done|]. intros fuel. cbn [Nat.add grace_rows]. rewrite Ex. done. }
  destruct r as [st1|e|]; cbn in Hr, E; [|by apply (Hbad (Err e))|by apply (Hbad Panic)].
  eapply goes_trans; [eapply (goes_reaches _ _ _ (fun ys => ys = [])); [by apply reaches_continue|done]|].
  intros ys ->. by apply Hk.
Qed.

(** ** Probing *)

Context (bil : bool) (B P : list Tuple) (kb kp : Tuple -> list byte).
Context {DECok : RustDecimalOk}.
Abbreviation bs := ((build_of p bil).1).
Abbreviation bk := ((build_of p bil).2).
Abbreviation ps := ((probe_of p bil).1).
Abbreviation pk := ((probe_of p bil).2).

(** The row decodes, and its key is known. *)
Definition side_ok (schema : Schema) (key : nat) (kf : Tuple -> list byte) (t : Tuple) : Prop :=
  fits schema t /\ row_key_bytes t key = Ok (kf t).

Definition pair_row (b q : Tuple) : Tuple := if bil then concat_rows b q else concat_rows q b.
Definition pair_of (b q : Tuple) : list Tuple := if bool_decide (kb b = kp q) then [pair_row b q] else [].
Definition probe_out (q : Tuple) : list Tuple :=
  (B ≫= fun b => pair_of b q) ++ (if existsb (fun b => bool_decide (kb b = kp q)) B then [] else probe_pad p bil q).

Lemma filter_pairs q : map (fun b => pair_row b q) (filter (fun b => kb b = kp q) B) = B ≫= fun b => pair_of b q.
Proof. induction B as [|b B' IH]; [done|]. rewrite filter_cons, bind_cons, <- IH. unfold pair_of. by case_decide; case_bool_decide. Qed.

Lemma filter_exists q : existsb (fun b => bool_decide (kb b = kp q)) B = negb (length (filter (fun b => kb b = kp q) B) =? 0)%nat.
Proof. induction B as [|b B' IH]; [done|]. cbn [existsb]. rewrite filter_cons. case_decide; [by rewrite bool_decide_eq_true_2|by rewrite bool_decide_eq_false_2]. Qed.

Definition probing (wl : list (W * W * nat)) (ln rn : list Tuple) (tbl : HashTable) (cursor : list (list byte)) (pending : list Tuple) (tail : option (list Tuple)) : GraceHashStream :=
  MkGrace wl (Some (MkProbe tbl bil cursor pending tail)) ln rn false.

Lemma drain_pending wl ln rn tbl cursor tail pending : reaches (probing wl ln rn tbl cursor pending tail) pending (probing wl ln rn tbl cursor [] tail).
Proof.
  induction pending as [|t pending IH]; [apply reaches_refl|]. change (t :: pending) with ([t] ++ pending) at 2.
  eapply reaches_trans; [|exact IH]. by apply reaches_yield.
Qed.

Lemma drain_tail wl ln rn tbl tail : reaches (probing wl ln rn tbl [] [] (Some tail)) tail (MkGrace wl None ln rn false).
Proof.
  induction tail as [|t tail IH]; [by apply reaches_continue|]. change (t :: tail) with ([t] ++ tail) at 2.
  eapply reaches_trans; [|exact IH]. by apply reaches_yield.
Qed.

Lemma probe_one_ok G tbl cursor q : table_ok kb G B tbl -> side_ok ps pk kp q ->
  exists tbl', table_ok kb (fun k => bool_decide (k = kp q) || G k) B tbl'
    /\ probe_one p (MkProbe tbl bil cursor [] None) (enc ps q) = Ok (MkProbe tbl' bil cursor (probe_out q) None).
Proof using DECok.
  intros Ht [Hf Hk]. eexists. split; [by apply table_probed|]. unfold probe_one. cbn [pb_build_is_left pb_table pb_cursor pb_unmatched].
  revert Hf Hk. destruct (probe_of p bil) as [schema key]. cbn [fst snd]. intros Hf Hk. destruct (enc_ok schema q Hf) as [_ ->]. cbn [map_err]. rewrite bind_Ok, Hk, bind_Ok.
  rewrite (table_entries kb G B tbl (kp q) Ht), map_map. cbn [be_row]. unfold probe_out.
  assert (E : map (fun b => if bil then concat_rows b q else concat_rows q b) (filter (fun b => kb b = kp q) B) = B ≫= fun b => pair_of b q)
    by apply filter_pairs.
  assert (En : length (filter (fun b => kb b = kp q) B) = length (B ≫= fun b => pair_of b q)) by (by rewrite <- E, length_map).
  rewrite E, filter_exists, En.
  destruct (Nat.eqb_spec (length (B ≫= fun b => pair_of b q)) 0) as [E0|_]; cbn [negb]; [|by rewrite app_nil_r].
  apply nil_length_inv in E0. by rewrite E0.
Qed.

Lemma probe_all wl ln rn Q : Forall (side_ok ps pk kp) Q -> forall G tbl, table_ok kb G B tbl ->
  exists tbl', table_ok kb (fun k => existsb (fun q => bool_decide (k = kp q)) Q || G k) B tbl'
    /\ reaches (probing wl ln rn tbl (map (enc ps) Q) [] None) (Q ≫= probe_out) (probing wl ln rn tbl' [] [] None).
Proof using DECok.
  induction 1 as [|q Q Hq _ IH]; intros G tbl Ht; [exists tbl; split; [done|apply reaches_refl]|].
  destruct (probe_one_ok G tbl (map (enc ps) Q) q Ht Hq) as (tbl1 & Ht1 & E1). destruct (IH _ _ Ht1) as (tbl' & Ht' & Hr).
  exists tbl'. split.
  - intros k. rewrite Ht'. cbn [existsb]. f_equal. destruct (existsb _ Q), (bool_decide (k = kp q)); done.
  - rewrite bind_cons. change (probe_out q) with ([] ++ probe_out q). rewrite <- app_assoc. eapply reaches_trans.
    + apply reaches_continue. unfold GraceHash.turn_of, probing, probe_turn. cbn [gh_failed gh_current pb_pending pb_unmatched pb_cursor map pb_table pb_build_is_left].
      rewrite E1. reflexivity.
    + eapply reaches_trans; [apply drain_pending|exact Hr].
Qed.

Definition keeps_build : bool := if bil then keeps_left (hj_join_type p) else keeps_right (hj_join_type p).
Definition build_pad (b : Tuple) : list Tuple :=
  if keeps_build && negb (existsb (fun q => bool_decide (kb b = kp q)) P)
  then [if bil then pad_right b (hj_right_width p) else pad_left (hj_left_width p) b] else [].

Lemma tail_ok tbl : table_ok kb (fun k => existsb (fun q => bool_decide (k = kp q)) P || false) B tbl ->
  (unmatched_build_tail p (MkProbe tbl bil [] [] None)).1 ≡ₚ B ≫= build_pad.
Proof.
  intros Ht. unfold unmatched_build_tail. cbn [pb_build_is_left pb_table]. fold keeps_build. unfold build_pad.
  destruct keeps_build; cbn [negb fst andb]; [|by rewrite bind_nil_all].
  rewrite (table_rows kb _ B tbl Ht). clear Ht. induction B as [|b B' IH]; [done|]. cbn [map]. rewrite filter_cons, bind_cons, <- IH. cbn [be_matched].
  rewrite orb_false_r. by destruct (existsb _ P).
Qed.

(** A built pair, probed to its end. *)
Lemma pair_drained wl ln rn tbl : table_ok kb (fun _ => false) B tbl -> Forall (side_ok ps pk kp) P ->
  exists ys, ys ≡ₚ (P ≫= probe_out) ++ (B ≫= build_pad)
    /\ reaches (probing wl ln rn tbl (map (enc ps) P) [] None) ys (MkGrace wl None ln rn false).
Proof using DECok.
  intros Ht HP. destruct (probe_all wl ln rn P HP _ _ Ht) as (tbl' & Ht' & Hr).
  pose proof (tail_ok tbl' Ht') as Hp. destruct (unmatched_build_tail p (MkProbe tbl' bil [] [] None)) as [tail tbl2] eqn:E. cbn [fst] in Hp.
  exists ((P ≫= probe_out) ++ [] ++ tail). split; [cbn [app]; by rewrite Hp|]. eapply reaches_trans; [exact Hr|].
  eapply reaches_trans; [apply reaches_continue|apply drain_tail].
  unfold GraceHash.turn_of, probing, probe_turn. cbn [gh_failed gh_current pb_pending pb_unmatched pb_cursor].
  rewrite E. reflexivity.
Qed.
End turns.

(** ** Building *)

Lemma concat_alter {A} (P : list (list A)) i t : (i < length P)%nat -> List.concat (alter (fun l => l ++ [t]) i P) ≡ₚ List.concat P ++ [t].
Proof.
  revert i. induction P as [|l P IH]; intros [|i]; cbn; intros Hi; [lia..| |].
  - by rewrite <- !app_assoc, (Permutation_app_comm [t]).
  - rewrite <- app_assoc. f_equiv. apply IH. lia.
Qed.

Section build.
Context {DEC : RustDecimal} {JS : SerdeJson} {H : Xxh3} {DECok : RustDecimalOk}.
Context (schema : Schema) (key : nat) (kf : Tuple -> list byte).
Abbreviation side := (side_ok schema key kf).

Lemma build_rows_ok cap rows : Forall side rows -> forall built used tbl, table_ok kf (fun _ => false) built tbl ->
  match build_rows schema key cap (map (enc schema) rows) used tbl with
  | Ok (Some tbl') => table_ok kf (fun _ => false) (built ++ rows) tbl'
  | Ok None => is_Some cap
  | _ => False
  end.
Proof using DECok.
  induction 1 as [|t rows [Hf Hk] _ IH]; intros built used tbl Ht; cbn [map build_rows]; [by rewrite app_nil_r|].
  destruct (enc_ok schema t Hf) as [_ ->]. cbn [map_err]. rewrite bind_Ok, Hk, bind_Ok.
  specialize (IH (built ++ [t]) (used + Z.of_nat (length (enc schema t))) _ (table_push_ok kf built tbl t Ht)). rewrite <- app_assoc in IH.
  destruct cap as [budget|]; [|exact IH]. destruct (budget <? _); [done|exact IH].
Qed.

(** ** Partitioning *)

Context {W : Type} {WS : Workspace W} {WOK : WorkspaceOk W} (n : nat) (Hn : (0 < n)%nat).

Definition parts_ok (parts : list W) (P : list (list Tuple)) : Prop := Forall2 (fun w rows => ws_holds w (map (enc schema) rows)) parts P.

Definition bucket_index (level : nat) (t : Tuple) : nat := match bucket (kf t) level n with Ok i => i | _ => O end.

(** Every row in the bucket of its key. *)
Definition bucketed (level : nat) (P : list (list Tuple)) : Prop :=
  length P = n /\ forall i rows, P !! i = Some rows -> Forall (fun t => bucket_index level t = i) rows.

Lemma bucket_ok level t : bucket (kf t) level n = Ok (bucket_index level t) /\ (bucket_index level t < n)%nat.
Proof using Hn.
  unfold bucket_index, bucket. destruct (Nat.eqb_spec n 0); [lia|]. split; [done|].
  pose proof (Z.mod_pos_bound (xxh3_64_with_seed (kf t) (Z.lxor BUCKET_SEED (wrap64 (wrap64 (Z.of_nat level) * 0x9e3779b97f4a7c15)))) (Z.of_nat n) ltac:(lia)). lia.
Qed.

Definition add_row (level : nat) (t : Tuple) (P : list (list Tuple)) : list (list Tuple) :=
  alter (fun l => l ++ [t]) (bucket_index level t) P.

Lemma bucketed_add level P t : bucketed level P -> bucketed level (add_row level t P).
Proof using Hn.
  intros [HL HB]. unfold add_row. split; [by rewrite length_alter|]. intros i rows. destruct (decide (i = bucket_index level t)) as [->|Hi].
  - rewrite list_lookup_alter_eq. destruct (P !! _) as [l|] eqn:E; [|done]. cbn. intros [= <-]. apply Forall_app. split; [by apply HB|by constructor].
  - rewrite list_lookup_alter_ne by done. apply HB.
Qed.

Lemma spill_ok level parts P t : parts_ok parts P -> bucketed level P ->
  spills W (spill parts (bucket_index level t) (enc schema t)) (fun parts' => parts_ok parts' (add_row level t P)).
Proof using Hn.
  intros HP [HL HB]. pose proof (bucket_ok level t) as [_ Hi]. unfold spill.
  destruct (lookup_lt_is_Some_2 P (bucket_index level t)) as [rows Er]; [lia|].
  destruct (Forall2_lookup_r _ _ _ _ _ HP Er) as (w & Ew & Hw). rewrite Ew. eapply spills_bind; [by apply ws_spill_ok|].
  intros w' Hw'. cbn. unfold parts_ok, add_row. replace (alter _ _ P) with (<[bucket_index level t := rows ++ [t]]> P).
  - apply Forall2_insert; [exact HP|]. by rewrite map_app.
  - apply list_eq. intros j. destruct (decide (j = bucket_index level t)) as [->|Hj].
    + rewrite list_lookup_alter_eq, Er, list_lookup_insert_eq; [done|by eapply lookup_lt_Some].
    + by rewrite list_lookup_alter_ne, list_lookup_insert_ne.
Qed.

Lemma respill_ok level rows : Forall side rows -> forall parts P, parts_ok parts P -> bucketed level P ->
  spills W (respill (map (enc schema) rows) key schema level n parts)
    (fun parts' => exists P', parts_ok parts' P' /\ bucketed level P' /\ List.concat P' ≡ₚ List.concat P ++ rows).
Proof using DECok Hn.
  induction 1 as [|t rows [Hf Hk] _ IH]; intros parts P HP HB; cbn [map respill]; [exists P; by rewrite app_nil_r|].
  destruct (enc_ok schema t Hf) as [_ ->]. cbn [map_err]. destruct (bucket_ok level t) as [Eb Hi]. rewrite bind_Ok, Hk, bind_Ok, Eb, bind_Ok.
  eapply spills_bind; [by apply (spill_ok level parts P t)|]. intros parts' HP'.
  eapply spills_impl; [by apply (IH parts' (add_row level t P)); [|apply bucketed_add]|]. intros parts2 (P' & H1 & H2 & H3).
  exists P'. split; [done|]. split; [done|]. rewrite H3. unfold add_row. destruct HB as [HL _]. rewrite concat_alter by lia. by rewrite <- app_assoc.
Qed.

Context (w0 : W) (H0 : ws_holds w0 []) (config : JoinConfig) (Hconf : hash_partitions config = n).

Lemma new_buckets_ok : exists parts, new_buckets (Ok w0) config = Ok parts /\ parts_ok parts (replicate n []) /\ forall level, bucketed level (replicate n []).
Proof using H0 Hconf.
  unfold new_buckets. rewrite Hconf. cbn [map_err]. exists (replicate n w0). split; [|split].
  - clear. induction n as [|k IH]; [done|]. cbn [replicate collect_res]. by rewrite bind_Ok, IH.
  - unfold parts_ok. apply Forall2_replicate. exact H0.
  - intros level. split; [by rewrite length_replicate|]. intros i rows [-> _]%lookup_replicate. constructor.
Qed.

Lemma concat_replicate_nil k : List.concat (replicate k []) = ([] : list Tuple).
Proof. by induction k. Qed.

Lemma repartition_ok level src rows : Forall side rows -> ws_holds src (map (enc schema) rows) ->
  spills W (repartition (Ok w0) src key schema level config)
    (fun parts => exists P, parts_ok parts P /\ bucketed level P /\ List.concat P ≡ₚ rows).
Proof using DECok Hn H0 Hconf.
  intros Hs Hw. unfold repartition. destruct new_buckets_ok as (parts & -> & HP & HB). rewrite bind_Ok, (ws_read_ok src _ Hw), bind_Ok, Hconf.
  eapply spills_impl; [by apply (respill_ok level rows Hs parts (replicate n []))|]. intros parts' (P & H1 & H2 & H3).
  exists P. by rewrite concat_replicate_nil in H3.
Qed.
End build.

(** ** Pairs of buckets *)

Section pairs.
Context {DEC : RustDecimal} {JS : SerdeJson} {H : Xxh3} {DECok : RustDecimalOk} {W : Type} {WS : Workspace W} {WOK : WorkspaceOk W}.
Context (p : HashJoinParams) (kl kr : Tuple -> list byte) (w0 : W) (H0 : ws_holds w0 []) (Hn : (0 < hash_partitions (hj_config p))%nat).
Abbreviation spec := (join_spec (same_key kl kr) (hj_join_type p) (hj_left_width p) (hj_right_width p)).
Abbreviation left_side := (side_ok (hj_left_schema p) (hj_left_key p) kl).
Abbreviation right_side := (side_ok (hj_right_schema p) (hj_right_key p) kr).
Abbreviation n := (hash_partitions (hj_config p)).
Abbreviation goes := (goes (Ok w0) p).

(** Built on either side, probe and tail are the join. *)
Lemma left_built L R :
  (R ≫= probe_out p true L kl kr) ++ (L ≫= build_pad p true R kl kr) ≡ₚ spec L R.
Proof.
  rewrite join_spec_parts. unfold probe_out. rewrite bind_app_perm, <- app_assoc. rewrite (bind_swap (match_of (same_key kl kr))).
  apply Permutation_app; [reflexivity|]. rewrite Permutation_app_comm. apply Permutation_app; [reflexivity|].
  apply bind_perm_in. intros r _. unfold right_pad, probe_pad, same_key. destruct (existsb _ L), (keeps_right _); done.
Qed.

Lemma right_built L R :
  (L ≫= probe_out p false R kr kl) ++ (R ≫= build_pad p false L kr kl) ≡ₚ spec L R.
Proof.
  assert (Eb : forall l r, bool_decide (kr r = kl l) = same_key kl kr l r) by (intros l r; unfold same_key; by apply bool_decide_ext).
  assert (Ex : forall l R, existsb (fun r => bool_decide (kr r = kl l)) R = existsb (same_key kl kr l) R)
    by (intros l R'; induction R' as [|r R' IH]; [done|]; cbn; by rewrite Eb, IH).
  assert (Ey : forall r L, existsb (fun l => bool_decide (kr r = kl l)) L = existsb (fun l => same_key kl kr l r) L)
    by (intros r L'; induction L' as [|l L' IH]; [done|]; cbn; by rewrite Eb, IH).
  unfold join_spec. f_equiv; apply bind_perm_in.
  - intros l _. unfold probe_out. rewrite Ex. f_equiv.
    + apply bind_perm_in. intros r _. unfold pair_of, match_of. by rewrite Eb.
    + unfold left_pad, probe_pad. destruct (existsb _ R), (keeps_left _); done.
  - intros r _. unfold build_pad, right_pad, keeps_build. by rewrite Ey.
Qed.

(** Pairs of buckets on the worklist, with the rows they hold. *)
Definition pair_ok (level : nat) (item : W * W * nat) (LR : list Tuple * list Tuple) : Prop :=
  item.2 = level /\ ws_holds item.1.1 (map (enc (hj_left_schema p)) LR.1) /\ ws_holds item.1.2 (map (enc (hj_right_schema p)) LR.2)
  /\ Forall left_side LR.1 /\ Forall right_side LR.2.
Definition pairs_rows (LRs : list (list Tuple * list Tuple)) : list Tuple := LRs ≫= fun LR => spec LR.1 LR.2.

(** Buckets never match across. *)
Lemma join_buckets level PL : forall PR off,
  (forall i rows, PL !! i = Some rows -> Forall (fun t => bucket_index kl n level t = off + i)%nat rows) ->
  (forall i rows, PR !! i = Some rows -> Forall (fun t => bucket_index kr n level t = off + i)%nat rows) ->
  length PL = length PR -> pairs_rows (zip PL PR) ≡ₚ spec (List.concat PL) (List.concat PR).
Proof.
  induction PL as [|L PL IH]; intros [|R PR] off HL HR Hlen; try done. cbn [zip zip_with List.concat]. unfold pairs_rows. rewrite bind_cons. cbn [fst snd].
  fold (pairs_rows (zip PL PR)). rewrite (IH PR (S off)).
  - assert (Hhead : forall (X : list (list Tuple)) kf, (forall i rows, X !! i = Some rows -> Forall (fun t => bucket_index kf n level t = off + S i)%nat rows) ->
      forall t, t ∈ List.concat X -> bucket_index kf n level t <> off).
    { intros X kf HX t (rows & Ht & Hr)%elem_of_concat. apply list_elem_of_lookup in Hr as [i Hi]. specialize (HX i rows Hi).
      rewrite Forall_forall in HX. specialize (HX t Ht). lia. }
    assert (Hne : forall l r, bucket_index kl n level l <> bucket_index kr n level r -> same_key kl kr l r = false).
    { intros l r Hb. unfold same_key. apply bool_decide_eq_false_2. intros E. apply Hb. unfold bucket_index. by rewrite E. }
    symmetry. apply join_spec_split.
    + intros l r Hl Hr. apply Hne. specialize (HL O L eq_refl). rewrite Forall_forall in HL. rewrite (HL l Hl), Nat.add_0_r.
      apply not_eq_sym, (Hhead PR kr); [|done]. intros i rows Hi. exact (HR (S i) rows Hi).
    + intros l r Hl Hr. apply Hne. specialize (HR O R eq_refl). rewrite Forall_forall in HR. rewrite (HR r Hr), Nat.add_0_r.
      apply (Hhead PL kl); [|done]. intros i rows Hi. exact (HL (S i) rows Hi).
  - intros i rows Hi. specialize (HL (S i) rows Hi). eapply Forall_impl; [exact HL|]. cbn beta. intros t. lia.
  - intros i rows Hi. specialize (HR (S i) rows Hi). eapply Forall_impl; [exact HR|]. cbn beta. intros t. lia.
  - cbn in Hlen. lia.
Qed.

Lemma zip_pairs_ok level lparts rparts PL PR :
  parts_ok (hj_left_schema p) lparts PL -> parts_ok (hj_right_schema p) rparts PR ->
  Forall left_side (List.concat PL) -> Forall right_side (List.concat PR) ->
  Forall2 (pair_ok level) (zip_with (fun l r => (l, r, level)) lparts rparts) (zip PL PR).
Proof.
  intros HL. revert rparts PR. induction HL as [|lw L lparts PL Hl _ IH]; intros rparts PR HR SL SR; [constructor|].
  destruct HR as [|rw R rparts PR Hr HR]; [constructor|]. cbn [List.concat] in SL, SR. apply Forall_app in SL as [SL1 SL], SR as [SR1 SR].
  cbn [zip_with zip]. constructor; [done|]. by apply IH.
Qed.

Abbreviation idle wl ln rn := (MkGrace wl None ln rn false).

(** What one popped pair becomes: a table to probe, or smaller pairs. *)
Definition popped (level : nat) (wl : list (W * W * nat)) (ln rn : list Tuple) (L R : list Tuple) (st : GraceHashStream) : Prop :=
  (exists tbl, st = probing true wl ln rn tbl (map (enc (hj_right_schema p)) R) [] None /\ table_ok kl (fun _ => false) L tbl)
  \/ (exists tbl, st = probing false wl ln rn tbl (map (enc (hj_left_schema p)) L) [] None /\ table_ok kr (fun _ => false) R tbl)
  \/ ((level < MAX_REPARTITION_LEVELS)%nat /\ exists items LRs, st = idle (wl ++ items) ln rn
      /\ Forall2 (pair_ok (S level)) items LRs /\ pairs_rows LRs ≡ₚ spec L R).

Lemma repartitioned level wl ln rn L R lparts rparts PL PR :
  (level < MAX_REPARTITION_LEVELS)%nat -> Forall left_side L -> Forall right_side R ->
  parts_ok (hj_left_schema p) lparts PL -> bucketed kl n (S level) PL -> List.concat PL ≡ₚ L ->
  parts_ok (hj_right_schema p) rparts PR -> bucketed kr n (S level) PR -> List.concat PR ≡ₚ R ->
  popped level wl ln rn L R (idle (wl ++ zip_with (fun l r => (l, r, S level)) lparts rparts) ln rn).
Proof.
  intros Hl SL SR HPL [LL BL] EL HPR [LR BR] ER. right. right. split; [done|]. eexists _, (zip PL PR). split; [done|]. split.
  - apply zip_pairs_ok; [done..|by rewrite EL|by rewrite ER].
  - rewrite (join_buckets (S level) PL PR O); [by apply join_spec_perm|exact BL|exact BR|congruence].
Qed.

Lemma build_pair_ok level lws rws wl ln rn L R :
  pair_ok level (lws, rws, level) (L, R) -> spills W (build_pair (Ok w0) p lws rws level (idle wl ln rn)) (popped level wl ln rn L R).
Proof using DECok H0 Hn.
  intros (_ & HL & HR & SL & SR). cbn [fst snd] in *. unfold build_pair.
  set (cap := if (level <? MAX_REPARTITION_LEVELS)%nat then Some (build_budget (hj_config p)) else None).
  assert (Hcap : is_Some cap -> (level < MAX_REPARTITION_LEVELS)%nat).
  { unfold cap. destruct (Nat.ltb_spec level MAX_REPARTITION_LEVELS); [done|]. by intros [? [=]]. }
  destruct (ws_used lws <=? ws_used rws); cbn [build_of probe_of].
  - rewrite (ws_read_ok lws _ HL), bind_Ok. pose proof (build_rows_ok _ _ kl cap L SL [] 0 ∅ (table_empty kl _)) as Hb.
    destruct (build_rows _ _ _ _ _ _) as [[tbl|]|e|]; [| |done..]; rewrite bind_Ok.
    + rewrite (ws_read_ok rws _ HR), bind_Ok. left. by exists tbl.
    + eapply spills_bind; [by eapply (repartition_ok _ _ kl n Hn w0 H0 (hj_config p) eq_refl (S level) lws L)|]. intros lparts (PL & A1 & A2 & A3).
      eapply spills_bind; [by eapply (repartition_ok _ _ kr n Hn w0 H0 (hj_config p) eq_refl (S level) rws R)|]. intros rparts (PR & B1 & B2 & B3).
      cbn. eapply repartitioned; eauto.
  - rewrite (ws_read_ok rws _ HR), bind_Ok. pose proof (build_rows_ok _ _ kr cap R SR [] 0 ∅ (table_empty kr _)) as Hb.
    destruct (build_rows _ _ _ _ _ _) as [[tbl|]|e|]; [| |done..]; rewrite bind_Ok.
    + rewrite (ws_read_ok lws _ HL), bind_Ok. right. left. by exists tbl.
    + eapply spills_bind; [by eapply (repartition_ok _ _ kr n Hn w0 H0 (hj_config p) eq_refl (S level) rws R)|]. intros rparts (PR & B1 & B2 & B3).
      eapply spills_bind; [by eapply (repartition_ok _ _ kl n Hn w0 H0 (hj_config p) eq_refl (S level) lws L)|]. intros lparts (PL & A1 & A2 & A3).
      cbn. assert (E : zip_with (fun b q => (q, b, S level)) rparts lparts = zip_with (fun l r => (l, r, S level)) lparts rparts) by apply zip_with_flip.
      rewrite E. eapply repartitioned; eauto.
Qed.

Lemma pop_turn wl ln rn lws rws level :
  turn_of (Ok w0) p (idle (wl ++ [(lws, rws, level)]) ln rn) = or_fail (build_pair (Ok w0) p lws rws level (idle wl ln rn)) (idle wl ln rn).
Proof. unfold turn_of. cbn [gh_failed gh_current gh_worklist]. by rewrite (proj2 (vec_pop_some _ _ _) eq_refl). Qed.

(** One pair, given how pairs one level deeper go. *)
Lemma pair_goes level ln rn item LR wl :
  (forall items LRs, (level < MAX_REPARTITION_LEVELS)%nat -> Forall2 (pair_ok (S level)) items LRs ->
     goes (idle (wl ++ items) ln rn) (fun ys => ys ≡ₚ pairs_rows LRs) (idle wl ln rn)) ->
  pair_ok level item LR -> goes (idle (wl ++ [item]) ln rn) (fun ys => ys ≡ₚ spec LR.1 LR.2) (idle wl ln rn).
Proof using DECok H0 Hn.
  intros Hdeep Hi. destruct item as [[lws rws] lv], LR as [L R]. destruct (Hi) as (Hlv & _ & _ & SL & SR). cbn [fst snd] in *. subst lv.
  eapply (goes_spills (Ok w0) p); [apply pop_turn|by apply (build_pair_ok level lws rws wl ln rn L R)|].
  intros st [(tbl & -> & Ht)|[(tbl & -> & Ht)|(Hl & items & LRs & -> & Hp & Heq)]].
  - destruct (pair_drained (Ok w0) p true L R kl kr wl ln rn tbl Ht SR) as (ys & Hys & Hr). eapply goes_reaches; [exact Hr|].
    cbn beta. rewrite Hys. apply left_built.
  - destruct (pair_drained (Ok w0) p false R L kr kl wl ln rn tbl Ht SL) as (ys & Hys & Hr). eapply goes_reaches; [exact Hr|].
    cbn beta. rewrite Hys. apply right_built.
  - eapply goes_impl; [by apply (Hdeep items LRs)|]. cbn beta. intros ys ->. done.
Qed.

Lemma items_go level ln rn :
  (forall item LR wl, pair_ok level item LR -> goes (idle (wl ++ [item]) ln rn) (fun ys => ys ≡ₚ spec LR.1 LR.2) (idle wl ln rn)) ->
  forall items LRs wl, Forall2 (pair_ok level) items LRs -> goes (idle (wl ++ items) ln rn) (fun ys => ys ≡ₚ pairs_rows LRs) (idle wl ln rn).
Proof.
  intros Hone items. induction items as [|item items IH] using rev_ind; intros LRs wl HF.
  - apply Forall2_nil_inv_l in HF as ->. rewrite app_nil_r. eapply goes_reaches; [apply reaches_refl|done].
  - apply Forall2_app_inv_l in HF as (LRs1 & LRs2 & HF1 & HF2 & ->). apply Forall2_cons_inv_l in HF2 as (LR & LRs3 & Hi & HF2 & ->).
    apply Forall2_nil_inv_l in HF2 as ->. rewrite app_assoc. eapply goes_trans; [by apply Hone|]. cbn beta. intros ys Hys.
    eapply goes_impl; [by apply IH|]. cbn beta. intros zs Hzs. unfold pairs_rows. rewrite bind_app, bind_cons, Hys, Hzs.
    rewrite Permutation_app_comm. cbn [mbind list_bind]. by rewrite app_nil_r.
Qed.

Lemma worklist_goes ln rn : forall d level, (MAX_REPARTITION_LEVELS <= level + d)%nat ->
  forall items LRs wl, Forall2 (pair_ok level) items LRs -> goes (idle (wl ++ items) ln rn) (fun ys => ys ≡ₚ pairs_rows LRs) (idle wl ln rn).
Proof using DECok H0 Hn.
  induction d as [|d IH]; intros level Hd; apply items_go; intros item LR wl Hi; apply (pair_goes level); try done; intros items LRs Hl HF.
  - lia.
  - apply (IH (S level)); [lia|done].
Qed.

Definition null_rows (ln rn : list Tuple) : list Tuple :=
  (if keeps_left (hj_join_type p) then map (fun t => pad_right t (hj_right_width p)) ln else [])
  ++ (if keeps_right (hj_join_type p) then map (pad_left (hj_left_width p)) rn else []).

Lemma nulls_drain ln rn : exists k, forall fuel, grace_rows (Ok w0) p (k + fuel) (idle [] ln rn) = map Ok (null_rows ln rn).
Proof.
  assert (Hend : forall ls rs, null_turn p (idle [] ls rs) = Exhausted (W := W) -> exists k, forall fuel, grace_rows (Ok w0) p (k + fuel) (idle [] ls rs) = []).
  { intros ls rs E. exists 1%nat. intros fuel. cbn [Nat.add grace_rows]. unfold turn_of. cbn [gh_failed gh_current gh_worklist]. cbn [vec_pop reverse rev_append]. by rewrite E. }
  assert (Hr : forall ls, keeps_left (hj_join_type p) = false \/ ls = [] ->
      exists k, forall fuel, grace_rows (Ok w0) p (k + fuel) (idle [] ls rn) = map Ok (if keeps_right (hj_join_type p) then map (pad_left (hj_left_width p)) rn else [])).
  { intros ls Hls. assert (El : match keeps_left (hj_join_type p), ls with true, _ :: _ => false | _, _ => true end = true)
      by (destruct Hls as [->| ->]; [done|by destruct (keeps_left _)]).
    destruct (keeps_right (hj_join_type p)) eqn:Er.
    - induction rn as [|t rs IH]; [apply Hend; unfold null_turn; cbn; rewrite Er; by destruct (keeps_left _), ls|].
      destruct IH as [k Hk]. exists (S k). intros fuel. cbn [Nat.add grace_rows]. unfold turn_of. cbn [gh_failed gh_current gh_worklist vec_pop reverse rev_append].
      unfold null_turn. cbn [gh_left_nulls gh_right_nulls with_nulls]. rewrite Er. destruct (keeps_left _), ls; try done; cbn [map]; f_equal; apply Hk.
    - apply Hend. unfold null_turn. cbn. rewrite Er. by destruct (keeps_left _), ls. }
  unfold null_rows. destruct (keeps_left (hj_join_type p)) eqn:El; [|apply Hr; by left].
  induction ln as [|t ls IH]; [apply Hr; by right|]. destruct IH as [k Hk]. exists (S k). intros fuel. cbn [Nat.add grace_rows].
  unfold turn_of. cbn [gh_failed gh_current gh_worklist vec_pop reverse rev_append]. unfold null_turn. cbn [gh_left_nulls gh_right_nulls with_nulls].
  rewrite El. cbn [map app]. f_equal. apply Hk.
Qed.
End pairs.

(** ** The whole join *)

Section join.
Context {DEC : RustDecimal} {JS : SerdeJson} {ST : StdText} {CAL : Calendar} {XC : ExprCrates} {H : Xxh3} {DECok : RustDecimalOk}.

(** A row's join key; [None] for NULL. *)
Definition key_opt (key : nat) (t : Tuple) : option (list byte) :=
  match values t !! key with
  | Some v => if is_null v then None else match encode_key v with Ok k => Some k | _ => None end
  | None => None
  end.
Abbreviation kf key := (fun t : Tuple => default [] (key_opt key t)).

(** A key column of one type, NULLs allowed. *)
Definition key_column (ty : LogicalType) (key : nat) (t : Tuple) : Prop :=
  exists v, values t !! key = Some v /\ (v = VNull \/ comparable ty v).

Lemma key_column_bytes ty key t : orderable ty = true -> key_column ty key t ->
  exists v, value_at t key = Ok v /\ key_bytes v = Ok (key_opt key t).
Proof using DECok.
  intros Ho (v & Ev & Hv). exists v. unfold value_at, key_opt, key_bytes. rewrite Ev. split; [done|]. destruct Hv as [->|Hv]; [done|].
  rewrite (comparable_not_null ty v Hv). destruct (values_keyed ty v v Ho Hv Hv) as (k & _ & E & _). by rewrite E.
Qed.

Definition keyed_row (key : nat) (t : Tuple) : Prop := is_Some (key_opt key t).
#[global] Instance keyed_row_dec key t : Decision (keyed_row key t).
Proof. unfold keyed_row. apply _. Defined.

Lemma keyed_side ty schema key t : orderable ty = true -> fits schema t -> key_column ty key t -> keyed_row key t ->
  side_ok schema key (kf key) t.
Proof using DECok.
  intros Ho Hf Hc [k Hk]. destruct (key_column_bytes ty key t Ho Hc) as (v & Ev & Eb). split; [done|].
  unfold row_key_bytes. by rewrite Ev, bind_Ok, Eb, bind_Ok, Hk.
Qed.

Section open.
Context {W : Type} {WS : Workspace W} {WOK : WorkspaceOk W} (n : nat) (Hn : (0 < n)%nat).

Lemma partition_input_ok ty schema key rows : orderable ty = true -> Forall (fun t => fits schema t /\ key_column ty key t) rows ->
  forall parts P nulls, parts_ok schema parts P -> bucketed (kf key) n 0 P ->
  spills W (partition_input (map Ok rows) key schema n parts nulls) (fun r => exists P', parts_ok schema r.1 P' /\ bucketed (kf key) n 0 P'
    /\ List.concat P' ≡ₚ List.concat P ++ filter (keyed_row key) rows /\ r.2 = nulls ++ filter (fun t => ~ keyed_row key t) rows).
Proof using DECok Hn.
  intros Ho. induction 1 as [|t rows [Hf Hc] _ IH]; intros parts P nulls HP HB; cbn [map partition_input].
  { exists P. by rewrite !app_nil_r. }
  destruct (key_column_bytes ty key t Ho Hc) as (v & Ev & Eb). rewrite bind_Ok, Ev, bind_Ok, Eb, bind_Ok.
  destruct (key_opt key t) as [k|] eqn:Ek.
  - assert (Hk : keyed_row key t) by (by exists k). assert (Et : kf key t = k) by (by rewrite Ek).
    destruct (bucket_ok (kf key) n Hn 0 t) as [Ebk _]. cbn beta in Ebk. rewrite Et in Ebk. rewrite Ebk, bind_Ok.
    destruct (enc_ok schema t Hf) as [-> _]. rewrite bind_Ok. eapply spills_bind; [by apply (spill_ok schema (kf key) n Hn 0 parts P t)|].
    intros parts' HP'. eapply spills_impl; [by apply (IH parts' (add_row (kf key) n 0 t P) nulls); [|apply bucketed_add]|].
    intros r (P' & H1 & H2 & H3 & H4). exists P'. split; [done|]. split; [done|]. rewrite H3, H4. split.
    + rewrite filter_cons_True by done. destruct (bucket_ok (kf key) n Hn 0 t) as [_ Hi]. destruct HB as [HL _]. rewrite <- HL in Hi at 2.
      unfold add_row. rewrite (concat_alter P _ t Hi). by rewrite <- app_assoc.
    + by rewrite filter_cons_False by (intros Hx; by apply Hx).
  - assert (Hk : ~ keyed_row key t) by (unfold keyed_row; rewrite Ek; by intros [? [=]]).
    eapply spills_impl; [by apply (IH parts P (nulls ++ [t]))|]. intros r (P' & H1 & H2 & H3 & H4). exists P'. split; [done|]. split; [done|].
    rewrite H3, H4, filter_cons_False, filter_cons_True by done. by rewrite <- app_assoc.
Qed.
End open.

(** Rows whose keys are equal and not NULL. *)
Definition key_match (lk rk : nat) (l r : Tuple) : bool :=
  match key_opt lk l, key_opt rk r with Some a, Some b => bool_decide (a = b) | _, _ => false end.

Lemma equi_match ty on la lk rk l r : orderable ty = true -> equi_join_keys on la = Some (lk, rk) -> length (values l) = la ->
  key_column ty lk l -> key_column ty rk r -> on_matches on (concat_rows l r) = Ok (key_match lk rk l r).
Proof using DECok.
  intros Ho Ek Hl (lv & El & Hlv) (rv & Er & Hrv). unfold key_match, key_opt. rewrite El, Er.
  assert (Hnull : forall v w, is_null v = true \/ is_null w = true -> map_ok is_true (eval_binary OpEq v w) = Ok false).
  { intros v w Hvw. unfold eval_binary. cbn [short_circuit]. by replace (is_null v || is_null w) with true by (destruct Hvw as [->| ->]; by rewrite ?orb_true_r). }
  assert (Hsome : forall v, comparable ty v -> exists k, encode_key v = Ok k /\ is_null v = false).
  { intros v Hv. destruct (values_keyed ty v v Ho Hv Hv) as (k & _ & E & _). exists k. split; [done|by apply (comparable_not_null ty)]. }
  destruct Hlv as [->|Cl]; [destruct (equi_eval _ _ _ _ _ _ _ _ Ek Hl El Er) as [->| ->]; apply Hnull; auto|].
  destruct (Hsome lv Cl) as (ka & Ka & Na). destruct Hrv as [->|Cr].
  { rewrite Na, Ka. destruct (equi_eval _ _ _ _ _ _ _ _ Ek Hl El Er) as [->| ->]; apply Hnull; auto. }
  destruct (Hsome rv Cr) as (kb & Kb & Nb). rewrite Na, Nb, Ka, Kb.
  destruct (equi_eval _ _ _ _ _ _ _ _ Ek Hl El Er) as [->| ->]; rewrite (eval_eq_key ty _ _ _ _ Ho) by done; [done|].
  f_equal. by apply bool_decide_ext.
Qed.

(** NULL keys join apart: they only pad. *)
Lemma null_keys_apart p L R :
  join_spec (key_match (hj_left_key p) (hj_right_key p)) (hj_join_type p) (hj_left_width p) (hj_right_width p) L R
  ≡ₚ join_spec (same_key (kf (hj_left_key p)) (kf (hj_right_key p))) (hj_join_type p) (hj_left_width p) (hj_right_width p)
       (filter (keyed_row (hj_left_key p)) L) (filter (keyed_row (hj_right_key p)) R)
     ++ null_rows p (filter (fun t => ~ keyed_row (hj_left_key p) t) L) (filter (fun t => ~ keyed_row (hj_right_key p) t) R).
Proof.
  set (lk := hj_left_key p). set (rk := hj_right_key p). set (m := key_match lk rk).
  assert (Hm : forall l r, m l r = true -> keyed_row lk l /\ keyed_row rk r).
  { intros l r. unfold m, key_match, keyed_row. destruct (key_opt lk l), (key_opt rk r); done. }
  assert (Hno : forall l r, ~ keyed_row lk l \/ ~ keyed_row rk r -> m l r = false).
  { intros l r Hlr. destruct (m l r) eqn:E; [|done]. apply Hm in E as [? ?]. by destruct Hlr. }
  rewrite (join_spec_perm _ _ _ _ L _ R _ (symmetry (filter_app_complement (keyed_row lk) L)) (symmetry (filter_app_complement (keyed_row rk) R))).
  rewrite join_spec_split.
  - apply Permutation_app.
    + rewrite (join_spec_ext _ _ _ m (same_key (kf lk) (kf rk))); [done|]. intros l r [[a Ha] _]%list_elem_of_filter [[b Hb] _]%list_elem_of_filter.
      unfold m, key_match, same_key. by rewrite Ha, Hb.
    + rewrite join_spec_parts. rewrite bind_nil_all.
      2:{ intros l [Hl _]%list_elem_of_filter. apply bind_nil_all. intros r _. unfold match_of. by rewrite Hno by auto. }
      cbn [app]. unfold null_rows.
      assert (Hf : forall (A : Type) (b : bool) (g : Tuple -> A) l, l ≫= (fun t => if b then [g t] else []) = if b then map g l else [])
        by (intros A b g l; destruct b; [|by apply bind_nil_all]; induction l as [|x l IH]; [done|]; rewrite bind_cons, IH; done).
      rewrite <- !Hf. apply Permutation_app; apply bind_perm_in.
      * intros l [Hl _]%list_elem_of_filter. unfold left_pad. rewrite existsb_none; [by rewrite andb_true_r|]. intros r _. apply Hno. auto.
      * intros r [Hr _]%list_elem_of_filter. unfold right_pad. rewrite existsb_none; [by rewrite andb_true_r|]. intros l _. apply Hno. auto.
  - intros l r _ [Hr _]%list_elem_of_filter. apply Hno. auto.
  - intros l r [Hl _]%list_elem_of_filter _. apply Hno. auto.
Qed.

(** The drained stream: the rows, or rows and then a refusal. *)
Definition drained (W : Type) {WS : Workspace W} {WOK : WorkspaceOk W} (P : list Tuple -> Prop) (s : list (res QueryError Tuple)) : Prop :=
  (exists out, s = map Ok out /\ P out) \/ exists ys r, s = map Ok ys ++ [r] /\ spills W r (fun _ : Tuple => False).

Section with_workspace.
Context {W : Type} {WS : Workspace W} {WOK : WorkspaceOk W} (w0 : W) (H0 : ws_holds w0 []).
Context (ty : LogicalType) (Ho : orderable ty = true) (on : option Expr) (jt : JoinType) (lk rk rw : nat) (ls rs : Schema) (config : JoinConfig).
Context (Hn : (0 < hash_partitions config)%nat) (Ek : equi_join_keys on (length (fields ls)) = Some (lk, rk)).
Context (L R : list Tuple) (HL : Forall (fun t => fits ls t /\ key_column ty lk t) L) (HR : Forall (fun t => fits rs t /\ key_column ty rk t) R).
Abbreviation p := (MkHashJoinParams jt lk rk (length (fields ls)) rw ls rs config).
Abbreviation out_spec := (join_spec (key_match lk rk) jt (length (fields ls)) rw L R).

Lemma sides_keyed schema key rows : Forall (fun t => fits schema t /\ key_column ty key t) rows ->
  Forall (side_ok schema key (kf key)) (filter (keyed_row key) rows).
Proof using DECok Ho.
  intros HF. rewrite Forall_forall in HF. apply Forall_forall. intros t [Hk Ht]%list_elem_of_filter. destruct (HF t Ht).
  by apply (keyed_side ty).
Qed.

(** Phase 1 leaves a stream whose rows are the join's. *)
Lemma grace_open_ok :
  spills W (grace_open (Ok w0) (length (fields ls)) rw (Ok (map Ok L)) (Ok (map Ok R)) on jt ls rs config)
    (fun r => r.1 = p /\ exists items LRs ln rn, r.2 = MkGrace items None ln rn false
       /\ Forall2 (pair_ok p (kf lk) (kf rk) 0) items LRs
       /\ pairs_rows p (kf lk) (kf rk) LRs ++ null_rows p ln rn ≡ₚ out_spec).
Proof using DECok H0 Ho Hn Ek HL HR.
  unfold grace_open. rewrite (equi_keys_of _ _ _ _ Ek), bind_Ok.
  destruct (new_buckets_ok ls (kf lk) _ w0 H0 config eq_refl) as (parts & E & HP1 & HB1).
  destruct (new_buckets_ok rs (kf rk) _ w0 H0 config eq_refl) as (parts2 & E2 & HP2 & HB2).
  rewrite E in E2. injection E2 as <-. rewrite E, !bind_Ok.
  eapply spills_bind; [by apply (partition_input_ok _ Hn ty ls lk L Ho HL parts _ [] HP1)|]. intros [lparts' ln] (PL & A1 & A2 & A3 & A4).
  rewrite bind_Ok. eapply spills_bind; [by apply (partition_input_ok _ Hn ty rs rk R Ho HR parts _ [] HP2)|]. intros [rparts' rn] (PR & B1 & B2 & B3 & B4).
  rewrite concat_replicate_nil in A3, B3. cbn [app fst snd] in *. subst ln rn. split; [done|].
  eexists _, (zip PL PR), _, _. split; [reflexivity|]. split.
  - apply zip_pairs_ok; [done|done|rewrite A3|rewrite B3]; by apply sides_keyed.
  - destruct A2 as [A2 A2'], B2 as [B2 B2'].
    rewrite (join_buckets p (kf lk) (kf rk) Hn 0 PL PR O A2' B2') by congruence.
    rewrite (null_keys_apart p L R). cbn [hj_left_key hj_right_key hj_join_type hj_left_width hj_right_width].
    apply Permutation_app; [by apply join_spec_perm|done].
Qed.

Lemma grace_hash_ok :
  exists fuel0, forall fuel, (fuel0 <= fuel)%nat ->
    spills W (grace_hash_with (Ok w0) fuel (length (fields ls)) rw (Ok (map Ok L)) (Ok (map Ok R)) on jt ls rs config)
      (drained W (fun out => out ≡ₚ out_spec)).
Proof using DECok H0 Ho Hn Ek HL HR.
  pose proof grace_open_ok as Hopen. unfold grace_hash_with.
  destruct (grace_open _ _ _ _ _ _ _ _ _ _) as [[p' st]|e|]; [|exists O; by intros fuel _..].
  unfold spills, outcome in Hopen. cbn [fst snd] in Hopen. destruct Hopen as (-> & items & LRs & ln & rn & -> & Hp & Hspec).
  destruct (worklist_goes p (kf lk) (kf rk) w0 H0 Hn ln rn MAX_REPARTITION_LEVELS 0 ltac:(lia) items LRs [] Hp) as [(ys & Hys & [k Hk])|(k & ys & r & Hr & Hk)].
  - destruct (nulls_drain p w0 ln rn) as [k2 Hk2]. exists (k + k2)%nat. intros fuel Hf. rewrite bind_Ok. left.
    exists (ys ++ null_rows p ln rn). split; [|by rewrite Hys].
    replace fuel with (k + (k2 + (fuel - k - k2)))%nat by lia. rewrite map_app, <- (Hk2 (fuel - k - k2)%nat). exact (Hk _).
  - exists k. intros fuel Hf. rewrite bind_Ok. right. exists ys, r. split; [|done].
    replace fuel with (k + (fuel - k))%nat by lia. exact (Hk _).
Qed.
End with_workspace.

Context {CRC : Crc32} {CRCok : Crc32Ok} {CRCc : Crc32c} {CRCcok : Crc32cOk}.

End join.

(** ** On concrete rows *)

Section witness.
Import Journal.Ieee Castagnoli PlainDecimal PlainJson PlainCrates.

(** A hash: the key's bytes and the seed. *)
#[local] Instance sum_hash : Xxh3 := {| xxh3_64_with_seed := fun key seed => wrap64 (be_value key + seed) |}.

Definition small_config : JoinConfig := MkJoinConfig 8192 65536 10 2.
Definition null_row : Tuple := MkTuple [VNull; VInt32 4].

Lemma int_rows_ok : Forall (fun t => fits two_ints t /\ key_column TInt32 0 t) (some_rows ++ [null_row]).
Proof.
  apply Forall_app. split.
  - apply Forall_forall. intros t Ht. split; [pose proof some_rows_fit as F; rewrite Forall_forall in F; by apply F|].
    destruct (some_rows_keys t Ht) as (v & Ev & Cv & _). exists v. auto.
  - constructor; [|constructor]. split.
    + apply Forall2_cons_2; [by left|]. apply Forall2_cons_2; [right; cbn; unfold is_int; lia|constructor].
    + exists VNull. auto.
Qed.


(** A budget of ten bytes repartitions down to the last level; the rows are all
    there: two matches each way for key 7, one for -3, and the NULLs padded. *)
Example repartitioned_rows :
  map_ok (map (map_ok ints))
    (grace_hash_with (MemoryWorkspace_new 65536) 200 2 2 (Ok (map Ok (some_rows ++ [null_row]))) (Ok (map Ok (some_rows ++ [null_row])))
       on_first JFull two_ints two_ints small_config)
  = Ok (map Ok [[7; 1; 7; 1]; [7; 3; 7; 1]; [-3; 2; -3; 2]; [7; 1; 7; 3]; [7; 3; 7; 3]; [4]; [4]]).
Proof. vm_compute. reflexivity. Qed.

(** [INT] against [BIGINT] keys: equal for the nested loop, different bytes here,
    so the match is lost. *)
Example mixed_width_keys_do_not_match :
  let big := MkSchema [Field_new "k" TInt64; Field_new "id" TInt32] in
  let R := [MkTuple [VInt64 7; VInt32 9]] in
  map_ok (map (map_ok ints)) (nested_loop_join 2 2 (Ok (map Ok [int_row 7 1])) (Ok (map Ok R)) on_first JInner) = Ok [Ok [7; 1; 7; 9]]
  /\ map_ok (map (map_ok ints))
       (grace_hash_with (MemoryWorkspace_new 65536) 200 2 2 (Ok (map Ok [int_row 7 1])) (Ok (map Ok R)) on_first JInner two_ints big small_config) = Ok [].
Proof. vm_compute. auto. Qed.
End witness.
