(* ===== verification/Volcano.v ===== *)
(** * The executor

    query/volcano/mod.rs, query/volcano/sink.rs, query/executor.rs and
    query/context.rs: a physical plan wired to its operators.  A [QueryContext]
    is the row store it borrows, the join configuration and what the scratch
    files can use.  A stream is the list of what it yields, so reads are drained
    where they are built; the store is passed along because reads touch its
    caches.  Both inputs of a join are read before the operator runs, and it meets
    their errors in its own order.  [grace_fuel] bounds the turns of a hash
    join's stream. *)

From Stdlib Require Import Strings.Byte Strings.String ZArith Lia.
From stdpp Require Import prelude list gmap strings.
From S2P Require Import Prelude Journal Page Workspace Value ValueCodec Compare RustText Temporal Expression RowTable RowTableOk RowStore SystemCatalog Catalog Plan Spill Sort Joins GraceHash.
Local Open Scope Z_scope.

Section volcano.
Context {DEC : RustDecimal} {JS : SerdeJson} {STX : StdText} {CAL : Calendar} {XC : ExprCrates} {H : Xxh3} {CRC : Crc32} {CRCc : Crc32c}.
Context {S : Type} {RS : RowStore S}.
Context {SP : Serde ProjectMeta} {SD : Serde DatasetMeta} {ST : Serde TableMeta} {SC : Serde ColumnMeta} {SS : Serde ColumnStats}.
Abbreviation RowStream := (list (res QueryError Tuple)).
Abbreviation CM A := (SR S QueryError A).

Record QueryContext : Type := MkQueryContext { join_config : JoinConfig; disk_limit : Z; grace_fuel : nat }.
Context (ctx : QueryContext).

Inductive ExecuteResult : Type :=
| Rows (rows : RowStream)
| Affected (count : Z).

(** A join over its two inputs, built in the operator. *)
Definition join_rows (left_width right_width : nat) (left right : res QueryError RowStream) (on : option Expr) (join_type : JoinType)
    (left_schema right_schema : Schema) (strategy : JoinStrategy) : res QueryError RowStream :=
  match strategy with
  | NestedLoop => nested_loop_join left_width right_width left right on join_type
  | BlockNestedLoop => block_nested_loop_join left_width right_width left right on join_type right_schema
  | SortMerge => sort_merge_join left_width left right on join_type
  | GraceHash =>
      grace_hash_join (disk_limit ctx) (grace_fuel ctx) left_width right_width left right on join_type left_schema right_schema (join_config ctx)
  end.

Fixpoint build (node : PlanNode) : CM RowStream :=
  match node with
  | PSeqScan table => rs_scan table ScanOptions_new
  | PSystemScan relation => fun s => (s, map_ok (map Ok) (system_rows (catalog s) relation))
  | PFilter input predicate => rows ← build input; mret (filter_stream rows predicate)
  | PProject input expressions => rows ← build input; mret (project_stream rows expressions)
  | PLimit input count => rows ← build input; mret (limit_stream rows count)
  | POffset input count => rows ← build input; mret (offset_stream rows count)
  | PJoin left_n right_n on join_type left_schema right_schema strategy => fun s =>
      let '(s, l) := build left_n s in
      let '(s, r) := build right_n s in
      (s, join_rows (output_arity left_n) (output_arity right_n) l r on join_type left_schema right_schema strategy)
  | PSort input keys input_schema => rows ← build input; sr_lift (sort (disk_limit ctx) rows keys input_schema)
  | PValues rows => mret (map Ok rows)
  | PInsert _ _ | PDelete _ _ | PCreateTable _ _ _ _ _ | PCreateDataset _ _ _ =>
      sr_lift (Err (QInternal "write sinks may only appear at the top of a plan"))
  end.

Definition drain (input : PlanNode) : CM (list Tuple) := rows ← build input; sr_lift (collect_res rows).

(** ** Sinks *)

Definition insert (table : Table) (input : PlanNode) : CM Z :=
  tuples ← drain input;
  _ ← sr_for tuples (fun tuple => rs_put table tuple);
  mret (Z.of_nat (length tuples)).

Definition delete_row (table : Table) (tuple : Tuple) : CM unit :=
  match values tuple with
  | [] => sr_lift (Err (QInternal "delete source has no primary-key column"))
  | key :: _ => rs_delete table key
  end.

Definition delete (table : Table) (input : PlanNode) : CM Z :=
  tuples ← drain input;
  _ ← sr_for tuples (delete_row table);
  mret (Z.of_nat (length tuples)).

(** [run]; [new_id] is the id a creation mints. *)
Definition run (new_id : list byte) (plan : PlanNode) : CM ExecuteResult :=
  match plan with
  | PInsert table input => n ← insert table input; mret (Affected n)
  | PDelete table input => n ← delete table input; mret (Affected n)
  | PCreateTable project_id dataset_id name schema or_replace =>
      _ ← (if or_replace then replace_table new_id project_id dataset_id name schema
           else create_table new_id project_id dataset_id name schema);
      mret (Affected 0)
  | PCreateDataset project_id name if_not_exists => fun s =>
      match create_dataset new_id project_id name s with
      | (s', Ok _) => (s', Ok (Affected 0))
      | (s', Err (QCatalog (AlreadyExists k n))) => (s', if if_not_exists then Ok (Affected 0) else Err (QCatalog (AlreadyExists k n)))
      | (s', Err e) => (s', Err e)
      | (s', Panic) => (s', Panic)
      end
  | read_node => rows ← build read_node; mret (Rows rows)
  end.
End volcano.
