(* ===== verification/VolcanoOk.v ===== *)
(** * Executed plans answer their queries

    [yields] is what a logical plan means over the rows a store holds: a relation,
    because joins do not fix the order of their rows.  Executing the lowered plan
    gives rows the plan yields. *)

From Stdlib Require Import Strings.Byte Strings.String ZArith Lia Sorted Permutation.
From stdpp Require Import prelude list gmap strings.
From S2P Require Import Prelude LsmKey SstHeader Memtable Journaled Lsm LsmDurable Engine EngineRest BlockStore BlockJournal Journal Page TuplePage MemoryPool Workspace Value ValueCodec Compare KeyCodec RustText Temporal Expression ExprTyping RowTable RowTableOk RowStore SystemCatalog Catalog CatalogOk CatalogRuns Plan Spill Sort SortOk Joins JoinsOk GraceHash Volcano.
Local Open Scope Z_scope.

Section answers.
Context {DEC : RustDecimal} {JS : SerdeJson} {STX : StdText} {CAL : Calendar} {XC : ExprCrates} {H : Xxh3} {CRC : Crc32} {CRCc : Crc32c}.
Context {S : Type} {RS : RowStore S} {RSok : RowStoreOk S}.
Context {SP : Serde ProjectMeta} {SD : Serde DatasetMeta} {ST : Serde TableMeta} {SC : Serde ColumnMeta} {SS : Serde ColumnStats}.
Context {DECok : RustDecimalOk} {CRCok : Crc32Ok} {CRCcok : Crc32cOk}.
Implicit Types (ops : list table_op) (s : S).

(** ** The meaning of a plan *)

Definition keeps (p : Expr) (t : Tuple) : bool := match eval p t with Ok (VBool true) => true | _ => false end.

Definition projects (es : list Expr) (t t' : Tuple) : Prop := collect_res (map (fun e => eval e t) es) = Ok (values t').

(** The rows of a table in key order. *)
Definition table_rows ops (t : Table) (l : list Tuple) : Prop :=
  exists rows : list (list byte * Tuple), l = rows.*2 /\ StronglySorted (fun a b => bytes_cmp a.1 b.1 = Lt) rows
    /\ forall k row, (k, row) ∈ rows <-> row_at ops t k = Some row.

Definition stable_sort (K : Tuple -> list (list byte)) (l out : list Tuple) : Prop :=
  out ≡ₚ l /\ StronglySorted (fun a b => key_cmp (K a) (K b) <> Gt) out /\ forall k, filter (fun t => K t = k) out = filter (fun t => K t = k) l.

(** The key bytes of a column. *)
Definition key_of (i : nat) (t : Tuple) : list byte :=
  match values t !! i with Some v => match encode_key v with Ok k => k | _ => [] end | None => [] end.

Fixpoint yields ops (n : LogicalNode) (l : list Tuple) : Prop :=
  match n with
  | LScan t => table_rows ops t l
  | LSystemScan r => forall s, rs_holds s ops -> system_rows (catalog s) r = Ok l
  | LFilter i p => exists li, yields ops i li /\ l = List.filter (keeps p) li
  | LProject i es => exists li, yields ops i li /\ Forall2 (projects es) li l
  | LLimit i c => exists li, yields ops i li /\ l = list.take c li
  | LOffset i c => exists li, yields ops i li /\ l = drop c li
  | LJoin a b on jt ls rs =>
      exists L R m, yields ops a L /\ yields ops b R /\ decides on m L R /\ l ≡ₚ join_spec m jt (length (fields ls)) (length (fields rs)) L R
  | LSort i ks _ => exists li K, yields ops i li /\ (forall t, t ∈ li -> sort_key_bytes t ks = Ok (K t)) /\ stable_sort K li l
  | LValues rows => l = rows
  | LInsert _ _ | LDelete _ _ | LCreateTable _ _ _ _ _ | LCreateDataset _ _ _ => False
  end.

(** The plan reads tables of the store, its expressions evaluate on every row its
    inputs can yield, and these rows fit the schemas the plan gives them; the keys
    of an inner equi-join are values of one orderable type, none NULL. *)
Fixpoint safe ops (n : LogicalNode) : Prop :=
  match n with
  | LScan t => table_wf t /\ schemas_agree ops t
  | LSystemScan r => exists l, forall s, rs_holds s ops -> system_rows (catalog s) r = Ok l
  | LFilter i p => safe ops i /\ forall li, yields ops i li -> Forall (fun t => exists v, eval p t = Ok v) li
  | LProject i es => safe ops i /\ forall li, yields ops i li -> Forall (fun t => exists t', projects es t t') li
  | LLimit i _ | LOffset i _ => safe ops i
  | LJoin a b on jt ls rs =>
      safe ops a /\ safe ops b /\ output_arity (lower a) = length (fields ls) /\ output_arity (lower b) = length (fields rs)
      /\ (forall L, yields ops a L -> Forall (fits ls) L) /\ (forall R, yields ops b R -> Forall (fits rs) R)
      /\ (forall L R, yields ops a L -> yields ops b R -> exists m, decides on m L R)
      /\ forall lk rk, jt = JInner -> equi_join_keys on (length (fields ls)) = Some (lk, rk) ->
           exists ty, orderable ty = true /\ (forall L, yields ops a L -> forall l, l ∈ L -> has_key ty lk l (key_of lk l))
             /\ (forall R, yields ops b R -> forall r, r ∈ R -> has_key ty rk r (key_of rk r))
  | LSort i ks sch => safe ops i /\ forall li, yields ops i li -> exists K, Forall (fun t => fits sch t /\ sort_key_bytes t ks = Ok (K t)) li
  | LValues _ => True
  | LInsert _ _ | LDelete _ _ | LCreateTable _ _ _ _ _ | LCreateDataset _ _ _ => False
  end.

(** The errors and panics of scratch files. *)
Definition scratch_error (e : QueryError) : Prop := refused FileWorkspace e \/ refused MemoryWorkspace e.
Definition scratch_panic : Prop := ws_panics (W := FileWorkspace) \/ ws_panics (W := MemoryWorkspace).
Abbreviation answers r P := (outcome scratch_error scratch_panic r P).

Lemma file_answers {A} (r : res QueryError A) P : spills FileWorkspace r P -> answers r P.
Proof. intros Hr. eapply outcome_impl; [exact Hr|by left|by left|done]. Qed.

Lemma memory_answers {A} (r : res QueryError A) P : spills MemoryWorkspace r P -> answers r P.
Proof. intros Hr. eapply outcome_impl; [exact Hr|by right|by right|done]. Qed.

(** ** Pipelined operators *)

Lemma filter_rows p l : Forall (fun t => exists v, eval p t = Ok v) l -> filter_stream (map Ok l) p = map Ok (List.filter (keeps p) l).
Proof.
  induction 1 as [|t l [v Hv] _ IH]; [done|]. unfold filter_stream in *. cbn [map mbind list_bind List.filter]. rewrite IH. unfold filter_row, keeps at 2. rewrite Hv.
  destruct v as [|b| | | | | | | | | | | | | | |]; try done. by destruct b.
Qed.

Lemma project_rows es l : Forall (fun t => exists t', projects es t t') l -> exists l', project_stream (map Ok l) es = map Ok l' /\ Forall2 (projects es) l l'.
Proof.
  induction 1 as [|t l [t' Ht] _ (l' & E & Hl)]; [by exists []|]. exists (t' :: l'). split; [|by constructor]. unfold project_stream in *. cbn [map]. rewrite E.
  unfold project_row. rewrite bind_Ok, Ht, bind_Ok. by destruct t'.
Qed.

Lemma limit_rows l c : limit_stream (map Ok l) c = map Ok (list.take c l).
Proof. revert l. induction c as [|c IH]; intros [|t l]; cbn; [done..|]. by rewrite IH. Qed.

Lemma offset_rows l c : offset_stream (map Ok l) c = map Ok (drop c l).
Proof. revert l. induction c as [|c IH]; intros [|t l]; cbn; [done..|]. by rewrite IH. Qed.

(** ** Plans *)

Context (ctx : QueryContext) (w0 : FileWorkspace) (Hnew : FileWorkspace_new (disk_limit ctx) SORT_RUN_MEMORY SORT_RUN_DISK = Ok w0).

(** A plan's stream, with the store it leaves. *)
Definition produces ops (n : PlanNode) (P : list Tuple -> Prop) : Prop :=
  forall s, rs_holds s ops -> exists s' r, build ctx n s = (s', r) /\ rs_holds s' ops /\ answers r (fun st => exists out, st = map Ok out /\ P out).

Lemma produces_bind ops i n f (P Q : list Tuple -> Prop) : (forall s, build ctx n s = (rows ← build ctx i; sr_lift (f rows)) s) -> produces ops i P ->
  (forall l, P l -> answers (f (map Ok l)) (fun st => exists out, st = map Ok out /\ Q out)) -> produces ops n Q.
Proof.
  intros Hn Hi Hf s Hs. destruct (Hi s Hs) as (s' & r & E & Hs' & Hr). destruct r as [st|e|].
  - destruct Hr as (l & -> & Hl). exists s', (f (map Ok l)). rewrite Hn, (sr_bind_ok _ _ _ _ _ E). split; [reflexivity|]. split; [exact Hs'|]. by apply Hf.
  - exists s', (Err e). rewrite Hn, (sr_bind_err _ _ _ _ _ E). split; [reflexivity|]. split; [exact Hs'|exact Hr].
  - exists s', Panic. rewrite Hn. unfold mbind, sr_bind. rewrite E. split; [reflexivity|]. split; [exact Hs'|exact Hr].
Qed.

Lemma produces_join ops a b on jt ls rs strategy (P Q R : list Tuple -> Prop) : produces ops a P -> produces ops b Q ->
  (forall l r, answers l (fun st => exists out, st = map Ok out /\ P out) -> answers r (fun st => exists out, st = map Ok out /\ Q out) ->
     answers (join_rows ctx (output_arity a) (output_arity b) l r on jt ls rs strategy) (fun st => exists out, st = map Ok out /\ R out)) ->
  produces ops (PJoin a b on jt ls rs strategy) R.
Proof.
  intros Ha Hb Hj s Hs. destruct (Ha s Hs) as (s1 & l & E1 & H1 & Hl), (Hb s1 H1) as (s2 & r & E2 & H2 & Hr).
  exists s2. eexists. cbn [build]. rewrite E1, E2. split; [reflexivity|]. split; [exact H2|]. by apply Hj.
Qed.

Lemma scan_produces ops t : table_wf t -> schemas_agree ops t -> produces ops (PSeqScan t) (table_rows ops t).
Proof using RSok.
  intros Ht Hs s Hh. destruct (rs_scan_ok s ops t ScanOptions_new Hh Ht Hs eq_refl) as (s' & rows & E & Hh' & Hsort & Hm).
  exists s', (Ok (map Ok rows.*2)). split; [exact E|]. split; [exact Hh'|]. exists rows.*2. split; [reflexivity|]. exists rows. split; [reflexivity|]. split; [exact Hsort|].
  intros k row. rewrite Hm. split; [intros Hr; exact (proj2 Hr)|intros Hr; split; [reflexivity|exact Hr]].
Qed.

Lemma sort_produces ops i ks sch (P : list Tuple -> Prop) : produces ops i P ->
  (forall l, P l -> exists K, Forall (fun t => fits sch t /\ sort_key_bytes t ks = Ok (K t)) l) ->
  produces ops (PSort i ks sch) (fun out => exists l K, P l /\ (forall t, t ∈ l -> sort_key_bytes t ks = Ok (K t)) /\ stable_sort K l out).
Proof using DECok CRCok CRCcok Hnew.
  intros Hi HK. eapply (produces_bind ops i _ (fun rows => sort (disk_limit ctx) rows ks sch)); [reflexivity|exact Hi|].
  intros l Hl. destruct (HK l Hl) as [K Hs]. unfold sort. rewrite Hnew. eapply outcome_impl; [|intros e He; left; exact He|intros Hp; left; exact Hp|].
  - exact (sort_with_ok (WOK := FileWorkspace_ok) ks sch K SORT_RUN_TUPLES w0 (fw_new_holds _ _ _ _ Hnew) l Hs).
  - intros st (out & -> & Hout). exists out. split; [reflexivity|]. exists l, K. split; [exact Hl|]. split; [|exact Hout]. rewrite Forall_forall in Hs. intros t Ht. exact (proj2 (Hs t Ht)).
Qed.

Lemma enforcer_produces ops i ty key sch (P : list Tuple -> Prop) : orderable ty = true -> produces ops i P -> (forall l, P l -> Forall (fits sch) l) ->
  (forall l, P l -> forall t, t ∈ l -> has_key ty key t (key_of key t)) ->
  produces ops (sort_on i key sch) (fun out => exists l, P l /\ out ≡ₚ l /\ StronglySorted (fun x y => bytes_le (key_of key x) (key_of key y)) out).
Proof using DECok CRCok CRCcok Hnew.
  intros Ho Hi Hf Hk. eapply (produces_bind ops i _ (fun rows => sort (disk_limit ctx) rows [MkSortKey (EColumn key) true false] sch)); [reflexivity|exact Hi|].
  intros l Hl. apply file_answers. eapply spills_impl; [exact (enforcer_sorts ty _ w0 key (key_of key) sch l Ho Hnew (Hf l Hl) (Hk l Hl))|].
  intros st (out & -> & Hp & Hs). exists out. split; [reflexivity|]. exists l. split; [exact Hl|]. split; [exact Hp|exact Hs].
Qed.

(** The inner side is stored before a failed outer side is met. *)
Lemma inner_filled {A} rs R (rest : MemoryWorkspace -> res QueryError A) (P : A -> Prop) : Forall (fits rs) R -> (forall w, answers (rest w) P) ->
  answers (w ← map_err (fun _ => QInternal "join workspace") (Ok (E := Error) inner_workspace); right ← Ok (map Ok R); w ← fill_inner rs right w; rest w) P.
Proof using DECok.
  intros Hf Hr. cbn [map_err]. rewrite !bind_Ok. eapply outcome_bind; [apply memory_answers, (fill_inner_ok rs R Hf inner_workspace [] inner_workspace_empty)|].
  intros w _. exact (Hr w).
Qed.

(** The block nested loop over inputs that may fail. *)
Lemma block_answers lw rw left_r right_r on jt rs (P Q : list Tuple -> Prop) :
  answers left_r (fun st => exists L, st = map Ok L /\ P L) -> answers right_r (fun st => exists R, st = map Ok R /\ Q R) ->
  (forall R, Q R -> Forall (fits rs) R) -> (forall L R, P L -> Q R -> exists m, decides on m L R) ->
  answers (block_nested_loop_join lw rw left_r right_r on jt rs)
    (fun st => exists out, st = map Ok out /\ exists L R m, P L /\ Q R /\ decides on m L R /\ out ≡ₚ join_spec m jt lw rw L R).
Proof using DECok.
  intros Hl Hr Hf Hm. pose proof inner_workspace_empty as Hw. unfold block_nested_loop_join. rewrite inner_workspace_new.
  destruct right_r as [rst|e|]; [|exact Hr..]. destruct Hr as (R & -> & HR). destruct left_r as [lst|e|].
  - destruct Hl as (L & -> & HL). destruct (Hm L R HL HR) as [m Hd]. apply memory_answers. eapply spills_impl.
    + exact (block_nested_loop_ok on jt lw rw m rs R (Hf R HR) OUTER_BLOCK_TUPLES ltac:(unfold OUTER_BLOCK_TUPLES; lia) inner_workspace Hw L Hd).
    + intros st (out & -> & Hp). exists out. split; [reflexivity|]. exists L, R, m. split; [exact HL|]. split; [exact HR|]. split; [exact Hd|exact Hp].
  - unfold block_nested_loop_with. apply (inner_filled rs R _ _ (Hf R HR)). intros w. exact Hl.
  - unfold block_nested_loop_with. apply (inner_filled rs R _ _ (Hf R HR)). intros w. exact Hl.
Qed.

(** The merge of two sorted inputs that may fail. *)
Lemma merge_answers ty on (ls : Schema) rw lk rk left_r right_r (P Q : list Tuple -> Prop) :
  orderable ty = true -> equi_join_keys on (length (fields ls)) = Some (lk, rk) -> (forall L, P L -> Forall (fits ls) L) ->
  (forall L, P L -> forall l, l ∈ L -> has_key ty lk l (key_of lk l)) -> (forall R, Q R -> forall r, r ∈ R -> has_key ty rk r (key_of rk r)) ->
  answers left_r (fun st => exists out, st = map Ok out /\ exists L, P L /\ out ≡ₚ L /\ StronglySorted (fun x y => bytes_le (key_of lk x) (key_of lk y)) out) ->
  answers right_r (fun st => exists out, st = map Ok out /\ exists R, Q R /\ out ≡ₚ R /\ StronglySorted (fun x y => bytes_le (key_of rk x) (key_of rk y)) out) ->
  answers (sort_merge_join (length (fields ls)) left_r right_r on JInner)
    (fun st => exists out, st = map Ok out /\ exists L R m, P L /\ Q R /\ decides on m L R /\ out ≡ₚ join_spec m JInner (length (fields ls)) rw L R).
Proof using DECok.
  intros Ho Ek HF KL KR Hl Hr. destruct left_r as [st|e|]; [|unfold sort_merge_join; cbn [debug_assert]; rewrite bind_Ok, (equi_keys_of _ _ _ _ Ek), bind_Ok; exact Hl..].
  destruct Hl as (lo & -> & L & HL & Pl & Sl).
  destruct right_r as [st|e|]; [|unfold sort_merge_join; cbn [debug_assert]; rewrite bind_Ok, (equi_keys_of _ _ _ _ Ek), !bind_Ok, collect_rows, bind_Ok; exact Hr..].
  destruct Hr as (ro & -> & R & HR & Pr & Sr). eapply outcome_impl.
  - apply (merge_rows_ok scratch_error scratch_panic ty on _ lk rk rw (key_of lk) (key_of rk) L R _ _ Ho Ek (KL L HL) (KR R HR)).
    + exists lo. split; [reflexivity|]. split; [exact Pl|exact Sl].
    + exists ro. split; [reflexivity|]. split; [exact Pr|exact Sr].
  - intros e He. exact He.
  - intros Hp. exact Hp.
  - intros st (out & -> & Hp). exists out. split; [reflexivity|]. exists L, R. eexists. split; [exact HL|]. split; [exact HR|]. split; [|exact Hp].
    intros l r Il Ir. apply (equi_decides ty on (length (fields ls)) lk rk (key_of lk) (key_of rk) l r Ho Ek); [|exact (KL L HL l Il)|exact (KR R HR r Ir)].
    pose proof (proj1 (Forall_forall _ _) (HF L HL) l Il) as Hfit. symmetry. exact (Forall2_length _ _ _ Hfit).
Qed.
Lemma join_produces ops a b on jt ls rs (P Q : list Tuple -> Prop) : produces ops a P -> produces ops b Q ->
  output_arity a = length (fields ls) -> output_arity b = length (fields rs) ->
  (forall L, P L -> Forall (fits ls) L) -> (forall R, Q R -> Forall (fits rs) R) -> (forall L R, P L -> Q R -> exists m, decides on m L R) ->
  (forall lk rk, jt = JInner -> equi_join_keys on (length (fields ls)) = Some (lk, rk) ->
     exists ty, orderable ty = true /\ (forall L, P L -> forall l, l ∈ L -> has_key ty lk l (key_of lk l))
       /\ (forall R, Q R -> forall r, r ∈ R -> has_key ty rk r (key_of rk r))) ->
  produces ops (lower_join a b on jt ls rs) (fun l => exists L R m, P L /\ Q R /\ decides on m L R
    /\ l ≡ₚ join_spec m jt (length (fields ls)) (length (fields rs)) L R).
Proof using DECok CRCok CRCcok Hnew.
  intros Ha Hb Wa Wb Fa Fb Hd Hk.
  assert (produces ops (PJoin a b on jt ls rs BlockNestedLoop) (fun l => exists L R m, P L /\ Q R /\ decides on m L R
    /\ l ≡ₚ join_spec m jt (length (fields ls)) (length (fields rs)) L R)) as Hblock.
  { eapply produces_join; [exact Ha|exact Hb|]. intros l r Hl Hr. rewrite Wa, Wb. exact (block_answers _ _ l r on jt rs P Q Hl Hr Fb Hd). }
  unfold lower_join. destruct jt; [|exact Hblock..].
  destruct (equi_join_keys on (length (fields ls))) as [[lk rk]|] eqn:Ek; [|exact Hblock].
  destruct (Hk lk rk eq_refl eq_refl) as (ty & Ho & Kl & Kr). eapply produces_join.
  - exact (enforcer_produces ops a ty lk ls P Ho Ha Fa Kl).
  - exact (enforcer_produces ops b ty rk rs Q Ho Hb Fb Kr).
  - intros l r Hl Hr. cbn [sort_on output_arity join_rows]. rewrite Wa. exact (merge_answers ty on ls _ lk rk l r P Q Ho Ek Fa Kl Kr Hl Hr).
Qed.

Lemma lower_produces ops n : safe ops n -> produces ops (lower n) (yields ops n).
Proof using RSok DECok CRCok CRCcok Hnew.
  induction n as [t|r|i IH p|i IH es|i IH c|i IH c|a IHa b IHb on jt ls rs|i IH ks sch|rows|t i IH|t i IH|p d nm sc o|p nm e];
    cbn [safe lower yields]; intros Hs; [..|destruct Hs|destruct Hs|destruct Hs|destruct Hs].
  - exact (scan_produces ops t (proj1 Hs) (proj2 Hs)).
  - destruct Hs as [l Hl]. intros s Hh. exists s, (Ok (map Ok l)). cbn [build]. rewrite (Hl s Hh). split; [reflexivity|]. split; [exact Hh|].
    exists l. split; [reflexivity|exact Hl].
  - eapply (produces_bind ops _ _ (fun rows => Ok (filter_stream rows p))); [reflexivity|exact (IH (proj1 Hs))|].
    intros l Hl. exists (List.filter (keeps p) l). split; [exact (filter_rows p l (proj2 Hs l Hl))|]. exists l. split; [exact Hl|reflexivity].
  - eapply (produces_bind ops _ _ (fun rows => Ok (project_stream rows es))); [reflexivity|exact (IH (proj1 Hs))|].
    intros l Hl. destruct (project_rows es l (proj2 Hs l Hl)) as (l' & E & Hp). exists l'. split; [exact E|]. exists l. split; [exact Hl|exact Hp].
  - eapply (produces_bind ops _ _ (fun rows => Ok (limit_stream rows c))); [reflexivity|exact (IH Hs)|].
    intros l Hl. exists (list.take c l). split; [exact (limit_rows l c)|]. exists l. split; [exact Hl|reflexivity].
  - eapply (produces_bind ops _ _ (fun rows => Ok (offset_stream rows c))); [reflexivity|exact (IH Hs)|].
    intros l Hl. exists (drop c l). split; [exact (offset_rows l c)|]. exists l. split; [exact Hl|reflexivity].
  - destruct Hs as (Sa & Sb & Wa & Wb & Fa & Fb & Hd & Hk). exact (join_produces ops _ _ on jt ls rs _ _ (IHa Sa) (IHb Sb) Wa Wb Fa Fb Hd Hk).
  - exact (sort_produces ops _ ks sch _ (IH (proj1 Hs)) (proj2 Hs)).
  - intros s Hh. exists s, (Ok (map Ok rows)). split; [reflexivity|]. split; [exact Hh|]. exists rows. split; reflexivity.
Qed.
(** ** The executor *)

Lemma run_read ops n id s : safe ops n -> run ctx id (lower n) s = (rows ← build ctx (lower n); mret (Rows rows)) s.
Proof.
  destruct n as [t|r|i p|i es|i c|i c|a b on jt ls rs|i ks sch|rows|t i|t i|p d nm sc o|p nm e]; intros Hs; try reflexivity; try destruct Hs.
  cbn [lower]. unfold lower_join. destruct jt; try reflexivity. destruct (equi_join_keys on (length (fields ls))) as [[lk rk]|]; reflexivity.
Qed.

(** A drained plan gives rows it yields. *)
Lemma drain_ok ops n s s' out : safe ops n -> rs_holds s ops -> drain ctx (lower n) s = (s', Ok out) -> yields ops n out /\ rs_holds s' ops.
Proof using RSok DECok CRCok CRCcok Hnew.
  intros Hs Hh E. destruct (lower_produces ops n Hs s Hh) as (s1 & r & E1 & H1 & Hr). unfold drain in E. destruct r as [st|e|].
  - destruct Hr as (l & -> & Hl). rewrite (sr_bind_ok _ _ _ _ _ E1), collect_rows in E. injection E as <- <-. split; [exact Hl|exact H1].
  - rewrite (sr_bind_err _ _ _ _ _ E1) in E. discriminate E.
  - unfold mbind, sr_bind in E. rewrite E1 in E. discriminate E.
Qed.

(** Acknowledged writes, one per row. *)
Lemma writes_ok {A} (f : A -> SR S QueryError unit) (op : A -> table_op) (l : list A) :
  (forall s ops a s', a ∈ l -> rs_holds s ops -> op_fits ops (op a) -> f a s = (s', Ok tt) -> rs_holds s' (ops ++ [op a])) ->
  forall s ops s', rs_holds s ops -> Forall (fun a => Z.of_nat (length (op_change (op a)).1) + 27 <= u32_max) l ->
  is_u64 (Z.of_nat (length ops + length l)) -> sr_for l f s = (s', Ok tt) -> rs_holds s' (ops ++ map op l).
Proof using RSok.
  induction l as [|a l IH]; intros Hf s ops s' Hh Hk Hu E; cbn [sr_for map length] in *.
  - injection E as <-. rewrite app_nil_r. exact Hh.
  - apply sr_bind_inv in E as (s1 & [] & E1 & E2). apply Forall_cons in Hk as [Ha Hk]. unfold is_u64 in Hu.
    assert (rs_holds s1 (ops ++ [op a])) as H1.
    { apply (Hf s ops a s1); [left|exact Hh| |exact E1]. split; [exact Ha|unfold is_u64; lia]. }
    change (op a :: map op l) with ([op a] ++ map op l). rewrite app_assoc. apply (IH (fun s ops a s' Hin => Hf s ops a s' (list_elem_of_further _ _ _ Hin)) s1); [exact H1|exact Hk| |exact E2].
    rewrite length_app. cbn [length] in *. unfold is_u64. lia.
Qed.

(** A sink: the source is drained, then one write is made per row. *)
Lemma sink_ok ops n s s' (f : Tuple -> SR S QueryError unit) (op : Tuple -> table_op) (fine : Tuple -> Prop) (c : Z) :
  rs_holds s ops -> safe ops n ->
  (forall out, yields ops n out -> Forall (fun row => fine row /\ Z.of_nat (length (op_change (op row)).1) + 27 <= u32_max) out
     /\ is_u64 (Z.of_nat (length ops + length out))) ->
  (forall s ops row s', fine row -> rs_holds s ops -> op_fits ops (op row) -> f row s = (s', Ok tt) -> rs_holds s' (ops ++ [op row])) ->
  (tuples ← drain ctx (lower n); _ ← sr_for tuples f; mret (Z.of_nat (length tuples))) s = (s', Ok c) ->
  exists out, yields ops n out /\ c = Z.of_nat (length out) /\ rs_holds s' (ops ++ map op out).
Proof using RSok DECok CRCok CRCcok Hnew.
  intros Hh Hs Hout Hf E. apply sr_bind_inv in E as (s1 & out & E1 & E). apply sr_bind_inv in E as (s3 & [] & E2 & [= <- <-]).
  destruct (drain_ok ops n s s1 out Hs Hh E1) as [Hy H1], (Hout out Hy) as [Hfine Hu]. exists out. split; [exact Hy|]. split; [reflexivity|].
  apply Forall_and in Hfine as [Hfine Hk]. refine (writes_ok f op out _ s1 ops s3 H1 Hk Hu E2).
  intros s4 ops4 row s5 Hin. rewrite Forall_forall in Hfine. exact (Hf s4 ops4 row s5 (Hfine row Hin)).
Qed.

(** A query answers with the rows its plan means.  A plan of scans, filters,
    projections, limits, joins and sorts that is [safe] over the rows of the store
    (its expressions evaluate on the rows they meet, which fit the schemas the
    plan gives), lowered and run, ends in the rows the plan yields over these
    tables: a scan in key order, a filter's TRUE rows, a join's pairs and padded
    rows in some order, a sort stable by its keys.  The only other outcomes are
    those of a scratch file that is refused, and the store keeps its rows. *)
Theorem query_answers (id : list byte) (ops : list table_op) (s : S) (n : LogicalNode) :
  rs_holds s ops -> safe ops n ->
  exists s' r, run ctx id (lower n) s = (s', r) /\ rs_holds s' ops
    /\ answers r (fun result => exists out, result = Rows (map Ok out) /\ yields ops n out).
Proof using RSok DECok CRCok CRCcok Hnew.
  intros Hh Hs. destruct (lower_produces ops n Hs s Hh) as (s' & r & E & Hh' & Hr). rewrite (run_read ops n id s Hs). exists s'. destruct r as [st|e|].
  - destruct Hr as (out & -> & Hy). eexists. rewrite (sr_bind_ok _ _ _ _ _ E). split; [reflexivity|]. split; [exact Hh'|]. exists out. split; [reflexivity|exact Hy].
  - eexists. rewrite (sr_bind_err _ _ _ _ _ E). split; [reflexivity|]. split; [exact Hh'|exact Hr].
  - exists Panic. unfold mbind, sr_bind. rewrite E. split; [reflexivity|]. split; [exact Hh'|exact Hr].
Qed.

(** C9: an INSERT writes the rows its source yielded before the statement.  The
    source is drained first, so a source that reads the target table does not see
    the rows being inserted.  The acknowledged statement reports the number of
    these rows, and the store's history is extended by one put for each of them,
    in the order of the source. *)
Theorem insert_writes_source (id : list byte) (ops : list table_op) (s s' : S) (t : Table) (n : LogicalNode) (result : ExecuteResult) :
  rs_holds s ops -> safe ops n -> table_wf t ->
  (forall out, yields ops n out -> Forall (fun row => row_fits t row /\ Z.of_nat (length (op_change (TPut t row)).1) + 27 <= u32_max) out
     /\ is_u64 (Z.of_nat (length ops + length out))) ->
  run ctx id (lower (LInsert t n)) s = (s', Ok result) ->
  exists out, yields ops n out /\ result = Affected (Z.of_nat (length out)) /\ rs_holds s' (ops ++ map (TPut t) out).
Proof using RSok DECok CRCok CRCcok Hnew.
  intros Hh Hs Ht Hout E. cbn [lower run] in E. apply sr_bind_inv in E as (s2 & c & E & [= <- <-]).
  destruct (sink_ok ops n s s2 (rs_put t) (TPut t) (row_fits t) c Hh Hs Hout) as (out & Hy & -> & H2); [|exact E|].
  - intros s4 ops4 row s5 Hf H4. exact (rs_put_ok s4 ops4 t row s5 H4 Ht Hf).
  - exists out. split; [exact Hy|]. split; [reflexivity|exact H2].
Qed.

(** The key a DELETE takes from a row of its source. *)
Definition delete_key (row : Tuple) : Value := hd VNull (values row).

(** C10: a DELETE removes the keys of the rows its source yielded before the
    statement, and reports their number. *)
Theorem delete_removes_source (id : list byte) (ops : list table_op) (s s' : S) (t : Table) (n : LogicalNode) (result : ExecuteResult) :
  rs_holds s ops -> safe ops n -> table_wf t ->
  (forall out, yields ops n out -> Forall (fun row => values row <> [] /\ Z.of_nat (length (op_change (TDelete t (delete_key row))).1) + 27 <= u32_max) out
     /\ is_u64 (Z.of_nat (length ops + length out))) ->
  run ctx id (lower (LDelete t n)) s = (s', Ok result) ->
  exists out, yields ops n out /\ result = Affected (Z.of_nat (length out)) /\ rs_holds s' (ops ++ map (fun row => TDelete t (delete_key row)) out).
Proof using RSok DECok CRCok CRCcok Hnew.
  intros Hh Hs Ht Hout E. cbn [lower run] in E. apply sr_bind_inv in E as (s2 & c & E & [= <- <-]).
  destruct (sink_ok ops n s s2 (delete_row t) (fun row => TDelete t (delete_key row)) (fun row => values row <> []) c Hh Hs Hout) as (out & Hy & -> & H2);
    [|exact E|].
  - intros s4 ops4 [[|key vs]] s5 Hf H4; [destruct (Hf eq_refl)|]. exact (rs_delete_ok s4 ops4 t key s5 H4 Ht).
  - exists out. split; [exact Hy|]. split; [reflexivity|exact H2].
Qed.
End answers.

(** ** On a database with one row *)

Section witness.
Import Journal.Ieee SstHeader.TinyBloom Page.Castagnoli PlainDecimal PlainJson PlainCrates TextSerde.
#[local] Instance v_store : RowStore (StorageEngine (M := BTreeMemtable.t)) := engine_rows engine_fine.
#[local] Instance v_store_ok : RowStoreOk (StorageEngine (M := BTreeMemtable.t)) := engine_rows_ok w_config c_mem c_usable.
#[local] Instance v_hash : Xxh3 := {| xxh3_64_with_seed := fun key seed => wrap64 (be_value key + seed) |}.

(** No statistics are stored here. *)
#[local] Instance v_stats : Serde ColumnStats := {| to_value _ := None; from_value _ := None |}.

Definition v_table : Table := Table_new w_pid w_did w_tid 0 "t" w_schema.
Definition v_ops : list table_op := [TPut v_table w_row].
Definition v_put := rs_put v_table w_row c_engine.
Definition v_ctx : QueryContext := MkQueryContext (MkJoinConfig 8192 65536 10 2) (2 ^ 40) 100.

(** [SELECT * FROM t] and [SELECT * FROM t JOIN t ON id = id]. *)
Definition v_scan : LogicalNode := LScan v_table.
Definition v_join : LogicalNode := LJoin v_scan v_scan (Some (EBinary OpEq (EColumn 0) (EColumn 2))) JInner w_schema w_schema.

Lemma v_holds : rs_holds v_put.1 v_ops.
Proof.
  assert (succeeds v_put = true) as E by (vm_compute; reflexivity). apply succeeds_ok in E as [[] E]. unfold v_put at 1 in E.
  assert (is_u64 (Z.of_nat 0 + 1)) as Hu by (unfold is_u64, u64_max; lia).
  exact (rs_put_ok c_engine [] v_table w_row v_put.1 c_engine_holds (proj1 (proj1 w_user_row)) (proj2 w_user_row) (conj w_row_fits Hu) E).
Qed.

Lemma v_row_at k row : row_at v_ops v_table k = Some row -> k = RowTableOk.key_bytes (VInt64 7) /\ row = w_row.
Proof.
  pose proof (row_at_snoc [] (TPut v_table w_row) v_table k) as E. cbn [app] in E. unfold v_ops. rewrite E.
  destruct (addresses v_table k (TPut v_table w_row)) eqn:Ea; [|discriminate]. unfold addresses in Ea. apply andb_prop in Ea as [_ Ea].
  apply bool_decide_eq_true in Ea as <-. intros [= <-]. split; reflexivity.
Qed.

Lemma v_rows l t : table_rows v_ops v_table l -> t ∈ l -> t = w_row.
Proof. intros (rows & -> & _ & Hm) ((k & row) & -> & Hin)%list_elem_of_fmap. apply Hm, v_row_at in Hin as [_ ->]. reflexivity. Qed.

Lemma v_all (P : Tuple -> Prop) : P w_row -> forall l, table_rows v_ops v_table l -> Forall P l.
Proof. intros HP l Hl. apply Forall_forall. intros t Ht. by rewrite (v_rows l t Hl Ht). Qed.

Lemma v_count l : table_rows v_ops v_table l -> (length l <= 1)%nat.
Proof.
  intros (rows & -> & Hs & Hm). rewrite length_fmap. destruct rows as [|[k1 r1] [|[k2 r2] rows]]; [cbn; lia..|]. exfalso.
  apply StronglySorted_inv in Hs as [_ Hs]. apply Forall_cons in Hs as [Hs _]. cbn [fst] in Hs.
  destruct (v_row_at k1 r1) as [-> _]; [apply Hm; left|]. destruct (v_row_at k2 r2) as [-> _]; [apply Hm; right; left|].
  rewrite (cmp_refl bytes_cmp) in Hs. discriminate Hs.
Qed.

Lemma v_safe : safe v_ops v_scan.
Proof. split; [exact (proj1 (proj1 w_user_row))|]. intros op Hop%list_elem_of_singleton _. by subst. Qed.

Lemma v_key i t l : (i = 0)%nat -> table_rows v_ops v_table l -> t ∈ l -> has_key TInt64 i t (key_of i t).
Proof. intros -> Hl Ht. rewrite (v_rows l t Hl Ht). exists (VInt64 7). split; [reflexivity|]. split; [cbn; unfold is_int; lia|reflexivity]. Qed.

Lemma v_join_safe : safe v_ops v_join.
Proof.
  pose proof v_safe as Hs. pose proof (v_all (fits w_schema) (proj2 w_user_row)) as Hf.
  split; [exact Hs|]. split; [exact Hs|]. split; [reflexivity|]. split; [reflexivity|]. split; [exact Hf|]. split; [exact Hf|]. split.
  - intros L R HL HR. exists (fun _ _ => true). intros l r Hl Hr. rewrite (v_rows L l HL Hl), (v_rows R r HR Hr). vm_compute. reflexivity.
  - intros lk rk _ [= <- <-]. exists TInt64. split; [reflexivity|]. split; intros l Hl t Ht; by apply (v_key _ t l).
Qed.

Lemma v_workspace : exists w0, FileWorkspace_new (disk_limit v_ctx) SORT_RUN_MEMORY SORT_RUN_DISK = Ok w0.
Proof. apply FileWorkspace_new_ok; [vm_compute; reflexivity|discriminate]. Qed.

(** The table joined with itself on its key. *)
Lemma query_answers_witness :
  exists w0 s' r, FileWorkspace_new (disk_limit v_ctx) SORT_RUN_MEMORY SORT_RUN_DISK = Ok w0
    /\ run v_ctx [] (lower v_join) v_put.1 = (s', r) /\ rs_holds s' v_ops
    /\ outcome scratch_error scratch_panic r (fun result => exists out, result = Rows (map Ok out) /\ yields v_ops v_join out).
Proof.
  destruct v_workspace as [w0 E]. destruct (query_answers v_ctx w0 E [] v_ops v_put.1 v_join v_holds v_join_safe) as (s' & r & H).
  exists w0, s', r. exact (conj E H).
Defined.

Definition v_insert := run v_ctx [] (lower (LInsert v_table v_scan)) v_put.1.
Definition v_delete := run v_ctx [] (lower (LDelete v_table v_scan)) v_put.1.

(** [INSERT INTO t SELECT * FROM t]. *)
Lemma insert_writes_source_witness :
  exists result out, v_insert = (v_insert.1, Ok result) /\ yields v_ops v_scan out /\ result = Affected (Z.of_nat (length out))
    /\ rs_holds v_insert.1 (v_ops ++ map (TPut v_table) out).
Proof.
  destruct v_workspace as [w0 E]. assert (succeeds v_insert = true) as Es by (vm_compute; reflexivity). apply succeeds_ok in Es as [result Es].
  destruct (insert_writes_source v_ctx w0 E [] v_ops v_put.1 v_insert.1 v_table v_scan result v_holds v_safe (proj1 (proj1 w_user_row))) as (out & H); [|exact Es|].
  - intros out Hout. split; [|pose proof (v_count out Hout); unfold is_u64, u64_max; cbn [length v_ops]; lia].
    refine (v_all _ _ out Hout). exact (conj (proj2 w_user_row) w_row_fits).
  - exists result, out. exact (conj Es H).
Defined.

(** [DELETE FROM t]. *)
Lemma delete_removes_source_witness :
  exists result out, v_delete = (v_delete.1, Ok result) /\ yields v_ops v_scan out /\ result = Affected (Z.of_nat (length out))
    /\ rs_holds v_delete.1 (v_ops ++ map (fun row => TDelete v_table (delete_key row)) out).
Proof.
  destruct v_workspace as [w0 E]. assert (succeeds v_delete = true) as Es by (vm_compute; reflexivity). apply succeeds_ok in Es as [result Es].
  destruct (delete_removes_source v_ctx w0 E [] v_ops v_put.1 v_delete.1 v_table v_scan result v_holds v_safe (proj1 (proj1 w_user_row))) as (out & H); [|exact Es|].
  - intros out Hout. split; [|pose proof (v_count out Hout); unfold is_u64, u64_max; cbn [length v_ops]; lia].
    refine (v_all _ _ out Hout). split; [discriminate|by vm_compute].
  - exists result, out. exact (conj Es H).
Defined.
End witness.
