(* ===== verification/SqlTree.v ===== *)
(** * The statement tree, as the binder reads it

    The [sqlparser] tree that query/planner/binder walks: for each of its types,
    the variants and fields the binder matches on, under the names it uses, and
    one last constructor for the variants it refuses.  A clause that is only
    tested for being there is a [bool]. *)

From Stdlib Require Import Strings.Byte Strings.String ZArith.
From stdpp Require Import prelude list strings.
From S2P Require Import Prelude Binder.
Local Open Scope Z_scope.

(** ** Types *)

Inductive TimezoneInfo : Type := WithTimeZone | Tz | OtherTimezone.

Inductive ExactNumberInfo : Type :=
| NoNumberInfo
| Precision (p : Z)
| PrecisionAndScale (p s : Z).

Inductive DataType : Type :=
| DBool | DBoolean
| DSmallInt | DInt2
| DInt | DInteger | DInt4
| DBigInt | DInt8
| DText | DVarchar | DChar | DCharVarying
| DBytea
| DJSON | DJSONB
| DDate
| DTimestamp (tz : TimezoneInfo)
| DReal | DFloat4 | DFloat32
| DDoublePrecision | DDouble | DFloat8 | DFloat64
| DFloat (info : ExactNumberInfo)
| DNumeric | DDecimal | DDec | DBigNumeric | DBigDecimal
| DTime (tz : TimezoneInfo)
| DUuid
| DInterval
| DArray (def : ArrayElemTypeDef)
| DOther
with ArrayElemTypeDef : Type :=
| AngleBracket (t : DataType)
| SquareBracket (t : DataType)
| Parenthesis (t : DataType)
| NoElement.

(** ** Expressions *)

Inductive AstValue : Type :=
| ANumber (s : list byte)
| ASingleQuotedString (s : list byte)
| ABoolean (b : bool)
| ANull
| AOtherValue.

Inductive AstBinaryOperator : Type :=
| AEq | ANotEq | ALt | ALtEq | AGt | AGtEq | AAnd | AOr
| APlus | AMinus | AMultiply | ADivide | AModulo | AStringConcat | AOtherBinary.

Inductive UnaryOperator : Type := UNot | UMinus | UOther.

(** A typed literal's value is its string, where it is one; a function's
    arguments are [None] when they are not a list, and an argument is [None] when
    it is named or a wildcard. *)
#[warnings="-register-all"] Inductive AstExpr : Type :=
| AValue (v : AstValue)
| AIdentifier (ident : string)
| ACompoundIdentifier (idents : list string)
| ABinaryOp (op : AstBinaryOperator) (left right : AstExpr)
| AUnaryOp (op : UnaryOperator) (expr : AstExpr)
| ANested (inner : AstExpr)
| ATypedString (data_type : DataType) (value : option (list byte))
| AFunction (name : ObjectName) (clause : bool) (args : option (list (option AstExpr))) (distinct : bool)
| ACeil (expr : AstExpr) (plain : bool)
| AFloor (expr : AstExpr) (plain : bool)
| AIsNull (expr : AstExpr)
| AIsNotNull (expr : AstExpr)
| ABetween (expr : AstExpr) (negated : bool) (low high : AstExpr)
| AInList (expr : AstExpr) (list_ : list AstExpr) (negated : bool)
| ALike (negated any : bool) (expr pattern : AstExpr) (escape_char : bool)
| ASubstring (expr : AstExpr) (substring_from substring_for : option AstExpr)
| ATrim (expr : AstExpr) (trim_where : option TrimWhereField) (trim_what : option AstExpr) (trim_characters : bool)
| ACase (operand : option AstExpr) (conditions : list (AstExpr * AstExpr)) (else_result : option AstExpr)
| ACast (expr : AstExpr) (data_type : DataType)
| AInterval (value : AstExpr) (leading_field : option (list byte))
| AArray (elem : list AstExpr)
| AOtherExpr.

Section nested.
Context (P : AstExpr -> Prop).
Context (Hv : forall v, P (AValue v)) (Hi : forall i, P (AIdentifier i)) (Hc : forall l, P (ACompoundIdentifier l)).
Context (Hb : forall op l r, P l -> P r -> P (ABinaryOp op l r)) (Hu : forall op e, P e -> P (AUnaryOp op e)) (Hn : forall e, P e -> P (ANested e)).
Context (Ht : forall d v, P (ATypedString d v)) (Hce : forall e p, P e -> P (ACeil e p)) (Hfl : forall e p, P e -> P (AFloor e p)).
Context (Hf : forall n c args d, (forall l, args = Some l -> Forall (fun a => forall e, a = Some e -> P e) l) -> P (AFunction n c args d)).
Context (Hnu : forall e, P e -> P (AIsNull e)) (Hnn : forall e, P e -> P (AIsNotNull e)).
Context (Hbt : forall e n a b, P e -> P a -> P b -> P (ABetween e n a b)) (Hin : forall e l n, P e -> Forall P l -> P (AInList e l n)).
Context (Hli : forall n y e p x, P e -> P p -> P (ALike n y e p x)).
Context (Hsu : forall e a b, P e -> (forall x, a = Some x -> P x) -> (forall x, b = Some x -> P x) -> P (ASubstring e a b)).
Context (Htr : forall e w a c, P e -> (forall x, a = Some x -> P x) -> P (ATrim e w a c)).
Context (Hca : forall o cs x, (forall e, o = Some e -> P e) -> Forall (fun c => P c.1 /\ P c.2) cs -> (forall e, x = Some e -> P e) -> P (ACase o cs x)).
Context (Hcs : forall e d, P e -> P (ACast e d)) (Hiv : forall e f, P e -> P (AInterval e f)) (Har : forall l, Forall P l -> P (AArray l)) (Hot : P AOtherExpr).

Lemma AstExpr_nested_ind : forall e, P e.
Proof using All.
  fix IH 1.
  intros [v|i|l|op a b|op a|a|d v|n c args d|a p|a p|a|a|a n lo hi|a l n|n y a p x|a f g|a w t c|o cs x|a d|a f|l|].
  - apply Hv.
  - apply Hi.
  - apply Hc.
  - apply Hb; apply IH.
  - apply Hu, IH.
  - apply Hn, IH.
  - apply Ht.
  - apply Hf. intros l E. destruct args as [l'|]; [|discriminate]. injection E as <-.
    induction l' as [|[e|] l' IHl]; constructor; [|exact IHl| |exact IHl]; [intros e' [= <-]; apply IH|discriminate].
  - apply Hce, IH.
  - apply Hfl, IH.
  - apply Hnu, IH.
  - apply Hnn, IH.
  - apply Hbt; apply IH.
  - apply Hin; [apply IH|]. induction l as [|e l IHl]; constructor; [apply IH|exact IHl].
  - apply Hli; apply IH.
  - apply Hsu; [apply IH|intros e E; destruct f as [f|]; [|discriminate]; injection E as <-; apply IH|].
    intros e E. destruct g as [g|]; [|discriminate]. injection E as <-. apply IH.
  - apply Htr; [apply IH|]. intros e E. destruct t as [t|]; [|discriminate]. injection E as <-. apply IH.
  - apply Hca; [intros e E; destruct o as [o|]; [|discriminate]; injection E as <-; apply IH| |intros e E; destruct x as [x|]; [|discriminate]; injection E as <-; apply IH].
    induction cs as [|[u v] cs IHl]; constructor; [split; apply IH|exact IHl].
  - apply Hcs, IH.
  - apply Hiv, IH.
  - apply Har. induction l as [|e l IHl]; constructor; [apply IH|exact IHl].
  - apply Hot.
Qed.
End nested.

(** ** Queries *)

Inductive JoinConstraint : Type :=
| ConstraintOn (expr : AstExpr)
| ConstraintNone
| OtherConstraint.

Inductive JoinOperator : Type :=
| OpJoin (c : JoinConstraint)
| OpInner (c : JoinConstraint)
| OpLeft (c : JoinConstraint)
| OpLeftOuter (c : JoinConstraint)
| OpRight (c : JoinConstraint)
| OpRightOuter (c : JoinConstraint)
| OpFullOuter (c : JoinConstraint)
| OpCrossJoin (c : JoinConstraint)
| OtherJoin.

Inductive TableFactor : Type :=
| FactorTable (name : ObjectName) (alias : option string)
| OtherFactor.

Record Join : Type := MkJoin { j_relation : TableFactor; j_operator : JoinOperator }.
Record TableWithJoins : Type := MkTwj { twj_relation : TableFactor; twj_joins : list Join }.

Inductive SelectItem : Type :=
| UnnamedExpr (e : AstExpr)
| ExprWithAlias (e : AstExpr)
| Wildcard
| OtherItem.

Record Select : Type := MkSelect
  { s_distinct : bool; s_group_by : bool; s_having : bool;
    s_from : list TableWithJoins; s_selection : option AstExpr; s_projection : list SelectItem }.

Record OrderByExpr : Type := MkOrderBy { ob_expr : AstExpr; ob_asc : option bool; ob_nulls_first : option bool }.

Inductive OrderByKind : Type :=
| OrderExpressions (exprs : list OrderByExpr)
| OrderAll.

Inductive SetExpr : Type :=
| SelectBody (select : Select)
| ValuesBody (rows : list (list AstExpr))
| OtherBody.

Inductive LimitClause : Type :=
| LimitOffset (limit offset : option AstExpr) (limit_by : bool)
| OtherLimit.

Record AstQuery : Type := MkAstQuery
  { q_fetch : bool; q_order_by : option OrderByKind; q_body : SetExpr; q_limit_clause : option LimitClause }.

(** ** Statements *)

Inductive ColumnOption : Type :=
| OptNull
| OptNotNull
| OptDefault (expr : AstExpr)
| OtherOption.

Record ColumnDef : Type := MkColumnDef { cd_name : string; cd_type : DataType; cd_options : list ColumnOption }.

Record AstCreateTable : Type := MkAstCreateTable
  { ct_query : bool; ct_like : bool; ct_clone : bool; ct_constraints : bool;
    ct_name : ObjectName; ct_columns : list ColumnDef; ct_or_replace : bool }.

(** The target is [None] when it is not a table name. *)
Record Insert : Type := MkInsert
  { ins_table : option ObjectName; ins_columns : list ObjectName; ins_source : option AstQuery }.

Inductive SchemaName : Type :=
| SimpleName (name : ObjectName)
| OtherName.

Inductive Statement : Type :=
| SQuery (q : AstQuery)
| SInsert (insert : Insert)
| SCreateTable (ct : AstCreateTable)
| SCreateSchema (schema_name : SchemaName) (if_not_exists : bool) (with_ options default_collate_spec : bool)
| SOther.
