(* ===== verification/BindSql.v ===== *)
(** * Binding statements

    query/planner/binder: the walk over the statement tree that makes logical
    plans, [expr.rs], [query.rs], [ddl.rs], [dml.rs] and the dispatch of [mod.rs].
    The binder's state is its stack of scopes; the catalog is read from the row
    store the query context borrows. *)

From Stdlib Require Import Strings.Byte Strings.String ZArith Lia.
From stdpp Require Import prelude list strings.
From S2P Require Import Prelude Value ValueCodec Compare RustText Temporal Expression RowTable RowStore SystemCatalog Catalog Binder Plan SqlTree.
Local Open Scope Z_scope.

(** [serde_json]'s text of an expression. *)
Class ExprJson {DEC : RustDecimal} {JS : SerdeJson} := { expr_to_json : Expr -> option string }.

Section types.

Definition is_tz_aware (tz : TimezoneInfo) : bool := match tz with WithTimeZone | Tz => true | OtherTimezone => false end.

Definition float_precision (info : ExactNumberInfo) : option Z :=
  match info with
  | NoNumberInfo => None
  | Precision p | PrecisionAndScale p _ => Some p
  end.

Fixpoint bind_data_type (ty : DataType) : res QueryError LogicalType :=
  match ty with
  | DBool | DBoolean => Ok TBool
  | DSmallInt | DInt2 => Ok TInt16
  | DInt | DInteger | DInt4 => Ok TInt32
  | DBigInt | DInt8 => Ok TInt64
  | DText | DVarchar | DChar | DCharVarying => Ok TText
  | DBytea => Ok TBytes
  | DJSON | DJSONB => Ok TJson
  | DDate => Ok TDate
  | DTimestamp tz => if is_tz_aware tz then Ok TTimestamp else unsupported "TIMESTAMP WITHOUT TIME ZONE (use TIMESTAMP WITH TIME ZONE)"
  | DReal | DFloat4 | DFloat32 => Ok TFloat32
  | DDoublePrecision | DDouble | DFloat8 | DFloat64 => Ok TFloat64
  | DFloat info => match float_precision info with Some p => if p <=? 24 then Ok TFloat32 else Ok TFloat64 | None => Ok TFloat64 end
  | DNumeric | DDecimal | DDec | DBigNumeric | DBigDecimal => Ok TNumeric
  | DTime tz => if is_tz_aware tz then unsupported "TIME WITH TIME ZONE" else Ok TTime
  | DUuid => Ok TUuid
  | DInterval => Ok TInterval
  | DArray def =>
      elem ← element_type def;
      match elem with TArray _ => unsupported "nested arrays" | _ => Ok (TArray elem) end
  | DOther => unsupported "column type"
  end
with element_type (def : ArrayElemTypeDef) : res QueryError LogicalType :=
  match def with
  | AngleBracket t | SquareBracket t | Parenthesis t => bind_data_type t
  | NoElement => unsupported "ARRAY without an element type"
  end.
End types.

Section expressions.
Context {DEC : RustDecimal} {JS : SerdeJson} {ST : StdText} {CAL : Calendar} {XC : ExprCrates}.

Definition bind_value (v : AstValue) : res QueryError Value :=
  match v with
  | ANumber s => bind_number s
  | ASingleQuotedString s => Ok (VText s)
  | ABoolean b => Ok (VBool b)
  | ANull => Ok VNull
  | AOtherValue => unsupported "literal"
  end.

Definition bind_binary_op (op : AstBinaryOperator) : res QueryError BinaryOperator :=
  match op with
  | AEq => Ok OpEq | ANotEq => Ok OpNotEq | ALt => Ok OpLt | ALtEq => Ok OpLtEq | AGt => Ok OpGt | AGtEq => Ok OpGtEq
  | AAnd => Ok OpAnd | AOr => Ok OpOr
  | APlus => Ok OpAdd | AMinus => Ok OpSub | AMultiply => Ok OpMul | ADivide => Ok OpDiv | AModulo => Ok OpMod
  | AStringConcat => Ok OpConcat
  | AOtherBinary => unsupported "binary op"
  end.

(** [as_string]: the literal's text. *)
Definition as_string (value : option (list byte)) : res QueryError (list byte) :=
  match value with Some s => Ok s | None => type_error "literal must be a string" end.

Definition bind_typed_string (data_type : DataType) (value : option (list byte)) : bound :=
  match data_type with
  | DDate => s ← as_string value; d ← ok_or "invalid DATE" (parse_date s); Ok (ELiteral (VDate d))
  | DTimestamp tz =>
      if is_tz_aware tz then s ← as_string value; t ← ok_or "invalid TIMESTAMP" (parse_timestamptz s); Ok (ELiteral (VTimestamp t))
      else unsupported "typed literal"
  | DNumeric | DDecimal | DDec | DBigNumeric | DBigDecimal =>
      s ← as_string value; d ← ok_or "invalid NUMERIC literal" (d_parse s); Ok (ELiteral (VNumeric d))
  | DTime tz =>
      if is_tz_aware tz then unsupported "TIME WITH TIME ZONE literal"
      else s ← as_string value; t ← ok_or "invalid TIME" (parse_time s); Ok (ELiteral (VTime t))
  | DUuid => s ← as_string value; u ← ok_or "invalid UUID literal" (uuid_parse_str (trim s)); Ok (ELiteral (VUuid u))
  | _ => unsupported "typed literal"
  end.

Definition bind_interval (value : AstExpr) (leading_field : option (list byte)) : bound :=
  match value with
  | AValue (ASingleQuotedString s) =>
      let text := match leading_field with Some field => s ++ str " " ++ to_lowercase field | None => s end in
      interval ← ok_or "invalid INTERVAL" (parse_interval text);
      Ok (ELiteral (VInterval interval))
  | AValue _ => unsupported "INTERVAL value must be a string"
  | _ => unsupported "non-literal INTERVAL value"
  end.

Definition single_ident_upper (name : ObjectName) : res QueryError string :=
  match name with
  | [Some i] => Ok (string_of_list_byte (to_uppercase (str i)))
  | [None] => unsupported "function name"
  | _ => unsupported "qualified function name"
  end.

(** A call, over its bound arguments; [None] for an argument of another form. *)
Definition bind_function (name : ObjectName) (clause : bool) (args : option (list (option bound))) (distinct : bool) : bound :=
  name ← single_ident_upper name;
  if clause then unsupported "a function with a clause" else
  match args with
  | None => unsupported "call form"
  | Some list_ =>
      if distinct then unsupported "a function with DISTINCT / ORDER BY" else
      args ← collect_res ((fun arg => match arg with Some b => b | None => unsupported "argument form" end) <$> list_);
      resolved ← resolve_scalar_func name (length args);
      Ok (ECall resolved args)
  end.

Definition bind_ceil_floor (expr : bound) (plain : bool) (func : ScalarFunc) : bound :=
  if plain then e ← expr; Ok (ECall func [e]) else unsupported "CEIL/FLOOR with TO / scale".

Definition resolve_compound (scopes : list Scope) (idents : list string) : bound :=
  match last scopes with
  | None => Err (QInternal "no scope for column ref")
  | Some scope =>
      match idents with
      | [relation; name] => i ← resolve scope (Some relation) name; Ok (EColumn i)
      | _ => unsupported "qualified name"
      end
  end.

Section bind.
Context (scopes : list Scope).

Fixpoint bind_expr (e : AstExpr) : bound :=
  match e with
  | AValue v => value ← bind_value v; Ok (ELiteral value)
  | AIdentifier ident => resolve_column scopes None ident
  | ACompoundIdentifier idents => resolve_compound scopes idents
  | ABinaryOp op l r =>
      op ← bind_binary_op op;
      lhs ← bind_expr l;
      rhs ← bind_expr r;
      Ok (EBinary op lhs rhs)
  | AUnaryOp UNot expr => input ← bind_expr expr; Ok (ENot input)
  | AUnaryOp UMinus expr => input ← bind_expr expr; Ok (ENeg input)
  | AUnaryOp UOther _ => unsupported "unary op"
  | ANested inner => bind_expr inner
  | ATypedString data_type value => bind_typed_string data_type value
  | AFunction name clause args distinct => bind_function name clause (option_map (map (option_map bind_expr)) args) distinct
  | ACeil expr plain => bind_ceil_floor (bind_expr expr) plain FCeil
  | AFloor expr plain => bind_ceil_floor (bind_expr expr) plain FFloor
  | AIsNull expr => e ← bind_expr expr; Ok (EIsNull e false)
  | AIsNotNull expr => e ← bind_expr expr; Ok (EIsNull e true)
  | ABetween expr negated low high => bind_between (bind_expr expr) (bind_expr low) (bind_expr high) negated
  | AInList expr list_ negated => bind_in_list (bind_expr expr) (map bind_expr list_) negated
  | ALike negated any expr pattern escape_char =>
      if any || escape_char then unsupported "LIKE ANY / ESCAPE"
      else e ← bind_expr expr; p ← bind_expr pattern; Ok (ELike e p negated)
  | ASubstring expr substring_from substring_for =>
      bind_substring (bind_expr expr) (option_map bind_expr substring_from) (option_map bind_expr substring_for)
  | ATrim expr trim_where trim_what trim_characters =>
      bind_trim (bind_expr expr) trim_where (option_map bind_expr trim_what) trim_characters
  | ACase operand conditions else_result =>
      bind_case (option_map bind_expr operand) (map (fun c => (bind_expr c.1, bind_expr c.2)) conditions) (option_map bind_expr else_result)
  | ACast expr data_type => input ← bind_expr expr; target ← bind_data_type data_type; Ok (ECast input target)
  | AInterval value leading_field => bind_interval value leading_field
  | AArray elem => elements ← collect_res (map bind_expr elem); Ok (EArray elements)
  | AOtherExpr => unsupported "expression"
  end.
End bind.
End expressions.

Section statements.
Context {DEC : RustDecimal} {JS : SerdeJson} {ST : StdText} {CAL : Calendar} {XC : ExprCrates} {BC : BinderCrates} {EJ : ExprJson}.
Context {S : Type} {RS : RowStore S}.
Context {SP : Serde ProjectMeta} {SD : Serde DatasetMeta} {STM : Serde TableMeta} {SC : Serde ColumnMeta} {SS : Serde ColumnStats}.
Context (ctx : S).

Abbreviation BM A := (SR (list Scope) QueryError A).

Definition push_scope (scope : Scope) : BM unit := sr_modify (fun scopes => scopes ++ [scope]).
Definition pop_scope : BM unit := sr_modify (@removelast Scope).
Definition current_scope (what : string) : BM Scope := fun scopes =>
  (scopes, match last scopes with Some s => Ok s | None => Err (QInternal what) end).

Definition bind (e : AstExpr) : BM Expr := fun scopes => (scopes, bind_expr scopes e).

(** A read through [ctx.catalog()]. *)
Definition read {A} (m : SR S QueryError A) : BM A := sr_lift (m ctx).2.

(** ** SELECT *)

Definition bind_count (expr : AstExpr) (what : string) : BM nat :=
  e ← bind expr;
  v ← sr_lift (eval e (MkTuple []));
  n ← sr_lift (match v with VInt16 n | VInt32 n | VInt64 n => Ok n | _ => type_error "expects an integer" end);
  if 0 <=? n then mret (Z.to_nat n) else sr_lift (type_error "must be non-negative").

Definition bind_sort_key (o : OrderByExpr) : BM SortKey :=
  let ascending := default true (ob_asc o) in
  e ← bind (ob_expr o);
  mret (MkSortKey e ascending (default (negb ascending) (ob_nulls_first o))).

Fixpoint sr_collect {A B} (f : A -> BM B) (l : list A) : BM (list B) :=
  match l with
  | [] => mret []
  | a :: l' => b ← f a; bs ← sr_collect f l'; mret (b :: bs)
  end.

Definition bind_sort_keys (exprs : list OrderByExpr) : BM (list SortKey) := sr_collect bind_sort_key exprs.

Definition join_kind (op : JoinOperator) : res QueryError (JoinType * option AstExpr) :=
  '(ty, c) ← match op with
             | OpJoin c | OpInner c => Ok (JInner, Some c)
             | OpLeft c | OpLeftOuter c => Ok (JLeft, Some c)
             | OpRight c | OpRightOuter c => Ok (JRight, Some c)
             | OpFullOuter c => Ok (JFull, Some c)
             | OpCrossJoin _ => Ok (JInner, None)
             | OtherJoin => unsupported "join operator"
             end;
  match c with
  | None | Some ConstraintNone => Ok (ty, None)
  | Some (ConstraintOn expr) => Ok (ty, Some expr)
  | Some OtherConstraint => unsupported "join constraint"
  end.

Definition bind_table_factor (factor : TableFactor) : BM (LogicalNode * Scope) :=
  match factor with
  | OtherFactor => sr_lift (unsupported "FROM relation")
  | FactorTable name alias =>
      parts ← sr_lift (name_idents name);
      '(dataset_opt, leaf) ← sr_lift (match parts with
                                     | [t] => Ok (None, t)
                                     | [d; t] => Ok (Some d, t)
                                     | [_; d; t] => Ok (Some d, t)
                                     | _ => unsupported "name needs project.dataset.table"
                                     end);
      match system_resolve dataset_opt leaf with
      | Some relation => mret (LSystemScan relation, for_relation (Some (default leaf alias)) (system_schema relation))
      | None =>
          '(project, dataset, table_name) ← sr_lift (qualify_table_name name);
          table ← read (resolve_table project dataset table_name);
          mret (LScan table, for_relation (Some (default table_name alias)) (t_schema table))
      end
  end.

(** [ON], against the combined scope, which is popped before an error returns. *)
Definition bind_on (combined : Scope) (constraint : option AstExpr) : BM (option Expr) :=
  match constraint with
  | Some expr => fun scopes =>
      let '(scopes, _) := push_scope combined scopes in
      let '(scopes, bound) := bind expr scopes in
      let '(scopes, _) := pop_scope scopes in
      (scopes, map_ok Some bound)
  | None => mret None
  end.

(** One join of a FROM item, onto what is bound so far. *)
Definition bind_join (acc : LogicalNode * Scope) (join : Join) : BM (LogicalNode * Scope) :=
  let '(node, scope) := acc in
  '(right_node, rscope) ← bind_table_factor (j_relation join);
  '(join_type, constraint) ← sr_lift (join_kind (j_operator join));
  let combined := scope_concat scope rscope in
  on ← bind_on combined constraint;
  mret (LJoin node right_node on join_type (scope_schema scope) (scope_schema rscope), combined).

Fixpoint sr_fold {A B} (f : B -> A -> BM B) (b : B) (l : list A) : BM B :=
  match l with
  | [] => mret b
  | a :: l' => b ← f b a; sr_fold f b l'
  end.

Definition bind_table_with_joins (twj : TableWithJoins) : BM (LogicalNode * Scope) :=
  first ← bind_table_factor (twj_relation twj);
  sr_fold bind_join first (twj_joins twj).

(** One more item of a FROM list: a cross join. *)
Definition bind_cross (acc : LogicalNode * Scope) (item : TableWithJoins) : BM (LogicalNode * Scope) :=
  let '(node, scope) := acc in
  '(right_node, rscope) ← bind_table_with_joins item;
  mret (LJoin node right_node None JInner (scope_schema scope) (scope_schema rscope), scope_concat scope rscope).

Definition bind_from (items : list TableWithJoins) : BM (LogicalNode * Scope) :=
  match items with
  | [] => mret (LValues [MkTuple []], scope_empty)
  | first :: rest => acc ← bind_table_with_joins first; sr_fold bind_cross acc rest
  end.

Definition bind_select_item (item : SelectItem) : BM (list Expr) :=
  match item with
  | UnnamedExpr e | ExprWithAlias e => x ← bind e; mret [x]
  | Wildcard => scope ← current_scope "no scope for `*`"; mret (map EColumn (seq 0 (scope_len scope)))
  | OtherItem => sr_lift (unsupported "projection item")
  end.

Definition bind_select (select : Select) (order_by : option (list OrderByExpr)) : BM LogicalNode :=
  if s_distinct select then sr_lift (unsupported "DISTINCT")
  else if s_group_by select then sr_lift (unsupported "GROUP BY")
  else if s_having select then sr_lift (unsupported "HAVING")
  else
    '(source, scope) ← bind_from (s_from select);
    _ ← push_scope scope;
    after_where ← match s_selection select with
                  | Some pred => p ← bind pred; mret (LFilter source p)
                  | None => mret source
                  end;
    after_order ← match order_by with
                  | Some exprs =>
                      keys ← bind_sort_keys exprs;
                      scope ← current_scope "no scope for ORDER BY";
                      mret (LSort after_where keys (scope_schema scope))
                  | None => mret after_where
                  end;
    expressions ← sr_collect bind_select_item (s_projection select);
    _ ← pop_scope;
    mret (LProject after_order (concat expressions)).

Definition bind_limit (clause : LimitClause) (node : LogicalNode) : BM LogicalNode :=
  match clause with
  | OtherLimit => sr_lift (unsupported "`LIMIT offset, count`")
  | LimitOffset limit offset limit_by =>
      if limit_by then sr_lift (unsupported "LIMIT BY")
      else
        node ← match offset with
               | Some offset => count ← bind_count offset "OFFSET"; mret (LOffset node count)
               | None => mret node
               end;
        match limit with
        | Some limit => count ← bind_count limit "LIMIT"; mret (LLimit node count)
        | None => mret node
        end
  end.

Definition bind_query (q : AstQuery) : BM LogicalNode :=
  if q_fetch q then sr_lift (unsupported "FETCH")
  else
    order_by ← sr_lift (match q_order_by q with
                        | None => Ok None
                        | Some (OrderExpressions exprs) => Ok (Some exprs)
                        | Some OrderAll => unsupported "ORDER BY ALL"
                        end);
    match q_body q with
    | SelectBody select =>
        node ← bind_select select order_by;
        match q_limit_clause q with Some clause => bind_limit clause node | None => mret node end
    | ValuesBody _ | OtherBody => sr_lift (unsupported "query body")
    end.

(** ** CREATE *)

Definition bind_option (acc : bool * option string) (opt : ColumnOption) : BM (bool * option string) :=
  match opt with
  | OptNull => mret (true, acc.2)
  | OptNotNull => mret (false, acc.2)
  | OptDefault expr =>
      bound ← bind expr;
      json ← sr_lift (match expr_to_json bound with Some json => Ok json | None => Err (QInternal "serialize DEFAULT expression") end);
      mret (acc.1, Some json)
  | OtherOption => sr_lift (unsupported "column option")
  end.

Definition bind_column (col : ColumnDef) : BM Field :=
  ty ← sr_lift (bind_data_type (cd_type col));
  '(nullable, default) ← sr_fold bind_option (true, None) (cd_options col);
  mret (MkField (cd_name col) ty nullable default).

Definition bind_schema (columns : list ColumnDef) : BM Schema :=
  match columns with
  | [] => sr_lift (unsupported "CREATE TABLE with no columns")
  | _ => fields ← sr_collect bind_column columns; mret (MkSchema fields)
  end.

Definition bind_create_table (ct : AstCreateTable) : BM LogicalNode :=
  if ct_query ct then sr_lift (unsupported "CREATE TABLE ... AS SELECT")
  else if ct_like ct || ct_clone ct then sr_lift (unsupported "CREATE TABLE ... LIKE / CLONE")
  else if ct_constraints ct then sr_lift (unsupported "table constraints")
  else
    '(project, dataset, table) ← sr_lift (qualify_table_name (ct_name ct));
    p ← read (get_project project);
    project_meta ← sr_lift (found KProject project p);
    d ← read (get_dataset (pm_id project_meta) dataset);
    dataset_meta ← sr_lift (found KDataset dataset d);
    schema ← bind_schema (ct_columns ct);
    mret (LCreateTable (pm_id project_meta) (dm_id dataset_meta) table schema (ct_or_replace ct)).

Definition bind_create_schema (schema_name : SchemaName) (if_not_exists with_ options default_collate_spec : bool) : BM LogicalNode :=
  if with_ || options || default_collate_spec then sr_lift (unsupported "CREATE SCHEMA options")
  else
    match schema_name with
    | OtherName => sr_lift (unsupported "CREATE SCHEMA AUTHORIZATION")
    | SimpleName name =>
        '(project, dataset) ← sr_lift (dataset_name name);
        p ← read (get_project project);
        project_meta ← sr_lift (found KProject project p);
        mret (LCreateDataset (pm_id project_meta) dataset if_not_exists)
    end.

(** ** INSERT and the dispatch *)

Definition bind_insert_statement (insert : Insert) : BM LogicalNode :=
  match ins_table insert with
  | None => sr_lift (unsupported "INSERT target must be a table name")
  | Some name =>
      '(project, dataset, table_name) ← sr_lift (qualify_table_name name);
      table ← read (resolve_table project dataset table_name);
      targets ← sr_lift (resolve_target_columns (ins_columns insert) (fields (t_schema table)));
      match ins_source insert with
      | None => sr_lift (unsupported "INSERT without VALUES")
      | Some source =>
          match q_body source with
          | ValuesBody values => fun scopes =>
              (scopes, map_ok (fun rows => LInsert table (LValues rows)) (collect_res (bind_row (t_schema table) targets <$> (map (bind_expr scopes) <$> values))))
          | _ => sr_lift (unsupported "INSERT source must be VALUES")
          end
      end
  end.

Definition bind_statement (stmt : Statement) : BM LogicalNode :=
  match stmt with
  | SQuery q => bind_query q
  | SInsert insert => bind_insert_statement insert
  | SCreateTable ct => bind_create_table ct
  | SCreateSchema schema_name if_not_exists with_ options default_collate_spec =>
      bind_create_schema schema_name if_not_exists with_ options default_collate_spec
  | SOther => sr_lift (unsupported "statement")
  end.
End statements.
