(* ===== verification/Planner.v ===== *)
(** * The planner

    query/stages.rs, query/planner.rs, planner/pass.rs, planner/rule.rs and
    planner/builder.rs: the pipeline that takes a text to its physical plans.  A
    pass runs against the row store of the query context; the parser is
    [sqlparser]'s, here the class [SqlParser].  A plan is its root node. *)

From Stdlib Require Import Strings.Byte Strings.String ZArith Lia.
From stdpp Require Import prelude list strings.
From S2P Require Import Prelude Value ValueCodec Compare RustText Temporal Expression RowTable RowStore SystemCatalog Catalog Binder Plan SqlTree BindSql.

(** [Parser::parse_sql]: the statements, or a syntax error. *)
Class SqlParser := { parse_sql : string -> option (list Statement) }.

Section planner.
Context {DEC : RustDecimal} {JS : SerdeJson} {ST : StdText} {CAL : Calendar} {XC : ExprCrates} {BC : BinderCrates} {EJ : ExprJson} {PS : SqlParser}.
Context {S : Type} {RS : RowStore S}.
Context {SP : Serde ProjectMeta} {SD : Serde DatasetMeta} {STM : Serde TableMeta} {SC : Serde ColumnMeta} {SS : Serde ColumnStats}.

(** ** Stages *)

Record RawQuery : Type := MkRaw { raw_sql : string }.
Record ParsedQuery : Type := MkParsed { parsed_sql : string; parsed_ast : list Statement }.
Record AnalyzedQuery : Type := MkAnalyzed { an_sql : string; an_ast : list Statement; an_logical : list LogicalNode }.
Record LogicalQuery : Type := MkLogical { lq_sql : string; lq_ast : list Statement; lq_logical : list LogicalNode }.
Record PhysicalQuery : Type := MkPhysical
  { pq_sql : string; pq_ast : list Statement; pq_logical : list LogicalNode; pq_physical : list PlanNode }.

(** ** Passes *)

Record Pass (I O : Type) : Type := MkPass { pass_name : string; pass_run : I -> S -> res QueryError O }.
Arguments MkPass {I O}.
Arguments pass_run {I O}.

Record LogicalRule : Type := MkLogicalRule { lr_name : string; lr_apply : LogicalNode -> S -> res QueryError LogicalNode }.
Record PhysicalRule : Type := MkPhysicalRule { pr_name : string; pr_apply : PlanNode -> S -> res QueryError PlanNode }.

Definition Parse : Pass RawQuery ParsedQuery := MkPass "parse" (fun input _ =>
  match parse_sql (raw_sql input) with
  | Some ast => Ok (MkParsed (raw_sql input) ast)
  | None => Err QParse
  end).

(** The statements are bound in order by one binder. *)
Definition Bind : Pass ParsedQuery AnalyzedQuery := MkPass "bind" (fun input ctx =>
  logical ← (sr_collect (bind_statement ctx) (parsed_ast input) []).2;
  Ok (MkAnalyzed (parsed_sql input) (parsed_ast input) logical)).

Definition Analyze : Pass ParsedQuery AnalyzedQuery := MkPass "analyze" (fun input ctx => pass_run Bind input ctx).

Definition BuildLogical : Pass AnalyzedQuery LogicalQuery := MkPass "build_logical" (fun input _ =>
  Ok (MkLogical (an_sql input) (an_ast input) (an_logical input))).

Definition OptimizeLogical (rules : list LogicalRule) : Pass LogicalQuery LogicalQuery := MkPass "optimize_logical" (fun input _ => Ok input).

Definition Lower : Pass LogicalQuery PhysicalQuery := MkPass "lower" (fun input _ =>
  Ok (MkPhysical (lq_sql input) (lq_ast input) (lq_logical input) (map lower (lq_logical input)))).

Definition OptimizePhysical (rules : list PhysicalRule) : Pass PhysicalQuery PhysicalQuery := MkPass "optimize_physical" (fun input _ => Ok input).

(** ** The planner and its builder *)

Record Planner : Type := MkPlanner
  { p_parse : Pass RawQuery ParsedQuery; p_analyze : Pass ParsedQuery AnalyzedQuery; p_build_logical : Pass AnalyzedQuery LogicalQuery;
    p_optimize_logical : Pass LogicalQuery LogicalQuery; p_lower : Pass LogicalQuery PhysicalQuery; p_optimize_physical : Pass PhysicalQuery PhysicalQuery }.

Definition plan (p : Planner) (sql : string) (ctx : S) : res QueryError PhysicalQuery :=
  q ← pass_run (p_parse p) (MkRaw sql) ctx;
  q ← pass_run (p_analyze p) q ctx;
  q ← pass_run (p_build_logical p) q ctx;
  q ← pass_run (p_optimize_logical p) q ctx;
  q ← pass_run (p_lower p) q ctx;
  pass_run (p_optimize_physical p) q ctx.

Inductive BuildError : Type := MissingPass (name : string).

Definition from_build_error (e : BuildError) : QueryError := match e with MissingPass _ => QInternal "planner: missing pass" end.

Record PlannerBuilder : Type := MkBuilder
  { b_parse : option (Pass RawQuery ParsedQuery); b_analyze : option (Pass ParsedQuery AnalyzedQuery);
    b_build_logical : option (Pass AnalyzedQuery LogicalQuery); b_logical_rules : list LogicalRule;
    b_lower : option (Pass LogicalQuery PhysicalQuery); b_physical_rules : list PhysicalRule }.

Definition builder_new : PlannerBuilder := MkBuilder None None None [] None [].

Definition with_parse (pass : Pass RawQuery ParsedQuery) (b : PlannerBuilder) : PlannerBuilder :=
  MkBuilder (Some pass) (b_analyze b) (b_build_logical b) (b_logical_rules b) (b_lower b) (b_physical_rules b).
Definition with_analyze (pass : Pass ParsedQuery AnalyzedQuery) (b : PlannerBuilder) : PlannerBuilder :=
  MkBuilder (b_parse b) (Some pass) (b_build_logical b) (b_logical_rules b) (b_lower b) (b_physical_rules b).
Definition with_build_logical (pass : Pass AnalyzedQuery LogicalQuery) (b : PlannerBuilder) : PlannerBuilder :=
  MkBuilder (b_parse b) (b_analyze b) (Some pass) (b_logical_rules b) (b_lower b) (b_physical_rules b).
Definition with_lower (pass : Pass LogicalQuery PhysicalQuery) (b : PlannerBuilder) : PlannerBuilder :=
  MkBuilder (b_parse b) (b_analyze b) (b_build_logical b) (b_logical_rules b) (Some pass) (b_physical_rules b).
Definition with_logical_rules (rules : list LogicalRule) (b : PlannerBuilder) : PlannerBuilder :=
  MkBuilder (b_parse b) (b_analyze b) (b_build_logical b) (b_logical_rules b ++ rules) (b_lower b) (b_physical_rules b).
Definition with_physical_rules (rules : list PhysicalRule) (b : PlannerBuilder) : PlannerBuilder :=
  MkBuilder (b_parse b) (b_analyze b) (b_build_logical b) (b_logical_rules b) (b_lower b) (b_physical_rules b ++ rules).
Definition with_logical_rule (rule : LogicalRule) : PlannerBuilder -> PlannerBuilder := with_logical_rules [rule].
Definition with_physical_rule (rule : PhysicalRule) : PlannerBuilder -> PlannerBuilder := with_physical_rules [rule].

Definition required {A} (name : string) (o : option A) : res BuildError A :=
  match o with Some a => Ok a | None => Err (MissingPass name) end.

Definition builder_build (b : PlannerBuilder) : res BuildError Planner :=
  parse ← required "parse" (b_parse b);
  analyze ← required "analyze" (b_analyze b);
  build_logical ← required "build_logical" (b_build_logical b);
  lower ← required "lower" (b_lower b);
  Ok (MkPlanner parse analyze build_logical (OptimizeLogical (b_logical_rules b)) lower (OptimizePhysical (b_physical_rules b))).

Definition builder_default : PlannerBuilder :=
  with_lower Lower (with_build_logical BuildLogical (with_analyze Analyze (with_parse Parse builder_new))).
End planner.
