(* ===== verification/PlannerOk.v ===== *)
(** * What the binder makes of a text

    A bound SELECT refers to the columns it has: [from_shape] and [query_shape]
    say that the schemas carried by joins and sorts are those of the rows below
    them, and that every column reference is in range.  With it, a plan whose
    expressions evaluate on the rows they meet is one the executor answers:
    [query_safe], [query_width]. *)

From Stdlib Require Import Strings.Byte Strings.String ZArith Lia Sorted Permutation.
From stdpp Require Import prelude list gmap strings.
From S2P Require Import Prelude LsmKey SstHeader Memtable Journaled Lsm LsmDurable Engine EngineRest BlockStore BlockJournal Journal Page TuplePage MemoryPool Workspace Value ValueCodec Compare KeyCodec RustText Temporal Expression ExprTyping RowTable RowTableOk RowStore SystemCatalog Catalog CatalogOk CatalogRuns Binder Plan Spill Sort SortOk Joins JoinsOk GraceHash Volcano VolcanoOk SqlTree BindSql Planner.

(** ** Columns in range *)

Section columns.
Context {DEC : RustDecimal} {JS : SerdeJson} {ST : StdText} {CAL : Calendar} {XC : ExprCrates}.

Fixpoint columns_in (n : nat) (e : Expr) : bool :=
  match e with
  | EColumn i => i <? n
  | ELiteral _ => true
  | EBinary _ l r => columns_in n l && columns_in n r
  | ENot e | EIsNull e _ | ENeg e | ECast e _ => columns_in n e
  | ECall _ args => forallb (columns_in n) args
  | ELike e p _ => columns_in n e && columns_in n p
  | ECase branches els =>
      forallb (fun b => columns_in n b.1 && columns_in n b.2) branches && match els with Some e => columns_in n e | None => true end
  | EArray elements => forallb (columns_in n) elements
  end.

(** A bound expression of which every column is in range. *)
Definition ranged (n : nat) (b : bound) : Prop := forall e, b = Ok e -> columns_in n e = true.

Lemma res_bind_inv {E A B} (m : res E A) (f : A -> res E B) b : (m ≫= f) = Ok b -> exists a, m = Ok a /\ f a = Ok b.
Proof. destruct m as [a|e|]; [|done..]. intros H. by exists a. Qed.

Ltac inv_bind H := repeat (apply res_bind_inv in H as (? & ? & H)).

Lemma collect_ranged n (l : list bound) es : Forall (ranged n) l -> collect_res l = Ok es -> forallb (columns_in n) es = true.
Proof.
  intros H. revert es. induction H as [|b l Hb _ IH]; intros es E; cbn in E; [by injection E as <-|].
  destruct b as [e| |]; [|done..]. destruct (collect_res l) as [es'| |]; [|done..]. injection E as <-. cbn. rewrite (Hb e eq_refl). by apply IH.
Qed.

Lemma resolve_in (s : Scope) rel name i : resolve s rel name = Ok i -> (i < scope_len s)%nat.
Proof.
  destruct (resolve_unique s rel name) as [-> Hm]. intros E. destruct (Binder.matches s rel name) as [|j [|j' l]] eqn:Em; [done| |done]. injection E as <-.
  destruct (proj1 (Hm j)) as (f & r & _ & Hc & _); [left|]. by apply lookup_lt_Some in Hc.
Qed.

(** The columns of the innermost scope. *)
Definition width (scopes : list Scope) : nat := match last scopes with Some s => scope_len s | None => 0 end.

Lemma in_chain_ranged n value items : columns_in n value = true -> Forall (ranged n) items ->
  forall acc e, match acc with Some a => columns_in n a = true | None => True end -> in_chain value acc items = Ok e ->
  match e with Some e => columns_in n e = true | None => True end.
Proof.
  intros Hv H. induction H as [|b l Hb _ IH]; intros acc e Ha E; cbn [in_chain] in E; [by injection E as <-|].
  inv_bind E. apply IH in E; [done|]. destruct acc as [a|]; cbn; rewrite ?Ha, Hv; by apply Hb.
Qed.

Lemma case_ranged n operand conditions branches : match operand with Some o => columns_in n o = true | None => True end ->
  Forall (fun c => ranged n c.1 /\ ranged n c.2) conditions -> case_branches operand conditions = Ok branches ->
  forallb (fun b => columns_in n b.1 && columns_in n b.2) branches = true.
Proof.
  intros Ho H. revert branches. induction H as [|[c r] l [Hc Hr] _ IH]; intros branches E; cbn [case_branches] in E; [by injection E as <-|].
  inv_bind E. injection E as <-. cbn in *. rewrite (IH _ H1), (Hr _ H0), andb_true_r, andb_true_r. destruct operand as [o|]; [|by apply Hc].
  cbn. rewrite Ho. by apply Hc.
Qed.

Lemma opt_ranged n (o : option bound) e : (forall b, o = Some b -> ranged n b) -> opt_bound o = Ok e -> match e with Some e => columns_in n e = true | None => True end.
Proof. intros H E. destruct o as [b|]; cbn in E; [|by injection E as <-]. destruct b as [x| |]; [|done..]. injection E as <-. exact (H _ eq_refl x eq_refl). Qed.

Lemma default_ranged n (o : option bound) d e : (forall b, o = Some b -> ranged n b) -> columns_in n d = true -> default (Ok d) o = Ok e -> columns_in n e = true.
Proof. intros H Hd E. destruct o as [b|]; cbn in E; [exact (H b eq_refl e E)|]. by injection E as <-. Qed.

Lemma option_ranged n (f : AstExpr -> bound) o : (forall a, o = Some a -> ranged n (f a)) -> forall b, option_map f o = Some b -> ranged n b.
Proof. intros H b E. destruct o as [a|]; [|done]. injection E as <-. by apply H. Qed.

Lemma typed_string_ranged n d v : ranged n (bind_typed_string d v).
Proof. intros e E. destruct d; try discriminate E; cbn in E; try (destruct (is_tz_aware tz); [|try discriminate E]; try discriminate E); inv_bind E; by injection E as <-. Qed.

Lemma function_ranged n scopes name c args d : (forall l, args = Some l -> Forall (fun a => forall e, a = Some e -> ranged n (bind_expr scopes e)) l) ->
  ranged n (bind_function name c (option_map (map (option_map (bind_expr scopes))) args) d).
Proof.
  intros H x E. unfold bind_function in E. inv_bind E. destruct c; [done|]. destruct args as [l|]; [|done]. cbn [option_map] in E. destruct d; [done|].
  apply res_bind_inv in E as (es & Ees & E). inv_bind E. injection E as <-. cbn. eapply collect_ranged; [|exact Ees]. apply Forall_fmap, Forall_map.
  eapply Forall_impl; [exact (H l eq_refl)|]. intros [y|] Hy; [|done]. cbn. by apply Hy.
Qed.

Lemma in_list_ranged n b items negated : ranged n b -> Forall (ranged n) items -> ranged n (bind_in_list b items negated).
Proof.
  intros Hb Hi x E. unfold bind_in_list in E. apply res_bind_inv in E as (v & Ev & E). apply res_bind_inv in E as (acc & Ea & E). injection E as <-.
  pose proof (in_chain_ranged n v items (Hb v Ev) Hi None acc I Ea) as Ha. destruct acc, negated; done.
Qed.

Lemma substring_ranged n b f g : ranged n b -> (forall x, f = Some x -> ranged n x) -> (forall x, g = Some x -> ranged n x) -> ranged n (bind_substring b f g).
Proof.
  intros Hb Hf Hg x E. unfold bind_substring in E. apply res_bind_inv in E as (v & Ev & E). apply res_bind_inv in E as (u & Eu & E).
  apply res_bind_inv in E as (w & Ew & E). injection E as <-. cbn. rewrite (Hb v Ev), (default_ranged n f (ELiteral _) u Hf eq_refl Eu), (default_ranged n g (ELiteral _) w Hg eq_refl Ew). done.
Qed.

Lemma trim_ranged n b w t c : ranged n b -> (forall x, t = Some x -> ranged n x) -> ranged n (bind_trim b w t c).
Proof.
  intros Hb Ht x E. unfold bind_trim in E. destruct c; [done|]. apply res_bind_inv in E as (v & Ev & E). apply res_bind_inv in E as (u & Eu & E).
  injection E as <-. cbn. by rewrite (Hb v Ev), (default_ranged n t (ELiteral _) u Ht eq_refl Eu).
Qed.

Lemma bind_case_ranged n o cs z : (forall x, o = Some x -> ranged n x) -> Forall (fun c => ranged n c.1 /\ ranged n c.2) cs -> (forall x, z = Some x -> ranged n x) ->
  ranged n (bind_case o cs z).
Proof.
  intros Ho Hc Hz x E. unfold bind_case in E. apply res_bind_inv in E as (o' & Eo & E). apply res_bind_inv in E as (bs & Eb & E).
  apply res_bind_inv in E as (z' & Ez & E). injection E as <-. cbn. rewrite (case_ranged n o' cs bs (opt_ranged n o o' Ho Eo) Hc Eb).
  pose proof (opt_ranged n z z' Hz Ez) as H. by destruct z'.
Qed.

(** Binding only makes references the innermost scope has. *)
Lemma bound_ranged scopes a : ranged (width scopes) (bind_expr scopes a).
Proof.
  induction a as [v|i|l|op l r IHl IHr|op a IH|a IH|d v|a p IH|a p IH|n c args d IH|a IH|a IH|a n lo hi IH IHlo IHhi|a l n IH IHl
    |n y a p z IH IHp|a f g IH IHf IHg|a w t c IH IHt|o cs z IHo IHcs IHz|a d IH|a f _|l IHl|] using AstExpr_nested_ind; intros x E; cbn [bind_expr] in E.
  - inv_bind E. by injection E as <-.
  - unfold resolve_column, width in *. destruct (last scopes) as [s|]; [|done]. inv_bind E. injection E as <-. apply Nat.ltb_lt. by eapply resolve_in.
  - unfold resolve_compound, width in *. destruct (last scopes) as [s|]; [|done]. destruct l as [|r [|nm [|]]]; try done. inv_bind E. injection E as <-.
    apply Nat.ltb_lt. by eapply resolve_in.
  - inv_bind E. injection E as <-. cbn. by rewrite IHl, IHr.
  - destruct op; [| |done]; inv_bind E; injection E as <-; cbn; by apply IH.
  - by apply IH.
  - by eapply typed_string_ranged.
  - destruct p; [|done]. cbn in E. inv_bind E. injection E as <-. cbn. by rewrite IH.
  - destruct p; [|done]. cbn in E. inv_bind E. injection E as <-. cbn. by rewrite IH.
  - by eapply function_ranged.
  - inv_bind E. injection E as <-. cbn. by apply IH.
  - inv_bind E. injection E as <-. cbn. by apply IH.
  - unfold bind_between in E. inv_bind E. injection E as <-. destruct n; cbn; by rewrite IH, IHlo, IHhi.
  - by eapply in_list_ranged; [exact IH|apply Forall_map; exact IHl|].
  - destruct (y || z); [done|]. inv_bind E. injection E as <-. cbn. by rewrite IH, IHp.
  - by eapply substring_ranged; [exact IH|apply option_ranged; exact IHf|apply option_ranged; exact IHg|].
  - by eapply trim_ranged; [exact IH|apply option_ranged; exact IHt|].
  - refine (bind_case_ranged _ _ _ _ (option_ranged _ _ _ IHo) _ (option_ranged _ _ _ IHz) x E). apply Forall_map. exact IHcs.
  - inv_bind E. injection E as <-. cbn. by apply IH.
  - unfold bind_interval in E. destruct a as [[]| | | | | | | | | | | | | | | | | | | | |]; try done. inv_bind E. by injection E as <-.
  - inv_bind E. injection E as <-. cbn. eapply collect_ranged; [|eassumption]. by apply Forall_map.
  - done.
Qed.
End columns.

(** ** The plan of a SELECT *)

Section shapes.
Context {DEC : RustDecimal} {JS : SerdeJson} {ST : StdText} {CAL : Calendar} {XC : ExprCrates} {BC : BinderCrates} {EJ : ExprJson}.
Context {S : Type} {RS : RowStore S}.
Context {SP : Serde ProjectMeta} {SD : Serde DatasetMeta} {STM : Serde TableMeta} {SC : Serde ColumnMeta} {SS : Serde ColumnStats}.
Context (ctx : S).
Implicit Types (scopes : list Scope) (n : LogicalNode) (fs : list Field).
Abbreviation BM A := (SR (list Scope) QueryError A).

(** What a FROM clause, its filter and its sort make: rows of these fields. *)
Fixpoint from_shape n fs : Prop :=
  match n with
  | LScan t => fs = fields (t_schema t)
  | LSystemScan r => fs = fields (system_schema r)
  | LFilter i p => from_shape i fs /\ columns_in (length fs) p = true
  | LJoin a b on _ ls rs =>
      from_shape a (fields ls) /\ from_shape b (fields rs) /\ fs = fields ls ++ fields rs
      /\ match on with Some e => columns_in (length fs) e = true | None => True end
  | LSort i ks sch => from_shape i fs /\ fs = fields sch /\ Forall (fun k => columns_in (length fs) (sk_expr k) = true) ks
  | LValues rows => rows = [MkTuple []] /\ fs = []
  | _ => False
  end.

(** A projection of such rows, maybe a part of it: rows of this width. *)
Fixpoint query_shape n (w : nat) : Prop :=
  match n with
  | LProject i es => exists fs, from_shape i fs /\ Forall (fun e => columns_in (length fs) e = true) es /\ w = length es
  | LLimit i _ | LOffset i _ => query_shape i w
  | _ => False
  end.

(** What a successful step of the binder leaves. *)
Definition binds {A} (m : BM A) scopes (Q : list Scope -> A -> Prop) : Prop := forall scopes' a, m scopes = (scopes', Ok a) -> Q scopes' a.

Lemma binds_bind {A B} (m : BM A) (f : A -> BM B) scopes Q : binds m scopes (fun scopes' a => binds (f a) scopes' Q) -> binds (m ≫= f) scopes Q.
Proof. intros H scopes' b E. apply sr_bind_inv in E as (s1 & a & E1 & E2). exact (H s1 a E1 scopes' b E2). Qed.

Lemma binds_impl {A} (m : BM A) scopes (P Q : list Scope -> A -> Prop) : binds m scopes P -> (forall scopes' a, P scopes' a -> Q scopes' a) -> binds m scopes Q.
Proof. intros H Hi scopes' a E. exact (Hi _ _ (H _ _ E)). Qed.

Lemma binds_ret {A} (a : A) scopes (Q : list Scope -> A -> Prop) : Q scopes a -> binds (mret a) scopes Q.
Proof. by intros H scopes' b [= <- <-]. Qed.

Lemma binds_lift {A} (r : res QueryError A) scopes (Q : list Scope -> A -> Prop) : (forall a, r = Ok a -> Q scopes a) -> binds (sr_lift r) scopes Q.
Proof. intros H scopes' a [= <- E]. by apply H. Qed.

Lemma binds_expr e scopes (Q : list Scope -> Expr -> Prop) : (forall x, columns_in (width scopes) x = true -> Q scopes x) -> binds (bind e) scopes Q.
Proof. intros H scopes' x [= <- E]. apply H. by eapply bound_ranged. Qed.

Lemma binds_collect {A B} (f : A -> BM B) (P : B -> Prop) l scopes : (forall a, binds (f a) scopes (fun scopes' b => scopes' = scopes /\ P b)) ->
  binds (sr_collect f l) scopes (fun scopes' bs => scopes' = scopes /\ Forall P bs).
Proof.
  intros Hf. induction l as [|a l IH]; cbn [sr_collect]; [by apply binds_ret|].
  apply binds_bind. eapply binds_impl; [apply Hf|]. intros ? b [-> Hb]. apply binds_bind. eapply binds_impl; [exact IH|].
  intros ? bs [-> Hbs]. apply binds_ret. split; [done|by constructor].
Qed.

Lemma binds_fold {A B} (f : B -> A -> BM B) (P : B -> Prop) l scopes : (forall b a, P b -> binds (f b a) scopes (fun scopes' b => scopes' = scopes /\ P b)) ->
  forall b, P b -> binds (sr_fold f b l) scopes (fun scopes' b => scopes' = scopes /\ P b).
Proof.
  intros Hf. induction l as [|a l IH]; intros b Hb; cbn [sr_fold]; [by apply binds_ret|].
  apply binds_bind. eapply binds_impl; [by apply Hf|]. intros ? b' [-> Hb']. by apply IH.
Qed.

(** A node with the scope it exposes. *)
Definition exposed (p : LogicalNode * Scope) : Prop := from_shape p.1 (fields (scope_schema p.2)).

Lemma relation_fields rel s : fields (scope_schema (for_relation rel s)) = fields s.
Proof. cbn. rewrite <- list_fmap_compose. by apply list_fmap_id. Qed.

Lemma concat_fields a b : fields (scope_schema (scope_concat a b)) = fields (scope_schema a) ++ fields (scope_schema b).
Proof. cbn. by rewrite fmap_app. Qed.

Lemma pushed_width scopes s : width (scopes ++ [s]) = length (fields (scope_schema s)).
Proof. unfold width. rewrite last_snoc. cbn. by rewrite length_fmap. Qed.

Lemma factor_exposed f scopes : binds (bind_table_factor ctx f) scopes (fun scopes' p => scopes' = scopes /\ exposed p).
Proof.
  destruct f as [name alias|]; [|by apply binds_lift]. unfold bind_table_factor. apply binds_bind, binds_lift. intros parts _.
  apply binds_bind, binds_lift. intros [d leaf] _. destruct (system_resolve d leaf) as [r|].
  - apply binds_ret. split; [done|]. unfold exposed. cbn [fst snd from_shape]. by rewrite relation_fields.
  - apply binds_bind, binds_lift. intros [[p ds] tn] _. apply binds_bind, binds_lift. intros t _. apply binds_ret.
    split; [done|]. unfold exposed. cbn [fst snd from_shape]. by rewrite relation_fields.
Qed.

Lemma on_ranged combined c scopes :
  binds (bind_on combined c) scopes (fun scopes' on => scopes' = scopes /\ match on with Some e => columns_in (length (fields (scope_schema combined))) e = true | None => True end).
Proof.
  destruct c as [e|]; [|by apply binds_ret]. intros scopes' on. unfold bind_on, push_scope, pop_scope, bind, sr_modify. rewrite removelast_last.
  intros [= <- E]. split; [done|]. rewrite <- (pushed_width scopes). destruct (bind_expr (scopes ++ [combined]) e) as [x| |] eqn:Ex; [|done..]. injection E as <-.
  by eapply bound_ranged.
Qed.

Lemma join_exposed p j scopes : exposed p -> binds (bind_join ctx p j) scopes (fun scopes' p => scopes' = scopes /\ exposed p).
Proof.
  destruct p as [node scope]. intros Hp. unfold bind_join. apply binds_bind. eapply binds_impl; [apply factor_exposed|]. intros ? [rn rs] [-> Hr].
  apply binds_bind, binds_lift. intros [jt c] _. apply binds_bind. eapply binds_impl; [apply on_ranged|]. intros ? on [-> Hon]. apply binds_ret.
  split; [done|]. unfold exposed. cbn [fst snd from_shape]. rewrite concat_fields. split; [exact Hp|]. split; [exact Hr|]. split; [done|]. by rewrite <- concat_fields.
Qed.

Lemma item_exposed item scopes : binds (bind_table_with_joins ctx item) scopes (fun scopes' p => scopes' = scopes /\ exposed p).
Proof.
  apply binds_bind. eapply binds_impl; [apply factor_exposed|]. intros ? p [-> Hp]. apply binds_fold; [|exact Hp]. intros b j Hb. by apply join_exposed.
Qed.

Lemma from_exposed items scopes : binds (bind_from ctx items) scopes (fun scopes' p => scopes' = scopes /\ exposed p).
Proof.
  destruct items as [|item items]; [by apply binds_ret|]. apply binds_bind. eapply binds_impl; [apply item_exposed|]. intros ? p [-> Hp].
  apply binds_fold; [|exact Hp]. intros [node scope] it Hb. apply binds_bind. eapply binds_impl; [apply item_exposed|]. intros ? [rn rs] [-> Hr].
  apply binds_ret. split; [done|]. unfold exposed. cbn [fst snd from_shape]. by rewrite concat_fields.
Qed.

Lemma items_ranged l scopes : binds (sr_collect bind_select_item l) scopes
  (fun scopes' es => scopes' = scopes /\ Forall (Forall (fun e => columns_in (width scopes) e = true)) es).
Proof.
  apply binds_collect. intros [e|e| |]; cbn [bind_select_item].
  - apply binds_bind, binds_expr. intros x Hx. apply binds_ret. split; [done|by repeat constructor].
  - apply binds_bind, binds_expr. intros x Hx. apply binds_ret. split; [done|by repeat constructor].
  - apply binds_bind. intros scopes' s [= <- E]. unfold width. destruct (last scopes) as [s'|]; [|done]. injection E as <-. apply binds_ret.
    split; [done|]. apply Forall_map, Forall_forall. intros i Hi%elem_of_seq. apply Nat.ltb_lt. lia.
  - by apply binds_lift.
Qed.

Lemma keys_ranged l scopes : binds (bind_sort_keys l) scopes (fun scopes' ks => scopes' = scopes /\ Forall (fun k => columns_in (width scopes) (sk_expr k) = true) ks).
Proof. apply binds_collect. intros o. apply binds_bind, binds_expr. intros x Hx. by apply binds_ret. Qed.

Lemma select_shape sel ob scopes : binds (bind_select ctx sel ob) scopes (fun scopes' n => scopes' = scopes /\ exists w, query_shape n w).
Proof.
  unfold bind_select. destruct (s_distinct sel); [by apply binds_lift|]. destruct (s_group_by sel); [by apply binds_lift|].
  destruct (s_having sel); [by apply binds_lift|]. apply binds_bind. eapply binds_impl; [apply from_exposed|]. intros ? [source scope] [-> Hsrc].
  pose proof (pushed_width scopes scope) as Hw. unfold exposed in Hsrc. cbn [fst snd] in Hsrc. remember (fields (scope_schema scope)) as fs eqn:Hfs.
  apply binds_bind. intros ? [] [= <-]. apply binds_bind.
  apply (binds_impl _ _ (fun scopes' n => scopes' = scopes ++ [scope] /\ from_shape n fs)).
  { destruct (s_selection sel) as [pred|]; [|by apply binds_ret]. apply binds_bind, binds_expr. intros x Hx. apply binds_ret.
    split; [done|]. cbn [from_shape]. split; [exact Hsrc|]. by rewrite <- Hw. }
  intros ? n [-> Hn]. apply binds_bind. apply (binds_impl _ _ (fun scopes' n => scopes' = scopes ++ [scope] /\ from_shape n fs)).
  { destruct ob as [exprs|]; [|by apply binds_ret]. apply binds_bind. eapply binds_impl; [apply keys_ranged|]. intros ? ks [-> Hks].
    apply binds_bind. intros scopes' s E. unfold current_scope in E. rewrite last_snoc in E. injection E as <- <-. apply binds_ret.
    split; [done|]. cbn [from_shape]. split; [exact Hn|]. split; [exact Hfs|]. by rewrite <- Hw. }
  intros ? n' [-> Hn']. apply binds_bind. eapply binds_impl; [apply items_ranged|]. intros ? es [-> Hes]. apply binds_bind. intros ? [] [= <-].
  apply binds_ret. rewrite removelast_last. split; [done|]. exists (length (concat es)), fs. split; [exact Hn'|]. split; [|done]. rewrite <- Hw. by apply Forall_concat.
Qed.

Lemma count_bound e what scopes : binds (bind_count e what) scopes (fun scopes' _ => scopes' = scopes).
Proof.
  unfold bind_count. apply binds_bind, binds_expr. intros x _. apply binds_bind, binds_lift. intros v _. apply binds_bind, binds_lift. intros k _.
  destruct (0 <=? k)%Z; [by apply binds_ret|by apply binds_lift].
Qed.

Lemma limit_shape c n w scopes : query_shape n w -> binds (bind_limit c n) scopes (fun scopes' n => scopes' = scopes /\ query_shape n w).
Proof.
  intros Hn. destruct c as [lim off by_|]; [|by apply binds_lift]. cbn [bind_limit]. destruct by_; [by apply binds_lift|]. apply binds_bind.
  apply (binds_impl _ _ (fun scopes' n => scopes' = scopes /\ query_shape n w)).
  { destruct off as [off|]; [|by apply binds_ret]. apply binds_bind. eapply binds_impl; [apply count_bound|]. intros ? k ->. by apply binds_ret. }
  intros ? n' [-> Hn']. destruct lim as [lim|]; [|by apply binds_ret]. apply binds_bind. eapply binds_impl; [apply count_bound|]. intros ? k ->. by apply binds_ret.
Qed.

Lemma query_bound q scopes : binds (bind_query ctx q) scopes (fun scopes' n => scopes' = scopes /\ exists w, query_shape n w).
Proof.
  unfold bind_query. destruct (q_fetch q); [by apply binds_lift|]. apply binds_bind, binds_lift. intros ob _. destruct (q_body q) as [sel| |]; [|by apply binds_lift..].
  apply binds_bind. eapply binds_impl; [apply select_shape|]. intros ? n [-> [w Hw]]. destruct (q_limit_clause q) as [c|]; [|apply binds_ret; by eauto].
  eapply binds_impl; [by apply limit_shape|]. intros ? n' [-> Hn']. eauto.
Qed.
(** ** Statements *)

Lemma option_bound acc o scopes : binds (bind_option acc o) scopes (fun scopes' _ => scopes' = scopes /\ True).
Proof.
  destruct o as [| |e|]; cbn [bind_option]; [by apply binds_ret..| |by apply binds_lift].
  apply binds_bind, binds_expr. intros x _. apply binds_bind, binds_lift. intros j _. by apply binds_ret.
Qed.

Lemma schema_bound cols scopes : binds (bind_schema cols) scopes (fun scopes' _ => scopes' = scopes).
Proof.
  destruct cols as [|c cols]; [by apply binds_lift|]. apply binds_bind. eapply binds_impl; [apply (binds_collect _ (fun _ => True))|].
  - intros col. apply binds_bind, binds_lift. intros ty _. apply binds_bind. eapply binds_impl; [apply (binds_fold _ (fun _ => True)); [|done]|].
    + intros b o _. apply option_bound.
    + intros ? [nl d] [-> _]. by apply binds_ret.
  - intros ? fs [-> _]. by apply binds_ret.
Qed.

(** A statement leaves the scopes as it found them. *)
Lemma statement_bound st scopes : binds (bind_statement ctx st) scopes (fun scopes' _ => scopes' = scopes).
Proof.
  destruct st as [q|ins|ct|nm ine w o d|]; cbn [bind_statement]; [| | | |by apply binds_lift].
  - eapply binds_impl; [apply query_bound|]. by intros ? n [-> _].
  - unfold bind_insert_statement. destruct (ins_table ins) as [name|]; [|by apply binds_lift]. apply binds_bind, binds_lift. intros [[p ds] t] _.
    apply binds_bind, binds_lift. intros tab _. apply binds_bind, binds_lift. intros tg _. destruct (ins_source ins) as [src|]; [|by apply binds_lift].
    destruct (q_body src); [by apply binds_lift| |by apply binds_lift]. by intros scopes' a [= <- _].
  - unfold bind_create_table. destruct (ct_query ct); [by apply binds_lift|]. destruct (_ || _); [by apply binds_lift|]. destruct (ct_constraints ct); [by apply binds_lift|].
    apply binds_bind, binds_lift. intros [[p ds] t] _. apply binds_bind, binds_lift. intros pm _. apply binds_bind, binds_lift. intros pm' _.
    apply binds_bind, binds_lift. intros dm _. apply binds_bind, binds_lift. intros dm' _. apply binds_bind. eapply binds_impl; [apply schema_bound|].
    intros ? sch ->. by apply binds_ret.
  - unfold bind_create_schema. destruct (_ || _ || _); [by apply binds_lift|]. destruct nm as [name|]; [|by apply binds_lift].
    apply binds_bind, binds_lift. intros [p ds] _. apply binds_bind, binds_lift. intros pm _. apply binds_bind, binds_lift. intros pm' _. by apply binds_ret.
Qed.

Lemma bound_alone (stmts : list Statement) :
  (sr_collect (bind_statement ctx) stmts []).2 = collect_res (map (fun st => (bind_statement ctx st []).2) stmts).
Proof.
  induction stmts as [|st stmts IH]; [done|]. cbn [sr_collect map collect_res]. unfold mbind at 1, sr_bind at 1.
  destruct (bind_statement ctx st []) as [scopes [n|e|]] eqn:E; [|done..]. rewrite (statement_bound st [] scopes n E).
  cbn [snd]. rewrite <- IH. unfold mbind, sr_bind. by destruct (sr_collect (bind_statement ctx) stmts []) as [? [l|e|]].
Qed.

(** A text is planned statement by statement: one binder binds all the statements in
    turn, and leaves no scope behind for the next; registered rules change nothing. *)
Lemma plan_default {PS : SqlParser} rules prules p sql stmts : builder_build (with_physical_rules prules (with_logical_rules rules builder_default)) = Ok p ->
  parse_sql sql = Some stmts ->
  plan p sql ctx = (logical ← collect_res (map (fun st => (bind_statement ctx st []).2) stmts); Ok (MkPhysical sql stmts logical (map lower logical))).
Proof.
  intros Hp Hq. injection Hp as <-. rewrite <- bound_alone. unfold plan. cbn [p_parse p_analyze p_build_logical p_optimize_logical p_lower p_optimize_physical pass_run Parse raw_sql].
  rewrite Hq, bind_Ok. cbn [Analyze Bind pass_run parsed_ast parsed_sql]. by destruct (sr_collect (bind_statement ctx) stmts []).2.
Qed.

(** C32: a bound SELECT refers to the columns it has.  Whatever the tree and the
    catalog, the plan the binder makes of a SELECT is a projection (maybe cut by
    OFFSET and LIMIT) of scans, joins, a filter and a sort in which every join and
    every sort carries the schema of the rows below it, and every column reference
    of a predicate, a sort key, an ON condition or a projection is below the number
    of columns of those rows. *)
Theorem bound_select_well_formed (q : AstQuery) (scopes scopes' : list Scope) (n : LogicalNode) :
  bind_query ctx q scopes = (scopes', Ok n) -> scopes' = scopes /\ exists w, query_shape n w.
Proof. apply query_bound. Qed.
End shapes.

(** ** Answers *)

Section answers.
Context {DEC : RustDecimal} {JS : SerdeJson} {STX : StdText} {CAL : Calendar} {XC : ExprCrates} {BC : BinderCrates} {EJ : ExprJson} {PS : SqlParser}.
Context {H : Xxh3} {CRC : Crc32} {CRCc : Crc32c}.
Context {S : Type} {RS : RowStore S} {RSok : RowStoreOk S}.
Context {SP : Serde ProjectMeta} {SD : Serde DatasetMeta} {STM : Serde TableMeta} {SC : Serde ColumnMeta} {SS : Serde ColumnStats}.
Context {DECok : RustDecimalOk} {CRCok : Crc32Ok} {CRCcok : Crc32cOk}.
Implicit Types (ops : list table_op) (s : S) (n : LogicalNode) (fs : list Field).

(** The plan reads tables of the store, whose rows were written with the schemas it
    reads them by, and its expressions evaluate on the rows they meet. *)
Fixpoint evaluates ops n : Prop :=
  match n with
  | LScan t => table_wf t /\ schemas_agree ops t
  | LSystemScan r => exists l, Forall (fits (system_schema r)) l /\ forall s, rs_holds s ops -> system_rows (catalog s) r = Ok l
  | LFilter i p => evaluates ops i /\ forall li, yields ops i li -> Forall (fun t => exists v, eval p t = Ok v) li
  | LProject i es => evaluates ops i /\ forall li, yields ops i li -> Forall (fun t => exists t', projects es t t') li
  | LLimit i _ | LOffset i _ => evaluates ops i
  | LJoin a b on _ _ _ =>
      evaluates ops a /\ evaluates ops b /\ forall L R, yields ops a L -> yields ops b R -> exists m, decides on m L R
  | LSort i ks _ => evaluates ops i /\ forall li, yields ops i li -> exists K, Forall (fun t => sort_key_bytes t ks = Ok (K t)) li
  | LValues _ => True
  | LInsert _ _ | LDelete _ _ | LCreateTable _ _ _ _ _ | LCreateDataset _ _ _ => False
  end.

(** The merge joins of the plan meet keys they can compare: an inner equi-join has no
    NULL key on either side and its keys are values of one orderable type.  Past a
    matching group the merge compares a NULL key and fails, although the query has
    rows. *)
Fixpoint mergeable ops n : Prop :=
  match n with
  | LFilter i _ | LProject i _ | LLimit i _ | LOffset i _ | LSort i _ _ => mergeable ops i
  | LJoin a b on jt ls _ =>
      mergeable ops a /\ mergeable ops b
      /\ forall lk rk, jt = JInner -> equi_join_keys on (length (fields ls)) = Some (lk, rk) ->
           exists ty, orderable ty = true /\ (forall L, yields ops a L -> forall l, l ∈ L -> has_key ty lk l (key_of lk l))
             /\ (forall R, yields ops b R -> forall r, r ∈ R -> has_key ty rk r (key_of rk r))
  | _ => True
  end.

Lemma shape_arity n : forall fs, from_shape n fs -> output_arity (lower n) = length fs.
Proof.
  induction n as [t|r|i IH p|i IH es|i IH c|i IH c|a IHa b IHb on jt ls rs|i IH ks sch|rows|t i IH|t i IH|p d nm sc o|p nm e]; intros fs Hs; cbn [from_shape] in Hs; try (destruct Hs; fail).
  - by subst.
  - by subst.
  - destruct Hs as [Hs _]. by apply IH.
  - destruct Hs as (Ha & Hb & -> & _). rewrite length_app, <- (IHa _ Ha), <- (IHb _ Hb). cbn [lower]. unfold lower_join.
    destruct jt; try reflexivity. destruct (equi_join_keys on (length (fields ls))) as [[lk rk]|]; reflexivity.
  - destruct Hs as [Hs _]. by apply IH.
  - destruct Hs as [-> ->]. reflexivity.
Qed.

(** Rows of a join fit the two schemas side by side. *)
Lemma concat_fits ls rs l r : fits ls l -> fits rs r -> fits (MkSchema (fields ls ++ fields rs)) (concat_rows l r).
Proof. intros Hl Hr. by apply Forall2_app. Qed.

Lemma nulls_fit fs : Forall2 column_ok fs (replicate (length fs) VNull).
Proof. induction fs as [|f fs IH]; constructor; [by left|exact IH]. Qed.

Lemma join_fits m jt ls rs L R : Forall (fits ls) L -> Forall (fits rs) R ->
  Forall (fits (MkSchema (fields ls ++ fields rs))) (join_spec m jt (length (fields ls)) (length (fields rs)) L R).
Proof.
  intros HL HR. unfold join_spec. apply Forall_app. split; apply Forall_bind; rewrite Forall_forall in *.
  - intros l Hl. unfold compose. apply Forall_app. split.
    + apply Forall_bind, Forall_forall. intros r Hr. unfold compose, match_of. destruct (m l r); [|constructor]. apply Forall_singleton, concat_fits; auto.
    + unfold left_pad. destruct (_ && _); [|constructor]. apply Forall_singleton, Forall2_app; [by apply HL|apply nulls_fit].
  - intros r Hr. unfold compose, right_pad. destruct (_ && _); [|constructor]. apply Forall_singleton, Forall2_app; [apply nulls_fit|by apply HR].
Qed.

Lemma stored_fits ops t k row : Forall op_ok ops -> schemas_agree ops t -> row_at ops t k = Some row -> fits (t_schema t) row.
Proof.
  intros Ho Hs Hr. unfold row_at in Hr. destruct (List.find (addresses t k) (reverse ops)) as [[t' row'|t' key]|] eqn:Ef; [|done..]. injection Hr as ->.
  apply List.find_some in Ef as [Hin Ha]. apply list_elem_of_In in Hin. rewrite elem_of_reverse in Hin. unfold addresses in Ha. apply andb_prop in Ha as [Ha%bool_decide_eq_true _].
  rewrite Forall_forall in Ho. destruct (Ho _ Hin) as [_ Hf]. rewrite <- (Hs _ Hin Ha). exact Hf.
Qed.

Lemma yields_fit ops s n : Forall op_ok ops -> rs_holds s ops -> forall fs l, from_shape n fs -> evaluates ops n -> yields ops n l -> Forall (fits (MkSchema fs)) l.
Proof.
  intros Ho Hh. induction n as [t|r|i IH p|i IH es|i IH c|i IH c|a IHa b IHb on jt ls rs|i IH ks sch|rows|t i IH|t i IH|p d nm sc o|p nm e];
    intros fs l Hs He Hy; cbn [from_shape evaluates yields] in *; try (destruct Hs; fail).
  - destruct Hy as (kr & -> & _ & Hm). apply Forall_forall. intros row ([k r] & -> & Hin)%list_elem_of_fmap. apply Hm in Hin. rewrite Hs. exact (stored_fits ops t k r Ho (proj2 He) Hin).
  - destruct He as (l' & Hf & E). pose proof (Hy s Hh) as Hl. rewrite (E s Hh) in Hl. injection Hl as <-. by rewrite Hs.
  - destruct Hs as [Hs _], He as [He _], Hy as (li & Hy & ->). pose proof (IH fs li Hs He Hy) as Hf. rewrite !Forall_forall in *.
    intros t Ht. apply Hf. apply list_elem_of_In in Ht. apply list_elem_of_In. by apply List.filter_In in Ht as [Ht _].
  - destruct Hs as (Ha & Hb & -> & _), He as (Ea & Eb & _), Hy as (L & R & m & YL & YR & _ & Hp). rewrite Hp. apply join_fits; [by apply IHa|by apply IHb].
  - destruct Hs as (Hs & _ & _), He as [He _], Hy as (li & K & Hy & _ & Hp & _). rewrite Hp. by apply IH.
  - destruct Hs as [-> ->]. subst. repeat constructor.
Qed.

(** A FROM clause whose expressions evaluate is safe. *)
Lemma from_safe ops s n : Forall op_ok ops -> rs_holds s ops -> forall fs, from_shape n fs -> evaluates ops n -> mergeable ops n -> safe ops n.
Proof.
  intros Ho Hh. induction n as [t|r|i IH p|i IH es|i IH c|i IH c|a IHa b IHb on jt ls rs|i IH ks sch|rows|t i IH|t i IH|p d nm sc o|p nm e];
    intros fs Hs He Hm; cbn [from_shape mergeable] in Hs, Hm; try (destruct Hs; fail).
  - exact He.
  - destruct He as (l & _ & E). exists l. exact E.
  - destruct Hs as [Hs _], He as [He Hp]. split; [by eapply IH|exact Hp].
  - destruct Hs as (Ha & Hb & -> & _), He as (Ea & Eb & Hd), Hm as (Ma & Mb & Hk).
    split; [by eapply IHa|]. split; [by eapply IHb|]. split; [by apply shape_arity|]. split; [by apply shape_arity|].
    split; [intros L HL; exact (yields_fit ops s a Ho Hh _ L Ha Ea HL)|]. split; [intros R HR; exact (yields_fit ops s b Ho Hh _ R Hb Eb HR)|]. split; [exact Hd|exact Hk].
  - destruct Hs as (Hs & -> & _), He as [He HK]. split; [by eapply IH|]. intros li Hy. destruct (HK li Hy) as [K Hf]. exists K.
    apply Forall_and. split; [exact (yields_fit ops s i Ho Hh _ li Hs He Hy)|exact Hf].
  - exact I.
Qed.

Lemma query_safe ops s n w : Forall op_ok ops -> rs_holds s ops -> query_shape n w -> evaluates ops n -> mergeable ops n -> safe ops n.
Proof.
  intros Ho Hh. induction n as [t|r|i IH p|i IH es|i IH c|i IH c|a IHa b IHb on jt ls rs|i IH ks sch|rows|t i IH|t i IH|p d nm sc o|p nm e];
    intros Hs He Hm; cbn [query_shape mergeable] in Hs, Hm; try (destruct Hs; fail).
  - destruct Hs as (fs & Hs & _ & _), He as [He Hp]. split; [by eapply from_safe|exact Hp].
  - by apply IH.
  - by apply IH.
Qed.

Lemma collected_length {E A} (l : list (res E A)) as_ : collect_res l = Ok as_ -> length as_ = length l.
Proof.
  revert as_. induction l as [|[a|e|] l IH]; intros as_ E0; cbn in E0; [by injection E0 as <-| |done..].
  destruct (collect_res l) as [l'|e|]; [|done..]. injection E0 as <-. cbn. by rewrite (IH l' eq_refl).
Qed.

(** The rows of a query have its width. *)
Lemma query_width ops n w l : query_shape n w -> yields ops n l -> Forall (fun t => length (values t) = w) l.
Proof.
  revert l. induction n as [t|r|i IH p|i IH es|i IH c|i IH c|a IHa b IHb on jt ls rs|i IH ks sch|rows|t i IH|t i IH|p d nm sc o|p nm e];
    intros l Hs Hy; cbn [query_shape yields] in *; try (destruct Hs; fail).
  - destruct Hs as (fs & _ & _ & ->), Hy as (li & _ & Hp). clear IH. induction Hp as [|t t' li l Ht _ IHl]; constructor; [|exact IHl].
    unfold projects in Ht. rewrite (collected_length _ _ Ht), length_map. done.
  - destruct Hy as (li & Hy & ->). apply Forall_take. by apply IH.
  - destruct Hy as (li & Hy & ->). apply Forall_drop. by apply IH.
Qed.

End answers.

(** ** On a database with one table and one row *)

Section witness.
Import Journal.Ieee SstHeader.TinyBloom Page.Castagnoli PlainDecimal PlainJson PlainCrates TextSerde.
#[local] Instance x_store_ops : RowStore (StorageEngine (M := BTreeMemtable.t)) := engine_rows engine_fine.
#[local] Instance x_store_ok : RowStoreOk (StorageEngine (M := BTreeMemtable.t)) := engine_rows_ok w_config c_mem c_usable.
#[local] Instance x_hash : Xxh3 := {| xxh3_64_with_seed := fun key seed => 0%Z |}.
#[local] Instance x_stats : Serde ColumnStats := {| to_value _ := None; from_value _ := None |}.
#[local] Instance x_binder : BinderCrates := {| expr_from_json := fun _ => None; d_to_f32 := fun _ => None |}.
#[local] Instance x_json : ExprJson := {| expr_to_json := fun _ => None |}.

(** [SELECT id FROM p.d.t AS a WHERE a.id = 7 ORDER BY id LIMIT 1]. *)
Definition x_query : AstQuery :=
  MkAstQuery false (Some (OrderExpressions [MkOrderBy (AIdentifier "id") None None]))
    (SelectBody (MkSelect false false false [MkTwj (FactorTable [Some "p"; Some "d"; Some "t"]%string (Some "a"%string)) []]
       (Some (ABinaryOp AEq (ACompoundIdentifier ["a"; "id"]%string) (AValue (ANumber (str "7"))))) [UnnamedExpr (AIdentifier "id")]))
    (Some (LimitOffset (Some (AValue (ANumber (str "1")))) None false)).

Definition x_meta {A} `{!Serde A} (t : Table) (key : list byte) (meta : A) : table_op :=
  TPut t (match meta_to_tuple key meta with Ok row => row | _ => MkTuple [] end).

Definition x_table : Table := Table_new w_pid w_did w_tid 0 "t" w_schema.
Definition x_ops : list table_op :=
  [x_meta projects_meta_table (str "p") (MkProjectMeta w_pid "p");
   x_meta datasets_meta_table (dataset_key w_pid "d") (MkDatasetMeta w_did "d");
   x_meta columns_meta_table (column_key w_tid 0) (column_meta w_tid 0 (Field_new "id" TInt64));
   x_meta columns_meta_table (column_key w_tid 1) (column_meta w_tid 1 (Field_new "name" TText));
   x_meta tables_meta_table (table_key w_pid w_did "t" 0) (MkTableMeta w_tid 0 "t" []);
   TPut x_table w_row].

Definition x_write (op : table_op) : SR (StorageEngine (M := BTreeMemtable.t)) QueryError unit :=
  match op with TPut t row => rs_put t row | TDelete t key => rs_delete t key end.
Definition x_run := sr_for x_ops x_write c_engine.
Strategy expand [x_run].

Lemma x_ops_fit : Forall (fun op => Z.of_nat (length (op_change op).1) + 27 <= u32_max)%Z x_ops.
Proof. repeat (constructor; [by vm_compute|]). constructor. Qed.

Lemma x_ops_ok : Forall op_ok x_ops.
Proof.
  repeat (constructor; [split; [repeat split; by vm_compute|]; repeat (constructor; [right; repeat split; by vm_compute|]); constructor|]). constructor.
Qed.

Lemma x_holds : rs_holds x_run.1 x_ops.
Proof.
  assert (succeeds x_run = true) as E by (vm_compute; reflexivity). apply succeeds_ok in E as [[] E]. unfold x_run at 1 in E.
  assert (is_u64 (Z.of_nat (0 + 6))) as Hu by (unfold is_u64, u64_max; lia). pose proof x_ops_ok as Hok. rewrite Forall_forall in Hok.
  pose proof (writes_ok x_write (fun op => op) x_ops) as Hw. rewrite map_id in Hw.
  refine (Hw _ c_engine [] x_run.1 c_engine_holds x_ops_fit Hu E).
  intros s ops [t row|t key] s' Hin Hh Ho Ex; destruct (Hok _ Hin) as [Ht Hf]; [exact (rs_put_ok s ops t row s' Hh Ht Hf Ho Ex)|exact (rs_delete_ok s ops t key s' Hh Ht Ho Ex)].
Qed.

Lemma x_elsewhere : Forall (fun op => incarnation (op_table op) <> incarnation x_table) (list.take 5 x_ops).
Proof. repeat (constructor; [intros E; vm_compute in E; discriminate E|]). constructor. Qed.

Lemma elsewhere_none (ops : list table_op) t k : Forall (fun op => incarnation (op_table op) <> incarnation t) ops -> row_at ops t k = None.
Proof.
  intros Ho. unfold row_at. destruct (List.find (addresses t k) (reverse ops)) as [op|] eqn:E; [|reflexivity].
  apply List.find_some in E as [Hin Ha]. apply list_elem_of_In in Hin. rewrite elem_of_reverse in Hin. apply andb_prop in Ha as [Ha%bool_decide_eq_true _].
  rewrite Forall_forall in Ho. destruct (Ho op Hin Ha).
Qed.

Lemma x_row_at k row : row_at x_ops x_table k = Some row -> row = w_row.
Proof.
  pose proof (row_at_snoc (list.take 5 x_ops) (TPut x_table w_row) x_table k) as E. change (list.take 5 x_ops ++ [TPut x_table w_row]) with x_ops in E. rewrite E.
  destruct (addresses x_table k (TPut x_table w_row)); [intros [= <-]; reflexivity|]. rewrite (elsewhere_none _ _ _ x_elsewhere). discriminate.
Qed.

Lemma x_agree : schemas_agree x_ops x_table.
Proof.
  intros op Hin Hi. change x_ops with (list.take 5 x_ops ++ [TPut x_table w_row]) in Hin. apply elem_of_app in Hin as [Hin|Hin%list_elem_of_singleton]; [|by subst].
  pose proof x_elsewhere as He. rewrite Forall_forall in He. destruct (He op Hin Hi).
Qed.

Definition x_pred : Expr := EBinary OpEq (EColumn 0) (ELiteral (VInt64 7)).
Definition x_keys : list SortKey := [MkSortKey (EColumn 0) true false].
Definition x_from : LogicalNode := LSort (LFilter (LScan x_table) x_pred) x_keys w_schema.
Definition x_plan : LogicalNode := LLimit (LProject x_from [EColumn 0]) 1.

Lemma x_rows l t : table_rows x_ops x_table l -> t ∈ l -> t = w_row.
Proof. intros (rows & -> & _ & Hm) ([k row] & -> & Hin)%list_elem_of_fmap. apply Hm, x_row_at in Hin as ->. reflexivity. Qed.

Lemma x_from_rows l t : yields x_ops x_from l -> t ∈ l -> t = w_row.
Proof.
  intros (li & K & (l0 & Hl0 & ->) & _ & Hp & _) Ht. rewrite Hp in Ht. apply list_elem_of_In, List.filter_In in Ht as [Ht _]. apply list_elem_of_In in Ht.
  exact (x_rows l0 t Hl0 Ht).
Qed.

Lemma x_evaluates : evaluates x_ops x_plan.
Proof.
  assert (table_wf x_table) as Hwf by exact (proj1 (proj1 w_user_row)). split; [split; [split; [split; [exact Hwf|exact x_agree]|]|]|].
  - intros l Hl. apply Forall_forall. intros t Ht. rewrite (x_rows l t Hl Ht). exists (VBool true). reflexivity.
  - intros l (l0 & Hl0 & ->). exists (fun t => match sort_key_bytes t x_keys with Ok k => k | _ => [] end). apply Forall_forall. intros t Ht.
    apply list_elem_of_In, List.filter_In in Ht as [Ht _]. apply list_elem_of_In in Ht. rewrite (x_rows l0 t Hl0 Ht). reflexivity.
  - intros l Hl. apply Forall_forall. intros t Ht. rewrite (x_from_rows l t Hl Ht). exists (MkTuple [VInt64 7]). reflexivity.
Qed.

Lemma bound_select_well_formed_witness : [] = ([] : list Scope) /\ exists w, query_shape x_plan w.
Proof. refine (bound_select_well_formed x_run.1 x_query [] [] x_plan _). reflexivity. Defined.
End witness.
