(* ===== verification/Server.v ===== *)
(** * The database handle and the server

    catalog/db.rs: opening a database; bins/strata-server/src/main.rs: a text run
    statement by statement, its results as rows of text, error codes, and the
    thread that owns the engine and serves requests from a channel in order.

    The wire protocol is the [pgwire] crate's: [PgWire] encodes the fields of a
    row.  A reply channel is the number of its request; [new_ids] gives the ids
    that creations mint. *)

From Stdlib Require Import Strings.Byte Strings.String ZArith Lia.
From stdpp Require Import prelude list strings.
From S2P Require Import Prelude LsmKey Journal SstHeader Memtable Journaled Lsm Engine Page Float Workspace Value ValueCodec Compare RustText Temporal Expression RowTable RowStore SystemCatalog Catalog Binder Plan Spill Sort Joins GraceHash Volcano SqlTree BindSql Planner.
Local Open Scope Z_scope.

(** ** Text of a value *)

Section text.
Context {DEC : RustDecimal} {JS : SerdeJson} {ST : StdText} {CAL : Calendar} {XC : ExprCrates}.

Definition float_text (finite is_nan nonneg : bool) (finite_repr : list byte) : list byte :=
  if finite then finite_repr
  else if is_nan then str "NaN"
  else if nonneg then str "Infinity"
  else str "-Infinity".

(** [f.is_finite()], [*f >= 0.0]. *)
Definition f_is_finite (F : FloatFormat) (b : Z) : bool := f_mag F b <? f_inf F.
Definition f_nonneg (F : FloatFormat) (b : Z) : bool := negb (f_is_nan F b) && (negb (f_neg F b) || (f_mag F b =? 0)).

Definition hex_encode (bytes : list byte) : list byte := flat_map hex_byte bytes.

Fixpoint join_parts (sep : list byte) (parts : list (list byte)) : list byte :=
  match parts with
  | [] => []
  | [p] => p
  | p :: parts' => p ++ sep ++ join_parts sep parts'
  end.

(** [None] is SQL's NULL; a date outside the calendar panics. *)
Fixpoint value_to_text (v : Value) : res QueryError (option (list byte)) :=
  match v with
  | VNull => Ok None
  | VBool b => Ok (Some (str (if b then "t" else "f")))
  | VInt16 i | VInt32 i | VInt64 i => Ok (Some (int_text i))
  | VText s => Ok (Some s)
  | VBytes b => Ok (Some (str "\x" ++ hex_encode b))
  | VJson j => Ok (Some (json_to_string j))
  | VDate d => Some <$> format_date d
  | VTimestamp t => Some <$> format_timestamptz t
  | VFloat32 f => Ok (Some (float_text (f_is_finite f32 f) (f_is_nan f32 f) (f_nonneg f32 f) (f32_to_string f)))
  | VFloat64 f => Ok (Some (float_text (f_is_finite f64 f) (f_is_nan f64 f) (f_nonneg f64 f) (f64_to_string f)))
  | VNumeric d => Ok (Some (d_to_string d))
  | VTime t => Ok (Some (format_time t))
  | VUuid u => Ok (Some (uuid_to_string u))
  | VInterval i => Ok (Some (format_interval i))
  | VArray items =>
      parts ← (fix go l := match l with
                           | [] => Ok []
                           | x :: l' => t ← value_to_text x; ts ← go l'; Ok (default (str "NULL") t :: ts)
                           end) items;
      Ok (Some (str "{" ++ join_parts (str ",") parts ++ str "}"))
  end.
End text.

(** ** Running a text *)

Section server.
Context {DEC : RustDecimal} {JS : SerdeJson} {ST : StdText} {CAL : Calendar} {XC : ExprCrates} {BC : BinderCrates} {EJ : ExprJson} {PS : SqlParser}.
Context {H : Xxh3} {CRC : Crc32} {CRCc : Crc32c}.
Context {S : Type} {RS : RowStore S}.
Context {SP : Serde ProjectMeta} {SD : Serde DatasetMeta} {STM : Serde TableMeta} {SC : Serde ColumnMeta} {SS : Serde ColumnStats}.
Context (ctx : QueryContext).

Inductive StatementResult : Type :=
| StatementRows (columns : nat) (rows : list Tuple)
| StatementAffected (n : Z).

Fixpoint output_columns (root : PlanNode) : nat :=
  match root with
  | PProject _ expressions => length expressions
  | PLimit input _ | POffset input _ => output_columns input
  | _ => 0
  end.

(** One plan of a text. *)
Definition run_plan (new_id : list byte) (p : PlanNode) : SR S QueryError StatementResult :=
  r ← run ctx new_id p;
  match r with
  | Rows stream => rows ← sr_lift (collect_res stream); mret (StatementRows (output_columns p) rows)
  | Affected n => mret (StatementAffected n)
  end.

Fixpoint run_plans (new_ids : nat -> list byte) (i : nat) (plans : list PlanNode) : SR S QueryError (list StatementResult) :=
  match plans with
  | [] => mret []
  | p :: plans' =>
      r ← run_plan (new_ids i) p;
      rest ← run_plans new_ids (i + 1)%nat plans';
      mret (r :: rest)
  end.

(** The default builder fills every slot; [expect] panics otherwise. *)
Definition run_query (new_ids : nat -> list byte) (sql : string) : SR S QueryError (list StatementResult) := fun s =>
  match builder_build builder_default with
  | Ok planner =>
      match plan planner sql s with
      | Ok pq => run_plans new_ids 0 (pq_physical pq) s
      | Err e => (s, Err e)
      | Panic => (s, Panic)
      end
  | _ => (s, Panic)
  end.

(** ** Responses *)

Inductive PgWireError : Type :=
| UserError (code : string)
| ApiError (what : string)
| EncodeError.

(** A row of [columns] text fields as the [pgwire] crate encodes it. *)
Class PgWire := { DataRow : Type; encode_fields : nat -> list (option (list byte)) -> res PgWireError DataRow }.
Context {PW : PgWire}.

Inductive Response : Type :=
| QueryResponse (columns : nat) (rows : list DataRow)
| Execution (tag : string) (rows : Z).

(** The SQLSTATE of an error. *)
Definition sqlstate (e : QueryError) : string :=
  match e with
  | QParse => "42601"
  | QCatalog _ => "42P01"
  | QUnsupported _ => "0A000"
  | QType _ => "42804"
  | QStorage e => if storage_is_exhausted e then "53000" else "58000"
  | QDecode _ | QSerde | QInternal _ => "XX000"
  end.

Definition encode_row (columns : nat) (t : Tuple) : res PgWireError DataRow :=
  texts ← map_err (fun e => UserError (sqlstate e)) (collect_res (map value_to_text (values t)));
  encode_fields columns texts.

Definition respond (r : StatementResult) : res PgWireError Response :=
  match r with
  | StatementRows columns rows => data_rows ← collect_res (map (encode_row columns) rows); Ok (QueryResponse columns data_rows)
  | StatementAffected n => Ok (Execution "OK" n)
  end.

(** What a client is told of a reply of the engine's thread. *)
Inductive Reply : Type :=
| Sent (result : res QueryError (list StatementResult))
| Dropped
| Stopped.

Definition do_query_response (reply : Reply) : res PgWireError (list Response) :=
  match reply with
  | Sent (Ok results) => collect_res (map respond results)
  | Sent (Err e) => Err (UserError (sqlstate e))
  | Sent Panic | Dropped => Err (ApiError "engine dropped the query")
  | Stopped => Err (ApiError "engine thread has stopped")
  end.

(** ** The engine's thread *)

(** The ids minted while the [k]th request is served. *)
Context (ids : nat -> nat -> list byte).

Record Request : Type := MkRequest { req_reply : nat; req_sql : string }.

(** [be_db] is [None] once the thread has ended; [be_next] counts the requests. *)
Record Backend : Type := MkBackend { be_db : option S; be_queue : list Request; be_next : nat; be_replies : list (nat * Reply) }.

(** [Backend::open], over the database its thread has opened. *)
Definition backend_open (db : S) : Backend := MkBackend (Some db) [] 0 [].

(** [do_query] puts a request into the channel, which fails once the thread has
    ended. *)
Definition backend_send (sql : string) (b : Backend) : Backend :=
  match be_db b with
  | Some _ => MkBackend (be_db b) (be_queue b ++ [MkRequest (be_next b) sql]) (be_next b + 1) (be_replies b)
  | None => MkBackend None (be_queue b) (be_next b + 1) (be_replies b ++ [(be_next b, Stopped)])
  end.

(** One turn of the thread's loop.  A panic ends the thread, and the reply
    channels of the requests it has not answered are dropped. *)
Definition backend_serve (b : Backend) : Backend :=
  match be_db b, be_queue b with
  | Some s, req :: queue =>
      match run_query (ids (req_reply req)) (req_sql req) s with
      | (_, Panic) => MkBackend None [] (be_next b) (be_replies b ++ map (fun r => (req_reply r, Dropped)) (req :: queue))
      | (s', r) => MkBackend (Some s') queue (be_next b) (be_replies b ++ [(req_reply req, Sent r)])
      end
  | _, _ => b
  end.

(** Clients and the thread, in any order. *)
Inductive backend_step : Backend -> Backend -> Prop :=
| step_send b sql : backend_step b (backend_send sql b)
| step_serve b : backend_step b (backend_serve b).
End server.

(** ** Opening a database *)

Section db.
Context {DEC : RustDecimal} {JS : SerdeJson} {CRC : Crc32} {CRCc : Crc32c} {FB : FastBloom}.
Context {SP : Serde ProjectMeta} {SD : Serde DatasetMeta} {STM : Serde TableMeta} {SC : Serde ColumnMeta} {SS : Serde ColumnStats}.

Record DbBuilder : Type := MkDbBuilder
  { db_mem_capacity : option Z; db_levels : option (list LevelConfig); db_builder_join_config : option JoinConfig }.

Record Db : Type := MkDb { db_engine : StorageEngine (M := BTreeMemtable.t); db_join_config : JoinConfig }.

Definition db_builder : DbBuilder := MkDbBuilder None None None.
Definition mem_capacity (capacity : Z) (b : DbBuilder) : DbBuilder := MkDbBuilder (Some capacity) (db_levels b) (db_builder_join_config b).
Definition levels (configs : list LevelConfig) (b : DbBuilder) : DbBuilder := MkDbBuilder (db_mem_capacity b) (Some configs) (db_builder_join_config b).
Definition join_config_of (config : JoinConfig) (b : DbBuilder) : DbBuilder := MkDbBuilder (db_mem_capacity b) (db_levels b) (Some config).

(** [DbBuilder::open]: [limit] is what the heap's file may use, [memory] what the
    machine has. *)
Definition builder_open (env : engine_env) (limit memory : Z) (project_id dataset_id : list byte) (b : DbBuilder) (dir : engine_dir) : res QueryError Db :=
  let mem := match db_mem_capacity b with Some c => BTreeMemtable.with_capacity c | None => BTreeMemtable.new end in
  engine ← map_err QStorage (match db_levels b with
                             | Some configs => engine_with_levels limit mem configs dir
                             | None => engine_new limit mem dir
                             end);
  let join_config := default (from_system memory) (db_builder_join_config b) in
  match ensure_default_namespace (RS := engine_rows env) project_id dataset_id engine with
  | (engine, Ok _) => Ok (MkDb engine join_config)
  | (_, Err e) => Err e
  | (_, Panic) => Panic
  end.

Definition db_open (env : engine_env) (limit memory : Z) (project_id dataset_id : list byte) (dir : engine_dir) : res QueryError Db :=
  builder_open env limit memory project_id dataset_id db_builder dir.

(** [query_context]: [disk] is what scratch files may use, [grace] the turns of a
    hash join. *)
Definition query_context (disk : Z) (grace : nat) (db : Db) : QueryContext := MkQueryContext (db_join_config db) disk grace.
End db.
