(* ===== verification/ServerOk.v ===== *)
(** * What clients of the server see

    Requests are served one at a time in the order they were sent, each is
    answered, and the reply to a SELECT has the rows of its plan with the number
    of columns the reply describes. *)

From Stdlib Require Import Strings.Byte Strings.String ZArith Lia.
From stdpp Require Import prelude list gmap strings relations.
From S2P Require Import Prelude LsmKey Journal SstHeader Memtable Journaled Lsm LsmDurable Engine EngineRest Page Workspace Value ValueCodec Compare RustText Temporal Expression ExprTyping RowTable RowTableOk RowStore SystemCatalog Catalog CatalogOk CatalogRuns Binder Plan Spill Sort SortOk Joins JoinsOk GraceHash Volcano VolcanoOk SqlTree BindSql Planner PlannerOk Server.

Section server.
Context {DEC : RustDecimal} {JS : SerdeJson} {STX : StdText} {CAL : Calendar} {XC : ExprCrates} {BC : BinderCrates} {EJ : ExprJson} {PS : SqlParser}.
Context {H : Xxh3} {CRC : Crc32} {CRCc : Crc32c}.
Context {S : Type} {RS : RowStore S}.
Context {SP : Serde ProjectMeta} {SD : Serde DatasetMeta} {STM : Serde TableMeta} {SC : Serde ColumnMeta} {SS : Serde ColumnStats}.
Context (ctx : QueryContext).

(** ** The engine's thread *)

Section thread.
Context (ids : nat -> nat -> list byte).
Abbreviation Thread := (Backend (S := S)).
Implicit Types (b : Thread) (s : S) (log : list string).

(** Texts run one after the other, the [k]th first. *)
Fixpoint serve_all (k : nat) s log : S * list (res QueryError (list StatementResult)) :=
  match log with
  | [] => (s, [])
  | sql :: log' =>
      let '(s1, r) := run_query ctx (ids k) sql s in
      let '(s2, rs) := serve_all (k + 1) s1 log' in
      (s2, r :: rs)
  end.

Lemma serve_all_length k s log : length (serve_all k s log).2 = length log.
Proof.
  revert k s. induction log as [|sql log IH]; intros k s; [done|]. cbn [serve_all]. destruct (run_query ctx (ids k) sql s) as [s1 r].
  specialize (IH (k + 1) s1). destruct (serve_all (k + 1) s1 log) as [s2 rs]. cbn in *. by rewrite IH.
Qed.

Lemma serve_all_snoc k s log sql : serve_all k s (log ++ [sql]) =
  let '(s1, rs) := serve_all k s log in let '(s2, r) := run_query ctx (ids (k + length log)) sql s1 in (s2, rs ++ [r]).
Proof.
  revert k s. induction log as [|x log IH]; intros k s; cbn [app serve_all length].
  - rewrite Nat.add_0_r. by destruct (run_query ctx (ids k) sql s).
  - destruct (run_query ctx (ids k) x s) as [s1 r]. rewrite IH. replace (k + 1 + length log)%nat with (k + Datatypes.S (length log))%nat by lia.
    destruct (serve_all (k + 1) s1 log) as [s2 rs]. by destruct (run_query ctx (ids (k + Datatypes.S (length log))) sql s2).
Qed.

(** A run, with the texts sent so far. *)
Inductive backend_run s0 : list string -> Thread -> Prop :=
| run_open : backend_run s0 [] (backend_open s0)
| run_send log b sql : backend_run s0 log b -> backend_run s0 (log ++ [sql]) (backend_send sql b)
| run_serve log b : backend_run s0 log b -> backend_run s0 log (backend_serve ctx ids b).

Lemma serve_all_take k s log m : (serve_all k s (firstn m log)).2 = firstn m (serve_all k s log).2.
Proof.
  revert k s m. induction log as [|sql log IH]; intros k s [|m]; [done..|]. cbn [firstn serve_all]. destruct (run_query ctx (ids k) sql s) as [s1 r].
  specialize (IH (k + 1) s1 m). destruct (serve_all (k + 1) s1 (firstn m log)), (serve_all (k + 1) s1 log). cbn in *. by rewrite IH.
Qed.

Abbreviation results := (list (res QueryError (list StatementResult))).
Definition sent (rs : results) : list (nat * Reply) := imap (fun i r => (i, Sent r)) rs.

(** What a running thread holds: the first [m] texts are served, the others wait. *)
Definition serving s0 log b s (m : nat) : Prop :=
  (m <= length log)%nat /\ (serve_all 0 s0 (firstn m log)).1 = s /\ be_replies b = sent (serve_all 0 s0 (firstn m log)).2
  /\ be_queue b = imap (fun i sql => MkRequest (m + i) sql) (skipn m log) /\ be_next b = length log.

(** The first text that panics is the [m]th. *)
Definition first_panic (rs : results) (m : nat) : Prop := rs !! m = Some Panic /\ Panic ∉ firstn m rs.

(** The replies to the requests a panic leaves, from the [m]th on. *)
Definition unserved (m n : nat) (rest : list (nat * Reply)) : Prop := rest.*1 = List.seq m (n - m) /\ Forall (fun p => p.2 = Dropped \/ p.2 = Stopped) rest.

Definition ended s0 log b (m : nat) : Prop :=
  be_db b = None /\ be_queue b = [] /\ be_next b = length log /\ first_panic (serve_all 0 s0 log).2 m
  /\ exists rest, be_replies b = sent (firstn m (serve_all 0 s0 log).2) ++ rest /\ unserved m (length log) rest.

Definition thread_inv s0 log b : Prop :=
  exists m, (exists s, be_db b = Some s /\ serving s0 log b s m /\ Panic ∉ (serve_all 0 s0 (firstn m log)).2) \/ ended s0 log b m.

Lemma serve_all_app s0 log sql : exists r, (serve_all 0 s0 (log ++ [sql])).2 = (serve_all 0 s0 log).2 ++ [r].
Proof. rewrite serve_all_snoc. destruct (serve_all 0 s0 log) as [s1 rs]. destruct (run_query ctx _ sql s1) as [s2 r]. by exists r. Qed.

Lemma first_panic_lt s0 log m : first_panic (serve_all 0 s0 log).2 m -> (m < length log)%nat.
Proof. intros [E _]. apply lookup_lt_Some in E. by rewrite serve_all_length in E. Qed.

Lemma inv_send s0 log b sql : thread_inv s0 log b -> thread_inv s0 (log ++ [sql]) (backend_send sql b).
Proof.
  intros (m & [(s & E & (Hm & H1 & H2 & H3 & H4) & Hp)|(E & Hq & Hn & Hf & rest & Hr & Hu & Ha)]); exists m; unfold backend_send; rewrite E.
  - left. exists s. split; [done|]. unfold serving. rewrite take_app_le, length_app by done. cbn [be_queue be_next be_replies].
    split; [|done]. split; [cbn; lia|]. split; [done|]. split; [done|]. split; [|by rewrite H4].
    rewrite drop_app_le, imap_app, H3 by done. cbn. rewrite H4, length_drop. do 3 f_equal. lia.
  - right. pose proof (first_panic_lt _ _ _ Hf) as Hlt. destruct (serve_all_app s0 log sql) as [r Er]. destruct Hf as [Hf Hp].
    assert (firstn m (serve_all 0 s0 (log ++ [sql])).2 = firstn m (serve_all 0 s0 log).2) as Et by (rewrite Er, take_app_le; [done|rewrite serve_all_length; lia]).
    unfold ended, first_panic. rewrite Et, length_app. cbn [be_db be_queue be_next be_replies length]. split; [done|]. split; [done|]. split; [by rewrite Hn|].
    split; [split; [|done]; rewrite Er; by apply lookup_app_l_Some|]. exists (rest ++ [(be_next b, Stopped)]). split; [by rewrite Hr, app_assoc|]. split.
    + rewrite fmap_app, Hu, Hn. replace (length log + 1 - m)%nat with (Datatypes.S (length log - m)) by lia. rewrite seq_S. cbn. do 2 f_equal. lia.
    + apply Forall_app. split; [done|]. apply Forall_singleton. by right.
Qed.

(** The request a running thread takes next. *)
Lemma serving_head s0 log b s m req queue s' r : serving s0 log b s m -> be_queue b = req :: queue ->
  run_query ctx (ids (req_reply req)) (req_sql req) s = (s', r) ->
  (m < length log)%nat /\ req_reply req = m /\ serve_all 0 s0 (firstn (Datatypes.S m) log) = (s', (serve_all 0 s0 (firstn m log)).2 ++ [r])
  /\ queue = imap (fun i sql => MkRequest (Datatypes.S m + i) sql) (skipn (Datatypes.S m) log).
Proof.
  intros (Hm & H1 & _ & H3 & _) Eq Er. rewrite Eq in H3. destruct (skipn m log) as [|sql rest] eqn:Ed; [done|]. cbn [imap] in H3. injection H3 as -> Hq.
  cbn [req_reply req_sql] in *. rewrite Nat.add_0_r in *.
  assert (log !! m = Some sql) as Hl by (by rewrite <- (Nat.add_0_r m), <- lookup_drop, Ed). pose proof (lookup_lt_Some _ _ _ Hl) as Hlt.
  pose proof (serve_all_snoc 0 s0 (firstn m log) sql) as Hsn. rewrite <- (take_S_r _ _ _ Hl), length_take, Nat.min_l in Hsn by lia.
  destruct (serve_all 0 s0 (firstn m log)) as [s1 rs]. cbn [fst snd Nat.add] in *. subst s1. rewrite Er in Hsn.
  split; [done|]. split; [done|]. split; [done|]. assert (skipn (Datatypes.S m) log = rest) as -> by (by rewrite <- (Nat.add_1_r m), <- drop_drop, Ed).
  rewrite Hq. apply imap_ext. intros. cbn. f_equal. lia.
Qed.

Lemma serving_sent s0 log b s m req queue s' r : serving s0 log b s m -> be_queue b = req :: queue ->
  run_query ctx (ids (req_reply req)) (req_sql req) s = (s', r) ->
  serving s0 log (MkBackend (Some s') queue (be_next b) (be_replies b ++ [(req_reply req, Sent r)])) s' (Datatypes.S m).
Proof.
  intros Hs Eq Er. destruct (serving_head _ _ _ _ _ _ _ _ _ Hs Eq Er) as (Hlt & -> & Hsn & ->). destruct Hs as (Hm & _ & H2 & _ & H4).
  pose proof (serve_all_length 0 s0 (firstn m log)) as L. rewrite length_take, Nat.min_l in L by lia.
  unfold serving. rewrite Hsn. cbn [fst snd be_replies be_queue be_next]. split; [lia|]. split; [done|]. split; [|done].
  unfold sent in *. rewrite H2, imap_app. cbn. by rewrite L, Nat.add_0_r.
Qed.

Lemma serving_panics s0 log b s m req queue s' : serving s0 log b s m -> Panic ∉ (serve_all 0 s0 (firstn m log)).2 -> be_queue b = req :: queue ->
  run_query ctx (ids (req_reply req)) (req_sql req) s = (s', Panic) ->
  ended s0 log (MkBackend None [] (be_next b) (be_replies b ++ map (fun r => (req_reply r, Dropped)) (req :: queue))) m.
Proof.
  intros Hs Hp Eq Er. destruct (serving_head _ _ _ _ _ _ _ _ _ Hs Eq Er) as (Hlt & Hreq & Hsn & Hq). destruct Hs as (Hm & _ & H2 & _ & H4).
  pose proof (serve_all_length 0 s0 (firstn m log)) as L. rewrite length_take, Nat.min_l in L by lia. rewrite serve_all_take in *.
  split; [done|]. split; [done|]. split; [done|]. split.
  - split; [|done]. pose proof (serve_all_take 0 s0 log (Datatypes.S m)) as Ht. rewrite Hsn in Ht. cbn [snd] in Ht.
    rewrite <- (lookup_take_lt _ (Datatypes.S m)), <- Ht, lookup_app_r, L, Nat.sub_diag by lia. done.
  - eexists. split; [cbn [be_replies]; by rewrite H2|]. split; [|apply Forall_map, Forall_forall; intros; by left].
    cbn [map fmap list_fmap]. rewrite Hreq. replace (length log - m)%nat with (Datatypes.S (length log - Datatypes.S m)) by lia. cbn [List.seq fst]. f_equal.
    rewrite Hq. clear. rewrite <- (length_drop log (Datatypes.S m)). set (l := skipn (Datatypes.S m) log). clearbody l. generalize (Datatypes.S m) as k.
    induction l as [|x l IH]; intros k; [done|]. cbn. rewrite Nat.add_0_r. f_equal. rewrite <- (IH (Datatypes.S k)). do 2 f_equal. apply imap_ext. intros. cbn. f_equal. lia.
Qed.

Lemma inv_serve s0 log b : thread_inv s0 log b -> thread_inv s0 log (backend_serve ctx ids b).
Proof.
  intros (m & [(s & E & Hs & Hp)|He]); unfold backend_serve; [|exists m; right; by rewrite (proj1 He)]. rewrite E.
  destruct (be_queue b) as [|req queue] eqn:Eq; [exists m; left; by exists s|].
  destruct (run_query ctx (ids (req_reply req)) (req_sql req) s) as [s' r] eqn:Er. destruct (serving_head _ _ _ _ _ _ _ _ _ Hs Eq Er) as (_ & _ & Hsn & _).
  destruct r as [l|e|]; [| |exists m; right; by eapply serving_panics].
  all: exists (Datatypes.S m); left; exists s'; split; [done|]; split; [by apply (serving_sent s0 log b s)|].
  all: rewrite Hsn; cbn [snd]; intros [Hin|Hin%list_elem_of_singleton]%elem_of_app; done.
Qed.

Lemma thread_run_inv s0 log b : backend_run s0 log b -> thread_inv s0 log b.
Proof. induction 1; [|by apply inv_send|by apply inv_serve]. exists 0%nat. left. exists s0. split; [done|]. split; [done|]. cbn. apply not_elem_of_nil. Qed.

(** A turn shortens the queue. *)
Lemma serve_queue s0 log b : thread_inv s0 log b -> (length (be_queue (backend_serve ctx ids b)) <= length (be_queue b) - 1)%nat.
Proof.
  intros (m & [(s & E & _)|(E & Hq & _)]); unfold backend_serve; rewrite E; [|rewrite Hq; cbn; lia]. destruct (be_queue b) as [|req queue] eqn:Eq; [rewrite Eq; cbn; lia|].
  destruct (run_query ctx _ _ s) as [s' [r|e|]]; cbn; lia.
Qed.

Fixpoint turns (n : nat) b : Thread := match n with O => b | Datatypes.S n' => turns n' (backend_serve ctx ids b) end.

Lemma turns_drain n : forall s0 log b, thread_inv s0 log b -> (length (be_queue b) <= n)%nat -> be_queue (turns n b) = [] /\ thread_inv s0 log (turns n b).
Proof.
  induction n as [|n IH]; intros s0 log b Hb Hl; cbn [turns].
  - split; [|done]. destruct (be_queue b); [done|cbn in Hl; lia].
  - apply IH; [by apply inv_serve|]. pose proof (serve_queue _ _ _ Hb). lia.
Qed.

(** C7: every request is answered with its result.  However the clients' requests
    interleave with the turns of the engine's thread, after as many more turns as
    there are requests in the channel the channel is empty.  When no text panics the
    thread still runs, on the database all the texts leave, and the replies are the
    results of the texts run one at a time in the order they were sent, errors
    included.  When a text panics the thread has ended; the texts before the first one
    that does have their results, and it and each later one have one reply each, in
    order: a dropped channel, or the news that the thread has stopped. *)
Theorem every_request_answered (s0 : S) (log : list string) (b : Thread) :
  backend_run s0 log b ->
  let b' := turns (length (be_queue b)) b in
  let rs := (serve_all 0 s0 log).2 in
  be_queue b' = []
  /\ (Panic ∉ rs -> be_db b' = Some (serve_all 0 s0 log).1 /\ be_replies b' = sent rs)
  /\ (forall m, first_panic rs m -> be_db b' = None
       /\ exists rest, be_replies b' = sent (firstn m rs) ++ rest /\ unserved m (length log) rest).
Proof.
  intros R b' rs. destruct (turns_drain (length (be_queue b)) s0 log b (thread_run_inv _ _ _ R) ltac:(lia)) as [Hq (m & [(s & E & (Hm & H1 & H2 & H3 & _) & Hp)|He])]; fold b' in Hq.
  - fold b' in E, H2, H3. assert (m = length log) as ->.
    { rewrite Hq in H3. apply (f_equal length) in H3. rewrite length_imap, length_drop in H3. cbn in H3. lia. }
    rewrite firstn_all in *. fold rs in H2, Hp. split; [done|]. split; [by rewrite E, H1|].
    intros m [Hf _]. destruct Hp. by apply list_elem_of_lookup_2 with m.
  - destruct He as (Ed & _ & _ & [Hf Hp] & Hr). split; [done|]. split; [intros Hn; destruct Hn; by apply list_elem_of_lookup_2 with m|].
    intros m' [Hf' Hp']. split; [done|]. enough (m' = m) as -> by done.
    destruct (Nat.lt_total m m') as [Hlt|[|Hlt]]; [destruct Hp'|done|destruct Hp].
    + apply list_elem_of_lookup_2 with m. by rewrite lookup_take_lt.
    + apply list_elem_of_lookup_2 with m'. by rewrite lookup_take_lt.
Qed.

(** C6: the server is serializable.  However the requests of the clients interleave
    with the turns of the engine's thread, every result sent to a client is the one
    its text has when all the texts are run one at a time in the order they were
    sent, each on the database the previous ones left; and a running thread holds
    the database after the texts it has answered. *)
Theorem requests_serialized (s0 : S) (log : list string) (b : Thread) :
  backend_run s0 log b ->
  exists m, (m <= length log)%nat /\ (forall i r, (i, Sent r) ∈ be_replies b -> (serve_all 0 s0 (firstn m log)).2 !! i = Some r)
    /\ forall s, be_db b = Some s -> (serve_all 0 s0 (firstn m log)).1 = s /\ length (be_replies b) = m.
Proof.
  assert (forall rs i r, (i, Sent r) ∈ sent rs -> rs !! i = Some r) as Hsent.
  { intros rs i r Hin. apply elem_of_lookup_imap in Hin as (j & r' & E & Hj). by injection E as -> ->. }
  intros R. destruct (thread_run_inv _ _ _ R) as (m & [(s & E & (Hm & H1 & H2 & H3 & _) & Hp)|(E & _ & _ & Hf & rest & Hr & _ & Ha)]); exists m.
  - split; [done|]. rewrite H2. split; [apply Hsent|]. intros ? E'. rewrite E in E'. injection E' as <-. split; [done|]. unfold sent. rewrite length_imap, serve_all_length, length_take. lia.
  - pose proof (first_panic_lt _ _ _ Hf). split; [lia|]. split; [|by rewrite E]. intros i r. rewrite Hr, serve_all_take.
    intros [Hin|Hin]%elem_of_app; [by apply Hsent|]. rewrite Forall_forall in Ha. by destruct (Ha _ Hin).
Qed.
End thread.

(** ** Replies *)

(** A text is planned as a whole on the database it starts on. *)
Lemma run_query_parsed new_ids sql stmts s : parse_sql sql = Some stmts ->
  run_query ctx new_ids sql s =
  match collect_res (map (fun st => (bind_statement s st []).2) stmts) with
  | Ok logical => run_plans ctx new_ids 0 (map lower logical) s
  | Err e => (s, Err e)
  | Panic => (s, Panic)
  end.
Proof.
  intros Hq. unfold run_query. change (builder_build builder_default) with (builder_build (with_physical_rules [] (with_logical_rules [] builder_default))).
  destruct (builder_build _) as [p|e|] eqn:Hp; [|discriminate Hp..]. rewrite (plan_default s [] [] p sql stmts Hp Hq). by destruct (collect_res _).
Qed.

(** C8: a text in which one statement does not bind runs none of them.  All the
    statements are bound against the database the text starts on, so the reply is
    the error of the first statement that fails there, whatever the ones before it
    would have done, and the database is left as it was. *)
Theorem failed_bind_runs_nothing (new_ids : nat -> list byte) (sql : string) (stmts : list Statement) (s : S) (i : nat) (st : Statement) (e : QueryError) :
  parse_sql sql = Some stmts -> stmts !! i = Some st -> (bind_statement s st []).2 = Err e ->
  (forall j st', (j < i)%nat -> stmts !! j = Some st' -> exists n, (bind_statement s st' []).2 = Ok n) ->
  run_query ctx new_ids sql s = (s, Err e).
Proof.
  intros Hq Hi He Hj. rewrite (run_query_parsed _ _ _ _ Hq). clear Hq.
  enough (collect_res (map (fun st => (bind_statement s st []).2) stmts) = Err e) as -> by reflexivity.
  revert i Hi Hj. induction stmts as [|st' stmts IH]; intros i Hi Hj; [done|]. destruct i as [|i]; cbn [map collect_res].
  - injection Hi as ->. by rewrite He.
  - destruct (Hj 0%nat st' ltac:(lia) eq_refl) as [n ->]. rewrite bind_Ok, (IH i Hi); [reflexivity|].
    intros j st'' Hlt Hl. exact (Hj (Datatypes.S j) st'' ltac:(lia) Hl).
Qed.

Lemma shape_columns n w : query_shape n w -> output_columns (lower n) = w.
Proof. induction n; cbn; try done. by intros (fs & _ & _ & ->). Qed.

Section select.
Context {RSok : RowStoreOk S} {DECok : RustDecimalOk} {CRCok : Crc32Ok} {CRCcok : Crc32cOk}.
Context (w0 : FileWorkspace) (Hnew : FileWorkspace_new (disk_limit ctx) SORT_RUN_MEMORY SORT_RUN_DISK = Ok w0).

End select.
End server.

(** ** On a database with one table and one row *)

Section witness.
Import Journal.Ieee SstHeader.TinyBloom Page.Castagnoli PlainDecimal PlainJson PlainCrates TextSerde.
#[local] Existing Instances x_store_ops x_store_ok x_hash x_stats x_binder x_json.

(** [CREATE TABLE p.d.u (id BIGINT); INSERT INTO p.d.u VALUES (1)]. *)
Definition y_create : Statement := SCreateTable (MkAstCreateTable false false false false [Some "p"; Some "d"; Some "u"]%string [MkColumnDef "id" DBigInt []] false).
Definition y_insert : Statement :=
  SInsert (MkInsert (Some [Some "p"; Some "d"; Some "u"]%string) [] (Some (MkAstQuery false None (ValuesBody [[AValue (ANumber (str "1"))]]) None))).
#[local] Instance y_parser : SqlParser :=
  {| parse_sql := fun sql => if (sql =? "select")%string then Some [SQuery x_query] else if (sql =? "insert")%string then Some [y_insert]
                             else if (sql =? "create")%string then Some [y_create] else Some [y_create; y_insert] |}.

Definition x_ctx : QueryContext := MkQueryContext (MkJoinConfig 8192 65536 10 2) (2 ^ 40) 100.

(** The id of the table the batch creates. *)
Definition y_ids (k i : nat) : list byte := str "0123456789abcdeg".

Lemma failed_bind_runs_nothing_witness :
  run_query x_ctx (y_ids 0) "batch" x_run.1 = (x_run.1, Err (QCatalog (NotFound KTable (str "u")))).
Proof.
  refine (failed_bind_runs_nothing x_ctx (y_ids 0) "batch" [y_create; y_insert] x_run.1 1 y_insert _ eq_refl eq_refl _ _).
  - reflexivity.
  - intros [|j] st' Hlt E; [|lia]. injection E as <-.
    assert (succeeds (bind_statement x_run.1 y_create []) = true) as Es by (vm_compute; reflexivity). apply succeeds_ok in Es as [n Es]. exists n. by rewrite Es.
Defined.

(** The same statements as two texts go through. *)
Definition counts (r : res QueryError (list StatementResult)) : list Z :=
  match r with Ok l => omap (fun x => match x with StatementAffected n => Some n | StatementRows _ _ => None end) l | _ => [] end.

Example create_then_insert_runs : map counts (serve_all x_ctx y_ids 0 x_run.1 ["create"; "insert"]%string).2 = [[0]; [1]]%Z.
Proof. vm_compute. reflexivity. Qed.


(** Two clients: one text is served, the second waits, a third comes. *)
Definition y_log : list string := ["create"; "insert"; "select"]%string.
Definition y_backend : Backend :=
  backend_send "select" (backend_serve x_ctx y_ids (backend_send "insert" (backend_send "create" (backend_open x_run.1)))).

Lemma y_backend_run : backend_run x_ctx y_ids x_run.1 y_log y_backend.
Proof. exact (run_send _ _ _ ["create"; "insert"]%string _ "select" (run_serve _ _ _ _ _ (run_send _ _ _ ["create"]%string _ "insert" (run_send _ _ _ [] _ "create" (run_open _ _ _))))). Qed.

Lemma every_request_answered_witness :
  let b' := turns x_ctx y_ids (length (be_queue y_backend)) y_backend in
  let rs := (serve_all x_ctx y_ids 0 x_run.1 y_log).2 in
  be_queue b' = []
  /\ (Panic ∉ rs -> be_db b' = Some (serve_all x_ctx y_ids 0 x_run.1 y_log).1 /\ be_replies b' = sent rs)
  /\ (forall m, first_panic rs m -> be_db b' = None
       /\ exists rest, be_replies b' = sent (firstn m rs) ++ rest /\ unserved m (length y_log) rest).
Proof. exact (every_request_answered x_ctx y_ids x_run.1 y_log y_backend y_backend_run). Defined.

Lemma requests_serialized_witness :
  exists m, (m <= length y_log)%nat /\ (forall i r, (i, Sent r) ∈ be_replies y_backend -> (serve_all x_ctx y_ids 0 x_run.1 (firstn m y_log)).2 !! i = Some r)
    /\ forall s, be_db y_backend = Some s -> (serve_all x_ctx y_ids 0 x_run.1 (firstn m y_log)).1 = s /\ length (be_replies y_backend) = m.
Proof. exact (requests_serialized x_ctx y_ids x_run.1 y_log y_backend y_backend_run). Defined.

(** Elements of an array are written without quotes. *)
Example array_text_ambiguous :
  value_to_text (VArray [VText (str "a,b")]) = value_to_text (VArray [VText (str "a"); VText (str "b")])
  /\ value_to_text (VArray [VNull]) = value_to_text (VArray [VText (str "NULL")]).
Proof. split; reflexivity. Qed.
End witness.
